(* ===== verification/_CoqProject ===== *)
-Q . S2P
Prelude.v
Words.v
Constants.v
SizeClass.v
Segment.v
Memory.v
Os.v
RegionRegistry.v
Chains.v
Sums.v
State.v
Regions.v
PageOps.v
Allocated.v
Central.v
CentralInv.v
CentralSpec.v
PoolSpec.v
CentralOps.v
Acquire.v
Heap.v
Hmalloc.v
HeapInv.v
HeapLinks.v
HeapSpec.v
HeapCreate.v
HeapMalloc.v
HeapFree.v
HeapExit.v
LargeSpec.v
HmallocSpec.v
ApiSpec.v
Client.v
Override.v
Remote.v
Lifecycle.v
Demo.v
ClientLogic.v
Fair.v
Bench.v
BenchRuns.v
BenchThreads.v
BenchEnds.v
BenchTheorems.v
BenchMain.v
ApiTheorems.v
PartTheorems.v
