(* ===== verification/Prelude.v ===== *)
(** * A verification of hmalloc

    hmalloc (src/src, src/include/hmalloc) is a malloc for multi-threaded C and
    C++ programs.  This development translates the allocator into executable
    definitions over an explicit state and proves that it is a correct allocator:
    every call within the contract returns, blocks never overlap and keep their
    contents, and the internal lists and counters always agree.

    ** The program and its parts

    A request goes down through these parts, each modelled by a file:

    - the public API (hmalloc.cpp, hmalloc.h): [Hmalloc].  Requests up to
      SMALL_SIZE_MAX go to the heap of the calling thread, larger ones get a
      region of their own;
    - the per-thread heaps (heap.h, heap.cpp): [Heap].  One list of pages per size
      class, a lock-free fast path, a slow path, thread exit;
    - the operations on one page (heap.cpp, heap.h, collect_locked of
      central.cpp): [PageOps].  Two free lists threaded through the blocks;
    - the central heap (central.h, central.cpp): [Central].  Segments, their pools
      of pages, abandoned pages, the cache of idle segments;
    - the region registry (region_registry.h, region_registry.cpp):
      [RegionRegistry].  An open-addressing hash set of region bases;
    - the OS layer (os.h, os.cpp): [Os].  Aligned mmap, munmap, accounting;
    - layout and size classes (constants.h, size_class.h, segment.h): [Constants],
      [SizeClass], [Segment];
    - the drop-in replacement of the C and C++ entry points (override.cpp):
      [Override];
    - the benchmark harness (bench.cpp), the one client of the allocator in the
      repository: [Bench], [BenchRuns], [BenchThreads], [BenchMain]; [Fair] and
      [BenchEnds] are about its schedules.

    ** How the code is modelled

    - Words are integers with their wrap-around written out ([Words]: u64, u32,
      u8); bit operations are those of Z.
    - A computation is a function from states to an [outcome] ([Prelude]): a value
      and a state, [Fault] for an access outside the objects that exist (null
      pointers, unmapped memory, indices outside arrays), or [Diverge].  The
      predicate [wp] is total correctness: the computation returns, and its
      result and state satisfy the postcondition.
    - Memory is byte-addressed ([Memory]): the links of the free lists are words
      in the blocks themselves, so a theorem about free lists is a theorem about
      the bytes the client could overwrite.  Headers of segments, pages, heaps
      and large regions are records in maps from their addresses ([State]), which
      exist exactly while their region is mapped ([Regions]).
    - A [Page] pointer is [PageAt] segment index or the sentinel [EmptyPage]; a
      heap pointer is its address; an owner is a heap or ABANDONED_OWNER.
    - Each operation is one definition with the source's name, in the order of
      the source's statements.  Loops are fixpoints with fuel; running out of
      fuel is [Diverge], so every theorem that an operation returns shows that
      the fuel is enough: walks over pages, segments and heaps have one more step
      than there are such objects, the walk over a list of blocks has one more
      than a page has blocks, probes of the hash table one more than there are
      slots, loops over classes and pages their exact count.
    - The calling thread is the argument [tid]; [t_heap] maps threads to heaps.
      The API calls of different threads are interleaved at the granularity of
      calls, which is what the mutexes of the central heap, of the registry and
      of the heap list give those parts.  What threads share without a lock is
      modelled again at the granularity of single memory accesses: the cross-thread
      free list of a page in [Remote], and the whole life of a page, with its
      owner, its plain members and the central mutex, in [Lifecycle].
    - The kernel is a parameter, the class [Kernel]; [KernelLaws] states what the
      manual pages of mmap, munmap and madvise promise; [Os.Sim] is a kernel that
      satisfies it.  One law goes beyond them: munmap of a page-aligned range
      succeeds; the code does not look at its result.  The build with and without HMALLOC_STATS is the class
      [Config].  The allocator that override.cpp finds with dlsym is a parameter.
      The class [Calm] is a predicate on the states of a kernel that fails once a
      mapping of at most 2^48 bytes has been refused.
    - The class [Ledger] says what is known of the registry.  A registration can be
      lost when the kernel refuses the first table, and a table that cannot grow
      fills up, so the invariant is proved for a registry that may have gaps
      ([unknown]), for one that has none ([complete]), which then stays so, and for
      one that has none and has slots to spare as long as the kernel is calm
      ([while_calm]), which is so at the start of the program.
    - Clients see an allocator through the class [Allocator] ([ClientLogic]): the
      calls, and the contract as steps of a set of blocks.  hmalloc is the instance
      [HmAlloc]; the theorems on the benchmark's workloads hold for every instance,
      so the system allocator that they are compared with is one as well.

    ** What is proved

    - [Chains], [Sums], [Regions], [Allocated]: linked lists in memory and in maps,
      sums over maps, disjoint regions, and [allocated st b n], the blocks that
      the clients hold in a state.  [counted] ties the counters of the OS layer to
      the regions: the bytes mapped are the sum of their lengths, which fits in the
      address space, and never above the peak.
    - Page operations ([PageOps]): each keeps [page_ok] (both free lists are chains
      of distinct carved blocks, [used] counts the others) and moves exactly the
      blocks it should.
    - The central heap ([CentralInv], [CentralSpec], [PoolSpec], [CentralOps],
      [Acquire]): [central_core] and [avail_ok] describe every list by the objects
      that must be on it and every counter by a sum; all operations keep them.
    - The heaps ([HeapInv], [HeapLinks], [HeapSpec], [HeapCreate], [HeapMalloc],
      [HeapFree], [HeapExit]): each class list holds exactly the pages its heap
      owns for the class; allocation, free, exit and statistics keep that.
    - The API ([LargeSpec], [HmallocSpec], [ApiSpec]): the invariant [inv] of the
      whole allocator and the contract of each call.
    - [Client]: an abstract allocator, a set of disjoint blocks with contents, the
      refinement of each call to it, and reachability over all sequences of calls
      by any threads.  [hazard] names the two situations that end such a run.
    - [ApiTheorems]: refinement, safety of whole runs, disjointness, malloc, free,
      realloc, calloc, aligned allocation, round trip, rejected arguments, thread
      exit, statistics.  [reachable_safe] is the safety of whole runs until one of
      the hazards is met; [calm_reachable_safe] is the safety of whole runs from the
      start of the program with no condition on the allocator's state, only on the
      kernel.  [PartTheorems]: the contracts between the parts.  [Demo]
      has the concrete runs, over [Os.Sim], that the theorems are applied to.
    - [Remote]: under every interleaving of remote frees with the owner no block is
      lost or handed out twice; a remote free that runs alone is done after a
      bounded number of steps, but for compare-and-swaps that fail for no reason.
    - [Lifecycle]: one page and any number of threads, through allocation, frees,
      exit of the owner, sweep and reuse.  The plain members of the page are only
      used by a thread that nothing can interfere with, while the page is in use its
      blocks stay the same, each in one place, and the page is recycled only when
      nobody uses it any more.
    - [ClientLogic]: each thread of a client is reasoned about with the blocks it
      holds and nothing else; the soundness theorems compose the threads again,
      under every interleaving of their calls.  [BenchTheorems]: the workloads of
      the benchmark never misuse a block, read back what they wrote and give back
      every block.  That the threaded ones end, although their threads poll, is
      proved for every fair schedule, by the ranks of [BenchEnds] and the rule of
      [Fair].  [BenchMain]: the scenarios that main chooses pass these workloads
      arguments for which that holds, on every machine, and the program leaves both
      allocators as they were, however far it gets (its loop over thread counts may
      not end, so [main] lists what runs in a given number of rounds).
    - [override_routes]: as long as the kernel is calm, or once the registry holds
      every region, the drop-in free, realloc and malloc_usable_size recognise
      every block that was handed out.
    - The layers below have their theorems in their own files: [SizeClass] (the
      table against a brute-force classifier), [Segment] (pointer recovery),
      [Os] (aligned mapping), [RegionRegistry] (runs of any length from the empty
      table refine a finite set, as long as the kernel is calm).

    Allocating calls assume [may_alloc]: the registry has a free slot to spare,
    which [calm_reachable_safe] shows as long as the kernel is calm, and the thread
    has a heap or the kernel grants it one.  Without these the code misbehaves,
    which is proved as well: [malloc_null_heap_faults] (a null heap is
    dereferenced), [region_register_full_diverges] (a full table that cannot grow
    is probed for ever), [region_register_dropped] (a registration is lost).

    ** Not modelled

    - Reorderings of relaxed atomic accesses: [Remote] interleaves accesses, and
      statistics counters are updated in sequence.
    - The moments inside a call of one thread at which a lock is released and
      another thread's call could run, other than the steps of [Remote] and
      [Lifecycle], which cover them for one page.
    - In [Lifecycle], the members of a page other than the free lists, [used],
      [reserved] and [owner]: its links, [in_use] and [block_size].  A heap is
      dropped there only after heap_destroy has
      left the page, and the sweep leaves the mutex after each page instead of
      after the last, which allows more interleavings than the code.
    - Order of destruction of thread-local and static objects at process exit.
    - The sources under src/tests (but for the reference classifier of
      test_size_class.cpp), the build files, and of bench.cpp the clock, the
      printing, and the number of resident pages, which is an argument. *)
From Stdlib Require Import ZArith Lia.
From stdpp Require Import base numbers list gmap.

#[global] Open Scope Z_scope.

(** ** Outcomes of a computation

    A step of the C++ program either returns a value, performs an access
    outside the objects that exist (null dereference, access to unmapped
    memory, index outside an array), or does not return. *)
Inductive outcome (A : Type) : Type :=
| Ok (a : A)
| Fault
| Diverge.
Arguments Ok {A} a.
Arguments Fault {A}.
Arguments Diverge {A}.

(** Evaluation of a closed computation, for concrete runs. *)
Definition is_ok {A} (o : outcome A) : bool :=
  match o with Ok _ => true | _ => false end.
Definition from_ok {A} (d : A) (o : outcome A) : A :=
  match o with Ok a => a | _ => d end.

Lemma is_ok_from_ok {A} (d : A) (o : outcome A) : is_ok o = true → o = Ok (from_ok d o).
Proof. by destruct o. Qed.

Lemma run_ok {A B} (d : A * B) (o : outcome (A * B)) a :
  is_ok o = true → fst (from_ok d o) = a → o = Ok (a, snd (from_ok d o)).
Proof. destruct o as [[x y]| |]; simpl; naive_solver. Qed.

(** The state-and-outcome monad the stateful components are written in. *)
Definition M (S A : Type) : Type := S → outcome (A * S).

Section monad.
Context {S : Type}.

#[global] Instance M_ret : MRet (M S) := λ A a s, Ok (a, s).

#[global] Instance M_bind : MBind (M S) := λ A B f m s,
  match m s with
  | Ok (a, s') => f a s'
  | Fault => Fault
  | Diverge => Diverge
  end.

Definition fault {A} : M S A := λ _, Fault.
Definition diverge {A} : M S A := λ _, Diverge.
Definition gets {A} (f : S → A) : M S A := λ s, Ok (f s, s).
Definition modify (f : S → S) : M S unit := λ s, Ok (tt, f s).

(** Reading through a partial map or array: [None] is an invalid access. *)
Definition deref {A} (o : option A) : M S A :=
  match o with Some a => mret a | None => fault end.

(** Total correctness: [wp m Q s] says that [m], started in [s], returns
    (no invalid access, no divergence) and that its result and final state
    satisfy [Q]. *)
Definition wp {A} (m : M S A) (Q : A → S → Prop) (s : S) : Prop :=
  match m s with Ok (a, s') => Q a s' | _ => False end.

Lemma wp_ret {A} (a : A) Q s : Q a s → wp (mret a) Q s.
Proof. done. Qed.

Lemma wp_bind {A B} (m : M S A) (f : A → M S B) Q s :
  wp m (λ a, wp (f a) Q) s → wp (m ≫= f) Q s.
Proof. unfold wp, mbind, M_bind. by destruct (m s) as [[a s']| |]. Qed.

Lemma wp_gets {A} (f : S → A) Q s : Q (f s) s → wp (gets f) Q s.
Proof. done. Qed.

Lemma wp_modify f Q s : Q tt (f s) → wp (modify f) Q s.
Proof. done. Qed.

Lemma wp_deref {A} (o : option A) a Q s : o = Some a → Q a s → wp (deref o) Q s.
Proof. by intros ->. Qed.

Lemma wp_mono {A} (m : M S A) (P Q : A → S → Prop) s :
  wp m P s → (∀ a s', P a s' → Q a s') → wp m Q s.
Proof. unfold wp. destruct (m s) as [[a s']| |]; eauto. Qed.

Lemma wp_ok {A} (m : M S A) Q s : wp m Q s ↔ ∃ a s', m s = Ok (a, s') ∧ Q a s'.
Proof.
  unfold wp. destruct (m s) as [[a s']| |]; naive_solver.
Qed.
End monad.

(** Run a computation on a component of a larger state. *)
Definition zoom {S T A} (get : S → T) (set : T → S → S) (m : M T A) : M S A := λ s,
  match m (get s) with
  | Ok (a, t) => Ok (a, set t s)
  | Fault => Fault
  | Diverge => Diverge
  end.

Lemma wp_zoom {S T A} (get : S → T) set (m : M T A) Q s :
  wp m (λ a t, Q a (set t s)) (get s) → wp (zoom get set m) Q s.
Proof. unfold wp, zoom. by destruct (m (get s)) as [[a t]| |]. Qed.

(** ** Automation

    [wp_step] applies the proof rule of the first command of a [wp] goal;
    [wp_steps] repeats it.  [split_and!] and [simplify_eq] are stdpp's. *)
Create HintDb hm.

Ltac wp_step :=
  lazymatch goal with
  | |- wp (mbind _ _) _ _ => apply wp_bind
  | |- wp (mret _) _ _ => apply wp_ret
  | |- wp (gets _) _ _ => apply wp_gets
  | |- wp (modify _) _ _ => apply wp_modify
  | |- wp (deref _) _ _ => eapply wp_deref; [solve [eauto with hm]|]
  | |- wp (if ?b then _ else _) _ _ => destruct b eqn:?
  end; cbv beta.

Ltac wp_pure :=
  lazymatch goal with
  | |- wp (mbind _ _) _ _ => apply wp_bind
  | |- wp (mret _) _ _ => apply wp_ret
  | |- wp (gets _) _ _ => apply wp_gets
  | |- wp (modify _) _ _ => apply wp_modify
  end; cbv beta.

Ltac wp_pures := repeat wp_pure.

(** Turn the boolean tests of the code into propositions. *)
Ltac bool_hyps :=
  repeat match goal with
  | H : _ && _ = true |- _ => apply andb_true_iff in H as [? ?]
  | H : _ && _ = false |- _ => apply andb_false_iff in H
  | H : _ || _ = true |- _ => apply orb_true_iff in H
  | H : _ || _ = false |- _ => apply orb_false_iff in H as [? ?]
  | H : negb _ = true |- _ => apply negb_true_iff in H
  | H : negb _ = false |- _ => apply negb_false_iff in H
  | H : (_ =? _) = true |- _ => apply Z.eqb_eq in H
  | H : (_ =? _) = false |- _ => apply Z.eqb_neq in H
  | H : (_ <? _) = true |- _ => apply Z.ltb_lt in H
  | H : (_ <? _) = false |- _ => apply Z.ltb_ge in H
  | H : (_ <=? _) = true |- _ => apply Z.leb_le in H
  | H : (_ <=? _) = false |- _ => apply Z.leb_gt in H
  | H : bool_decide _ = true |- _ => apply bool_decide_eq_true in H
  | H : bool_decide _ = false |- _ => apply bool_decide_eq_false in H
  end.

(** ** Generic lemmas on integer ranges and divisibility *)

Lemma forallb_seqZ (P : Z → bool) (n : Z) :
  forallb P (seqZ 0 n) = true → ∀ i, 0 ≤ i < n → P i = true.
Proof.
  intros H i Hi. rewrite forallb_forall in H. apply H.
  apply list_elem_of_In, elem_of_seqZ. lia.
Qed.

Lemma mod_0_mul (a b : Z) : b ≠ 0 → a mod b = 0 → ∃ q, a = b * q.
Proof. intros Hb H. exists (a / b). pose proof (Z.div_mod a b Hb). lia. Qed.

Lemma mod_0_trans (a b c : Z) :
  0 < b → 0 < c → b mod c = 0 → a mod b = 0 → a mod c = 0.
Proof.
  intros Hb Hc Hbc Hab. apply mod_0_mul in Hbc as [q ->]; [|lia].
  apply mod_0_mul in Hab as [r ->]; [|lia].
  rewrite <-Z.mul_assoc, Z.mul_comm. by apply Z_mod_mult.
Qed.

Lemma mod_0_add (a b c : Z) : a mod c = 0 → b mod c = 0 → (a + b) mod c = 0.
Proof.
  intros Ha Hb. rewrite Zplus_mod, Ha, Hb. by rewrite Zmod_0_l.
Qed.

Lemma mod_0_mul_l (a b c : Z) : a mod c = 0 → (a * b) mod c = 0.
Proof. intros Ha. rewrite Zmult_mod, Ha. by rewrite Z.mul_0_l, Zmod_0_l. Qed.

Lemma mod_0_mul_r (a b c : Z) : b mod c = 0 → (a * b) mod c = 0.
Proof. rewrite Z.mul_comm. apply mod_0_mul_l. Qed.
#[export] Hint Resolve mod_0_add mod_0_mul_l mod_0_mul_r : hm.
