(* ===== verification/Words.v ===== *)
(** * Machine integers

    [size_t], [uintptr_t] and [uint64_t] are 64-bit, [uint32_t] and
    [uint8_t] as named.  A value is an integer in range; an operation that
    can leave the range is followed by the wrap-around of its type. *)
From Stdlib Require Import ZArith Lia.
From stdpp Require Import base numbers list.
From S2P Require Import Prelude.

Definition u8 (z : Z) : Z := z mod 2 ^ 8.
Definition u32 (z : Z) : Z := z mod 2 ^ 32.
Definition u64 (z : Z) : Z := z mod 2 ^ 64.

(** Bitwise complement at 64 bits: [~x]. *)
Definition not64 (z : Z) : Z := u64 (Z.lnot z).

(** [SIZE_MAX]. *)
Definition SIZE_MAX : Z := 2 ^ 64 - 1.

Arguments u8 : simpl never.
Arguments u32 : simpl never.
Arguments u64 : simpl never.
Arguments not64 : simpl never.
Arguments SIZE_MAX : simpl never.

Lemma u64_small z : 0 ≤ z < 2 ^ 64 → u64 z = z.
Proof. apply Z.mod_small. Qed.

Lemma u32_small z : 0 ≤ z < 2 ^ 32 → u32 z = z.
Proof. apply Z.mod_small. Qed.

Lemma u64_range z : 0 ≤ u64 z < 2 ^ 64.
Proof. by apply Z.mod_pos_bound. Qed.

Lemma u32_range z : 0 ≤ u32 z < 2 ^ 32.
Proof. by apply Z.mod_pos_bound. Qed.

(** Masking off the low bits rounds down to a multiple of a power of two. *)
Lemma land_not64_ones x k :
  0 ≤ x < 2 ^ 64 → 0 ≤ k →
  Z.land x (not64 (2 ^ k - 1)) = x - x mod 2 ^ k.
Proof.
  intros Hx Hk. unfold not64, u64.
  rewrite <-Z.land_ones, (Z.land_comm (Z.lnot _)), Z.land_assoc by lia.
  rewrite (Z.land_ones x), (Z.mod_small x) by lia.
  replace (2 ^ k - 1) with (Z.ones k) by (rewrite Z.ones_equiv; lia).
  rewrite <-Z.ldiff_land, Z.ldiff_ones_r by lia.
  rewrite Z.shiftr_div_pow2, Z.shiftl_mul_pow2 by lia.
  pose proof (Z.div_mod x (2 ^ k)). lia.
Qed.

(** The low bits alone are the remainder. *)
Lemma land_ones_mod x k : 0 ≤ k → Z.land x (2 ^ k - 1) = x mod 2 ^ k.
Proof.
  intros Hk. rewrite <-Z.land_ones by lia. f_equal. rewrite Z.ones_equiv. lia.
Qed.

(** The idiom [x != 0 && (x & (x - 1)) == 0] recognises powers of two. *)
Lemma land_pred_pow2 x : 0 < x → Z.land x (x - 1) = 0 → x = 2 ^ Z.log2 x.
Proof.
  intros Hx Hl. pose proof (Z.log2_spec x Hx) as [H1 H2].
  destruct (decide (x = 2 ^ Z.log2 x)) as [|Hne]; [done|exfalso].
  assert (Z.log2 (x - 1) = Z.log2 x) as Hlog.
  { apply Z.log2_unique; [apply Z.log2_nonneg|lia]. }
  assert (Z.testbit (Z.land x (x - 1)) (Z.log2 x) = true) as Hbit.
  { rewrite Z.land_spec. rewrite Z.bit_log2 by lia.
    rewrite <-Hlog, Z.bit_log2; [done|].
    pose proof (Z.log2_nonneg x). pose proof (Z.pow_pos_nonneg 2 (Z.log2 x)). lia. }
  by rewrite Hl, Z.testbit_0_l in Hbit.
Qed.

Lemma pow2_land_pred k : 0 ≤ k → Z.land (2 ^ k) (2 ^ k - 1) = 0.
Proof. intros Hk. rewrite land_ones_mod by done. apply Z_mod_same_full. Qed.

(** A power of two representable at 64 bits. *)
Definition pow2 (a : Z) : Prop := ∃ k, 0 ≤ k < 64 ∧ a = 2 ^ k.

Lemma pow2_pos a : pow2 a → 0 < a.
Proof. intros (k & ? & ->). apply Z.pow_pos_nonneg; lia. Qed.

Lemma pow2_range a : pow2 a → 0 < a < 2 ^ 64.
Proof.
  intros Ha. pose proof (pow2_pos a Ha). destruct Ha as (k & ? & ->).
  split; [done|]. apply Z.pow_lt_mono_r; lia.
Qed.

Lemma pow2_land_pred_iff a :
  0 < a < 2 ^ 64 → Z.land a (a - 1) = 0 ↔ pow2 a.
Proof.
  intros Ha. split.
  - intros Hl. exists (Z.log2 a). split; [|apply land_pred_pow2; lia].
    split; [apply Z.log2_nonneg|]. apply Z.log2_lt_pow2; lia.
  - intros (k & Hk & ->). apply pow2_land_pred; lia.
Qed.

(** Divisibility among powers of two is the order. *)
Lemma pow2_divide a b : pow2 a → pow2 b → a ≤ b → b mod a = 0.
Proof.
  intros (j & Hj & ->) (k & Hk & ->) Hle.
  assert (j ≤ k) by (apply Z.pow_le_mono_r_iff with 2; lia).
  replace k with (j + (k - j)) by lia. rewrite Z.pow_add_r, Z.mul_comm by lia.
  apply Z_mod_mult.
Qed.

(** [(n + (a - 1)) & ~(a - 1)], the rounding idiom of the code. *)
Definition align_up (n a : Z) : Z :=
  Z.land (u64 (n + (a - 1))) (not64 (a - 1)).

Lemma align_up_spec n a :
  pow2 a → 0 ≤ n → n + (a - 1) < 2 ^ 64 →
  align_up n a mod a = 0 ∧ n ≤ align_up n a < n + a.
Proof.
  intros Ha Hn Hov. pose proof (pow2_pos a Ha). unfold align_up.
  rewrite u64_small by lia. destruct Ha as (k & Hk & ->).
  rewrite land_not64_ones by lia.
  pose proof (Z.mod_pos_bound (n + (2 ^ k - 1)) (2 ^ k)).
  split; [|lia]. rewrite Zminus_mod_idemp_r, Z.sub_diag. apply Zmod_0_l.
Qed.

(** When the sum wraps the result is below [a], hence below [n]: this is what
    the overflow tests of the callers detect. *)
Lemma align_up_wrap n a :
  pow2 a → 0 ≤ n < 2 ^ 64 → 2 ^ 64 ≤ n + (a - 1) → align_up n a = 0.
Proof.
  intros Ha Hn Hov. pose proof (pow2_range a Ha) as Hr.
  assert (u64 (n + (a - 1)) = n + (a - 1) - 2 ^ 64) as Hu.
  { unfold u64. symmetry. apply Zmod_unique with 1; lia. }
  unfold align_up. rewrite Hu. destruct Ha as (k & Hk & ->).
  rewrite land_not64_ones by lia.
  rewrite Z.mod_small by lia. lia.
Qed.

Lemma align_up_range n a : 0 ≤ align_up n a < 2 ^ 64.
Proof.
  unfold align_up. split; [apply Z.land_nonneg; left; apply u64_range|].
  rewrite <-(Z.mod_small (u64 (n + (a - 1))) (2 ^ 64)) by apply u64_range.
  rewrite <-Z.land_ones by lia. rewrite <-Z.land_assoc, (Z.land_comm (Z.ones 64)).
  rewrite Z.land_assoc, Z.land_ones by lia. by apply Z.mod_pos_bound.
Qed.

Lemma align_up_multiple n a : pow2 a → 0 ≤ n < 2 ^ 64 → n mod a = 0 → align_up n a = n.
Proof.
  intros Ha Hn Hm. pose proof (pow2_range a Ha) as Hr.
  destruct Ha as (k & Hk & ->).
  assert (n ≤ 2 ^ 64 - 2 ^ k) as Hle.
  { apply mod_0_mul in Hm as [q ->]; [|lia].
    assert (2 ^ 64 = 2 ^ k * 2 ^ (64 - k)) as E.
    { rewrite <-Z.pow_add_r by lia. f_equal. lia. }
    rewrite E in Hn |- *.
    assert (q < 2 ^ (64 - k)) by (apply (Z.mul_lt_mono_pos_l (2 ^ k)); lia).
    nia. }
  unfold align_up. rewrite u64_small, land_not64_ones by lia.
  rewrite Zplus_mod, Hm, Z.add_0_l, Zmod_mod, (Z.mod_small (2 ^ k - 1)) by lia. lia.
Qed.
