(* ===== verification/Constants.v ===== *)
(** * Layout constants (src/constants.h)

    The geometry of segments and pages, with the arithmetic facts the other
    components use. *)
From Stdlib Require Import ZArith Lia.
From stdpp Require Import base numbers.
From S2P Require Import Prelude Words.

Definition SEGMENT_SHIFT : Z := 22.
Definition SEGMENT_SIZE : Z := Z.shiftl 1 SEGMENT_SHIFT.
Definition SEGMENT_MASK : Z := SEGMENT_SIZE - 1.

Definition PAGE_SHIFT : Z := 16.
Definition PAGE_SIZE : Z := Z.shiftl 1 PAGE_SHIFT.
Definition PAGE_MASK : Z := PAGE_SIZE - 1.

Definition PAGES_PER_SEGMENT : Z := SEGMENT_SIZE / PAGE_SIZE.
Definition FIRST_USABLE_PAGE : Z := 1.
Definition ALLOC_ALIGN : Z := 16.
Definition SMALL_SIZE_MAX : Z := 16 * 1024.

Lemma SEGMENT_SIZE_eq : SEGMENT_SIZE = 4194304.
Proof. reflexivity. Qed.
Lemma SEGMENT_SIZE_pow : SEGMENT_SIZE = 2 ^ 22.
Proof. reflexivity. Qed.
Lemma PAGE_SIZE_eq : PAGE_SIZE = 65536.
Proof. reflexivity. Qed.
Lemma PAGES_PER_SEGMENT_eq : PAGES_PER_SEGMENT = 64.
Proof. reflexivity. Qed.

Lemma SEGMENT_SIZE_pow2 : pow2 SEGMENT_SIZE.
Proof. exists 22. done. Qed.

(** Replace the layout constants by their values in the goal and in every
    hypothesis, so that [lia] sees numbers. *)
Ltac consts :=
  change SEGMENT_SIZE with 4194304 in *; change SEGMENT_MASK with 4194303 in *;
  change SEGMENT_SHIFT with 22 in *; change PAGE_SHIFT with 16 in *;
  change PAGE_SIZE with 65536 in *; change PAGE_MASK with 65535 in *;
  change PAGES_PER_SEGMENT with 64 in *; change FIRST_USABLE_PAGE with 1 in *;
  change ALLOC_ALIGN with 16 in *; change SMALL_SIZE_MAX with 16384 in *.
