(* ===== verification/SizeClass.v ===== *)
(** * Size classes (src/size_class.h)

    The class table and its reverse lookup are built by the same loops as the
    [constexpr] function of the source and then evaluated.  Arrays are lists;
    an index outside an array is [None].  The theorems show that the table is
    well formed, that [size_class] picks the smallest class that fits (the
    brute-force reference of tests/test_size_class.cpp), that rounding wastes
    at most a quarter plus one alignment step, and that class sizes are fixed
    points of rounding. *)
From Stdlib Require Import ZArith Lia.
From stdpp Require Import base numbers list.
From S2P Require Import Prelude Words Constants.

Definition LARGE_CLASS : Z := 0xFFFFFFFF.
Definition kMaxClasses : Z := 64.
Definition kLookupEntries : Z := SMALL_SIZE_MAX / ALLOC_ALIGN.

Record SizeClasses := mkSizeClasses {
  sc_size : list Z;      (* class index -> block size *)
  sc_count : Z;
  sc_lookup : list Z     (* (n-1)/ALLOC_ALIGN -> class index *)
}.

(** The value-initialised table [SizeClasses t{}]. *)
Definition empty_classes : SizeClasses :=
  mkSizeClasses (replicate (Z.to_nat kMaxClasses) 0) 0
                (replicate (Z.to_nat kLookupEntries) 0).

(** [t.size[t.count++] = s]. *)
Definition push_class (s : Z) (t : SizeClasses) : SizeClasses :=
  mkSizeClasses (<[Z.to_nat (sc_count t) := s]> (sc_size t))
                (u32 (sc_count t + 1)) (sc_lookup t).

(** [for (s = ALLOC_ALIGN; s <= 64; s += ALLOC_ALIGN)]. *)
Fixpoint base_loop (fuel : nat) (s : Z) (t : SizeClasses) : SizeClasses :=
  match fuel with
  | O => t
  | S f => if s <=? 64 then base_loop f (u32 (s + ALLOC_ALIGN)) (push_class s t) else t
  end.

(** The inner loop [for (i = 1; i <= 4; ++i)] of one octave. *)
Fixpoint step_loop (fuel : nat) (i base step : Z) (t : SizeClasses) : SizeClasses :=
  match fuel with
  | O => t
  | S f =>
      if i <=? 4 then
        let s := u32 (base + u32 i * step) in
        step_loop f (i + 1) base step
          (if s <=? SMALL_SIZE_MAX then push_class s t else t)
      else t
  end.

(** [for (k = 6; (1 << k) < SMALL_SIZE_MAX; ++k)]. *)
Fixpoint octave_loop (fuel : nat) (k : Z) (t : SizeClasses) : SizeClasses :=
  match fuel with
  | O => t
  | S f =>
      if Z.shiftl 1 k <? SMALL_SIZE_MAX then
        let base := u32 (Z.shiftl 1 k) in
        let step := Z.shiftr base 2 in
        octave_loop f (k + 1) (step_loop 5 1 base step t)
      else t
  end.

(** [while (cls + 1 < t.count && t.size[cls] < n) ++cls]. *)
Fixpoint advance_loop (fuel : nat) (t : SizeClasses) (n cls : Z) : Z :=
  match fuel with
  | O => cls
  | S f =>
      if (u32 (cls + 1) <? sc_count t)
         && (match sc_size t !! Z.to_nat cls with Some s => s <? n | None => false end)
      then advance_loop f t n (u32 (cls + 1)) else cls
  end.

(** [for (i = 0; i < kLookupEntries; ++i)]. *)
Fixpoint lookup_loop (fuel : nat) (i cls : Z) (t : SizeClasses) : SizeClasses :=
  match fuel with
  | O => t
  | S f =>
      if i <? kLookupEntries then
        let n := u32 ((i + 1) * ALLOC_ALIGN) in
        let cls' := advance_loop (Z.to_nat kMaxClasses) t n cls in
        lookup_loop f (i + 1) cls'
          (mkSizeClasses (sc_size t) (sc_count t)
             (<[Z.to_nat i := u8 cls']> (sc_lookup t)))
      else t
  end.

(** The fuel of each loop exceeds its number of iterations: 4, 4, 8, 64 and
    1024. *)
Definition build_size_classes : SizeClasses :=
  let t := base_loop 5 ALLOC_ALIGN empty_classes in
  let t := octave_loop 10 6 t in
  lookup_loop (S (Z.to_nat kLookupEntries)) 0 0 t.

Definition kTable : SizeClasses := Eval vm_compute in build_size_classes.

Definition kNumSizeClasses : Z := sc_count kTable.
Definition num_size_classes : Z := kNumSizeClasses.

Definition class_to_size (c : Z) : option Z := sc_size kTable !! Z.to_nat c.

Definition size_class (n : Z) : option Z :=
  if SMALL_SIZE_MAX <? n then Some LARGE_CLASS
  else
    let n := if n =? 0 then 1 else n in
    sc_lookup kTable !! Z.to_nat ((n - 1) / ALLOC_ALIGN).

Definition size_class_round (n : Z) : option Z :=
  c ← size_class n; class_to_size c.

(** The reference of the test suite: the first class whose block size is at
    least [n], by scanning all classes. *)
Fixpoint ref_class_from (fuel : nat) (c n : Z) : Z :=
  match fuel with
  | O => LARGE_CLASS
  | S f =>
      if c <? num_size_classes then
        match class_to_size c with
        | Some s => if n <=? s then c else ref_class_from f (c + 1) n
        | None => LARGE_CLASS
        end
      else LARGE_CLASS
  end.
Definition ref_class (n : Z) : Z := ref_class_from (Z.to_nat kMaxClasses) 0 n.

(** ** Lemmas *)

Lemma kTable_build : build_size_classes = kTable.
Proof. vm_compute. reflexivity. Qed.

Lemma kNumSizeClasses_eq : kNumSizeClasses = 36.
Proof. reflexivity. Qed.

(** [some_is z o]: [o] is [Some z], as a boolean. *)
Definition some_is (z : Z) (o : option Z) : bool :=
  match o with Some x => x =? z | None => false end.

Lemma some_is_true z o : some_is z o = true → o = Some z.
Proof. destruct o; simpl; [|done]. intros ?. bool_hyps. by subst. Qed.

(** A property of all class indices, decided by evaluation. *)
Lemma class_forall (P : Z → Z → bool) :
  forallb (λ c, match class_to_size c with Some s => P c s | None => false end)
    (seqZ 0 kNumSizeClasses) = true →
  ∀ c, 0 ≤ c < kNumSizeClasses → ∃ s, class_to_size c = Some s ∧ P c s = true.
Proof.
  intros H c Hc. pose proof (forallb_seqZ _ _ H c Hc) as HP. cbv beta in HP.
  destruct (class_to_size c); [|done]. eauto.
Qed.

(** What the allocator uses of a class: its block size is a positive multiple
    of 16, at most 16 KiB, so at least four blocks fit in a page. *)
Lemma class_to_size_bounds c :
  0 ≤ c < kNumSizeClasses →
  ∃ s, class_to_size c = Some s ∧ 16 ≤ s ≤ SMALL_SIZE_MAX ∧ s mod ALLOC_ALIGN = 0.
Proof.
  intros Hc.
  destruct (class_forall (λ _ s, (16 <=? s) && (s <=? SMALL_SIZE_MAX) && (s mod ALLOC_ALIGN =? 0))
    ltac:(vm_compute; reflexivity) c Hc) as (s & Hs & HP).
  exists s. bool_hyps. done.
Qed.

(** What the loop that fills the reverse lookup guarantees of bucket [i], the
    requests in [16*i+1 .. 16*i+16], decided bucket by bucket. *)
Definition bucket_ok (i c : Z) : bool :=
  match class_to_size c with
  | Some s =>
      (0 <=? c) && (c <? kNumSizeClasses) && (16 * (i + 1) <=? s)
      && (s <=? (16 * i + 1) + (16 * i + 1) / 4 + ALLOC_ALIGN)
      && (c =? ref_class (16 * (i + 1)))
      && ((c =? 0) || match class_to_size (c - 1) with
                      | Some s' => s' <=? 16 * i | None => false end)
  | None => false
  end.

Fixpoint buckets_ok (i : Z) (l : list Z) : bool :=
  match l with
  | [] => true
  | c :: l' => bucket_ok i c && buckets_ok (i + 1) l'
  end.

Lemma buckets_ok_lookup i l (j : nat) c :
  buckets_ok i l = true → l !! j = Some c → bucket_ok (i + Z.of_nat j) c = true.
Proof.
  revert i j. induction l as [|c' l IH]; intros i j; simpl; [done|].
  intros ? Hj. bool_hyps. destruct j as [|j]; simplify_eq/=.
  - by rewrite Z.add_0_r.
  - replace (i + Z.of_nat (S j)) with (i + 1 + Z.of_nat j) by lia. eauto.
Qed.

Lemma kTable_buckets : buckets_ok 0 (sc_lookup kTable) = true.
Proof. vm_compute. reflexivity. Qed.

Lemma kTable_lookup_length : length (sc_lookup kTable) = 1024%nat.
Proof. vm_compute. reflexivity. Qed.

Lemma size_class_bucket n :
  1 ≤ n ≤ SMALL_SIZE_MAX →
  ∃ c, size_class n = Some c ∧ bucket_ok ((n - 1) / ALLOC_ALIGN) c = true.
Proof.
  intros Hn. unfold size_class. destruct (SMALL_SIZE_MAX <? n) eqn:E; bool_hyps; [lia|].
  destruct (n =? 0) eqn:E0; bool_hyps; [lia|]. clear E E0.
  change SMALL_SIZE_MAX with 16384 in Hn. change ALLOC_ALIGN with 16.
  assert (0 ≤ (n - 1) / 16 < 1024) as Hi.
  { split; [apply Z.div_pos|apply Z.div_lt_upper_bound]; lia. }
  destruct (lookup_lt_is_Some_2 (sc_lookup kTable) (Z.to_nat ((n - 1) / 16))) as [c Hc].
  { rewrite kTable_lookup_length. lia. }
  exists c. split; [done|].
  pose proof (buckets_ok_lookup _ _ _ _ kTable_buckets Hc) as Hb.
  by rewrite Z2Nat.id, Z.add_0_l in Hb by lia.
Qed.

(** The scan only compares with multiples of 16, so it cannot tell apart the
    requests of one bucket. *)
Lemma ref_class_from_bucket f c n :
  0 ≤ c → 1 ≤ n →
  ref_class_from f c n = ref_class_from f c (16 * ((n - 1) / 16 + 1)).
Proof.
  intros Hc Hn. revert c Hc. induction f as [|f IH]; intros c Hc; [done|].
  cbn [ref_class_from].
  destruct (c <? num_size_classes) eqn:E; [|done]. bool_hyps.
  destruct (class_to_size_bounds c) as (s & -> & Hs & Hm); [done|].
  rewrite (IH (c + 1)) by lia.
  change ALLOC_ALIGN with 16 in Hm. apply mod_0_mul in Hm as [q ->]; [|lia].
  pose proof (Z.div_mod (n - 1) 16 ltac:(lia)).
  pose proof (Z.mod_pos_bound (n - 1) 16 ltac:(lia)).
  destruct (n <=? 16 * q) eqn:E1, (16 * ((n - 1) / 16 + 1) <=? 16 * q) eqn:E2;
    bool_hyps; try done; lia.
Qed.

Lemma ref_class_bucket n :
  1 ≤ n → ref_class n = ref_class (16 * ((n - 1) / 16 + 1)).
Proof. intros Hn. by apply ref_class_from_bucket. Qed.

(** A small request gets a class index in range whose block fits it and
    whose predecessor does not. *)
Lemma size_class_spec n :
  1 ≤ n ≤ SMALL_SIZE_MAX →
  ∃ c s, size_class n = Some c ∧ class_to_size c = Some s ∧
    0 ≤ c < kNumSizeClasses ∧ n ≤ s ≤ n + n / 4 + ALLOC_ALIGN ∧ c = ref_class n ∧
    (0 < c → ∃ s', class_to_size (c - 1) = Some s' ∧ s' < n).
Proof.
  intros Hn. destruct (size_class_bucket n Hn) as (c & Hc & Hb).
  unfold bucket_ok in Hb. destruct (class_to_size c) as [s|] eqn:Hs; [|done].
  exists c, s. rewrite ref_class_bucket by lia. change ALLOC_ALIGN with 16 in *. bool_hyps.
  pose proof (Z.div_mod (n - 1) 16 ltac:(lia)).
  pose proof (Z.mod_pos_bound (n - 1) 16 ltac:(lia)).
  assert ((16 * ((n - 1) / 16) + 1) / 4 ≤ n / 4) by (apply Z.div_le_mono; lia).
  split_and!; try done; try lia. intros Hpos.
  match goal with H : _ ∨ _ |- _ => destruct H as [H|H] end; bool_hyps; [lia|].
  destruct (class_to_size (c - 1)) as [s'|]; [|done]. bool_hyps. exists s'. split; [done|lia].
Qed.

Lemma size_class_small n :
  1 ≤ n ≤ SMALL_SIZE_MAX →
  ∃ c s, size_class n = Some c ∧ 0 ≤ c < kNumSizeClasses ∧
         class_to_size c = Some s ∧ n ≤ s ∧ 16 ≤ s ≤ SMALL_SIZE_MAX ∧
         s mod ALLOC_ALIGN = 0.
Proof.
  intros Hn. destruct (size_class_spec n Hn) as (c & s & Hc & Hs & Hr & Hle & _).
  destruct (class_to_size_bounds c Hr) as (s' & Hs' & ? & ?).
  rewrite Hs in Hs'. simplify_eq. exists c, s'. split_and!; try done; lia.
Qed.

(** C23: for every small request [size_class] returns exactly the class the
    brute-force scan of the test suite finds, the smallest one that fits: its
    block size is at least the request and the previous class is too small. *)
Theorem size_class_matches_ref (n : Z) (Hn : 1 ≤ n ≤ SMALL_SIZE_MAX) :
  ∃ c s, size_class n = Some c ∧ c = ref_class n ∧ class_to_size c = Some s ∧ n ≤ s ∧
    (0 < c → ∃ s', class_to_size (c - 1) = Some s' ∧ s' < n).
Proof.
  destruct (size_class_spec n Hn) as (c & s & ? & ? & ? & ? & ? & ?).
  exists c, s. split_and!; try done; lia.
Qed.

Lemma size_class_matches_ref_witness :
  ∃ c s, size_class 65 = Some c ∧ c = ref_class 65 ∧ class_to_size c = Some s ∧ 65 ≤ s ∧
    (0 < c → ∃ s', class_to_size (c - 1) = Some s' ∧ s' < 65).
Proof. apply (size_class_matches_ref 65). unfold SMALL_SIZE_MAX. lia. Defined.

(** Internal fragmentation is bounded: a small request is served by a
    block of at most a quarter more, plus one alignment step. *)
Theorem fragmentation_bound (n : Z) (Hn : 1 ≤ n ≤ SMALL_SIZE_MAX) :
  ∃ served, size_class_round n = Some served ∧
    n ≤ served ≤ n + n / 4 + ALLOC_ALIGN.
Proof.
  destruct (size_class_spec n Hn) as (c & s & Hc & Hs & ? & ? & _).
  exists s. unfold size_class_round. rewrite Hc. done.
Qed.

Lemma fragmentation_bound_witness :
  ∃ served, size_class_round 1025 = Some served ∧
    1025 ≤ served ≤ 1025 + 1025 / 4 + ALLOC_ALIGN.
Proof. apply (fragmentation_bound 1025). unfold SMALL_SIZE_MAX. lia. Defined.

Lemma class_facts (c : Z) (Hc : 0 ≤ c < num_size_classes) :
  ∃ s, class_to_size c = Some s ∧ s mod ALLOC_ALIGN = 0 ∧
    size_class s = Some c ∧ size_class_round s = Some s ∧
    (c = num_size_classes - 1 → s = SMALL_SIZE_MAX) ∧
    (c + 1 < num_size_classes → ∃ s', class_to_size (c + 1) = Some s' ∧ s < s').
Proof.
  destruct (class_forall (λ c s, (s mod ALLOC_ALIGN =? 0) &&
      some_is c (size_class s) && some_is s (size_class_round s) &&
      (negb (c =? num_size_classes - 1) || (s =? SMALL_SIZE_MAX)) &&
      (negb (c + 1 <? num_size_classes) ||
         match class_to_size (c + 1) with Some s' => s <? s' | None => false end))
    ltac:(vm_compute; reflexivity) c Hc) as (s & Hs & HP).
  exists s. bool_hyps. split_and!; [done..|by apply some_is_true|by apply some_is_true| |].
  - intros ?. match goal with H : _ ∨ (_ =? SMALL_SIZE_MAX) = _ |- _ => destruct H end;
      bool_hyps; lia.
  - intros ?. match goal with H : _ ∨ match _ with _ => _ end = _ |- _ => destruct H end;
      bool_hyps; [lia|].
    destruct (class_to_size (c + 1)); [|done]. bool_hyps. eauto.
Qed.

(** C34: the table is well formed: every class size is a multiple of the
    alignment, sizes strictly increase, the last one is [SMALL_SIZE_MAX], and
    a class size rounds to itself and maps back to its own class. *)
Theorem size_class_roundtrip (c : Z) (Hc : 0 ≤ c < num_size_classes) :
  ∃ s, class_to_size c = Some s ∧ s mod ALLOC_ALIGN = 0 ∧
    size_class s = Some c ∧ size_class_round s = Some s ∧
    (c = num_size_classes - 1 → s = SMALL_SIZE_MAX) ∧
    (c + 1 < num_size_classes → ∃ s', class_to_size (c + 1) = Some s' ∧ s < s').
Proof. exact (class_facts c Hc). Qed.

Lemma size_class_roundtrip_witness :
  ∃ s, class_to_size 7 = Some s ∧ s mod ALLOC_ALIGN = 0 ∧
    size_class s = Some 7 ∧ size_class_round s = Some s ∧
    (7 = num_size_classes - 1 → s = SMALL_SIZE_MAX) ∧
    (7 + 1 < num_size_classes → ∃ s', class_to_size (7 + 1) = Some s' ∧ s < s').
Proof. apply (size_class_roundtrip 7). unfold num_size_classes, kNumSizeClasses; simpl; lia. Defined.

(** Class sizes grow with the class, and a class size belongs to its class. *)
Lemma class_to_size_mono c s c' s' :
  0 ≤ c ≤ c' → c' < num_size_classes → class_to_size c = Some s → class_to_size c' = Some s' → s ≤ s'.
Proof.
  intros Hc Hlt. remember (Z.to_nat (c' - c)) as d eqn:Ed. revert c s Hc Ed.
  induction d as [|d IH]; intros c s Hc Ed Hs Hs'.
  - assert (c' = c) as -> by lia. simplify_eq. lia.
  - destruct (class_facts c ltac:(lia)) as (s0 & H0 & _ & _ & _ & _ & Hx).
    destruct (Hx ltac:(lia)) as (s1 & H1 & Hl). simplify_eq.
    transitivity s1; [lia|]. apply (IH (c + 1)); (done || lia).
Qed.

Lemma size_class_of_class c s :
  0 ≤ c < num_size_classes → class_to_size c = Some s → size_class s = Some c.
Proof. intros Hc Hs. destruct (class_facts c Hc) as (s0 & H0 & _ & H1 & _). by simplify_eq. Qed.

(** A request of zero bytes is served as one of one byte. *)
Lemma size_class_zero : size_class 0 = size_class 1.
Proof. reflexivity. Qed.

Lemma size_class_request n :
  0 ≤ n ≤ SMALL_SIZE_MAX →
  ∃ c s, size_class n = Some c ∧ 0 ≤ c < kNumSizeClasses ∧
         class_to_size c = Some s ∧ n ≤ s ∧ 16 ≤ s ≤ SMALL_SIZE_MAX ∧ s mod ALLOC_ALIGN = 0.
Proof.
  intros Hn. assert (SMALL_SIZE_MAX = 16384) as E by reflexivity.
  destruct (decide (n = 0)) as [->|]; [rewrite size_class_zero|apply size_class_small; lia].
  destruct (size_class_small 1 ltac:(lia)) as (c & s & Hc). exists c, s. naive_solver lia.
Qed.

#[global] Opaque class_to_size size_class.
