(* ===== verification/Segment.v ===== *)
(** * Segments, pages and pointer recovery (src/segment.h)

    The header structs as records and the masks and shifts that recover the
    segment and the page of a pointer.

    Pointers to objects that C++ code links together are [option] values with
    [None] for [nullptr].  A [Page *] refers either to the shared sentinel
    [g_empty_page] of heap.cpp or to entry [i] of the [pages] array of the
    segment at address [s]; a [Heap *] stored as an owner is either the
    address of a heap or the tag that central.cpp stamps on abandoned pages.
    [Segment::pages] is held in a store of its own, keyed by [pageref]. *)
From Stdlib Require Import ZArith Lia.
From stdpp Require Import base numbers list gmap.
From S2P Require Import Prelude Words Constants.

Inductive SegmentKind := Small | Large.
#[export] Instance SegmentKind_eq_dec : EqDecision SegmentKind.
Proof. solve_decision. Defined.

Inductive pageref :=
| EmptyPage
| PageAt (s i : Z).
#[export] Instance pageref_eq_dec : EqDecision pageref.
Proof. solve_decision. Defined.
#[export] Instance pageref_countable : Countable pageref.
Proof.
  refine (inj_countable'
    (λ r, match r with EmptyPage => None | PageAt s i => Some (s, i) end)
    (λ o, match o with None => EmptyPage | Some (s, i) => PageAt s i end) _).
  by intros [].
Defined.

Inductive heapref :=
| ABANDONED_OWNER
| HeapAt (a : Z).
#[export] Instance heapref_eq_dec : EqDecision heapref.
Proof. solve_decision. Defined.

(** Per-page metadata.  [free] and [thread_free] are addresses of blocks. *)
Record Page := mkPage {
  pg_free : option Z;  (* local free list *)
  pg_used : Z;  (* blocks handed out, the owner's view *)
  pg_capacity : Z;  (* blocks the page can ever hold *)
  pg_reserved : Z;  (* blocks carved so far *)
  pg_block_size : Z;  (* 0 if unused *)
  pg_size_class : Z;
  pg_in_use : bool;
  pg_owner : option heapref;
  pg_next : option pageref;
  pg_prev : option pageref;
  pg_area : Z;  (* base of the data region *)
  pg_thread_free : option Z  (* cross-thread free list *)
}.

Definition set_pg_free (v : option Z) (x : Page) : Page :=
  mkPage v (pg_used x) (pg_capacity x) (pg_reserved x) (pg_block_size x) (pg_size_class x) (pg_in_use x) (pg_owner x) (pg_next x) (pg_prev x) (pg_area x) (pg_thread_free x).
Definition set_pg_used (v : Z) (x : Page) : Page :=
  mkPage (pg_free x) v (pg_capacity x) (pg_reserved x) (pg_block_size x) (pg_size_class x) (pg_in_use x) (pg_owner x) (pg_next x) (pg_prev x) (pg_area x) (pg_thread_free x).
Definition set_pg_capacity (v : Z) (x : Page) : Page :=
  mkPage (pg_free x) (pg_used x) v (pg_reserved x) (pg_block_size x) (pg_size_class x) (pg_in_use x) (pg_owner x) (pg_next x) (pg_prev x) (pg_area x) (pg_thread_free x).
Definition set_pg_reserved (v : Z) (x : Page) : Page :=
  mkPage (pg_free x) (pg_used x) (pg_capacity x) v (pg_block_size x) (pg_size_class x) (pg_in_use x) (pg_owner x) (pg_next x) (pg_prev x) (pg_area x) (pg_thread_free x).
Definition set_pg_block_size (v : Z) (x : Page) : Page :=
  mkPage (pg_free x) (pg_used x) (pg_capacity x) (pg_reserved x) v (pg_size_class x) (pg_in_use x) (pg_owner x) (pg_next x) (pg_prev x) (pg_area x) (pg_thread_free x).
Definition set_pg_size_class (v : Z) (x : Page) : Page :=
  mkPage (pg_free x) (pg_used x) (pg_capacity x) (pg_reserved x) (pg_block_size x) v (pg_in_use x) (pg_owner x) (pg_next x) (pg_prev x) (pg_area x) (pg_thread_free x).
Definition set_pg_in_use (v : bool) (x : Page) : Page :=
  mkPage (pg_free x) (pg_used x) (pg_capacity x) (pg_reserved x) (pg_block_size x) (pg_size_class x) v (pg_owner x) (pg_next x) (pg_prev x) (pg_area x) (pg_thread_free x).
Definition set_pg_owner (v : option heapref) (x : Page) : Page :=
  mkPage (pg_free x) (pg_used x) (pg_capacity x) (pg_reserved x) (pg_block_size x) (pg_size_class x) (pg_in_use x) v (pg_next x) (pg_prev x) (pg_area x) (pg_thread_free x).
Definition set_pg_next (v : option pageref) (x : Page) : Page :=
  mkPage (pg_free x) (pg_used x) (pg_capacity x) (pg_reserved x) (pg_block_size x) (pg_size_class x) (pg_in_use x) (pg_owner x) v (pg_prev x) (pg_area x) (pg_thread_free x).
Definition set_pg_prev (v : option pageref) (x : Page) : Page :=
  mkPage (pg_free x) (pg_used x) (pg_capacity x) (pg_reserved x) (pg_block_size x) (pg_size_class x) (pg_in_use x) (pg_owner x) (pg_next x) v (pg_area x) (pg_thread_free x).
Definition set_pg_area (v : Z) (x : Page) : Page :=
  mkPage (pg_free x) (pg_used x) (pg_capacity x) (pg_reserved x) (pg_block_size x) (pg_size_class x) (pg_in_use x) (pg_owner x) (pg_next x) (pg_prev x) v (pg_thread_free x).
Definition set_pg_thread_free (v : option Z) (x : Page) : Page :=
  mkPage (pg_free x) (pg_used x) (pg_capacity x) (pg_reserved x) (pg_block_size x) (pg_size_class x) (pg_in_use x) (pg_owner x) (pg_next x) (pg_prev x) (pg_area x) v.

(** The value-initialised page: all members zero, null or false. *)
Definition zero_page : Page :=
  mkPage None 0 0 0 0 0 false None None None 0 None.

Definition USABLE_PAGES_PER_SEGMENT : Z := PAGES_PER_SEGMENT - FIRST_USABLE_PAGE.

(** Segment header; its [pages] array is the entries [PageAt s i] of the page
    store. *)
Record Segment := mkSegment {
  sg_kind : SegmentKind;
  sg_page_count : Z;
  sg_mmap_size : Z;
  sg_next : option Z;
  sg_free_list : option pageref;
  sg_free_count : Z;
  sg_avail_prev : option Z;
  sg_avail_next : option Z;
  sg_in_avail : bool
}.

Definition set_sg_kind (v : SegmentKind) (x : Segment) : Segment :=
  mkSegment v (sg_page_count x) (sg_mmap_size x) (sg_next x) (sg_free_list x) (sg_free_count x) (sg_avail_prev x) (sg_avail_next x) (sg_in_avail x).
Definition set_sg_page_count (v : Z) (x : Segment) : Segment :=
  mkSegment (sg_kind x) v (sg_mmap_size x) (sg_next x) (sg_free_list x) (sg_free_count x) (sg_avail_prev x) (sg_avail_next x) (sg_in_avail x).
Definition set_sg_mmap_size (v : Z) (x : Segment) : Segment :=
  mkSegment (sg_kind x) (sg_page_count x) v (sg_next x) (sg_free_list x) (sg_free_count x) (sg_avail_prev x) (sg_avail_next x) (sg_in_avail x).
Definition set_sg_next (v : option Z) (x : Segment) : Segment :=
  mkSegment (sg_kind x) (sg_page_count x) (sg_mmap_size x) v (sg_free_list x) (sg_free_count x) (sg_avail_prev x) (sg_avail_next x) (sg_in_avail x).
Definition set_sg_free_list (v : option pageref) (x : Segment) : Segment :=
  mkSegment (sg_kind x) (sg_page_count x) (sg_mmap_size x) (sg_next x) v (sg_free_count x) (sg_avail_prev x) (sg_avail_next x) (sg_in_avail x).
Definition set_sg_free_count (v : Z) (x : Segment) : Segment :=
  mkSegment (sg_kind x) (sg_page_count x) (sg_mmap_size x) (sg_next x) (sg_free_list x) v (sg_avail_prev x) (sg_avail_next x) (sg_in_avail x).
Definition set_sg_avail_prev (v : option Z) (x : Segment) : Segment :=
  mkSegment (sg_kind x) (sg_page_count x) (sg_mmap_size x) (sg_next x) (sg_free_list x) (sg_free_count x) v (sg_avail_next x) (sg_in_avail x).
Definition set_sg_avail_next (v : option Z) (x : Segment) : Segment :=
  mkSegment (sg_kind x) (sg_page_count x) (sg_mmap_size x) (sg_next x) (sg_free_list x) (sg_free_count x) (sg_avail_prev x) v (sg_in_avail x).
Definition set_sg_in_avail (v : bool) (x : Segment) : Segment :=
  mkSegment (sg_kind x) (sg_page_count x) (sg_mmap_size x) (sg_next x) (sg_free_list x) (sg_free_count x) (sg_avail_prev x) (sg_avail_next x) v.

(** The value-initialised segment header. *)
Definition zero_segment : Segment :=
  mkSegment Small 0 0 None None 0 None None false.

Record LargeHeader := mkLargeHeader {
  lh_kind : SegmentKind;
  lh_mmap_size : Z;
  lh_offset : Z;
  lh_req_size : Z
}.

(** [sizeof(LargeHeader)] on the LP64 targets: a tag byte padded to 8, and
    three [size_t]. *)
Definition sizeof_LargeHeader : Z := 32.
Definition LARGE_OFFSET : Z :=
  Z.land (sizeof_LargeHeader + (ALLOC_ALIGN - 1)) (not64 (ALLOC_ALIGN - 1)).

Definition region_base (p : Z) : Z := Z.land p (not64 SEGMENT_MASK).
Definition segment_of (p : Z) : Z := region_base p.
Definition page_index_of (p : Z) : Z := Z.shiftr (Z.land p SEGMENT_MASK) PAGE_SHIFT.
Definition page_of (s p : Z) : pageref := PageAt s (page_index_of p).

(** ** Geometry *)

(** A valid region base: non-null, segment aligned, with its segment inside
    the 64-bit address space. *)
Definition seg_base (s : Z) : Prop :=
  0 < s ∧ s mod SEGMENT_SIZE = 0 ∧ s + SEGMENT_SIZE ≤ 2 ^ 64.

Lemma region_base_mod p : 0 ≤ p < 2 ^ 64 → region_base p = p - p mod SEGMENT_SIZE.
Proof.
  intros Hp. unfold region_base, SEGMENT_MASK. rewrite SEGMENT_SIZE_pow.
  by apply land_not64_ones.
Qed.

Lemma page_index_of_div p : page_index_of p = (p mod SEGMENT_SIZE) / PAGE_SIZE.
Proof.
  unfold page_index_of, SEGMENT_MASK. rewrite SEGMENT_SIZE_pow, land_ones_mod by lia.
  by rewrite Z.shiftr_div_pow2.
Qed.

Lemma seg_base_mod_off s off :
  seg_base s → 0 ≤ off < SEGMENT_SIZE → (s + off) mod SEGMENT_SIZE = off.
Proof.
  intros (_ & Hs & _) Hoff. rewrite Zplus_mod, Hs, Z.add_0_l, Zmod_mod.
  by apply Z.mod_small.
Qed.

Lemma region_base_off s off :
  seg_base s → 0 ≤ off < SEGMENT_SIZE → region_base (s + off) = s.
Proof.
  intros Hs Hoff. rewrite region_base_mod, seg_base_mod_off by
    (done || (destruct Hs; lia)). lia.
Qed.

Lemma page_index_of_off s off :
  seg_base s → 0 ≤ off < SEGMENT_SIZE → page_index_of (s + off) = off / PAGE_SIZE.
Proof. intros. by rewrite page_index_of_div, seg_base_mod_off. Qed.

(** The base of the data area of page [i]. *)
Definition page_area (s i : Z) : Z := s + i * PAGE_SIZE.

Lemma page_offset_recover s i off :
  seg_base s → 0 ≤ i < PAGES_PER_SEGMENT → 0 ≤ off < PAGE_SIZE →
  region_base (page_area s i + off) = s ∧ page_index_of (page_area s i + off) = i.
Proof.
  intros Hs Hi Hoff. unfold page_area. rewrite <-Z.add_assoc.
  assert (0 ≤ i * PAGE_SIZE + off < SEGMENT_SIZE) by (consts; lia).
  rewrite region_base_off, page_index_of_off by done. split; [done|].
  rewrite Z.add_comm, Z_div_plus, Z.div_small by (consts; lia). lia.
Qed.

(** Data areas of different pages do not share an address. *)
Lemma page_area_inj s i s' i' a :
  seg_base s → seg_base s' → 0 ≤ i < PAGES_PER_SEGMENT → 0 ≤ i' < PAGES_PER_SEGMENT →
  page_area s i ≤ a < page_area s i + PAGE_SIZE →
  page_area s' i' ≤ a < page_area s' i' + PAGE_SIZE → s = s' ∧ i = i'.
Proof.
  intros Hs Hs' Hi Hi' Ha Ha'.
  destruct (page_offset_recover s i (a - page_area s i)) as [E1 E2]; [done|done|lia|].
  destruct (page_offset_recover s' i' (a - page_area s' i')) as [E1' E2']; [done|done|lia|].
  replace (page_area s i + (a - page_area s i)) with a in * by lia.
  replace (page_area s' i' + (a - page_area s' i')) with a in * by lia.
  split; congruence.
Qed.

(** Block [k] of a page that serves blocks of [bs] bytes. *)
Definition block_addr (s i bs k : Z) : Z := page_area s i + k * bs.

(** C22: pointer recovery.  Every byte [b] of every block of every usable page
    of a segment leads back, with the mask and the shift of [region_base] and
    [page_of], to that segment and to that page's metadata. *)
Theorem pointer_recovery (s i bs k b : Z)
    (Hs : seg_base s) (Hi : FIRST_USABLE_PAGE ≤ i < PAGES_PER_SEGMENT)
    (Hk : 0 ≤ k < PAGE_SIZE / bs) (Hb : 0 ≤ b < bs) :
  let p := block_addr s i bs k + b in
  segment_of p = s ∧ page_of (segment_of p) p = PageAt s i.
Proof.
  intros p. unfold p, block_addr, segment_of, page_of.
  assert ((k + 1) * bs ≤ PAGE_SIZE) as Hle.
  { pose proof (Z.mul_div_le PAGE_SIZE bs). nia. }
  rewrite <-Z.add_assoc.
  destruct (page_offset_recover s i (k * bs + b)) as [-> ->]; [done|consts; lia|nia|done].
Qed.

Lemma pointer_recovery_witness :
  let p := block_addr SEGMENT_SIZE 3 48 7 + 5 in
  segment_of p = SEGMENT_SIZE ∧ page_of (segment_of p) p = PageAt SEGMENT_SIZE 3.
Proof.
  apply (pointer_recovery SEGMENT_SIZE 3 48 7 5); unfold seg_base; consts;
    [split_and!; [lia|reflexivity|lia]|lia|change (65536 / 48) with 1365; lia|lia].
Defined.

(** Blocks do not overlap.  Two blocks of well-formed pages, whatever
    their block sizes, share a byte only if they are in the same page; and two
    blocks of one page share a byte only if they are the same block. *)
Theorem blocks_disjoint (s i bs k s' i' bs' k' a : Z)
    (Hs : seg_base s) (Hs' : seg_base s')
    (Hi : FIRST_USABLE_PAGE ≤ i < PAGES_PER_SEGMENT)
    (Hi' : FIRST_USABLE_PAGE ≤ i' < PAGES_PER_SEGMENT)
    (Hk : 0 ≤ k < PAGE_SIZE / bs) (Hk' : 0 ≤ k' < PAGE_SIZE / bs')
    (Ha : block_addr s i bs k ≤ a < block_addr s i bs k + bs)
    (Ha' : block_addr s' i' bs' k' ≤ a < block_addr s' i' bs' k' + bs') :
  PageAt s i = PageAt s' i' ∧ (bs = bs' → k = k').
Proof.
  unfold block_addr in *.
  assert ((k + 1) * bs ≤ PAGE_SIZE) as Hle.
  { pose proof (Z.mul_div_le PAGE_SIZE bs). nia. }
  assert ((k' + 1) * bs' ≤ PAGE_SIZE) as Hle'.
  { pose proof (Z.mul_div_le PAGE_SIZE bs'). nia. }
  destruct (page_area_inj s i s' i' a) as [-> ->]; [done|done|consts; lia|consts; lia|nia|nia|].
  split; [done|]. intros ->. nia.
Qed.

Lemma blocks_disjoint_witness :
  PageAt SEGMENT_SIZE 1 = PageAt SEGMENT_SIZE 1 ∧ (16 = 16 → 2 = 2).
Proof.
  apply (blocks_disjoint SEGMENT_SIZE 1 16 2 SEGMENT_SIZE 1 16 2
           (block_addr SEGMENT_SIZE 1 16 2 + 3));
    unfold seg_base, block_addr, page_area; consts; change (65536 / 16) with 4096;
    try lia; split_and!; (lia || reflexivity).
Defined.
