(* ===== verification/Memory.v ===== *)
(** * Byte-addressed memory

    The contents of the address space: a finite map from addresses to bytes,
    where an address that was never written reads as zero (anonymous mappings
    are zero-filled).  A free block stores its [next] pointer in its own first
    eight bytes, little endian, with zero for [nullptr]; [memset] and [memcpy]
    are the byte loops the C library specifies. *)
From Stdlib Require Import ZArith Lia.
From stdpp Require Import base numbers list gmap fin_maps.
From S2P Require Import Prelude Words.

Definition byte_at (m : gmap Z Z) (a : Z) : Z := default 0 (m !! a).

Definition in_range (p n a : Z) : bool := (p <=? a) && (a <? p + n).

Lemma in_range_true p n a : in_range p n a = true ↔ p ≤ a < p + n.
Proof. unfold in_range. rewrite andb_true_iff, Z.leb_le, Z.ltb_lt. done. Qed.

Lemma in_range_false p n a : in_range p n a = false ↔ ¬ (p ≤ a < p + n).
Proof. rewrite <-not_true_iff_false, in_range_true. done. Qed.

(** Little-endian load and store of [n] bytes. *)
Fixpoint load_le (n : nat) (m : gmap Z Z) (a : Z) : Z :=
  match n with
  | O => 0
  | S n' => byte_at m a + 256 * load_le n' m (a + 1)
  end.

Fixpoint store_le (n : nat) (m : gmap Z Z) (a v : Z) : gmap Z Z :=
  match n with
  | O => m
  | S n' => store_le n' (<[a := v mod 256]> m) (a + 1) (v / 256)
  end.

(** A fresh anonymous mapping reads as zero. *)
Definition zero_range (m : gmap Z Z) (p n : Z) : gmap Z Z :=
  filter (λ kv, in_range p n kv.1 = false) m.

Fixpoint memset (m : gmap Z Z) (a v : Z) (n : nat) : gmap Z Z :=
  match n with
  | O => m
  | S n' => memset (<[a := u8 v]> m) (a + 1) v n'
  end.

Fixpoint memcpy (m : gmap Z Z) (dst src : Z) (n : nat) : gmap Z Z :=
  match n with
  | O => m
  | S n' => memcpy (<[dst := byte_at m src]> m) (dst + 1) (src + 1) n'
  end.

(** Pointers in memory. *)
Definition ptr_of_Z (z : Z) : option Z := if z =? 0 then None else Some z.
Definition Z_of_ptr (p : option Z) : Z := default 0 p.

Definition load_ptr (m : gmap Z Z) (a : Z) : option Z := ptr_of_Z (load_le 8 m a).
Definition store_ptr (m : gmap Z Z) (a : Z) (p : option Z) : gmap Z Z :=
  store_le 8 m a (Z_of_ptr p).

(** ** Lemmas *)

Lemma byte_at_insert m a v x :
  byte_at (<[a := v]> m) x = if decide (a = x) then v else byte_at m x.
Proof. unfold byte_at. rewrite lookup_insert. by case_decide. Qed.

Lemma byte_at_store_le_out n m a v x :
  ¬ (a ≤ x < a + Z.of_nat n) → byte_at (store_le n m a v) x = byte_at m x.
Proof.
  revert m a v. induction n as [|n IH]; intros m a v Hx; [done|]. cbn [store_le].
  rewrite IH, byte_at_insert by lia. rewrite decide_False by lia. done.
Qed.

Lemma load_le_ext n m m' a :
  (∀ x, a ≤ x < a + Z.of_nat n → byte_at m x = byte_at m' x) →
  load_le n m a = load_le n m' a.
Proof.
  revert a. induction n as [|n IH]; intros a H; [done|]. cbn [load_le].
  rewrite (H a), (IH (a + 1)); [done| |lia]. intros x Hx. apply H. lia.
Qed.

Lemma load_le_store_le n m a v :
  0 ≤ v < 256 ^ Z.of_nat n → load_le n (store_le n m a v) a = v.
Proof.
  revert m a v. induction n as [|n IH]; intros m a v Hv.
  { simpl in *. lia. }
  cbn [load_le store_le]. rewrite IH.
  - rewrite byte_at_store_le_out, byte_at_insert, decide_True by (done || lia).
    pose proof (Z.div_mod v 256). lia.
  - rewrite Nat2Z.inj_succ, Z.pow_succ_r in Hv by lia.
    split; [apply Z.div_pos; lia|apply Z.div_lt_upper_bound; lia].
Qed.

Lemma load_ptr_store_ptr m a p :
  (∀ z, p = Some z → 0 < z < 2 ^ 64) → load_ptr (store_ptr m a p) a = p.
Proof.
  intros Hp. unfold load_ptr, store_ptr, ptr_of_Z.
  rewrite load_le_store_le.
  - destruct p as [z|]; simpl; [|done]. specialize (Hp z eq_refl).
    destruct (z =? 0) eqn:E; bool_hyps; [lia|done].
  - destruct p as [z|]; simpl; [|lia]. specialize (Hp z eq_refl). lia.
Qed.

Lemma load_ptr_ext m m' a :
  (∀ x, a ≤ x < a + 8 → byte_at m x = byte_at m' x) → load_ptr m a = load_ptr m' a.
Proof. intros H. unfold load_ptr. f_equal. apply load_le_ext. exact H. Qed.

Lemma byte_at_store_ptr_out m a p x :
  ¬ (a ≤ x < a + 8) → byte_at (store_ptr m a p) x = byte_at m x.
Proof. intros H. by apply byte_at_store_le_out. Qed.

Lemma load_ptr_store_ptr_ne m a p b :
  b + 8 ≤ a ∨ a + 8 ≤ b → load_ptr (store_ptr m a p) b = load_ptr m b.
Proof.
  intros H. apply load_ptr_ext. intros x Hx. apply byte_at_store_ptr_out. lia.
Qed.

Lemma byte_at_zero_range m p n x :
  byte_at (zero_range m p n) x = if in_range p n x then 0 else byte_at m x.
Proof.
  unfold byte_at, zero_range. destruct (in_range p n x) eqn:E.
  - rewrite map_lookup_filter_None_2; [done|]. right. intros v _. simpl. congruence.
  - destruct (m !! x) eqn:Hx.
    + erewrite map_lookup_filter_Some_2; done.
    + by rewrite map_lookup_filter_None_2 by eauto.
Qed.

Lemma byte_at_memset m a v n x :
  byte_at (memset m a v n) x = if in_range a (Z.of_nat n) x then u8 v else byte_at m x.
Proof.
  revert m a. induction n as [|n IH]; intros m a; cbn [memset].
  - destruct (in_range a (Z.of_nat 0) x) eqn:E; [|done].
    apply in_range_true in E. lia.
  - rewrite IH, byte_at_insert.
    destruct (in_range (a + 1) (Z.of_nat n) x) eqn:E1, (in_range a (Z.of_nat (S n)) x) eqn:E2;
      rewrite ?in_range_true, ?in_range_false in *; try done; try lia; case_decide; done || lia.
Qed.

(** [memcpy] of ranges that do not overlap. *)
Lemma byte_at_memcpy m dst src n x :
  dst + Z.of_nat n ≤ src ∨ src + Z.of_nat n ≤ dst →
  byte_at (memcpy m dst src n) x =
    if in_range dst (Z.of_nat n) x then byte_at m (src + (x - dst)) else byte_at m x.
Proof.
  revert m dst src. induction n as [|n IH]; intros m dst src Hd; cbn [memcpy].
  - destruct (in_range dst (Z.of_nat 0) x) eqn:E; [|done]. apply in_range_true in E. lia.
  - rewrite IH by lia. rewrite !byte_at_insert.
    destruct (in_range dst (Z.of_nat (S n)) x) eqn:E2; [apply in_range_true in E2|apply in_range_false in E2].
    + destruct (in_range (dst + 1) (Z.of_nat n) x) eqn:E1;
        [apply in_range_true in E1|apply in_range_false in E1].
      * rewrite decide_False by lia. f_equal. lia.
      * rewrite decide_True by lia. f_equal. lia.
    + replace (in_range (dst + 1) (Z.of_nat n) x) with false
        by (symmetry; apply in_range_false; lia).
      by rewrite decide_False by lia.
Qed.

#[global] Opaque load_ptr store_ptr.
