(* ===== verification/Os.v ===== *)
(** * The OS memory layer (src/os.h, src/os.cpp)

    The kernel is not part of the repository: it is the class [Kernel], whose
    operations stand for [sysconf], [mmap], [munmap] and [madvise], and
    [KernelLaws] states what their documentation promises and this layer
    relies on.  [Sim] is a concrete kernel that satisfies the laws.

    [OsState] is the address space (the kernel's mappings and the bytes behind
    them) with the four accounting counters.  The theorems show that
    [os_alloc_aligned] returns exactly [size] fresh zero bytes at an aligned
    address and gives back all slop, that it rejects bad and overflowing
    arguments, and that [os_free] undoes it. *)
From Stdlib Require Import ZArith Lia.
From stdpp Require Import base numbers list gmap.
From S2P Require Import Prelude Words Constants Memory.

Class Kernel := {
  kstate : Type;
  k_sysconf_pagesize : Z;                          (* sysconf(_SC_PAGESIZE) *)
  k_mmap : Z → kstate → option Z * kstate;         (* None is MAP_FAILED *)
  k_munmap : Z → Z → kstate → kstate;
  k_madvise : Z → Z → kstate → bool * kstate;      (* true: returned 0 *)
  k_mapped : kstate → Z → bool                     (* is the address mapped? *)
}.

(** Documented behaviour of the kernel interface, on page-multiple arguments. *)
Class KernelLaws (K : Kernel) : Prop := {
  k_pagesize_pow2 : pow2 k_sysconf_pagesize;
  k_pagesize_range : 4096 ≤ k_sysconf_pagesize ≤ SEGMENT_SIZE;
  k_mmap_some n ks p ks' :
    0 < n → n mod k_sysconf_pagesize = 0 → k_mmap n ks = (Some p, ks') →
    0 < p ∧ p mod k_sysconf_pagesize = 0 ∧ p + n ≤ 2 ^ 64 ∧
    (∀ a, in_range p n a = true → k_mapped ks a = false) ∧
    (∀ a, k_mapped ks' a = in_range p n a || k_mapped ks a);
  k_mmap_none n ks ks' :
    k_mmap n ks = (None, ks') → ∀ a, k_mapped ks' a = k_mapped ks a;
  k_munmap_mapped p n ks :
    0 < n → n mod k_sysconf_pagesize = 0 → p mod k_sysconf_pagesize = 0 →
    ∀ a, k_mapped (k_munmap p n ks) a = negb (in_range p n a) && k_mapped ks a;
  k_madvise_mapped p n ks :
    ∀ a, k_mapped (k_madvise p n ks).2 a = k_mapped ks a
}.

(** A kernel whose state tells whether it has been short of memory: [calm] holds
    as long as every request for at most 2^48 bytes has been granted, and
    what was refused once stays refused. *)
Class Calm (K : Kernel) := {
  calm : kstate → Prop;
  calm_mmap n ks : calm (k_mmap n ks).2 → calm ks;
  calm_refused n ks ks' : n ≤ 2 ^ 48 → k_mmap n ks = (None, ks') → ¬ calm ks';
  calm_munmap p n ks : calm (k_munmap p n ks) → calm ks;
  calm_madvise p n ks : calm (k_madvise p n ks).2 → calm ks
}.

Section os.
Context {K : Kernel}.

Record OsState := mkOs {
  kern : kstate;
  bytes : gmap Z Z;
  g_bytes_mapped : Z;
  g_peak_mapped : Z;
  g_map_calls : Z;
  g_unmap_calls : Z
}.

Definition set_kern (v : kstate) (x : OsState) : OsState :=
  mkOs v (bytes x) (g_bytes_mapped x) (g_peak_mapped x) (g_map_calls x) (g_unmap_calls x).
Definition set_bytes (v : gmap Z Z) (x : OsState) : OsState :=
  mkOs (kern x) v (g_bytes_mapped x) (g_peak_mapped x) (g_map_calls x) (g_unmap_calls x).

(** The counters start at zero, whatever the process has mapped already. *)
Definition boot (x : OsState) : OsState := mkOs (kern x) (bytes x) 0 0 0 0.

(** [sysconf] is queried once and cached; a non-positive answer means 4096. *)
Definition cached_page_size : Z :=
  if 0 <? k_sysconf_pagesize then u64 k_sysconf_pagesize else 4096.
Definition os_page_size : Z := cached_page_size.

(** [fetch_add], the monotone bump of the peak (a compare-exchange that is
    retried until it succeeds or the peak is no longer lower), and the call
    counter. *)
Definition account_map (n : Z) (st : OsState) : OsState :=
  let now := u64 (g_bytes_mapped st + n) in
  let prev := g_peak_mapped st in
  mkOs (kern st) (bytes st) now (if prev <? now then now else prev)
       (u64 (g_map_calls st + 1)) (g_unmap_calls st).

Definition account_unmap (n : Z) (st : OsState) : OsState :=
  mkOs (kern st) (bytes st) (u64 (g_bytes_mapped st - n)) (g_peak_mapped st)
       (g_map_calls st) (u64 (g_unmap_calls st + 1)).

(** Anonymous private mapping: on success the kernel hands out zero bytes. *)
Definition raw_mmap (size : Z) : M OsState (option Z) := λ st,
  match k_mmap size (kern st) with
  | (Some p, ks) => Ok (Some p, set_bytes (zero_range (bytes st) p size) (set_kern ks st))
  | (None, ks) => Ok (None, set_kern ks st)
  end.

(** The result of [munmap] is ignored by the code. *)
Definition munmap (p n : Z) (st : OsState) : OsState :=
  set_kern (k_munmap p n (kern st)) st.

Definition is_pow2 (x : Z) : bool := negb (x =? 0) && (Z.land x (u64 (x - 1)) =? 0).

Definition os_alloc_aligned (size alignment : Z) : M OsState (option Z) :=
  let ps := cached_page_size in
  if (size =? 0) || (alignment =? 0) then mret None
  else if negb (is_pow2 alignment) then mret None
  else if negb (size mod ps =? 0) || negb (alignment mod ps =? 0) then mret None
  else if alignment <=? ps then
    p ← raw_mmap size;
    match p with
    | Some p => modify (account_map size);; mret (Some p)
    | None => mret None
    end
  else
    let over := u64 (size + alignment) in
    if over <? size then mret None
    else
      base ← raw_mmap over;
      match base with
      | None => mret None
      | Some base =>
          let aligned := Z.land (u64 (base + (alignment - 1))) (not64 (alignment - 1)) in
          let head := u64 (aligned - base) in
          let tail := u64 (over - head - size) in
          (if negb (head =? 0) then modify (munmap base head) else mret tt);;
          (if negb (tail =? 0) then modify (munmap (u64 (aligned + size)) tail) else mret tt);;
          modify (account_map over);;
          modify (account_unmap (u64 (head + tail)));;
          mret (Some aligned)
      end.

Definition os_free (ptr : option Z) (size : Z) : M OsState unit :=
  match ptr with
  | None => mret tt
  | Some p =>
      if size =? 0 then mret tt
      else modify (munmap p size);; modify (account_unmap size)
  end.

Definition os_purge (ptr : option Z) (size : Z) : M OsState bool :=
  match ptr with
  | None => mret false
  | Some p =>
      if size =? 0 then mret false
      else λ st, let '(r, ks) := k_madvise p size (kern st) in Ok (r, set_kern ks st)
  end.

Record OsStats := mkOsStats {
  bytes_mapped : Z; peak_mapped : Z; map_calls : Z; unmap_calls : Z
}.
Definition os_stats : M OsState OsStats :=
  gets (λ st, mkOsStats (g_bytes_mapped st) (g_peak_mapped st) (g_map_calls st) (g_unmap_calls st)).

(** ** Accesses to mapped memory

    An access to an address that is not mapped faults. *)
Definition mapped (st : OsState) (a : Z) : bool := k_mapped (kern st) a.

Definition mapped_range (st : OsState) (a n : Z) : bool :=
  forallb (mapped st) (seqZ a n).

(** [b->next] and [b->next = p] for a free block [b]. *)
Definition read_next (b : Z) : M OsState (option Z) := λ st,
  if mapped_range st b 8 then Ok (load_ptr (bytes st) b, st) else Fault.
Definition write_next (b : Z) (p : option Z) : M OsState unit := λ st,
  if mapped_range st b 8 then Ok (tt, set_bytes (store_ptr (bytes st) b p) st) else Fault.

(** [memset] and [memcpy]. *)
Definition do_memset (a v n : Z) : M OsState unit := λ st,
  if mapped_range st a n then Ok (tt, set_bytes (memset (bytes st) a v (Z.to_nat n)) st)
  else Fault.
Definition do_memcpy (dst src n : Z) : M OsState unit := λ st,
  if mapped_range st dst n && mapped_range st src n
  then Ok (tt, set_bytes (memcpy (bytes st) dst src (Z.to_nat n)) st)
  else Fault.

(** ** Lemmas *)

Lemma mapped_range_true st a n :
  mapped_range st a n = true ↔ ∀ x, a ≤ x < a + n → mapped st x = true.
Proof.
  unfold mapped_range. rewrite forallb_forall. split.
  - intros H x Hx. apply H, list_elem_of_In, elem_of_seqZ. lia.
  - intros H x Hx. apply list_elem_of_In, elem_of_seqZ in Hx. apply H. lia.
Qed.

Lemma is_pow2_true x : 0 ≤ x < 2 ^ 64 → is_pow2 x = true ↔ pow2 x.
Proof.
  intros Hx. unfold is_pow2. rewrite andb_true_iff, negb_true_iff, Z.eqb_neq, Z.eqb_eq.
  split.
  - intros [H0 H1]. rewrite u64_small in H1 by lia. apply pow2_land_pred_iff; [lia|done].
  - intros Hp. pose proof (pow2_range x Hp).
    rewrite u64_small by lia. split; [lia|]. apply pow2_land_pred_iff; [lia|done].
Qed.

Context {KL : KernelLaws K}.

Lemma cached_page_size_eq : cached_page_size = k_sysconf_pagesize.
Proof.
  unfold cached_page_size. pose proof k_pagesize_range. pose proof SEGMENT_SIZE_eq.
  destruct (0 <? k_sysconf_pagesize) eqn:E; bool_hyps; [|lia].
  apply u64_small. lia.
Qed.

Lemma page_size_pow2 : pow2 os_page_size.
Proof. unfold os_page_size. rewrite cached_page_size_eq. apply k_pagesize_pow2. Qed.

Lemma page_size_range : 4096 ≤ os_page_size ≤ SEGMENT_SIZE.
Proof. unfold os_page_size. rewrite cached_page_size_eq. apply k_pagesize_range. Qed.

Lemma segment_page_multiple : SEGMENT_SIZE mod os_page_size = 0.
Proof.
  apply pow2_divide; [apply page_size_pow2|apply SEGMENT_SIZE_pow2|apply page_size_range].
Qed.

(** The kernel was calm before if it is calm now; and it is not calm. *)
Definition calmer (st st' : OsState) : Prop := ∀ Cm : Calm K, calm (kern st') → calm (kern st).
Definition strained (st : OsState) : Prop := ∀ Cm : Calm K, ¬ calm (kern st).

#[export] Instance calmer_preorder : PreOrder calmer.
Proof. split; [intros st Cm; done|]. intros st1 st2 st3 H1 H2 Cm Hc. by apply H1, H2. Qed.

(** The peak followed the mapping of [n] or more bytes that were free. *)
Definition peak_follows (st st' : OsState) (n : Z) : Prop := ∃ q m,
  0 < q ∧ n ≤ m ∧ q + m ≤ 2 ^ 64 ∧ (∀ a, in_range q m a = true → mapped st a = false) ∧
  g_peak_mapped st' = Z.max (g_peak_mapped st) (u64 (g_bytes_mapped st + m)).

(** What a successful allocation of [n] bytes at [p] did to the address
    space. *)
Record os_grown (st st' : OsState) (p n : Z) : Prop := {
  og_pos : 0 < p;
  og_end : p + n ≤ 2 ^ 64;
  og_fresh a : in_range p n a = true → mapped st a = false;
  og_mapped a : mapped st' a = in_range p n a || mapped st a;
  og_zero a : in_range p n a = true → byte_at (bytes st') a = 0;
  og_frame a : mapped st a = true → byte_at (bytes st') a = byte_at (bytes st) a;
  og_count : g_bytes_mapped st' = u64 (g_bytes_mapped st + n);
  og_peak : peak_follows st st' n;
  og_calm : calmer st st'
}.

(** What releasing [n] bytes at [p] did. *)
Record os_shrunk (st st' : OsState) (p n : Z) : Prop := {
  os_sh_mapped a : mapped st' a = negb (in_range p n a) && mapped st a;
  os_sh_bytes : bytes st' = bytes st;
  os_sh_count : g_bytes_mapped st' = u64 (g_bytes_mapped st - n);
  os_sh_peak : g_peak_mapped st' = g_peak_mapped st;
  os_sh_calm : calmer st st'
}.

(** A failed call changed nothing that can be observed. *)
Record os_unchanged (st st' : OsState) : Prop := {
  ou_mapped a : mapped st' a = mapped st a;
  ou_bytes : bytes st' = bytes st;
  ou_count : g_bytes_mapped st' = g_bytes_mapped st;
  ou_peak : g_peak_mapped st' = g_peak_mapped st;
  ou_map : g_map_calls st' = g_map_calls st;
  ou_unmap : g_unmap_calls st' = g_unmap_calls st;
  ou_calm : calmer st st'
}.

Lemma os_unchanged_refl st : os_unchanged st st.
Proof. done. Qed.

Lemma raw_mmap_spec n st :
  0 < n → n mod os_page_size = 0 →
  wp (raw_mmap n) (λ r st', match r with
    | Some p => p mod os_page_size = 0 ∧
        os_grown st (account_map n st') p n ∧
        g_bytes_mapped st' = g_bytes_mapped st ∧ g_peak_mapped st' = g_peak_mapped st ∧
        g_map_calls st' = g_map_calls st ∧ g_unmap_calls st' = g_unmap_calls st
    | None => os_unchanged st st' ∧ (n ≤ 2 ^ 48 → strained st')
    end) st.
Proof.
  intros Hn Hm. unfold wp, raw_mmap, os_page_size in *. rewrite cached_page_size_eq in *.
  assert (calmer st (set_kern (k_mmap n (kern st)).2 st)) as Hcalm by (intros Cm; apply calm_mmap).
  destruct (k_mmap n (kern st)) as [[p|] ks] eqn:E.
  - destruct (k_mmap_some n _ p ks Hn Hm E) as (Hp & Ha & He & Hf & Hk).
    split_and!; try done. constructor; try done.
    3: { exists p, n. split_and!; try done. simpl. destruct (Z.ltb_spec (g_peak_mapped st) (u64 (g_bytes_mapped st + n))); lia. }
    + intros a Hr. simpl. by rewrite byte_at_zero_range, Hr.
    + intros a Hr. simpl. rewrite byte_at_zero_range.
      destruct (in_range p n a) eqn:Hin; [|done].
      apply Hf in Hin. unfold mapped in Hr. congruence.
  - split; [constructor; try done|].
    + intros a. by apply (k_mmap_none n (kern st) ks).
    + intros Hle Cm. by eapply calm_refused.
Qed.

(** Releasing the slop of an over-mapping: nothing is unmapped when the slop is
    empty. *)
Lemma trim_spec p n (Q : unit → OsState → Prop) st :
  0 ≤ n → n mod os_page_size = 0 → p mod os_page_size = 0 →
  (∀ ks, (∀ a, k_mapped ks a = negb (in_range p n a) && mapped st a) → calmer st (set_kern ks st) →
    Q tt (set_kern ks st)) →
  wp (if negb (n =? 0) then modify (munmap p n) else mret tt) Q st.
Proof.
  intros Hn Hm Hp HQ. unfold os_page_size in *. rewrite cached_page_size_eq in *.
  destruct (n =? 0) eqn:E; bool_hyps; simpl.
  - apply wp_ret. replace st with (set_kern (kern st) st) by by destruct st.
    apply HQ; [|intros Cm; done]. intros a. subst n. unfold in_range.
    destruct (p <=? a) eqn:E1, (a <? p + 0) eqn:E2; bool_hyps; try done. lia.
  - apply wp_modify. apply HQ; [|intros Cm; apply calm_munmap]. intros a. apply k_munmap_mapped; [lia|done..].
Qed.

(** Over-mapping by one alignment leaves room for an aligned region. *)
Lemma over_map_fits base size alignment :
  pow2 alignment → 0 < base → 0 < size → base + (size + alignment) ≤ 2 ^ 64 →
  ∃ head, Z.land (u64 (base + (alignment - 1))) (not64 (alignment - 1)) = base + head ∧
    0 ≤ head < alignment ∧ (base + head) mod alignment = 0.
Proof.
  intros Ha Hb Hs He. destruct (align_up_spec base alignment Ha) as [H1 H2]; [lia..|].
  exists (align_up base alignment - base). unfold align_up in *.
  split_and!; try lia. rewrite <-H1. f_equal. lia.
Qed.

(** The trimmed region is what remains of the over-mapping. *)
Lemma trimmed_range base head size alignment a :
  0 ≤ head < alignment → 0 < size →
  negb (in_range (base + head + size) (alignment - head) a)
    && (negb (in_range base head a) && in_range base (size + alignment) a)
  = in_range (base + head) size a.
Proof.
  intros Hh Hs. apply Bool.eq_true_iff_eq.
  rewrite !andb_true_iff, !negb_true_iff, !in_range_false, !in_range_true. lia.
Qed.

Lemma mod_page_of_alignment x alignment :
  0 < alignment → alignment mod os_page_size = 0 → x mod alignment = 0 →
  x mod os_page_size = 0.
Proof.
  intros Ha Hm Hx. apply mod_0_trans with alignment; try done.
  pose proof page_size_range. lia.
Qed.

(** The test [over < size] detects exactly the overflow of the sum. *)
Lemma over_check size alignment :
  0 ≤ size < 2 ^ 64 → 0 < alignment < 2 ^ 64 →
  (u64 (size + alignment) <? size) = (2 ^ 64 <=? size + alignment).
Proof.
  intros Hs Ha. destruct (2 ^ 64 <=? size + alignment) eqn:E; bool_hyps.
  - replace (u64 (size + alignment)) with (size + alignment - 2 ^ 64)
      by (unfold u64; apply Zmod_unique with 1; lia).
    apply Z.ltb_lt. lia.
  - rewrite u64_small by lia. apply Z.ltb_ge. lia.
Qed.

(** The general path: map [size + alignment] bytes, unmap head and tail. *)
Lemma os_alloc_over_spec size alignment st :
  pow2 alignment → 0 < size → size + alignment < 2 ^ 64 →
  size mod os_page_size = 0 → alignment mod os_page_size = 0 →
  let over := u64 (size + alignment) in
  wp (base ← raw_mmap over;
      match base with
      | None => mret None
      | Some base =>
          let aligned := Z.land (u64 (base + (alignment - 1))) (not64 (alignment - 1)) in
          let head := u64 (aligned - base) in
          let tail := u64 (over - head - size) in
          (if negb (head =? 0) then modify (munmap base head) else mret tt);;
          (if negb (tail =? 0) then modify (munmap (u64 (aligned + size)) tail) else mret tt);;
          modify (account_map over);;
          modify (account_unmap (u64 (head + tail)));;
          mret (Some aligned)
      end)
    (λ r st', match r with
     | Some p => p mod alignment = 0 ∧ os_grown st st' p size ∧
         g_unmap_calls st' = u64 (g_unmap_calls st + 1)
     | None => os_unchanged st st' ∧ (size + alignment ≤ 2 ^ 48 → strained st')
     end) st.
Proof.
  intros Ha Hs Hov Hsm Ham over. unfold over. rewrite (u64_small (size + alignment)) by
    (pose proof (pow2_pos _ Ha); lia). clear over.
  pose proof (pow2_range _ Ha) as Har. apply wp_bind.
  eapply wp_mono; [apply raw_mmap_spec; [lia|by apply mod_0_add]|].
  intros [base|] st1; [|intros Hu; by apply wp_ret].
  intros (Hbm & Hg & Hc1 & Hc2 & Hc3 & Hc4).
  pose proof (og_pos _ _ _ _ Hg). pose proof (og_end _ _ _ _ Hg) as He.
  destruct (over_map_fits base size alignment) as (head & -> & Hh & Hal); [done|lia..|].
  assert (alignment - head ≤ alignment) by lia.
  replace (u64 (base + head - base)) with head by (symmetry; rewrite u64_small; lia).
  replace (u64 (size + alignment - head - size)) with (alignment - head)
    by (symmetry; rewrite u64_small; lia).
  rewrite (u64_small (base + head + size)) by lia.
  rewrite (u64_small (head + _)) by lia.
  assert ((base + head) mod os_page_size = 0) as Hbh
    by (apply (mod_page_of_alignment _ alignment); done || lia).
  assert (head mod os_page_size = 0) as Hhm.
  { replace head with (base + head - base) by lia. rewrite Zminus_mod, Hbh, Hbm. done. }
  apply wp_bind, trim_spec; [lia|done..|]. intros ks1 Hk1 Hq1.
  apply wp_bind, trim_spec; [lia| |by apply mod_0_add|].
  { rewrite Zminus_mod, Ham, Hhm. done. }
  intros ks2 Hk2 Hq2. unfold mapped in Hk2; simpl in Hk2. wp_pures.
  split_and!; [done| |simpl; by rewrite Hc4].
  constructor; try lia.
  - intros a Hr. apply (og_fresh _ _ _ _ Hg). rewrite !in_range_true in *. lia.
  - intros a. unfold mapped; simpl. rewrite Hk2, Hk1. fold (mapped st a).
    replace (mapped st1 a) with (in_range base (size + alignment) a || mapped st a)
      by (symmetry; apply (og_mapped _ _ _ _ Hg)).
    rewrite <-(trimmed_range base head size alignment a) by lia.
    destruct (mapped st a) eqn:Hma; rewrite ?orb_false_r; [|done].
    rewrite !orb_true_r, !andb_true_r.
    assert (in_range base (size + alignment) a = false) as Hout.
    { destruct (in_range base _ a) eqn:E; [|done].
      apply (og_fresh _ _ _ _ Hg) in E. congruence. }
    rewrite in_range_false in Hout. rewrite andb_true_iff, !negb_true_iff, !in_range_false. lia.
  - intros a Hr. simpl. apply (og_zero _ _ _ _ Hg). rewrite !in_range_true in *. lia.
  - intros a Hr. simpl. by apply (og_frame _ _ _ _ Hg).
  - simpl. rewrite Hc1. unfold u64. rewrite Zminus_mod_idemp_l. f_equal. lia.
  - exists base, (size + alignment). split_and!; try lia; [apply (og_fresh _ _ _ _ Hg)|]. simpl. rewrite Hc1, Hc2.
    destruct (Z.ltb_spec (g_peak_mapped st) (u64 (g_bytes_mapped st + (size + alignment)))); lia.
  - intros Cm Hc. apply (og_calm _ _ _ _ Hg Cm), (Hq1 Cm), (Hq2 Cm), Hc.
Qed.

(** The page-aligned path maps exactly [size] bytes. *)
Lemma os_alloc_exact_spec size st :
  0 < size → size mod os_page_size = 0 →
  wp (p ← raw_mmap size;
      match p with
      | Some p => modify (account_map size);; mret (Some p)
      | None => mret None
      end)
    (λ r st', match r with
     | Some p => p mod os_page_size = 0 ∧ os_grown st st' p size ∧
         g_unmap_calls st' = g_unmap_calls st
     | None => os_unchanged st st' ∧ (size ≤ 2 ^ 48 → strained st')
     end) st.
Proof.
  intros Hs Hm. apply wp_bind. eapply wp_mono; [by apply raw_mmap_spec|].
  intros [p|] st1; [|intros Hu; by apply wp_ret].
  intros (Hp & Hg & _ & _ & _ & Hu). wp_pures. split_and!; try done.
Qed.

(** The arguments [os_alloc_aligned] accepts. *)
Definition os_args_ok (size alignment : Z) : Prop :=
  0 < size < 2 ^ 64 ∧ size mod os_page_size = 0 ∧
  pow2 alignment ∧ alignment mod os_page_size = 0.

(** Either [size] fresh zero bytes at an aligned address, or nothing, and then
    the kernel has refused a mapping. *)
Definition os_alloc_result (size alignment : Z) (st : OsState) (r : option Z)
    (st' : OsState) : Prop :=
  match r with
  | Some p => p mod alignment = 0 ∧ os_grown st st' p size
  | None => os_unchanged st st' ∧ (size + alignment ≤ 2 ^ 48 → strained st')
  end.

Lemma os_alloc_aligned_spec size alignment st :
  os_args_ok size alignment →
  wp (os_alloc_aligned size alignment) (os_alloc_result size alignment st) st.
Proof.
  intros (Hs & Hsm & Ha & Ham). pose proof (pow2_range _ Ha) as Har.
  unfold os_alloc_aligned. fold os_page_size. cbv zeta.
  destruct ((size =? 0) || (alignment =? 0)) eqn:E; [rewrite orb_true_iff, !Z.eqb_eq in E; lia|].
  replace (is_pow2 alignment) with true by (symmetry; apply is_pow2_true; [lia|done]).
  rewrite Hsm, Ham. simpl.
  destruct (alignment <=? os_page_size) eqn:El; bool_hyps.
  - eapply wp_mono; [apply os_alloc_exact_spec; [lia|done]|].
    intros [p|] st'; simpl; [|intros [Hu Hs']; split; [done|]; intros; apply Hs'; lia].
    intros (Hp & Hg & _). split; [|done].
    apply mod_0_trans with os_page_size; try done; [pose proof page_size_range; lia|lia|].
    apply pow2_divide; [done|apply page_size_pow2|done].
  - rewrite over_check by lia.
    destruct (2 ^ 64 <=? size + alignment) eqn:Eo; bool_hyps; [apply wp_ret; split; [done|lia]|].
    eapply wp_mono; [apply os_alloc_over_spec; (done || lia)|].
    intros [p|] st'; simpl; [|done]. intros (? & ? & _). done.
Qed.

Lemma os_free_spec p size st :
  0 < size → size mod os_page_size = 0 → p mod os_page_size = 0 →
  wp (os_free (Some p) size) (λ _ st', os_shrunk st st' p size) st.
Proof.
  intros Hs Hm Hp. unfold os_free. destruct (size =? 0) eqn:E; bool_hyps; [lia|].
  wp_pures. unfold os_page_size in *. rewrite cached_page_size_eq in *.
  constructor; try done; [|intros Cm; apply calm_munmap]. intros a. by apply k_munmap_mapped.
Qed.

(** C24: [os_alloc_aligned] on valid arguments either fails and leaves mappings,
    memory and counters as they were, or returns a non-null aligned address
    such that exactly the [size] bytes from there on became mapped, none of
    them was mapped before, they read as zero, memory mapped earlier keeps its
    contents, and the byte count grew by exactly [size]: the head and tail slop
    of the over-mapping is fully returned. *)
Theorem os_alloc_aligned_correct (size alignment : Z) (st : OsState)
    (Hargs : os_args_ok size alignment) :
  ∃ r st', os_alloc_aligned size alignment st = Ok (r, st') ∧
    os_alloc_result size alignment st r st'.
Proof.
  apply wp_ok, os_alloc_aligned_spec, Hargs.
Qed.

(** [os_alloc_aligned] rejects a zero size or alignment, an alignment that
    is not a power of two, arguments that are not page multiples, and sizes
    whose over-mapping would overflow [size_t], without touching anything. *)
Theorem os_alloc_aligned_rejects (size alignment : Z) (st : OsState)
    (Hs : 0 ≤ size < 2 ^ 64) (Ha : 0 ≤ alignment < 2 ^ 64)
    (Hbad : ¬ os_args_ok size alignment ∨
            (os_page_size < alignment ∧ 2 ^ 64 ≤ size + alignment)) :
  os_alloc_aligned size alignment st = Ok (None, st).
Proof.
  unfold os_alloc_aligned. fold os_page_size. cbv zeta.
  destruct ((size =? 0) || (alignment =? 0)) eqn:E0; [done|].
  destruct (is_pow2 alignment) eqn:E1; [|done]. simpl.
  destruct (negb (size mod os_page_size =? 0) || negb (alignment mod os_page_size =? 0)) eqn:E2;
    [done|]. bool_hyps. apply is_pow2_true in E1; [|done].
  destruct Hbad as [Hbad|[Hlt Hov]].
  { exfalso. apply Hbad. split_and!; try done; lia. }
  destruct (alignment <=? os_page_size) eqn:E3; bool_hyps; [lia|].
  rewrite over_check by lia. by apply Z.leb_le in Hov as ->.
Qed.

(** Round trip.  Freeing what [os_alloc_aligned] returned restores the set
    of mapped addresses, the contents of all memory that was mapped before, and
    the byte count. *)
Theorem os_alloc_free_roundtrip (size alignment p : Z) (st st' : OsState)
    (Hargs : os_args_ok size alignment)
    (Hcount : 0 ≤ g_bytes_mapped st < 2 ^ 64)
    (Hal : os_alloc_aligned size alignment st = Ok (Some p, st')) :
  ∃ st'', os_free (Some p) size st' = Ok (tt, st'') ∧
    (∀ a, mapped st'' a = mapped st a) ∧
    (∀ a, mapped st a = true → byte_at (bytes st'') a = byte_at (bytes st) a) ∧
    g_bytes_mapped st'' = g_bytes_mapped st.
Proof.
  pose proof (os_alloc_aligned_spec size alignment st Hargs) as Hsp.
  unfold wp in Hsp. rewrite Hal in Hsp. destruct Hsp as [Hpa Hg].
  destruct Hargs as (Hs & Hsm & Ha & Ham).
  assert (p mod os_page_size = 0) as Hpm.
  { apply (mod_page_of_alignment _ alignment); try done. by apply pow2_pos. }
  destruct (proj1 (wp_ok _ _ _) (os_free_spec p size st' ltac:(lia) Hsm Hpm))
    as ([] & st'' & Hf & Hsh).
  exists st''. split; [done|]. split_and!.
  - intros a. rewrite (os_sh_mapped _ _ _ _ Hsh), (og_mapped _ _ _ _ Hg).
    destruct (in_range p size a) eqn:Hin; simpl; [|done].
    by rewrite (og_fresh _ _ _ _ Hg).
  - intros a Hma. rewrite (os_sh_bytes _ _ _ _ Hsh). by apply (og_frame _ _ _ _ Hg).
  - rewrite (os_sh_count _ _ _ _ Hsh), (og_count _ _ _ _ Hg).
    unfold u64. rewrite Zminus_mod_idemp_l.
    replace (g_bytes_mapped st + size - size) with (g_bytes_mapped st) by lia.
    by apply Z.mod_small.
Qed.

(** A request that takes the over-map path counts one [unmap_calls] for the
    trimmed slop although [os_free] was not called. *)
Theorem trim_counts_as_unmap (size alignment p : Z) (st st' : OsState)
    (Hargs : os_args_ok size alignment) (Hlt : os_page_size < alignment)
    (Hal : os_alloc_aligned size alignment st = Ok (Some p, st')) :
  g_unmap_calls st' = u64 (g_unmap_calls st + 1).
Proof.
  destruct Hargs as (Hs & Hsm & Ha & Ham). pose proof (pow2_range _ Ha) as Har.
  revert Hal. unfold os_alloc_aligned. fold os_page_size. cbv zeta.
  destruct ((size =? 0) || (alignment =? 0)) eqn:E; [rewrite orb_true_iff, !Z.eqb_eq in E; lia|].
  replace (is_pow2 alignment) with true by (symmetry; apply is_pow2_true; [lia|done]).
  rewrite Hsm, Ham. simpl.
  destruct (alignment <=? os_page_size) eqn:El; bool_hyps; [lia|].
  rewrite over_check by lia. destruct (2 ^ 64 <=? size + alignment) eqn:Eo; [done|]. bool_hyps.
  intros Hal. pose proof (os_alloc_over_spec size alignment st Ha ltac:(lia) Eo Hsm Ham) as Hsp.
  cbv zeta in Hsp. unfold wp in Hsp. rewrite Hal in Hsp. apply Hsp.
Qed.
End os.

(** ** A concrete kernel

    The state is the log of mappings and unmappings, latest first, a limit on
    the addresses handed out, and whether a mapping has been refused.  An address is mapped if the latest event that
    covers it is a mapping; [mmap] picks the first page boundary above
    everything that was ever mapped. *)
Module Sim.

Record sim := mkSim { sim_limit : Z; sim_log : list (bool * Z * Z); sim_refused : bool }.

Definition sim_page : Z := 4096.

Fixpoint log_mapped (l : list (bool * Z * Z)) (a : Z) : bool :=
  match l with
  | [] => false
  | (b, p, n) :: l' => if in_range p n a then b else log_mapped l' a
  end.

Fixpoint log_top (l : list (bool * Z * Z)) : Z :=
  match l with
  | [] => sim_page
  | (_, p, n) :: l' => Z.max (p + n) (log_top l')
  end.

Definition sim_next (l : list (bool * Z * Z)) : Z :=
  (log_top l + (sim_page - 1)) / sim_page * sim_page.

Definition sim_mmap (n : Z) (ks : sim) : option Z * sim :=
  let p := sim_next (sim_log ks) in
  if p + n <=? Z.min (sim_limit ks) (2 ^ 64)
  then (Some p, mkSim (sim_limit ks) ((true, p, n) :: sim_log ks) (sim_refused ks))
  else (None, mkSim (sim_limit ks) (sim_log ks) true).

#[global] Instance sim_kernel : Kernel := {
  kstate := sim;
  k_sysconf_pagesize := sim_page;
  k_mmap := sim_mmap;
  k_munmap p n ks := mkSim (sim_limit ks) ((false, p, n) :: sim_log ks) (sim_refused ks);
  k_madvise _ _ ks := (true, ks);
  k_mapped ks a := log_mapped (sim_log ks) a
}.

Lemma log_top_above l a : log_top l ≤ a → log_mapped l a = false.
Proof.
  induction l as [|[[b p] n] l IH]; simpl; [done|]. intros Ha.
  rewrite (proj2 (in_range_false p n a)) by lia. apply IH. lia.
Qed.

Lemma sim_next_spec l : log_top l ≤ sim_next l ∧ 0 < sim_next l ∧ sim_next l mod sim_page = 0.
Proof.
  assert (sim_page ≤ log_top l) as Ht.
  { induction l as [|[[b p] n] l IH]; simpl; lia. }
  unfold sim_next. change sim_page with 4096 in *.
  pose proof (Z.div_mod (log_top l + (4096 - 1)) 4096 ltac:(lia)).
  pose proof (Z.mod_pos_bound (log_top l + (4096 - 1)) 4096 ltac:(lia)).
  split_and!; [lia..|]. by apply Z_mod_mult.
Qed.

#[global] Instance sim_laws : KernelLaws sim_kernel.
Proof.
  constructor; simpl.
  - exists 12. done.
  - unfold sim_page. consts. lia.
  - intros n ks p ks' Hn Hm H. unfold sim_mmap in H.
    destruct (sim_next_spec (sim_log ks)) as (H1 & H2 & H3).
    destruct (sim_next (sim_log ks) + n <=? _) eqn:E; [|done]. simplify_eq. bool_hyps.
    split_and!; [done|done|lia| |].
    + intros a Ha. apply in_range_true in Ha. apply log_top_above. lia.
    + intros a. simpl. by destruct (in_range _ n a).
  - intros n ks ks' H a. unfold sim_mmap in H.
    destruct (sim_next (sim_log ks) + n <=? _); by simplify_eq.
  - intros p n ks Hn Hm Hp a. simpl. by destruct (in_range p n a).
  - done.
Qed.

#[global, refine] Instance sim_calm : Calm sim_kernel := {| calm ks := sim_refused ks = false |}.
Proof.
  - intros n ks. simpl. unfold sim_mmap. by destruct (_ <=? _).
  - intros n ks ks' _ H. simpl in *. unfold sim_mmap in H. destruct (_ <=? _); by simplify_eq.
  - done.
  - done.
Defined.

(** The empty address space, with addresses up to [limit]. *)
Definition init (limit : Z) : @OsState sim_kernel :=
  @mkOs sim_kernel (mkSim limit [] false) ∅ 0 0 0 0.
(** The same, after a refused mapping. *)
Definition refused (limit : Z) : @OsState sim_kernel :=
  @mkOs sim_kernel (mkSim limit [] true) ∅ 0 0 0 0.
End Sim.

(** Mapping a 4 MiB segment in the simulated address space. *)
Lemma os_args_ok_segment : @os_args_ok Sim.sim_kernel SEGMENT_SIZE SEGMENT_SIZE.
Proof. unfold os_args_ok. split_and!; try done; apply SEGMENT_SIZE_pow2. Qed.

Lemma os_alloc_aligned_correct_witness :
  ∃ r st', os_alloc_aligned SEGMENT_SIZE SEGMENT_SIZE (Sim.init (2 ^ 30)) = Ok (r, st') ∧
    os_alloc_result SEGMENT_SIZE SEGMENT_SIZE (Sim.init (2 ^ 30)) r st'.
Proof.
  apply (os_alloc_aligned_correct SEGMENT_SIZE SEGMENT_SIZE (Sim.init (2 ^ 30))).
  apply os_args_ok_segment.
Defined.

Lemma os_alloc_aligned_rejects_witness :
  os_alloc_aligned (2 ^ 64 - 4096) SEGMENT_SIZE (Sim.init (2 ^ 30)) =
    Ok (None, Sim.init (2 ^ 30)).
Proof.
  apply (os_alloc_aligned_rejects (2 ^ 64 - 4096) SEGMENT_SIZE (Sim.init (2 ^ 30)));
    [lia|consts; lia|right; split; [reflexivity|consts; lia]].
Defined.

(** Address and final state of that first mapping. *)
Definition sim_first_segment : option Z * @OsState Sim.sim_kernel :=
  from_ok (None, Sim.init 0)
    (os_alloc_aligned SEGMENT_SIZE SEGMENT_SIZE (Sim.init (2 ^ 30))).

Lemma sim_first_segment_ok :
  os_alloc_aligned SEGMENT_SIZE SEGMENT_SIZE (Sim.init (2 ^ 30)) =
    Ok (Some SEGMENT_SIZE, snd sim_first_segment).
Proof. apply run_ok; vm_compute; reflexivity. Qed.

Lemma os_alloc_free_roundtrip_witness :
  ∃ st'', os_free (Some SEGMENT_SIZE) SEGMENT_SIZE (snd sim_first_segment) = Ok (tt, st'') ∧
    (∀ a, mapped st'' a = mapped (Sim.init (2 ^ 30)) a) ∧
    (∀ a, mapped (Sim.init (2 ^ 30)) a = true →
       byte_at (bytes st'') a = byte_at (bytes (Sim.init (2 ^ 30))) a) ∧
    g_bytes_mapped st'' = g_bytes_mapped (Sim.init (2 ^ 30)).
Proof.
  exact (os_alloc_free_roundtrip SEGMENT_SIZE SEGMENT_SIZE SEGMENT_SIZE
    (Sim.init (2 ^ 30)) (snd sim_first_segment) os_args_ok_segment
    (conj (Z.le_refl 0) eq_refl) sim_first_segment_ok).
Defined.

Lemma trim_counts_as_unmap_witness :
  g_unmap_calls (snd sim_first_segment) = u64 (g_unmap_calls (Sim.init (2 ^ 30)) + 1).
Proof.
  exact (trim_counts_as_unmap SEGMENT_SIZE SEGMENT_SIZE SEGMENT_SIZE (Sim.init (2 ^ 30))
    (snd sim_first_segment) os_args_ok_segment eq_refl sim_first_segment_ok).
Defined.
