(* ===== verification/RegionRegistry.v ===== *)
(** * The region ownership registry (src/region_registry.h, region_registry.cpp)

    A mutex-guarded open-addressing hash set of region base addresses with
    tombstones.  Each exported function is one critical section, so it is one
    state transformer on the registry and the OS layer that backs its table.
    The slot array is the list its pointer refers to; an index outside it
    faults.  A probe loop that has visited every slot without meeting [EMPTY]
    goes round for ever: its fuel is one more than the capacity, and running
    out of it is divergence.

    The theorems: the table refines a finite set of addresses under
    [region_register], [region_unregister] and [region_owns]; the probe loops
    end while at least one slot is [EMPTY]; rehashing keeps the set; and a
    table that is full, which needs the OS layer to refuse memory, makes
    [region_register] loop for ever. *)
From Stdlib Require Import ZArith Lia.
From stdpp Require Import base numbers list gmap.
From S2P Require Import Prelude Words Constants Memory Os.

Definition EMPTY : Z := 0.
Definition TOMB : Z := 2 ^ 64 - 1.

Record Registry := mkRegistry {
  slots : option (Z * list Z);    (* the table's address and its slots *)
  cap : Z;
  size : Z;
  tombs : Z
}.

Definition empty_registry : Registry := mkRegistry None 0 0 0.

Definition index_of (cap_mask key : Z) : Z :=
  let h := Z.shiftr key SEGMENT_SHIFT in
  let h := u64 (h * 0x9e3779b97f4a7c15) in
  Z.land h cap_mask.

Section registry.
Context {K : Kernel}.

Definition RState : Type := Registry * OsState.

Definition lift_os {A} (m : M OsState A) : M RState A :=
  zoom snd (λ o rs, (fst rs, o)) m.

Definition slots_bytes (cap : Z) : Z :=
  Z.land (u64 (cap * 8 + os_page_size - 1)) (not64 (os_page_size - 1)).

(** The new table is zero-filled by the OS, that is, all [EMPTY]. *)
Definition alloc_slots (cap : Z) : M RState (option (Z * list Z)) :=
  m ← lift_os (os_alloc_aligned (slots_bytes cap) os_page_size);
  mret ((λ p, (p, replicate (Z.to_nat cap) EMPTY)) <$> m).

(** [while (slots[i] != EMPTY) i = (i + 1) & (cap - 1)]. *)
Fixpoint raw_insert_loop {S} (fuel : nat) (l : list Z) (cap i : Z) : M S Z :=
  match fuel with
  | O => diverge
  | Datatypes.S f =>
      v ← deref (l !! Z.to_nat i);
      if v =? EMPTY then mret i
      else raw_insert_loop f l cap (Z.land (u64 (i + 1)) (cap - 1))
  end.

Definition raw_insert {S} (l : list Z) (cap key : Z) : M S (list Z) :=
  i ← raw_insert_loop (Datatypes.S (Z.to_nat cap)) l cap (index_of (cap - 1) key);
  mret (<[Z.to_nat i := key]> l).

(** The loop of [grow_locked] over the old slots. *)
Fixpoint rehash {S} (old fresh : list Z) (new_cap : Z) : M S (list Z) :=
  match old with
  | [] => mret fresh
  | v :: old' =>
      fresh' ← (if negb (v =? EMPTY) && negb (v =? TOMB)
                then raw_insert fresh new_cap v else mret fresh);
      rehash old' fresh' new_cap
  end.

Definition grow_locked (new_cap : Z) : M RState unit :=
  r ← gets fst;
  fresh ← alloc_slots new_cap;
  match fresh with
  | None => mret tt
  | Some (p, l) =>
      l' ← rehash (match slots r with Some (_, old) => old | None => [] end) l new_cap;
      modify (λ rs, (mkRegistry (Some (p, l')) new_cap (size r) 0, snd rs));;
      match slots r with
      | Some (old, _) => lift_os (os_free (Some old) (slots_bytes (cap r)))
      | None => mret tt
      end
  end.

(** The insertion loop of [region_register]: [None] when the key is present,
    otherwise the first [EMPTY] slot and the first tombstone before it, or
    [SIZE_MAX]. *)
Fixpoint register_loop {S} (fuel : nat) (l : list Z) (cap key i first_tomb : Z)
  : M S (option (Z * Z)) :=
  match fuel with
  | O => diverge
  | Datatypes.S f =>
      v ← deref (l !! Z.to_nat i);
      if v =? EMPTY then mret (Some (i, first_tomb))
      else if v =? key then mret None
      else
        let first_tomb := if (v =? TOMB) && (first_tomb =? SIZE_MAX) then i else first_tomb in
        register_loop f l cap key (Z.land (u64 (i + 1)) (cap - 1)) first_tomb
  end.

(** From [if (r.slots == nullptr) return] on: find the place and store. *)
Definition register_insert (base : Z) : M RState unit :=
  r ← gets fst;
  match slots r with
  | None => mret tt
  | Some (p, l) =>
      res ← register_loop (S (Z.to_nat (cap r))) l (cap r) base
              (index_of (cap r - 1) base) SIZE_MAX;
      match res with
      | None => mret tt
      | Some (i, first_tomb) =>
          if negb (first_tomb =? SIZE_MAX)
          then modify (λ rs, (mkRegistry (Some (p, <[Z.to_nat first_tomb := base]> l)) (cap r)
                                 (u64 (size r + 1)) (u64 (tombs r - 1)), snd rs))
          else modify (λ rs, (mkRegistry (Some (p, <[Z.to_nat i := base]> l)) (cap r)
                                 (u64 (size r + 1)) (tombs r), snd rs))
      end
  end.

(** The test [(r.size + r.tombs + 1) * 10 >= r.cap * 7]. *)
Definition load_high (r : Registry) : bool :=
  u64 (cap r * 7) <=? u64 ((size r + tombs r + 1) * 10).

Definition region_register (base : Z) : M RState unit :=
  r0 ← gets fst;
  (match slots r0 with None => grow_locked 1024 | Some _ => mret tt end);;
  r1 ← gets fst;
  (if load_high r1
   then grow_locked (if cap r1 <=? u64 (size r1 * 2) then u64 (cap r1 * 2) else cap r1)
   else mret tt);;
  register_insert base.

(** The search loop shared by [region_unregister] and [region_owns]: the slot
    of the key, or [None] when an [EMPTY] slot ends the search. *)
Fixpoint find_loop {S} (fuel : nat) (l : list Z) (cap key i : Z) : M S (option Z) :=
  match fuel with
  | O => diverge
  | Datatypes.S f =>
      v ← deref (l !! Z.to_nat i);
      if v =? EMPTY then mret None
      else if v =? key then mret (Some i)
      else find_loop f l cap key (Z.land (u64 (i + 1)) (cap - 1))
  end.

Definition region_unregister (base : Z) : M RState unit :=
  r ← gets fst;
  match slots r with
  | None => mret tt
  | Some (p, l) =>
      res ← find_loop (S (Z.to_nat (cap r))) l (cap r) base (index_of (cap r - 1) base);
      match res with
      | None => mret tt
      | Some i =>
          modify (λ rs, (mkRegistry (Some (p, <[Z.to_nat i := TOMB]> l)) (cap r)
                           (u64 (size r - 1)) (u64 (tombs r + 1)), snd rs))
      end
  end.

Definition region_owns (base : Z) : M RState bool :=
  r ← gets fst;
  match slots r with
  | None => mret false
  | Some (p, l) =>
      res ← find_loop (S (Z.to_nat (cap r))) l (cap r) base (index_of (cap r - 1) base);
      mret (match res with Some _ => true | None => false end)
  end.
End registry.

Arguments register_loop : simpl never.
Arguments find_loop : simpl never.
Arguments raw_insert_loop : simpl never.
Arguments index_of : simpl never.

(** ** Tables *)

Definition is_key (v : Z) : bool := negb (v =? EMPTY) && negb (v =? TOMB).

Lemma is_key_true v : is_key v = true ↔ v ≠ EMPTY ∧ v ≠ TOMB.
Proof. unfold is_key. rewrite andb_true_iff, !negb_true_iff, !Z.eqb_neq. done. Qed.

(** A region base: non-null, segment aligned, a 64-bit address. *)
Definition key_ok (v : Z) : Prop := 0 < v < 2 ^ 64 ∧ v mod SEGMENT_SIZE = 0.

Lemma key_ok_is_key v : key_ok v → is_key v = true.
Proof.
  intros [H1 H2]. apply is_key_true. unfold EMPTY, TOMB. split; [lia|].
  intros ->. vm_compute in H2. done.
Qed.

Definition live (l : list Z) : list Z := filter (λ v, is_key v = true) l.
Definition n_tombs (l : list Z) : nat := length (filter (λ v, v = TOMB) l).
Definition n_empty (l : list Z) : nat := length (filter (λ v, v = EMPTY) l).

(** [run l c i d]: the [d] slots from [i] on, cyclically, are not [EMPTY]. *)
Definition run (l : list Z) (c i d : Z) : Prop :=
  ∀ j, 0 ≤ j < d → ∃ v, l !! Z.to_nat ((i + j) mod c) = Some v ∧ v ≠ EMPTY.

Record tab_ok (c : Z) (l : list Z) : Prop := {
  t_len : Z.of_nat (length l) = c;
  t_cap : ∃ k, 10 ≤ k ≤ 44 ∧ c = 2 ^ k;
  t_keys v : v ∈ live l → key_ok v;
  t_nodup : NoDup (live l);
  t_probe x v : l !! x = Some v → is_key v = true →
    ∃ d, 0 ≤ d < c ∧ Z.of_nat x = (index_of (c - 1) v + d) mod c ∧
         run l c (index_of (c - 1) v) d
}.

(** The capacities a table can have. *)
Definition tab_cap_ok (c : Z) : Prop := ∃ k, 10 ≤ k ≤ 44 ∧ c = 2 ^ k.

Lemma tab_cap_range c l : tab_ok c l → 1024 ≤ c ≤ 2 ^ 44.
Proof.
  intros [_ (k & Hk & ->) _ _ _]. split; [change 1024 with (2 ^ 10)|];
    apply Z.pow_le_mono_r; lia.
Qed.

Lemma index_of_range c key : (∃ k, 0 ≤ k ∧ c = 2 ^ k) → 0 ≤ index_of (c - 1) key < c.
Proof.
  intros (k & Hk & ->). unfold index_of. cbv zeta. rewrite land_ones_mod by done.
  apply Z.mod_pos_bound. apply Z.pow_pos_nonneg; lia.
Qed.

Lemma tab_index_range c l key : tab_ok c l → 0 ≤ index_of (c - 1) key < c.
Proof.
  intros [_ (k & Hk & ->) _ _ _]. apply index_of_range. exists k. split; [lia|done].
Qed.

(** The step of every probe loop, on an index in range. *)
Lemma next_index c l i : tab_ok c l → 0 ≤ i < c → Z.land (u64 (i + 1)) (c - 1) = (i + 1) mod c.
Proof.
  intros Ht Hi. pose proof (tab_cap_range _ _ Ht). rewrite u64_small by lia.
  destruct Ht as [_ (k & Hk & ->) _ _ _]. by rewrite land_ones_mod by lia.
Qed.

Lemma mod_shift c i j : (((i + 1) mod c) + j) mod c = (i + (j + 1)) mod c.
Proof. rewrite Zplus_mod_idemp_l. f_equal. lia. Qed.

Lemma run_tail l c i d : run l c i (d + 1) → run l c ((i + 1) mod c) d.
Proof. intros H j Hj. rewrite mod_shift. apply H. lia. Qed.

Lemma run_head l c i d :
  0 ≤ i < c → 0 < d → run l c i d → ∃ v, l !! Z.to_nat i = Some v ∧ v ≠ EMPTY.
Proof.
  intros Hi Hd H. destruct (H 0) as (v & Hv & Hne); [lia|].
  rewrite Z.add_0_r, Z.mod_small in Hv by lia. eauto.
Qed.

(** Overwriting a slot with something other than [EMPTY] keeps runs. *)
Lemma run_insert l c i d x v : v ≠ EMPTY → run l c i d → run (<[x := v]> l) c i d.
Proof.
  intros Hv H j Hj. destruct (H j Hj) as (w & Hw & Hne).
  destruct (decide (x = Z.to_nat ((i + j) mod c))) as [->|Hx].
  - exists v. split; [|done]. apply list_lookup_insert_eq.
    by apply lookup_lt_Some in Hw.
  - exists w. by rewrite list_lookup_insert_ne.
Qed.

(** A table with an [EMPTY] slot: from any index, some run ends at one. *)
Lemma run_or_empty l c i n :
  Z.of_nat (length l) = c → 0 < c →
  run l c i (Z.of_nat n) ∨
  ∃ d, 0 ≤ d < Z.of_nat n ∧ run l c i d ∧ l !! Z.to_nat ((i + d) mod c) = Some EMPTY.
Proof.
  intros Hl Hc. induction n as [|n IH]; [left; intros j; lia|].
  destruct IH as [IH|(d & ? & ? & ?)]; [|right; exists d; split_and!; try done; lia].
  destruct (lookup_lt_is_Some_2 l (Z.to_nat ((i + Z.of_nat n) mod c))) as [v Hv].
  { pose proof (Z.mod_pos_bound (i + Z.of_nat n) c). lia. }
  destruct (decide (v = EMPTY)) as [->|Hne].
  - right. exists (Z.of_nat n). split_and!; try done; lia.
  - left. intros j Hj. destruct (decide (j = Z.of_nat n)) as [->|]; [by exists v|].
    apply IH. lia.
Qed.

Lemma run_to_empty l c i :
  tab_ok c l → 0 ≤ i < c → EMPTY ∈ l →
  ∃ d, 0 ≤ d < c ∧ run l c i d ∧ l !! Z.to_nat ((i + d) mod c) = Some EMPTY.
Proof.
  intros Ht Hi He. pose proof (tab_cap_range _ _ Ht) as Hc.
  destruct (run_or_empty l c i (Z.to_nat c)) as [H|(d & ? & ? & ?)]; [apply Ht|lia| |].
  - exfalso. apply list_elem_of_lookup in He as [x Hx].
    pose proof (lookup_lt_Some _ _ _ Hx). pose proof (t_len _ _ Ht).
    destruct (H ((Z.of_nat x - i) mod c)) as (v & Hv & Hne).
    { pose proof (Z.mod_pos_bound (Z.of_nat x - i) c). lia. }
    rewrite Zplus_mod_idemp_r in Hv.
    replace (i + (Z.of_nat x - i)) with (Z.of_nat x) in Hv by lia.
    rewrite Z.mod_small, Nat2Z.id in Hv by lia. congruence.
  - exists d. split_and!; try done; lia.
Qed.

(** ** Loops *)

(** Induction along a probe sequence: [d] more slots to walk from index [i],
    with enough fuel. *)
Lemma walk_ind (c : Z) (P : nat → Z → Z → Prop) :
  0 < c →
  (∀ fuel i, 0 ≤ i < c → P (S fuel) i 0) →
  (∀ fuel i d, 0 ≤ i < c → 0 ≤ d → P fuel ((i + 1) mod c) d → P (S fuel) i (d + 1)) →
  ∀ d fuel i, 0 ≤ i < c → 0 ≤ d < Z.of_nat fuel → P fuel i d.
Proof.
  intros Hc Hbase Hstep d fuel i Hi Hd. revert d i Hi Hd.
  induction fuel as [|fuel IH]; intros d i Hi Hd; [lia|].
  destruct (decide (d = 0)) as [->|]; [by apply Hbase|].
  replace d with ((d - 1) + 1) by lia. apply Hstep; [done|lia|].
  apply IH; [by apply Z.mod_pos_bound|lia].
Qed.

(** Start such an induction on a goal quantified over [d], [fuel] and [i]. *)
Ltac walk c :=
  lazymatch goal with
  | |- ∀ (d : Z) (fuel : nat) (i : Z), _ → _ → @?P d fuel i =>
      apply (walk_ind c (λ fuel i d, P d fuel i)); cbv beta; [lia| |]
  end.

(** No slot of the run holds [key]. *)
Definition no_key (l : list Z) (c i d key : Z) : Prop :=
  ∀ j, 0 ≤ j < d → l !! Z.to_nat ((i + j) mod c) ≠ Some key.

Lemma no_key_tail l c i d key :
  no_key l c i (d + 1) key → no_key l c ((i + 1) mod c) d key.
Proof. intros H j Hj. rewrite mod_shift. apply H. lia. Qed.

Lemma no_key_head l c i d key v :
  0 ≤ i < c → 0 < d → no_key l c i d key → l !! Z.to_nat i = Some v → v ≠ key.
Proof.
  intros Hi Hd H Hv ->. apply (H 0); [lia|]. by rewrite Z.add_0_r, Z.mod_small by lia.
Qed.

Section loops.
Context {St : Type}.
Implicit Types s : St.

(** One iteration of a probe loop reads a slot in range. *)
Ltac probe_slot Hv := apply wp_bind; eapply wp_deref; [exact Hv|]; cbv beta.

Lemma raw_insert_loop_spec c l d fuel i (Q : Z → St → Prop) s :
  tab_ok c l → 0 ≤ i < c → 0 ≤ d < Z.of_nat fuel → run l c i d →
  l !! Z.to_nat ((i + d) mod c) = Some EMPTY →
  Q ((i + d) mod c) s → wp (raw_insert_loop fuel l c i) Q s.
Proof.
  intros Ht. pose proof (tab_cap_range _ _ Ht). revert d fuel i. walk c.
  - intros fuel i Hi _ He HQ. rewrite Z.add_0_r, Z.mod_small in * by lia.
    cbn [raw_insert_loop]. probe_slot He. done.
  - intros fuel i d Hi Hd IH Hr He HQ.
    destruct (run_head _ _ _ (d + 1) Hi ltac:(lia) Hr) as (v & Hv & Hne).
    cbn [raw_insert_loop]. probe_slot Hv. rewrite (proj2 (Z.eqb_neq v EMPTY)) by done.
    rewrite (next_index c l i Ht Hi). apply IH; rewrite ?mod_shift; try done.
    by apply run_tail.
Qed.

Lemma find_loop_absent c l d fuel i key (Q : option Z → St → Prop) s :
  tab_ok c l → 0 ≤ i < c → 0 ≤ d < Z.of_nat fuel → run l c i d → no_key l c i d key →
  l !! Z.to_nat ((i + d) mod c) = Some EMPTY →
  Q None s → wp (find_loop fuel l c key i) Q s.
Proof.
  intros Ht. pose proof (tab_cap_range _ _ Ht). revert d fuel i. walk c.
  - intros fuel i Hi _ _ He HQ. rewrite Z.add_0_r, Z.mod_small in * by lia.
    cbn [find_loop]. probe_slot He. done.
  - intros fuel i d Hi Hd IH Hr Hk He HQ.
    destruct (run_head _ _ _ (d + 1) Hi ltac:(lia) Hr) as (v & Hv & Hne).
    pose proof (no_key_head _ _ _ (d + 1) _ _ Hi ltac:(lia) Hk Hv).
    cbn [find_loop]. probe_slot Hv. rewrite (proj2 (Z.eqb_neq v EMPTY)) by done.
    rewrite (proj2 (Z.eqb_neq v key)) by done.
    rewrite (next_index c l i Ht Hi). apply IH; rewrite ?mod_shift; try done.
    + by apply run_tail.
    + by apply no_key_tail.
Qed.

Lemma find_loop_present c l d fuel i key (Q : option Z → St → Prop) s :
  tab_ok c l → key ≠ EMPTY → 0 ≤ i < c → 0 ≤ d < Z.of_nat fuel →
  run l c i d → no_key l c i d key →
  l !! Z.to_nat ((i + d) mod c) = Some key →
  Q (Some ((i + d) mod c)) s → wp (find_loop fuel l c key i) Q s.
Proof.
  intros Ht Hkey. pose proof (tab_cap_range _ _ Ht). revert d fuel i.
  walk c.
  - intros fuel i Hi _ _ He HQ. rewrite Z.add_0_r, Z.mod_small in * by lia.
    cbn [find_loop]. probe_slot He. rewrite (proj2 (Z.eqb_neq key EMPTY)) by done.
    by rewrite Z.eqb_refl.
  - intros fuel i d Hi Hd IH Hr Hk He HQ.
    destruct (run_head _ _ _ (d + 1) Hi ltac:(lia) Hr) as (v & Hv & Hne).
    pose proof (no_key_head _ _ _ (d + 1) _ _ Hi ltac:(lia) Hk Hv).
    cbn [find_loop]. probe_slot Hv. rewrite (proj2 (Z.eqb_neq v EMPTY)) by done.
    rewrite (proj2 (Z.eqb_neq v key)) by done.
    rewrite (next_index c l i Ht Hi). apply IH; rewrite ?mod_shift; try done.
    + by apply run_tail.
    + by apply no_key_tail.
Qed.

Lemma register_loop_present c l d fuel i key ft (Q : option (Z * Z) → St → Prop) s :
  tab_ok c l → key ≠ EMPTY → 0 ≤ i < c → 0 ≤ d < Z.of_nat fuel →
  run l c i d → no_key l c i d key →
  l !! Z.to_nat ((i + d) mod c) = Some key →
  Q None s → wp (register_loop fuel l c key i ft) Q s.
Proof.
  intros Ht Hkey. pose proof (tab_cap_range _ _ Ht). intros H1 H2. revert ft. revert d fuel i H1 H2.
  walk c.
  - intros fuel i Hi ft _ _ He HQ. rewrite Z.add_0_r, Z.mod_small in * by lia.
    cbn [register_loop]. probe_slot He. rewrite (proj2 (Z.eqb_neq key EMPTY)) by done.
    by rewrite Z.eqb_refl.
  - intros fuel i d Hi Hd IH ft Hr Hk He HQ.
    destruct (run_head _ _ _ (d + 1) Hi ltac:(lia) Hr) as (v & Hv & Hne).
    pose proof (no_key_head _ _ _ (d + 1) _ _ Hi ltac:(lia) Hk Hv).
    cbn [register_loop]. probe_slot Hv. rewrite (proj2 (Z.eqb_neq v EMPTY)) by done.
    rewrite (proj2 (Z.eqb_neq v key)) by done. cbv zeta.
    rewrite (next_index c l i Ht Hi). apply IH; rewrite ?mod_shift; try done.
    + by apply run_tail.
    + by apply no_key_tail.
Qed.

(** Where [region_register] puts an absent key: at the [EMPTY] slot that ends
    the run, or at a tombstone inside the run.  In both cases the slots before
    it, from the key's own index on, form a run. *)
Lemma register_loop_absent c l d fuel i key ft i0 d0 (Q : option (Z * Z) → St → Prop) s :
  tab_ok c l → 0 ≤ i < c → 0 ≤ d < Z.of_nat fuel →
  i = (i0 + d0) mod c → 0 ≤ d0 → 0 ≤ i0 < c → d0 + d < c →
  run l c i0 (d0 + d) → no_key l c i d key →
  l !! Z.to_nat ((i + d) mod c) = Some EMPTY →
  (ft = SIZE_MAX ∨ l !! Z.to_nat ft = Some TOMB ∧
     ∃ e, 0 ≤ e < c ∧ ft = (i0 + e) mod c ∧ run l c i0 e) →
  (∀ x ft', l !! Z.to_nat x = Some EMPTY → x = (i0 + (d0 + d)) mod c →
     (ft' = SIZE_MAX ∨ l !! Z.to_nat ft' = Some TOMB ∧
        ∃ e, 0 ≤ e < c ∧ ft' = (i0 + e) mod c ∧ run l c i0 e) → Q (Some (x, ft')) s) →
  wp (register_loop fuel l c key i ft) Q s.
Proof.
  intros Ht. pose proof (tab_cap_range _ _ Ht). intros H1 H2. revert ft d0. revert d fuel i H1 H2.
  walk c.
  - intros fuel i Hi ft d0 Hid Hd0 Hi0 Hlt Hr _ He Hft HQ. rewrite Z.add_0_r, Z.mod_small in * by lia.
    cbn [register_loop]. probe_slot He. by apply HQ.
  - intros fuel i d Hi Hd IH ft d0 Hid Hd0 Hi0 Hlt Hr Hk He Hft HQ.
    destruct (Hr d0) as (v & Hv & Hne); [lia|]. rewrite <-Hid in Hv.
    pose proof (no_key_head _ _ _ (d + 1) _ _ Hi ltac:(lia) Hk Hv).
    cbn [register_loop]. probe_slot Hv. rewrite (proj2 (Z.eqb_neq v EMPTY)) by done.
    rewrite (proj2 (Z.eqb_neq v key)) by done. cbv zeta.
    rewrite (next_index c l i Ht Hi). apply (IH _ (d0 + 1)); rewrite ?mod_shift; try done; try lia.
    + subst i. by rewrite Zplus_mod_idemp_l, <-Z.add_assoc.
    + by replace (d0 + 1 + d) with (d0 + (d + 1)) by lia.
    + by apply no_key_tail.
    + destruct ((v =? TOMB) && (ft =? SIZE_MAX)) eqn:E; [|done]. bool_hyps. subst v.
      right. split; [done|]. exists d0. split_and!; try lia.
      intros j Hj. apply Hr. lia.
    + by replace (d0 + 1 + d) with (d0 + (d + 1)) by lia.
Qed.
End loops.

(** ** Updates of a table *)

Lemma insert_perm (l : list Z) x old v :
  l !! x = Some old → ∃ k, l ≡ₚ old :: k ∧ <[x := v]> l ≡ₚ v :: k.
Proof.
  intros Hx. exists (take x l ++ drop (S x) l).
  rewrite insert_take_drop by (by eapply lookup_lt_Some).
  split; [|by rewrite Permutation_middle].
  rewrite <-(take_drop_middle l x old) at 1 by done. by rewrite Permutation_middle.
Qed.

Lemma live_cons v k : live (v :: k) = if is_key v then v :: live k else live k.
Proof. unfold live. rewrite filter_cons. by destruct (is_key v). Qed.

#[export] Instance live_proper : Proper ((≡ₚ) ==> (≡ₚ)) live.
Proof. intros l1 l2 H. unfold live. by rewrite H. Qed.

#[export] Instance n_tombs_proper : Proper ((≡ₚ) ==> eq) n_tombs.
Proof. intros l1 l2 H. unfold n_tombs. by rewrite H. Qed.

Lemma n_tombs_cons v k : n_tombs (v :: k) = ((if decide (v = TOMB) then 1 else 0) + n_tombs k)%nat.
Proof. unfold n_tombs. rewrite filter_cons. by case_decide. Qed.

Lemma elem_of_live l v : v ∈ live l ↔ v ∈ l ∧ is_key v = true.
Proof. unfold live. rewrite list_elem_of_filter. naive_solver. Qed.

(** Every slot is live, a tombstone or [EMPTY]. *)
Lemma slot_count l : length l = (length (live l) + n_tombs l + n_empty l)%nat.
Proof.
  induction l as [|v l IH]; [done|].
  rewrite live_cons, n_tombs_cons. unfold n_empty in *. rewrite filter_cons. simpl.
  destruct (is_key v) eqn:E.
  - apply is_key_true in E as [? ?]. rewrite !decide_False by done. simpl. lia.
  - unfold is_key in E. bool_hyps. destruct E as [E|E]; bool_hyps; subst v.
    + rewrite decide_False, decide_True by done. simpl. lia.
    + rewrite decide_True, decide_False by done. simpl. lia.
Qed.

Lemma empty_slot_exists l :
  (length (live l) + n_tombs l < length l)%nat → EMPTY ∈ l.
Proof.
  intros H. pose proof (slot_count l). unfold n_empty in *.
  destruct (filter (λ v, v = EMPTY) l) as [|v k] eqn:E; simpl in *; [lia|].
  assert (v ∈ filter (λ v, v = EMPTY) l) as Hv by (rewrite E; set_solver).
  apply list_elem_of_filter in Hv as [-> ?]. done.
Qed.

(** Writing an absent key into a slot its probe sequence can reach. *)
Lemma tab_put c l x old key :
  tab_ok c l → l !! x = Some old → is_key old = false → key_ok key → key ∉ live l →
  (∃ d, 0 ≤ d < c ∧ Z.of_nat x = (index_of (c - 1) key + d) mod c ∧
        run l c (index_of (c - 1) key) d) →
  tab_ok c (<[x := key]> l) ∧ live (<[x := key]> l) ≡ₚ key :: live l.
Proof.
  intros Ht Hx Ho Hk Hn Hd. pose proof (key_ok_is_key key Hk) as Hik.
  destruct (insert_perm l x old key Hx) as (k & H1 & H2).
  assert (live l ≡ₚ live k) as Hl by by rewrite H1, live_cons, Ho.
  assert (live (<[x := key]> l) ≡ₚ key :: live l) as Hl'.
  { by rewrite H2, live_cons, Hik, Hl. }
  split; [|done]. constructor.
  - rewrite length_insert. apply Ht.
  - apply Ht.
  - intros v. rewrite Hl', elem_of_cons. intros [->|Hv]; [done|by apply Ht].
  - rewrite Hl'. apply NoDup_cons. split; [done|apply Ht].
  - intros y v Hy Hv. assert (v ≠ EMPTY ∧ key ≠ EMPTY) as [? ?].
    { split; by apply is_key_true. }
    destruct (decide (x = y)) as [->|Hxy].
    + rewrite list_lookup_insert_eq in Hy by (by eapply lookup_lt_Some). simplify_eq.
      destruct Hd as (d & ? & ? & ?). exists d. split_and!; try done; try lia.
      by apply run_insert.
    + rewrite list_lookup_insert_ne in Hy by done.
      destruct (t_probe _ _ Ht y v Hy Hv) as (d & ? & ? & ?).
      exists d. split_and!; try done; try lia. by apply run_insert.
Qed.

(** Replacing a key by a tombstone. *)
Lemma tab_del c l x key :
  tab_ok c l → l !! x = Some key → is_key key = true →
  tab_ok c (<[x := TOMB]> l) ∧ live l ≡ₚ key :: live (<[x := TOMB]> l).
Proof.
  intros Ht Hx Hk. destruct (insert_perm l x key TOMB Hx) as (k & H1 & H2).
  assert (live (<[x := TOMB]> l) ≡ₚ live k) as Hl' by by rewrite H2, live_cons.
  assert (live l ≡ₚ key :: live (<[x := TOMB]> l)) as Hl.
  { rewrite Hl'. by rewrite H1, live_cons, Hk. }
  split; [|done]. pose proof (t_nodup _ _ Ht) as Hnd. rewrite Hl in Hnd.
  apply NoDup_cons in Hnd as [Hnk Hnd]. constructor.
  - rewrite length_insert. apply Ht.
  - apply Ht.
  - intros v Hv. apply (t_keys _ _ Ht). rewrite Hl. set_solver.
  - done.
  - intros y v Hy Hv. destruct (decide (x = y)) as [->|Hxy].
    + rewrite list_lookup_insert_eq in Hy by (by eapply lookup_lt_Some). by simplify_eq.
    + rewrite list_lookup_insert_ne in Hy by done.
      destruct (t_probe _ _ Ht y v Hy Hv) as (d & ? & ? & ?).
      exists d. split_and!; try done; try lia. by apply run_insert.
Qed.

(** The slot of a live key and the run that leads to it. *)
Lemma key_slot c l key :
  tab_ok c l → key ∈ live l →
  ∃ d, 0 ≤ d < c ∧ run l c (index_of (c - 1) key) d ∧
    no_key l c (index_of (c - 1) key) d key ∧
    l !! Z.to_nat ((index_of (c - 1) key + d) mod c) = Some key.
Proof.
  intros Ht Hk. apply elem_of_live in Hk as [Hk Hik]. apply list_elem_of_lookup in Hk as [x Hx].
  destruct (t_probe _ _ Ht x key Hx Hik) as (d & Hd & Hxd & Hr).
  exists d. split_and!; try done; try lia; [|by rewrite <-Hxd, Nat2Z.id].
  intros j Hj Hlk. pose proof (tab_cap_range _ _ Ht) as Hc.
  set (y := Z.to_nat ((index_of (c - 1) key + j) mod c)) in *.
  assert (x = y) as Hxy.
  { destruct (decide (x = y)) as [|Hne]; [done|exfalso].
    destruct (tab_del c l x key Ht Hx Hik) as [_ Hl].
    pose proof (t_nodup _ _ Ht) as Hnd. rewrite Hl in Hnd.
    apply NoDup_cons in Hnd as [Hnk _]. apply Hnk, elem_of_live. split; [|done].
    apply list_elem_of_lookup. exists y. by rewrite list_lookup_insert_ne. }
  assert (Z.of_nat y = (index_of (c - 1) key + j) mod c) as Hy.
  { unfold y. pose proof (Z.mod_pos_bound (index_of (c - 1) key + j) c). lia. }
  subst x. rewrite Hxd in Hy.
  assert (((index_of (c - 1) key + d) - (index_of (c - 1) key + j)) mod c = 0) as Hz.
  { rewrite Zminus_mod, Hy, Z.sub_diag. apply Zmod_0_l. }
  rewrite Z.mod_small in Hz by lia. lia.
Qed.

(** A fresh table. *)
Lemma tab_fresh k :
  10 ≤ k ≤ 44 →
  let l := replicate (Z.to_nat (2 ^ k)) EMPTY in
  tab_ok (2 ^ k) l ∧ live l = [] ∧ n_tombs l = 0%nat.
Proof.
  intros Hk l. assert (live l = []) as Hl.
  { destruct (live l) as [|v m] eqn:E; [done|].
    assert (v ∈ live l) as Hv by (rewrite E; set_solver).
    apply elem_of_live in Hv as [Hv Hi]. apply elem_of_replicate in Hv as [-> _]. done. }
  assert (n_tombs l = 0%nat) as Ht.
  { unfold n_tombs. destruct (filter (λ v, v = TOMB) l) as [|v m] eqn:E; [done|].
    assert (v ∈ filter (λ v, v = TOMB) l) as Hv by (rewrite E; set_solver).
    apply list_elem_of_filter in Hv as [-> Hv]. by apply elem_of_replicate in Hv as [? _]. }
  split_and!; try done. constructor.
  - unfold l. rewrite length_replicate. rewrite Z2Nat.id; [done|]. apply Z.pow_nonneg; lia.
  - by exists k.
  - rewrite Hl. intros v Hv. by apply elem_of_nil in Hv.
  - rewrite Hl. constructor.
  - intros x v Hx Hi. apply lookup_replicate in Hx as [-> _]. done.
Qed.

(** There are at most 2^42 segment-aligned addresses, which bounds the table. *)
Lemma NoDup_range_length (l : list Z) n :
  0 ≤ n → NoDup l → (∀ v, v ∈ l → 0 ≤ v < n) → Z.of_nat (length l) ≤ n.
Proof.
  intros Hn Hnd Hr.
  assert (l ⊆+ seqZ 0 n) as Hsub.
  { apply NoDup_submseteq; [done|]. intros v Hv. apply elem_of_seqZ.
    pose proof (Hr v Hv). lia. }
  apply submseteq_length in Hsub. rewrite length_seqZ in Hsub. lia.
Qed.

Lemma live_length_bound c l : tab_ok c l → Z.of_nat (length (live l)) ≤ 2 ^ 42.
Proof.
  intros Ht. rewrite <-(length_fmap (λ v, v / SEGMENT_SIZE)).
  assert (∀ v, v ∈ live l → ∃ q, v = SEGMENT_SIZE * q ∧ 0 ≤ q < 2 ^ 42) as Hq.
  { intros v Hv. destruct (t_keys _ _ Ht v Hv) as [Hr Hm].
    apply mod_0_mul in Hm as [q ->]; [|done]. exists q. split; [done|]. consts. lia. }
  apply NoDup_range_length; [lia| |].
  - apply NoDup_fmap_2_strong; [|apply Ht]. intros x y Hx Hy Heq.
    destruct (Hq x Hx) as (q & -> & ?), (Hq y Hy) as (q' & -> & ?).
    rewrite !(Z.mul_comm SEGMENT_SIZE), !Z_div_mult in Heq by done. by subst.
  - intros z Hz. apply list_elem_of_fmap in Hz as (v & -> & Hv).
    destruct (Hq v Hv) as (q & -> & ?). by rewrite Z.mul_comm, Z_div_mult.
Qed.

Section ops.
Context {K : Kernel} {KL : KernelLaws K}.
Implicit Types (r : Registry) (o : OsState) (X : gset Z).

(** The registry represents the set [X] of region bases. *)
Definition reg_wf r X : Prop :=
  match slots r with
  | None => r = empty_registry ∧ X = ∅
  | Some (_, l) =>
      tab_ok (cap r) l ∧ size r = Z.of_nat (length (live l)) ∧
      tombs r = Z.of_nat (n_tombs l) ∧ X = list_to_set (live l)
  end.

(** The memory the table occupies. *)
Definition reg_region r : option (Z * Z) :=
  match slots r with Some (p, _) => Some (p, slots_bytes (cap r)) | None => None end.
Definition region_in (R : option (Z * Z)) (a : Z) : bool :=
  match R with Some (p, n) => in_range p n a | None => false end.
Definition region_len (R : option (Z * Z)) : Z :=
  match R with Some (_, n) => n | None => 0 end.

Definition reg_mem r o : Prop :=
  ∀ p n, reg_region r = Some (p, n) →
    p mod os_page_size = 0 ∧ 0 < n ∧ n mod os_page_size = 0 ∧ (0 < p ∧ p + n ≤ 2 ^ 64) ∧
    ∀ a, in_range p n a = true → mapped o a = true.

(** What a registry operation does to the address space: at most its table
    moves, to memory that was not mapped, and nothing else changes. *)
Record reg_os_step r o r' o' : Prop := {
  ro_mapped a : mapped o' a =
    region_in (reg_region r') a || (negb (region_in (reg_region r) a) && mapped o a);
  ro_fresh a : region_in (reg_region r') a = true →
    region_in (reg_region r) a = true ∨ mapped o a = false;
  ro_bytes a : mapped o a = true → byte_at (bytes o') a = byte_at (bytes o) a;
  ro_count : 0 ≤ g_bytes_mapped o < 2 ^ 64 → g_bytes_mapped o' =
    u64 (g_bytes_mapped o + region_len (reg_region r') - region_len (reg_region r));
  ro_peak : (reg_region r' = reg_region r ∧ g_peak_mapped o' = g_peak_mapped o) ∨
    peak_follows o o' (region_len (reg_region r'));
  ro_calm : calmer o o'
}.

(** At least one, and at least two, [EMPTY] slots. *)
Definition reg_room1 r : Prop := slots r = None ∨ size r + tombs r < cap r.
Definition reg_room r : Prop := slots r = None ∨ size r + tombs r + 1 < cap r.

Lemma reg_room_1 r : reg_room r → reg_room1 r.
Proof. intros [?|?]; [by left|right; lia]. Qed.

(** Room depends on the number of slots that are not [EMPTY]. *)
Lemma reg_room_kept r r' :
  (slots r' = None ↔ slots r = None) → cap r' = cap r → size r' + tombs r' = size r + tombs r →
  (reg_room1 r → reg_room1 r') ∧ (reg_room r → reg_room r').
Proof. intros Hs Hc Hn. split; (intros [H|H]; [left; by apply Hs|right; lia]). Qed.

Lemma reg_os_step_same r o r' o' :
  reg_region r' = reg_region r → reg_mem r o → os_unchanged o o' → reg_os_step r o r' o'.
Proof.
  intros Hr Hm Hu. constructor.
  - intros a. rewrite Hr, (ou_mapped _ _ Hu).
    destruct (region_in (reg_region r) a) eqn:E; simpl; [|done].
    unfold region_in in E. destruct (reg_region r) as [[p n]|] eqn:ER; [|done].
    by apply (Hm p n ER).
  - intros a. rewrite Hr. by left.
  - intros a _. by rewrite (ou_bytes _ _ Hu).
  - intros Hb. rewrite Hr, (ou_count _ _ Hu), u64_small; lia.
  - left. split; [done|apply (ou_peak _ _ Hu)].
  - apply (ou_calm _ _ Hu).
Qed.

Lemma slots_bytes_ok k :
  10 ≤ k ≤ 44 →
  os_args_ok (slots_bytes (2 ^ k)) os_page_size ∧ 0 < slots_bytes (2 ^ k) ∧
  slots_bytes (2 ^ k) + os_page_size ≤ 2 ^ 48.
Proof.
  intros Hk. unfold slots_bytes. pose proof page_size_range as Hps. pose proof SEGMENT_SIZE_eq.
  assert (2 ^ 10 ≤ 2 ^ k ≤ 2 ^ 44) as H2 by (split; apply Z.pow_le_mono_r; lia).
  replace (2 ^ k * 8 + os_page_size - 1) with (2 ^ k * 8 + (os_page_size - 1)) by lia.
  destruct (align_up_spec (2 ^ k * 8) os_page_size page_size_pow2) as [Hm Hr]; [lia..|].
  pose proof (align_up_range (2 ^ k * 8) os_page_size) as Hr'.
  change (Z.land _ _) with (align_up (2 ^ k * 8) os_page_size).
  split; [|lia]. split_and!; try lia; try done; [apply page_size_pow2|apply Z_mod_same_full].
Qed.

(** ** Rehashing *)

Lemma raw_insert_spec {St} c l key (Q : list Z → St → Prop) s :
  tab_ok c l → key_ok key → key ∉ live l → EMPTY ∈ l →
  (∀ l', tab_ok c l' → live l' ≡ₚ key :: live l → n_tombs l' = n_tombs l → Q l' s) →
  wp (raw_insert l c key) Q s.
Proof.
  intros Ht Hk Hn He HQ. pose proof (tab_index_range c l key Ht) as Hi.
  destruct (run_to_empty l c _ Ht Hi He) as (d & Hd & Hr & Hx).
  unfold raw_insert. apply wp_bind. apply (raw_insert_loop_spec c l d); try done; [lia|].
  apply wp_ret. pose proof (tab_cap_range _ _ Ht).
  pose proof (Z.mod_pos_bound (index_of (c - 1) key + d) c ltac:(lia)).
  destruct (tab_put c l _ EMPTY key Ht Hx eq_refl Hk Hn) as [Ht' Hl'].
  { exists d. split_and!; try done; lia. }
  apply HQ; [done|done|].
  destruct (insert_perm l _ EMPTY key Hx) as (k & H1 & H2).
  rewrite H2. rewrite H1. rewrite !n_tombs_cons.
  pose proof (key_ok_is_key key Hk) as [_ ?]%is_key_true. by rewrite !decide_False by done.
Qed.

Lemma rehash_spec {St} c old fresh (Q : list Z → St → Prop) s :
  tab_ok c fresh → n_tombs fresh = 0%nat →
  NoDup (live old ++ live fresh) → (∀ v, v ∈ live old → key_ok v) →
  Z.of_nat (length (live old) + length (live fresh)) < c →
  (∀ l', tab_ok c l' → live l' ≡ₚ live old ++ live fresh → n_tombs l' = 0%nat → Q l' s) →
  wp (rehash old fresh c) Q s.
Proof.
  revert fresh. induction old as [|v old IH]; intros fresh Ht Hz Hnd Hk Hlen HQ.
  { apply wp_ret. by apply HQ. }
  cbn [rehash]. change (negb (v =? EMPTY) && negb (v =? TOMB)) with (is_key v).
  rewrite live_cons in Hnd, Hk, Hlen, HQ. apply wp_bind. destruct (is_key v) eqn:E.
  - simpl in Hnd, Hlen. apply NoDup_cons in Hnd as [Hn Hnd].
    pose proof (t_len _ _ Ht).
    apply raw_insert_spec; [done|apply Hk; set_solver|set_solver| |].
    { apply empty_slot_exists. lia. }
    intros l' Ht' Hl' Hz'. apply IH; [done|lia| | |rewrite Hl'; simpl; lia|].
    + rewrite Hl'. rewrite <-Permutation_middle. by apply NoDup_cons.
    + intros w Hw. apply Hk. set_solver.
    + intros l'' ? Hl'' ?. apply HQ; [done| |done].
      rewrite Hl'', Hl'. by rewrite <-Permutation_middle.
  - apply wp_ret. by apply IH.
Qed.

(** ** The operations *)

(** The old slots that [grow_locked] copies. *)
Definition old_slots r : list Z :=
  match slots r with Some (_, old) => old | None => [] end.

Lemma reg_wf_old r X :
  reg_wf r X →
  X = list_to_set (live (old_slots r)) ∧ NoDup (live (old_slots r)) ∧
  (∀ v, v ∈ live (old_slots r) → key_ok v) ∧
  size r = Z.of_nat (length (live (old_slots r))) ∧
  Z.of_nat (length (live (old_slots r))) ≤ 2 ^ 42.
Proof.
  unfold reg_wf, old_slots. destruct (slots r) as [[p l]|].
  - intros (Ht & Hs & _ & HX). split_and!; [done|apply Ht|apply Ht|done|].
    by eapply live_length_bound.
  - intros [-> ->]. split_and!; try done; [constructor|].
    intros v Hv. by apply elem_of_nil in Hv.
Qed.

Lemma alloc_slots_spec k r o :
  10 ≤ k ≤ 44 →
  wp (alloc_slots (2 ^ k)) (λ f rs', fst rs' = r ∧ match f with
    | Some (p, l) => l = replicate (Z.to_nat (2 ^ k)) EMPTY ∧ p mod os_page_size = 0 ∧
        os_grown o (snd rs') p (slots_bytes (2 ^ k))
    | None => os_unchanged o (snd rs') ∧ strained (snd rs')
    end) (r, o).
Proof.
  intros Hk. unfold alloc_slots, lift_os. apply wp_bind, wp_zoom.
  destruct (slots_bytes_ok k Hk) as (Hargs & _ & Hle).
  eapply wp_mono; [by apply os_alloc_aligned_spec|].
  intros [p|] o' Hres; apply wp_ret; [done|]. split; [done|]. destruct Hres as [Hu Hst]. split; [done|by apply Hst].
Qed.

(** The address space after the table moved from its old region, if any, to a
    fresh one. *)
Lemma reg_os_moved r o r' o1 o2 p n :
  reg_mem r o → reg_region r' = Some (p, n) → os_grown o o1 p n →
  match reg_region r with
  | Some (q, m) => os_shrunk o1 o2 q m
  | None => o2 = o1
  end →
  reg_os_step r o r' o2.
Proof.
  intros Hm Hr' Hg Hs. destruct (reg_region r) as [[q m]|] eqn:HR.
  - destruct (Hm q m HR) as (_ & _ & _ & _ & Hmap). constructor; rewrite ?Hr', ?HR; simpl.
    + intros a. rewrite (os_sh_mapped _ _ _ _ Hs), (og_mapped _ _ _ _ Hg).
      destruct (in_range p n a) eqn:E; simpl; [|done].
      apply (og_fresh _ _ _ _ Hg) in E.
      destruct (in_range q m a) eqn:E2; [|done]. apply Hmap in E2. congruence.
    + intros a Ha. right. by apply (og_fresh _ _ _ _ Hg).
    + intros a Ha. rewrite (os_sh_bytes _ _ _ _ Hs). by apply (og_frame _ _ _ _ Hg).
    + intros _. rewrite (os_sh_count _ _ _ _ Hs), (og_count _ _ _ _ Hg).
      unfold u64. by rewrite Zminus_mod_idemp_l.
    + right. unfold peak_follows. rewrite (os_sh_peak _ _ _ _ Hs). apply (og_peak _ _ _ _ Hg).
    + etrans; [apply (og_calm _ _ _ _ Hg)|apply (os_sh_calm _ _ _ _ Hs)].
  - subst o2. constructor; rewrite ?Hr', ?HR; simpl.
    + intros a. apply (og_mapped _ _ _ _ Hg).
    + intros a Ha. right. by apply (og_fresh _ _ _ _ Hg).
    + intros a Ha. by apply (og_frame _ _ _ _ Hg).
    + intros _. rewrite (og_count _ _ _ _ Hg). f_equal. lia.
    + right. apply (og_peak _ _ _ _ Hg).
    + apply (og_calm _ _ _ _ Hg).
Qed.

(** Growing either fails, and then nothing changed, or installs a table of the
    new capacity with the same keys and no tombstones. *)
Definition grown_registry k r o r' o' : Prop :=
  (∃ p l, r' = mkRegistry (Some (p, l)) (2 ^ k) (size r) 0 ∧ tab_ok (2 ^ k) l ∧
     live l ≡ₚ live (old_slots r) ∧ n_tombs l = 0%nat) ∧
  reg_mem r' o' ∧ reg_os_step r o r' o'.

Lemma grow_locked_spec k r o X :
  reg_wf r X → reg_mem r o → 10 ≤ k ≤ 44 → size r < 2 ^ k →
  wp (grow_locked (2 ^ k)) (λ _ rs',
    (fst rs' = r ∧ os_unchanged o (snd rs') ∧ strained (snd rs')) ∨ grown_registry k r o (fst rs') (snd rs')) (r, o).
Proof.
  intros Hwf Hm Hk Hsz. destruct (reg_wf_old r X Hwf) as (_ & Hnd & Hkeys & Hsize & _).
  unfold grow_locked. apply wp_bind, wp_gets, wp_bind. simpl.
  eapply wp_mono; [by apply (alloc_slots_spec k r o)|].
  intros [[p l]|] [r1 o1] [Hr1 Hf]; simpl in Hr1, Hf; subst r1; [|apply wp_ret; by left].
  destruct Hf as (-> & Hpm & Hg). destruct (tab_fresh k Hk) as (Ht & Hl0 & Hz0).
  destruct (slots_bytes_ok k Hk) as ((_ & Hbm & _) & Hbpos & _).
  fold (old_slots r). apply wp_bind, rehash_spec; rewrite ?Hl0, ?app_nil_r; try done.
  { simpl. lia. }
  intros l' Ht' Hl' Hz'. apply wp_bind, wp_modify. simpl.
  assert (∀ o2, (match reg_region r with Some (q, m) => os_shrunk o1 o2 q m | None => o2 = o1 end) →
    grown_registry k r o (mkRegistry (Some (p, l')) (2 ^ k) (size r) 0) o2) as Hfin.
  { intros o2 Ho2.
    assert (reg_os_step r o (mkRegistry (Some (p, l')) (2 ^ k) (size r) 0) o2) as Hstep
      by by apply (reg_os_moved r o _ o1 o2 p (slots_bytes (2 ^ k))).
    split_and!; [|intros q n [= <- <-]|done].
    - exists p, l'. done.
    - split_and!; try done; [apply (og_pos _ _ _ _ Hg)|apply (og_end _ _ _ _ Hg)|].
      intros a Ha. rewrite (ro_mapped _ _ _ _ Hstep). simpl. by rewrite Ha. }
  unfold reg_region in Hfin. destruct (slots r) as [[q old]|] eqn:Hsl.
  - unfold lift_os. apply wp_zoom. simpl.
    destruct (Hm q (slots_bytes (cap r))) as (? & ? & ? & _); [by unfold reg_region; rewrite Hsl|].
    eapply wp_mono; [by apply os_free_spec|]. intros [] o2 Hs. right. by apply Hfin.
  - apply wp_ret. right. by apply Hfin.
Qed.

Lemma grown_wf k r o r' o' X :
  reg_wf r X → grown_registry k r o r' o' → reg_wf r' X.
Proof.
  intros Hwf [(p & l & -> & Ht & Hl & Hz) _].
  destruct (reg_wf_old r X Hwf) as (-> & _ & _ & Hs & _).
  unfold reg_wf. simpl. split_and!; [done|by rewrite Hl|by rewrite Hz|].
  apply set_eq. intros x. rewrite !elem_of_list_to_set. by rewrite Hl.
Qed.

(** A 64-bit counter of slots does not wrap. *)
Lemma counters_small r X p l :
  reg_wf r X → slots r = Some (p, l) →
  0 ≤ size r ∧ 0 ≤ tombs r ∧ size r + tombs r ≤ cap r ∧ 1024 ≤ cap r ≤ 2 ^ 44 ∧
  size r ≤ 2 ^ 42.
Proof.
  intros Hwf Hs. unfold reg_wf in Hwf. rewrite Hs in Hwf. destruct Hwf as (Ht & Hsz & Htb & _).
  pose proof (slot_count l). pose proof (t_len _ _ Ht). pose proof (tab_cap_range _ _ Ht).
  pose proof (live_length_bound _ _ Ht). lia.
Qed.

Lemma n_tombs_insert l x old v :
  l !! x = Some old →
  (n_tombs (<[x := v]> l) + (if decide (old = TOMB) then 1 else 0) =
   n_tombs l + (if decide (v = TOMB) then 1 else 0))%nat.
Proof.
  intros Hx. destruct (insert_perm l x old v Hx) as (k & H1 & H2).
  rewrite H2. rewrite (n_tombs_proper _ _ H1). rewrite !n_tombs_cons. lia.
Qed.

(** Storing an absent key at [x] keeps the registry well formed. *)
Lemma reg_put r X p l x old key :
  reg_wf r X → slots r = Some (p, l) → key_ok key → key ∉ X →
  l !! x = Some old → is_key old = false →
  (∃ d, 0 ≤ d < cap r ∧ Z.of_nat x = (index_of (cap r - 1) key + d) mod cap r ∧
        run l (cap r) (index_of (cap r - 1) key) d) →
  let t := if decide (old = TOMB) then u64 (tombs r - 1) else tombs r in
  reg_wf (mkRegistry (Some (p, <[x := key]> l)) (cap r) (u64 (size r + 1)) t) ({[key]} ∪ X) ∧
  u64 (size r + 1) + t ≤ size r + tombs r + 1.
Proof.
  intros Hwf Hs Hk Hn Hx Ho Hd t. pose proof (counters_small r X p l Hwf Hs) as Hc.
  unfold reg_wf in Hwf. rewrite Hs in Hwf. destruct Hwf as (Ht & Hsz & Htb & ->).
  rewrite elem_of_list_to_set in Hn.
  destruct (tab_put (cap r) l x old key Ht Hx Ho Hk Hn Hd) as [Ht' Hl'].
  pose proof (n_tombs_insert l x old key Hx) as Hnt.
  pose proof (key_ok_is_key key Hk) as [_ Hkt]%is_key_true.
  rewrite (decide_False (P := key = TOMB)) in Hnt by done.
  rewrite (u64_small (size r + 1)) by lia.
  assert (t = Z.of_nat (n_tombs (<[x := key]> l))) as ->.
  { unfold t. destruct (decide (old = TOMB)); [rewrite u64_small|]; lia. }
  split; [|destruct (decide (old = TOMB)); lia].
  unfold reg_wf. simpl. split_and!; [done|rewrite Hl'; simpl; lia|done|].
  apply set_eq. intros z. rewrite elem_of_union, elem_of_singleton, !elem_of_list_to_set, Hl'.
  set_solver.
Qed.

Lemma union_singleton_mem X x : x ∈ X → {[x]} ∪ X = X.
Proof. set_solver. Qed.

Lemma register_insert_spec r o X base :
  reg_wf r X → reg_room1 r → key_ok base → slots r ≠ None →
  wp (register_insert base) (λ _ rs', snd rs' = o ∧ reg_wf (fst rs') ({[base]} ∪ X) ∧
    reg_region (fst rs') = reg_region r ∧ slots (fst rs') ≠ None ∧ cap (fst rs') = cap r ∧
    size (fst rs') + tombs (fst rs') ≤ size r + tombs r + 1) (r, o).
Proof.
  intros Hwf Hroom Hk Hsome. unfold register_insert. apply wp_bind, wp_gets. simpl.
  destruct (slots r) as [[p l]|] eqn:Hs; [|done].
  destruct Hroom as [?|Hroom]; [congruence|].
  assert (∃ d, tab_ok (cap r) l ∧ X = list_to_set (live l) ∧ EMPTY ∈ l ∧ d = cap r) as
    (_ & Ht & HX & He & _).
  { unfold reg_wf in Hwf. rewrite Hs in Hwf. destruct Hwf as (Ht & ? & ? & ?).
    exists (cap r). split_and!; try done. apply empty_slot_exists.
    pose proof (t_len _ _ Ht). lia. }
  pose proof (tab_index_range (cap r) l base Ht) as Hi.
  pose proof (tab_cap_range _ _ Ht) as Hcap.
  apply wp_bind. destruct (decide (base ∈ X)) as [Hin|Hout].
  - assert (base ∈ live l) as Hin' by (subst X; by apply elem_of_list_to_set in Hin).
    destruct (key_slot _ _ _ Ht Hin') as (d & Hd & Hr & Hnk & Hat).
    apply (register_loop_present (cap r) l d); try done; [|lia|].
    { destruct Hk. unfold EMPTY. lia. }
    apply wp_ret. simpl. rewrite (union_singleton_mem X base Hin).
    split_and!; try done; [congruence|lia].
  - destruct (run_to_empty l (cap r) _ Ht Hi He) as (d & Hd & Hr & Hx).
    apply (register_loop_absent (cap r) l d _ _ _ _ (index_of (cap r - 1) base) 0); try done; try lia.
    + by rewrite Z.add_0_r, Z.mod_small by lia.
    + intros j Hj Hat. destruct (Hr j Hj) as (v & Hv & Hne).
      rewrite Hat in Hv. injection Hv as <-. apply Hout. subst X.
      apply elem_of_list_to_set, elem_of_live. split; [by eapply list_elem_of_lookup_2|].
      by apply key_ok_is_key.
    + intros x ft Hxe Hxd Hft. rewrite Z.add_0_l in Hxd.
      pose proof (Z.mod_pos_bound (index_of (cap r - 1) base + d) (cap r) ltac:(lia)).
      destruct (ft =? SIZE_MAX) eqn:Eft; simpl; apply wp_modify; simpl; bool_hyps.
      * destruct (reg_put r X p l (Z.to_nat x) EMPTY base) as [Hwf' Hle]; try done.
        { exists d. split_and!; try done; lia. }
        split_and!; try done.
        unfold reg_region. by rewrite Hs.
      * destruct Hft as [?|(Hft & e & He' & Hfe & Hre)]; [done|].
        pose proof (Z.mod_pos_bound (index_of (cap r - 1) base + e) (cap r) ltac:(lia)).
        destruct (reg_put r X p l (Z.to_nat ft) TOMB base) as [Hwf' Hle]; try done.
        { exists e. split_and!; try done; lia. }
        split_and!; try done.
        unfold reg_region. by rewrite Hs.
Qed.

(** The table determines the set. *)
Lemma reg_wf_det r X X' : reg_wf r X → reg_wf r X' → X' = X.
Proof. unfold reg_wf. destruct (slots r) as [[p l]|]; intros; naive_solver congruence. Qed.

(** A request for a table of no slots, the second attempt when the very first
    table could not be mapped, is rejected by the OS layer. *)
Lemma grow_locked_zero r o : grow_locked 0 (r, o) = Ok (tt, (r, o)).
Proof.
  assert (slots_bytes 0 = 0) as Hb.
  { unfold slots_bytes. rewrite Z.mul_0_l, Z.add_0_l. pose proof page_size_range.
    pose proof SEGMENT_SIZE_eq. rewrite u64_small by lia.
    destruct page_size_pow2 as (k & Hk & E). rewrite E, land_not64_ones by lia.
    rewrite Z.mod_small; lia. }
  unfold grow_locked, alloc_slots, lift_os, mbind, M_bind, gets, zoom. rewrite Hb. done.
Qed.

(** Growth was needed and the OS layer refused: the table stayed where it is
    although its load is high. *)
Definition growth_refused r r' : Prop :=
  reg_region r' = reg_region r ∧ load_high r = true.

Definition registered r o X base r' o' : Prop :=
  reg_mem r' o' ∧ reg_os_step r o r' o' ∧
  match slots r' with
  | None => r' = r
  | Some _ => reg_wf r' ({[base]} ∪ X) ∧ reg_room1 r' ∧ (reg_room r' ∨ growth_refused r r') ∧
      cap r ≤ cap r' ∧ size r' + tombs r' ≤ size r + tombs r + 1
  end ∧
  ∀ Cm : Calm K, calm (kern o') → slots r' ≠ None ∧ reg_room r'.

(** The insertion phase after the growth phase took [r] to [r1]. *)
Lemma registered_insert r o X base r1 o1 :
  reg_wf r1 X → reg_mem r1 o1 → reg_os_step r o r1 o1 → key_ok base → slots r1 ≠ None →
  size r1 + tombs r1 + 1 < cap r1 →
  (size r1 + tombs r1 + 2 < cap r1 ∨ growth_refused r r1 ∧ strained o1) →
  cap r ≤ cap r1 → size r1 + tombs r1 ≤ size r + tombs r →
  wp (register_insert base) (λ _ rs', registered r o X base (fst rs') (snd rs')) (r1, o1).
Proof.
  intros Hwf Hm Hstep Hk Hs Hroom Hr2 Hc1 Hst1.
  eapply wp_mono; [apply (register_insert_spec r1 o1 X base); try done; right; lia|].
  intros _ [r' o'] (Ho & Hwf' & Hreg & Hs' & Hc & Hle); simpl in *. subst o'.
  split_and!.
  - unfold reg_mem. rewrite Hreg. done.
  - destruct Hstep as [S1 S2 S3 S4 S5 S6]. constructor; rewrite ?Hreg; done.
  - destruct (slots r') eqn:E; [|done]. split_and!; [done|right; lia| |lia|lia].
    destruct Hr2 as [Hr2|[[Hg1 Hg2] _]]; [left; right; lia|right].
    split; [congruence|done].
  - intros Cm Hcm. split; [done|]. right. destruct Hr2 as [Hr2|[_ Hn]]; [lia|]. by destruct (Hn Cm).
Qed.

Lemma load_low_room r X p l :
  reg_wf r X → slots r = Some (p, l) → load_high r = false → size r + tombs r + 2 < cap r.
Proof.
  intros Hwf Hs Hl. pose proof (counters_small r X p l Hwf Hs). unfold load_high in Hl.
  bool_hyps. rewrite !u64_small in Hl by lia. lia.
Qed.

(** The capacity [region_register] asks for when the load is high. *)
Lemma new_capacity r X p l :
  reg_wf r X → slots r = Some (p, l) → size r + tombs r < cap r →
  ∃ k, (if cap r <=? u64 (size r * 2) then u64 (cap r * 2) else cap r) = 2 ^ k ∧
    10 ≤ k ≤ 44 ∧ size r + 2 < 2 ^ k ∧ cap r ≤ 2 ^ k ∧ 0 ≤ tombs r.
Proof.
  intros Hwf Hs Hroom. pose proof (counters_small r X p l Hwf Hs) as Hc.
  unfold reg_wf in Hwf. rewrite Hs in Hwf. destruct Hwf as (Ht & _).
  destruct (t_cap _ _ Ht) as (k & Hk & Hcap). rewrite !u64_small by lia.
  destruct (cap r <=? size r * 2) eqn:E; bool_hyps.
  - assert (k ≤ 43).
    { destruct (Z.le_gt_cases k 43) as [|Hgt]; [done|]. assert (k = 44) by lia. subst k. lia. }
    exists (k + 1). rewrite Z.pow_add_r by lia. split_and!; lia.
  - exists k. split_and!; lia.
Qed.

Lemma region_register_spec r o X base :
  reg_wf r X → reg_mem r o → reg_room r → key_ok base →
  wp (region_register base) (λ _ rs', registered r o X base (fst rs') (snd rs')) (r, o).
Proof.
  intros Hwf Hm Hroom Hk. unfold region_register. apply wp_bind, wp_gets, wp_bind. cbn [fst].
  destruct (slots r) as [[p l]|] eqn:Hs.
  - apply wp_ret, wp_bind, wp_gets, wp_bind. cbn [fst].
    destruct Hroom as [?|Hroom]; [congruence|].
    assert (slots r ≠ None) as Hsn by congruence.
    destruct (load_high r) eqn:Hl.
    + destruct (new_capacity r X p l Hwf Hs) as (k & -> & Hkr & Hsz & Hck & Htn); [lia|].
      eapply wp_mono; [apply (grow_locked_spec k r o X); (done || lia)|].
      intros _ [r1 o1] [(Hr1 & Hu & Hn)|Hg]; cbn [fst snd] in *.
      * subst r1. apply registered_insert; try done.
        -- intros q n Hq. destruct (Hm q n Hq) as (? & ? & ? & ? & Hma).
           split_and!; try done; try lia. intros a Ha. rewrite (ou_mapped _ _ Hu). by apply Hma.
        -- by apply reg_os_step_same.
        -- by right.
      * pose proof (grown_wf _ _ _ _ _ X Hwf Hg) as Hwf1.
        destruct Hg as ((p1 & l1 & -> & _) & Hm1 & Hst).
        apply registered_insert; try done; simpl; lia.
    + apply wp_ret. pose proof (load_low_room r X p l Hwf Hs Hl).
      apply registered_insert; try done; [|by left].
      by apply reg_os_step_same.
  - change 1024 with (2 ^ 10). unfold reg_wf in Hwf. rewrite Hs in Hwf. destruct Hwf as [-> ->].
    eapply wp_mono; [apply (grow_locked_spec 10 empty_registry o ∅); done|].
    intros _ [r1 o1] [(Hr1 & Hu & Hn)|Hg]; cbn [fst snd] in *;
      apply wp_bind, wp_gets, wp_bind; cbn [fst].
    + subst r1. unfold wp at 1. change (load_high empty_registry) with true. cbv iota.
      change (if cap empty_registry <=? _ then _ else _) with 0.
      rewrite grow_locked_zero. apply wp_bind, wp_gets. simpl. apply wp_ret. simpl.
      split_and!; [done|by apply reg_os_step_same|done|]. intros Cm Hc. by destruct (Hn Cm).
    + assert (reg_wf r1 ∅) as Hwf1 by by apply (grown_wf 10 empty_registry o r1 o1).
      destruct Hg as ((p1 & l1 & -> & _) & Hm1 & Hst). cbn [fst].
      change (load_high _) with false. cbv iota. apply wp_ret.
      apply registered_insert; try done. by left.
Qed.

(** Searching for a key that is present, or in a table with an [EMPTY] slot. *)
Lemma find_key_spec {St} r X p l base (Q : option Z → St → Prop) s :
  reg_wf r X → slots r = Some (p, l) → base ≠ TOMB → base ∈ X ∨ reg_room1 r →
  (base ∉ X → Q None s) →
  (∀ x, base ∈ X → l !! Z.to_nat x = Some base → is_key base = true → Q (Some x) s) →
  wp (find_loop (S (Z.to_nat (cap r))) l (cap r) base (index_of (cap r - 1) base)) Q s.
Proof.
  intros Hwf Hs Hb Hor HN HS. unfold reg_wf in Hwf. rewrite Hs in Hwf.
  destruct Hwf as (Ht & Hsz & Htb & ->). pose proof (tab_cap_range _ _ Ht).
  pose proof (tab_index_range (cap r) l base Ht) as Hi.
  destruct (decide (base ∈ (list_to_set (live l) : gset Z))) as [Hin|Hout].
  - pose proof Hin as Hin'. apply elem_of_list_to_set in Hin'.
    destruct (key_slot _ _ _ Ht Hin') as (d & Hd & Hr & Hnk & Hat).
    apply elem_of_live in Hin' as [_ Hik]. pose proof (proj1 (is_key_true base) Hik) as [? _].
    apply (find_loop_present (cap r) l d); try done; [lia|]. by apply HS.
  - destruct Hor as [?|[?|Hroom]]; [done|congruence|].
    assert (EMPTY ∈ l) as He.
    { apply empty_slot_exists. pose proof (t_len _ _ Ht). lia. }
    destruct (run_to_empty l (cap r) _ Ht Hi He) as (d & Hd & Hr & Hx).
    apply (find_loop_absent (cap r) l d); try done; [lia| |by apply HN].
    intros j Hj Hat. destruct (Hr j Hj) as (v & Hv & Hne). rewrite Hat in Hv. injection Hv as <-.
    apply Hout, elem_of_list_to_set, elem_of_live.
    split; [by eapply list_elem_of_lookup_2|]. by apply is_key_true.
Qed.

Lemma region_owns_spec r o X base :
  reg_wf r X → base ≠ TOMB → base ∈ X ∨ reg_room1 r →
  wp (region_owns base) (λ b rs', b = bool_decide (base ∈ X) ∧ rs' = (r, o)) (r, o).
Proof.
  intros Hwf Hb Hor. unfold region_owns. apply wp_bind, wp_gets. cbn [fst].
  destruct (slots r) as [[p l]|] eqn:Hs.
  - apply wp_bind, (find_key_spec r X p l); try done.
    + intros Hn. apply wp_ret. by rewrite bool_decide_false.
    + intros x Hx _ _. apply wp_ret. by rewrite bool_decide_true.
  - apply wp_ret. unfold reg_wf in Hwf. rewrite Hs in Hwf. destruct Hwf as [_ ->].
    by rewrite bool_decide_false by set_solver.
Qed.

Lemma region_unregister_spec r o X base :
  reg_wf r X → base ≠ TOMB → base ∈ X ∨ reg_room1 r →
  wp (region_unregister base) (λ _ rs', snd rs' = o ∧ reg_wf (fst rs') (X ∖ {[base]}) ∧
    reg_region (fst rs') = reg_region r ∧ cap (fst rs') = cap r ∧
    size (fst rs') + tombs (fst rs') = size r + tombs r) (r, o).
Proof.
  intros Hwf Hb Hor. unfold region_unregister. apply wp_bind, wp_gets. cbn [fst].
  destruct (slots r) as [[p l]|] eqn:Hs.
  - apply wp_bind, (find_key_spec r X p l); try done.
    + intros Hn. apply wp_ret. cbn [fst snd].
      rewrite difference_disjoint_L by set_solver. done.
    + intros x Hx Hlk Hik. apply wp_modify. cbn [fst snd].
      pose proof (counters_small r X p l Hwf Hs) as Hc.
      unfold reg_wf in Hwf. rewrite Hs in Hwf. destruct Hwf as (Ht & Hsz & Htb & ->).
      destruct (tab_del _ _ _ _ Ht Hlk Hik) as [Ht' Hl'].
      pose proof (n_tombs_insert l _ base TOMB Hlk) as Hnt.
      rewrite (decide_False (P := base = TOMB)), decide_True in Hnt by done.
      assert (length (live l) = S (length (live (<[Z.to_nat x := TOMB]> l)))) as Hlen by by rewrite Hl'.
      pose proof (slot_count (<[Z.to_nat x := TOMB]> l)) as Hsc. rewrite length_insert in Hsc.
      pose proof (t_len _ _ Ht).
      pose proof (t_nodup _ _ Ht) as Hnd. rewrite Hl' in Hnd. apply NoDup_cons in Hnd as [Hnk _].
      cbn [size tombs cap]. rewrite !u64_small by lia.
      split_and!; try done; [|unfold reg_region; by rewrite Hs|lia].
      unfold reg_wf. cbn [slots cap size tombs]. split_and!; [done|lia|lia|].
      apply set_eq. intros z. rewrite elem_of_difference, elem_of_singleton, !elem_of_list_to_set.
      rewrite Hl'. rewrite elem_of_cons. naive_solver.
  - apply wp_ret. cbn [fst snd]. unfold reg_wf in *. rewrite Hs in *. destruct Hwf as [-> ->].
    split_and!; try done. by rewrite difference_empty_L || set_solver.
Qed.

(** ** Refinement of a finite set

    The abstract registry is a set of addresses; a run of operations on the
    table gives the answers the set gives. *)
Inductive reg_op := Register (b : Z) | Unregister (b : Z) | Owns (b : Z).

Definition op_key (op : reg_op) : Z :=
  match op with Register b | Unregister b | Owns b => b end.

Fixpoint run_ops (ops : list reg_op) : M RState (list bool) :=
  match ops with
  | [] => mret []
  | Register b :: ops' => region_register b;; run_ops ops'
  | Unregister b :: ops' => region_unregister b;; run_ops ops'
  | Owns b :: ops' => v ← region_owns b; vs ← run_ops ops'; mret (v :: vs)
  end.

Fixpoint abs_ops (ops : list reg_op) (X : gset Z) : list bool * gset Z :=
  match ops with
  | [] => ([], X)
  | Register b :: ops' => abs_ops ops' ({[b]} ∪ X)
  | Unregister b :: ops' => abs_ops ops' (X ∖ {[b]})
  | Owns b :: ops' =>
      let '(vs, X') := abs_ops ops' X in (bool_decide (b ∈ X) :: vs, X')
  end.

Lemma key_ok_not_tomb b : key_ok b → b ≠ TOMB.
Proof. intros Hk. by apply key_ok_is_key, is_key_true in Hk as [_ ?]. Qed.

(** The kernel refuses nothing to the run: it is calm after every part of it. *)
Definition calm_along {Cm : Calm K} (ops : list reg_op) (rs : RState) : Prop :=
  ∀ ops1 ops2 vs rs', ops = ops1 ++ ops2 → run_ops ops1 rs = Ok (vs, rs') → calm (kern (snd rs')).

(** What the first operation did, and what is left to run. *)
Lemma calm_along_cons {Cm : Calm K} op ops rs vs rs' :
  calm_along (op :: ops) rs → run_ops [op] rs = Ok (vs, rs') → calm (kern (snd rs')) ∧ calm_along ops rs'.
Proof.
  intros Hc E. split; [by apply (Hc [op] ops vs rs')|]. intros ops1 ops2 vs1 rs1 -> E1.
  assert (run_ops (op :: ops1) rs = Ok (vs ++ vs1, rs1)) as E2; [|by apply (Hc (op :: ops1) ops2 _ _ eq_refl E2)].
  revert E. destruct op as [b|b|b]; cbn [run_ops]; unfold mbind, M_bind, mret, M_ret.
  - destruct (region_register b rs) as [[[] rs0]| |]; intros [= <- <-]. exact E1.
  - destruct (region_unregister b rs) as [[[] rs0]| |]; intros [= <- <-]. exact E1.
  - destruct (region_owns b rs) as [[v rs0]| |]; intros [= <- <-]. by rewrite E1.
Qed.

Lemma run_ops_spec {Cm : Calm K} ops r o X :
  reg_wf r X → reg_mem r o → Forall (λ op, key_ok (op_key op)) ops → reg_room r → calm_along ops (r, o) →
  wp (run_ops ops) (λ vs rs', vs = fst (abs_ops ops X) ∧
     reg_wf (fst rs') (snd (abs_ops ops X)) ∧ reg_room (fst rs')) (r, o).
Proof.
  revert r o X. induction ops as [|op ops IH]; intros r o X Hwf Hm Hk Hroom Hc; [by apply wp_ret|].
  apply Forall_cons in Hk as [Hop Hk]. pose proof (key_ok_not_tomb _ Hop) as Hnt.
  pose proof (reg_room_1 r Hroom) as Hr1.
  destruct op as [b|b|b]; cbn [run_ops abs_ops op_key] in *; apply wp_bind.
  - pose proof (region_register_spec r o X b Hwf Hm Hroom Hop) as ([] & [r' o'] & E & Hm' & _ & Hpost & Hcalm)%wp_ok.
    unfold wp. rewrite E. cbn [fst snd] in *.
    destruct (calm_along_cons _ _ _ [] (r', o') Hc) as [Hc1 Hc']; [cbn; unfold mbind, M_bind; by rewrite E|].
    destruct (Hcalm Cm Hc1) as [Hs Hroom']. destruct (slots r') eqn:Hs'; [|done]. destruct Hpost as (Hwf' & _).
    by apply IH.
  - pose proof (region_unregister_spec r o X b Hwf Hnt (or_intror Hr1)) as ([] & [r' o'] & E & Ho & Hwf' & Hreg & Hcap & Hsum)%wp_ok.
    unfold wp. rewrite E. cbn [fst snd] in *. subst o'.
    destruct (calm_along_cons _ _ _ [] (r', o) Hc) as [_ Hc']; [cbn; unfold mbind, M_bind; by rewrite E|].
    apply IH; try done.
    + unfold reg_mem. by rewrite Hreg.
    + apply (reg_room_kept r r'); try done. unfold reg_region in Hreg. by destruct (slots r') as [[]|], (slots r) as [[]|].
  - pose proof (region_owns_spec r o X b Hwf Hnt (or_intror Hr1)) as (v & rs' & E & -> & ->)%wp_ok.
    unfold wp at 1. rewrite E. apply wp_bind.
    destruct (calm_along_cons _ _ _ [bool_decide (b ∈ X)] (r, o) Hc) as [_ Hc']; [cbn; unfold mbind, M_bind; by rewrite E|].
    eapply wp_mono; [by apply (IH r o X)|]. intros vs rs' (-> & Hwf' & Hroom'). apply wp_ret. by destruct (abs_ops ops X).
Qed.
End ops.

(** ** A full table *)

Lemma register_loop_S {St} fuel l c key i ft :
  @register_loop St (S fuel) l c key i ft =
  (v ← deref (l !! Z.to_nat i);
   if v =? EMPTY then mret (Some (i, ft))
   else if v =? key then mret None
   else register_loop fuel l c key (Z.land (u64 (i + 1)) (c - 1))
          (if (v =? TOMB) && (ft =? SIZE_MAX) then i else ft)).
Proof. reflexivity. Qed.

Lemma register_loop_full {St} (l : list Z) c base fuel i ft (s : St) :
  tab_cap_ok c → Z.of_nat (length l) = c → EMPTY ∉ l → base ∉ l → 0 ≤ i < c →
  register_loop fuel l c base i ft s = Diverge.
Proof.
  intros Hc Hl He Hb. revert i ft. induction fuel as [|fuel IH]; intros i ft Hi; [done|].
  destruct (lookup_lt_is_Some_2 l (Z.to_nat i)) as [v Hv]; [lia|].
  rewrite register_loop_S, Hv. unfold mbind, M_bind. simpl. pose proof (list_elem_of_lookup_2 _ _ _ Hv).
  rewrite (proj2 (Z.eqb_neq v EMPTY)), (proj2 (Z.eqb_neq v base)) by (intros ->; done).
  apply IH. destruct Hc as (k & Hk & ->).
  rewrite land_ones_mod by lia. apply Z.mod_pos_bound. lia.
Qed.

(** ** Properties *)

Section properties.
Context {K : Kernel} {KL : KernelLaws K}.

(** C21: the registry refines a set of addresses.  From the empty registry of the
    start of the program, or any well-formed table with two [EMPTY] slots, every
    sequence of [region_register], [region_unregister] and [region_owns] on region
    bases, of any length, to which the kernel refuses no mapping of at most 2^48
    bytes, returns, gives exactly the answers of the abstract set, and leaves a
    well-formed table for the final set with two [EMPTY] slots again. *)
Theorem registry_refines_set {Cm : Calm K} (ops : list reg_op) (r : Registry) (o : OsState) (X : gset Z)
    (Hwf : reg_wf r X) (Hm : reg_mem r o) (Hroom : reg_room r)
    (Hkeys : Forall (λ op, key_ok (op_key op)) ops) (Hcalm : calm_along ops (r, o)) :
  ∃ rs', run_ops ops (r, o) = Ok (fst (abs_ops ops X), rs') ∧
    reg_wf (fst rs') (snd (abs_ops ops X)) ∧ reg_room (fst rs').
Proof.
  destruct (proj1 (wp_ok _ _ _) (run_ops_spec ops r o X Hwf Hm Hkeys Hroom Hcalm))
    as (vs & rs' & -> & -> & Hwf' & Hr'). eauto.
Qed.

(** Registering a region base returns; its table, if it moves, moves to
    memory that was not mapped and no other mapping or byte changes; and unless
    not even a first table could be mapped, the base is then in the set.  The
    table keeps two [EMPTY] slots unless growth was needed and refused. *)
Theorem region_register_correct (r : Registry) (o : OsState) (X : gset Z) (base : Z)
    (Hwf : reg_wf r X) (Hm : reg_mem r o) (Hroom : reg_room r) (Hk : key_ok base) :
  ∃ r' o', region_register base (r, o) = Ok (tt, (r', o')) ∧ registered r o X base r' o'.
Proof.
  destruct (proj1 (wp_ok _ _ _) (region_register_spec r o X base Hwf Hm Hroom Hk))
    as ([] & [r' o'] & -> & Hreg). eauto.
Qed.

(** [region_owns] decides membership for every address other than the
    tombstone, without changing anything, and [region_unregister] removes. *)
Theorem region_owns_unregister_correct (r : Registry) (o : OsState) (X : gset Z) (base : Z)
    (Hwf : reg_wf r X) (Hb : base ≠ TOMB) (Hroom : reg_room1 r) :
  region_owns base (r, o) = Ok (bool_decide (base ∈ X), (r, o)) ∧
  ∃ r', region_unregister base (r, o) = Ok (tt, (r', o)) ∧ reg_wf r' (X ∖ {[base]}) ∧
    reg_region r' = reg_region r.
Proof.
  destruct (proj1 (wp_ok _ _ _) (region_owns_spec r o X base Hwf Hb (or_intror Hroom)))
    as (b & rs & -> & -> & ->). split; [done|].
  destruct (proj1 (wp_ok _ _ _) (region_unregister_spec r o X base Hwf Hb (or_intror Hroom)))
    as ([] & [r' o'] & -> & Ho & Hwf' & Hr & _). simpl in *. subst o'. eauto.
Qed.

(** When the first table cannot be mapped the registration is dropped without a
    sign to the caller: the region stays unknown to [region_owns]. *)
Theorem region_register_dropped (o o' : OsState) (base : Z)
    (Hrefused : os_alloc_aligned (slots_bytes 1024) os_page_size o = Ok (None, o')) :
  region_register base (empty_registry, o) = Ok (tt, (empty_registry, o')) ∧
  region_owns base (empty_registry, o') = Ok (false, (empty_registry, o')).
Proof.
  split; [|done].
  assert (grow_locked 1024 (empty_registry, o) = Ok (tt, (empty_registry, o'))) as E1.
  { unfold grow_locked, alloc_slots, lift_os, mbind, M_bind, gets, zoom. simpl. by rewrite Hrefused. }
  unfold region_register, mbind, M_bind, gets. cbn [fst slots empty_registry]. rewrite E1.
  change (load_high (fst (empty_registry, o'))) with true. cbv iota. cbn [fst].
  change (if cap empty_registry <=? _ then _ else _) with 0. by rewrite grow_locked_zero.
Qed.

(** C40: a table without an [EMPTY] slot whose growth the OS layer refuses
    makes [region_register] of a new base loop for ever. *)
Theorem region_register_full_diverges (r : Registry) (o o' : OsState) (p : Z) (l : list Z)
    (base new_cap : Z)
    (Hs : slots r = Some (p, l)) (Hcap : tab_cap_ok (cap r)) (Hl : Z.of_nat (length l) = cap r)
    (Hfull : size r + tombs r = cap r) (He : EMPTY ∉ l) (Hb : base ∉ l)
    (Hsize : 0 ≤ size r ≤ cap r)
    (Hnew : new_cap = if cap r <=? size r * 2 then cap r * 2 else cap r)
    (Hrefused : os_alloc_aligned (slots_bytes new_cap) os_page_size o = Ok (None, o')) :
  region_register base (r, o) = Diverge.
Proof.
  assert (1024 ≤ cap r ≤ 2 ^ 44) as Hc.
  { destruct Hcap as (k & Hk & ->). split; [change 1024 with (2 ^ 10)|];
      apply Z.pow_le_mono_r; lia. }
  assert (grow_locked new_cap (r, o) = Ok (tt, (r, o'))) as Hg.
  { unfold grow_locked, alloc_slots, lift_os, mbind, M_bind, gets, zoom. simpl.
    by rewrite Hrefused. }
  assert (load_high r = true) as Hh.
  { unfold load_high. rewrite Hfull, !u64_small by lia. apply Z.leb_le. lia. }
  unfold region_register, mbind, M_bind, gets. cbn [fst]. rewrite Hs.
  unfold mret, M_ret. cbn [fst]. rewrite Hh, !u64_small, <-Hnew, Hg by lia.
  unfold register_insert, mbind, M_bind, gets. cbn [fst]. rewrite Hs.
  rewrite register_loop_full; try done. apply index_of_range.
  destruct Hcap as (k & Hk & ->). exists k. split; [lia|done].
Qed.
End properties.

(** A registry with one region, in the simulated address space. *)
Definition sim_reg : Registry * @OsState Sim.sim_kernel :=
  snd (from_ok (tt, (empty_registry, Sim.init 0))
    (region_register SEGMENT_SIZE (empty_registry, Sim.init (2 ^ 30)))).

Lemma key_ok_segment : key_ok SEGMENT_SIZE.
Proof. done. Qed.

Lemma sim_reg_registered :
  registered empty_registry (Sim.init (2 ^ 30)) ∅ SEGMENT_SIZE (fst sim_reg) (snd sim_reg).
Proof.
  assert (wp (region_register SEGMENT_SIZE)
    (λ _ rs', registered empty_registry (Sim.init (2 ^ 30)) ∅ SEGMENT_SIZE (fst rs') (snd rs'))
    (empty_registry, Sim.init (2 ^ 30))) as H.
  { apply region_register_spec; [done|done|by left|apply key_ok_segment]. }
  apply wp_ok in H as ([] & rs & Hrun & H). unfold sim_reg. rewrite Hrun. exact H.
Qed.

Lemma sim_reg_slots : slots (fst sim_reg) ≠ None.
Proof.
  assert (bool_decide (slots (fst sim_reg) = None) = false) as H by (vm_compute; reflexivity).
  by apply bool_decide_eq_false in H.
Qed.

Lemma sim_reg_wf : reg_wf (fst sim_reg) {[SEGMENT_SIZE]} ∧ reg_mem (fst sim_reg) (snd sim_reg).
Proof.
  destruct sim_reg_registered as (Hm & _ & H & _). pose proof sim_reg_slots as Hs.
  destruct (slots (fst sim_reg)); [|done]. destruct H as (H & _).
  by rewrite union_empty_r_L in H.
Qed.

Definition demo_ops : list reg_op :=
  [Register SEGMENT_SIZE; Register (2 * SEGMENT_SIZE); Unregister SEGMENT_SIZE; Owns SEGMENT_SIZE; Owns (2 * SEGMENT_SIZE)].

(** Deciding that the kernel stays calm, one operation at a time. *)
Fixpoint calm_alongb (ops : list reg_op) (rs : Registry * @OsState Sim.sim_kernel) : bool :=
  negb (Sim.sim_refused (kern (snd rs))) &&
  match ops with
  | [] => true
  | op :: ops => match run_ops [op] rs with Ok (_, rs') => calm_alongb ops rs' | _ => true end
  end.

Lemma calm_alongb_sound ops rs : calm_alongb ops rs = true → calm_along ops rs.
Proof.
  revert rs. induction ops as [|op ops IH]; intros rs [Hc Hb]%andb_true_iff ops1 ops2 vs rs' E Hr; apply negb_true_iff in Hc.
  - destruct ops1; [|done]. injection Hr as <- <-. exact Hc.
  - destruct ops1 as [|op1 ops1]; [injection Hr as <- <-; exact Hc|]. injection E as <- ->.
    assert (∃ vs0 rs0 vs1, run_ops [op] rs = Ok (vs0, rs0) ∧ run_ops ops1 rs0 = Ok (vs1, rs')) as (vs0 & rs0 & vs1 & E1 & E2).
    { destruct op; cbn [run_ops] in *; unfold mbind, M_bind, mret, M_ret in *; repeat case_match; simplify_eq/=; eauto. }
    rewrite E1 in Hb. by eapply (IH rs0 Hb ops1).
Qed.

Lemma registry_refines_set_witness :
  fst (abs_ops demo_ops ∅) = [false; true] ∧
  ∃ rs', run_ops demo_ops (empty_registry, Sim.init (2 ^ 30)) = Ok (fst (abs_ops demo_ops ∅), rs') ∧
    reg_wf (fst rs') (snd (abs_ops demo_ops ∅)) ∧ reg_room (fst rs').
Proof.
  split; [vm_compute; reflexivity|].
  apply (registry_refines_set demo_ops empty_registry (Sim.init (2 ^ 30)) ∅); [done|done|by left|by repeat constructor|].
  apply calm_alongb_sound. vm_compute. reflexivity.
Defined.

Lemma region_register_correct_witness :
  ∃ r' o', region_register SEGMENT_SIZE (empty_registry, Sim.init (2 ^ 30)) = Ok (tt, (r', o')) ∧
    registered empty_registry (Sim.init (2 ^ 30)) ∅ SEGMENT_SIZE r' o'.
Proof.
  apply (region_register_correct empty_registry (Sim.init (2 ^ 30)) ∅ SEGMENT_SIZE);
    [done|done|by left|apply key_ok_segment].
Defined.

Lemma region_owns_unregister_correct_witness :
  region_owns SEGMENT_SIZE sim_reg = Ok (true, sim_reg) ∧
  ∃ r', region_unregister SEGMENT_SIZE sim_reg = Ok (tt, (r', snd sim_reg)) ∧
    reg_wf r' ({[SEGMENT_SIZE]} ∖ {[SEGMENT_SIZE]}) ∧ reg_region r' = reg_region (fst sim_reg).
Proof.
  rewrite (surjective_pairing sim_reg).
  replace true with (bool_decide (SEGMENT_SIZE ∈ ({[SEGMENT_SIZE]} : gset Z))).
  - apply (region_owns_unregister_correct (fst sim_reg) (snd sim_reg) {[SEGMENT_SIZE]}
      SEGMENT_SIZE); [apply sim_reg_wf|done|].
    right. vm_compute. reflexivity.
  - by apply bool_decide_true, elem_of_singleton.
Defined.

(** 1024 bases fill a table of 1024 slots. *)
Definition full_slots : list Z := (λ i, (i + 1) * SEGMENT_SIZE) <$> seqZ 0 1024.
Definition full_registry : Registry := mkRegistry (Some (4096, full_slots)) 1024 1024 0.

Lemma region_register_full_diverges_witness :
  region_register (2000 * SEGMENT_SIZE) (full_registry, Sim.init 0) = Diverge.
Proof.
  apply (region_register_full_diverges full_registry (Sim.init 0) (Sim.refused 0) 4096 full_slots
    (2000 * SEGMENT_SIZE) 2048).
  - reflexivity.
  - exists 10. done.
  - vm_compute. reflexivity.
  - reflexivity.
  - apply (bool_decide_eq_true_1 (EMPTY ∉ full_slots)). vm_compute. reflexivity.
  - apply (bool_decide_eq_true_1 (2000 * SEGMENT_SIZE ∉ full_slots)). vm_compute. reflexivity.
  - simpl. lia.
  - reflexivity.
  - reflexivity.
Defined.
