(* ===== verification/Chains.v ===== *)
(** * Linked structures

    The lists the allocator threads through its objects, described by the
    sequence of their nodes.  [cseg nxt h l e] says that from the pointer [h]
    the [next] fields lead through the nodes [l] to the pointer [e]; a
    null-terminated list is [chain].  [dchain] describes a doubly-linked list
    by both links of each node.  [nxt] and [lnk] read the fields of a node and
    are [None] for a node that does not exist. *)
From stdpp Require Import base numbers list gmap.
From S2P Require Import Prelude.

(** Taking one node out of a list without repetitions. *)
Lemma elem_of_unlinked {K} (l1 l2 : list K) k x :
  NoDup (l1 ++ k :: l2) → x ∈ l1 ++ l2 ↔ x ∈ l1 ++ k :: l2 ∧ x ≠ k.
Proof.
  intros Hnd. rewrite Permutation_app_comm in Hnd. apply NoDup_cons in Hnd as [Hk _]. set_solver.
Qed.

Section cseg.
Context {K : Type}.
Implicit Types (nxt : K → option (option K)) (h e : option K) (l : list K).

Fixpoint cseg nxt h l e : Prop :=
  match l with
  | [] => h = e
  | k :: l' => h = Some k ∧ ∃ n, nxt k = Some n ∧ cseg nxt n l' e
  end.

Definition chain nxt h l : Prop := cseg nxt h l None.

Lemma chain_nil nxt h : chain nxt h [] ↔ h = None.
Proof. done. Qed.

Lemma chain_cons nxt h k l :
  chain nxt h (k :: l) ↔ h = Some k ∧ ∃ n, nxt k = Some n ∧ chain nxt n l.
Proof. done. Qed.

Lemma chain_none nxt l : chain nxt None l → l = [].
Proof. destruct l; [done|]. by intros [? _]. Qed.

Lemma chain_some nxt k l :
  chain nxt (Some k) l → ∃ n l', l = k :: l' ∧ nxt k = Some n ∧ chain nxt n l'.
Proof. destruct l as [|x l]; [done|]. intros [[= <-] (n & ? & ?)]. eauto. Qed.

Lemma cseg_app nxt h l1 l2 e :
  cseg nxt h (l1 ++ l2) e ↔ ∃ m, cseg nxt h l1 m ∧ cseg nxt m l2 e.
Proof.
  revert h. induction l1 as [|k l1 IH]; intros h; simpl; [naive_solver|].
  setoid_rewrite IH. naive_solver.
Qed.

Lemma cseg_ext nxt nxt' h l e :
  (∀ k, k ∈ l → nxt' k = nxt k) → cseg nxt h l e → cseg nxt' h l e.
Proof.
  revert h. induction l as [|k l IH]; intros h Hx; [done|].
  intros [-> (n & Hn & Hc)]. split; [done|]. exists n. split.
  - rewrite Hx; [done|]. set_solver.
  - apply IH; [|done]. intros j Hj. apply Hx. set_solver.
Qed.

Lemma chain_ext nxt nxt' h l :
  (∀ k, k ∈ l → nxt' k = nxt k) → chain nxt h l → chain nxt' h l.
Proof. apply cseg_ext. Qed.

Lemma chain_det nxt h l l' : chain nxt h l → chain nxt h l' → l = l'.
Proof.
  revert h l'. induction l as [|k l IH]; intros h l' H H'.
  - rewrite chain_nil in H. subst h. by apply chain_none in H'.
  - destruct H as [-> (n & Hn & H)]. apply chain_some in H' as (n' & l'' & -> & Hn' & H').
    f_equal. simplify_eq. by eapply IH.
Qed.

(** A list that ends cannot visit a node twice. *)
Lemma chain_NoDup nxt h l : chain nxt h l → NoDup l.
Proof.
  revert h. induction l as [|k l IH]; intros h H; [constructor|].
  destruct H as [-> (n & Hn & H)]. apply NoDup_cons. split; [|by eapply IH].
  intros Hin. apply list_elem_of_split in Hin as (l1 & l2 & ->).
  pose proof H as H2. unfold chain in H2. apply cseg_app in H2 as (m & _ & H2).
  assert (m = Some k) as -> by by destruct H2.
  assert (chain nxt (Some k) (k :: (l1 ++ k :: l2))) as H1 by (split; eauto).
  pose proof (chain_det _ _ _ _ H1 H2) as E. apply (f_equal length) in E.
  simpl in E. rewrite length_app in E. simpl in E. lia.
Qed.

(** Redirecting the last node: the splice of a list in front of another. *)
Lemma chain_splice nxt nxt' h l t h2 l2 :
  chain nxt h (l ++ [t]) → (∀ k, k ∈ l → nxt' k = nxt k) →
  nxt' t = Some h2 → chain nxt' h2 l2 → chain nxt' h (l ++ t :: l2).
Proof.
  intros H Hx Ht H2. unfold chain in *. apply cseg_app in H as (m & H1 & Hm & _).
  apply cseg_app. exists m. split; [by eapply cseg_ext|]. split; [done|eauto].
Qed.

(** Unlinking [k] from a singly-linked list by its predecessor [t]. *)
Lemma chain_unlink nxt nxt' h l t k n l2 :
  chain nxt h (l ++ t :: k :: l2) → (∀ x, x ∈ l ++ l2 → nxt' x = nxt x) →
  nxt k = Some n → nxt' t = Some n → chain nxt' h (l ++ t :: l2).
Proof.
  intros H Hx Hk Ht. unfold chain in *. apply cseg_app in H as (m & H1 & -> & (? & _ & -> & (n' & Hn' & H2))).
  apply cseg_app. exists (Some t). split.
  - eapply cseg_ext; [|done]. intros x Hxl. apply Hx. set_solver.
  - split; [done|]. exists n. split; [done|]. simplify_eq.
    eapply cseg_ext; [|done]. intros x Hxl. apply Hx. set_solver.
Qed.

(** The pointer that a list cut after [l1] is reached through. *)
Lemma chain_at nxt h l1 l2 :
  chain nxt h (l1 ++ l2) → match last l1 with Some x => nxt x = Some (head l2) | None => h = head l2 end.
Proof.
  intros H. destruct (last l1) as [x|] eqn:E.
  - apply last_Some in E as [l ->]. unfold chain in H. rewrite <-app_assoc in H.
    apply cseg_app in H as (m & _ & _ & (n & Hn & H)). rewrite Hn. f_equal. destruct l2; simpl in *; [done|by destruct H].
  - apply last_None in E as ->. destruct l2; simpl in *; [done|by destruct H].
Qed.
End cseg.

Section dchain.
Context {K : Type} `{EqDecision K}.
Implicit Types (lnk : K → option (option K * option K)) (p h : option K) (l : list K).

(** [dchain lnk p h l]: [prev] of the first node is [p]. *)
Fixpoint dchain lnk p h l : Prop :=
  match l with
  | [] => h = None
  | k :: l' => h = Some k ∧ ∃ n, lnk k = Some (p, n) ∧ dchain lnk (Some k) n l'
  end.

Definition nxt_of lnk (k : K) : option (option K) := snd <$> lnk k.

Lemma dchain_chain lnk p h l : dchain lnk p h l → chain (nxt_of lnk) h l.
Proof.
  revert p h. induction l as [|k l IH]; intros p h; [done|].
  intros [-> (n & Hn & H)]. split; [done|]. exists n. unfold nxt_of. rewrite Hn.
  split; [done|]. by eapply IH.
Qed.

Lemma dchain_NoDup lnk p h l : dchain lnk p h l → NoDup l.
Proof. intros H%dchain_chain. by eapply chain_NoDup. Qed.

Lemma dchain_ext lnk lnk' p h l :
  (∀ k, k ∈ l → lnk' k = lnk k) → dchain lnk p h l → dchain lnk' p h l.
Proof.
  revert p h. induction l as [|k l IH]; intros p h Hx; [done|].
  intros [-> (n & Hn & Hc)]. split; [done|]. exists n. split.
  - rewrite Hx; [done|]. set_solver.
  - apply IH; [|done]. intros j Hj. apply Hx. set_solver.
Qed.

Lemma dchain_lookup lnk p h l k : dchain lnk p h l → k ∈ l → is_Some (lnk k).
Proof.
  revert p h. induction l as [|x l IH]; intros p h H Hk; [by apply elem_of_nil in Hk|].
  destruct H as [-> (n & Hn & H)]. apply elem_of_cons in Hk as [->|Hk]; eauto.
Qed.

Lemma dchain_some lnk p k l :
  dchain lnk p (Some k) l → ∃ n l', l = k :: l' ∧ lnk k = Some (p, n) ∧ dchain lnk (Some k) n l'.
Proof. destruct l as [|x l]; [done|]. intros [[= <-] (n & ? & ?)]. eauto. Qed.

(** The two links of neighbours agree. *)
Lemma dchain_next_prev lnk p h l x a k :
  dchain lnk p h l → x ∈ l → lnk x = Some (a, Some k) →
  k ∈ l ∧ ∃ b, lnk k = Some (Some x, b).
Proof.
  revert p h. induction l as [|y l IH]; intros p h H Hx Hlk; [by apply elem_of_nil in Hx|].
  destruct H as [-> (n & Hn & H)]. apply elem_of_cons in Hx as [->|Hx].
  - simplify_eq. apply dchain_some in H as (b & l' & -> & Hb & _). split; [set_solver|eauto].
  - destruct (IH _ _ H Hx Hlk) as (? & ?). split; [set_solver|done].
Qed.

Lemma dchain_prev_next lnk p h l x k b :
  dchain lnk p h l → k ∈ l → lnk k = Some (Some x, b) →
  (p = Some x ∧ h = Some k) ∨ (x ∈ l ∧ ∃ a, lnk x = Some (a, Some k)).
Proof.
  revert p h. induction l as [|y l IH]; intros p h H Hk Hlk; [by apply elem_of_nil in Hk|].
  destruct H as [-> (n & Hn & H)]. apply elem_of_cons in Hk as [->|Hk].
  - simplify_eq. by left.
  - right. destruct (IH _ _ H Hk Hlk) as [[[= ->] ->]|(? & ?)]; [|split; [set_solver|done]].
    split; [set_solver|eauto].
Qed.

(** No node is its own neighbour. *)
Lemma dchain_next_self lnk p h l k a : dchain lnk p h l → k ∈ l → lnk k = Some (a, Some k) → False.
Proof.
  revert p h. induction l as [|y l IH]; intros p h H Hk Hlk; [by apply elem_of_nil in Hk|].
  pose proof (dchain_NoDup _ _ _ _ H) as [Hy _]%NoDup_cons. destruct H as [-> (n & Hn & H)].
  apply elem_of_cons in Hk as [->|Hk]; [|by eapply IH].
  simplify_eq. apply dchain_some in H as (? & ? & -> & _). set_solver.
Qed.

Lemma dchain_prev_self lnk h l k b : dchain lnk None h l → k ∈ l → lnk k = Some (Some k, b) → False.
Proof.
  intros H Hk Hlk. destruct (dchain_prev_next _ _ _ _ _ _ _ H Hk Hlk) as [[? _]|(_ & a & Ha)]; [done|].
  by eapply dchain_next_self.
Qed.

Lemma dchain_prev_none lnk h l k b :
  dchain lnk None h l → k ∈ l → lnk k = Some (None, b) → h = Some k.
Proof.
  intros H Hk Hlk. destruct l as [|y l]; [by apply elem_of_nil in Hk|].
  destruct H as [-> (n & Hn & H)]. apply elem_of_cons in Hk as [->|Hk]; [done|]. exfalso.
  clear Hn. revert y n H. induction l as [|z l IH]; intros y n H; [by apply elem_of_nil in Hk|].
  destruct H as [-> (n' & Hn' & H)]. apply elem_of_cons in Hk as [->|Hk]; [congruence|].
  by eapply (IH Hk).
Qed.

(** No node points back at the head. *)
Lemma dchain_next_not_head lnk h l x a k :
  dchain lnk None h l → h = Some k → x ∈ l → lnk x = Some (a, Some k) → False.
Proof.
  intros H -> Hx Hlk. destruct (dchain_next_prev _ _ _ _ _ _ _ H Hx Hlk) as (_ & b & Hb).
  apply dchain_some in H as (n & l' & -> & Hn & _). congruence.
Qed.

(** Unlinking [k]: its neighbours' links to [k] become links to each other. *)
Definition relink (k : K) (a b : option K) (ab : option K * option K) : option K * option K :=
  (if decide (fst ab = Some k) then a else fst ab,
   if decide (snd ab = Some k) then b else snd ab).

Lemma relink_neighbours lnk h l k a b x pa nb :
  dchain lnk None h l → k ∈ l → lnk k = Some (a, b) → x ∈ l → lnk x = Some (pa, nb) →
  relink k a b (pa, nb) =
    (if decide (b = Some x) then a else pa, if decide (a = Some x) then b else nb).
Proof.
  intros H Hk Hlk Hx Hlx. unfold relink. simpl. f_equal.
  - assert (pa = Some k ↔ b = Some x) as Hiff; [split|].
    + intros ->. destruct (dchain_prev_next _ _ _ _ _ _ _ H Hx Hlx) as [[? _]|(_ & a' & ?)]; congruence.
    + intros ->. destruct (dchain_next_prev _ _ _ _ _ _ _ H Hk Hlk) as (_ & b' & ?). congruence.
    + destruct (decide (pa = Some k)), (decide (b = Some x)); tauto.
  - assert (nb = Some k ↔ a = Some x) as Hiff; [split|].
    + intros ->. destruct (dchain_next_prev _ _ _ _ _ _ _ H Hx Hlx) as (_ & b' & ?). congruence.
    + intros ->. destruct (dchain_prev_next _ _ _ _ _ _ _ H Hk Hlk) as [[? _]|(_ & a' & ?)]; congruence.
    + destruct (decide (nb = Some k)), (decide (a = Some x)); tauto.
Qed.

Lemma dchain_relink_tail lnk lnk' k a b p h l :
  dchain lnk p h l → k ∉ l → h ≠ Some k →
  (∀ x, x ∈ l → lnk' x = relink k a b <$> lnk x) →
  dchain lnk' (if decide (p = Some k) then a else p) h l.
Proof.
  revert p h. induction l as [|y l IH]; intros p h H Hk Hh Hx; [done|].
  destruct H as [-> (n & Hn & H)]. split; [done|].
  assert (n ≠ Some k) as Hnk.
  { intros ->. apply dchain_some in H as (? & ? & -> & _). set_solver. }
  exists n. split.
  - rewrite Hx, Hn by set_solver. simpl. unfold relink. simpl.
    by rewrite (decide_False (P := n = Some k)).
  - specialize (IH (Some y) n H). rewrite decide_False in IH by set_solver.
    apply IH; [set_solver|done|]. intros x Hxl. apply Hx. set_solver.
Qed.

Lemma dchain_remove lnk lnk' p h l1 k l2 a b :
  dchain lnk p h (l1 ++ k :: l2) → p ≠ Some k → lnk k = Some (a, b) →
  (∀ x, x ∈ l1 ++ l2 → lnk' x = relink k a b <$> lnk x) →
  dchain lnk' p (if decide (h = Some k) then b else h) (l1 ++ l2).
Proof.
  intros H. pose proof (dchain_NoDup _ _ _ _ H) as Hnd. revert p h H Hnd.
  induction l1 as [|y l1 IH]; intros p h H Hnd Hp Hk Hx; simpl in *.
  - destruct H as [-> (n & Hn & H)]. rewrite Hn in Hk. injection Hk as <- <-.
    rewrite decide_True by done. apply NoDup_cons in Hnd as [Hnk _].
    assert (n ≠ Some k) as Hb.
    { intros ->. apply dchain_some in H as (? & ? & -> & _). set_solver. }
    pose proof (dchain_relink_tail lnk lnk' k p n (Some k) n l2 H Hnk Hb Hx) as H'.
    by rewrite decide_True in H'.
  - destruct H as [-> (n & Hn & H)]. apply NoDup_cons in Hnd as [Hy Hnd].
    assert (y ≠ k) as Hyk by set_solver. rewrite decide_False by congruence.
    split; [done|]. exists (if decide (n = Some k) then b else n). split.
    + rewrite Hx, Hn by set_solver. simpl. unfold relink. simpl.
      by rewrite (decide_False (P := p = Some k)).
    + apply IH; try done; [congruence|]. intros x Hxl. apply Hx. set_solver.
Qed.

(** The same with the links after the removal given by the neighbours of [k]. *)
Lemma dchain_unlink lnk lnk' h l1 k l2 a b :
  dchain lnk None h (l1 ++ k :: l2) → lnk k = Some (a, b) →
  (∀ x p n, x ∈ l1 ++ l2 → x ≠ k → lnk x = Some (p, n) →
    lnk' x = Some (if decide (b = Some x) then a else p, if decide (a = Some x) then b else n)) →
  dchain lnk' None (if decide (h = Some k) then b else h) (l1 ++ l2).
Proof.
  intros Hd Hk Hx. pose proof (dchain_NoDup _ _ _ _ Hd) as Hnd.
  assert (k ∈ l1 ++ k :: l2) as Hin by set_solver.
  eapply dchain_remove; try done. intros x Hxl.
  assert (x ∈ l1 ++ k :: l2) as Hxin by set_solver.
  assert (x ≠ k) as Hne.
  { intros ->. rewrite Permutation_app_comm in Hnd. simpl in Hnd. apply NoDup_cons in Hnd as [Hnd _]. set_solver. }
  destruct (dchain_lookup _ _ _ _ _ Hd Hxin) as [[p n] Hlx].
  rewrite (Hx x p n), Hlx by done. simpl. by rewrite (relink_neighbours lnk h (l1 ++ k :: l2) k a b x p n).
Qed.

(** Linking a new node in front. *)
Lemma dchain_push lnk lnk' h l k :
  dchain lnk None h l → lnk' k = Some (None, h) →
  (∀ x, x ∈ l → h ≠ Some x → lnk' x = lnk x) →
  (∀ x b, h = Some x → lnk x = Some (None, b) → lnk' x = Some (Some k, b)) →
  dchain lnk' None (Some k) (k :: l).
Proof.
  intros H Hk Ho Hh. split; [done|]. exists h. split; [done|].
  destruct l as [|y l]; [done|]. pose proof (dchain_NoDup _ _ _ _ H) as Hnd.
  destruct H as [-> (n & Hn & H)]. apply NoDup_cons in Hnd as [Hy _].
  split; [done|]. exists n. split; [by apply Hh|].
  eapply dchain_ext; [|done]. intros x Hx. apply Ho; [set_solver|].
  intros [= ->]. done.
Qed.
End dchain.
