(* ===== verification/Sums.v ===== *)
(** * Sums over finite maps

    The counters of the central heap are sums over its objects: [msum f m] adds
    [f k x] over the entries of [m].  The lemmas say how a sum changes with one
    entry and when entries can be dropped. *)
From stdpp Require Import base numbers list gmap fin_maps.
From S2P Require Import Prelude Words.

Section msum.
Context {K A : Type} `{Countable K}.
Implicit Types (f g : K → A → Z) (m : gmap K A).

(** Distinct keys of a map are at most as many as its entries: the bound on the
    fuel of walks over linked objects. *)
Lemma list_length_size m (L : list K) :
  NoDup L → (∀ k, k ∈ L → is_Some (m !! k)) → (length L ≤ base.size m)%nat.
Proof.
  intros Hnd Hin. rewrite <-size_dom, <-(size_list_to_set (C := gset K)) by done.
  apply subseteq_size. intros s Hs. apply elem_of_dom, Hin. set_solver.
Qed.

Definition msum f m : Z := map_fold (λ k x acc, f k x + acc) 0 m.

Lemma msum_empty f : msum f ∅ = 0.
Proof. apply map_fold_empty. Qed.

Lemma msum_insert_new f m k x : m !! k = None → msum f (<[k := x]> m) = f k x + msum f m.
Proof.
  intros Hk. unfold msum. apply (map_fold_insert_L (λ k x acc, f k x + acc)); [|done].
  intros. lia.
Qed.

Lemma msum_delete f m k x : m !! k = Some x → msum f m = f k x + msum f (delete k m).
Proof.
  intros Hk. rewrite <-(insert_delete_id m k x Hk) at 1.
  apply msum_insert_new, lookup_delete_eq.
Qed.

Lemma msum_update f m k x y :
  m !! k = Some x → msum f (<[k := y]> m) = msum f m - f k x + f k y.
Proof.
  intros Hk. rewrite (msum_delete f m k x Hk), (msum_delete f _ k y) by apply lookup_insert_eq.
  rewrite delete_insert_eq. lia.
Qed.

Lemma msum_nonneg f m : (∀ k x, m !! k = Some x → 0 ≤ f k x) → 0 ≤ msum f m.
Proof.
  induction m as [|k x m Hk IH] using map_ind; intros Hf; [by rewrite msum_empty|].
  rewrite msum_insert_new by done. pose proof (Hf k x (lookup_insert_eq _ _ _)).
  enough (0 ≤ msum f m) by lia. apply IH. intros j y Hj. apply Hf.
  rewrite lookup_insert_ne; [done|congruence].
Qed.

Lemma msum_zero f m : (∀ k x, m !! k = Some x → f k x = 0) → msum f m = 0.
Proof.
  induction m as [|k x m Hk IH] using map_ind; intros Hf; [by rewrite msum_empty|].
  rewrite msum_insert_new, (Hf k x (lookup_insert_eq _ _ _)) by done. apply IH.
  intros j y Hj. apply Hf. rewrite lookup_insert_ne; [done|congruence].
Qed.

(** An entry bounds the sum. *)
Lemma msum_ge f m k x :
  (∀ k x, m !! k = Some x → 0 ≤ f k x) → m !! k = Some x → f k x ≤ msum f m.
Proof.
  intros Hf Hk. rewrite (msum_delete f m k x Hk).
  enough (0 ≤ msum f (delete k m)) by lia. apply msum_nonneg.
  intros j y [_ Hj]%lookup_delete_Some. by eapply Hf.
Qed.

Lemma msum_ext f g m m' :
  (∀ k, f k <$> m !! k = g k <$> m' !! k) → msum f m = msum g m'.
Proof.
  revert m'. induction m as [|k x m Hk IH] using map_ind; intros m' He.
  - assert (m' = ∅) as ->; [|by rewrite !msum_empty]. apply map_empty. intros k.
    specialize (He k). rewrite lookup_empty in He. by destruct (m' !! k).
  - pose proof (He k) as Hek. rewrite lookup_insert_eq in Hek. simpl in Hek.
    destruct (m' !! k) as [y|] eqn:Hy; simplify_eq/=.
    rewrite msum_insert_new, (msum_delete g m' k y) by done. f_equal; [congruence|].
    apply IH. intros j. destruct (decide (j = k)) as [->|Hj].
    + by rewrite Hk, lookup_delete_eq.
    + specialize (He j). rewrite lookup_insert_ne in He by done. by rewrite lookup_delete_ne.
Qed.

(** Maps that agree away from one key. *)
Lemma msum_but f g m m' k :
  (∀ j, j ≠ k → f j <$> m !! j = g j <$> m' !! j) →
  msum f m - default 0 (f k <$> m !! k) = msum g m' - default 0 (g k <$> m' !! k).
Proof.
  assert (∀ f m, msum f m = default 0 (f k <$> m !! k) + msum f (delete k m)) as Hd.
  { intros f0 m0. destruct (m0 !! k) as [x|] eqn:E; [by apply msum_delete|]. by rewrite delete_id. }
  intros He. rewrite (Hd f m), (Hd g m'), (msum_ext f g (delete k m) (delete k m')); [lia|].
  intros j. destruct (decide (j = k)) as [->|Hj]; [by rewrite !lookup_delete_eq|].
  rewrite !lookup_delete_ne by done. by apply He.
Qed.

(** Changing one entry while the summands agree elsewhere. *)
Lemma msum_change f g m k x y :
  m !! k = Some x → (∀ j z, j ≠ k → m !! j = Some z → f j z = g j z) →
  msum g (<[k := y]> m) = msum f m - f k x + g k y.
Proof.
  intros Hk He. rewrite (msum_delete f m k x Hk), (msum_delete g _ k y) by apply lookup_insert_eq.
  rewrite delete_insert_eq. rewrite (msum_ext f g (delete k m) (delete k m)); [lia|].
  intros j. destruct (delete k m !! j) as [z|] eqn:Hj; [|done]. simpl. f_equal.
  apply lookup_delete_Some in Hj as [? ?]. by apply He.
Qed.

Lemma msum_filter f m (P : K * A → Prop) `{∀ x, Decision (P x)} :
  (∀ k x, m !! k = Some x → ¬ P (k, x) → f k x = 0) → msum f (filter P m) = msum f m.
Proof.
  induction m as [|k x m Hk IH] using map_ind; intros Hf.
  { by rewrite map_filter_empty. }
  assert (msum f (filter P m) = msum f m) as IH'.
  { apply IH. intros j y Hj. apply Hf. rewrite lookup_insert_ne; [done|congruence]. }
  destruct (decide (P (k, x))) as [HP|HP].
  - rewrite map_filter_insert_True by done. rewrite !msum_insert_new; [lia|done|].
    apply map_lookup_filter_None_2. by left.
  - rewrite map_filter_insert_False, delete_id by done. rewrite msum_insert_new by done.
    rewrite (Hf k x (lookup_insert_eq _ _ _) HP). lia.
Qed.

(** Overwriting entries that do not count with entries that do not count. *)
Lemma msum_insert_zero f m k y :
  f k y = 0 → (∀ x, m !! k = Some x → f k x = 0) → msum f (<[k := y]> m) = msum f m.
Proof.
  intros Hy Hx. destruct (m !! k) as [x|] eqn:Hk.
  - rewrite (msum_update f m k x y Hk), (Hx x eq_refl). lia.
  - rewrite msum_insert_new by done. lia.
Qed.

(** A sum over the map is the sum along any list of its keys. *)
Definition lsum f m (L : list K) : Z := foldr (λ k acc, default 0 (f k <$> m !! k) + acc) 0 L.

Lemma lsum_ext f m m' L : (∀ k, k ∈ L → m' !! k = m !! k) → lsum f m' L = lsum f m L.
Proof.
  intros Hx. induction L as [|k L IH]; [done|]. simpl. rewrite Hx by set_solver. rewrite IH; [done|].
  intros j Hj. apply Hx. set_solver.
Qed.

Lemma msum_list f m L : NoDup L → (∀ k, k ∈ L ↔ is_Some (m !! k)) → msum f m = lsum f m L.
Proof.
  revert m. induction L as [|k L IH]; intros m Hnd HL.
  - assert (m = ∅) as ->; [|by rewrite msum_empty]. apply map_empty. intros k.
    destruct (m !! k) eqn:E; [|done]. exfalso. apply (elem_of_nil k), HL. eauto.
  - apply NoDup_cons in Hnd as [Hk Hnd]. destruct (proj1 (HL k) ltac:(set_solver)) as [x Hx].
    rewrite (msum_delete f m k x Hx). simpl. rewrite Hx. simpl. f_equal. rewrite (IH (delete k m) Hnd).
    + apply lsum_ext. intros j Hj. rewrite lookup_delete_ne; [done|]. by intros ->.
    + intros j. rewrite lookup_delete_is_Some, <-HL. set_solver.
Qed.
End msum.

(** ** Sums of lengths of disjoint intervals *)

Section intervals.
Context {T : Type} (p n : T → Z).
Implicit Types (L : list T).

Definition total L : Z := foldr (λ t acc, n t + acc) 0 L.

Lemma total_app L L' : total (L ++ L') = total L + total L'.
Proof. induction L as [|t L IH]; simpl; lia. Qed.

Lemma total_perm L L' : L ≡ₚ L' → total L = total L'.
Proof. induction 1; simpl; lia. Qed.

(** They fit in an interval that contains them all: the ones before the first of
    the list and the ones after it do. *)
Lemma total_disjoint L lo hi :
  NoDup L → lo ≤ hi → (∀ t, t ∈ L → 0 < n t ∧ lo ≤ p t ∧ p t + n t ≤ hi) →
  (∀ t t', t ∈ L → t' ∈ L → t ≠ t' → p t + n t ≤ p t' ∨ p t' + n t' ≤ p t) → total L ≤ hi - lo.
Proof.
  remember (length L) as k eqn:Ek. revert L Ek lo hi. induction (lt_wf k) as [k _ IH].
  intros [|t L] -> lo hi Hnd Hle Hin Hd; [simpl; lia|].
  apply NoDup_cons in Hnd as [Ht Hnd]. destruct (Hin t ltac:(set_solver)) as (? & ? & ?).
  set (A := filter (λ u, p u + n u ≤ p t) L). set (B := filter (λ u, ¬ p u + n u ≤ p t) L).
  assert (L ≡ₚ A ++ B) as HL by (symmetry; apply filter_app_complement).
  assert (total A ≤ p t - lo) as HA.
  { apply (IH (length A)); [apply Nat.lt_succ_r, length_filter|done|by apply NoDup_filter|lia| |].
    - intros u [Hu1 Hu2]%list_elem_of_filter. destruct (Hin u ltac:(set_solver)) as (? & ? & ?). lia.
    - intros u u' [_ Hu]%list_elem_of_filter [_ Hu']%list_elem_of_filter. apply Hd; set_solver. }
  assert (total B ≤ hi - (p t + n t)) as HB.
  { apply (IH (length B)); [apply Nat.lt_succ_r, length_filter|done|by apply NoDup_filter|lia| |].
    - intros u [Hu1 Hu2]%list_elem_of_filter. destruct (Hin u ltac:(set_solver)) as (? & ? & ?).
      assert (u ≠ t) as Hne by (intros ->; done). pose proof (Hd u t ltac:(set_solver) ltac:(set_solver) Hne). lia.
    - intros u u' [_ Hu]%list_elem_of_filter [_ Hu']%list_elem_of_filter. apply Hd; set_solver. }
  simpl. rewrite (total_perm _ _ HL), total_app. lia.
Qed.
End intervals.

(** Wrapping counters that follow an exact count. *)
Lemma u64_add_l a b : u64 (u64 a + b) = u64 (a + b).
Proof. unfold u64. by rewrite Zplus_mod_idemp_l. Qed.
Lemma u64_sub_l a b : u64 (u64 a - b) = u64 (a - b).
Proof. unfold u64. by rewrite Zminus_mod_idemp_l. Qed.

Section wrapping.
Context {K A : Type} `{Countable K}.
Implicit Types (f g : K → A → Z) (m : gmap K A).

Lemma u64_add a b a' b' : u64 a = u64 a' → u64 b = u64 b' → u64 (a + b) = u64 (a' + b').
Proof. unfold u64. intros E1 E2. by rewrite (Zplus_mod a), (Zplus_mod a'), E1, E2. Qed.

(** Sums of entries that agree up to wrap-around agree up to wrap-around. *)
Lemma msum_wrap f g m : (∀ k x, m !! k = Some x → u64 (f k x) = u64 (g k x)) → u64 (msum f m) = u64 (msum g m).
Proof.
  induction m as [|k x m Hk IH] using map_ind; intros He; [done|].
  rewrite !msum_insert_new by done. apply u64_add; [apply He; apply lookup_insert_eq|].
  apply IH. intros j y Hj. apply He. rewrite lookup_insert_ne; [done|congruence].
Qed.

Lemma msum_plus f g m : msum (λ k x, f k x + g k x) m = msum f m + msum g m.
Proof.
  induction m as [|k x m Hk IH] using map_ind; [done|]. rewrite !msum_insert_new by done. lia.
Qed.
End wrapping.
