(* ===== verification/State.v ===== *)
(** * The state of the allocator

    One record holds the objects of all components: the address space, the
    region registry, segment headers, page metadata, the central state, the
    thread heaps with the registry of live heaps and each thread's [t_heap],
    and the large regions.  An access through a pointer reads or writes the
    entry of the object it refers to; a null pointer or an object that does not
    exist faults.  The operations of the other files run in the monad over this
    state. *)
From Stdlib Require Import ZArith Lia.
From stdpp Require Import base numbers list gmap.
From S2P Require Import Prelude Words Constants SizeClass Segment Memory Os RegionRegistry.

(** struct Heap (src/heap.h). *)
Record Heap := mkHeap {
  h_pages : list (option pageref);  (* active page per size class *)
  h_n_malloc : Z;
  h_n_fast : Z;
  h_n_slow : Z;
  h_reg_next : option Z  (* registry of live heaps *)
}.

Definition set_h_pages (v : list (option pageref)) (x : Heap) : Heap :=
  mkHeap v (h_n_malloc x) (h_n_fast x) (h_n_slow x) (h_reg_next x).
Definition set_h_n_malloc (v : Z) (x : Heap) : Heap :=
  mkHeap (h_pages x) v (h_n_fast x) (h_n_slow x) (h_reg_next x).
Definition set_h_n_fast (v : Z) (x : Heap) : Heap :=
  mkHeap (h_pages x) (h_n_malloc x) v (h_n_slow x) (h_reg_next x).
Definition set_h_n_slow (v : Z) (x : Heap) : Heap :=
  mkHeap (h_pages x) (h_n_malloc x) (h_n_fast x) v (h_reg_next x).
Definition set_h_reg_next (v : option Z) (x : Heap) : Heap :=
  mkHeap (h_pages x) (h_n_malloc x) (h_n_fast x) (h_n_slow x) v.

(** struct CentralState (src/central.cpp). *)
Record CentralState := mkCentral {
  c_segments : option Z;
  c_avail : option Z;
  c_abandoned : option pageref;
  c_num_segments : Z;
  c_free_segments : Z;
  c_free_page_count : Z;
  c_pages_in_use : Z;
  c_abandoned_count : Z
}.

Definition set_c_segments (v : option Z) (x : CentralState) : CentralState :=
  mkCentral v (c_avail x) (c_abandoned x) (c_num_segments x) (c_free_segments x) (c_free_page_count x) (c_pages_in_use x) (c_abandoned_count x).
Definition set_c_avail (v : option Z) (x : CentralState) : CentralState :=
  mkCentral (c_segments x) v (c_abandoned x) (c_num_segments x) (c_free_segments x) (c_free_page_count x) (c_pages_in_use x) (c_abandoned_count x).
Definition set_c_abandoned (v : option pageref) (x : CentralState) : CentralState :=
  mkCentral (c_segments x) (c_avail x) v (c_num_segments x) (c_free_segments x) (c_free_page_count x) (c_pages_in_use x) (c_abandoned_count x).
Definition set_c_num_segments (v : Z) (x : CentralState) : CentralState :=
  mkCentral (c_segments x) (c_avail x) (c_abandoned x) v (c_free_segments x) (c_free_page_count x) (c_pages_in_use x) (c_abandoned_count x).
Definition set_c_free_segments (v : Z) (x : CentralState) : CentralState :=
  mkCentral (c_segments x) (c_avail x) (c_abandoned x) (c_num_segments x) v (c_free_page_count x) (c_pages_in_use x) (c_abandoned_count x).
Definition set_c_free_page_count (v : Z) (x : CentralState) : CentralState :=
  mkCentral (c_segments x) (c_avail x) (c_abandoned x) (c_num_segments x) (c_free_segments x) v (c_pages_in_use x) (c_abandoned_count x).
Definition set_c_pages_in_use (v : Z) (x : CentralState) : CentralState :=
  mkCentral (c_segments x) (c_avail x) (c_abandoned x) (c_num_segments x) (c_free_segments x) (c_free_page_count x) v (c_abandoned_count x).
Definition set_c_abandoned_count (v : Z) (x : CentralState) : CentralState :=
  mkCentral (c_segments x) (c_avail x) (c_abandoned x) (c_num_segments x) (c_free_segments x) (c_free_page_count x) (c_pages_in_use x) v.

Definition init_central : CentralState := mkCentral None None None 0 0 0 0 0.

(** [sizeof(Heap)] on the LP64 targets: [kNumSizeClasses] page pointers, three
    64-bit counters and the registry link. *)
Definition sizeof_Heap : Z := kNumSizeClasses * 8 + 3 * 8 + 8.

(** Bytes reserved from the OS for one Heap, page-rounded. *)
Definition heap_bytes {K : Kernel} : Z :=
  Z.land (u64 (sizeof_Heap + os_page_size - 1)) (not64 (os_page_size - 1)).

(** Compile-time options: [stats_on] is [-DHMALLOC_STATS]. *)
Class Config := { stats_on : bool }.

(** What is known of the registry.  [ledger_complete]: it holds every region of
    the allocator, which it does from the moment its first table is mapped,
    provided no region was created before.  [ledger_calm]: a reading of the
    kernel's state by which it holds every region, and has slots to spare, as long
    as no mapping has been refused.  The invariant is kept for every ledger; it
    holds at the start for [while_calm], and [unknown] claims nothing. *)
Class Ledger {K : Kernel} := { ledger_complete : Prop; ledger_calm : Calm K }.

Definition never {K : Kernel} : Calm K.
Proof. refine {| calm _ := False |}; tauto. Defined.
Definition while_calm {K : Kernel} (Cm : Calm K) : Ledger := {| ledger_complete := False; ledger_calm := Cm |}.
Definition unknown {K : Kernel} : Ledger := while_calm never.
Definition complete {K : Kernel} : Ledger := {| ledger_complete := True; ledger_calm := never |}.

Section state.
Context {K : Kernel}.

Record State := mkState {
  os : OsState;  (* address space and accounting *)
  registry : Registry;  (* region_registry.cpp *)
  segs : gmap Z Segment;  (* small segment headers, by base address *)
  pages : gmap pageref Page;  (* page metadata *)
  central : CentralState;  (* central.cpp *)
  heaps : gmap Z Heap;  (* thread heaps, by address *)
  g_registry : option Z;  (* head of the list of live heaps *)
  t_heap : gmap nat Z;  (* thread_local t_heap; absent is nullptr *)
  larges : gmap Z LargeHeader;  (* headers of large regions, by base address *)
  g_large_count : Z;
  g_large_bytes : Z
}.

Definition set_os (v : OsState) (x : State) : State :=
  mkState v (registry x) (segs x) (pages x) (central x) (heaps x) (g_registry x) (t_heap x) (larges x) (g_large_count x) (g_large_bytes x).
Definition set_registry (v : Registry) (x : State) : State :=
  mkState (os x) v (segs x) (pages x) (central x) (heaps x) (g_registry x) (t_heap x) (larges x) (g_large_count x) (g_large_bytes x).
Definition set_segs (v : gmap Z Segment) (x : State) : State :=
  mkState (os x) (registry x) v (pages x) (central x) (heaps x) (g_registry x) (t_heap x) (larges x) (g_large_count x) (g_large_bytes x).
Definition set_pages (v : gmap pageref Page) (x : State) : State :=
  mkState (os x) (registry x) (segs x) v (central x) (heaps x) (g_registry x) (t_heap x) (larges x) (g_large_count x) (g_large_bytes x).
Definition set_central (v : CentralState) (x : State) : State :=
  mkState (os x) (registry x) (segs x) (pages x) v (heaps x) (g_registry x) (t_heap x) (larges x) (g_large_count x) (g_large_bytes x).
Definition set_heaps (v : gmap Z Heap) (x : State) : State :=
  mkState (os x) (registry x) (segs x) (pages x) (central x) v (g_registry x) (t_heap x) (larges x) (g_large_count x) (g_large_bytes x).
Definition set_g_registry (v : option Z) (x : State) : State :=
  mkState (os x) (registry x) (segs x) (pages x) (central x) (heaps x) v (t_heap x) (larges x) (g_large_count x) (g_large_bytes x).
Definition set_t_heap (v : gmap nat Z) (x : State) : State :=
  mkState (os x) (registry x) (segs x) (pages x) (central x) (heaps x) (g_registry x) v (larges x) (g_large_count x) (g_large_bytes x).
Definition set_larges (v : gmap Z LargeHeader) (x : State) : State :=
  mkState (os x) (registry x) (segs x) (pages x) (central x) (heaps x) (g_registry x) (t_heap x) v (g_large_count x) (g_large_bytes x).
Definition set_g_large_count (v : Z) (x : State) : State :=
  mkState (os x) (registry x) (segs x) (pages x) (central x) (heaps x) (g_registry x) (t_heap x) (larges x) v (g_large_bytes x).
Definition set_g_large_bytes (v : Z) (x : State) : State :=
  mkState (os x) (registry x) (segs x) (pages x) (central x) (heaps x) (g_registry x) (t_heap x) (larges x) (g_large_count x) v.

(** The state before the first call, over a given address space: only the
    sentinel [g_empty_page], which is value-initialised, exists. *)
Definition init_state (o : OsState) : State :=
  mkState (boot o) empty_registry ∅ {[ EmptyPage := zero_page ]} init_central ∅ None ∅ ∅ 0 0.

(** Calls into the layers below. *)
Definition in_os {A} (m : M OsState A) : M State A := zoom os set_os m.
Definition in_registry {A} (m : M RState A) : M State A :=
  zoom (λ s, (registry s, os s)) (λ ro s, set_registry (fst ro) (set_os (snd ro) s)) m.

(** Member access through [Page *], [Segment *] and [Heap *]. *)
Definition load_page (r : pageref) : M State Page := λ s,
  match pages s !! r with Some pg => Ok (pg, s) | None => Fault end.
Definition upd_page (r : pageref) (f : Page → Page) : M State unit := λ s,
  match pages s !! r with
  | Some pg => Ok (tt, set_pages (<[r := f pg]> (pages s)) s)
  | None => Fault
  end.
Definition load_seg (a : Z) : M State Segment := λ s,
  match segs s !! a with Some sg => Ok (sg, s) | None => Fault end.
Definition upd_seg (a : Z) (f : Segment → Segment) : M State unit := λ s,
  match segs s !! a with
  | Some sg => Ok (tt, set_segs (<[a := f sg]> (segs s)) s)
  | None => Fault
  end.
Definition load_heap (a : Z) : M State Heap := λ s,
  match heaps s !! a with Some h => Ok (h, s) | None => Fault end.
Definition upd_heap (a : Z) (f : Heap → Heap) : M State unit := λ s,
  match heaps s !! a with
  | Some h => Ok (tt, set_heaps (<[a := f h]> (heaps s)) s)
  | None => Fault
  end.
Definition upd_central (f : CentralState → CentralState) : M State unit :=
  modify (λ s, set_central (f (central s)) s).

(** ** Proof rules *)

Lemma wp_load_page r pg Q s : pages s !! r = Some pg → Q pg s → wp (load_page r) Q s.
Proof. intros H HQ. unfold wp, load_page. by rewrite H. Qed.
Lemma wp_upd_page r f pg Q s :
  pages s !! r = Some pg → Q tt (set_pages (<[r := f pg]> (pages s)) s) → wp (upd_page r f) Q s.
Proof. intros H HQ. unfold wp, upd_page. by rewrite H. Qed.
Lemma wp_load_seg a sg Q s : segs s !! a = Some sg → Q sg s → wp (load_seg a) Q s.
Proof. intros H HQ. unfold wp, load_seg. by rewrite H. Qed.
Lemma wp_upd_seg a f sg Q s :
  segs s !! a = Some sg → Q tt (set_segs (<[a := f sg]> (segs s)) s) → wp (upd_seg a f) Q s.
Proof. intros H HQ. unfold wp, upd_seg. by rewrite H. Qed.
Lemma wp_load_heap a h Q s : heaps s !! a = Some h → Q h s → wp (load_heap a) Q s.
Proof. intros H HQ. unfold wp, load_heap. by rewrite H. Qed.
Lemma wp_upd_heap a f h Q s :
  heaps s !! a = Some h → Q tt (set_heaps (<[a := f h]> (heaps s)) s) → wp (upd_heap a f) Q s.
Proof. intros H HQ. unfold wp, upd_heap. by rewrite H. Qed.
Lemma wp_upd_central f Q s :
  Q tt (set_central (f (central s)) s) → wp (upd_central f) Q s.
Proof. done. Qed.
Lemma wp_in_os {A} (m : M OsState A) Q s :
  wp m (λ a o, Q a (set_os o s)) (os s) → wp (in_os m) Q s.
Proof. apply wp_zoom. Qed.
Lemma wp_in_registry {A} (m : M RState A) Q s :
  wp m (λ a ro, Q a (set_registry (fst ro) (set_os (snd ro) s))) (registry s, os s) →
  wp (in_registry m) Q s.
Proof. intros H. apply wp_zoom. exact H. Qed.
End state.
