(* ===== verification/Regions.v ===== *)
(** * Regions of the address space

    Every mapping the allocator holds is a region: a small segment, a thread
    heap, a large allocation or the slots of the region registry.
    [regions_ok] says that all of them are mapped, page-aligned and pairwise
    disjoint; the lemmas carry it over the calls into the OS layer and the
    registry, which also keep the bytes of every mapped address.  [counted] says
    that the counters of the OS layer are the bytes of the regions. *)
From Stdlib Require Import ZArith Lia.
From stdpp Require Import base numbers list gmap.
From S2P Require Import Prelude Words Constants SizeClass Segment Memory Os Sums RegionRegistry State.

Inductive rtag := RSeg (s : Z) | RHeap (a : Z) | RLarge (b : Z) | RTable.
#[export] Instance rtag_eq_dec : EqDecision rtag.
Proof. solve_decision. Defined.

Section regions.
Context {K : Kernel}.
Implicit Types (R : rtag → option (Z * Z)) (o : OsState) (st : State).

Definition region_of st (t : rtag) : option (Z * Z) :=
  match t with
  | RSeg s => (λ _, (s, SEGMENT_SIZE)) <$> segs st !! s
  | RHeap a => (λ _, (a, heap_bytes)) <$> heaps st !! a
  | RLarge b => (λ h, (b, lh_mmap_size h)) <$> larges st !! b
  | RTable => reg_region (registry st)
  end.

Record regions_ok R o : Prop := {
  rg_shape t p n : R t = Some (p, n) →
    0 < n ∧ (0 < p ∧ p + n ≤ 2 ^ 64) ∧ p mod os_page_size = 0 ∧ n mod os_page_size = 0;
  rg_mapped t p n a : R t = Some (p, n) → p ≤ a < p + n → mapped o a = true;
  rg_disj t t' p n p' n' : R t = Some (p, n) → R t' = Some (p', n') → t ≠ t' →
    p + n ≤ p' ∨ p' + n' ≤ p
}.

(** A new region, a region given back, the registry's table moved. *)
Definition rset R (t0 : rtag) (v : option (Z * Z)) (t : rtag) : option (Z * Z) :=
  if decide (t = t0) then v else R t.

Lemma regions_ok_ext R R' o : (∀ t, R' t = R t) → regions_ok R o → regions_ok R' o.
Proof. intros E [H1 H2 H3]. constructor; intros *; rewrite !E; eauto. Qed.

Lemma regions_ok_grow R o o' t0 p n :
  regions_ok R o → os_grown o o' p n → 0 < n → p mod os_page_size = 0 → n mod os_page_size = 0 →
  R t0 = None → regions_ok (rset R t0 (Some (p, n))) o'.
Proof.
  intros [H1 H2 H3] Hg Hn Hp Hnm H0.
  assert (∀ t q k, R t = Some (q, k) → q + k ≤ p ∨ p + n ≤ q) as Hd.
  { intros t q k Ht. destruct (decide (q + k ≤ p ∨ p + n ≤ q)) as [|Hno]; [done|]. exfalso.
    pose proof (H1 t q k Ht) as (? & _).
    assert (in_range p n (Z.max p q) = true) as Hin by (apply in_range_true; lia).
    pose proof (og_fresh _ _ _ _ Hg _ Hin) as Hf.
    rewrite (H2 t q k (Z.max p q) Ht) in Hf by lia. done. }
  unfold rset. constructor.
  - intros t q k. case_decide; [|apply H1]. intros [= <- <-].
    split_and!; try done; [apply (og_pos _ _ _ _ Hg)|apply (og_end _ _ _ _ Hg)].
  - intros t q k a. rewrite (og_mapped _ _ _ _ Hg). case_decide.
    + intros [= <- <-] Ha. by rewrite (proj2 (in_range_true _ _ _) Ha).
    + intros Ht Ha. rewrite (H2 t q k a Ht Ha). by rewrite orb_true_r.
  - intros t t' q k q' k'. repeat case_decide; intros ?? Hne; simplify_eq; try done.
    + specialize (Hd t' q' k'). naive_solver.
    + by apply (Hd t).
    + by apply (H3 t t').
Qed.

Lemma regions_ok_shrink R o o' t0 p n :
  regions_ok R o → os_shrunk o o' p n → R t0 = Some (p, n) → regions_ok (rset R t0 None) o'.
Proof.
  intros [H1 H2 H3] Hs H0. unfold rset. constructor.
  - intros t q k. case_decide; [done|apply H1].
  - intros t q k a. case_decide as E; [done|]. intros Ht Ha. rewrite (os_sh_mapped _ _ _ _ Hs).
    rewrite (H2 t q k a Ht Ha), andb_true_r. apply negb_true_iff, in_range_false.
    pose proof (H3 t t0 q k p n Ht H0 E). lia.
  - intros t t' q k q' k'. repeat case_decide; try done. apply H3.
Qed.

Lemma regions_ok_same R o o' : (∀ a, mapped o' a = mapped o a) → regions_ok R o → regions_ok R o'.
Proof. intros E [H1 H2 H3]. constructor; [done| |done]. intros t p n a. rewrite E. apply H2. Qed.

Context {KL : KernelLaws K}.

(** A registry operation moves at most its own table. *)
Lemma regions_ok_registry R r o r' o' :
  regions_ok R o → R RTable = reg_region r → reg_os_step r o r' o' → reg_mem r' o' →
  regions_ok (rset R RTable (reg_region r')) o'.
Proof.
  intros [H1 H2 H3] HT Hstep Hmem.
  assert (∀ t q k a, t ≠ RTable → R t = Some (q, k) → q ≤ a < q + k →
    region_in (reg_region r) a = false) as Hout.
  { intros t q k a Ht Hq Ha. destruct (reg_region r) as [[p0 n0]|] eqn:E; [|done]. simpl.
    apply in_range_false. pose proof (H3 t RTable q k p0 n0 Hq HT Ht). lia. }
  assert (∀ t q k p n, t ≠ RTable → R t = Some (q, k) → reg_region r' = Some (p, n) →
    q + k ≤ p ∨ p + n ≤ q) as Hd.
  { intros t q k p n Ht Hq Hr. destruct (decide (q + k ≤ p ∨ p + n ≤ q)) as [|Hno]; [done|]. exfalso.
    pose proof (H1 t q k Hq) as (? & _). pose proof (Hmem p n Hr) as (_ & ? & _).
    assert (region_in (reg_region r') (Z.max p q) = true) as Hin.
    { rewrite Hr. simpl. apply in_range_true. lia. }
    destruct (ro_fresh _ _ _ _ Hstep _ Hin) as [Hf|Hf].
    - rewrite (Hout t q k) in Hf by (done || lia). done.
    - rewrite (H2 t q k _ Hq) in Hf by lia. done. }
  unfold rset. constructor.
  - intros t q k. case_decide; [|apply H1]. intros Hr. destruct (Hmem q k Hr) as (? & ? & ? & ? & _).
    done.
  - intros t q k a. case_decide.
    + intros Hr Ha. apply (Hmem q k Hr). by apply in_range_true.
    + intros Ht Ha. rewrite (ro_mapped _ _ _ _ Hstep), (Hout t q k a), (H2 t q k a) by done.
      by rewrite orb_true_r.
  - intros t t' q k q' k'. repeat case_decide; intros ?? Hne; simplify_eq; try done.
    + pose proof (Hd t' q' k' q k). naive_solver.
    + by apply (Hd t).
    + by apply (H3 t t').
Qed.

(** ** Accounting *)

(** The bytes of all regions. *)
Definition reserved st : Z :=
  msum (λ _ _, SEGMENT_SIZE) (segs st) + msum (λ _ _, heap_bytes) (heaps st) +
  msum (λ _, lh_mmap_size) (larges st) + region_len (reg_region (registry st)).

(** The counters of the OS layer follow them. *)
Record counted st : Prop := {
  ct_bytes : g_bytes_mapped (os st) = reserved st;
  ct_range : 0 ≤ reserved st < 2 ^ 64;
  ct_peak : reserved st ≤ g_peak_mapped (os st)
}.

(** The entries of one kind [c], when regions agree away from [t0]. *)
Lemma kind_change {A} (c : Z → rtag) (f : Z → A → Z) (m m' : gmap Z A) st st' t0 :
  (∀ k, region_of st (c k) = (λ x, (k, f k x)) <$> m !! k) →
  (∀ k, region_of st' (c k) = (λ x, (k, f k x)) <$> m' !! k) → Inj (=) (=) c →
  (∀ t, t ≠ t0 → region_of st' t = region_of st t) →
  ((∀ k, t0 ≠ c k) → msum f m' = msum f m) ∧
  ∀ k, t0 = c k → msum f m' - region_len (region_of st' t0) = msum f m - region_len (region_of st t0).
Proof.
  intros E E' Hc He. assert (∀ k, t0 ≠ c k → f k <$> m' !! k = f k <$> m !! k) as Hk.
  { intros k Hk. specialize (He (c k) ltac:(auto)). rewrite E, E' in He.
    destruct (m' !! k), (m !! k); simplify_eq/=; congruence. }
  split; [intros Hn; apply msum_ext; auto|]. intros k ->. rewrite E, E'.
  pose proof (msum_but f f m' m k) as Hb. destruct (m' !! k), (m !! k); simpl in *; apply Hb;
    intros j Hj; apply Hk; intros ?%(inj c); done.
Qed.

(** One region changed. *)
Lemma reserved_change st st' t0 :
  (∀ t, t ≠ t0 → region_of st' t = region_of st t) →
  reserved st' - region_len (region_of st' t0) = reserved st - region_len (region_of st t0).
Proof.
  intros He. unfold reserved.
  assert (t0 ≠ RTable → reg_region (registry st') = reg_region (registry st)) as HT by (intros Hn; exact (He RTable ltac:(done))).
  destruct (kind_change RSeg (λ _ _, SEGMENT_SIZE) (segs st) (segs st') st st' t0) as [S1 S2]; [done|done|by intros ?? [=]|done|].
  destruct (kind_change RHeap (λ _ _, heap_bytes) (heaps st) (heaps st') st st' t0) as [H1 H2]; [done|done|by intros ?? [=]|done|].
  destruct (kind_change RLarge (λ _, lh_mmap_size) (larges st) (larges st') st st' t0) as [L1 L2]; [done|done|by intros ?? [=]|done|].
  destruct t0 as [s|a|b|]; [specialize (S2 s eq_refl)|specialize (H2 a eq_refl)|specialize (L2 b eq_refl)|];
    rewrite ?S1, ?H1, ?L1, ?HT by done; simpl region_of in *; lia.
Qed.

Lemma reserved_same st st' : (∀ t, region_of st' t = region_of st t) → reserved st' = reserved st.
Proof. intros He. pose proof (reserved_change st st' RTable ltac:(auto)) as E. rewrite (He RTable) in E. lia. Qed.

(** ** Regions fit in the address space *)

Definition tags st : list rtag :=
  (RSeg <$> (map_to_list (segs st)).*1) ++ (RHeap <$> (map_to_list (heaps st)).*1) ++
  (RLarge <$> (map_to_list (larges st)).*1) ++ (match reg_region (registry st) with Some _ => [RTable] | None => [] end).

Lemma total_kind {A} (c : Z → rtag) (f : Z → A → Z) (m : gmap Z A) (g : rtag → Z) :
  (∀ k, g (c k) = default 0 (f k <$> m !! k)) → total g (c <$> (map_to_list m).*1) = msum f m.
Proof.
  intros Hg. rewrite (msum_list f m (map_to_list m).*1).
  - induction (map_to_list m).*1 as [|k L IH]; [done|]. simpl. f_equal; [apply Hg|exact IH].
  - apply NoDup_fst_map_to_list.
  - intros k. rewrite list_elem_of_fmap. setoid_rewrite elem_of_map_to_list'. split.
    + intros ([j x] & -> & Hx). eauto.
    + intros [x Hx]. by exists (k, x).
Qed.

Lemma reserved_total st : reserved st = total (λ t, region_len (region_of st t)) (tags st).
Proof.
  unfold reserved, tags. rewrite !total_app.
  rewrite (total_kind RSeg (λ _ _, SEGMENT_SIZE) (segs st)) by (intros k; simpl; by destruct (segs st !! k)).
  rewrite (total_kind RHeap (λ _ _, heap_bytes) (heaps st)) by (intros k; simpl; by destruct (heaps st !! k)).
  rewrite (total_kind RLarge (λ _, lh_mmap_size) (larges st)) by (intros k; simpl; by destruct (larges st !! k)).
  destruct (reg_region (registry st)) as [[p n]|] eqn:E; simpl; rewrite ?E; simpl; lia.
Qed.

Lemma tags_nodup st : NoDup (tags st).
Proof.
  unfold tags. rewrite !NoDup_app.
  assert (∀ (A : Type) (c : Z → rtag) (m : gmap Z A), Inj (=) (=) c → NoDup (c <$> (map_to_list m).*1)) as Hn.
  { intros A c m Hc. apply NoDup_fmap_2; [done|]. apply NoDup_fst_map_to_list. }
  split_and!; try (apply Hn; by intros ?? [=]).
  - intros t [k [-> _]]%list_elem_of_fmap. rewrite !elem_of_app, !list_elem_of_fmap. case_match; set_solver.
  - intros t [k [-> _]]%list_elem_of_fmap. rewrite !elem_of_app, !list_elem_of_fmap. case_match; set_solver.
  - intros t [k [-> _]]%list_elem_of_fmap. case_match; set_solver.
  - case_match; [apply NoDup_singleton|apply NoDup_nil_2].
Qed.

Lemma elem_of_tags st t : t ∈ tags st → is_Some (region_of st t).
Proof.
  assert (∀ (A : Type) (m : gmap Z A) k, k ∈ (map_to_list m).*1 → is_Some (m !! k)) as Hm.
  { intros A m k [[j x] [-> Hx%elem_of_map_to_list]]%list_elem_of_fmap. eauto. }
  unfold tags. rewrite !elem_of_app, !list_elem_of_fmap.
  intros [(k & -> & [x E]%Hm)|[(k & -> & [x E]%Hm)|[(k & -> & [x E]%Hm)|Ht]]]; simpl; rewrite ?E; eauto.
  destruct (reg_region (registry st)) eqn:E; [|set_solver]. apply list_elem_of_singleton in Ht as ->. simpl. eauto.
Qed.

Lemma reserved_nonneg st o : regions_ok (region_of st) o → 0 ≤ reserved st.
Proof.
  intros H. rewrite reserved_total. pose proof (elem_of_tags st) as Ht. revert Ht.
  induction (tags st) as [|t L IH]; intros Ht; [done|]. simpl.
  destruct (Ht t ltac:(set_solver)) as [[p n] E]. destruct (rg_shape _ _ H t p n E) as (? & _).
  rewrite E. simpl. fold (total (λ t, region_len (region_of st t)) L).
  enough (0 ≤ total (λ t, region_len (region_of st t)) L) by lia. apply IH. set_solver.
Qed.

(** All regions, and [m] more bytes at [q] that are not mapped, are disjoint. *)
Lemma reserved_fits st o q m :
  regions_ok (region_of st) o → 0 < q → 0 < m → q + m ≤ 2 ^ 64 →
  (∀ a, in_range q m a = true → mapped o a = false) → reserved st + m < 2 ^ 64.
Proof.
  intros H Hq Hm He Hf. set (pos (x : option rtag) := match x with None => q | Some t => default 0 (fst <$> region_of st t) end).
  set (len (x : option rtag) := match x with None => m | Some t => region_len (region_of st t) end).
  assert (reserved st + m = total len (None :: (Some <$> tags st))) as ->.
  { rewrite reserved_total. simpl. fold (total len (Some <$> tags st)).
    enough (total len (Some <$> tags st) = total (λ t, region_len (region_of st t)) (tags st)) by lia.
    induction (tags st) as [|t L IH]; [done|]. simpl. by f_equal. }
  assert (∀ t p n, region_of st t = Some (p, n) → q + m ≤ p ∨ p + n ≤ q) as Hd.
  { intros t p n Ht. destruct (rg_shape _ _ H t p n Ht) as (Hn & _).
    destruct (decide (q + m ≤ p ∨ p + n ≤ q)) as [|Hno]; [done|]. exfalso.
    assert (in_range q m (Z.max p q) = true) as Hin by (apply in_range_true; lia).
    apply Hf in Hin. rewrite (rg_mapped _ _ H t p n _ Ht) in Hin by lia. done. }
  assert (∀ x, x ∈ None :: (Some <$> tags st) → x = None ∨ ∃ t p n, x = Some t ∧ region_of st t = Some (p, n)) as Hx.
  { intros x [->|(t & -> & [[p n] E]%elem_of_tags)%list_elem_of_fmap]%elem_of_cons; [by left|right; eauto]. }
  assert (total len (None :: (Some <$> tags st)) ≤ 2 ^ 64 - 1); [|lia].
  apply (total_disjoint pos len); [|lia| |].
  - apply NoDup_cons. split; [set_solver|]. apply NoDup_fmap_2; [apply _|apply tags_nodup].
  - intros x [->|(t & p & n & -> & E)]%Hx; simpl; [lia|]. destruct (rg_shape _ _ H t p n E) as (? & ? & _). rewrite E. simpl. lia.
  - intros x x' [->|(t & p & n & -> & E)]%Hx [->|(t' & p' & n' & -> & E')]%Hx Hne; simpl; rewrite ?E, ?E'; simpl.
    + done.
    + destruct (Hd t' p' n' E'); lia.
    + destruct (Hd t p n E); lia.
    + apply (rg_disj _ _ H t t' p n p' n' E E'). congruence.
Qed.

(** ** The counters over the calls into the OS layer *)

Lemma counted_same st st' :
  counted st → (∀ t, region_of st' t = region_of st t) →
  g_bytes_mapped (os st') = g_bytes_mapped (os st) → g_peak_mapped (os st') = g_peak_mapped (os st) → counted st'.
Proof. intros [H1 H2 H3] He Eb Ep. pose proof (reserved_same st st' He) as E. constructor; rewrite E, ?Eb, ?Ep; done. Qed.

(** A region took the place of the one at [t0], if any, and the peak followed. *)
Lemma counted_moved st st' t0 n :
  regions_ok (region_of st) (os st) → counted st → (∀ t, t ≠ t0 → region_of st' t = region_of st t) →
  region_len (region_of st' t0) = n → 0 < n → 0 ≤ region_len (region_of st t0) → 0 ≤ reserved st' →
  g_bytes_mapped (os st') = u64 (g_bytes_mapped (os st) + n - region_len (region_of st t0)) →
  peak_follows (os st) (os st') n → counted st'.
Proof.
  intros HR [H1 H2 H3] He Hn Hpos Hold H0 Eb (q & m & Hq & Hm & Hend & Hf & Ep).
  pose proof (reserved_change st st' t0 He) as E. rewrite Hn in E.
  pose proof (reserved_fits st (os st) q m HR Hq ltac:(lia) Hend Hf). rewrite H1, u64_small in Ep by lia.
  rewrite H1, u64_small in Eb by lia. constructor; lia.
Qed.

Lemma counted_grow st st' t0 p n :
  regions_ok (region_of st) (os st) → counted st → os_grown (os st) (os st') p n → 0 < n → region_of st t0 = None →
  (∀ t, region_of st' t = rset (region_of st) t0 (Some (p, n)) t) → regions_ok (region_of st') (os st') → counted st'.
Proof.
  intros HR Hc Hg Hn Ht He HR'. apply (counted_moved st st' t0 n); try done.
  - intros t Ht'. rewrite He. unfold rset. by rewrite decide_False.
  - rewrite He. unfold rset. by rewrite decide_True.
  - by rewrite Ht.
  - by eapply reserved_nonneg.
  - rewrite (og_count _ _ _ _ Hg), Ht. f_equal. simpl. lia.
  - apply (og_peak _ _ _ _ Hg).
Qed.

Lemma counted_shrink st st' t0 p n :
  counted st → os_shrunk (os st) (os st') p n → region_of st t0 = Some (p, n) → 0 < n →
  (∀ t, region_of st' t = rset (region_of st) t0 None t) → regions_ok (region_of st') (os st') → counted st'.
Proof.
  intros [H1 H2 H3] Hs Ht Hn He HR'. pose proof (reserved_nonneg st' _ HR').
  pose proof (reserved_change st st' t0) as E. rewrite (He t0), Ht in E. unfold rset in E. rewrite decide_True in E by done.
  simpl in E.
  assert (reserved st' = reserved st - n) as Er.
  { rewrite Z.sub_0_r in E. apply E. intros t Hne. rewrite He. unfold rset. by rewrite decide_False. }
  constructor; rewrite ?(os_sh_peak _ _ _ _ Hs), ?(os_sh_count _ _ _ _ Hs), ?H1, ?u64_small; lia.
Qed.

Lemma counted_registry st st' :
  regions_ok (region_of st) (os st) → counted st → reg_os_step (registry st) (os st) (registry st') (os st') →
  (∀ t, t ≠ RTable → region_of st' t = region_of st t) → regions_ok (region_of st') (os st') → counted st'.
Proof.
  intros HR Hc Hs He HR'. pose proof (reserved_nonneg st' _ HR') as H0.
  assert (0 ≤ g_bytes_mapped (os st) < 2 ^ 64) as Hb by (rewrite (ct_bytes _ Hc); apply Hc).
  pose proof (ro_count _ _ _ _ Hs Hb) as Eb.
  assert (∀ s o, regions_ok (region_of s) o → 0 ≤ region_len (region_of s RTable)) as Hlen.
  { intros s o H. simpl. destruct (reg_region (registry s)) as [[p n]|] eqn:E; [|done].
    destruct (rg_shape _ _ H RTable p n E) as (? & _). simpl. lia. }
  pose proof (Hlen st _ HR). pose proof (Hlen st' _ HR').
  destruct (ro_peak _ _ _ _ Hs) as [[Er Ep]|Hp].
  - apply (counted_same st); [done| |rewrite Eb, Er, u64_small; lia|done].
    intros t. destruct (decide (t = RTable)) as [->|Hne]; [exact Er|by apply He].
  - destruct (reg_region (registry st')) as [[p n]|] eqn:E.
    + destruct (rg_shape _ _ HR' RTable p n E) as (? & _).
      apply (counted_moved st st' RTable n); try done; simpl in *; rewrite E in *; try done.
    + pose proof (reserved_change st st' RTable He) as Ec. simpl in Ec. rewrite E in Ec. simpl in *.
      destruct Hc as [C1 C2 C3], Hp as (q & m & _ & _ & _ & _ & Ep).
      rewrite C1 in Eb. constructor; [rewrite Eb, u64_small; lia|lia|rewrite Ep; lia].
Qed.

(** ** Both together, over each kind of call *)

Lemma regions_grow st st' t0 p n :
  regions_ok (region_of st) (os st) → counted st → os_grown (os st) (os st') p n → 0 < n → p mod os_page_size = 0 →
  n mod os_page_size = 0 → region_of st t0 = None → (∀ t, region_of st' t = rset (region_of st) t0 (Some (p, n)) t) →
  regions_ok (region_of st') (os st') ∧ counted st'.
Proof.
  intros HR HC Hg Hn Hp Hm H0 He. assert (regions_ok (region_of st') (os st')) as HR'.
  { eapply regions_ok_ext; [exact He|by apply (regions_ok_grow _ (os st))]. }
  split; [done|by apply (counted_grow st st' t0 p n)].
Qed.

Lemma regions_shrink st st' t0 p n :
  regions_ok (region_of st) (os st) → counted st → os_shrunk (os st) (os st') p n → region_of st t0 = Some (p, n) →
  (∀ t, region_of st' t = rset (region_of st) t0 None t) → regions_ok (region_of st') (os st') ∧ counted st'.
Proof.
  intros HR HC Hs H0 He. assert (regions_ok (region_of st') (os st')) as HR'.
  { eapply regions_ok_ext; [exact He|by apply (regions_ok_shrink _ (os st) (os st') t0 p n)]. }
  split; [done|]. apply (counted_shrink st st' t0 p n); try done. by destruct (rg_shape _ _ HR t0 p n H0) as [? _].
Qed.
End regions.
