(* ===== verification/PageOps.v ===== *)
(** * Operations on one page (src/heap.cpp, and collect_locked of src/central.cpp)

    Collecting the cross-thread free list, carving fresh blocks, making a page
    able to serve, popping a block, and pushing a block from the owner or from
    another thread.  Both free lists are threaded through the blocks in memory.

    [page_ok] is the invariant of a page in use: its geometry, its two free
    lists as sequences of distinct carved blocks, and the owner's count [used],
    which counts the blocks handed out and not yet back on the local list.  Each
    operation is shown to keep it, to touch only blocks that are not live, and
    to have its effect on the sets of free and live blocks. *)
From Stdlib Require Import ZArith Lia.
From stdpp Require Import base numbers list gmap.
From S2P Require Import Prelude Words Constants SizeClass Segment Memory Os Chains RegionRegistry State.

Section pageops.
Context {K : Kernel}.

(** No list of blocks of a page is longer than 65536 / 16. *)
Definition list_fuel : nat := Z.to_nat (PAGE_SIZE / ALLOC_ALIGN + 1).

(** [while (tail->next != nullptr) { tail = tail->next; ++n; }]. *)
Fixpoint tail_loop (fuel : nat) (tail n : Z) : M State (Z * Z) :=
  match fuel with
  | O => diverge
  | S f =>
      nx ← in_os (read_next tail);
      match nx with
      | None => mret (tail, n)
      | Some t => tail_loop f t (u32 (n + 1))
      end
  end.

(** The atomic exchange, the walk to the tail, the splice and the count. *)
Definition page_collect (r : pageref) : M State unit :=
  pg ← load_page r;
  upd_page r (set_pg_thread_free None);;
  match pg_thread_free pg with
  | None => mret tt
  | Some list =>
      '(tail, n) ← tail_loop list_fuel list 1;
      pg ← load_page r;
      in_os (write_next tail (pg_free pg));;
      upd_page r (set_pg_free (Some list));;
      upd_page r (λ pg, set_pg_used (u32 (pg_used pg - n)) pg)
  end.

(** collect_locked of central.cpp has the same body. *)
Definition collect_locked (r : pageref) : M State unit :=
  pg ← load_page r;
  upd_page r (set_pg_thread_free None);;
  match pg_thread_free pg with
  | None => mret tt
  | Some list =>
      '(tail, n) ← tail_loop list_fuel list 1;
      pg ← load_page r;
      in_os (write_next tail (pg_free pg));;
      upd_page r (set_pg_free (Some list));;
      upd_page r (λ pg, set_pg_used (u32 (pg_used pg - n)) pg)
  end.

(** [for (i = batch; i-- > 0;)]: link block [i] in front of [head]. *)
Fixpoint extend_loop (i : nat) (start bs : Z) (head : option Z) : M State (option Z) :=
  match i with
  | O => mret head
  | S i' =>
      let blk := u64 (start + Z.of_nat i' * bs) in
      in_os (write_next blk head);;
      extend_loop i' start bs (Some blk)
  end.

(** Division by a zero block size is undefined. *)
Definition page_extend (r : pageref) : M State unit :=
  pg ← load_page r;
  let remaining := u32 (pg_capacity pg - pg_reserved pg) in
  if remaining =? 0 then mret tt
  else if pg_block_size pg =? 0 then fault
  else
    let batch := u32 (8192 / pg_block_size pg) in
    let batch := if batch =? 0 then 1 else batch in
    let batch := if remaining <? batch then remaining else batch in
    let start := u64 (pg_area pg + u64 (pg_reserved pg * pg_block_size pg)) in
    head ← extend_loop (Z.to_nat batch) start (pg_block_size pg) (pg_free pg);
    upd_page r (set_pg_free head);;
    upd_page r (λ pg, set_pg_reserved (u32 (pg_reserved pg + batch)) pg).

Definition page_make_available (r : pageref) : M State bool :=
  pg ← load_page r;
  if bool_decide (pg_free pg ≠ None) then mret true
  else
    page_collect r;;
    pg ← load_page r;
    if bool_decide (pg_free pg ≠ None) then mret true
    else if pg_reserved pg <? pg_capacity pg then
      page_extend r;;
      pg ← load_page r;
      mret (bool_decide (pg_free pg ≠ None))
    else mret false.

Definition page_pop (r : pageref) : M State Z :=
  pg ← load_page r;
  b ← deref (pg_free pg);
  nx ← in_os (read_next b);
  upd_page r (set_pg_free nx);;
  upd_page r (λ pg, set_pg_used (u32 (pg_used pg + 1)) pg);;
  mret b.

(** The push of heap_free on the owner's list: [used] after the decrement. *)
Definition page_push_local (r : pageref) (p : Z) : M State Z :=
  pg ← load_page r;
  in_os (write_next p (pg_free pg));;
  upd_page r (set_pg_free (Some p));;
  upd_page r (λ pg, set_pg_used (u32 (pg_used pg - 1)) pg);;
  pg ← load_page r;
  mret (pg_used pg).

(** The compare-and-swap push of a thread that does not own the page, as one
    step: the loop retries until no other push came between. *)
Definition heap_free_remote (r : pageref) (p : Z) : M State unit :=
  pg ← load_page r;
  in_os (write_next p (pg_thread_free pg));;
  upd_page r (set_pg_thread_free (Some p)).

(** ** The page invariant *)

Definition bnext (m : gmap Z Z) (a : Z) : option (option Z) := Some (load_ptr m a).

(** The blocks carved from the page so far. *)
Definition carved (pg : Page) : list Z :=
  (λ k, pg_area pg + k * pg_block_size pg) <$> seqZ 0 (pg_reserved pg).

(** The members that only the central heap and the list operations change. *)
Definition page_core (pg : Page) :=
  (pg_capacity pg, pg_block_size pg, pg_size_class pg, pg_in_use pg, pg_owner pg,
   pg_next pg, pg_prev pg, pg_area pg).

Record page_geom (s i : Z) (pg : Page) : Prop := {
  pq_seg : seg_base s;
  pq_idx : FIRST_USABLE_PAGE ≤ i < PAGES_PER_SEGMENT;
  pq_area : pg_area pg = page_area s i;
  pq_class : 0 ≤ pg_size_class pg < kNumSizeClasses;
  pq_bs : class_to_size (pg_size_class pg) = Some (pg_block_size pg);
  pq_cap : pg_capacity pg = PAGE_SIZE / pg_block_size pg
}.

(** [lf] and [lt] are the blocks on the local and on the cross-thread list. *)
Record page_ok (m : gmap Z Z) (s i : Z) (pg : Page) (lf lt : list Z) : Prop := {
  po_geom : page_geom s i pg;
  po_res : 0 ≤ pg_reserved pg ≤ pg_capacity pg;
  po_free : chain (bnext m) (pg_free pg) lf;
  po_tfree : chain (bnext m) (pg_thread_free pg) lt;
  po_nodup : NoDup (lf ++ lt);
  po_blocks b : b ∈ lf ++ lt → b ∈ carved pg;
  po_used : pg_used pg = pg_reserved pg - Z.of_nat (length lf)
}.

#[global] Arguments pq_seg {s i pg} _.
#[global] Arguments pq_idx {s i pg} _.
#[global] Arguments pq_area {s i pg} _.
#[global] Arguments pq_class {s i pg} _.
#[global] Arguments pq_bs {s i pg} _.
#[global] Arguments pq_cap {s i pg} _.
#[global] Arguments po_geom {m s i pg lf lt} _.
#[global] Arguments po_res {m s i pg lf lt} _.
#[global] Arguments po_free {m s i pg lf lt} _.
#[global] Arguments po_tfree {m s i pg lf lt} _.
#[global] Arguments po_nodup {m s i pg lf lt} _.
#[global] Arguments po_blocks {m s i pg lf lt} _ b.
#[global] Arguments po_used {m s i pg lf lt} _.

(** A block the client holds: carved and on neither list. *)
Definition live_block (pg : Page) (lf lt : list Z) (b : Z) : Prop :=
  b ∈ carved pg ∧ (b ∉ lf) ∧ (b ∉ lt).

(** Memory changed only in the link words of the blocks [F]. *)
Definition mem_frame (F : list Z) (m m' : gmap Z Z) : Prop :=
  ∀ x, (∀ b, b ∈ F → ¬ (b ≤ x < b + 8)) → byte_at m' x = byte_at m x.

(** The data area of the page is mapped. *)
Definition area_mapped (o : OsState) (pg : Page) : Prop :=
  ∀ a, pg_area pg ≤ a < pg_area pg + PAGE_SIZE → mapped o a = true.

(** ** Geometry of a page *)

Lemma block_size_bounds s i pg :
  page_geom s i pg → 16 ≤ pg_block_size pg ≤ SMALL_SIZE_MAX ∧ pg_block_size pg mod ALLOC_ALIGN = 0.
Proof.
  intros G. destruct (class_to_size_bounds _ (pq_class G)) as (bs & Hbs & ? & ?).
  rewrite (pq_bs G) in Hbs. by simplify_eq.
Qed.

Lemma capacity_bounds s i pg :
  page_geom s i pg → 4 ≤ pg_capacity pg ≤ 4096 ∧ pg_capacity pg * pg_block_size pg ≤ PAGE_SIZE.
Proof.
  intros G. pose proof (block_size_bounds s i pg G) as [Hb _]. rewrite (pq_cap G).
  consts. pose proof (Z.mul_div_le 65536 (pg_block_size pg) ltac:(lia)).
  split; [|lia]. split.
  - apply Z.div_le_lower_bound; lia.
  - apply Z.div_le_upper_bound; lia.
Qed.

Lemma area_bounds s i pg :
  page_geom s i pg → 0 < pg_area pg ∧ pg_area pg + PAGE_SIZE ≤ 2 ^ 64.
Proof.
  intros G. destruct (pq_seg G) as (H1 & _ & H3). pose proof (pq_idx G).
  rewrite (pq_area G). unfold page_area. consts. lia.
Qed.

Lemma elem_of_carved pg b :
  b ∈ carved pg ↔ ∃ k, b = pg_area pg + k * pg_block_size pg ∧ 0 ≤ k < pg_reserved pg.
Proof.
  unfold carved. rewrite list_elem_of_fmap. setoid_rewrite elem_of_seqZ. naive_solver lia.
Qed.

(** A carved block lies inside the data area. *)
Lemma carved_in_area m s i pg lf lt b :
  page_ok m s i pg lf lt → b ∈ carved pg →
  pg_area pg ≤ b ∧ b + pg_block_size pg ≤ pg_area pg + PAGE_SIZE.
Proof.
  intros H Hb. apply elem_of_carved in Hb as (k & -> & Hk).
  pose proof (capacity_bounds _ _ _ (po_geom H)) as [_ Hc].
  pose proof (block_size_bounds _ _ _ (po_geom H)) as [Hb _].
  pose proof (po_res H). nia.
Qed.

(** Different carved blocks do not overlap. *)
Lemma carved_apart s i pg b b' :
  page_geom s i pg → b ∈ carved pg → b' ∈ carved pg → b ≠ b' →
  b + pg_block_size pg ≤ b' ∨ b' + pg_block_size pg ≤ b.
Proof.
  intros G Hb Hb' Hne. pose proof (block_size_bounds s i pg G) as [Hbs _].
  apply elem_of_carved in Hb as (k & -> & Hk). apply elem_of_carved in Hb' as (k' & -> & Hk').
  assert (k ≠ k') by congruence. nia.
Qed.

Lemma carved_NoDup s i pg : page_geom s i pg → NoDup (carved pg).
Proof.
  intros G. pose proof (block_size_bounds s i pg G) as [Hbs _]. unfold carved.
  apply NoDup_fmap_2_strong; [|apply NoDup_seqZ]. intros x y _ _ Heq. nia.
Qed.

Lemma free_length m s i pg lf lt :
  page_ok m s i pg lf lt → Z.of_nat (length lf + length lt) ≤ pg_reserved pg.
Proof.
  intros H. assert (lf ++ lt ⊆+ carved pg) as Hs.
  { apply NoDup_submseteq; [apply H|apply H]. }
  apply submseteq_length in Hs. unfold carved in Hs.
  rewrite length_app, length_fmap, length_seqZ in Hs. pose proof (po_res H). lia.
Qed.

(** [used] counts live blocks and blocks waiting on the cross-thread list; when
    it is zero every carved block is on the local list. *)
Lemma used_zero m s i pg lf lt :
  page_ok m s i pg lf lt → pg_used pg = 0 → lt = [] ∧ lf ≡ₚ carved pg.
Proof.
  intros H Hu. pose proof (free_length _ _ _ _ _ _ H) as Hl. rewrite (po_used H) in Hu.
  assert (lt = []) as -> by (destruct lt; [done|simpl in Hl; lia]). split; [done|].
  apply submseteq_length_Permutation.
  - apply NoDup_submseteq; [|intros b Hb; apply (po_blocks H); set_solver].
    pose proof (po_nodup H) as Hnd. by rewrite app_nil_r in Hnd.
  - unfold carved. rewrite length_fmap, length_seqZ. pose proof (po_res H). lia.
Qed.

(** ** States that differ in one page and in memory *)

Definition page_state (st : State) (r : pageref) (m : gmap Z Z) (pg : Page) : State :=
  set_os (set_bytes m (os st)) (set_pages (<[r := pg]> (pages st)) st).

Lemma page_state_id st r pg :
  pages st !! r = Some pg → page_state st r (bytes (os st)) pg = st.
Proof.
  intros H. unfold page_state. rewrite (insert_id _ _ _ H). by destruct st as [[] ? ? ? ? ? ? ? ? ? ?].
Qed.

Lemma wp_page_state {A} (m : M State A) Q st r pg :
  pages st !! r = Some pg → wp m Q (page_state st r (bytes (os st)) pg) → wp m Q st.
Proof. intros H. by rewrite (page_state_id st r pg H). Qed.

Lemma page_state_twice st r m pg m' pg' :
  page_state (page_state st r m pg) r m' pg' = page_state st r m' pg'.
Proof. unfold page_state, set_pages, set_os; simpl. by rewrite insert_insert_eq. Qed.

Lemma pages_page_state st r m pg : pages (page_state st r m pg) !! r = Some pg.
Proof. simpl. by rewrite lookup_insert_eq. Qed.

Lemma wp_load_page_ps st r m pg (Q : Page → State → Prop) :
  Q pg (page_state st r m pg) → wp (load_page r) Q (page_state st r m pg).
Proof. intros H. eapply wp_load_page; [apply pages_page_state|done]. Qed.

Lemma wp_upd_page_ps st r m pg f (Q : unit → State → Prop) :
  Q tt (page_state st r m (f pg)) → wp (upd_page r f) Q (page_state st r m pg).
Proof.
  intros H. eapply wp_upd_page; [apply pages_page_state|].
  unfold page_state, set_pages, set_os in *; simpl. by rewrite insert_insert_eq.
Qed.

(** The link word of a block in the mapped data area can be accessed. *)
Definition word_mapped (o : OsState) (b : Z) : Prop := ∀ a, b ≤ a < b + 8 → mapped o a = true.

Lemma wp_read_next_ps st r m pg b (Q : option Z → State → Prop) :
  word_mapped (os st) b → Q (load_ptr m b) (page_state st r m pg) →
  wp (in_os (read_next b)) Q (page_state st r m pg).
Proof.
  intros Hm HQ. apply wp_in_os. unfold wp, read_next.
  replace (mapped_range _ b 8) with true by (symmetry; apply mapped_range_true, Hm). done.
Qed.

Lemma wp_write_next_ps st r m pg b v (Q : unit → State → Prop) :
  word_mapped (os st) b → Q tt (page_state st r (store_ptr m b v) pg) →
  wp (in_os (write_next b v)) Q (page_state st r m pg).
Proof.
  intros Hm HQ. apply wp_in_os. unfold wp, write_next.
  replace (mapped_range _ b 8) with true by (symmetry; apply mapped_range_true, Hm). done.
Qed.

(** Symbolic execution over [page_state]. *)
Ltac ps_step :=
  lazymatch goal with
  | |- wp (mbind _ _) _ _ => apply wp_bind
  | |- wp (mret _) _ _ => apply wp_ret
  | |- wp (load_page _) _ (page_state _ _ _ _) => apply wp_load_page_ps
  | |- wp (upd_page _ _) _ (page_state _ _ _ _) => apply wp_upd_page_ps
  | |- wp (in_os (read_next _)) _ (page_state _ _ _ _) => apply wp_read_next_ps; [done|]
  | |- wp (in_os (write_next _ _)) _ (page_state _ _ _ _) => apply wp_write_next_ps; [done|]
  end; cbv beta.
Ltac ps_steps := repeat ps_step.

Lemma carved_word m s i pg lf lt o b :
  page_ok m s i pg lf lt → area_mapped o pg → b ∈ carved pg → word_mapped o b.
Proof.
  intros H Ha Hb a Ha'. apply Ha. pose proof (carved_in_area _ _ _ _ _ _ _ H Hb).
  pose proof (block_size_bounds _ _ _ (po_geom H)). lia.
Qed.

Lemma carved_pos m s i pg lf lt b :
  page_ok m s i pg lf lt → b ∈ carved pg → 0 < b < 2 ^ 64.
Proof.
  intros H Hb. pose proof (carved_in_area _ _ _ _ _ _ _ H Hb).
  pose proof (block_size_bounds _ _ _ (po_geom H)).
  pose proof (area_bounds _ _ _ (po_geom H)). lia.
Qed.

Lemma mem_frame_refl F m : mem_frame F m m.
Proof. done. Qed.

Lemma mem_frame_mono F F' m m' : (∀ b, b ∈ F → b ∈ F') → mem_frame F m m' → mem_frame F' m m'.
Proof. intros Hs H x Hx. apply H. eauto. Qed.

Lemma mem_frame_trans F m1 m2 m3 : mem_frame F m1 m2 → mem_frame F m2 m3 → mem_frame F m1 m3.
Proof. intros H1 H2 x Hx. rewrite H2, H1; done. Qed.

Lemma mem_frame_store F m b v : b ∈ F → mem_frame F m (store_ptr m b v).
Proof. intros Hb x Hx. apply byte_at_store_ptr_out. by apply Hx. Qed.

(** Link words of other carved blocks are not affected by a store. *)
Lemma bnext_store_ne s i pg m b v b' :
  page_geom s i pg → b ∈ carved pg → b' ∈ carved pg → b ≠ b' →
  bnext (store_ptr m b v) b' = bnext m b'.
Proof.
  intros G Hb Hb' Hne. unfold bnext. f_equal. apply load_ptr_store_ptr_ne.
  pose proof (carved_apart s i pg b b' G Hb Hb' Hne).
  pose proof (block_size_bounds s i pg G). lia.
Qed.

(** A chain of carved blocks survives a store to a block outside it. *)
Lemma chain_store s i pg m b v h l :
  page_geom s i pg → b ∈ carved pg → (∀ x, x ∈ l → x ∈ carved pg) → b ∉ l →
  chain (bnext m) h l → chain (bnext (store_ptr m b v)) h l.
Proof.
  intros G Hb Hl Hn. apply chain_ext. intros x Hx.
  eapply bnext_store_ne; eauto. intros ->. done.
Qed.

(** ** Collecting cross-thread frees *)

(** The walk finds the last block and the length. *)
Lemma tail_loop_spec st r m pg fuel b l n (Q : Z * Z → State → Prop) :
  chain (bnext m) (Some b) (b :: l) → (length l < fuel)%nat →
  (∀ x, x ∈ b :: l → word_mapped (os st) x) → 0 ≤ n → n + Z.of_nat (length l) < 2 ^ 32 →
  (∀ l' t, b :: l = l' ++ [t] → Q (t, n + Z.of_nat (length l)) (page_state st r m pg)) →
  wp (tail_loop fuel b n) Q (page_state st r m pg).
Proof.
  revert b l n. induction fuel as [|fuel IH]; intros b l n Hc Hf Hw Hn Hlt HQ; [lia|].
  destruct Hc as [_ (nx & Hnx & Hc)]. unfold bnext in Hnx. injection Hnx as Hnx.
  cbn [tail_loop]. apply wp_bind, wp_read_next_ps; [apply Hw; set_solver|]. rewrite Hnx.
  destruct l as [|b' l].
  - apply chain_nil in Hc. subst nx. rewrite Hc. apply wp_ret.
    replace n with (n + Z.of_nat (length (@nil Z))) at 1 by (simpl; lia).
    by apply (HQ []).
  - destruct Hc as [-> Hc]. rewrite u32_small by (simpl in Hlt; lia).
    simpl in Hf, Hlt. apply (IH b' l); [by split|lia| |lia|lia|].
    + intros x Hx. apply Hw. set_solver.
    + intros l' t E. replace (n + 1 + Z.of_nat (length l)) with (n + Z.of_nat (length (b' :: l)))
        by (simpl; lia). apply (HQ (b :: l')). by rewrite E.
Qed.

(** From page [pg] with memory [m], only page [r] and memory changed: the free
    lists are now [lf] and [lt], [n] more blocks are carved, and only link words
    of the blocks [F] were written. *)
Definition page_became st r (m : gmap Z Z) s i pg (n : Z) (lf lt F : list Z) (st' : State) : Prop :=
  ∃ m' pg', st' = page_state st r m' pg' ∧ page_ok m' s i pg' lf lt ∧
    page_core pg' = page_core pg ∧ pg_reserved pg' = pg_reserved pg + n ∧ mem_frame F m m'.

Lemma page_ok_thread_free m s i pg lf lt v lt' :
  page_ok m s i pg lf lt → chain (bnext m) v lt' → NoDup (lf ++ lt') →
  (∀ b, b ∈ lt' → b ∈ carved pg) → page_ok m s i (set_pg_thread_free v pg) lf lt'.
Proof.
  intros [G H1 H2 H3 H4 H5 H6] Hc Hnd Hb. destruct G. constructor; try done.
  intros b [Hbf|Hbt]%elem_of_app; [apply H5; set_solver|by apply Hb].
Qed.

(** The page after its cross-thread list [l ++ [t]] has been spliced in front of
    the local list: the last block now links to the old front. *)
Definition spliced_page (pg : Page) (n : Z) : Page :=
  set_pg_used (u32 (pg_used pg - n)) (set_pg_free (pg_thread_free pg) (set_pg_thread_free None pg)).

Lemma spliced_page_ok m s i pg lf l t :
  page_ok m s i pg lf (l ++ [t]) →
  page_ok (store_ptr m t (pg_free pg)) s i (spliced_page pg (Z.of_nat (length (l ++ [t])))) ((l ++ [t]) ++ lf) [].
Proof.
  intros H. pose proof (po_geom H) as G. pose proof (po_nodup H) as Hnd.
  apply NoDup_app in Hnd as (Hndf & Hdis & Hndt). apply NoDup_app in Hndt as (_ & Hndl & _).
  assert (∀ x, x ∈ l ++ [t] → x ∈ carved pg) as Hcv by (intros x Hx; apply (po_blocks H); set_solver).
  pose proof (free_length _ _ _ _ _ _ H) as Hlen. pose proof (po_res H) as Hres.
  pose proof (capacity_bounds _ _ _ G) as [Hcap _].
  constructor; simpl; rewrite ?app_nil_r.
  - destruct G; by constructor.
  - apply H.
  - rewrite <-app_assoc. simpl. apply (chain_splice (bnext m)) with (pg_free pg).
    + apply H.
    + intros k Hk. eapply bnext_store_ne; eauto; [apply Hcv; set_solver..|].
      intros ->. apply (Hndl k Hk). set_solver.
    + unfold bnext. f_equal. apply load_ptr_store_ptr.
      intros z Hz. pose proof (po_free H) as Hcf. rewrite Hz in Hcf.
      apply chain_some in Hcf as (? & ? & -> & _).
      eapply carved_pos; eauto. apply (po_blocks H). set_solver.
    + eapply chain_store; eauto; [apply Hcv; set_solver| | |apply H].
      * intros x Hx. apply (po_blocks H). set_solver.
      * intros Hx. apply (Hdis t Hx). set_solver.
  - done.
  - rewrite Permutation_app_comm. apply H.
  - intros x Hx. apply (po_blocks H). set_solver.
  - rewrite (po_used H) in *. rewrite !length_app in *. simpl in *. rewrite u32_small; lia.
Qed.

Lemma page_collect_ps st r m s i pg lf lt :
  page_ok m s i pg lf lt → area_mapped (os st) pg →
  wp (page_collect r) (λ _, page_became st r m s i pg 0 (lt ++ lf) [] lt) (page_state st r m pg).
Proof.
  intros H Ha. pose proof (po_geom H) as G. unfold page_collect.
  apply wp_bind, wp_load_page_ps, wp_bind, wp_upd_page_ps.
  pose proof (po_tfree H) as Hct. pose proof (po_nodup H) as Hnd.
  apply NoDup_app in Hnd as (Hndf & Hdis & Hndt).
  destruct (pg_thread_free pg) as [b|] eqn:Et.
  - apply chain_some in Hct as (n & l & -> & Hn & Hc).
    assert (∀ x, x ∈ b :: l → x ∈ carved pg) as Hcv.
    { intros x Hx. apply (po_blocks H). set_solver. }
    pose proof (free_length _ _ _ _ _ _ H) as Hlen. simpl in Hlen.
    pose proof (po_res H) as Hres. pose proof (capacity_bounds _ _ _ G) as [Hcap _].
    apply wp_bind. apply (tail_loop_spec st r m _ list_fuel b l 1); [by split; eauto| | |lia|lia|].
    { unfold list_fuel. consts. change (65536 / 16) with 4096. lia. }
    { intros x Hx. eapply carved_word; eauto. }
    intros l' t E. assert (t ∈ b :: l) as Htin by (rewrite E; set_solver).
    assert (word_mapped (os st) t) as Hwt by (eapply carved_word; eauto).
    ps_steps. set (m' := store_ptr m t (pg_free pg)).
    eexists m', _. split; [reflexivity|]. split_and!; [|done|simpl; lia|].
    + rewrite E in H. apply spliced_page_ok in H as Hok. unfold spliced_page in Hok. rewrite <-E, Et in Hok. simpl in Hok.
      by replace (Z.of_nat (S (length l))) with (1 + Z.of_nat (length l)) in Hok by lia.
    + by apply mem_frame_store.
  - apply chain_none in Hct. subst lt. apply wp_ret. exists m, (set_pg_thread_free None pg).
    split_and!; try done; [|simpl; lia]. rewrite app_nil_l.
    apply (page_ok_thread_free m s i pg lf []); [done..| |set_solver].
    by rewrite app_nil_r.
Qed.

Lemma collect_locked_eq r : collect_locked r = page_collect r.
Proof. reflexivity. Qed.

(** ** Carving *)

Lemma chain_frame F m m' h l :
  mem_frame F m m' → (∀ x b, x ∈ l → b ∈ F → b + 8 ≤ x ∨ x + 8 ≤ b) →
  chain (bnext m) h l → chain (bnext m') h l.
Proof.
  intros Hf Hd. apply chain_ext. intros x Hx. unfold bnext. f_equal.
  apply load_ptr_ext. intros y Hy. apply Hf. intros b Hb. pose proof (Hd x b Hx Hb). lia.
Qed.

(** Block [k] counted from [start]. *)
Definition blocks_from (start bs n : Z) : list Z := (λ k, start + k * bs) <$> seqZ 0 n.

Lemma elem_of_blocks_from start bs n b :
  b ∈ blocks_from start bs n ↔ ∃ k, b = start + k * bs ∧ 0 ≤ k < n.
Proof.
  unfold blocks_from. rewrite list_elem_of_fmap. setoid_rewrite elem_of_seqZ. naive_solver lia.
Qed.

Lemma blocks_from_S start bs i :
  blocks_from start bs (Z.of_nat (S i)) = blocks_from start bs (Z.of_nat i) ++ [start + Z.of_nat i * bs].
Proof. unfold blocks_from. rewrite seqZ_S, fmap_app. done. Qed.

(** The loop links the blocks in address order in front of [head]. *)
Lemma extend_loop_spec st r pg start bs i m head l (Q : option Z → State → Prop) :
  8 ≤ bs → 0 < start → start + Z.of_nat i * bs ≤ 2 ^ 64 →
  (∀ k, 0 ≤ k < Z.of_nat i → word_mapped (os st) (start + k * bs)) →
  (∀ x k, x ∈ l → 0 ≤ k < Z.of_nat i → start + k * bs + 8 ≤ x ∨ x + 8 ≤ start + k * bs) →
  (∀ z, head = Some z → 0 < z < 2 ^ 64) → chain (bnext m) head l →
  (∀ m' head', chain (bnext m') head' (blocks_from start bs (Z.of_nat i) ++ l) →
     mem_frame (blocks_from start bs (Z.of_nat i)) m m' → Q head' (page_state st r m' pg)) →
  wp (extend_loop i start bs head) Q (page_state st r m pg).
Proof.
  revert m head l Q. induction i as [|i IH]; intros m head l Q Hbs Hs He Hw Hd Hh Hc HQ.
  { apply HQ; [done|apply mem_frame_refl]. }
  cbn [extend_loop]. set (b := start + Z.of_nat i * bs).
  rewrite u64_small by nia. apply wp_bind, wp_write_next_ps; [apply Hw; lia|].
  assert (mem_frame [b] m (store_ptr m b head)) as Hf by (apply mem_frame_store; set_solver).
  apply (IH _ (Some b) (b :: l)); try done; try nia.
  - intros k Hk. apply Hw. lia.
  - intros x k [->|Hx]%elem_of_cons Hk; [unfold b; nia|apply Hd; [done|lia]].
  - intros z [= <-]. unfold b. nia.
  - split; [done|]. exists head. split; [unfold bnext; by rewrite load_ptr_store_ptr|].
    eapply chain_frame; [done| |done]. intros x y Hx ->%list_elem_of_singleton.
    apply Hd; [done|lia].
  - intros m' head' Hc' Hf'. rewrite blocks_from_S in HQ. fold b in HQ. apply HQ.
    + by rewrite <-app_assoc.
    + eapply mem_frame_trans; (eapply mem_frame_mono; [|done]); set_solver.
Qed.

(** Blocks are carved about 8 KiB at a time. *)
Definition extend_batch (pg : Page) : Z :=
  Z.min (Z.max 1 (8192 / pg_block_size pg)) (pg_capacity pg - pg_reserved pg).

Definition fresh_blocks (pg : Page) : list Z :=
  blocks_from (pg_area pg + pg_reserved pg * pg_block_size pg) (pg_block_size pg) (extend_batch pg).

Lemma carved_more pg pg' n :
  pg_area pg' = pg_area pg → pg_block_size pg' = pg_block_size pg →
  pg_reserved pg' = pg_reserved pg + n → 0 ≤ pg_reserved pg → 0 ≤ n →
  carved pg' = carved pg ++
    blocks_from (pg_area pg + pg_reserved pg * pg_block_size pg) (pg_block_size pg) n.
Proof.
  intros Ha Hb Hr H0 Hn. unfold carved, blocks_from. rewrite Ha, Hb, Hr, seqZ_app by lia.
  rewrite fmap_app. f_equal. apply list_eq. intros k. rewrite !list_lookup_fmap.
  destruct (decide (Z.of_nat k < n)) as [Hk|Hk].
  - rewrite !lookup_seqZ_lt by lia. simpl. f_equal. lia.
  - rewrite !lookup_seqZ_ge by lia. done.
Qed.

(** The header of [s] names one segment: [page_core] fixes the geometry. *)
Lemma page_geom_core s i pg pg' : page_core pg' = page_core pg → page_geom s i pg → page_geom s i pg'.
Proof.
  unfold page_core. intros E G. injection E as E1 E2 E3 E4 E5 E6 E7 E8.
  destruct G; constructor; congruence.
Qed.

Lemma extend_batch_bounds s i pg :
  page_geom s i pg → 0 ≤ pg_reserved pg < pg_capacity pg →
  1 ≤ extend_batch pg ≤ pg_capacity pg - pg_reserved pg ∧
  extend_batch pg * pg_block_size pg ≤ 16384.
Proof.
  intros G Hr. pose proof (block_size_bounds s i pg G) as [Hb _]. unfold extend_batch.
  consts. assert (0 ≤ 8192 / pg_block_size pg) by (apply Z.div_pos; lia).
  pose proof (Z.mul_div_le 8192 (pg_block_size pg) ltac:(lia)). nia.
Qed.

Lemma chain_pos m s i pg lf lt z :
  page_ok m s i pg lf lt → pg_free pg = Some z → 0 < z < 2 ^ 64.
Proof.
  intros H Hz. pose proof (po_free H) as Hcf. rewrite Hz in Hcf.
  apply chain_some in Hcf as (? & ? & -> & _).
  eapply carved_pos; eauto. apply (po_blocks H). set_solver.
Qed.

(** Freshly carved blocks lie above every block carved before, in the page. *)
Lemma fresh_apart s i pg x k :
  page_geom s i pg → 0 ≤ pg_reserved pg < pg_capacity pg → x ∈ carved pg →
  0 ≤ k < extend_batch pg →
  x + pg_block_size pg ≤ pg_area pg + pg_reserved pg * pg_block_size pg + k * pg_block_size pg.
Proof.
  intros G Hr Hx Hk. pose proof (block_size_bounds s i pg G) as [Hb _].
  apply elem_of_carved in Hx as (j & -> & Hj). nia.
Qed.

(** Carved blocks appended to the local list keep the invariant. *)
Lemma page_ok_extended m m' s i pg pg' lf lt fr :
  page_ok m s i pg lf lt → page_geom s i pg' → carved pg' = carved pg ++ fr → NoDup (carved pg') →
  pg_reserved pg' = pg_reserved pg + Z.of_nat (length fr) → pg_reserved pg' ≤ pg_capacity pg' →
  pg_used pg' = pg_used pg → chain (bnext m') (pg_free pg') (fr ++ lf) →
  chain (bnext m') (pg_thread_free pg') lt → page_ok m' s i pg' (fr ++ lf) lt.
Proof.
  intros H G Hcv Hnd Hr Hc Hu Hcf Hct. constructor; try done.
  - pose proof (po_res H). lia.
  - rewrite Hcv in Hnd. apply NoDup_app in Hnd as (_ & Hd & Hfr).
    rewrite <-app_assoc. apply NoDup_app. split_and!; [done| |apply H].
    intros x Hx Hin. apply (Hd x); [by apply (po_blocks H)|done].
  - intros x Hx. rewrite Hcv. rewrite <-app_assoc in Hx. apply elem_of_app in Hx as [Hx|Hx].
    + apply elem_of_app. by right.
    + apply elem_of_app. left. by apply (po_blocks H).
  - rewrite length_app, Hu, (po_used H), Hr. lia.
Qed.

Lemma page_extend_ps st r m s i pg lf lt :
  page_ok m s i pg lf lt → area_mapped (os st) pg → pg_reserved pg < pg_capacity pg →
  wp (page_extend r)
    (λ _, page_became st r m s i pg (extend_batch pg) (fresh_blocks pg ++ lf) lt (fresh_blocks pg))
    (page_state st r m pg).
Proof.
  intros H Ha Hlt. pose proof (po_geom H) as G.
  pose proof (po_res H) as Hres. pose proof (capacity_bounds _ _ _ G) as [Hcap Hcs].
  pose proof (block_size_bounds _ _ _ G) as [Hbs _]. pose proof (area_bounds _ _ _ G) as [Ha0 Ha1].
  destruct (extend_batch_bounds s i pg G ltac:(lia)) as [Hbt _].
  set (bt := extend_batch pg) in *. set (bs := pg_block_size pg) in *. consts.
  assert ((pg_reserved pg + bt) * bs ≤ 65536) as Hfit by nia.
  unfold page_extend. apply wp_bind, wp_load_page_ps. rewrite (u32_small (_ - _)) by lia.
  rewrite (proj2 (Z.eqb_neq _ _)) by lia. rewrite (proj2 (Z.eqb_neq _ _)) by lia.
  assert (0 ≤ 8192 / bs ≤ 8192) as Hq.
  { split; [apply Z.div_pos; lia|apply Z.div_le_upper_bound; lia]. }
  fold bs. rewrite (u32_small (8192 / bs)) by lia.
  replace (if _ <? _ then _ else _) with bt.
  2: { unfold bt, extend_batch. fold bs. destruct (8192 / bs =? 0) eqn:E0;
       match goal with |- context [?a <? ?b] => destruct (a <? b) eqn:E1 end; bool_hyps; lia. }
  rewrite (u64_small (_ * _)) by nia. rewrite u64_small by nia.
  apply wp_bind. apply (extend_loop_spec st r pg _ bs (Z.to_nat bt) m (pg_free pg) lf);
    rewrite ?Z2Nat.id by lia; [lia|nia|nia| | |intros z; by apply (chain_pos m s i pg lf lt)|apply H|].
  { intros k Hk a Hak. apply Ha. consts. nia. }
  { intros x k Hx Hk. right. assert (x ∈ carved pg) as Hxc.
    { apply (po_blocks H). set_solver. }
    pose proof (fresh_apart s i pg x k G ltac:(lia) Hxc Hk). fold bs in H0. lia. }
  intros m' head' Hc Hf.
  change (blocks_from (pg_area pg + pg_reserved pg * bs) bs bt) with (fresh_blocks pg) in *.
  ps_steps. eexists m', _. split; [reflexivity|].
  change (pg_reserved (set_pg_free head' pg)) with (pg_reserved pg).
  pose proof (carved_more pg (set_pg_reserved (u32 (pg_reserved pg + bt)) (set_pg_free head' pg)) bt
    eq_refl eq_refl) as Hcv. simpl in Hcv. rewrite u32_small in * by lia.
  specialize (Hcv eq_refl ltac:(lia) ltac:(lia)). fold bt bs in Hcv.
  change (blocks_from (pg_area pg + pg_reserved pg * bs) bs bt) with (fresh_blocks pg) in Hcv.
  split_and!; [| | |]; [|reflexivity|reflexivity|exact Hf].
  assert (∀ x y, x ∈ carved pg → y ∈ fresh_blocks pg → x + bs ≤ y) as Hap.
  { intros x y Hx (k & -> & Hk)%elem_of_blocks_from.
    pose proof (fresh_apart s i pg x k G ltac:(lia) Hx Hk). lia. }
  assert (page_geom s i (set_pg_reserved (pg_reserved pg + bt) (set_pg_free head' pg))) as G'
    by by apply (page_geom_core s i pg).
  apply (page_ok_extended m m' s i pg _ lf lt (fresh_blocks pg)); try done.
  - by eapply carved_NoDup.
  - simpl. unfold fresh_blocks, blocks_from. rewrite length_fmap, length_seqZ. fold bt. lia.
  - simpl. lia.
  - apply (chain_frame (fresh_blocks pg) m m'); [done| |apply H].
    intros x b Hx Hb. right. assert (x ∈ carved pg) as Hxc
      by (apply (po_blocks H); set_solver). specialize (Hap x b Hxc Hb). lia.
Qed.

(** ** What clients see of a page operation

    [page_moved] is the contract of a page operation: only the page [r] and
    memory changed, the invariant holds with free lists [lf'] and [lt'], the live
    blocks are now those of [L], and no byte outside the page or inside a block
    that stays live was written. *)
Record page_moved st r (m : gmap Z Z) s i pg lf lt (L : Z → Prop) lf' lt' st' m' pg' : Prop := {
  pm_state : st' = page_state st r m' pg';
  pm_ok : page_ok m' s i pg' lf' lt';
  pm_core : page_core pg' = page_core pg;
  pm_res : pg_reserved pg ≤ pg_reserved pg';
  pm_live b : live_block pg' lf' lt' b ↔ L b;
  pm_out x : ¬ (pg_area pg ≤ x < pg_area pg + PAGE_SIZE) → byte_at m' x = byte_at m x;
  pm_keep b x : live_block pg lf lt b → L b → b ≤ x < b + pg_block_size pg →
    byte_at m' x = byte_at m x
}.

#[global] Arguments pm_state {st r m s i pg lf lt L lf' lt' st' m' pg'} _.
#[global] Arguments pm_ok {st r m s i pg lf lt L lf' lt' st' m' pg'} _.
#[global] Arguments pm_core {st r m s i pg lf lt L lf' lt' st' m' pg'} _.
#[global] Arguments pm_res {st r m s i pg lf lt L lf' lt' st' m' pg'} _.
#[global] Arguments pm_live {st r m s i pg lf lt L lf' lt' st' m' pg'} _ b.
#[global] Arguments pm_out {st r m s i pg lf lt L lf' lt' st' m' pg'} _ x.
#[global] Arguments pm_keep {st r m s i pg lf lt L lf' lt' st' m' pg'} _ b x.

Lemma live_in_area m s i pg lf lt b :
  page_ok m s i pg lf lt → live_block pg lf lt b →
  pg_area pg ≤ b ∧ b + pg_block_size pg ≤ pg_area pg + PAGE_SIZE.
Proof. intros H [Hb _]. by eapply carved_in_area. Qed.

(** Writes confined to blocks of the page that do not stay live. *)
Lemma frame_out m m' s i pg' lf' lt' F x :
  page_ok m' s i pg' lf' lt' → mem_frame F m m' → (∀ b, b ∈ F → b ∈ carved pg') →
  ¬ (pg_area pg' ≤ x < pg_area pg' + PAGE_SIZE) → byte_at m' x = byte_at m x.
Proof.
  intros H Hf HF Hx. apply Hf. intros b Hb Hxb. apply Hx.
  pose proof (carved_in_area _ _ _ _ _ _ b H (HF b Hb)).
  pose proof (block_size_bounds _ _ _ (po_geom H)). lia.
Qed.

Lemma frame_keep m m' s i pg' lf' lt' F b x :
  page_ok m' s i pg' lf' lt' → mem_frame F m m' → (∀ b, b ∈ F → b ∈ carved pg') →
  b ∈ carved pg' → b ∉ F → b ≤ x < b + pg_block_size pg' → byte_at m' x = byte_at m x.
Proof.
  intros H Hf HF Hb Hn Hx. apply Hf. intros b' Hb' Hxb.
  assert (b ≠ b') as Hne by (intros ->; done).
  pose proof (carved_apart s i pg' b b' (po_geom H) Hb (HF b' Hb') Hne).
  pose proof (block_size_bounds _ _ _ (po_geom H)). lia.
Qed.

(** From the list-level description to the contract. *)
Lemma became_moved st r m s i pg lf lt L n lf' lt' F st' :
  page_ok m s i pg lf lt → page_became st r m s i pg n lf' lt' F st' → 0 ≤ n →
  (∀ pg', page_core pg' = page_core pg → pg_reserved pg' = pg_reserved pg + n →
     page_geom s i pg' →
     (∀ b, live_block pg' lf' lt' b ↔ L b) ∧
     (∀ b, b ∈ F → b ∈ carved pg') ∧ (∀ b, live_block pg lf lt b → L b → b ∉ F)) →
  ∃ m' pg', page_moved st r m s i pg lf lt L lf' lt' st' m' pg'.
Proof.
  intros H (m' & pg' & -> & H' & Hcore & Hres & Hf) Hn HL.
  destruct (HL pg' Hcore Hres (po_geom H')) as (HLb & HFc & HFl).
  pose proof Hcore as E. unfold page_core in E. injection E as E1 E2 E3 E4 E5 E6 E7 E8.
  exists m', pg'. constructor; try done; [lia| |].
  - intros x Hx. rewrite <-E8 in Hx. by eapply frame_out.
  - intros b x Hb HLb' Hx. rewrite <-E2 in Hx. eapply frame_keep; eauto.
    apply HLb in HLb'. apply HLb'.
Qed.

(** Operations that leave the set of live blocks alone compose. *)
Lemma page_moved_trans st r m s i pg lf lt L lf1 lt1 st1 m1 pg1 lf2 lt2 st2 m2 pg2 :
  page_moved st r m s i pg lf lt (live_block pg lf lt) lf1 lt1 st1 m1 pg1 →
  page_moved st r m1 s i pg1 lf1 lt1 L lf2 lt2 st2 m2 pg2 →
  page_moved st r m s i pg lf lt L lf2 lt2 st2 m2 pg2.
Proof.
  intros [S1 K1 C1 R1 L1 O1 P1] [S2 K2 C2 R2 L2 O2 P2].
  pose proof C1 as E. unfold page_core in E. injection E as E1 E2 E3 E4 E5 E6 E7 E8.
  constructor; try done; [congruence|lia| |].
  - intros x Hx. rewrite O2 by (by rewrite E8). by apply O1.
  - intros b x Hb HL Hx. rewrite (P2 b x); [by apply (P1 b)|by apply L1|done|by rewrite E2].
Qed.

Lemma page_collect_moved st r m s i pg lf lt :
  page_ok m s i pg lf lt → area_mapped (os st) pg →
  wp (page_collect r) (λ _ st', ∃ m' pg',
      page_moved st r m s i pg lf lt (live_block pg lf lt) (lt ++ lf) [] st' m' pg' ∧
      pg_reserved pg' = pg_reserved pg)
    (page_state st r m pg).
Proof.
  intros H Ha. eapply wp_mono; [by apply page_collect_ps|]. intros [] st' Hb.
  pose proof Hb as (m1 & pg1 & E1 & _ & _ & R1 & _).
  destruct (became_moved st r m s i pg lf lt (live_block pg lf lt) 0 _ _ _ _ H Hb)
    as (m' & pg' & Hm); [lia| |].
  - intros pg' C R G. unfold page_core in C. injection C as C1 C2 C3 C4 C5 C6 C7 C8.
    rewrite Z.add_0_r in R. assert (carved pg' = carved pg) as Hcv
      by (unfold carved; by rewrite C8, C2, R). unfold live_block. rewrite Hcv. split_and!.
    + intros b. set_solver.
    + intros b Hb'. apply (po_blocks H). set_solver.
    + intros b. set_solver.
  - exists m', pg'. split; [done|]. destruct Hm as [Es _ _ _ _ _ _].
    assert (Some pg' = Some pg1) as [= ->]; [|lia].
    by rewrite <-(pages_page_state st r m' pg'), <-Es, E1, pages_page_state.
Qed.

Lemma page_extend_moved st r m s i pg lf lt :
  page_ok m s i pg lf lt → area_mapped (os st) pg → pg_reserved pg < pg_capacity pg →
  wp (page_extend r) (λ _ st', ∃ m' pg',
      page_moved st r m s i pg lf lt (live_block pg lf lt) (fresh_blocks pg ++ lf) lt st' m' pg')
    (page_state st r m pg).
Proof.
  intros H Ha Hlt. eapply wp_mono; [by apply page_extend_ps|]. intros [] st' Hb.
  pose proof (po_geom H) as G. pose proof (po_res H) as Hres.
  destruct (extend_batch_bounds s i pg G ltac:(lia)) as [Hbt _].
  eapply (became_moved st r m s i pg lf lt (live_block pg lf lt)); [done|done|lia|].
  intros pg' C R G'. pose proof C as C'. unfold page_core in C'.
  injection C' as C1 C2 C3 C4 C5 C6 C7 C8.
  assert (carved pg' = carved pg ++ fresh_blocks pg) as Hcv by (by apply carved_more; lia).
  pose proof (carved_NoDup s i pg' G') as Hnd. rewrite Hcv in Hnd.
  apply NoDup_app in Hnd as (_ & Hd & _). unfold live_block. rewrite Hcv. split_and!.
  - intros b. specialize (Hd b). set_solver.
  - intros b. set_solver.
  - intros b [Hb' _] _. by apply Hd.
Qed.

Lemma page_moved_iff st r m s i pg lf lt L L' lf' lt' st' m' pg' :
  (∀ b, L b ↔ L' b) → page_moved st r m s i pg lf lt L lf' lt' st' m' pg' →
  page_moved st r m s i pg lf lt L' lf' lt' st' m' pg'.
Proof.
  intros HL [S1 K1 C1 R1 L1 O1 P1]. constructor; try done.
  - intros b. by rewrite L1.
  - intros b x Hb HL'. apply P1; [done|]. by apply HL.
Qed.

Lemma page_moved_refl st r m s i pg lf lt :
  page_ok m s i pg lf lt →
  page_moved st r m s i pg lf lt (live_block pg lf lt) lf lt (page_state st r m pg) m pg.
Proof. intros H. constructor; done. Qed.

Lemma free_none m s i pg lf lt : page_ok m s i pg lf lt → pg_free pg = None ↔ lf = [].
Proof.
  intros H. pose proof (po_free H) as Hc. split.
  - intros E. rewrite E in Hc. by eapply chain_none.
  - intros ->. by apply chain_nil in Hc.
Qed.

Lemma fresh_blocks_nonempty s i pg :
  page_geom s i pg → 0 ≤ pg_reserved pg < pg_capacity pg → fresh_blocks pg ≠ [].
Proof.
  intros G Hr. destruct (extend_batch_bounds s i pg G Hr) as [Hb _].
  intros E. apply (f_equal length) in E. unfold fresh_blocks, blocks_from in E.
  rewrite length_fmap, length_seqZ in E. simpl in E. lia.
Qed.

(** A page can serve unless every block of its capacity is live. *)
Lemma page_make_available_moved st r m s i pg lf lt :
  page_ok m s i pg lf lt → area_mapped (os st) pg →
  wp (page_make_available r) (λ ok st', ∃ lf' lt' m' pg',
      page_moved st r m s i pg lf lt (live_block pg lf lt) lf' lt' st' m' pg' ∧
      if ok then lf' ≠ [] else lf = [] ∧ lt = [] ∧ pg_reserved pg = pg_capacity pg)
    (page_state st r m pg).
Proof.
  intros H Ha. unfold page_make_available. apply wp_bind, wp_load_page_ps.
  case_bool_decide as E0.
  { apply wp_ret. exists lf, lt, m, pg. split; [by apply page_moved_refl|].
    rewrite (free_none _ _ _ _ _ _ H) in E0. done. }
  assert (lf = []) as ->. { apply (free_none _ _ _ _ _ _ H). by destruct (pg_free pg); [destruct E0|]. }
  apply wp_bind. eapply wp_mono; [by apply page_collect_moved|].
  intros [] st1 (m1 & pg1 & M1 & R1). rewrite app_nil_r in M1.
  rewrite (pm_state M1).
  pose proof (pm_ok M1) as H1.
  pose proof (pm_core M1) as C. unfold page_core in C.
  injection C as C1 C2 C3 C4 C5 C6 C7 C8.
  apply wp_bind, wp_load_page_ps. pose proof (po_res H1) as Hr1.
  rewrite (pm_state M1) in M1.
  case_bool_decide as E1.
  { apply wp_ret. exists lt, [], m1, pg1. split; [done|].
    rewrite (free_none _ _ _ _ _ _ H1) in E1. done. }
  assert (lt = []) as ->. { apply (free_none _ _ _ _ _ _ H1). by destruct (pg_free pg1); [destruct E1|]. }
  destruct (pg_reserved pg1 <? pg_capacity pg1) eqn:E2; bool_hyps.
  - apply wp_bind. eapply wp_mono.
    { apply (page_extend_moved st r m1 s i pg1 [] []); [done| |done].
      unfold area_mapped. by rewrite C8. }
    intros [] st2 (m2 & pg2 & M2). 
    pose proof (page_moved_iff _ _ _ _ _ _ _ _ _ _ _ _ _ _ _ (pm_live M1)
      (page_moved_trans _ _ _ _ _ _ _ _ _ _ _ _ _ _ _ _ _ _ _ M1 M2)) as M3.
    rewrite (pm_state M3). rewrite (pm_state M3) in M3.
    apply wp_bind, wp_load_page_ps, wp_ret. exists (fresh_blocks pg1 ++ []), [], m2, pg2.
    split; [done|]. pose proof (fresh_blocks_nonempty s i pg1 (po_geom H1) ltac:(lia)) as Hne.
    rewrite bool_decide_eq_true_2; [by rewrite app_nil_r|].
    rewrite (free_none _ _ _ _ _ _ (pm_ok M3)). by rewrite app_nil_r.
  - apply wp_ret. exists [], [], m1, pg1. split; [done|]. split_and!; try done. lia.
Qed.

(** ** Taking and returning one block *)

Lemma used_bounds m s i pg lf lt :
  page_ok m s i pg lf lt → Z.of_nat (length lt) ≤ pg_used pg ≤ 4096.
Proof.
  intros H. pose proof (free_length _ _ _ _ _ _ H). pose proof (capacity_bounds _ _ _ (po_geom H)).
  pose proof (po_res H). rewrite (po_used H). lia.
Qed.

Lemma live_used m s i pg lf lt b :
  page_ok m s i pg lf lt → live_block pg lf lt b → 1 ≤ pg_used pg - Z.of_nat (length lt).
Proof.
  intros H (Hb & Hf & Ht). assert (b :: lf ++ lt ⊆+ carved pg) as Hs.
  { apply NoDup_submseteq.
    - apply NoDup_cons. split; [|apply H]. rewrite elem_of_app. tauto.
    - intros x [->|Hx]%elem_of_cons; [done|]. by apply (po_blocks H). }
  apply submseteq_length in Hs. unfold carved in Hs. simpl in Hs.
  rewrite length_app, length_fmap, length_seqZ in Hs. pose proof (po_res H).
  rewrite (po_used H). lia.
Qed.

(** The chain after linking the live block [p] in front. *)
Lemma chain_push m s i pg lf lt p h l :
  page_ok m s i pg lf lt → live_block pg lf lt p → chain (bnext m) h l →
  (∀ x, x ∈ l → x ∈ lf ++ lt) → chain (bnext (store_ptr m p h)) (Some p) (p :: l).
Proof.
  intros H (Hp & Hf & Ht) Hc Hl. assert (p ∉ l) as Hnl.
  { intros Hin. apply Hl in Hin. apply elem_of_app in Hin. tauto. }
  split; [done|]. exists h. split.
  - unfold bnext. rewrite load_ptr_store_ptr; [done|]. intros z ->.
    apply chain_some in Hc as (? & ? & -> & _). eapply carved_pos; [done|].
    apply (po_blocks H), Hl. by left.
  - eapply chain_store; eauto; [apply H|]. intros x Hx. by apply (po_blocks H), Hl.
Qed.

Lemma page_pop_moved st r m s i pg b lf lt :
  page_ok m s i pg (b :: lf) lt → area_mapped (os st) pg →
  wp (page_pop r) (λ x st', x = b ∧ ∃ m' pg',
      page_moved st r m s i pg (b :: lf) lt (λ y, y = b ∨ live_block pg (b :: lf) lt y)
        lf lt st' m' pg' ∧ m' = m)
    (page_state st r m pg).
Proof.
  intros H Ha. pose proof (used_bounds _ _ _ _ _ _ H) as Hu. unfold page_pop.
  destruct (po_free H) as [Hb (n & Hn & Hc)]. unfold bnext in Hn. injection Hn as Hn.
  assert (b ∈ carved pg) as Hbc by (apply (po_blocks H); set_solver).
  assert (word_mapped (os st) b) as Hw by (by eapply carved_word).
  apply wp_bind, wp_load_page_ps, wp_bind. rewrite Hb. apply wp_ret.
  ps_steps. rewrite Hn. split; [done|].
  exists m, (set_pg_used (u32 (pg_used pg + 1)) (set_pg_free n pg)).
  change (pg_used (set_pg_free n pg)) with (pg_used pg).
  pose proof (po_nodup H) as Hnd. simpl in Hnd. apply NoDup_cons in Hnd as [Hbn Hnd].
  split; [|done]. constructor; try done.
  - constructor; simpl; try done; [by apply (page_geom_core s i pg), (po_geom H)|apply H..| |].
    + intros x Hx. apply (po_blocks H). set_solver.
    + rewrite u32_small by lia. rewrite (po_used H). simpl. lia.
  - intros x. unfold live_block. change (carved _) with (carved pg).
    destruct (decide (x = b)) as [->|Hx]; set_solver.
Qed.

Lemma page_push_local_moved st r m s i pg lf lt p :
  page_ok m s i pg lf lt → area_mapped (os st) pg → live_block pg lf lt p →
  wp (page_push_local r p) (λ u st', ∃ m' pg',
      page_moved st r m s i pg lf lt (λ y, y ≠ p ∧ live_block pg lf lt y)
        (p :: lf) lt st' m' pg' ∧ u = pg_used pg')
    (page_state st r m pg).
Proof.
  intros H Ha Hp. pose proof (used_bounds _ _ _ _ _ _ H) as Hu.
  pose proof (live_used _ _ _ _ _ _ _ H Hp) as Hl. unfold page_push_local.
  destruct Hp as (Hpc & Hpf & Hpt).
  assert (word_mapped (os st) p) as Hw by (by eapply carved_word).
  ps_steps. eexists (store_ptr m p (pg_free pg)), _. split; [|reflexivity].
  assert (mem_frame [p] m (store_ptr m p (pg_free pg))) as Hf by (apply mem_frame_store; set_solver).
  assert (page_ok (store_ptr m p (pg_free pg)) s i
    (set_pg_used (u32 (pg_used (set_pg_free (Some p) pg) - 1)) (set_pg_free (Some p) pg)) (p :: lf) lt) as H'.
  { constructor; simpl.
    - by apply (page_geom_core s i pg), (po_geom H).
    - apply H.
    - eapply chain_push; [done|done|apply H|]. intros x Hx. set_solver.
    - eapply chain_store; [apply (po_geom H)|done| |done|apply H].
      intros x Hx. apply (po_blocks H). set_solver.
    - apply NoDup_cons. split; [|apply H]. rewrite elem_of_app. tauto.
    - intros x [->|Hx]%elem_of_cons; [done|]. by apply (po_blocks H).
    - rewrite u32_small by lia. rewrite (po_used H). lia. }
  constructor; try done.
  - intros y. unfold live_block. change (carved _) with (carved pg). set_solver.
  - intros x Hx. eapply frame_out; [apply H'|apply Hf| |done]. set_solver.
  - intros b x Hb [Hbp _] Hx. eapply (frame_keep m _ s i _ _ _ [p] b x H' Hf); [set_solver|apply Hb|set_solver|done].
Qed.

Lemma heap_free_remote_moved st r m s i pg lf lt p :
  page_ok m s i pg lf lt → area_mapped (os st) pg → live_block pg lf lt p →
  wp (heap_free_remote r p) (λ _ st', ∃ m' pg',
      page_moved st r m s i pg lf lt (λ y, y ≠ p ∧ live_block pg lf lt y)
        lf (p :: lt) st' m' pg')
    (page_state st r m pg).
Proof.
  intros H Ha Hp. unfold heap_free_remote. destruct Hp as (Hpc & Hpf & Hpt).
  assert (word_mapped (os st) p) as Hw by (by eapply carved_word).
  ps_steps. eexists (store_ptr m p (pg_thread_free pg)), _.
  assert (mem_frame [p] m (store_ptr m p (pg_thread_free pg))) as Hf by (apply mem_frame_store; set_solver).
  assert (page_ok (store_ptr m p (pg_thread_free pg)) s i
    (set_pg_thread_free (Some p) pg) lf (p :: lt)) as H'.
  { constructor; simpl.
    - by apply (page_geom_core s i pg), (po_geom H).
    - apply H.
    - eapply chain_store; [apply (po_geom H)|done| |done|apply H].
      intros x Hx. apply (po_blocks H). set_solver.
    - eapply chain_push; [done|done|apply H|]. intros x Hx. set_solver.
    - rewrite Permutation_app_comm. simpl. apply NoDup_cons. rewrite elem_of_app.
      split; [tauto|]. rewrite Permutation_app_comm. apply H.
    - intros x Hx. destruct (decide (x = p)) as [->|]; [done|]. apply (po_blocks H). set_solver.
    - apply H. }
  constructor; try done.
  - intros y. unfold live_block. change (carved _) with (carved pg). set_solver.
  - intros x Hx. eapply frame_out; [apply H'|apply Hf| |done]. set_solver.
  - intros b x Hb [Hbp _] Hx. eapply (frame_keep m _ s i _ _ _ [p] b x H' Hf); [set_solver|apply Hb|set_solver|done].
Qed.
End pageops.
