(* ===== verification/Allocated.v ===== *)
(** * What is allocated

    [allocated st b n]: the client holds [n] usable bytes at [b], as a block of
    a page that is carved and on no free list, or as a large region.  [mem_ok]
    is the part of the invariant that concerns memory: the regions and their
    accounting, the registry, the free lists in every page in use, and the large
    headers.  The
    main lemma, [moved_mem], lifts the contract of an operation on one page to
    the whole state. *)
From Stdlib Require Import ZArith Lia.
From stdpp Require Import base numbers list gmap.
From S2P Require Import Prelude Words Constants SizeClass Segment Memory Os Chains RegionRegistry State Regions PageOps.

Section allocated.
Context {K : Kernel} {Lg : Ledger}.
Implicit Types (st : State) (m : gmap Z Z) (P : gmap pageref Page).

Definition blocks_ok m P : Prop := ∀ s i pg,
  P !! PageAt s i = Some pg → pg_in_use pg = true → ∃ lf lt, page_ok m s i pg lf lt.

Record large_ok (b : Z) (h : LargeHeader) : Prop := {
  lo_base : 0 < b;
  lo_align : b mod SEGMENT_SIZE = 0;
  lo_kind : lh_kind h = Large;
  lo_offset : LARGE_OFFSET ≤ lh_offset h < SEGMENT_SIZE;
  lo_offset16 : lh_offset h mod ALLOC_ALIGN = 0;
  lo_req : 0 < lh_req_size h;
  lo_fit : lh_offset h + lh_req_size h ≤ lh_mmap_size h
}.

(** The registry holds bases of regions only, all of them when the ledger is
    complete or the kernel is calm, and searches in it end. *)
Definition is_region st (b : Z) : Prop := is_Some (segs st !! b) ∨ is_Some (larges st !! b).
Definition lists_regions st (X : gset Z) : Prop :=
  slots (registry st) ≠ None ∧ ∀ b, is_region st b → b ∈ X.
Definition kernel_calm st : Prop := calm (Calm:=ledger_calm) (kern (os st)).
Definition promised st (X : gset Z) : Prop :=
  (ledger_complete → lists_regions st X) ∧
  (kernel_calm st → reg_room (registry st) ∧ ∀ b, is_region st b → b ∈ X).
Definition registry_ok st : Prop := ∃ X, reg_wf (registry st) X ∧ reg_room1 (registry st) ∧
  (∀ b, b ∈ X → is_region st b) ∧ promised st X.
Record mem_ok st : Prop := {
  mo_regions : regions_ok (region_of st) (os st);
  mo_registry : registry_ok st;
  mo_blocks : blocks_ok (bytes (os st)) (pages st);
  mo_segs s i : is_Some (pages st !! PageAt s i) → is_Some (segs st !! s);
  mo_large b h : larges st !! b = Some h → large_ok b h;
  mo_count : counted st
}.
#[global] Arguments mo_regions {st} _.
#[global] Arguments mo_registry {st} _.
#[global] Arguments mo_blocks {st} _.
#[global] Arguments mo_segs {st} _ s i.
#[global] Arguments mo_large {st} _ b h.
#[global] Arguments mo_count {st} _.

Definition small_alloc m P (b n : Z) : Prop := ∃ s i pg lf lt,
  P !! PageAt s i = Some pg ∧ pg_in_use pg = true ∧ page_ok m s i pg lf lt ∧
  live_block pg lf lt b ∧ n = pg_block_size pg.
Definition large_alloc st (b n : Z) : Prop := ∃ base h,
  larges st !! base = Some h ∧ b = base + lh_offset h ∧ n = lh_mmap_size h - lh_offset h.
Definition allocated st (b n : Z) : Prop :=
  small_alloc (bytes (os st)) (pages st) b n ∨ large_alloc st b n.

(** Contents of [n] bytes at [b] are the same in both states. *)
Definition same_bytes st st' (b n : Z) : Prop :=
  ∀ x, b ≤ x < b + n → byte_at (bytes (os st')) x = byte_at (bytes (os st)) x.

(** Steps that are invisible to the client. *)
Definition same_alloc st st' : Prop :=
  (∀ b n, allocated st' b n ↔ allocated st b n) ∧ ∀ b n, allocated st b n → same_bytes st st' b n.

(** The registry, the regions and the kernel's refusals are all that matters. *)
Lemma registry_ok_ext st st' :
  registry_ok st → registry st' = registry st → (∀ b, is_region st' b ↔ is_region st b) →
  calmer (os st) (os st') → registry_ok st'.
Proof.
  intros (X & ? & ? & HX & HL & HC) E Hr Hq. exists X. unfold promised, lists_regions in *. rewrite E.
  split_and!; try done; [intros; apply Hr; auto| |].
  - intros [Hn HL0]%HL. split; [done|]. intros b Hb%Hr. auto.
  - intros [Hn HC0]%Hq%HC. split; [done|]. intros b Hb%Hr. auto.
Qed.

(** Region [b] was unregistered and given back. *)
Lemma registry_drop st st' X b :
  reg_wf (registry st) X → (∀ x, x ∈ X → is_region st x) → promised st X →
  reg_wf (registry st') (X ∖ {[b]}) → (slots (registry st') = None ↔ slots (registry st) = None) →
  reg_room1 (registry st') → (reg_room (registry st) → reg_room (registry st')) →
  (∀ x, is_region st' x ↔ is_region st x ∧ x ≠ b) → calmer (os st) (os st') → registry_ok st'.
Proof.
  intros Hwf HX [HL HC] Hwf' Hs Hroom Hroom' Hr Hq. exists (X ∖ {[b]}).
  assert (∀ x, (∀ y, is_region st y → y ∈ X) → is_region st' x → x ∈ X ∖ {[b]}) as Hin.
  { intros x HX0 [Hx Hne]%Hr. apply elem_of_difference. rewrite elem_of_singleton. auto. }
  split_and!; try done.
  - intros x [Hx Hn%not_elem_of_singleton]%elem_of_difference. apply Hr. auto.
  - split; [intros [Hn HL0]%HL; split; [by rewrite Hs|auto]|intros [Hn HC0]%Hq%HC; auto].
Qed.

(** Region [b] exists and is not registered yet. *)
Definition lists_others st (b : Z) : Prop := ∃ X, reg_wf (registry st) X ∧
  (ledger_complete → slots (registry st) ≠ None ∧ ∀ x, x ≠ b → is_region st x → x ∈ X) ∧
  (kernel_calm st → ∀ x, x ≠ b → is_region st x → x ∈ X).

Lemma registry_others st st' b :
  registry_ok st → registry st' = registry st → (∀ x, is_region st' x ↔ x = b ∨ is_region st x) →
  calmer (os st) (os st') → lists_others st' b.
Proof.
  intros (X & Hwf & _ & _ & HL & HC) E Hr Hq. exists X. rewrite E. split_and!; [done| |].
  - intros [Hn HL0]%HL. split; [done|]. intros x Hx [->|]%Hr; [done|auto].
  - intros [_ HC0]%Hq%HC x Hx [->|]%Hr; [done|auto].
Qed.

Lemma LARGE_OFFSET_eq : LARGE_OFFSET = 32.
Proof. reflexivity. Qed.

Lemma same_alloc_refl st : same_alloc st st.
Proof. done. Qed.

Lemma same_alloc_trans st1 st2 st3 : same_alloc st1 st2 → same_alloc st2 st3 → same_alloc st1 st3.
Proof.
  intros [A1 B1] [A2 B2]. split.
  - intros b n. by rewrite A2, A1.
  - intros b n Hb x Hx. rewrite (B2 b n), (B1 b n); try done. by apply A1.
Qed.

(** Only the page store, the memory and the large headers matter. *)
Lemma same_alloc_view st st' :
  pages st' = pages st → bytes (os st') = bytes (os st) → larges st' = larges st → same_alloc st st'.
Proof.
  intros E1 E2 E3. unfold same_alloc, allocated, large_alloc, same_bytes. rewrite E1, E2, E3. done.
Qed.

(** ** Pages and their memory *)

Lemma page_ok_bytes m m' s i pg lf lt :
  page_ok m s i pg lf lt →
  (∀ x, pg_area pg ≤ x < pg_area pg + PAGE_SIZE → byte_at m' x = byte_at m x) →
  page_ok m' s i pg lf lt.
Proof.
  intros H Hx. assert (∀ l h, (∀ b, b ∈ l → b ∈ carved pg) → chain (bnext m) h l → chain (bnext m') h l) as Hc.
  { intros l h Hl. apply chain_ext. intros b Hb. unfold bnext. f_equal. apply load_ptr_ext.
    intros y Hy. apply Hx. pose proof (carved_in_area _ _ _ _ _ _ b H (Hl b Hb)).
    pose proof (block_size_bounds _ _ _ (po_geom H)). lia. }
  destruct H as [H1 H2 H3 H4 H5 H6 H7]. constructor; try done; apply Hc; try done; set_solver.
Qed.

Lemma page_ok_det m s i pg lf lt lf' lt' :
  page_ok m s i pg lf lt → page_ok m s i pg lf' lt' → lf' = lf ∧ lt' = lt.
Proof.
  intros H H'. split; eapply chain_det; (apply H || apply H').
Qed.

(** The data areas of different pages are disjoint. *)
Lemma areas_apart s i pg s' i' pg' :
  page_geom s i pg → page_geom s' i' pg' → (s, i) ≠ (s', i') →
  pg_area pg + PAGE_SIZE ≤ pg_area pg' ∨ pg_area pg' + PAGE_SIZE ≤ pg_area pg.
Proof.
  intros G G' Hne. rewrite (pq_area G), (pq_area G'). unfold page_area.
  pose proof (pq_idx G). pose proof (pq_idx G'). destruct (pq_seg G) as (_ & Hs & _).
  destruct (pq_seg G') as (_ & Hs' & _). consts.
  apply mod_0_mul in Hs as [q ->]; [|lia]. apply mod_0_mul in Hs' as [q' ->]; [|lia].
  destruct (decide (q = q')) as [->|Hq]; [|lia].
  assert (i ≠ i') by congruence. lia.
Qed.

Lemma area_in_segment s i pg :
  page_geom s i pg → s ≤ pg_area pg ∧ pg_area pg + PAGE_SIZE ≤ s + SEGMENT_SIZE.
Proof.
  intros G. rewrite (pq_area G). unfold page_area. pose proof (pq_idx G). consts. lia.
Qed.

Lemma page_mapped st s i pg :
  mem_ok st → pages st !! PageAt s i = Some pg → page_geom s i pg → area_mapped (os st) pg.
Proof.
  intros H Hpg G a Ha. destruct (mo_segs H s i) as [g Hg]; [eauto|].
  apply (rg_mapped _ _ (mo_regions H) (RSeg s) s SEGMENT_SIZE); [simpl; by rewrite Hg|].
  pose proof (area_in_segment s i pg G). lia.
Qed.

(** A large allocation lies outside every segment. *)
Lemma large_outside st s i pg base h :
  mem_ok st → pages st !! PageAt s i = Some pg → page_geom s i pg → larges st !! base = Some h →
  base + lh_mmap_size h ≤ pg_area pg ∨ pg_area pg + PAGE_SIZE ≤ base.
Proof.
  intros H Hpg G Hh. destruct (mo_segs H s i) as [g Hg]; [eauto|].
  pose proof (area_in_segment s i pg G).
  destruct (rg_disj _ _ (mo_regions H) (RSeg s) (RLarge base) s SEGMENT_SIZE base (lh_mmap_size h));
    simpl; rewrite ?Hg, ?Hh; try done; lia.
Qed.

(** Every allocation is in the data area of its page or in its large region. *)
Lemma allocated_mapped st b n x :
  mem_ok st → allocated st b n → b ≤ x < b + n → mapped (os st) x = true.
Proof.
  intros H [(s & i & pg & lf & lt & Hpg & Hu & Hok & Hl & ->)|(base & h & Hh & -> & ->)] Hx.
  - pose proof (live_in_area _ _ _ _ _ _ _ Hok Hl).
    apply (page_mapped st s i pg H Hpg (po_geom Hok)). lia.
  - apply (rg_mapped _ _ (mo_regions H) (RLarge base) base (lh_mmap_size h)); [simpl; by rewrite Hh|].
    destruct (mo_large H base h Hh). rewrite LARGE_OFFSET_eq in *. lia.
Qed.

Lemma allocated_pos st b n : mem_ok st → allocated st b n → 0 < b ∧ 0 < n.
Proof.
  intros H [(s & i & pg & lf & lt & Hpg & Hu & Hok & Hl & ->)|(base & h & Hh & -> & ->)].
  - pose proof (live_in_area _ _ _ _ _ _ _ Hok Hl). pose proof (area_bounds _ _ _ (po_geom Hok)).
    pose proof (block_size_bounds _ _ _ (po_geom Hok)). lia.
  - destruct (mo_large H base h Hh). rewrite LARGE_OFFSET_eq in *. lia.
Qed.

(** Two allocations that share a byte are the same one. *)
Lemma allocated_disjoint st b n b' n' :
  mem_ok st → allocated st b n → allocated st b' n' →
  (b' = b ∧ n' = n) ∨ b + n ≤ b' ∨ b' + n' ≤ b.
Proof.
  intros H [(s & i & pg & lf & lt & Hpg & Hu & Hok & Hl & ->)|(base & h & Hh & -> & ->)]
    [(s' & i' & pg' & lf' & lt' & Hpg' & Hu' & Hok' & Hl' & ->)|(base' & h' & Hh' & -> & ->)].
  - pose proof (live_in_area _ _ _ _ _ _ _ Hok Hl). pose proof (live_in_area _ _ _ _ _ _ _ Hok' Hl').
    destruct (decide ((s, i) = (s', i'))) as [[= <- <-]|Hne].
    + simplify_eq. destruct (decide (b' = b)) as [->|Hb]; [by left|right].
      apply (carved_apart s i pg); [apply Hok|apply Hl|apply Hl'|done].
    + pose proof (areas_apart _ _ _ _ _ _ (po_geom Hok) (po_geom Hok') Hne). lia.
  - pose proof (live_in_area _ _ _ _ _ _ _ Hok Hl).
    pose proof (large_outside st s i pg base' h' H Hpg (po_geom Hok) Hh').
    destruct (mo_large H base' h' Hh'). rewrite LARGE_OFFSET_eq in *. lia.
  - pose proof (live_in_area _ _ _ _ _ _ _ Hok' Hl').
    pose proof (large_outside st s' i' pg' base h H Hpg' (po_geom Hok') Hh).
    destruct (mo_large H base h Hh). rewrite LARGE_OFFSET_eq in *. lia.
  - destruct (decide (base = base')) as [<-|Hne]; [left; by simplify_eq|right].
    destruct (rg_disj _ _ (mo_regions H) (RLarge base) (RLarge base') base (lh_mmap_size h) base' (lh_mmap_size h'));
      simpl; rewrite ?Hh, ?Hh'; try done; [congruence|..];
      destruct (mo_large H base h Hh), (mo_large H base' h' Hh'); rewrite LARGE_OFFSET_eq in *; lia.
Qed.

(** No address is the base of both kinds of region. *)
Lemma large_not_seg st b h : mem_ok st → larges st !! b = Some h → segs st !! b = None.
Proof.
  intros H Hh. destruct (segs st !! b) as [g|] eqn:E; [|done]. exfalso.
  destruct (rg_shape _ _ (mo_regions H) (RLarge b) b (lh_mmap_size h)) as (S1 & _); [simpl; by rewrite Hh|].
  assert (SEGMENT_SIZE = 4194304) as Es by reflexivity.
  destruct (rg_disj _ _ (mo_regions H) (RSeg b) (RLarge b) b SEGMENT_SIZE b (lh_mmap_size h)); simpl; rewrite ?E, ?Hh; try done; lia.
Qed.

Lemma seg_not_large st b g : mem_ok st → segs st !! b = Some g → larges st !! b = None.
Proof.
  intros H Hg. destruct (larges st !! b) as [h|] eqn:E; [|done]. rewrite (large_not_seg st b h H E) in Hg. done.
Qed.

(** ** Lifting the contract of a page operation *)

(** Bytes of an allocation elsewhere are outside the page. *)
Lemma elsewhere st s i pg lf lt b n x :
  mem_ok st → pages st !! PageAt s i = Some pg → page_ok (bytes (os st)) s i pg lf lt →
  allocated st b n → ¬ live_block pg lf lt b → b ≤ x < b + n →
  ¬ (pg_area pg ≤ x < pg_area pg + PAGE_SIZE).
Proof.
  intros H Hpg Hok Hal Hn Hx.
  destruct Hal as [(s' & i' & pg' & lf' & lt' & Hpg' & Hu & Hok' & Hl & ->)|(base & h & Hh & -> & ->)].
  - pose proof (live_in_area _ _ _ _ _ _ _ Hok' Hl).
    assert ((s, i) ≠ (s', i')) as Hne.
    { intros [= <- <-]. simplify_eq. destruct (page_ok_det _ _ _ _ _ _ _ _ Hok Hok') as [-> ->]. done. }
    pose proof (areas_apart _ _ _ _ _ _ (po_geom Hok) (po_geom Hok') Hne). lia.
  - pose proof (large_outside st s i pg base h H Hpg (po_geom Hok) Hh).
    destruct (mo_large H base h Hh). rewrite LARGE_OFFSET_eq in *. lia.
Qed.

#[global] Instance live_block_dec pg lf lt b : Decision (live_block pg lf lt b).
Proof. unfold live_block. apply _. Defined.

(** A block of a page is allocated with the block size of that page. *)
Lemma live_size st s i pg lf lt b n :
  mem_ok st → pages st !! PageAt s i = Some pg → page_ok (bytes (os st)) s i pg lf lt →
  live_block pg lf lt b → allocated st b n → n = pg_block_size pg.
Proof.
  intros H Hpg Hok Hl. pose proof (live_in_area _ _ _ _ _ _ _ Hok Hl) as Hin.
  pose proof (block_size_bounds _ _ _ (po_geom Hok)) as Hbs.
  intros [(s' & i' & pg' & lf' & lt' & Hpg' & Hu & Hok' & Hl' & ->)|(base & h & Hh & -> & ->)].
  - pose proof (live_in_area _ _ _ _ _ _ _ Hok' Hl'). destruct (decide ((s, i) = (s', i'))) as [[= <- <-]|Hne].
    { by simplify_eq. }
    pose proof (block_size_bounds _ _ _ (po_geom Hok')).
    pose proof (areas_apart _ _ _ _ _ _ (po_geom Hok) (po_geom Hok') Hne). lia.
  - pose proof (large_outside st s i pg base h H Hpg (po_geom Hok) Hh).
    destruct (mo_large H base h Hh). rewrite LARGE_OFFSET_eq in *. lia.
Qed.

(** Pages other than the one at [s], [i] do not see a change inside its area. *)
Lemma page_ok_elsewhere m m' s i pg :
  page_geom s i pg → (∀ x, ¬ (pg_area pg ≤ x < pg_area pg + PAGE_SIZE) → byte_at m' x = byte_at m x) →
  ∀ s1 i1 pg1 lf1 lt1, (s, i) ≠ (s1, i1) → page_geom s1 i1 pg1 →
    page_ok m' s1 i1 pg1 lf1 lt1 ↔ page_ok m s1 i1 pg1 lf1 lt1.
Proof.
  intros G Hout s1 i1 pg1 lf1 lt1 Hne G1. pose proof (areas_apart _ _ _ _ _ _ G G1 Hne) as Hap.
  split; intros Hp; (eapply page_ok_bytes; [done|]); intros x Hx; rewrite Hout; done || lia.
Qed.

(** A block of another page, or a large one, is not a block of this page. *)
Lemma small_elsewhere st s i pg lf lt b s1 i1 pg1 lf1 lt1 :
  page_ok (bytes (os st)) s i pg lf lt → live_block pg lf lt b → (s, i) ≠ (s1, i1) →
  page_ok (bytes (os st)) s1 i1 pg1 lf1 lt1 → ¬ live_block pg1 lf1 lt1 b.
Proof.
  intros Hok Hl Hne Hok1 Hl1. pose proof (live_in_area _ _ _ _ _ _ _ Hok Hl).
  pose proof (live_in_area _ _ _ _ _ _ _ Hok1 Hl1).
  pose proof (areas_apart _ _ _ _ _ _ (po_geom Hok) (po_geom Hok1) Hne).
  pose proof (block_size_bounds _ _ _ (po_geom Hok)). pose proof (block_size_bounds _ _ _ (po_geom Hok1)). lia.
Qed.

Lemma large_elsewhere st s i pg lf lt base h :
  mem_ok st → pages st !! PageAt s i = Some pg → page_ok (bytes (os st)) s i pg lf lt →
  larges st !! base = Some h → ¬ live_block pg lf lt (base + lh_offset h).
Proof.
  intros H Hpg Hok Hh Hl. pose proof (live_in_area _ _ _ _ _ _ _ Hok Hl).
  pose proof (block_size_bounds _ _ _ (po_geom Hok)).
  pose proof (large_outside st s i pg base h H Hpg (po_geom Hok) Hh).
  destruct (mo_large H base h Hh). rewrite LARGE_OFFSET_eq in *. lia.
Qed.

Section moved.
Context (st : State) (s i : Z) (pg : Page) (lf lt : list Z) (L : Z → Prop) (lf' lt' : list Z) (st' : State) (m' : gmap Z Z) (pg' : Page).
Hypothesis (H : mem_ok st) (Hpg : pages st !! PageAt s i = Some pg) (Hu : pg_in_use pg = true).
Hypothesis Hok : page_ok (bytes (os st)) s i pg lf lt.
Hypothesis Hmv : page_moved st (PageAt s i) (bytes (os st)) s i pg lf lt L lf' lt' st' m' pg'.

Lemma moved_mem_ok : mem_ok st'.
Proof.
  destruct Hmv as [-> Hok' Hcore Hres HL Hout Hkeep]. pose proof (page_ok_elsewhere _ _ _ _ _ (po_geom Hok) Hout) as Hother.
  destruct H as [R1 R2 R3 R4 R5 R6]. constructor; try done.
  - eapply regions_ok_same; [|done]. done.
  - intros s1 i1 pg1. simpl. rewrite lookup_insert. case_decide as Ep.
    + intros [= <-] _. injection Ep as <- <-. eauto.
    + intros Hpg1 Hu1. destruct (R3 s1 i1 pg1 Hpg1 Hu1) as (lf1 & lt1 & Hok1).
      exists lf1, lt1. apply Hother; [congruence|apply Hok1|done].
  - intros s1 i1. simpl. rewrite lookup_insert. case_decide as Ep; [|apply R4].
    injection Ep as <- <-. intros _. apply (R4 s i). eauto.
  - by apply (counted_same st).
Qed.

Lemma moved_allocated b n :
  allocated st' b n ↔ (L b ∧ n = pg_block_size pg) ∨ (allocated st b n ∧ ¬ live_block pg lf lt b).
Proof.
  destruct Hmv as [-> Hok' Hcore Hres HL Hout Hkeep]. pose proof (page_ok_elsewhere _ _ _ _ _ (po_geom Hok) Hout) as Hother.
  unfold page_core in Hcore. injection Hcore as E1 E2 E3 E4 E5 E6 E7 E8. unfold allocated at 1. split.
  - intros [(s1 & i1 & pg1 & lf1 & lt1 & Hpg1 & Hu1 & Hok1 & Hl1 & ->)|(base & h & Hh & -> & ->)].
    + simpl in Hpg1, Hok1. rewrite lookup_insert in Hpg1. case_decide as Ep.
      * injection Ep as <- <-. injection Hpg1 as <-. left.
        destruct (page_ok_det _ _ _ _ _ _ _ _ Hok' Hok1) as [-> ->]. split; [by apply HL|done].
      * right. assert ((s, i) ≠ (s1, i1)) as Hne by congruence.
        apply Hother in Hok1; [|done|apply Hok1]. split; [left; by exists s1, i1, pg1, lf1, lt1|].
        intros Hl. by apply (small_elsewhere st s i pg lf lt b s1 i1 pg1 lf1 lt1).
    + right. split; [right; by exists base, h|by eapply large_elsewhere].
  - intros [[Hl ->]|[[(s1 & i1 & pg1 & lf1 & lt1 & Hpg1 & Hu1 & Hok1 & Hl1 & ->)|Hlg] Hn]]; [left..|by right].
    + exists s, i, pg', lf', lt'. split_and!; simpl; try done; [by simplify_map_eq|congruence|by apply HL].
    + destruct (decide ((s, i) = (s1, i1))) as [[= <- <-]|Hne].
      { simplify_eq. destruct (page_ok_det _ _ _ _ _ _ _ _ Hok Hok1) as [-> ->]. done. }
      exists s1, i1, pg1, lf1, lt1. split_and!; try done; simpl.
      * rewrite lookup_insert_ne by congruence. done.
      * apply Hother; [done|apply Hok1|done].
Qed.

Lemma moved_mem :
  mem_ok st' ∧
  (∀ b n, allocated st' b n ↔
     (L b ∧ n = pg_block_size pg) ∨ (allocated st b n ∧ ¬ live_block pg lf lt b)) ∧
  (∀ b n, allocated st b n → (live_block pg lf lt b → L b) → same_bytes st st' b n).
Proof.
  split_and!; [apply moved_mem_ok|apply moved_allocated|].
  destruct Hmv as [-> Hok' Hcore Hres HL Hout Hkeep].
  intros b n Hal Hlive x Hx. simpl. destruct (decide (live_block pg lf lt b)) as [Hl|Hl].
  - apply (Hkeep b); [done|by apply Hlive|]. by rewrite <-(live_size st s i pg lf lt b n).
  - apply Hout. by eapply elsewhere.
Qed.
End moved.

(** The client gains [n] bytes at [b], or gives back the block [p]; everything
    else it holds keeps its place and contents. *)
Definition alloc_plus st st' (b n : Z) : Prop :=
  (∀ n', ¬ allocated st b n') ∧
  (∀ b' n', allocated st' b' n' ↔ (b' = b ∧ n' = n) ∨ allocated st b' n') ∧
  (∀ b' n', allocated st b' n' → same_bytes st st' b' n').
Definition alloc_minus st st' (p : Z) : Prop :=
  (∀ b n, allocated st' b n ↔ allocated st b n ∧ b ≠ p) ∧
  (∀ b n, allocated st b n → b ≠ p → same_bytes st st' b n).

Lemma live_allocated st s i pg lf lt b :
  pages st !! PageAt s i = Some pg → pg_in_use pg = true →
  page_ok (bytes (os st)) s i pg lf lt → live_block pg lf lt b → allocated st b (pg_block_size pg).
Proof. intros. left. by exists s, i, pg, lf, lt. Qed.

Section moved.
Context (st : State) (s i : Z) (pg : Page) (lf lt : list Z).
Hypothesis (Hmem : mem_ok st) (Hpg : pages st !! PageAt s i = Some pg)
  (Hu : pg_in_use pg = true) (Hok : page_ok (bytes (os st)) s i pg lf lt).

Lemma moved_same lf' lt' st' m' pg' :
  page_moved st (PageAt s i) (bytes (os st)) s i pg lf lt (live_block pg lf lt) lf' lt' st' m' pg' →
  mem_ok st' ∧ same_alloc st st'.
Proof.
  intros HM. destruct (moved_mem st s i pg lf lt _ _ _ _ _ _ Hmem Hpg Hu Hok HM) as (H1 & H2 & H3).
  split; [done|]. split; [|eauto]. intros b n. rewrite H2. split.
  - intros [[Hl ->]|[? _]]; [by eapply live_allocated|done].
  - intros Hal. destruct (decide (live_block pg lf lt b)); [left|by right].
    split; [done|]. by eapply (live_size st s i pg lf lt).
Qed.

Lemma moved_plus lf' lt' st' m' pg' b :
  b ∈ lf →
  page_moved st (PageAt s i) (bytes (os st)) s i pg lf lt
    (λ y, y = b ∨ live_block pg lf lt y) lf' lt' st' m' pg' →
  mem_ok st' ∧ alloc_plus st st' b (pg_block_size pg).
Proof.
  intros Hb HM. destruct (moved_mem st s i pg lf lt _ _ _ _ _ _ Hmem Hpg Hu Hok HM) as (H1 & H2 & H3).
  split; [done|]. split_and!; [|intros b' n'; rewrite H2; split|eauto].
  - intros n Hal. pose proof (allocated_pos st b n Hmem Hal).
    assert (b ∈ carved pg) as Hc by (apply (po_blocks Hok); set_solver).
    pose proof (carved_in_area _ _ _ _ _ _ b Hok Hc).
    pose proof (block_size_bounds _ _ _ (po_geom Hok)).
    apply (elsewhere st s i pg lf lt b n b); try done; [|lia..]. unfold live_block. tauto.
  - intros [[[->|Hl] ->]|[? _]]; [by left|right; by eapply live_allocated|by right].
  - intros [[-> ->]|Hal]; [left; auto|].
    destruct (decide (live_block pg lf lt b')); [left|by right].
    split; [auto|]. by eapply (live_size st s i pg lf lt).
Qed.

Lemma moved_minus lf' lt' st' m' pg' p :
  live_block pg lf lt p →
  page_moved st (PageAt s i) (bytes (os st)) s i pg lf lt
    (λ y, y ≠ p ∧ live_block pg lf lt y) lf' lt' st' m' pg' →
  mem_ok st' ∧ alloc_minus st st' p.
Proof.
  intros Hp HM. destruct (moved_mem st s i pg lf lt _ _ _ _ _ _ Hmem Hpg Hu Hok HM) as (H1 & H2 & H3).
  split; [done|]. split; [|eauto]. intros b n. rewrite H2. split.
  - intros [[[? Hl] ->]|[? Hn]]; [split; [by eapply live_allocated|done]|split; [done|by intros ->]].
  - intros [Hal Hne]. destruct (decide (live_block pg lf lt b)); [left|by right].
    split; [done|]. by eapply (live_size st s i pg lf lt).
Qed.
End moved.

(** Changes of the address space that keep every mapped byte are invisible. *)
Lemma os_step_blocks st m' :
  mem_ok st → (∀ x, mapped (os st) x = true → byte_at m' x = byte_at (bytes (os st)) x) →
  ∀ s i pg lf lt, pages st !! PageAt s i = Some pg → page_geom s i pg →
    page_ok m' s i pg lf lt ↔ page_ok (bytes (os st)) s i pg lf lt.
Proof.
  intros H Hb s i pg lf lt Hpg G. pose proof (page_mapped st s i pg H Hpg G) as Hm.
  split; intros Hok; (eapply page_ok_bytes; [done|]); intros x Hx; rewrite Hb; try done; by apply Hm.
Qed.

Lemma os_step_same st st' :
  mem_ok st → pages st' = pages st → larges st' = larges st →
  (∀ x, mapped (os st) x = true → byte_at (bytes (os st')) x = byte_at (bytes (os st)) x) →
  blocks_ok (bytes (os st')) (pages st') ∧ same_alloc st st'.
Proof.
  intros H E1 E2 Hb. pose proof (os_step_blocks st _ H Hb) as Hok. split; [|split].
  - rewrite E1. intros s i pg Hpg Hu. destruct (mo_blocks H s i pg Hpg Hu) as (lf & lt & Hp).
    exists lf, lt. apply Hok; [done|apply Hp|done].
  - intros b n. unfold allocated, large_alloc. rewrite E1, E2. apply or_iff_compat_r.
    unfold small_alloc. split; intros (s & i & pg & lf & lt & Hpg & Hu & Hp & Hr);
      exists s, i, pg, lf, lt; (split_and!; [done|done| |apply Hr..]); apply Hok; (done || apply Hp).
  - intros b n Hal x Hx. apply Hb. by eapply allocated_mapped.
Qed.

(** ** Changing links and owners

    The members of a page that say what it holds. *)
Definition page_view (pg : Page) :=
  (pg_free pg, pg_used pg, pg_capacity pg, pg_reserved pg, pg_block_size pg, pg_size_class pg,
   pg_in_use pg, pg_area pg, pg_thread_free pg).
Definition same_view P P' : Prop := ∀ q, page_view <$> P' !! q = page_view <$> P !! q.

Lemma same_view_refl P : same_view P P.
Proof. done. Qed.
Lemma same_view_trans P1 P2 P3 : same_view P1 P2 → same_view P2 P3 → same_view P1 P3.
Proof. intros H1 H2 q. by rewrite H2. Qed.
Lemma same_view_sym P P' : same_view P P' → same_view P' P.
Proof. intros H q. by rewrite H. Qed.
Lemma same_view_insert P P' q pg pg' :
  same_view P P' → P' !! q = Some pg → page_view pg' = page_view pg → same_view P (<[q := pg']> P').
Proof.
  intros H Hq E x. rewrite lookup_insert. case_decide as Ex; [|done]. subst x.
  rewrite <-H, Hq. simpl. by rewrite E.
Qed.
Lemma same_view_lookup P P' q pg :
  same_view P P' → P !! q = Some pg → ∃ pg', P' !! q = Some pg' ∧ page_view pg' = page_view pg.
Proof.
  intros H Hq. specialize (H q). rewrite Hq in H. destruct (P' !! q) as [p|]; [|done].
  exists p. split; [done|]. by apply (inj Some) in H.
Qed.

Lemma page_ok_view m s i pg pg' lf lt :
  page_view pg' = page_view pg → page_ok m s i pg lf lt → page_ok m s i pg' lf lt.
Proof.
  unfold page_view. intros E H. injection E as E1 E2 E3 E4 E5 E6 E7 E8 E9.
  destruct H as [[G1 G2 G3 G4 G5 G6] H2 H3 H4 H5 H6 H7].
  assert (carved pg' = carved pg) as Hc by (unfold carved; by rewrite E4, E5, E8).
  constructor; [constructor|..]; try congruence.
  intros b Hb. rewrite Hc. auto.
Qed.

Lemma live_block_view pg pg' lf lt b :
  page_view pg' = page_view pg → live_block pg' lf lt b ↔ live_block pg lf lt b.
Proof.
  unfold page_view. intros E. injection E as E1 E2 E3 E4 E5 E6 E7 E8 E9.
  unfold live_block, carved. by rewrite E4, E5, E8.
Qed.

Lemma small_alloc_view m P P' b n : same_view P P' → small_alloc m P b n → small_alloc m P' b n.
Proof.
  intros HP (s & i & pg & lf & lt & Hpg & Hu & Hok & Hl & ->).
  destruct (same_view_lookup _ _ _ _ HP Hpg) as (pg' & Hpg' & E). exists s, i, pg', lf, lt.
  pose proof E as E'. unfold page_view in E'. injection E' as E1 E2 E3 E4 E5 E6 E7 E8 E9.
  split_and!; [done|congruence|by eapply page_ok_view|by eapply live_block_view|congruence].
Qed.

Lemma same_view_mem st st' :
  mem_ok st → same_view (pages st) (pages st') → os st' = os st → registry st' = registry st →
  larges st' = larges st → region_of st' = region_of st →
  (∀ s, is_Some (segs st' !! s) ↔ is_Some (segs st !! s)) → mem_ok st' ∧ same_alloc st st'.
Proof.
  intros [H1 H2 H3 H4 H5 H6] HP E1 E2 E3 E4 Hs. split; [constructor|split].
  - by rewrite E1, E4.
  - apply (registry_ok_ext st); [done..| |by rewrite E1]. intros b. unfold is_region. by rewrite Hs, E3.
  - rewrite E1. intros s i pg Hpg Hu. destruct (same_view_lookup _ _ _ _ (same_view_sym _ _ HP) Hpg) as (pg0 & Hpg0 & E).
    pose proof E as E'. unfold page_view in E'. injection E' as F1 F2 F3 F4 F5 F6 F7 F8 F9.
    destruct (H3 s i pg0 Hpg0 ltac:(congruence)) as (lf & lt & Hok). exists lf, lt. by eapply page_ok_view.
  - intros s i [pg Hpg]. rewrite Hs. destruct (same_view_lookup _ _ _ _ (same_view_sym _ _ HP) Hpg) as (pg0 & Hpg0 & E).
    apply (H4 s i). eauto.
  - by rewrite E3.
  - apply (counted_same st); [done|intros t; by rewrite E4|by rewrite E1..].
  - intros b n. unfold allocated, large_alloc. rewrite E1, E3. apply or_iff_compat_r.
    split; apply small_alloc_view; [by apply same_view_sym|done].
  - intros b n _ x _. by rewrite E1.
Qed.

(** Collecting the cross-thread frees of a page in use, by its owner or by the
    sweep: nothing the client holds changes. *)
Lemma page_collect_mem st s i pg :
  mem_ok st → pages st !! PageAt s i = Some pg → pg_in_use pg = true →
  wp (page_collect (PageAt s i)) (λ _ st', ∃ m' pg', st' = page_state st (PageAt s i) m' pg' ∧
    page_core pg' = page_core pg ∧ pg_thread_free pg' = None ∧ mem_ok st' ∧ same_alloc st st') st.
Proof.
  intros H Hpg Hu. destruct (mo_blocks H s i pg Hpg Hu) as (lf & lt & Hok).
  apply (wp_page_state _ _ st (PageAt s i) pg Hpg).
  eapply wp_mono; [apply (page_collect_moved _ _ _ s i pg lf lt Hok)|].
  { by eapply page_mapped; [| |apply Hok]. }
  intros [] st' (m' & pg' & HM & _). exists m', pg'. destruct HM as [-> Hok' Hcore Hres HL Ho Hk] eqn:E. clear E.
  pose proof (po_tfree Hok') as Ht. apply chain_nil in Ht. split_and!; try done;
    by eapply (moved_same st s i pg lf lt); try done; constructor.
Qed.
End allocated.

(** Forgetting what the ledger holds, and learning it. *)
Lemma mem_ok_unknown {K : Kernel} {Lg : Ledger} (st : State) : mem_ok (Lg:=Lg) st → mem_ok (Lg:=unknown) st.
Proof. intros [H1 (X & ? & ? & ? & _) H3 H4 H5 H6]. constructor; try done. exists X. by split_and!. Qed.

Lemma mem_ok_complete {K : Kernel} {Lg : Ledger} (st : State) :
  mem_ok (Lg:=Lg) st → (∃ X, reg_wf (registry st) X ∧ lists_regions st X) → mem_ok (Lg:=complete) st.
Proof.
  intros [H1 (X & Hwf & ? & ? & _) H3 H4 H5 H6] (X' & Hwf' & HL). constructor; try done.
  rewrite (reg_wf_det _ _ _ Hwf Hwf') in HL. exists X. by split_and!.
Qed.
