(* ===== verification/Central.v ===== *)
(** * The central heap (src/central.h, src/central.cpp)

    The pool of pages that no thread heap holds: every segment keeps the list of
    its free pages, segments with a free page are on a doubly-linked list, pages
    of exited threads that still hold live objects are on the abandoned list,
    and at most one fully free segment stays mapped.  Each operation runs under
    the one central lock, so it is one atomic step. *)
From Stdlib Require Import ZArith Lia.
From stdpp Require Import base numbers list gmap.
From S2P Require Import Prelude Words Constants SizeClass Segment Memory Os Chains Sums RegionRegistry State PageOps.

Definition SEGMENT_CACHE : Z := 1.

Section central.
Context {K : Kernel}.

(** The objects at a segment base come to life with the placement new of
    map_segment and die when the segment is unmapped. *)
Definition new_segment (s : Z) : M State unit :=
  modify (λ st, set_segs (<[s := zero_segment]> (segs st))
    (set_pages (foldr (λ i p, <[PageAt s i := zero_page]> p) (pages st) (seqZ 0 PAGES_PER_SEGMENT)) st)).

Definition in_segment (s : Z) (r : pageref) : bool :=
  match r with PageAt s' _ => s' =? s | EmptyPage => false end.

Definition drop_segment (s : Z) : M State unit :=
  modify (λ st, set_segs (delete s (segs st))
    (set_pages (filter (λ kv, in_segment s kv.1 = false) (pages st)) st)).

Definition avail_push (s : Z) : M State unit :=
  upd_seg s (set_sg_avail_prev None);;
  g ← gets central;
  upd_seg s (set_sg_avail_next (c_avail g));;
  match c_avail g with
  | Some a => upd_seg a (set_sg_avail_prev (Some s))
  | None => mret tt
  end;;
  upd_central (set_c_avail (Some s));;
  upd_seg s (set_sg_in_avail true).

Definition avail_remove (s : Z) : M State unit :=
  sg ← load_seg s;
  match sg_avail_prev sg with
  | Some p => upd_seg p (set_sg_avail_next (sg_avail_next sg))
  | None => upd_central (set_c_avail (sg_avail_next sg))
  end;;
  sg ← load_seg s;
  match sg_avail_next sg with
  | Some n => upd_seg n (set_sg_avail_prev (sg_avail_prev sg))
  | None => mret tt
  end;;
  upd_seg s (set_sg_avail_next None);;
  upd_seg s (set_sg_avail_prev None);;
  upd_seg s (set_sg_in_avail false).

(** [for (p = g.segments; p != nullptr; p = p->next)] of all_remove. *)
Fixpoint all_remove_loop (fuel : nat) (s : Z) (p : option Z) : M State unit :=
  match fuel with
  | O => diverge
  | S f =>
      match p with
      | None => mret tt
      | Some p =>
          pg ← load_seg p;
          if bool_decide (sg_next pg = Some s) then
            sg ← load_seg s;
            upd_seg p (set_sg_next (sg_next sg))
          else all_remove_loop f s (sg_next pg)
      end
  end.

Definition all_remove (s : Z) : M State unit :=
  g ← gets central;
  if bool_decide (c_segments g = Some s) then
    sg ← load_seg s;
    upd_central (set_c_segments (sg_next sg))
  else
    fuel ← gets (λ st, S (base.size (segs st)));
    all_remove_loop fuel s (c_segments g).

Definition pool_return (r : pageref) : M State unit :=
  pg ← load_page r;
  let s := segment_of (pg_area pg) in
  upd_page r (set_pg_in_use false);;
  upd_page r (set_pg_owner None);;
  upd_page r (set_pg_free None);;
  upd_page r (set_pg_block_size 0);;
  upd_page r (set_pg_prev None);;
  sg ← load_seg s;
  let was_empty_segment := sg_free_count sg =? 0 in
  upd_page r (set_pg_next (sg_free_list sg));;
  upd_seg s (set_sg_free_list (Some r));;
  upd_seg s (λ sg, set_sg_free_count (u32 (sg_free_count sg + 1)) sg);;
  upd_central (λ g, set_c_free_page_count (u64 (c_free_page_count g + 1)) g);;
  (if was_empty_segment then avail_push s else mret tt);;
  sg ← load_seg s;
  if sg_free_count sg =? USABLE_PAGES_PER_SEGMENT then
    upd_central (λ g, set_c_free_segments (u64 (c_free_segments g + 1)) g);;
    g ← gets central;
    if SEGMENT_CACHE <? c_free_segments g then
      avail_remove s;;
      all_remove s;;
      upd_central (λ g, set_c_num_segments (u64 (c_num_segments g - 1)) g);;
      upd_central (λ g, set_c_free_segments (u64 (c_free_segments g - 1)) g);;
      upd_central (λ g, set_c_free_page_count (u64 (c_free_page_count g - USABLE_PAGES_PER_SEGMENT)) g);;
      in_registry (region_unregister s);;
      sg ← load_seg s;
      in_os (os_free (Some s) (sg_mmap_size sg));;
      drop_segment s
    else mret tt
  else mret tt.

(** The pointer [Page **pp] of sweep_abandoned: [None] is [&g.abandoned],
    [Some r] is [&r->next]. *)
Definition read_pp (pp : option pageref) : M State (option pageref) :=
  match pp with
  | None => gets (λ st, c_abandoned (central st))
  | Some r => pg ← load_page r; mret (pg_next pg)
  end.
Definition write_pp (pp : option pageref) (v : option pageref) : M State unit :=
  match pp with
  | None => upd_central (set_c_abandoned v)
  | Some r => upd_page r (set_pg_next v)
  end.

Fixpoint sweep_loop (fuel : nat) (pp : option pageref) : M State unit :=
  match fuel with
  | O => diverge
  | S f =>
      cur ← read_pp pp;
      match cur with
      | None => mret tt
      | Some r =>
          collect_locked r;;
          pg ← load_page r;
          if pg_used pg =? 0 then
            write_pp pp (pg_next pg);;
            upd_central (λ g, set_c_abandoned_count (u64 (c_abandoned_count g - 1)) g);;
            pool_return r;;
            sweep_loop f pp
          else sweep_loop f (Some r)
      end
  end.

Definition sweep_abandoned : M State unit :=
  fuel ← gets (λ st, S (base.size (pages st)));
  sweep_loop fuel None.

(** [for (i = FIRST_USABLE_PAGE; i < PAGES_PER_SEGMENT; ++i)] of map_segment,
    with [n] iterations left. *)
Fixpoint map_segment_loop (n : nat) (s i : Z) : M State unit :=
  match n with
  | O => mret tt
  | S n' =>
      let r := PageAt s i in
      upd_page r (set_pg_area (u64 (s + u64 (i * PAGE_SIZE))));;
      upd_page r (set_pg_in_use false);;
      sg ← load_seg s;
      upd_page r (set_pg_next (sg_free_list sg));;
      upd_seg s (set_sg_free_list (Some r));;
      upd_seg s (λ sg, set_sg_free_count (u32 (sg_free_count sg + 1)) sg);;
      map_segment_loop n' s (i + 1)
  end.

Definition map_segment : M State bool :=
  mem ← in_os (os_alloc_aligned SEGMENT_SIZE SEGMENT_SIZE);
  match mem with
  | None => mret false
  | Some s =>
      new_segment s;;
      upd_seg s (set_sg_kind Small);;
      upd_seg s (set_sg_page_count (u32 PAGES_PER_SEGMENT));;
      upd_seg s (set_sg_mmap_size SEGMENT_SIZE);;
      upd_seg s (set_sg_free_list None);;
      upd_seg s (set_sg_free_count 0);;
      map_segment_loop (Z.to_nat (PAGES_PER_SEGMENT - FIRST_USABLE_PAGE)) s FIRST_USABLE_PAGE;;
      sg ← load_seg s;
      upd_central (λ g, set_c_free_page_count (u64 (c_free_page_count g + sg_free_count sg)) g);;
      g ← gets central;
      upd_seg s (set_sg_next (c_segments g));;
      upd_central (set_c_segments (Some s));;
      upd_central (λ g, set_c_num_segments (u64 (c_num_segments g + 1)) g);;
      upd_central (λ g, set_c_free_segments (u64 (c_free_segments g + 1)) g);;
      avail_push s;;
      in_registry (region_register s);;
      mret true
  end.

(** The part of central_acquire_page after a segment with a free page exists. *)
Definition acquire_from (owner : heapref) (cls block_size : Z) : M State (option pageref) :=
  g ← gets central;
  s ← deref (c_avail g);
  sg ← load_seg s;
  (if sg_free_count sg =? USABLE_PAGES_PER_SEGMENT
   then upd_central (λ g, set_c_free_segments (u64 (c_free_segments g - 1)) g) else mret tt);;
  r ← deref (sg_free_list sg);
  pg ← load_page r;
  upd_seg s (set_sg_free_list (pg_next pg));;
  upd_seg s (λ sg, set_sg_free_count (u32 (sg_free_count sg - 1)) sg);;
  upd_central (λ g, set_c_free_page_count (u64 (c_free_page_count g - 1)) g);;
  sg ← load_seg s;
  (if sg_free_count sg =? 0 then avail_remove s else mret tt);;
  upd_central (λ g, set_c_pages_in_use (u64 (c_pages_in_use g + 1)) g);;
  upd_page r (set_pg_free None);;
  upd_page r (set_pg_used 0);;
  (if block_size =? 0 then fault else mret tt);;
  upd_page r (set_pg_capacity (u32 (PAGE_SIZE / block_size)));;
  upd_page r (set_pg_reserved 0);;
  upd_page r (set_pg_block_size block_size);;
  upd_page r (set_pg_size_class cls);;
  upd_page r (set_pg_in_use true);;
  upd_page r (set_pg_owner (Some owner));;
  upd_page r (set_pg_next None);;
  upd_page r (set_pg_prev None);;
  upd_page r (set_pg_thread_free None);;
  mret (Some r).

(** Reclaim abandoned pages, then map a segment, if no segment has a free
    page; [false] is the early return of [nullptr]. *)
Definition ensure_avail : M State bool :=
  g ← gets central;
  if bool_decide (c_avail g = None) then
    sweep_abandoned;;
    g ← gets central;
    if bool_decide (c_avail g = None) then map_segment else mret true
  else mret true.

Definition central_acquire_page (owner : heapref) (cls block_size : Z) : M State (option pageref) :=
  ok ← ensure_avail;
  if (ok : bool) then acquire_from owner cls block_size else mret None.

Definition central_release_page (r : pageref) : M State unit :=
  upd_central (λ g, set_c_pages_in_use (u64 (c_pages_in_use g - 1)) g);;
  pool_return r.

Definition central_abandon_page (r : pageref) : M State unit :=
  upd_page r (set_pg_owner (Some ABANDONED_OWNER));;
  upd_page r (set_pg_prev None);;
  g ← gets central;
  upd_page r (set_pg_next (c_abandoned g));;
  upd_central (set_c_abandoned (Some r));;
  upd_central (λ g, set_c_abandoned_count (u64 (c_abandoned_count g + 1)) g);;
  upd_central (λ g, set_c_pages_in_use (u64 (c_pages_in_use g - 1)) g).

Record CentralStats := mkCentralStats {
  cs_segments : Z; cs_pages_in_use : Z; cs_free_pages : Z
}.
Definition central_stats : M State CentralStats :=
  gets (λ st, let g := central st in
    mkCentralStats (c_num_segments g) (c_pages_in_use g) (c_free_page_count g)).
End central.
