(* ===== verification/CentralInv.v ===== *)
(** * The invariant of the central heap

    What the lists and counters of central.cpp mean: every list is described by
    the objects that must be on it, every counter by a sum over the objects.
    [central_core] is everything but the list of available segments, which
    [avail_ok] describes; a page between two lists is excluded by the index [X],
    and [d] is the number of fully free segments not yet counted. *)
From Stdlib Require Import ZArith Lia.
From stdpp Require Import base numbers list gmap.
From S2P Require Import Prelude Words Constants SizeClass Segment Memory Os Chains Sums RegionRegistry State PageOps Central.

Implicit Types (S : gmap Z Segment) (P : gmap pageref Page) (c : CentralState)
  (r : pageref) (X : option pageref).

(** ** The links of the lists *)

Definition sg_nxt S (s : Z) : option (option Z) := sg_next <$> S !! s.
Definition sg_links S (s : Z) : option (option Z * option Z) :=
  (λ g, (sg_avail_prev g, sg_avail_next g)) <$> S !! s.
Definition pg_nxt P r : option (option pageref) := pg_next <$> P !! r.

(** The pages in the pool of segment [s]. *)
Definition free_page P (s : Z) r : Prop :=
  ∃ i pg, r = PageAt s i ∧ FIRST_USABLE_PAGE ≤ i < PAGES_PER_SEGMENT ∧
    P !! r = Some pg ∧ pg_in_use pg = false.

Record segment_ok P (s : Z) (g : Segment) : Prop := {
  so_base : seg_base s;
  so_kind : sg_kind g = Small;
  so_mmap : sg_mmap_size g = SEGMENT_SIZE;
  so_free : ∃ L, chain (pg_nxt P) (sg_free_list g) L ∧ (∀ r, r ∈ L ↔ free_page P s r) ∧
    sg_free_count g = Z.of_nat (length L)
}.
Arguments so_base {P s g} _.
Arguments so_kind {P s g} _.
Arguments so_mmap {P s g} _.
Arguments so_free {P s g} _.

Record pages_ok S P : Prop := {
  pk_dom s i : is_Some (P !! PageAt s i) ↔ is_Some (S !! s) ∧ 0 ≤ i < PAGES_PER_SEGMENT;
  pk_empty : P !! EmptyPage = Some zero_page;
  pk_area s i pg : P !! PageAt s i = Some pg → FIRST_USABLE_PAGE ≤ i → pg_area pg = page_area s i;
  pk_header s i pg : P !! PageAt s i = Some pg → i < FIRST_USABLE_PAGE → pg_in_use pg = false;
  pk_owner r pg : P !! r = Some pg → pg_in_use pg = true → is_Some (pg_owner pg)
}.

(** Pages a live heap owns, and pages of exited threads. *)
Definition owned_by_heap X r (pg : Page) : bool :=
  pg_in_use pg && bool_decide (X ≠ Some r) &&
  match pg_owner pg with Some (HeapAt _) => true | _ => false end.
Definition is_abandoned X r (pg : Page) : bool :=
  pg_in_use pg && bool_decide (X ≠ Some r) && bool_decide (pg_owner pg = Some ABANDONED_OWNER).

Definition count (b : bool) : Z := if b then 1 else 0.
Definition full_free (g : Segment) : Z := count (sg_free_count g =? USABLE_PAGES_PER_SEGMENT).

Definition aband_list X P (h : option pageref) (L : list pageref) : Prop :=
  chain (pg_nxt P) h L ∧ ∀ r, r ∈ L ↔ ∃ pg, P !! r = Some pg ∧ is_abandoned X r pg = true.

Record central_core X (d : Z) S P c : Prop := {
  co_segs : ∃ L, chain (sg_nxt S) (c_segments c) L ∧ (∀ s, s ∈ L ↔ is_Some (S !! s));
  co_seg s g : S !! s = Some g → segment_ok P s g;
  co_pages : pages_ok S P;
  co_aband : ∃ L, aband_list X P (c_abandoned c) L ∧ c_abandoned_count c = u64 (Z.of_nat (length L));
  co_nsegs : c_num_segments c = u64 (msum (λ _ _, 1) S);
  co_fpages : c_free_page_count c = u64 (msum (λ _, sg_free_count) S);
  co_fsegs : c_free_segments c = msum (λ _, full_free) S - d;
  co_cache : c_free_segments c ≤ SEGMENT_CACHE;
  co_inuse : c_pages_in_use c = u64 (msum (λ r pg, count (owned_by_heap X r pg)) P)
}.
Arguments co_segs {X d S P c} _.
Arguments co_seg {X d S P c} _ s g.
Arguments co_pages {X d S P c} _.
Arguments co_aband {X d S P c} _.
Arguments co_nsegs {X d S P c} _.
Arguments co_fpages {X d S P c} _.
Arguments co_fsegs {X d S P c} _.
Arguments co_cache {X d S P c} _.
Arguments co_inuse {X d S P c} _.

(** The list of segments with a free page, and the flag of each segment. *)
Definition has_free S (s : Z) : Prop := ∃ g, S !! s = Some g ∧ sg_free_count g ≠ 0.
Definition avail_list S (h : option Z) (L : list Z) : Prop :=
  dchain (sg_links S) None h L ∧ ∀ s g, S !! s = Some g → sg_in_avail g = bool_decide (s ∈ L).
Definition avail_ok S (h : option Z) : Prop :=
  ∃ L, avail_list S h L ∧ ∀ s, s ∈ L ↔ has_free S s.

(** ** Facts about the pool of one segment *)

Lemma free_list_bound P s g L :
  chain (pg_nxt P) (sg_free_list g) L → (∀ r, r ∈ L ↔ free_page P s r) →
  Z.of_nat (length L) ≤ USABLE_PAGES_PER_SEGMENT.
Proof.
  intros Hc Hm. assert (L ⊆+ PageAt s <$> seqZ FIRST_USABLE_PAGE USABLE_PAGES_PER_SEGMENT) as Hs.
  { apply NoDup_submseteq; [by eapply chain_NoDup|]. intros r Hr. apply Hm in Hr as (i & pg & -> & Hi & _).
    apply list_elem_of_fmap. exists i. split; [done|]. apply elem_of_seqZ.
    unfold USABLE_PAGES_PER_SEGMENT. lia. }
  apply submseteq_length in Hs. rewrite length_fmap, length_seqZ in Hs.
  unfold USABLE_PAGES_PER_SEGMENT in *. consts. lia.
Qed.

Lemma free_count_range P s g : segment_ok P s g → 0 ≤ sg_free_count g ≤ USABLE_PAGES_PER_SEGMENT.
Proof.
  intros H. destruct (so_free H) as (L & Hc & Hm & ->). pose proof (free_list_bound P s g L Hc Hm). lia.
Qed.

(** A page in use is missing from the pool, which is then not full. *)
Lemma free_count_missing P s g i pg :
  segment_ok P s g → FIRST_USABLE_PAGE ≤ i < PAGES_PER_SEGMENT →
  P !! PageAt s i = Some pg → pg_in_use pg = true → sg_free_count g < USABLE_PAGES_PER_SEGMENT.
Proof.
  intros H Hi Hpg Hu. destruct (so_free H) as (L & Hc & Hm & ->).
  assert (PageAt s i ∉ L) as Hn. { intros (j & pg' & [= ->] & _ & Hpg' & ?)%Hm. congruence. }
  assert (PageAt s i :: L ⊆+ PageAt s <$> seqZ FIRST_USABLE_PAGE USABLE_PAGES_PER_SEGMENT) as Hs.
  { apply NoDup_submseteq; [apply NoDup_cons; split; [done|by eapply chain_NoDup]|].
    intros r [->|Hr]%elem_of_cons.
    - apply list_elem_of_fmap. exists i. split; [done|]. apply elem_of_seqZ.
      unfold USABLE_PAGES_PER_SEGMENT. lia.
    - apply Hm in Hr as (j & ? & -> & Hj & _). apply list_elem_of_fmap. exists j.
      split; [done|]. apply elem_of_seqZ. unfold USABLE_PAGES_PER_SEGMENT. lia. }
  apply submseteq_length in Hs. rewrite length_fmap, length_seqZ in Hs. simpl in Hs.
  unfold USABLE_PAGES_PER_SEGMENT in *. consts. lia.
Qed.

(** When every usable page is in the pool, no page of the segment is in use. *)
Lemma full_segment_idle S P s g i pg :
  pages_ok S P → segment_ok P s g → sg_free_count g = USABLE_PAGES_PER_SEGMENT →
  P !! PageAt s i = Some pg → pg_in_use pg = false.
Proof.
  intros HP H Hf Hpg. destruct (pg_in_use pg) eqn:E; [|done]. exfalso.
  assert (is_Some (P !! PageAt s i)) as [_ Hi]%(pk_dom _ _ HP) by eauto.
  destruct (decide (i < FIRST_USABLE_PAGE)) as [Hlt|Hge].
  { rewrite (pk_header _ _ HP s i pg Hpg Hlt) in E. done. }
  pose proof (free_count_missing P s g i pg H ltac:(lia) Hpg E). lia.
Qed.

(** The pool list survives changes to pages that are not in it. *)
Lemma segment_ok_frame P P' s g :
  segment_ok P s g → (∀ r, free_page P s r → pg_nxt P' r = pg_nxt P r) →
  (∀ r, free_page P' s r ↔ free_page P s r) → segment_ok P' s g.
Proof.
  intros [H1 H2 H3 (L & Hc & Hm & Hn)] Hx Hf. constructor; try done. exists L. split_and!; [|by setoid_rewrite Hf|done].
  eapply chain_ext; [|done]. intros r Hr. by apply Hx, Hm.
Qed.
