(* ===== verification/CentralSpec.v ===== *)
(** * The operations of the central heap keep its invariant *)
From Stdlib Require Import ZArith Lia.
From stdpp Require Import base numbers list gmap.
From S2P Require Import Prelude Words Constants SizeClass Segment Memory Os Chains Sums RegionRegistry State PageOps Central CentralInv.

Implicit Types (S : gmap Z Segment) (P : gmap pageref Page) (c : CentralState)
  (r : pageref) (X : option pageref).

(** Symbolic execution: lookups in updated stores are solved by [simplify_map_eq]. *)
Ltac lk := simpl; first [eassumption | by simplify_map_eq | by rewrite ?lookup_insert_eq, ?lookup_insert_ne].
Ltac st_step :=
  lazymatch goal with
  | |- wp (mbind _ _) _ _ => apply wp_bind
  | |- wp (mret _) _ _ => apply wp_ret
  | |- wp (gets _) _ _ => apply wp_gets
  | |- wp (modify _) _ _ => apply wp_modify
  | |- wp (upd_central _) _ _ => apply wp_upd_central
  | |- wp (load_page _) _ _ => eapply wp_load_page; [lk|]
  | |- wp (upd_page _ _) _ _ => eapply wp_upd_page; [lk|]
  | |- wp (load_seg _) _ _ => eapply wp_load_seg; [lk|]
  | |- wp (upd_seg _ _) _ _ => eapply wp_upd_seg; [lk|]
  | |- wp (load_heap _) _ _ => eapply wp_load_heap; [lk|]
  | |- wp (upd_heap _ _) _ _ => eapply wp_upd_heap; [lk|]
  end; cbv beta.
Ltac st_steps := repeat st_step.

(** The members of a segment header the list of available segments does not
    use, and those the list of all segments does not use. *)
Definition seg_rest (g : Segment) :=
  (sg_kind g, sg_page_count g, sg_mmap_size g, sg_next g, sg_free_list g, sg_free_count g).
Definition seg_unlinked (g : Segment) :=
  (sg_kind g, sg_page_count g, sg_mmap_size g, sg_free_list g, sg_free_count g,
   (sg_avail_prev g, sg_avail_next g, sg_in_avail g)).
Definition same_on {A} (f : Segment → A) S S' : Prop := ∀ s, f <$> S' !! s = f <$> S !! s.

Section lists.
Context {K : Kernel}.
Implicit Types (st : State).

Lemma same_on_lookup {A} (f : Segment → A) S S' s g :
  same_on f S S' → S !! s = Some g → ∃ g', S' !! s = Some g' ∧ f g' = f g.
Proof. intros H Hg. specialize (H s). rewrite Hg in H. destruct (S' !! s); simplify_eq/=. eauto. Qed.

Lemma same_on_sym {A} (f : Segment → A) S S' : same_on f S S' → same_on f S' S.
Proof. intros H s. by rewrite H. Qed.

Lemma same_on_insert {A} (f : Segment → A) S S1 s g g' :
  same_on f S S1 → S1 !! s = Some g → f g' = f g → same_on f S (<[s := g']> S1).
Proof.
  intros H Hg Hf x. rewrite lookup_insert. case_decide as E; [|apply H].
  subst x. rewrite <-H, Hg. simpl. by rewrite Hf.
Qed.

Lemma avail_push_spec st s g L (Q : unit → State → Prop) :
  segs st !! s = Some g → avail_list (segs st) (c_avail (central st)) L → s ∉ L →
  (∀ S', same_on seg_rest (segs st) S' → avail_list S' (Some s) (s :: L) →
     Q tt (set_segs S' (set_central (set_c_avail (Some s) (central st)) st))) →
  wp (avail_push s) Q st.
Proof.
  intros Hs [Hd Hfl] Hn HQ. unfold avail_push. do 5 st_step. cbn [central set_segs c_avail].
  destruct (c_avail (central st)) as [a|] eqn:Ea.
  - pose proof (dchain_some _ _ _ _ Hd) as (n & L' & -> & Hln & _).
    unfold sg_links in Hln. destruct (segs st !! a) as [ga|] eqn:Hga; simplify_eq/=.
    assert (a ≠ s) as Hne by (intros ->; apply Hn; left).
    st_steps. apply HQ.
    + repeat first [apply same_on_insert with (2 := Hs) | eapply same_on_insert]; try lk; done.
    + split.
      * apply (dchain_push (sg_links (segs st)) _ (Some a) (a :: L')); [done| | |].
        -- unfold sg_links. simpl. by simplify_map_eq.
        -- intros x Hx Hxa. unfold sg_links. simpl.
           assert (x ≠ s) by (intros ->; done). assert (x ≠ a) by congruence. by simplify_map_eq.
        -- intros x b [= <-] Hx. unfold sg_links in *. simpl. rewrite Hga in Hx. by simplify_map_eq.
      * intros x gx. simpl. intros Hx. destruct (decide (x = s)) as [->|Hxs].
        { simplify_map_eq. by rewrite bool_decide_true by left. }
        assert (∀ b, bool_decide (x ∈ b) = bool_decide (x ∈ s :: b)) as Hb.
        { intros b. apply bool_decide_ext. rewrite elem_of_cons. naive_solver. }
        rewrite <-Hb. destruct (decide (x = a)) as [->|Hxa]; simplify_map_eq; by rewrite <-Hfl with (1 := Hga) || eauto.
  - destruct L as [|? ?]; [|by destruct Hd].
    st_steps. apply HQ.
    + repeat first [apply same_on_insert with (2 := Hs) | eapply same_on_insert]; try lk; done.
    + split.
      * split; [done|]. exists None. split; [|done]. unfold sg_links. simpl. by simplify_map_eq.
      * intros x gx. simpl. intros Hx. destruct (decide (x = s)) as [->|Hxs]; simplify_map_eq.
        { by rewrite bool_decide_true by left. }
        rewrite (Hfl _ _ Hx). symmetry. apply bool_decide_false.
        intros ->%list_elem_of_singleton. done.
Qed.

(** The neighbours of a listed segment are other segments. *)
Lemma avail_neighbours S h L s g :
  avail_list S h L → s ∈ L → S !! s = Some g →
  (∀ p, sg_avail_prev g = Some p → p ≠ s ∧ is_Some (S !! p)) ∧
  (∀ n, sg_avail_next g = Some n → n ≠ s ∧ is_Some (S !! n)) ∧
  (sg_avail_prev g = None ↔ h = Some s).
Proof.
  intros [Hd _] Hin Hs.
  assert (sg_links S s = Some (sg_avail_prev g, sg_avail_next g)) as Hl
    by (unfold sg_links; by rewrite Hs).
  assert (∀ x y, sg_links S x = Some y → is_Some (S !! x)) as Hsome.
  { unfold sg_links. intros x y. destruct (S !! x); [eauto|done]. }
  split_and!.
  - intros p Ep. rewrite Ep in Hl.
    destruct (dchain_prev_next _ _ _ _ _ _ _ Hd Hin Hl) as [[? _]|(Hp & a & Ha)]; [done|].
    split; [|eauto]. intros ->. by eapply dchain_prev_self.
  - intros n En. rewrite En in Hl.
    destruct (dchain_next_prev _ _ _ _ _ _ _ Hd Hin Hl) as (Hp & a & Ha).
    split; [|eauto]. intros ->. by eapply dchain_next_self.
  - split.
    + intros En. rewrite En in Hl. by eapply dchain_prev_none.
    + intros ->. apply dchain_some in Hd as (n & L' & -> & Hln & _). congruence.
Qed.

(** Unlinking segment [s] from both neighbours. *)
Lemma avail_list_remove S S' h L1 s L2 g :
  avail_list S h (L1 ++ s :: L2) → S !! s = Some g → same_on seg_rest S S' →
  (∀ x gx, x ≠ s → S !! x = Some gx → ∃ gx', S' !! x = Some gx' ∧
    sg_avail_prev gx' = (if decide (sg_avail_next g = Some x) then sg_avail_prev g else sg_avail_prev gx) ∧
    sg_avail_next gx' = (if decide (sg_avail_prev g = Some x) then sg_avail_next g else sg_avail_next gx) ∧
    sg_in_avail gx' = sg_in_avail gx) →
  (∃ g', S' !! s = Some g' ∧ sg_in_avail g' = false) →
  avail_list S' (if decide (h = Some s) then sg_avail_next g else h) (L1 ++ L2).
Proof.
  intros [Hd Hfl] Hs Hrest HS' (g' & Hg' & Hf').
  pose proof (dchain_NoDup _ _ _ _ Hd) as Hnd. assert (s ∈ L1 ++ s :: L2) as Hin by set_solver.
  assert (sg_links S s = Some (sg_avail_prev g, sg_avail_next g)) as Hl
    by (unfold sg_links; by rewrite Hs).
  assert (∀ x, x ∈ L1 ++ L2 → x ≠ s ∧ x ∈ L1 ++ s :: L2) as Hother.
  { intros x Hx. split; [|set_solver]. intros ->. rewrite Permutation_app_comm in Hnd. simpl in Hnd.
    apply NoDup_cons in Hnd as [Hn _]. set_solver. }
  split.
  - apply (dchain_remove (sg_links S) (sg_links S') None _ L1 s L2 (sg_avail_prev g) (sg_avail_next g)); try done.
    intros x Hx. destruct (Hother x Hx) as [Hxs Hxin].
    destruct (dchain_lookup _ _ _ _ _ Hd Hxin) as [[pa nb] Hlx]. rewrite Hlx. simpl.
    rewrite (relink_neighbours _ _ _ _ _ _ _ _ _ Hd Hin Hl Hxin Hlx).
    unfold sg_links in *. destruct (S !! x) as [gx|] eqn:Hgx; simplify_eq/=.
    destruct (HS' x gx Hxs Hgx) as (gx' & Hgx' & H1 & H2 & _). rewrite Hgx'. simpl. by rewrite H1, H2.
  - intros x gx Hgx. destruct (decide (x = s)) as [->|Hxs].
    + assert (gx = g') as -> by congruence. rewrite Hf'. symmetry. apply bool_decide_false.
      intros [? _]%Hother. done.
    + destruct (same_on_lookup _ _ _ _ _ (same_on_sym _ _ _ Hrest) Hgx) as (gx0 & Hgx0 & _).
      destruct (HS' x gx0 Hxs Hgx0) as (gx' & Hgx' & _ & _ & Hf). assert (gx' = gx) as -> by congruence.
      rewrite Hf, (Hfl x gx0 Hgx0). apply bool_decide_ext. set_solver.
Qed.

(** Case analysis on the neighbours of an unlinked segment. *)
Ltac av_case x y := destruct (decide (x = y)); [subst|].
Ltac av_end := simplify_map_eq; eexists; split; [lk|];
  repeat case_decide; simplify_eq; done.

Lemma set_c_avail_id st : set_central (set_c_avail (c_avail (central st)) (central st)) st = st.
Proof. by destruct st as [? ? ? ? [] ? ? ? ? ? ?]. Qed.

Lemma avail_remove_spec st s g L1 L2 (Q : unit → State → Prop) :
  segs st !! s = Some g → avail_list (segs st) (c_avail (central st)) (L1 ++ s :: L2) →
  (∀ S' h', same_on seg_rest (segs st) S' → avail_list S' h' (L1 ++ L2) →
     Q tt (set_segs S' (set_central (set_c_avail h' (central st)) st))) →
  wp (avail_remove s) Q st.
Proof.
  intros Hs Hav HQ. unfold avail_remove. do 2 st_step. apply wp_bind.
  destruct (avail_neighbours _ _ _ s g Hav ltac:(set_solver) Hs) as (Hpv & Hnx & Hh).
  pose proof (λ S' HR HS' Hg', avail_list_remove (segs st) S' _ L1 s L2 g Hav Hs HR HS' Hg') as Hfin.
  remember (sg_avail_next g) as nx eqn:Enx. remember (sg_avail_prev g) as pv eqn:Epv.
  assert (∀ S2, same_on seg_rest (segs st) S2 →
    (∀ x gx, x ≠ s → segs st !! x = Some gx → ∃ gx', S2 !! x = Some gx' ∧
       sg_avail_prev gx' = (if decide (nx = Some x) then pv else sg_avail_prev gx) ∧
       sg_avail_next gx' = (if decide (pv = Some x) then nx else sg_avail_next gx) ∧
       sg_in_avail gx' = sg_in_avail gx) → S2 !! s = Some g →
    wp (upd_seg s (set_sg_avail_next None);; upd_seg s (set_sg_avail_prev None);;
        upd_seg s (set_sg_in_avail false)) Q
      (set_segs S2 (set_central (set_c_avail (if decide (c_avail (central st) = Some s) then nx
         else c_avail (central st)) (central st)) st))) as Hend.
  { intros S2 HR HS2 Hg2. st_steps. apply HQ.
    - repeat eapply same_on_insert; try lk; done.
    - apply Hfin.
      + repeat eapply same_on_insert; try lk; done.
      + intros x gx Hx Hgx. destruct (HS2 x gx Hx Hgx) as (gx' & ? & ?). exists gx'. split; [lk|done].
      + eexists. split; [lk|done]. }
  clear Hfin HQ.
  destruct pv as [p|]; [|assert (c_avail (central st) = Some s) as Hhd by by apply Hh].
  - destruct (Hpv p eq_refl) as [Hps [gp Hgp]]. st_steps. rewrite <-Enx.
    rewrite decide_False in Hend by (intros E; by apply Hh in E). rewrite set_c_avail_id in Hend.
    destruct nx as [n|].
    + destruct (Hnx n eq_refl) as [Hns [gn Hgn]].
      destruct (decide (p = n)) as [->|Hpn]; simplify_eq; (eapply wp_upd_seg; [lk|]);
        rewrite <-?Epv; apply Hend; [repeat eapply same_on_insert; try lk; done|
          intros x gx Hx Hgx; av_case x n; av_end|lk|
          repeat eapply same_on_insert; try lk; done|
          intros x gx Hx Hgx; av_case x n; [|av_case x p]; av_end|lk].
    + apply wp_ret, Hend; [repeat eapply same_on_insert; try lk; done|
        intros x gx Hx Hgx; av_case x p; av_end|lk].
  - st_steps. rewrite <-Enx, <-Epv. rewrite decide_True in Hend by done. destruct nx as [n|].
    + destruct (Hnx n eq_refl) as [Hns [gn Hgn]].
      eapply wp_upd_seg; [lk|]. apply Hend; [repeat eapply same_on_insert; try lk; done|
        intros x gx Hx Hgx; av_case x n; av_end|lk].
    + apply wp_ret, Hend; [done| |done]. intros x gx Hx Hgx. exists gx.
      repeat case_decide; simplify_eq; done.
Qed.

(** The walk of all_remove stops at the predecessor of [s]. *)
Lemma all_remove_loop_spec st s g fuel A B p L2 h (Q : unit → State → Prop) :
  segs st !! s = Some g → chain (sg_nxt (segs st)) h (A ++ (p :: B) ++ s :: L2) →
  (length B < fuel)%nat →
  (∀ S', same_on seg_unlinked (segs st) S' → chain (sg_nxt S') h (A ++ (p :: B) ++ L2) →
     Q tt (set_segs S' st)) →
  wp (all_remove_loop fuel s (Some p)) Q st.
Proof.
  intros Hs. revert A B p. induction fuel as [|fuel IH]; intros A B p Hc Hf HQ; [lia|].
  cbn [all_remove_loop]. apply wp_bind. pose proof (chain_NoDup _ _ _ Hc) as Hnd.
  pose proof Hc as Hc'. unfold chain in Hc'. apply cseg_app in Hc' as (m & _ & -> & (n & Hn & Hc')).
  unfold sg_nxt in Hn. destruct (segs st !! p) as [gp|] eqn:Hgp; simplify_eq/=.
  eapply wp_load_seg; [done|]. destruct B as [|q B].
  - destruct Hc' as [En (n & Hn & _)]. rewrite bool_decide_true by done. st_steps.
    unfold sg_nxt in Hn. rewrite Hs in Hn. simplify_eq/=.
    assert (p ≠ s) as Hps by (intros ->; apply NoDup_app in Hnd as (_ & _ & Hnd); apply NoDup_cons in Hnd; set_solver).
    apply HQ.
    + eapply same_on_insert; [done|lk|done].
    + eapply (chain_unlink (sg_nxt (segs st))) with (n := sg_next g); [done| | |].
      * intros x Hx. unfold sg_nxt. rewrite lookup_insert_ne; [done|]. intros <-.
        rewrite Permutation_app_comm in Hnd. simpl in Hnd. apply NoDup_cons in Hnd as [Hnd _]. set_solver.
      * unfold sg_nxt. by rewrite Hs.
      * unfold sg_nxt. by simplify_map_eq.
  - destruct Hc' as [En _]. assert (q ≠ s) as Hqs.
    { intros ->. apply NoDup_app in Hnd as (_ & _ & Hnd). simpl in Hnd.
      apply NoDup_cons in Hnd as [_ Hnd]. apply NoDup_cons in Hnd as [Hnd _]. set_solver. }
    rewrite bool_decide_false by congruence. rewrite En.
    apply (IH (A ++ [p]) B q); [by rewrite <-app_assoc|simpl in Hf; lia|].
    intros S' HS' Hch. apply HQ; [done|]. by rewrite <-app_assoc in Hch.
Qed.

Lemma all_remove_spec st s g L1 L2 (Q : unit → State → Prop) :
  segs st !! s = Some g → chain (sg_nxt (segs st)) (c_segments (central st)) (L1 ++ s :: L2) →
  (∀ S' h', same_on seg_unlinked (segs st) S' → chain (sg_nxt S') h' (L1 ++ L2) →
     Q tt (set_segs S' (set_central (set_c_segments h' (central st)) st))) →
  wp (all_remove s) Q st.
Proof.
  intros Hs Hc HQ. unfold all_remove. apply wp_bind, wp_gets. pose proof (chain_NoDup _ _ _ Hc) as Hnd.
  destruct L1 as [|p B].
  - destruct Hc as [-> (n & Hn & Hc)]. rewrite bool_decide_true by done. st_steps.
    unfold sg_nxt in Hn. rewrite Hs in Hn. simplify_eq/=.
    replace (set_central _ st) with (set_segs (segs st) (set_central (set_c_segments (sg_next g) (central st)) st))
      by by destruct st. by apply HQ.
  - pose proof Hc as [E _]. rewrite E. rewrite bool_decide_false.
    2: { intros [= ->]. simpl in Hnd. apply NoDup_cons in Hnd. set_solver. }
    apply wp_bind, wp_gets. apply (all_remove_loop_spec st s g _ [] B p L2 (Some p)); [done|by rewrite <-E| |].
    + assert (length ((p :: B) ++ s :: L2) ≤ base.size (segs st))%nat as Hlen.
      { apply list_length_size; [done|]. intros x Hx. unfold chain in Hc.
        apply list_elem_of_split in Hx as (l1 & l2 & Hx). rewrite Hx in Hc.
        apply cseg_app in Hc as (m & _ & _ & (n & Hn & _)). unfold sg_nxt in Hn.
        destruct (segs st !! x); [eauto|done]. }
      rewrite length_app in Hlen. simpl in Hlen. lia.
    + intros S' HS' Hch. replace (set_segs S' st) with
        (set_segs S' (set_central (set_c_segments (Some p) (central st)) st)); [by apply HQ|].
      rewrite <-E. by destruct st as [? ? ? ? [] ? ? ? ? ? ?].
Qed.
End lists.

(** ** The invariant under changes of the stores *)

(** [central_core] does not depend on the links of the available list. *)
Lemma central_core_avail X d S S' P c h :
  central_core X d S P c → same_on seg_rest S S' → central_core X d S' P (set_c_avail h c).
Proof.
  intros H HS. assert (∀ {A} (f : Segment → A) F, (∀ g, f g = F (seg_rest g)) →
    ∀ s, f <$> S' !! s = f <$> S !! s) as Hf.
  { intros A f F HF s. specialize (HS s). destruct (S' !! s) as [g'|], (S !! s) as [g|]; try done.
    simpl in *. injection HS as Hs1 Hs2 Hs3 Hs4 Hs5 Hs6. f_equal. rewrite !HF. unfold seg_rest. congruence. }
  constructor; simpl.
  - destruct (co_segs H) as (L & Hc & Hm). exists L. split.
    + eapply chain_ext; [|done]. intros s _. by apply (Hf _ sg_next (λ x, x.1.1.2)).
    + intros s. rewrite Hm. specialize (HS s). destruct (S' !! s), (S !! s); try done; by split; eauto.
  - intros s g' Hg'. destruct (same_on_lookup _ _ _ _ _ (same_on_sym _ _ _ HS) Hg') as (g & Hg & E).
    injection E as E1 E2 E3 E4 E5 E6. destruct (co_seg H s g Hg) as [B1 B2 B3 B4].
    constructor; try congruence. by rewrite <-E5, <-E6.
  - destruct (co_pages H). constructor; try done. intros s i. rewrite pk_dom.
    specialize (HS s). destruct (S' !! s), (S !! s); try done; split; intros [? ?]; split; eauto.
  - apply H.
  - rewrite (co_nsegs H). f_equal. symmetry. apply msum_ext. intros k. by apply (Hf _ (λ _, 1) (λ _, 1)).
  - rewrite (co_fpages H). f_equal. symmetry. apply msum_ext. intros k. by apply (Hf _ sg_free_count snd).
  - rewrite (co_fsegs H). f_equal. symmetry. apply msum_ext. intros k.
    by apply (Hf _ full_free (λ x, count (x.2 =? USABLE_PAGES_PER_SEGMENT))).
  - apply H.
  - apply H.
Qed.

(** A page as pool_return leaves it. *)
Definition pool_page (n : option pageref) (pg : Page) : Page :=
  set_pg_next n (set_pg_prev None (set_pg_block_size 0 (set_pg_free None
    (set_pg_owner None (set_pg_in_use false pg))))).
Definition pool_seg r (g : Segment) : Segment :=
  set_sg_free_count (u32 (sg_free_count g + 1)) (set_sg_free_list (Some r) g).

(** A changed page of segment [s] that is not in any other pool. *)
Lemma other_pool P r pg s s' i g :
  r = PageAt s i → s' ≠ s → segment_ok P s' g → segment_ok (<[r := pg]> P) s' g.
Proof.
  intros -> Hne H. apply (segment_ok_frame P); [done| |].
  - intros r (j & p & -> & _). unfold pg_nxt. rewrite lookup_insert_ne by congruence. done.
  - intros r. unfold free_page. split; intros (j & p & -> & Hj & Hp & ?);
      exists j, p; rewrite lookup_insert_ne in * by congruence; done.
Qed.

(** [pages_ok] under a change of one page. *)
Lemma pages_ok_insert S P r s i pg pg' :
  pages_ok S P → r = PageAt s i → P !! r = Some pg → pg_area pg' = pg_area pg →
  (i < FIRST_USABLE_PAGE → pg_in_use pg' = false) →
  (pg_in_use pg' = true → is_Some (pg_owner pg')) → pages_ok S (<[r := pg']> P).
Proof.
  intros [H1 H2 H3 H4 H5] -> Hpg Ha Hh Ho. constructor.
  - intros s' j. rewrite <-H1. destruct (decide (PageAt s' j = PageAt s i)) as [E|Hne].
    + rewrite E, lookup_insert_eq, Hpg. split; eauto.
    + by rewrite lookup_insert_ne.
  - by rewrite lookup_insert_ne.
  - intros s' j p. rewrite lookup_insert. case_decide as E; [|apply H3].
    intros [= <-] Hj. injection E as <- <-. rewrite Ha. by apply H3.
  - intros s' j p. rewrite lookup_insert. case_decide as E; [|apply H4].
    intros [= <-] Hj. injection E as <- <-. by apply Hh.
  - intros r p. rewrite lookup_insert. case_decide as E; [|apply H5]. by intros [= <-].
Qed.

(** Dropping the segment links that a header update does not touch. *)
Lemma sg_nxt_insert S s g g' :
  S !! s = Some g → sg_next g' = sg_next g → ∀ x, sg_nxt (<[s := g']> S) x = sg_nxt S x.
Proof.
  intros Hg E x. unfold sg_nxt. rewrite lookup_insert. case_decide as Ex; [|done].
  subst x. rewrite Hg. simpl. by rewrite E.
Qed.

Lemma is_Some_insert {A} (m : gmap Z A) s g g' x :
  m !! s = Some g → is_Some (<[s := g']> m !! x) ↔ is_Some (m !! x).
Proof.
  intros Hg. rewrite lookup_insert. case_decide as Ex; [|done]. subst x. rewrite Hg. split; eauto.
Qed.

Lemma pages_ok_segs S S' P :
  (∀ s, is_Some (S' !! s) ↔ is_Some (S !! s)) → pages_ok S P → pages_ok S' P.
Proof. intros Hs [H1 H2 H3 H4 H5]. constructor; try done. intros s i. by rewrite Hs, H1. Qed.

(** The pool of the segment gains the page. *)
Lemma segment_ok_pool P r s i pg g :
  segment_ok P s g → r = PageAt s i → FIRST_USABLE_PAGE ≤ i < PAGES_PER_SEGMENT →
  P !! r = Some pg → pg_in_use pg = true →
  segment_ok (<[r := pool_page (sg_free_list g) pg]> P) s (pool_seg r g) ∧
  sg_free_count (pool_seg r g) = sg_free_count g + 1.
Proof.
  intros H -> Hi Hpg Hu. pose proof (free_count_missing P s g i pg H Hi Hpg Hu) as Hlt.
  pose proof (free_count_range P s g H) as Hrng. unfold USABLE_PAGES_PER_SEGMENT in *. consts.
  destruct H as [B1 B2 B3 (L & Hc & Hm & Hn)].
  assert (PageAt s i ∉ L) as Hnot. { intros (j & p & [= <-] & _ & Hp & ?)%Hm. congruence. }
  assert (sg_free_count (pool_seg (PageAt s i) g) = sg_free_count g + 1) as Hcnt
    by (simpl; rewrite u32_small; lia).
  split; [|done]. constructor; try done. exists (PageAt s i :: L). split_and!; [| |simpl length; lia].
  - split; [done|]. exists (sg_free_list g). split; [unfold pg_nxt; by simplify_map_eq|].
    eapply chain_ext; [|done]. intros q Hq. unfold pg_nxt.
    rewrite lookup_insert_ne; [done|]. by intros <-.
  - intros q. rewrite elem_of_cons, Hm. unfold free_page. consts. split.
    + intros [->|(j & p & -> & Hj & Hp & Hf)].
      * exists i, (pool_page (sg_free_list g) pg). split_and!; try done; [lia|lia|by simplify_map_eq].
      * exists j, p. split_and!; try done; [lia|lia|]. rewrite lookup_insert_ne; [done|].
        intros [= <-]. congruence.
    + intros (j & p & -> & Hj & Hp & Hf). rewrite lookup_insert in Hp.
      case_decide as E; [by left|right]. exists j, p. split_and!; try done; lia.
Qed.

(** The abandoned list does not see a page that is on it neither before nor
    after. *)
Lemma aband_list_insert X X' P h L r pg pg' :
  aband_list X P h L → P !! r = Some pg → is_abandoned X r pg = false →
  is_abandoned X' r pg' = false → (∀ q p, q ≠ r → is_abandoned X' q p = is_abandoned X q p) →
  aband_list X' (<[r := pg']> P) h L.
Proof.
  intros [Hc Hm] Hr Ha Ha' Hx. assert (r ∉ L) as Hn. { intros (p & Hp & ?)%Hm. congruence. }
  split.
  - eapply chain_ext; [|done]. intros q Hq. unfold pg_nxt. rewrite lookup_insert_ne; [done|]. by intros <-.
  - intros q. rewrite Hm. destruct (decide (q = r)) as [->|Hne].
    + rewrite lookup_insert_eq. split; intros (p & Hp & ?); congruence.
    + rewrite lookup_insert_ne by done. setoid_rewrite Hx; done.
Qed.

(** Phase one of pool_return: the page enters the pool of its segment. *)
Lemma central_core_pool r s i pg S P c g :
  central_core (Some r) 0 S P c → r = PageAt s i → FIRST_USABLE_PAGE ≤ i < PAGES_PER_SEGMENT →
  P !! r = Some pg → pg_in_use pg = true → S !! s = Some g →
  central_core None (full_free (pool_seg r g)) (<[s := pool_seg r g]> S)
    (<[r := pool_page (sg_free_list g) pg]> P)
    (set_c_free_page_count (u64 (c_free_page_count c + 1)) c).
Proof.
  intros H Er Hi Hpg Hu Hg.
  destruct (segment_ok_pool P r s i pg g (co_seg H s g Hg) Er Hi Hpg Hu) as [Hseg Hcnt].
  assert (full_free g = 0) as Hff.
  { subst r. pose proof (free_count_missing P s g i pg (co_seg H s g Hg) Hi Hpg Hu).
    unfold full_free. rewrite (proj2 (Z.eqb_neq _ _)) by lia. done. }
  assert (∀ q p, q ≠ r → is_abandoned None q p = is_abandoned (Some r) q p) as Hab.
  { intros q p Hq. unfold is_abandoned. by rewrite (bool_decide_true (Some r ≠ Some q)) by congruence. }
  assert (∀ q p, q ≠ r → owned_by_heap None q p = owned_by_heap (Some r) q p) as Hown.
  { intros q p Hq. unfold owned_by_heap. by rewrite (bool_decide_true (Some r ≠ Some q)) by congruence. }
  constructor; simpl.
  - destruct (co_segs H) as (L & Hc & Hm). exists L. split.
    + eapply chain_ext; [|done]. intros x _. by eapply sg_nxt_insert.
    + intros x. by rewrite Hm, is_Some_insert.
  - intros x gx. rewrite lookup_insert. case_decide as E.
    + intros [= <-]. by subst x.
    + intros Hgx. eapply other_pool; [done|done|]. by apply H.
  - apply pages_ok_segs with S; [intros x; by eapply is_Some_insert|].
    apply (pages_ok_insert S P r s i pg); [apply H|done..|by intros ?].
  - destruct (co_aband H) as (L & HL & Hn). exists L. split; [|done].
    apply (aband_list_insert (Some r) _ P _ _ r pg); [done|done| |done|done]. unfold is_abandoned. rewrite (bool_decide_false (Some r ≠ Some r)) by auto.
    by rewrite andb_false_r.
  - rewrite (co_nsegs H). f_equal. rewrite (msum_update _ S s g) by done. lia.
  - rewrite (co_fpages H), u64_add_l. f_equal. rewrite (msum_update _ S s g) by done. lia.
  - rewrite (co_fsegs H), (msum_update _ S s g) by done. lia.
  - apply H.
  - rewrite (co_inuse H). f_equal. symmetry.
    rewrite (msum_change (λ q p, count (owned_by_heap (Some r) q p)) _ P r pg); [|done|].
    + unfold owned_by_heap. rewrite (bool_decide_false (Some r ≠ Some r)) by auto.
      rewrite andb_false_r. simpl. lia.
    + intros q p Hq _. by rewrite Hown.
Qed.

(** ** Unmapping a fully free segment *)

Definition drop_pages (s : Z) P : gmap pageref Page := filter (λ kv, in_segment s kv.1 = false) P.

Lemma lookup_drop_pages s P r :
  drop_pages s P !! r = if in_segment s r then None else P !! r.
Proof.
  unfold drop_pages. destruct (in_segment s r) eqn:E.
  - apply map_lookup_filter_None_2. right. intros pg _. simpl. congruence.
  - destruct (P !! r) eqn:Hr.
    + by apply map_lookup_filter_Some_2.
    + by apply map_lookup_filter_None_2; left.
Qed.

Lemma in_segment_page s s' i : in_segment s (PageAt s' i) = bool_decide (s' = s).
Proof. simpl. destruct (s' =? s) eqn:E; bool_hyps; [by rewrite bool_decide_true|by rewrite bool_decide_false]. Qed.

Lemma free_page_drop s s' P r : s' ≠ s → free_page (drop_pages s P) s' r ↔ free_page P s' r.
Proof.
  intros Hne. unfold free_page. split; intros (i & pg & -> & Hi & Hp & Hf); exists i, pg;
    rewrite lookup_drop_pages, in_segment_page, bool_decide_false in * by done; done.
Qed.

Lemma pages_ok_drop s S P :
  pages_ok S P → pages_ok (delete s S) (drop_pages s P).
Proof.
  intros [H1 H2 H3 H4 H5].
  assert (∀ r pg, drop_pages s P !! r = Some pg → P !! r = Some pg) as Hsub.
  { intros r pg. rewrite lookup_drop_pages. by destruct (in_segment s r). }
  constructor; eauto.
  - intros s' i. rewrite lookup_drop_pages, in_segment_page.
    destruct (decide (s' = s)) as [->|Hne].
    + rewrite bool_decide_true, lookup_delete_eq by done. split; [by intros []|by intros [[] _]].
    + by rewrite bool_decide_false, lookup_delete_ne by done.
  - by rewrite lookup_drop_pages.
Qed.

(** Nothing of an idle segment is owned or abandoned. *)
(** What neither unlinking changes, also without segment [s]. *)
Lemma deleted_fields {A} (f : Segment → A) F S S' (s : Z) :
  same_on seg_unlinked S S' → (∀ g, f g = F (seg_unlinked g)) →
  ∀ k, f <$> delete s S' !! k = f <$> delete s S !! k.
Proof.
  intros HS HF k. destruct (decide (k = s)) as [->|Hk]; [by rewrite !lookup_delete_eq|].
  rewrite !lookup_delete_ne by done. specialize (HS k).
  destruct (S' !! k) as [g'|], (S !! k) as [g0|]; try done. simpl in *. injection HS as E1 E2 E3 E4 E5 E6 E7 E8.
  f_equal. rewrite !HF. unfold seg_unlinked. congruence.
Qed.

(** No page of a segment without pages in use is abandoned. *)
Lemma aband_list_drop P h L s :
  (∀ r pg, P !! r = Some pg → in_segment s r = true → pg_in_use pg = false) →
  aband_list None P h L → aband_list None (drop_pages s P) h L.
Proof.
  intros Hidle [Hch HL].
  assert (∀ r, r ∈ L → in_segment s r = false) as Hout.
  { intros r (pg & Hpg & Hab)%HL. destruct (in_segment s r) eqn:E; [|done].
    unfold is_abandoned in Hab. by rewrite (Hidle r pg Hpg E) in Hab. }
  split.
  - eapply chain_ext; [|done]. intros r Hr. unfold pg_nxt. by rewrite lookup_drop_pages, Hout.
  - intros r. setoid_rewrite lookup_drop_pages. destruct (in_segment s r) eqn:E; [|apply HL].
    split; [|by intros (? & ? & _)]. intros Hr. by rewrite Hout in E.
Qed.

Lemma central_core_drop s g S S' P c hs L1 L2 :
  central_core None 1 S P c → S !! s = Some g → sg_free_count g = USABLE_PAGES_PER_SEGMENT →
  same_on seg_unlinked S S' → chain (sg_nxt S') hs (L1 ++ L2) →
  (∀ x, x ∈ L1 ++ L2 ↔ is_Some (S !! x) ∧ x ≠ s) →
  central_core None 0 (delete s S') (drop_pages s P)
    (set_c_free_page_count (u64 (c_free_page_count c - USABLE_PAGES_PER_SEGMENT))
      (set_c_num_segments (u64 (c_num_segments c - 1)) (set_c_segments hs c))).
Proof.
  intros H Hg Hfull HS Hc Hm.
  assert (∀ r pg, P !! r = Some pg → in_segment s r = true → pg_in_use pg = false) as Hidle.
  { intros [|s' i] pg Hr; [done|]. rewrite in_segment_page. intros ->%bool_decide_eq_true.
    by eapply (full_segment_idle S); [apply H|apply (co_seg H s g Hg)|..]. }
  pose proof (λ A f F, @deleted_fields A f F S S' s HS) as Hf.
  assert (∀ x, is_Some (S' !! x) ↔ is_Some (S !! x)) as Hdom.
  { intros x. specialize (HS x). destruct (S' !! x), (S !! x); try done; by split; eauto. }
  constructor; simpl.
  - exists (L1 ++ L2). split.
    + eapply chain_ext; [|done]. intros x [_ Hx]%Hm. unfold sg_nxt. by rewrite lookup_delete_ne.
    + intros x. rewrite Hm, lookup_delete_is_Some, Hdom. naive_solver.
  - intros x gx [Hx Hgx]%lookup_delete_Some.
    destruct (same_on_lookup _ _ _ _ _ (same_on_sym _ _ _ HS) Hgx) as (g0 & Hg0 & E).
    injection E as E1 E2 E3 E4 E5 E6 E7 E8.
    apply (segment_ok_frame P).
    + destruct (co_seg H x g0 Hg0) as [B1 B2 B3 B4]. constructor; try congruence. by rewrite <-E4, <-E5.
    + intros r (i & pg & -> & _). unfold pg_nxt.
      by rewrite lookup_drop_pages, in_segment_page, bool_decide_false.
    + intros r. by apply free_page_drop.
  - apply pages_ok_segs with (delete s S).
    + intros x. rewrite !lookup_delete_is_Some, Hdom. done.
    + apply pages_ok_drop, H.
  - destruct (co_aband H) as (L & HL & Hn). exists L. split; [by apply aband_list_drop|done].
  - rewrite (co_nsegs H), u64_sub_l. f_equal. rewrite (msum_delete _ S s g) by done.
    rewrite (msum_ext (λ _ _, 1) (λ _ _, 1) (delete s S') (delete s S)); [lia|].
    intros k. by apply (Hf _ (λ _, 1) (λ _, 1)).
  - rewrite (co_fpages H), u64_sub_l. f_equal. rewrite (msum_delete _ S s g) by done.
    rewrite (msum_ext (λ _, sg_free_count) (λ _, sg_free_count) (delete s S') (delete s S)); [lia|].
    intros k. by apply (Hf _ sg_free_count (λ x, x.1.2)).
  - rewrite (co_fsegs H), (msum_delete _ S s g) by done. unfold full_free at 1. rewrite Hfull, Z.eqb_refl.
    rewrite (msum_ext (λ _, full_free) (λ _, full_free) (delete s S') (delete s S)); [simpl; lia|].
    intros k. by apply (Hf _ full_free (λ x, count (x.1.2 =? USABLE_PAGES_PER_SEGMENT))).
  - apply H.
  - rewrite (co_inuse H). f_equal. symmetry. apply msum_filter. intros r pg Hpg Hs. simpl in Hs.
    apply not_false_iff_true in Hs. unfold owned_by_heap. by rewrite (Hidle r pg Hpg Hs).
Qed.
