(* ===== verification/PoolSpec.v ===== *)
(** * Returning pages to the pool and unmapping idle segments

    pool_return, central_release_page and the memory side of their effect: the
    page leaves the set of pages in use, nothing the client holds changes, and
    a segment beyond the cache goes back to the OS with its registration. *)
From Stdlib Require Import ZArith Lia.
From stdpp Require Import base numbers list gmap.
From S2P Require Import Prelude Words Constants SizeClass Segment Memory Os Chains Sums RegionRegistry State Regions PageOps Allocated Central CentralInv CentralSpec.

Section pool.
Context {K : Kernel} {KL : KernelLaws K} {Lg : Ledger}.
Implicit Types (st : State) (r : pageref).

Definition central_ok (X : option pageref) st : Prop :=
  central_core X 0 (segs st) (pages st) (central st) ∧ avail_ok (segs st) (c_avail (central st)).

(** What the central heap does not touch. *)
Record others_same st st' : Prop := {
  ot_heaps : heaps st' = heaps st;
  ot_registry : g_registry st' = g_registry st;
  ot_thread : t_heap st' = t_heap st;
  ot_larges : larges st' = larges st;
  ot_lcount : g_large_count st' = g_large_count st;
  ot_lbytes : g_large_bytes st' = g_large_bytes st
}.

Lemma others_same_trans st1 st2 st3 : others_same st1 st2 → others_same st2 st3 → others_same st1 st3.
Proof. intros [] []. constructor; congruence. Qed.

(** The contract of an operation that takes page [r] out of use. *)
Record pool_post r st st' : Prop := {
  pp_central : central_ok None st';
  pp_mem : mem_ok st';
  pp_alloc : same_alloc st st';
  pp_others : others_same st st';
  pp_pages q p : q ≠ r → pg_in_use p = true → pages st' !! q = Some p ↔ pages st !! q = Some p;
  pp_gone p : pages st' !! r = Some p → pg_in_use p = false;
  pp_abandoned : c_abandoned (central st') = c_abandoned (central st);
  pp_room : reg_room (registry st) → reg_room (registry st')
}.

(** ** The memory invariant under changes of the stores *)

Lemma fmap_const_iff {A B} (x y : option A) (v : B) :
  (is_Some x ↔ is_Some y) → (λ _, v) <$> x = (λ _, v) <$> y.
Proof.
  intros [H1 H2]. destruct x, y; try done; [destruct H1|destruct H2]; eauto; done.
Qed.

Lemma mem_ok_change st st' :
  mem_ok st → os st' = os st → registry st' = registry st → heaps st' = heaps st →
  larges st' = larges st → (∀ s, is_Some (segs st' !! s) ↔ is_Some (segs st !! s)) →
  (∀ s i, is_Some (pages st' !! PageAt s i) → is_Some (segs st !! s)) →
  blocks_ok (bytes (os st)) (pages st') → mem_ok st'.
Proof.
  intros [H1 H2 H3 H4 H5 H6] E1 E2 E3 E4 Hs Hp Hb.
  assert (∀ t, region_of st' t = region_of st t) as Ht.
  { intros [s|a|b|]; simpl; rewrite ?E2, ?E3, ?E4; try done. apply fmap_const_iff, Hs. }
  constructor.
  - rewrite E1. by eapply regions_ok_ext.
  - apply (registry_ok_ext st); [done..| |by rewrite E1]. intros b. unfold is_region. by rewrite Hs, E4.
  - by rewrite E1.
  - intros s i Hpi. rewrite Hs. eauto.
  - rewrite E4. done.
  - apply (counted_same st); [done..|by rewrite E1|by rewrite E1].
Qed.

(** A page without live blocks can leave use. *)
Lemma no_live_when_unused m s i pg lf lt b :
  page_ok m s i pg lf lt → pg_used pg = 0 → ¬ live_block pg lf lt b.
Proof.
  intros H Hu (Hc & Hn & _). destruct (used_zero m s i pg lf lt H Hu) as [_ Hp].
  apply Hn. by rewrite Hp.
Qed.

Lemma retire_page st st' s i pg pg' :
  mem_ok st → pages st !! PageAt s i = Some pg → pg_in_use pg = true → pg_used pg = 0 →
  pages st' = <[PageAt s i := pg']> (pages st) → pg_in_use pg' = false →
  os st' = os st → larges st' = larges st →
  blocks_ok (bytes (os st)) (pages st') ∧ same_alloc st st'.
Proof.
  intros H Hpg Hu H0 E1 Hu' E2 E3. split; [|split].
  - intros s1 i1 pg1. rewrite E1, lookup_insert. case_decide; [|apply (mo_blocks H)].
    intros [= <-]. congruence.
  - intros b n. unfold allocated, large_alloc, small_alloc. rewrite E3, E2, E1. apply or_iff_compat_r.
    split; intros (s1 & i1 & pg1 & lf & lt & Hpg1 & Hu1 & Hok & Hl & ->); exists s1, i1, pg1, lf, lt.
    + rewrite lookup_insert in Hpg1. case_decide; [congruence|]. done.
    + rewrite lookup_insert_ne; [done|]. intros [= <- <-]. simplify_eq.
      by eapply no_live_when_unused.
  - intros b n _ x _. by rewrite E2.
Qed.

(** ** Unmapping a segment *)

Lemma reg_mem_of st : mem_ok st → reg_mem (registry st) (os st).
Proof.
  intros H p n Hr. destruct (rg_shape _ _ (mo_regions H) RTable p n Hr) as (? & ? & ? & ?).
  split_and!; try done; try tauto. intros a Ha%in_range_true. by apply (rg_mapped _ _ (mo_regions H) RTable p n).
Qed.

Lemma seg_base_not_tomb s : seg_base s → s ≠ TOMB.
Proof. intros (? & ? & He) ->. consts. unfold TOMB in He. lia. Qed.

Lemma seg_base_page s : seg_base s → s mod os_page_size = 0.
Proof.
  intros (_ & Hs & _). apply mod_0_trans with SEGMENT_SIZE; try done.
  - pose proof page_size_range. lia.
  - apply segment_page_multiple.
Qed.

(** Dropping the headers of idle pages keeps those in use. *)
Lemma drop_pages_in_use s (P : gmap pageref Page) :
  (∀ i pg, P !! PageAt s i = Some pg → pg_in_use pg = false) →
  ∀ q pg, pg_in_use pg = true → drop_pages s P !! q = Some pg ↔ P !! q = Some pg.
Proof.
  intros Hidle q pg Hu. rewrite lookup_drop_pages. destruct (in_segment s q) eqn:E; [|done].
  destruct q as [|s' i]; [done|]. rewrite in_segment_page in E. apply bool_decide_eq_true in E as ->.
  split; [done|]. intros Hpg. rewrite (Hidle i pg Hpg) in Hu. done.
Qed.

Definition unmap_segment (s : Z) : M State unit :=
  in_registry (region_unregister s);;
  sg ← load_seg s;
  in_os (os_free (Some s) (sg_mmap_size sg));;
  drop_segment s.

Lemma unmap_segment_spec st s g (Q : unit → State → Prop) :
  mem_ok st → segs st !! s = Some g → seg_base s → sg_mmap_size g = SEGMENT_SIZE →
  (∀ i pg, pages st !! PageAt s i = Some pg → pg_in_use pg = false) →
  (∀ reg' o', let st' := set_segs (delete s (segs st)) (set_pages (drop_pages s (pages st))
       (set_registry reg' (set_os o' st))) in
     mem_ok st' → same_alloc st st' → (reg_room (registry st) → reg_room reg') → Q tt st') →
  wp (unmap_segment s) Q st.
Proof.
  intros H Hs Hb Hm Hidle HQ. unfold unmap_segment.
  destruct (mo_registry H) as (X & Hwf & Hroom & HX & HL).
  apply wp_bind, wp_in_registry. eapply wp_mono.
  { apply (region_unregister_spec (registry st) (os st) X s); [done|by apply seg_base_not_tomb|auto]. }
  intros _ [reg' o1] (Ho & Hwf' & Hreg & Hcap & Hsz). simpl in Ho, Hwf', Hreg, Hcap, Hsz. subst o1.
  apply wp_bind. eapply wp_load_seg; [simpl; done|]. rewrite Hm.
  apply wp_bind, wp_in_os. cbn [os set_registry set_os fst snd]. eapply wp_mono.
  { apply (os_free_spec s SEGMENT_SIZE); [done|apply segment_page_multiple|by apply seg_base_page]. }
  intros [] o' Hshr. unfold drop_segment. apply wp_modify.
  assert (slots reg' = None ↔ slots (registry st) = None) as Hsl.
  { unfold reg_region in Hreg. destruct (slots reg') as [[]|], (slots (registry st)) as [[]|]; done. }
  pose proof (drop_pages_in_use s (pages st) Hidle) as Hdp.
  assert (os_shrunk (os st) o' s SEGMENT_SIZE) as Hshr' by exact Hshr. clear Hshr.
  set (st' := set_segs (delete s (segs st)) (set_pages (drop_pages s (pages st)) (set_registry reg' (set_os o' st)))).
  destruct (regions_shrink st st' (RSeg s) s SEGMENT_SIZE (mo_regions H) (mo_count H) Hshr') as [HR HC].
  { simpl. by rewrite Hs. }
  { intros t. unfold rset. case_decide as Et; [subst t; simpl; by rewrite lookup_delete_eq|].
    destruct t as [s'|a|b|]; simpl; try done. rewrite lookup_delete_ne by congruence. done. }
  subst st'. apply HQ; simpl; [constructor; simpl; try done|split|].
  - destruct (reg_room_kept _ _ Hsl Hcap Hsz). eapply (registry_drop st _ X s); auto; [|exact (os_sh_calm _ _ _ _ Hshr')].
    intros x. unfold is_region. simpl. destruct (decide (x = s)) as [->|Hx]; [|by rewrite lookup_delete_ne by congruence; naive_solver].
    rewrite lookup_delete_eq, (seg_not_large st s g H Hs). split; [intros [[]|[]]; done|naive_solver].
  - rewrite (os_sh_bytes _ _ _ _ Hshr'). intros s1 i1 pg1 Hpg1 Hu1. apply Hdp in Hpg1; [|done].
    by apply (mo_blocks H).
  - intros s1 i1 Hi. rewrite lookup_drop_pages, in_segment_page in Hi.
    destruct (decide (s1 = s)) as [->|Hne]; [rewrite bool_decide_true in Hi by done; by destruct Hi|].
    rewrite bool_decide_false in Hi by done. rewrite lookup_delete_ne by congruence. by apply (mo_segs H _ i1).
  - apply (mo_large H).
  - intros b n. unfold allocated, large_alloc, small_alloc. simpl. rewrite (os_sh_bytes _ _ _ _ Hshr').
    apply or_iff_compat_r.
    split; intros (s1 & i1 & pg1 & lf & lt & Hpg1 & Hu1 & Hr); exists s1, i1, pg1, lf, lt;
      (split; [by apply Hdp|done]).
  - intros b n _ x _. simpl. by rewrite (os_sh_bytes _ _ _ _ Hshr').
  - by destruct (reg_room_kept _ _ Hsl Hcap Hsz).
Qed.

(** A page in use is a usable page of a mapped segment. *)
Lemma in_use_page S P s i pg :
  pages_ok S P → P !! PageAt s i = Some pg → pg_in_use pg = true →
  FIRST_USABLE_PAGE ≤ i < PAGES_PER_SEGMENT ∧ pg_area pg = page_area s i ∧ is_Some (S !! s).
Proof.
  intros H Hpg Hu. assert (is_Some (P !! PageAt s i)) as [Hs Hi]%(pk_dom _ _ H) by eauto.
  destruct (decide (i < FIRST_USABLE_PAGE)) as [Hlt|Hge].
  { rewrite (pk_header _ _ H s i pg Hpg Hlt) in Hu. done. }
  split_and!; [lia|lia|apply (pk_area _ _ H s i pg Hpg); lia|done].
Qed.

Lemma segment_of_area s i :
  seg_base s → FIRST_USABLE_PAGE ≤ i < PAGES_PER_SEGMENT → segment_of (page_area s i) = s.
Proof.
  intros Hs Hi. unfold segment_of, page_area. apply region_base_off; [done|]. consts. lia.
Qed.

(** After the page is in the pool: count the segment if it is idle, and unmap it
    if there is another idle segment. *)
Definition pool_tail (s : Z) : M State unit :=
  sg ← load_seg s;
  if sg_free_count sg =? USABLE_PAGES_PER_SEGMENT then
    upd_central (λ g, set_c_free_segments (u64 (c_free_segments g + 1)) g);;
    g ← gets central;
    if SEGMENT_CACHE <? c_free_segments g then
      avail_remove s;;
      all_remove s;;
      upd_central (λ g, set_c_num_segments (u64 (c_num_segments g - 1)) g);;
      upd_central (λ g, set_c_free_segments (u64 (c_free_segments g - 1)) g);;
      upd_central (λ g, set_c_free_page_count (u64 (c_free_page_count g - USABLE_PAGES_PER_SEGMENT)) g);;
      unmap_segment s
    else mret tt
  else mret tt.

(** [central_core] with a different count of uncounted idle segments. *)
Lemma central_core_count X d d' S P c v :
  central_core X d S P c → v = c_free_segments c + d - d' → v ≤ SEGMENT_CACHE →
  central_core X d' S P (set_c_free_segments v c).
Proof.
  intros [H1 H2 H3 H4 H5 H6 H7 H8 H9] -> Hv. constructor; simpl; try done. lia.
Qed.

Lemma full_free_nonneg (S : gmap Z Segment) k g : S !! k = Some g → 0 ≤ full_free g.
Proof. intros _. unfold full_free. by destruct (_ =? _). Qed.

Lemma avail_list_drop S S' h L (s : Z) :
  avail_list S h L → same_on seg_unlinked S S' → s ∉ L → avail_list (delete s S') h L.
Proof.
  intros [Hd Hf] HS Hn.
  assert (∀ x g', S' !! x = Some g' → ∃ g, S !! x = Some g ∧
    (sg_avail_prev g', sg_avail_next g', sg_in_avail g', sg_free_count g') =
    (sg_avail_prev g, sg_avail_next g, sg_in_avail g, sg_free_count g)) as Hg.
  { intros x g' Hx. destruct (same_on_lookup _ _ _ _ _ (same_on_sym _ _ _ HS) Hx) as (g & Hg & E).
    injection E as E1 E2 E3 E4 E5 E6 E7 E8. exists g. split; [done|]. congruence. }
  split.
  - eapply dchain_ext; [|done]. intros x Hx. unfold sg_links.
    rewrite lookup_delete_ne by (intros ->; done). pose proof (HS x) as Hsx.
    destruct (S' !! x) as [g'|] eqn:E', (S !! x) as [g|] eqn:E; try done.
    destruct (Hg x g' E') as (g1 & Hg1 & Eq). simplify_eq/=. congruence.
  - intros x g' [_ Hx]%lookup_delete_Some. destruct (Hg x g' Hx) as (g & Hg1 & Eq).
    injection Eq as _ _ -> _. by apply Hf.
Qed.

(** The segments with a free page, through both unlinkings. *)
Lemma has_free_drop S1 S2 S3 (s x : Z) :
  same_on seg_rest S1 S2 → same_on seg_unlinked S2 S3 →
  has_free (delete s S3) x ↔ has_free S1 x ∧ x ≠ s.
Proof.
  intros H2 H3. unfold has_free. split.
  - intros (g3 & [Hx Hg3]%lookup_delete_Some & Hf).
    destruct (same_on_lookup _ _ _ _ _ (same_on_sym _ _ _ H3) Hg3) as (g2 & Hg2 & E).
    destruct (same_on_lookup _ _ _ _ _ (same_on_sym _ _ _ H2) Hg2) as (g1 & Hg1 & E').
    injection E as _ _ _ _ E5 _ _ _. injection E' as _ _ _ _ _ E6. split; [|done]. exists g1. split; [done|congruence].
  - intros [(g1 & Hg1 & Hf) Hx].
    destruct (same_on_lookup _ _ _ _ _ H2 Hg1) as (g2 & Hg2 & E').
    destruct (same_on_lookup _ _ _ _ _ H3 Hg2) as (g3 & Hg3 & E).
    injection E as _ _ _ _ E5 _ _ _. injection E' as _ _ _ _ _ E6.
    exists g3. rewrite lookup_delete_ne by done. split; [done|congruence].
Qed.

Definition pool_frame st st' : Prop :=
  mem_ok st' ∧ same_alloc st st' ∧ others_same st st' ∧
  (∀ q p, pg_in_use p = true → pages st' !! q = Some p ↔ pages st !! q = Some p) ∧
  c_abandoned (central st') = c_abandoned (central st) ∧
  (reg_room (registry st) → reg_room (registry st')).

Lemma pool_frame_central st c :
  mem_ok st → c_abandoned c = c_abandoned (central st) → pool_frame st (set_central c st).
Proof.
  intros H Hab. split; [|split; [by apply same_alloc_view|split; [by constructor|done]]].
  apply (mem_ok_change st); try done; [apply (mo_segs H)|apply (mo_blocks H)].
Qed.

(** A segment whose pages are all in the pool is on the available list and counts
    as one idle segment. *)
Lemma idle_listed S (L : list Z) (s : Z) g :
  (∀ x, x ∈ L ↔ has_free S x) → S !! s = Some g → sg_free_count g = USABLE_PAGES_PER_SEGMENT → s ∈ L.
Proof.
  intros HL Hs E. apply HL. exists g. split; [done|]. unfold USABLE_PAGES_PER_SEGMENT in *. consts. lia.
Qed.

Lemma free_segments_range S P c s g :
  central_core None (full_free g) S P c → S !! s = Some g → 0 ≤ c_free_segments c ≤ 1.
Proof.
  intros Hc Hs. pose proof (co_cache Hc) as Hle. unfold SEGMENT_CACHE in Hle. rewrite (co_fsegs Hc) in *.
  split; [|lia]. assert (full_free g ≤ msum (λ _, full_free) S); [|lia].
  apply (msum_ge (λ _, full_free) S s g (full_free_nonneg _) Hs).
Qed.

(** The second idle segment: off both lists, and unmapped. *)
Definition discard_segment (s : Z) : M State unit :=
  avail_remove s;;
  all_remove s;;
  upd_central (λ g, set_c_num_segments (u64 (c_num_segments g - 1)) g);;
  upd_central (λ g, set_c_free_segments (u64 (c_free_segments g - 1)) g);;
  upd_central (λ g, set_c_free_page_count (u64 (c_free_page_count g - USABLE_PAGES_PER_SEGMENT)) g);;
  unmap_segment s.

Lemma discard_segment_spec st s g L :
  let n := c_free_segments (central st) in
  central_core None 1 (segs st) (pages st) (central st) →
  avail_list (segs st) (c_avail (central st)) L → (∀ x, x ∈ L ↔ has_free (segs st) x) →
  segs st !! s = Some g → sg_free_count g = USABLE_PAGES_PER_SEGMENT → 0 ≤ n ≤ 1 → mem_ok st →
  wp (discard_segment s) (λ _ st', central_ok None st' ∧ pool_frame st st')
    (set_central (set_c_free_segments (n + 1) (central st)) st).
Proof.
  intros n Hc Hav HL Hs Ef Hn Hm. unfold discard_segment. pose proof (co_seg Hc s g Hs) as Hseg.
  pose proof (idle_listed _ _ _ _ HL Hs Ef) as (L1 & L2 & ->)%list_elem_of_split.
  apply wp_bind, (avail_remove_spec _ s g L1 L2); [done|done|]. intros S2 h' HS2 Hav2.
  cbn [segs set_central central set_segs c_avail set_c_avail].
  pose proof (central_core_avail None 1 _ S2 _ _ h' Hc HS2) as Hc2.
  destruct (same_on_lookup _ _ _ _ _ HS2 Hs) as (g2 & Hg2 & Eg). injection Eg as E1 E2 E3 E4 E5 E6.
  destruct (co_segs Hc2) as (Ls & Hch & HLs). simpl in Hch.
  assert (s ∈ Ls) as (A1 & A2 & ->)%list_elem_of_split by (apply HLs; eauto).
  apply wp_bind, (all_remove_spec _ s g2 A1 A2); [done|done|]. intros S3 hs HS3 Hch3. do 6 st_step.
  assert (∀ x, x ∈ A1 ++ A2 ↔ is_Some (S2 !! x) ∧ x ≠ s) as HA.
  { intros x. rewrite <-HLs. apply elem_of_unlinked. by eapply chain_NoDup. }
  pose proof (central_core_drop s g2 S2 S3 (pages st) _ hs A1 A2 Hc2 Hg2 ltac:(congruence) HS3 Hch3 HA) as Hc3.
  destruct (same_on_lookup _ _ _ _ _ HS3 Hg2) as (g3 & Hg3 & Eg3). injection Eg3 as F1 F2 F3 F4 F5 F6 F7 F8.
  assert (∀ i pg, pages st !! PageAt s i = Some pg → pg_in_use pg = false) as Hidle.
  { intros i pg Hpg. eapply (full_segment_idle (segs st)); [apply Hc|done|done|done]. }
  apply (unmap_segment_spec _ s g3); simpl; [|done|apply Hseg|rewrite F3, E3; apply Hseg|done|].
  { apply (mem_ok_change st); try done; [|apply (mo_segs Hm)|apply (mo_blocks Hm)].
    intros x. specialize (HS2 x). specialize (HS3 x). simpl in HS2, HS3 |- *.
    destruct (S3 !! x), (S2 !! x), (segs st !! x); try done; by split; eauto. }
  intros reg' o' Hm' Ha' Hroom. split; [split|split_and!]; simpl; try done.
  - simpl in Hc3. replace (u64 (n + 1 - 1)) with n; [exact Hc3|]. rewrite u64_small; lia.
  - pose proof (λ x, elem_of_unlinked L1 L2 s x (dchain_NoDup _ _ _ _ (proj1 Hav))) as HL12.
    exists (L1 ++ L2). split; [apply (avail_list_drop S2); [done|done|rewrite HL12; tauto]|].
    intros x. by rewrite (has_free_drop (segs st) S2 S3 s x HS2 HS3), <-HL, HL12.
  - intros q p Hu. by apply drop_pages_in_use.
Qed.

Lemma pool_tail_spec st s g L :
  central_core None (full_free g) (segs st) (pages st) (central st) →
  avail_list (segs st) (c_avail (central st)) L → (∀ x, x ∈ L ↔ has_free (segs st) x) →
  segs st !! s = Some g → mem_ok st →
  wp (pool_tail s) (λ _ st', central_ok None st' ∧ pool_frame st st') st.
Proof.
  intros Hc Hav HL Hs Hm. unfold pool_tail. apply wp_bind. eapply wp_load_seg; [done|].
  pose proof (free_segments_range _ _ _ _ _ Hc Hs) as Hfs. unfold full_free in Hc.
  destruct (sg_free_count g =? USABLE_PAGES_PER_SEGMENT) eqn:Ef.
  2: { apply wp_ret. split; [split; [done|by exists L]|]. split_and!; try done; by constructor. }
  apply Z.eqb_eq in Ef. do 4 st_step. cbn [central set_central c_free_segments set_c_free_segments].
  rewrite u64_small by lia. unfold SEGMENT_CACHE.
  destruct (1 <? c_free_segments (central st) + 1) eqn:Ec; bool_hyps; [by apply (discard_segment_spec st s g L)|].
  apply wp_ret. split; [|by apply pool_frame_central]. split; simpl; [|by exists L].
  apply (central_core_count None 1); [done|lia|unfold SEGMENT_CACHE; lia].
Qed.

(** Entering the pool touches the links of the page and the header of its
    segment only. *)
Lemma pool_insert_frame st r s i pg pg' S' c' :
  mem_ok st → r = PageAt s i → pages st !! r = Some pg → pg_in_use pg = true → pg_used pg = 0 →
  pg_in_use pg' = false → (∀ x, is_Some (S' !! x) ↔ is_Some (segs st !! x)) →
  let st' := set_segs S' (set_central c' (set_pages (<[r := pg']> (pages st)) st)) in
  mem_ok st' ∧ same_alloc st st'.
Proof.
  intros H -> Hpg Hu H0 Hu' Hdom st'.
  destruct (retire_page st st' s i pg pg' H Hpg Hu H0 eq_refl Hu' eq_refl eq_refl) as [Hb Ha].
  split; [|done]. apply (mem_ok_change st); try done.
  intros s1 i1. unfold st'. simpl. rewrite lookup_insert. case_decide as E; [|apply (mo_segs H)].
  injection E as <- <-. intros _. apply (mo_segs H s i). eauto.
Qed.

Lemma set_segs_id st : set_segs (segs st) st = st.
Proof. by destruct st. Qed.

Lemma avail_list_insert S h L (s : Z) g g' :
  avail_list S h L → S !! s = Some g →
  (sg_avail_prev g', sg_avail_next g', sg_in_avail g') = (sg_avail_prev g, sg_avail_next g, sg_in_avail g) →
  avail_list (<[s := g']> S) h L.
Proof.
  intros [Hd Hf] Hg E. injection E as E1 E2 E3. split.
  - eapply dchain_ext; [|done]. intros x _. unfold sg_links. rewrite lookup_insert.
    case_decide as Ex; [|done]. subst x. rewrite Hg. simpl. congruence.
  - intros x gx. rewrite lookup_insert. case_decide as Ex; [|apply Hf]. intros [= <-]. subst x.
    rewrite E3. by apply Hf.
Qed.

Lemma has_free_rest S S' (x : Z) : same_on seg_rest S S' → has_free S' x ↔ has_free S x.
Proof.
  intros HS. unfold has_free. split; intros (g & Hg & Hf).
  - destruct (same_on_lookup _ _ _ _ _ (same_on_sym _ _ _ HS) Hg) as (g1 & Hg1 & E).
    injection E as _ _ _ _ _ E6. exists g1. split; [done|congruence].
  - destruct (same_on_lookup _ _ _ _ _ HS Hg) as (g1 & Hg1 & E).
    injection E as _ _ _ _ _ E6. exists g1. split; [done|congruence].
Qed.

Lemma has_free_insert (S : gmap Z Segment) (s x : Z) g :
  sg_free_count g ≠ 0 → has_free (<[s := g]> S) x ↔ x = s ∨ has_free S x.
Proof.
  intros Hg. unfold has_free. rewrite lookup_insert. case_decide as E.
  - subst x. split; [by left|]. eauto.
  - split; [by right|]. intros [->|?]; done.
Qed.

(** The state after page [r] has entered the pool of its segment [s]. *)
Definition pooled_state (r : pageref) (s : Z) (pg : Page) (g : Segment) st : State :=
  set_segs (<[s := pool_seg r g]> (segs st))
    (set_central (set_c_free_page_count (u64 (c_free_page_count (central st) + 1)) (central st))
    (set_pages (<[r := pool_page (sg_free_list g) pg]> (pages st)) st)).

(** The second half, from any state that differs from that one in the links of the
    available list. *)
Lemma pool_tail_post st r s pg g S' h' L' :
  let st1 := pooled_state r s pg g st in
  central_core None (full_free (pool_seg r g)) (segs st1) (pages st1) (central st1) →
  mem_ok st1 → same_alloc st st1 → same_on seg_rest (segs st1) S' → avail_list S' h' L' →
  (∀ x, x ∈ L' ↔ has_free S' x) →
  wp (pool_tail s) (λ _ st', pool_post r st st') (set_segs S' (set_central (set_c_avail h' (central st1)) st1)).
Proof.
  intros st1 Hc1 Hm1 Ha1 HS' Hav' HL'.
  destruct (same_on_lookup _ _ _ s (pool_seg r g) HS') as (g' & Hg' & Eg); [simpl; by simplify_map_eq|].
  eapply wp_mono; [apply (pool_tail_spec _ s g' L'); simpl; try done|].
  - replace (full_free g') with (full_free (pool_seg r g))
      by (injection Eg as _ _ _ _ _ E6; unfold full_free; by rewrite E6).
    by apply (central_core_avail None _ (segs st1)).
  - apply (mem_ok_change st1); try done; [|apply (mo_segs Hm1)|apply (mo_blocks Hm1)].
    intros x. specialize (HS' x). simpl in HS'. simpl. destruct (S' !! x), (<[s:=_]> _ !! x); try done; by split; eauto.
  - intros [] st' (Hc' & Hm' & Ha' & Ho' & Hp' & Hab' & Hr'). destruct Ho' as [O1 O2 O3 O4 O5 O6].
    constructor; try done.
    + eapply same_alloc_trans; [exact Ha1|]. eapply same_alloc_trans; [|exact Ha']. by apply same_alloc_view.
    + intros q p Hq Hup. rewrite Hp' by done. simpl. by rewrite lookup_insert_ne.
    + intros p Hp. destruct (pg_in_use p) eqn:Eu; [|done]. apply Hp' in Hp; [|done]. simpl in Hp.
      rewrite lookup_insert_eq in Hp. injection Hp as <-. done.
Qed.

Lemma pool_return_spec st r pg :
  central_ok (Some r) st → mem_ok st → r ≠ EmptyPage → pages st !! r = Some pg →
  pg_in_use pg = true → pg_used pg = 0 →
  wp (pool_return r) (λ _ st', pool_post r st st') st.
Proof.
  intros [Hc (L & Hav & HL)] Hm Hr Hpg Hu H0. destruct r as [|s i]; [done|]. clear Hr.
  destruct (in_use_page _ _ s i pg (co_pages Hc) Hpg Hu) as (Hi & Harea & [g Hg]).
  pose proof (co_seg Hc s g Hg) as Hseg.
  destruct (segment_ok_pool _ _ s i pg g Hseg eq_refl Hi Hpg Hu) as [_ Hcnt].
  set (r := PageAt s i) in *. unfold pool_return. apply wp_bind. eapply wp_load_page; [done|].
  rewrite Harea, segment_of_area by (done || apply Hseg).
  st_steps. cbn [segs pages central set_segs set_pages set_central]. rewrite !insert_insert_eq.
  set (st1 := pooled_state r s pg g st). match goal with |- wp ?m ?Q _ => change (wp m Q st1) end.
  pose proof (central_core_pool r s i pg _ _ _ g Hc eq_refl Hi Hpg Hu Hg) as Hc1.
  destruct (pool_insert_frame st r s i pg (pool_page (sg_free_list g) pg) _ (central st1) Hm eq_refl Hpg Hu H0 eq_refl
    (λ x, is_Some_insert (segs st) s g (pool_seg r g) x Hg)) as [Hm1 Ha1].
  change (mem_ok st1) in Hm1. change (same_alloc st st1) in Ha1.
  assert (avail_list (segs st1) (c_avail (central st1)) L) as Hav1 by (by apply (avail_list_insert _ _ _ s g)).
  pose proof (free_count_range _ _ _ Hseg) as Hfr.
  destruct (sg_free_count g =? 0) eqn:E0; bool_hyps.
  - assert (s ∉ L) as HnL by (intros (g0 & Hg0 & ?)%HL; congruence).
    apply (avail_push_spec st1 s (pool_seg r g) L); [simpl; by simplify_map_eq|done|done|].
    intros S' HS' Hav'. apply (pool_tail_post st r s pg g S' (Some s) (s :: L)); try done.
    intros x. rewrite (has_free_rest _ _ x HS'). simpl. rewrite has_free_insert by lia.
    by rewrite elem_of_cons, HL.
  - apply wp_ret. assert (s ∈ L) as HsL by (apply HL; by exists g).
    rewrite <-(set_c_avail_id st1). rewrite <-(set_segs_id (set_central _ st1)).
    apply (pool_tail_post st r s pg g (segs st1) (c_avail (central st1)) L); try done.
    intros x. simpl. rewrite has_free_insert, <-HL by lia. naive_solver.
Qed.

(** ** Releasing and abandoning a page *)

Definition heap_owned (pg : Page) : Prop := pg_in_use pg = true ∧ ∃ a, pg_owner pg = Some (HeapAt a).

Lemma heap_owned_bool r pg : owned_by_heap None r pg = true ↔ heap_owned pg.
Proof.
  unfold owned_by_heap, heap_owned. rewrite (bool_decide_true (None ≠ Some r)), andb_true_r by done.
  rewrite andb_true_iff. destruct (pg_owner pg) as [[]|]; naive_solver.
Qed.

Lemma X_other r q pg :
  q ≠ r → owned_by_heap (Some r) q pg = owned_by_heap None q pg ∧
  is_abandoned (Some r) q pg = is_abandoned None q pg.
Proof.
  intros Hq. unfold owned_by_heap, is_abandoned.
  by rewrite (bool_decide_true (Some r ≠ Some q)) by congruence.
Qed.

Lemma X_self r pg : owned_by_heap (Some r) r pg = false ∧ is_abandoned (Some r) r pg = false.
Proof.
  unfold owned_by_heap, is_abandoned. rewrite (bool_decide_false (Some r ≠ Some r)) by auto.
  by rewrite !andb_false_r.
Qed.

(** Taking page [r] off the books of its heap. *)
Lemma central_core_unown r pg S P c :
  central_core None 0 S P c → P !! r = Some pg → heap_owned pg →
  central_core (Some r) 0 S P (set_c_pages_in_use (u64 (c_pages_in_use c - 1)) c).
Proof.
  intros H Hpg Ho. constructor; simpl; try apply H.
  - destruct (co_aband H) as (L & HL & Hn). exists L. split; [|done].
    rewrite <-(insert_id P r pg Hpg). apply (aband_list_insert None _ P _ _ r pg); try done.
    + destruct Ho as (_ & a & Ha). unfold is_abandoned. rewrite Ha.
      rewrite (bool_decide_false (Some (HeapAt a) = _)) by done. by rewrite andb_false_r.
    + apply X_self.
    + intros q p Hq. by apply X_other.
  - rewrite (co_inuse H), u64_sub_l. f_equal. rewrite <-(insert_id P r pg Hpg) at 2.
    rewrite (msum_change (λ q p, count (owned_by_heap None q p)) _ P r pg); [|done|].
    + rewrite (proj2 (heap_owned_bool r pg) Ho), (proj1 (X_self r pg)). simpl. lia.
    + intros q p Hq _. by rewrite (proj1 (X_other r q p Hq)).
Qed.

Lemma central_release_spec st r pg :
  central_ok None st → mem_ok st → r ≠ EmptyPage → pages st !! r = Some pg →
  heap_owned pg → pg_used pg = 0 →
  wp (central_release_page r) (λ _ st', pool_post r st st') st.
Proof.
  intros [Hc Hav] Hm Hr Hpg Ho H0. unfold central_release_page. st_steps.
  set (c1 := set_c_pages_in_use _ _).
  pose proof (central_core_unown r pg _ _ _ Hc Hpg Ho) as Hc1.
  destruct (pool_frame_central st c1 Hm eq_refl) as (Hm1 & Ha1 & _).
  eapply wp_mono; [apply (pool_return_spec _ r pg); [by split|done|done|done|apply Ho|done]|].
  intros [] st' [P1 P2 P3 P4 P5 P6 P7 P8]. constructor; try done.
  destruct P4. by constructor.
Qed.
End pool.
