(* ===== verification/CentralOps.v ===== *)
(** * Abandoned pages, new segments and page acquisition

    The remaining operations of the central heap: abandoning a page on thread
    exit, the sweep that reclaims abandoned pages, mapping a segment, and
    acquiring a page. *)
From Stdlib Require Import ZArith Lia.
From stdpp Require Import base numbers list gmap.
From S2P Require Import Prelude Words Constants SizeClass Segment Memory Os Chains Sums RegionRegistry State Regions PageOps Allocated Central CentralInv CentralSpec PoolSpec.

Section central_ops.
Context {K : Kernel} {KL : KernelLaws K} {Lg : Ledger}.
Implicit Types (st : State) (r : pageref) (S : gmap Z Segment) (P : gmap pageref Page)
  (c : CentralState).

(** Pages in use are in no pool. *)
Lemma segment_ok_used P r pg pg' s g :
  P !! r = Some pg → pg_in_use pg = true → pg_in_use pg' = true →
  segment_ok P s g → segment_ok (<[r := pg']> P) s g.
Proof.
  intros Hr Hu Hu' H. apply (segment_ok_frame P); [done| |].
  - intros q (i & p & -> & _ & Hp & ?). unfold pg_nxt. rewrite lookup_insert_ne; [done|congruence].
  - intros q. unfold free_page. split; intros (i & p & -> & Hi & Hp & Hf); exists i, p.
    + rewrite lookup_insert in Hp. case_decide; [congruence|done].
    + rewrite lookup_insert_ne; [done|congruence].
Qed.

(** A change of a page in use, with its consequences for the abandoned list and
    the count of owned pages. *)
Lemma central_core_used X X' d S P c r s i pg pg' h L n u :
  central_core X d S P c → r = PageAt s i → P !! r = Some pg → pg_in_use pg = true →
  pg_in_use pg' = true → pg_area pg' = pg_area pg → is_Some (pg_owner pg') →
  aband_list X' (<[r := pg']> P) h L → n = u64 (Z.of_nat (length L)) →
  u = u64 (msum (λ q p, count (owned_by_heap X' q p)) (<[r := pg']> P)) →
  central_core X' d S (<[r := pg']> P)
    (set_c_pages_in_use u (set_c_abandoned_count n (set_c_abandoned h c))).
Proof.
  intros H -> Hr Hu Hu' Ha Ho HL Hn Hc. constructor; simpl; try apply H; try done; eauto.
  - intros x g Hg. eapply segment_ok_used; eauto. by apply H.
  - eapply pages_ok_insert; [apply H|done|done|done| |done].
    intros Hlt. pose proof (pk_header _ _ (co_pages H) s i pg Hr Hlt). congruence.
Qed.

Lemma msum_owned_same X P r pg pg' :
  P !! r = Some pg → owned_by_heap X r pg' = owned_by_heap X r pg →
  msum (λ q p, count (owned_by_heap X q p)) (<[r := pg']> P) =
  msum (λ q p, count (owned_by_heap X q p)) P.
Proof. intros Hr E. rewrite (msum_update _ P r pg) by done. rewrite E. lia. Qed.

(** An update that keeps links, owner and use leaves the invariant alone. *)
Lemma aband_list_same X P h L r pg pg' :
  aband_list X P h L → P !! r = Some pg → pg_next pg' = pg_next pg →
  is_abandoned X r pg' = is_abandoned X r pg → aband_list X (<[r := pg']> P) h L.
Proof.
  intros [Hc Hm] Hr En Ea. split.
  - eapply chain_ext; [|done]. intros q _. unfold pg_nxt. rewrite lookup_insert. case_decide as E; [|done].
    subst q. rewrite Hr. simpl. by rewrite En.
  - intros q. rewrite Hm, lookup_insert. case_decide as E; [|done]. subst q. split.
    + intros (p & Hp & Hab). simplify_eq. exists pg'. by rewrite Ea.
    + intros (p & Hp & Hab). simplify_eq. exists pg. by rewrite <-Ea.
Qed.

Lemma central_core_moved X d S P c r pg pg' :
  central_core X d S P c → r ≠ EmptyPage → P !! r = Some pg → pg_in_use pg = true →
  page_core pg' = page_core pg → central_core X d S (<[r := pg']> P) c.
Proof.
  intros H Hne Hr Hu E. unfold page_core in E. injection E as E1 E2 E3 E4 E5 E6 E7 E8.
  destruct r as [|s i]; [done|]. destruct (co_aband H) as (L & HL & Hn).
  assert (is_abandoned X (PageAt s i) pg' = is_abandoned X (PageAt s i) pg) as Ea
    by (unfold is_abandoned; by rewrite E4, E5).
  assert (owned_by_heap X (PageAt s i) pg' = owned_by_heap X (PageAt s i) pg) as Eo
    by (unfold owned_by_heap; by rewrite E4, E5).
  replace c with (set_c_pages_in_use (c_pages_in_use c)
    (set_c_abandoned_count (c_abandoned_count c) (set_c_abandoned (c_abandoned c) c))) by by destruct c.
  apply (central_core_used X X d S P c _ s i pg pg' _ L); try done; try congruence.
  - rewrite E5. by apply (pk_owner _ _ (co_pages H) (PageAt s i)).
  - by apply (aband_list_same X P _ L _ pg).
  - rewrite (msum_owned_same _ _ _ pg) by done. apply H.
Qed.

(** ** Abandoning a page *)

Definition abandoned_page (h : option pageref) (pg : Page) : Page :=
  set_pg_next h (set_pg_prev None (set_pg_owner (Some ABANDONED_OWNER) pg)).

Lemma central_abandon_spec st r pg :
  central_ok None st → mem_ok st → r ≠ EmptyPage → pages st !! r = Some pg → heap_owned pg →
  wp (central_abandon_page r) (λ _ st', central_ok None st' ∧ mem_ok st' ∧ same_alloc st st' ∧
    others_same st st' ∧ pages st' = <[r := abandoned_page (c_abandoned (central st)) pg]> (pages st) ∧
    registry st' = registry st) st.
Proof.
  intros [Hc Hav] Hm Hr Hpg [Hu [a Ha]]. unfold central_abandon_page. st_steps.
  cbn [segs pages central set_segs set_pages set_central]. rewrite !insert_insert_eq.
  change (set_pg_next _ _) with (abandoned_page (c_abandoned (central st)) pg).
  set (P' := <[r := _]> (pages st)). destruct r as [|s i]; [done|].
  assert (same_view (pages st) P') as Hv by by apply (same_view_insert _ _ _ pg).
  destruct (co_aband Hc) as (L & HL & Hn).
  assert (PageAt s i ∉ L) as HnL.
  { intros (p & Hp & Hab)%(proj2 HL). simplify_eq. unfold is_abandoned in Hab. rewrite Ha in Hab.
    rewrite (bool_decide_false (Some (HeapAt a) = _)) in Hab by done. by rewrite andb_false_r in Hab. }
  split_and!.
  - split; [|done]. simpl.
    apply (central_core_used None None 0 _ _ (central st) _ s i pg _ _ (PageAt s i :: L)); try done.
    + split.
      * split; [done|]. exists (c_abandoned (central st)). split; [unfold pg_nxt; by simplify_map_eq|].
        eapply chain_ext; [|apply HL]. intros q Hq. unfold pg_nxt. rewrite lookup_insert_ne; [done|]. by intros <-.
      * intros q. rewrite elem_of_cons, (proj2 HL q). destruct (decide (q = PageAt s i)) as [->|Hq].
        -- rewrite lookup_insert_eq. split; [|by left]. intros _. eexists. split; [done|].
           unfold is_abandoned. simpl. by rewrite Hu.
        -- rewrite lookup_insert_ne by done. naive_solver.
    + simpl. rewrite Hn, u64_add_l. f_equal. simpl. lia.
    + simpl. rewrite (co_inuse Hc), u64_sub_l. f_equal. rewrite (msum_update _ _ _ pg) by done.
      rewrite (proj2 (heap_owned_bool _ pg)) by (split; eauto).
      unfold owned_by_heap at 3. simpl. rewrite andb_false_r. simpl. lia.
  - by apply (same_view_mem st).
  - by apply (same_view_mem st).
  - by constructor.
  - done.
  - done.
Qed.

(** ** The sweep *)

(** What the sweep leaves alone: everything but abandoned pages. *)
Record sweep_post st st' : Prop := {
  sp_central : central_ok None st';
  sp_mem : mem_ok st';
  sp_alloc : same_alloc st st';
  sp_others : others_same st st';
  sp_owned q p : heap_owned p → pages st' !! q = Some p ↔ pages st !! q = Some p;
  sp_room : reg_room (registry st) → reg_room (registry st')
}.

Lemma sweep_post_trans st1 st2 st3 : sweep_post st1 st2 → sweep_post st2 st3 → sweep_post st1 st3.
Proof.
  intros [A1 A2 A3 A4 A5 A6] [B1 B2 B3 B4 B5 B6]. constructor; try done; eauto.
  - by eapply same_alloc_trans.
  - by eapply others_same_trans.
  - intros q p Hp. by rewrite B5, A5.
Qed.

(** An abandoned page that the sweep has visited and kept. *)
Definition swept P r : Prop :=
  ∃ pg, P !! r = Some pg ∧ pg_used pg ≠ 0 ∧ pg_thread_free pg = None.

Lemma last_snoc_inv {A} (l : list A) : l = [] ∨ ∃ l' x, l = l' ++ [x].
Proof. destruct l as [|x l' _] using rev_ind; eauto. Qed.

Lemma read_pp_spec st A B (Q : option pageref → State → Prop) :
  chain (pg_nxt (pages st)) (c_abandoned (central st)) (A ++ B) →
  (∀ v, v = head B → Q v st) → wp (read_pp (last A)) Q st.
Proof.
  intros Hc HQ. destruct (last_snoc_inv A) as [->|(A' & t & ->)].
  - simpl. apply wp_gets, HQ. destruct B as [|b B]; [done|]. by destruct Hc.
  - rewrite last_snoc. simpl. unfold chain in Hc. rewrite <-app_assoc in Hc.
    apply cseg_app in Hc as (x & _ & -> & (n & Hn & Hc)). unfold pg_nxt in Hn.
    destruct (pages st !! t) as [pt|] eqn:Ht; simplify_eq/=. st_steps. apply HQ.
    destruct B as [|b B]; [done|]. by destruct Hc.
Qed.

(** Unlinking the abandoned page [r] that follows [A]. *)
Lemma aband_unlink P P' h h' A r B n :
  aband_list None P h (A ++ r :: B) → chain (pg_nxt P') h' (A ++ B) →
  (∀ q, is_Some (P' !! q) ↔ is_Some (P !! q)) →
  (∀ q p p', P !! q = Some p → P' !! q = Some p' → is_abandoned None q p' = is_abandoned None q p) →
  n = u64 (Z.of_nat (length (A ++ r :: B))) →
  aband_list (Some r) P' h' (A ++ B) ∧ u64 (n - 1) = u64 (Z.of_nat (length (A ++ B))).
Proof.
  intros [Hc Hm] Hc' Hdom Hsame ->. pose proof (chain_NoDup _ _ _ Hc) as Hnd.
  rewrite Permutation_app_comm in Hnd. simpl in Hnd. apply NoDup_cons in Hnd as [Hnd _].
  split; [split; [done|]|].
  - intros q. assert (q ∈ A ++ B ↔ q ∈ A ++ r :: B ∧ q ≠ r) as ->.
    { rewrite !elem_of_app, elem_of_cons in *. naive_solver. }
    rewrite Hm. split.
    + intros [(p & Hp & Hab) Hq]. destruct (proj2 (Hdom q) ltac:(eauto)) as [p' Hp'].
      exists p'. split; [done|]. rewrite (proj2 (X_other r q p' Hq)). by rewrite (Hsame q p p').
    + intros (p' & Hp' & Hab). destruct (decide (q = r)) as [->|Hq].
      { by rewrite (proj2 (X_self r p')) in Hab. }
      split; [|done]. destruct (proj1 (Hdom q) ltac:(eauto)) as [p Hp]. exists p. split; [done|].
      rewrite (proj2 (X_other r q p' Hq)) in Hab. by rewrite <-(Hsame q p p').
  - rewrite u64_sub_l. f_equal. rewrite !length_app. simpl. lia.
Qed.

(** The state after [*pp = pg->next] and the decrement. *)
Definition unlinked st A (v : option pageref) st' : Prop :=
  match last A with
  | Some t => ∃ pt, pages st !! t = Some pt ∧ st' = set_pages (<[t := set_pg_next v pt]> (pages st)) st
  | None => st' = set_central (set_c_abandoned v (central st)) st
  end.

Lemma write_pp_spec st A B (Q : unit → State → Prop) v :
  chain (pg_nxt (pages st)) (c_abandoned (central st)) (A ++ B) →
  (∀ st', unlinked st A v st' → Q tt st') → wp (write_pp (last A) v) Q st.
Proof.
  intros Hc HQ. destruct (last_snoc_inv A) as [->|(A' & t & ->)].
  - simpl. apply wp_upd_central, HQ. done.
  - rewrite last_snoc. simpl. unfold chain in Hc. rewrite <-app_assoc in Hc.
    apply cseg_app in Hc as (x & _ & -> & (n & Hn & Hc)). unfold pg_nxt in Hn.
    destruct (pages st !! t) as [pt|] eqn:Ht; simplify_eq/=. eapply wp_upd_page; [done|]. apply HQ.
    unfold unlinked. rewrite last_snoc. eauto.
Qed.

(** A member of the abandoned list. *)
Lemma abandoned_member X st L r :
  central_ok X st → aband_list None (pages st) (c_abandoned (central st)) L → r ∈ L →
  ∃ s i pg, r = PageAt s i ∧ pages st !! r = Some pg ∧ pg_in_use pg = true ∧ pg_owner pg = Some ABANDONED_OWNER.
Proof.
  intros [Hc _] HL Hr. destruct (proj1 (proj2 HL r) Hr) as (pg & Hpg & Hab). unfold is_abandoned in Hab. bool_hyps.
  destruct r as [|s i]; [by rewrite (pk_empty _ _ (co_pages Hc)) in Hpg; simplify_eq|]. by exists s, i, pg.
Qed.

(** Taking an abandoned page off the books changes no sum over owned pages. *)
Lemma msum_transit P r pg :
  P !! r = Some pg → pg_owner pg = Some ABANDONED_OWNER →
  msum (λ q p, count (owned_by_heap (Some r) q p)) P = msum (λ q p, count (owned_by_heap None q p)) P.
Proof.
  intros Hr Ho. rewrite <-(insert_id P r pg Hr) at 1.
  rewrite (msum_change (λ q p, count (owned_by_heap None q p)) _ P r pg); [|done|].
  - rewrite (proj1 (X_self r pg)). unfold owned_by_heap. rewrite Ho, andb_false_r. simpl. lia.
  - intros q p Hq _. by rewrite (proj1 (X_other r q p Hq)).
Qed.

(** What unlinking the abandoned page [r] leaves: [r] is in transit, its page and
    the links of the others are as before. *)
Record unlinked_post st r (L : list pageref) pg st2 : Prop := {
  up_central : central_ok (Some r) st2;
  up_mem : mem_ok st2;
  up_alloc : same_alloc st st2;
  up_others : others_same st st2;
  up_list : aband_list (Some r) (pages st2) (c_abandoned (central st2)) L;
  up_page : pages st2 !! r = Some pg;
  up_view : same_view (pages st) (pages st2);
  up_owned q p : heap_owned p → pages st2 !! q = Some p ↔ pages st !! q = Some p;
  up_registry : registry st2 = registry st
}.
Definition one_less st : State :=
  set_central (set_c_abandoned_count (u64 (c_abandoned_count (central st) - 1)) (central st)) st.

Lemma aband_count X st L :
  central_ok X st → X = None → aband_list None (pages st) (c_abandoned (central st)) L →
  c_abandoned_count (central st) = u64 (Z.of_nat (length L)).
Proof.
  intros [Hc _] -> HL. destruct (co_aband Hc) as (L' & HL' & ->). do 3 f_equal. eapply chain_det; [apply HL'|apply HL].
Qed.

Lemma unlink_first st r B pg :
  central_ok None st → mem_ok st → aband_list None (pages st) (c_abandoned (central st)) (r :: B) →
  pages st !! r = Some pg →
  unlinked_post st r B pg (one_less (set_central (set_c_abandoned (pg_next pg) (central st)) st)).
Proof.
  intros Hck Hm HL Hr. destruct (abandoned_member None st _ r Hck HL ltac:(left)) as (s & i & pg' & -> & Hp' & Hu & Ho).
  assert (pg' = pg) as -> by congruence. destruct (proj1 HL) as [_ (n & Hnx & Hch)].
  unfold pg_nxt in Hnx. rewrite Hr in Hnx. simplify_eq/=.
  destruct (aband_unlink (pages st) (pages st) _ (pg_next pg) [] (PageAt s i) B (c_abandoned_count (central st)) HL Hch) as [HL2 Hn2];
    [done|by intros; simplify_eq|by apply (aband_count None)|].
  constructor; try done; try by apply (same_view_mem st).
  destruct Hck as [Hc Hav]. split; [|done]. destruct Hc. constructor; simpl; try done.
  - exists B. split; [done|exact Hn2].
  - rewrite co_inuse. f_equal. symmetry. by apply (msum_transit _ _ pg).
Qed.

Lemma unlink_inner st A t r B pg pt :
  central_ok None st → mem_ok st → aband_list None (pages st) (c_abandoned (central st)) ((A ++ [t]) ++ r :: B) →
  pages st !! r = Some pg → pages st !! t = Some pt →
  unlinked_post st r ((A ++ [t]) ++ B) pg (one_less (set_pages (<[t := set_pg_next (pg_next pg) pt]> (pages st)) st)).
Proof.
  intros Hck Hm HL Hr Hpt. pose proof (chain_NoDup _ _ _ (proj1 HL)) as Hnd. rewrite <-app_assoc in Hnd. simpl in Hnd.
  pose proof Hnd as (_ & Htn & [Htr _]%NoDup_cons)%NoDup_app.
  destruct (abandoned_member None st _ r Hck HL ltac:(set_solver)) as (s' & i' & pg' & Er & Hp' & Hu & Ho).
  destruct (abandoned_member None st _ t Hck HL ltac:(set_solver)) as (s & i & pt' & -> & Hpt' & Hut & Hot).
  assert (pg' = pg ∧ pt' = pt) as [-> ->] by (split; congruence).
  set (P' := <[PageAt s i := set_pg_next (pg_next pg) pt]> (pages st)).
  assert (r ≠ PageAt s i) as Hne by (intros ->; set_solver).
  assert (P' !! r = Some pg) as Hr' by (unfold P'; by rewrite lookup_insert_ne).
  assert (chain (pg_nxt P') (c_abandoned (central st)) ((A ++ [PageAt s i]) ++ B)) as Hch.
  { rewrite <-app_assoc. apply (chain_unlink (pg_nxt (pages st)) _ _ A (PageAt s i) r (pg_next pg)).
    - rewrite <-app_assoc in HL. apply HL.
    - intros x Hx. unfold pg_nxt, P'. rewrite lookup_insert_ne; [done|]. intros <-. set_solver.
    - unfold pg_nxt. by rewrite Hr.
    - unfold pg_nxt, P'. by rewrite lookup_insert_eq. }
  destruct (aband_unlink (pages st) P' _ (c_abandoned (central st)) (A ++ [PageAt s i]) r B
    (c_abandoned_count (central st)) HL Hch) as [HL2 Hn2].
  { intros q. unfold P'. rewrite lookup_insert. case_decide as E; [|done]. subst q. rewrite Hpt. split; eauto. }
  { intros q p p'. unfold P'. rewrite lookup_insert. case_decide as E; [|naive_solver].
    subst q. intros Hp3 [= <-]. simplify_eq. done. }
  { by apply (aband_count None). }
  assert (same_view (pages st) P') as Hv by by apply (same_view_insert _ _ _ pt).
  constructor; try done; try by apply (same_view_mem st).
  - destruct Hck as [Hc Hav]. split; [|done]. simpl. replace (set_c_abandoned_count _ _) with
      (set_c_pages_in_use (c_pages_in_use (central st)) (set_c_abandoned_count (u64 (c_abandoned_count (central st) - 1))
        (set_c_abandoned (c_abandoned (central st)) (central st)))) by by destruct (central st).
    apply (central_core_used None (Some r) 0 _ _ (central st) _ s i pt _ _ ((A ++ [PageAt s i]) ++ B)); try done.
    rewrite (co_inuse Hc). f_equal. fold P'. rewrite (msum_transit P' r pg Hr' Ho). symmetry. by apply (msum_owned_same None _ _ pt).
  - intros q p [Hpu [a Hpa]]. simpl. unfold P'. rewrite lookup_insert. case_decide as E; [|done].
    subst q. split; intros; simplify_eq; simpl in *; congruence.
Qed.

Lemma unlink_spec st A r B pg st1 :
  central_ok None st → mem_ok st → aband_list None (pages st) (c_abandoned (central st)) (A ++ r :: B) →
  pages st !! r = Some pg → unlinked st A (pg_next pg) st1 → unlinked_post st r (A ++ B) pg (one_less st1).
Proof.
  intros Hc Hm HL Hr Hun. unfold unlinked in Hun. destruct (last_snoc_inv A) as [->|(A' & t & ->)].
  - simpl in Hun. subst st1. by apply unlink_first.
  - rewrite last_snoc in Hun. destruct Hun as (pt & Hpt & ->). by apply unlink_inner.
Qed.

(** The abandoned list after [r], in transit, went back to the pool. *)
Lemma aband_list_pool st st' r L :
  aband_list (Some r) (pages st) (c_abandoned (central st)) L → pool_post r st st' →
  aband_list None (pages st') (c_abandoned (central st')) L.
Proof.
  intros [Hc Hm] [P1 P2 P3 P4 P5 P6 P7 P8]. rewrite P7.
  assert (∀ q p, is_abandoned (Some r) q p = true → q ≠ r ∧ pg_in_use p = true ∧ is_abandoned None q p = true) as Hx.
  { intros q p Hab. destruct (decide (q = r)) as [->|Hq]; [by rewrite (proj2 (X_self r p)) in Hab|].
    rewrite (proj2 (X_other r q p Hq)) in Hab. split_and!; try done. unfold is_abandoned in Hab. by bool_hyps. }
  split.
  - eapply chain_ext; [|done]. intros q (p & Hp & (Hq & Hu & _)%Hx)%Hm. unfold pg_nxt.
    by rewrite Hp, (proj2 (P5 q p Hq Hu) Hp).
  - intros q. rewrite Hm. split.
    + intros (p & Hp & (Hq & Hu & Hab)%Hx). exists p. split; [by apply P5|done].
    + intros (p & Hp & Hab). assert (pg_in_use p = true) as Hu by (unfold is_abandoned in Hab; by bool_hyps).
      assert (q ≠ r) as Hq by (intros ->; rewrite (P6 p Hp) in Hu; done).
      exists p. split; [by apply P5|]. by rewrite (proj2 (X_other r q p Hq)).
Qed.

Lemma swept_view P P' q : same_view P P' → swept P q → swept P' q.
Proof.
  intros Hv (pg & Hpg & Hs). destruct (same_view_lookup _ _ _ _ Hv Hpg) as (pg' & Hpg' & E).
  unfold page_view in E. injection E as E1 E2 E3 E4 E5 E6 E7 E8 E9. exists pg'.
  rewrite E2, E9. done.
Qed.

Definition sweep_done st st' : Prop :=
  sweep_post st st' ∧ ∃ L, aband_list None (pages st') (c_abandoned (central st')) L ∧
    ∀ q, q ∈ L → swept (pages st') q.

(** The sweep collects the page it visits. *)
Lemma sweep_visit st A r B pg :
  central_ok None st → mem_ok st → aband_list None (pages st) (c_abandoned (central st)) (A ++ r :: B) →
  (∀ q, q ∈ A → swept (pages st) q) → r = PageAt pg.1 pg.2 →
  wp (collect_locked r) (λ _ st1, ∃ pg1, sweep_post st st1 ∧ pages st1 !! r = Some pg1 ∧
    pg_in_use pg1 = true ∧ pg_owner pg1 = Some ABANDONED_OWNER ∧ pg_thread_free pg1 = None ∧
    aband_list None (pages st1) (c_abandoned (central st1)) (A ++ r :: B) ∧ ∀ q, q ∈ A → swept (pages st1) q) st.
Proof.
  intros Hc Hm HL HA ->. destruct pg as [s i]. cbn [fst snd] in *. set (r := PageAt s i) in *.
  pose proof (chain_NoDup _ _ _ (proj1 HL)) as Hnd.
  destruct (abandoned_member None st _ r Hc HL ltac:(set_solver)) as (? & ? & pg & _ & Hpg & Hu & Ho).
  rewrite collect_locked_eq. eapply wp_mono; [by apply (page_collect_mem st s i pg)|].
  intros [] st1 (m1 & pg1 & -> & Hcore & Htf & Hm1 & Ha1). fold r in Hm1, Ha1 |- *. exists pg1.
  unfold page_core in Hcore. pose proof Hcore as E. injection E as E1 E2 E3 E4 E5 E6 E7 E8.
  split_and!; [|apply pages_page_state|congruence|congruence|done| |].
  - constructor; try done.
    + destruct Hc as [Hc Hav]. split; [|done]. by apply (central_core_moved None 0 _ _ _ r pg).
    + intros q p [Hup [a Hpa]]. simpl. rewrite lookup_insert. case_decide as Eq; [|done].
      subst q. split; intros; simplify_eq; congruence.
  - apply (aband_list_same None _ _ _ r pg); try done. unfold is_abandoned. by rewrite E4, E5.
  - intros q Hq. destruct (HA q Hq) as (p & Hp & Hs). exists p. split; [|done]. simpl.
    rewrite lookup_insert_ne; [done|]. intros <-. apply NoDup_app in Hnd as (_ & Hd & _). apply (Hd r Hq). by left.
Qed.

(** An empty page in transit went to the pool. *)
Lemma sweep_pooled st A r B pg st1 st2 :
  unlinked_post st r (A ++ B) pg st1 → pool_post r st1 st2 → pg_owner pg = Some ABANDONED_OWNER → r ∉ A →
  (∀ q, q ∈ A → swept (pages st) q) →
  sweep_post st st2 ∧ (∀ q, q ∈ A → swept (pages st2) q).
Proof.
  intros [U1 U2 U3 U4 U5 U6 U7 U8 U9] [P1 P2 P3 P4 P5 P6 P7 P8] Ho Hr HA. split.
  - constructor; try done; [by eapply same_alloc_trans|by eapply others_same_trans| |by rewrite <-U9].
    intros q p Hq. rewrite <-U8 by done. pose proof Hq as [Huq [a Haq]].
    destruct (decide (q = r)) as [->|Hqr]; [|by apply P5].
    split; [intros Hp; rewrite (P6 p Hp) in Huq; done|]. intros Hp; simplify_eq; congruence.
  - intros q Hq. destruct (swept_view _ _ _ U7 (HA q Hq)) as (p & Hp & Hs). exists p. split; [|done].
    apply P5; [by intros ->| |done]. destruct (proj1 (proj2 U5 q) ltac:(set_solver)) as (p' & Hp' & Hab').
    simplify_eq. unfold is_abandoned in Hab'. by bool_hyps.
Qed.

Lemma sweep_loop_spec fuel : ∀ st A B,
  central_ok None st → mem_ok st → aband_list None (pages st) (c_abandoned (central st)) (A ++ B) →
  (∀ q, q ∈ A → swept (pages st) q) → (length B < fuel)%nat →
  wp (sweep_loop fuel (last A)) (λ _ st', sweep_done st st') st.
Proof.
  induction fuel as [|fuel IH]; intros st A B Hc Hm HL HA Hf; [lia|]. cbn [sweep_loop].
  apply wp_bind, (read_pp_spec st A B); [apply HL|]. intros v ->. destruct B as [|r B].
  { simpl. apply wp_ret. split; [by constructor|]. exists A. by rewrite app_nil_r in HL. }
  cbn [head]. simpl in Hf. destruct (abandoned_member None st _ r Hc HL ltac:(set_solver)) as (s & i & pg & Er & _).
  pose proof (chain_NoDup _ _ _ (proj1 HL)) as (_ & HrA & _)%NoDup_app.
  apply wp_bind. eapply wp_mono; [by apply (sweep_visit st A r B (s, i))|].
  intros [] st1 (pg1 & Hsw & Hpg1 & Hu & Ho & Htf & HL1 & HA1). pose proof Hsw as [Hc1 Hm1 _ _ _ _].
  apply wp_bind. eapply wp_load_page; [done|]. destruct (pg_used pg1 =? 0) eqn:E0; bool_hyps.
  - apply wp_bind, (write_pp_spec st1 A (r :: B)); [apply HL1|]. intros st1' Hun.
    pose proof (unlink_spec st1 A r B pg1 st1' Hc1 Hm1 HL1 Hpg1 Hun) as Hup. apply wp_bind, wp_upd_central.
    change (set_central _ st1') with (one_less st1'). apply wp_bind. eapply wp_mono.
    { apply (pool_return_spec _ r pg1); try apply Hup; try done. by rewrite Er. }
    intros [] st3 Hpp. pose proof (aband_list_pool _ _ _ _ (up_list _ _ _ _ _ Hup) Hpp) as HL3.
    destruct (sweep_pooled st1 A r B pg1 _ st3 Hup Hpp Ho) as [Hsw3 HA3]; [intros Hr; apply (HrA r Hr); by left|done|].
    pose proof (sweep_post_trans _ _ _ Hsw Hsw3) as Hsw13.
    eapply wp_mono; [apply (IH st3 A B); try apply Hsw3; try done; lia|].
    intros [] st' [Hd1 Hd2]. split; [by eapply sweep_post_trans|done].
  - rewrite <-(last_snoc r A). eapply wp_mono; [apply (IH st1 (A ++ [r]) B); try done|].
    + by rewrite <-app_assoc.
    + intros q [Hq| ->%list_elem_of_singleton]%elem_of_app; [by apply HA1|]. by exists pg1.
    + lia.
    + intros [] st' [Hd1 Hd2]. split; [by eapply sweep_post_trans|done].
Qed.

Lemma sweep_abandoned_spec st :
  central_ok None st → mem_ok st → wp sweep_abandoned (λ _ st', sweep_done st st') st.
Proof.
  intros Hc Hm. unfold sweep_abandoned. apply wp_bind, wp_gets.
  destruct (co_aband (proj1 Hc)) as (L & HL & _).
  apply (sweep_loop_spec _ st [] L); try done.
  - intros q Hq. by apply elem_of_nil in Hq.
  - assert (length L ≤ base.size (pages st))%nat; [|lia].
    apply list_length_size; [eapply chain_NoDup; apply HL|].
    intros q Hq. apply (proj2 HL) in Hq as (p & Hp & _). eauto.
Qed.

(** ** Mapping a segment *)

(** Registering a region of the allocator: at most the table moves. *)
Lemma register_mem st b (Q : unit → State → Prop) :
  mem_ok (Lg:=unknown) st → lists_others st b → reg_room (registry st) → key_ok b → is_region st b →
  (∀ reg' o', let st' := set_registry reg' (set_os o' st) in
     mem_ok st' → same_alloc st st' → Q tt st') →
  wp (in_registry (region_register b)) Q st.
Proof.
  intros H (X & Hwf & HL & HC) Hroom Hk Hb HQ. destruct (mo_registry H) as (X' & Hwf' & _ & HX & _).
  rewrite (reg_wf_det _ _ _ Hwf Hwf') in HX. clear X' Hwf'. apply wp_in_registry.
  eapply wp_mono; [by apply (region_register_spec _ _ X b Hwf (reg_mem_of st H) Hroom)|].
  intros [] [reg' o'] (Hm' & Hst & Hreg & Hcalm). cbn [fst snd] in *.
  destruct (os_step_same st (set_registry reg' (set_os o' st)) H eq_refl eq_refl (ro_bytes _ _ _ _ Hst)) as [Hb' Ha'].
  assert (regions_ok (region_of (set_registry reg' (set_os o' st))) o') as HR.
  { eapply regions_ok_ext; [|apply (regions_ok_registry _ _ _ reg' o' (mo_regions H) eq_refl Hst Hm')]. intros [s|a|l|]; done. }
  pose proof (counted_registry st (set_registry reg' (set_os o' st)) (mo_regions H) (mo_count H) Hst ltac:(by intros []) HR) as HC'.
  apply HQ; [|done]. constructor; try done; try apply H.
  - destruct (slots reg') eqn:Es.
    + destruct Hreg as (Hwf' & Hr & _). exists ({[b]} ∪ X). split_and!; try done.
      * intros x [->%elem_of_singleton|Hx]%elem_of_union; [done|by apply HX].
      * assert (∀ x, (∀ y, y ≠ b → is_region st y → y ∈ X) → is_region st x → x ∈ {[b]} ∪ X) as Hin.
        { intros x HX0 Hx. apply elem_of_union. rewrite elem_of_singleton.
          destruct (decide (x = b)) as [|Hne]; [by left|right; auto]. }
        split; [intros [_ HL0]%HL; split; [simpl; by rewrite Es|auto]|].
        intros Hc. split; [by apply (Hcalm ledger_calm)|]. pose proof (HC (ro_calm _ _ _ _ Hst ledger_calm Hc)). auto.
    + exists X. simpl. rewrite Hreg. split_and!; try done; [by apply reg_room_1|]. split.
      * intros [Hn _]%HL. by rewrite <- Hreg, Es in Hn.
      * intros Hc. by destruct (Hcalm ledger_calm Hc).
Qed.

(** The same pages are in use. *)
Definition same_used P P' : Prop :=
  ∀ q p, pg_in_use p = true → P' !! q = Some p ↔ P !! q = Some p.

Lemma small_alloc_used m P P' b n :
  same_used P P' → small_alloc m P' b n ↔ small_alloc m P b n.
Proof.
  intros HP. unfold small_alloc. split; intros (s & i & pg & lf & lt & Hpg & Hu & Hr);
    exists s, i, pg, lf, lt; (split; [by apply HP|done]).
Qed.

(** A fresh region for the segment [s]: nothing else changes. *)
Lemma grown_segment_mem st st' s :
  mem_ok st → os_grown (os st) (os st') s SEGMENT_SIZE → s mod SEGMENT_SIZE = 0 →
  registry st' = registry st → heaps st' = heaps st → larges st' = larges st →
  (∀ x, is_Some (segs st' !! x) ↔ x = s ∨ is_Some (segs st !! x)) →
  same_used (pages st) (pages st') →
  (∀ x i, is_Some (pages st' !! PageAt x i) → is_Some (segs st' !! x)) → segs st !! s = None →
  mem_ok (Lg:=unknown) st' ∧ lists_others st' s ∧ same_alloc st st'.
Proof.
  intros H Hg Hal E1 E2 E3 Hs Hu Hp Hnew.
  pose proof (os_step_blocks st (bytes (os st')) H (og_frame _ _ _ _ Hg)) as Hblk.
  destruct (regions_grow st st' (RSeg s) s SEGMENT_SIZE (mo_regions H) (mo_count H) Hg) as [HR HC].
  { done. }
  { apply mod_0_trans with SEGMENT_SIZE; try done; [pose proof page_size_range; lia|apply segment_page_multiple]. }
  { apply segment_page_multiple. }
  { simpl. by rewrite Hnew. }
  { intros t. unfold rset. case_decide as Et.
    * subst t. simpl. destruct (proj2 (Hs s) ltac:(by left)) as [g ->]. done.
    * destruct t as [x|x|x|]; simpl; rewrite ?E1, ?E2, ?E3; try done.
      apply fmap_const_iff. rewrite Hs. naive_solver. }
  split_and!; [constructor; try exact HR; try exact HC|..].
  - destruct (mo_registry H) as (X & ? & ? & HX & _). exists X. rewrite E1. split_and!; try done.
    intros b Hb. unfold is_region. rewrite Hs, E3. destruct (HX b Hb); auto.
  - intros x i pg Hpg Hup. apply Hu in Hpg; [|done]. destruct (mo_blocks H x i pg Hpg Hup) as (lf & lt & Hok).
    exists lf, lt. apply Hblk; [done|apply Hok|done].
  - done.
  - rewrite E3. apply (mo_large H).
  - apply (registry_others st); [apply H|done| |apply (og_calm _ _ _ _ Hg)]. intros x. unfold is_region. rewrite Hs, E3. naive_solver.
  - split; [|intros b n Hal' x Hx; apply (og_frame _ _ _ _ Hg); by eapply allocated_mapped].
    intros b n. unfold allocated, large_alloc. rewrite E3, (small_alloc_used _ _ _ b n Hu). apply or_iff_compat_r.
    unfold small_alloc. split; intros (x & i & pg & lf & lt & Hpg & Hup & Hok & Hr);
      exists x, i, pg, lf, lt; (split_and!; [done|done| |apply Hr..]); apply Hblk; (done || apply Hok).
Qed.

(** A fresh mapping is at the base of no region. *)
Lemma grown_new st o' p n t q k :
  mem_ok st → os_grown (os st) o' p n → 0 < n → region_of st t = Some (q, k) → q ≠ p.
Proof.
  intros H Hg Hn Ht ->. pose proof (rg_shape _ _ (mo_regions H) t p k Ht) as (? & _).
  pose proof (rg_mapped _ _ (mo_regions H) t p k p Ht ltac:(lia)) as Hm.
  rewrite (og_fresh _ _ _ _ Hg p) in Hm; [done|]. apply in_range_true. lia.
Qed.

Lemma lookup_new_pages s P l q :
  foldr (λ i p, <[PageAt s i := zero_page]> p) P l !! q =
  match q with
  | PageAt s' i => if bool_decide (s' = s ∧ i ∈ l) then Some zero_page else P !! q
  | EmptyPage => P !! q
  end.
Proof.
  induction l as [|i l IH]; simpl.
  - destruct q as [|s' i]; [done|]. by rewrite bool_decide_false by set_solver.
  - rewrite lookup_insert. case_decide as E.
    + subst q. by rewrite bool_decide_true by set_solver.
    + rewrite IH. destruct q as [|s' j]; [done|].
      rewrite (bool_decide_ext (s' = s ∧ j ∈ i :: l) (s' = s ∧ j ∈ l)); [done|].
      rewrite elem_of_cons. naive_solver.
Qed.
End central_ops.
