(* ===== verification/Acquire.v ===== *)
(** * Mapping a segment and acquiring a page *)
From Stdlib Require Import ZArith Lia.
From stdpp Require Import base numbers list gmap.
From S2P Require Import Prelude Words Constants SizeClass Segment Memory Os Chains Sums RegionRegistry State Regions PageOps Allocated Central CentralInv CentralSpec PoolSpec CentralOps.

Section acquire.
Context {K : Kernel} {KL : KernelLaws K} {Lg : Ledger}.
Implicit Types (st : State) (r : pageref) (S : gmap Z Segment) (P : gmap pageref Page)
  (c : CentralState).

(** The pages [PageAt s i .. PageAt s (i + n - 1)], last first. *)
Definition seg_pages (s i n : Z) : list pageref := reverse (PageAt s <$> seqZ i n).

Lemma elem_of_seg_pages s i n r : r ∈ seg_pages s i n ↔ ∃ j, r = PageAt s j ∧ i ≤ j < i + n.
Proof.
  unfold seg_pages. rewrite elem_of_reverse, list_elem_of_fmap. setoid_rewrite elem_of_seqZ. naive_solver.
Qed.

Lemma seg_pages_S s i n :
  seg_pages s i (Z.of_nat (Datatypes.S n)) = seg_pages s (i + 1) (Z.of_nat n) ++ [PageAt s i].
Proof.
  unfold seg_pages. rewrite seqZ_cons by lia. rewrite fmap_cons, reverse_cons. do 4 f_equal; lia.
Qed.

(** The loop threads the pages on the free list of the header. *)
Lemma map_segment_loop_spec n : ∀ st s i g L (Q : unit → State → Prop),
  seg_base s → 0 ≤ i → i + Z.of_nat n ≤ PAGES_PER_SEGMENT → segs st !! s = Some g →
  (∀ j, i ≤ j < i + Z.of_nat n → is_Some (pages st !! PageAt s j)) →
  chain (pg_nxt (pages st)) (sg_free_list g) L → (∀ r, r ∈ L → ∃ j, r = PageAt s j ∧ j < i) →
  sg_free_count g = Z.of_nat (length L) → Z.of_nat (length L) ≤ i →
  (∀ P' f, let g' := set_sg_free_count (Z.of_nat (length L) + Z.of_nat n) (set_sg_free_list f g) in
     chain (pg_nxt P') f (seg_pages s i (Z.of_nat n) ++ L) →
     (∀ j, i ≤ j < i + Z.of_nat n → ∃ pg, P' !! PageAt s j = Some pg ∧ pg_in_use pg = false ∧
        pg_area pg = page_area s j) →
     (∀ r, r ∉ seg_pages s i (Z.of_nat n) → P' !! r = pages st !! r) →
     Q tt (set_segs (<[s := g']> (segs st)) (set_pages P' st))) →
  wp (map_segment_loop n s i) Q st.
Proof.
  induction n as [|n IH]; intros st s i g L Q Hb Hi0 Hi Hg Hpg Hc HL Hn HLi HQ.
  - cbn [map_segment_loop]. apply wp_ret.
    replace st with (set_segs (<[s := set_sg_free_count (Z.of_nat (length L) + Z.of_nat 0)
      (set_sg_free_list (sg_free_list g) g)]> (segs st)) (set_pages (pages st) st)).
    { apply HQ; [done|intros; lia|done]. }
    rewrite Z.add_0_r, <-Hn. replace (set_sg_free_count _ _) with g by by destruct g.
    rewrite insert_id by done. by destruct st.
  - cbn [map_segment_loop]. destruct (Hpg i ltac:(lia)) as [pg Hpgi]. st_steps.
    cbn [segs pages set_segs set_pages]. rewrite !insert_insert_eq.
    assert (u64 (s + u64 (i * PAGE_SIZE)) = page_area s i) as ->.
    { destruct Hb as (? & _ & ?). unfold page_area. consts.
      rewrite (u64_small (i * 65536)) by lia. apply u64_small. lia. }
    set (pg1 := set_pg_next _ _). set (g1 := set_sg_free_count _ _).
    set (st1 := set_segs (<[s := g1]> (segs st)) (set_pages (<[PageAt s i := pg1]> (pages st)) st)).
    match goal with |- wp ?m ?Q _ => change (wp m Q st1) end.
    assert (PageAt s i ∉ L) as HnL by (intros (j & [= <-] & ?)%HL; lia).
    assert (sg_free_count g1 = Z.of_nat (length (PageAt s i :: L))) as Hn1.
    { unfold g1. simpl. consts. rewrite Hn, u32_small by lia. lia. }
    apply (IH st1 s (i + 1) g1 (PageAt s i :: L)); try done; try lia.
    + unfold st1. simpl. by simplify_map_eq.
    + intros j Hj. unfold st1. simpl. rewrite lookup_insert_ne by congruence || (intros [=]; lia).
      apply Hpg. lia.
    + split; [done|]. exists (sg_free_list g). split; [unfold pg_nxt, st1; simpl; by simplify_map_eq|].
      eapply chain_ext; [|done]. intros q Hq. unfold pg_nxt, st1. simpl.
      rewrite lookup_insert_ne; [done|]. by intros <-.
    + intros q [->|Hq]%elem_of_cons; [exists i; split; [done|lia]|]. destruct (HL q Hq) as (j & -> & ?).
      exists j. split; [done|lia].
    + simpl length. lia.
    + intros P' f g' Hc' HP' Hr'.
      replace (set_segs _ _) with (set_segs (<[s := set_sg_free_count (Z.of_nat (length L) + Z.of_nat (Datatypes.S n))
        (set_sg_free_list f g)]> (segs st)) (set_pages P' st)).
      * apply HQ; [by rewrite seg_pages_S, <-app_assoc| |].
        -- intros j Hj. destruct (decide (j = i)) as [->|Hne]; [|apply HP'; lia].
           exists pg1. rewrite Hr'; [|intros (j & [=] & ?)%elem_of_seg_pages; lia].
           unfold st1. simpl. by simplify_map_eq.
        -- intros q Hq. rewrite Hr'.
           ++ unfold st1. simpl. rewrite lookup_insert_ne; [done|]. intros <-. apply Hq.
              apply elem_of_seg_pages. exists i. split; [done|lia].
           ++ intros (j & -> & ?)%elem_of_seg_pages. apply Hq, elem_of_seg_pages. exists j. split; [done|lia].
      * unfold st1, g', set_segs, set_pages. simpl. rewrite insert_insert_eq. do 2 f_equal.
        unfold g1, set_sg_free_count, set_sg_free_list. cbn -[Z.of_nat Z.add]. f_equal. simpl length. lia.
Qed.

(** The pages of a segment that map_segment has just set up. *)
Record fresh_pages (s : Z) P P' : Prop := {
  fp_usable j : FIRST_USABLE_PAGE ≤ j < PAGES_PER_SEGMENT →
    ∃ pg, P' !! PageAt s j = Some pg ∧ pg_in_use pg = false ∧ pg_area pg = page_area s j;
  fp_header j : 0 ≤ j < FIRST_USABLE_PAGE → P' !! PageAt s j = Some zero_page;
  fp_outside j : ¬ (0 ≤ j < PAGES_PER_SEGMENT) → P' !! PageAt s j = None;
  fp_other r : in_segment s r = false → P' !! r = P !! r
}.

Lemma fresh_idle s P P' j pg :
  fresh_pages s P P' → P' !! PageAt s j = Some pg → pg_in_use pg = false.
Proof.
  intros H Hpg. destruct (decide (0 ≤ j < PAGES_PER_SEGMENT)) as [Hj|Hj].
  2: { rewrite (fp_outside _ _ _ H j Hj) in Hpg. done. }
  destruct (decide (j < FIRST_USABLE_PAGE)) as [Hl|Hl].
  - rewrite (fp_header _ _ _ H j) in Hpg by lia. by simplify_eq.
  - destruct (fp_usable _ _ _ H j ltac:(lia)) as (p & Hp & Hu & _). by simplify_eq.
Qed.

Lemma fresh_used s S P P' :
  fresh_pages s P P' → pages_ok S P → S !! s = None → same_used P P'.
Proof.
  intros H HP Hs q p Hu. destruct (in_segment s q) eqn:E; [|by rewrite (fp_other _ _ _ H)].
  destruct q as [|s' j]; [done|]. rewrite in_segment_page in E. apply bool_decide_eq_true in E as ->. split.
  - intros Hp. rewrite (fresh_idle s P P' j p H Hp) in Hu. done.
  - intros Hp. assert (is_Some (P !! PageAt s j)) as [[g Hg] _]%(pk_dom _ _ HP) by eauto. congruence.
Qed.

Lemma fresh_drop s S P P' :
  fresh_pages s P P' → pages_ok S P → S !! s = None → drop_pages s P' = P.
Proof.
  intros H HP Hs. apply map_eq. intros q. rewrite lookup_drop_pages.
  destruct (in_segment s q) eqn:E; [|by rewrite (fp_other _ _ _ H)].
  destruct q as [|s' j]; [done|]. rewrite in_segment_page in E. apply bool_decide_eq_true in E as ->.
  destruct (P !! PageAt s j) eqn:Ep; [|done].
  assert (is_Some (P !! PageAt s j)) as [[g Hg] _]%(pk_dom _ _ HP) by eauto. congruence.
Qed.

Lemma pages_ok_fresh s S P P' g :
  fresh_pages s P P' → pages_ok S P → S !! s = None → pages_ok (<[s := g]> S) P'.
Proof.
  intros H HP Hs. constructor.
  - intros x i. destruct (decide (x = s)) as [->|Hx].
    + rewrite lookup_insert_eq. destruct (decide (0 ≤ i < PAGES_PER_SEGMENT)) as [Hi|Hi].
      * split; [eauto|]. intros _. destruct (decide (i < FIRST_USABLE_PAGE)).
        -- rewrite (fp_header _ _ _ H) by lia. eauto.
        -- destruct (fp_usable _ _ _ H i ltac:(lia)) as (p & Hp & _). eauto.
      * rewrite (fp_outside _ _ _ H i Hi). split; [by intros []|by intros [_ ?]].
    + rewrite lookup_insert_ne by done. rewrite (fp_other _ _ _ H); [apply HP|].
      rewrite in_segment_page. by apply bool_decide_false.
  - rewrite (fp_other _ _ _ H) by done. apply HP.
  - intros x i pg Hpg Hi. destruct (decide (x = s)) as [->|Hx].
    + destruct (decide (i < PAGES_PER_SEGMENT)) as [Hl|Hl].
      * destruct (fp_usable _ _ _ H i ltac:(lia)) as (p & Hp & _ & Ha). by simplify_eq.
      * rewrite (fp_outside _ _ _ H i) in Hpg by lia. done.
    + rewrite (fp_other _ _ _ H) in Hpg by (rewrite in_segment_page; by apply bool_decide_false).
      by apply (pk_area _ _ HP).
  - intros x i pg Hpg Hi. destruct (decide (x = s)) as [->|Hx]; [by eapply fresh_idle|].
    rewrite (fp_other _ _ _ H) in Hpg by (rewrite in_segment_page; by apply bool_decide_false).
    by apply (pk_header _ _ HP x i).
  - intros q pg Hpg Hu. apply (fresh_used s S P P' H HP Hs) in Hpg; [|done]. by apply (pk_owner _ _ HP q).
Qed.

(** The invariant with a new, fully free segment. *)
Lemma central_core_add s g S P P' c :
  central_core None 0 S P c → S !! s = None → seg_base s →
  (∀ x gx, S !! x = Some gx → sg_free_count gx = 0) →
  sg_kind g = Small → sg_mmap_size g = SEGMENT_SIZE → sg_next g = c_segments c →
  sg_free_count g = USABLE_PAGES_PER_SEGMENT →
  chain (pg_nxt P') (sg_free_list g) (seg_pages s FIRST_USABLE_PAGE USABLE_PAGES_PER_SEGMENT) →
  fresh_pages s P P' →
  central_core None 0 (<[s := g]> S) P'
    (set_c_free_segments (u64 (c_free_segments c + 1)) (set_c_num_segments (u64 (c_num_segments c + 1))
      (set_c_segments (Some s) (set_c_free_page_count (u64 (c_free_page_count c + sg_free_count g)) c)))).
Proof.
  intros H Hs Hb Hnone Hk Hm Hn Hc Hch HP. pose proof (co_pages H) as HP0.
  assert (c_free_segments c = 0) as Hfs.
  { rewrite (co_fsegs H), msum_zero; [lia|]. intros k gk Ek. unfold full_free. by rewrite (Hnone k gk Ek). }
  assert (∀ q, in_segment s q = false → pg_nxt P' q = pg_nxt P q) as Hnx.
  { intros q Hq. unfold pg_nxt. by rewrite (fp_other _ _ _ HP). }
  constructor; simpl.
  - destruct (co_segs H) as (L & HL & HLm). exists (s :: L). split.
    + split; [done|]. exists (c_segments c). split; [unfold sg_nxt; simplify_map_eq; by rewrite Hn|].
      eapply chain_ext; [|done]. intros x Hx. unfold sg_nxt. rewrite lookup_insert_ne; [done|].
      intros <-. apply HLm in Hx as [? ?]. congruence.
    + intros x. rewrite elem_of_cons, HLm. destruct (decide (x = s)) as [->|Hx].
      * rewrite lookup_insert_eq. split; [eauto|by left].
      * rewrite lookup_insert_ne by done. naive_solver.
  - intros x gx. rewrite lookup_insert. case_decide as E.
    + intros [= <-]. subst x. constructor; try done.
      exists (seg_pages s FIRST_USABLE_PAGE USABLE_PAGES_PER_SEGMENT). split_and!; [done| |].
      * intros r. rewrite elem_of_seg_pages. unfold free_page, USABLE_PAGES_PER_SEGMENT. split.
        -- intros (j & -> & Hj). destruct (fp_usable _ _ _ HP j ltac:(lia)) as (pg & Hpg & Hu & _).
           exists j, pg. split_and!; try done; lia.
        -- intros (j & pg & -> & Hj & _). exists j. split; [done|lia].
      * rewrite Hc. unfold seg_pages. rewrite length_reverse, length_fmap, length_seqZ.
        unfold USABLE_PAGES_PER_SEGMENT. consts. lia.
    + intros Hgx. apply (segment_ok_frame P); [by apply H| |].
      * intros r (j & pg & -> & _). apply Hnx. rewrite in_segment_page. apply bool_decide_false. congruence.
      * intros r. unfold free_page. split; intros (j & pg & -> & Hj & Hpg & Hu); exists j, pg;
          rewrite (fp_other _ _ _ HP) in * by (rewrite in_segment_page; apply bool_decide_false; congruence); done.
  - by apply (pages_ok_fresh s S P).
  - destruct (co_aband H) as (L & [HL HLm] & HLn). exists L. split; [split|done].
    + eapply chain_ext; [|done]. intros q (p & Hp & Hab)%HLm. unfold pg_nxt.
      rewrite (proj2 (fresh_used s S P P' HP HP0 Hs q p ltac:(unfold is_abandoned in Hab; by bool_hyps)) Hp). by rewrite Hp.
    + intros q. rewrite HLm. split; intros (p & Hp & Hab); exists p; (split; [|done]);
        apply (fresh_used s S P P' HP HP0 Hs q p); try done; unfold is_abandoned in Hab; by bool_hyps.
  - rewrite (co_nsegs H), u64_add_l. f_equal. rewrite msum_insert_new by done. lia.
  - rewrite (co_fpages H), u64_add_l. f_equal. rewrite msum_insert_new by done. lia.
  - rewrite msum_insert_new by done. rewrite u64_small by lia. rewrite (co_fsegs H). unfold full_free at 2.
    rewrite Hc, Z.eqb_refl. simpl. lia.
  - rewrite Hfs. done.
  - rewrite (co_inuse H). f_equal. rewrite <-(fresh_drop s S P P' HP HP0 Hs). apply msum_filter.
    intros q p Hp Hq. simpl in Hq. apply not_false_iff_true in Hq. destruct q as [|s' j]; [done|].
    rewrite in_segment_page in Hq. apply bool_decide_eq_true in Hq as ->.
    unfold owned_by_heap. by rewrite (fresh_idle s P P' j p HP Hp).
Qed.

(** What every call into the central heap leaves alone for the thread heaps and
    for the client. *)
Record central_frame st st' : Prop := {
  cf_central : central_ok None st';
  cf_mem : mem_ok st';
  cf_alloc : same_alloc st st';
  cf_others : others_same st st';
  cf_owned q p : heap_owned p → pages st' !! q = Some p ↔ pages st !! q = Some p
}.

Lemma sweep_central_frame st st' : sweep_post st st' → central_frame st st'.
Proof. intros [A1 A2 A3 A4 A5 A6]. by constructor. Qed.

Lemma central_frame_trans st1 st2 st3 :
  central_frame st1 st2 → central_frame st2 st3 → central_frame st1 st3.
Proof.
  intros [A1 A2 A3 A4 A5] [B1 B2 B3 B4 B5]. constructor; try done.
  - by eapply same_alloc_trans.
  - by eapply others_same_trans.
  - intros q p Hp. by rewrite B5, A5.
Qed.

Lemma segment_args_ok : os_args_ok SEGMENT_SIZE SEGMENT_SIZE.
Proof.
  split_and!; [done|done|apply segment_page_multiple|apply SEGMENT_SIZE_pow2|apply segment_page_multiple].
Qed.

(** Without an available segment no segment has a free page. *)
Lemma avail_none S : avail_ok S None → avail_list S None [] ∧ ∀ x g, S !! x = Some g → sg_free_count g = 0.
Proof.
  intros (L & Hav & HL). assert (L = []) as -> by (destruct L; [done|by destruct Hav as [[? _] _]]).
  split; [done|]. intros x g Hx. destruct (decide (sg_free_count g = 0)); [done|].
  assert (x ∈ []) as []%elem_of_nil by (apply HL; by exists g).
Qed.

(** A refused request changes nothing. *)
Lemma os_unchanged_frame st o' :
  central_ok None st → mem_ok st → os_unchanged (os st) o' → central_frame st (set_os o' st).
Proof.
  intros Hc Hm Hu. destruct (os_step_same st (set_os o' st) Hm eq_refl eq_refl) as [Hb Ha].
  { intros x _. simpl. by rewrite (ou_bytes _ _ Hu). }
  constructor; try done. destruct Hm. constructor; try done.
  - eapply regions_ok_ext; [|eapply regions_ok_same; [apply (ou_mapped _ _ Hu)|done]]. by intros [].
  - apply (registry_ok_ext st); try done. apply (ou_calm _ _ Hu).
  - by apply (counted_same st); [|intros []|apply Hu|apply Hu].
Qed.

(** The second half of map_segment, after the pages are set up. *)
Definition map_segment_tail (s : Z) : M State bool :=
  sg ← load_seg s;
  upd_central (λ g, set_c_free_page_count (u64 (c_free_page_count g + sg_free_count sg)) g);;
  g ← gets central;
  upd_seg s (set_sg_next (c_segments g));;
  upd_central (set_c_segments (Some s));;
  upd_central (λ g, set_c_num_segments (u64 (c_num_segments g + 1)) g);;
  upd_central (λ g, set_c_free_segments (u64 (c_free_segments g + 1)) g);;
  avail_push s;;
  in_registry (region_register s);;
  mret true.

Lemma map_segment_tail_spec st o' s g P' :
  central_ok None st → mem_ok st → reg_room (registry st) → c_avail (central st) = None →
  seg_base s → os_grown (os st) o' s SEGMENT_SIZE → segs st !! s = None →
  sg_kind g = Small → sg_mmap_size g = SEGMENT_SIZE → sg_in_avail g = false →
  sg_free_count g = USABLE_PAGES_PER_SEGMENT →
  chain (pg_nxt P') (sg_free_list g) (seg_pages s FIRST_USABLE_PAGE USABLE_PAGES_PER_SEGMENT) →
  fresh_pages s (pages st) P' →
  wp (map_segment_tail s) (λ ok st', central_frame st st' ∧ ok = true ∧ is_Some (c_avail (central st')))
    (set_segs (<[s := g]> (segs st)) (set_pages P' (set_os o' st))).
Proof.
  intros [Hc Hav] Hm Hroom Hnone Hb Hg Hnew Hk Hmm Hia Hfc Hch HP. rewrite Hnone in Hav.
  destruct (avail_none _ Hav) as [Hnil Hzero]. unfold map_segment_tail.
  set (g1 := set_sg_next (c_segments (central st)) g).
  apply wp_bind. eapply wp_load_seg; [apply lookup_insert_eq|].
  apply wp_bind, wp_upd_central, wp_bind, wp_gets, wp_bind.
  eapply wp_upd_seg; [apply lookup_insert_eq|].
  apply wp_bind, wp_upd_central, wp_bind, wp_upd_central, wp_bind, wp_upd_central, wp_bind.
  cbn [segs central set_segs set_central c_segments set_c_free_page_count]. rewrite insert_insert_eq. fold g1.
  pose proof (central_core_add s g1 _ _ P' _ Hc Hnew Hb Hzero Hk Hmm eq_refl Hfc Hch HP) as Hc1.
  set (c1 := set_c_free_segments _ _) in Hc1.
  set (st1 := set_segs (<[s := g1]> (segs st)) (set_central c1 (set_pages P' (set_os o' st)))).
  match goal with |- wp ?m ?Q _ => change (wp m Q st1) end.
  apply (avail_push_spec st1 s g1 []); [apply lookup_insert_eq| |set_solver|].
  { unfold st1. simpl. rewrite Hnone. split; [done|]. intros x gx. rewrite lookup_insert. case_decide; [|apply Hnil].
    intros [= <-]. done. }
  intros S' HS' Hav'. set (st2 := set_segs S' _). apply wp_bind.
  pose proof (central_core_avail None 0 _ S' _ _ (Some s) Hc1 HS') as Hc2.
  assert (∀ x, is_Some (S' !! x) ↔ x = s ∨ is_Some (segs st !! x)) as Hdom.
  { intros x. specialize (HS' x). simpl in HS'. rewrite lookup_insert in HS'. case_decide as E.
    - subst x. destruct (S' !! s); [|done]. split; eauto.
    - destruct (S' !! x), (segs st !! x); try done; split; eauto; intros [->|?]; eauto; done. }
  destruct (grown_segment_mem st st2 s Hm Hg (proj1 (proj2 Hb)) eq_refl eq_refl eq_refl Hdom
    (fresh_used s _ _ _ HP (co_pages Hc) Hnew)) as (Hm2 & Hl2 & Ha2); [|done|].
  { intros x i Hi. apply (pk_dom _ _ (co_pages Hc2)) in Hi as [? _]. done. }
  assert (key_ok s) as Hkey by (destruct Hb as (? & ? & ?); split; [consts; lia|done]).
  apply (register_mem st2 s); [done..|left; apply Hdom; by left|].
  intros reg' o2 st3 Hm3 Ha3. apply wp_ret. split; [constructor|]; simpl; try done.
  - split; [exact Hc2|]. exists [s]. split; [done|]. intros x.
    change (segs st3) with S'. rewrite (has_free_rest _ _ x HS'). simpl.
    rewrite has_free_insert by (simpl; rewrite Hfc; done). rewrite list_elem_of_singleton. split; [by left|].
    intros [->|(gx & Hx & Hn)]; [done|]. by rewrite (Hzero x gx Hx) in Hn.
  - by eapply same_alloc_trans.
  - intros q p [Hu _]. by apply (fresh_used s _ _ _ HP (co_pages Hc) Hnew).
Qed.

(** The pages of a segment right after it was mapped, and after the loop that puts
    them in the pool. *)
Definition zeroed_pages (s : Z) P : gmap pageref Page :=
  foldr (λ i p, <[PageAt s i := zero_page]> p) P (seqZ 0 PAGES_PER_SEGMENT).
Lemma zeroed_inside s P j : 0 ≤ j < PAGES_PER_SEGMENT → zeroed_pages s P !! PageAt s j = Some zero_page.
Proof.
  intros Hj. unfold zeroed_pages. rewrite lookup_new_pages, bool_decide_true; [done|]. split; [done|]. by apply elem_of_seqZ.
Qed.
Lemma zeroed_outside s P r :
  (∀ j, r = PageAt s j → ¬ (0 ≤ j < PAGES_PER_SEGMENT)) → zeroed_pages s P !! r = P !! r.
Proof.
  intros Hr. unfold zeroed_pages. rewrite lookup_new_pages. destruct r as [|s' j]; [done|].
  rewrite bool_decide_false; [done|]. intros [-> Hj%elem_of_seqZ]. apply (Hr j); [done|lia].
Qed.

Lemma pooled_fresh S P P' s :
  pages_ok S P → S !! s = None →
  (∀ j, FIRST_USABLE_PAGE ≤ j < FIRST_USABLE_PAGE + USABLE_PAGES_PER_SEGMENT →
     ∃ pg, P' !! PageAt s j = Some pg ∧ pg_in_use pg = false ∧ pg_area pg = page_area s j) →
  (∀ r, r ∉ seg_pages s FIRST_USABLE_PAGE USABLE_PAGES_PER_SEGMENT → P' !! r = zeroed_pages s P !! r) →
  fresh_pages s P P'.
Proof.
  intros Hp Hnew HPu HPo. assert (FIRST_USABLE_PAGE + USABLE_PAGES_PER_SEGMENT = PAGES_PER_SEGMENT) as E
    by (unfold USABLE_PAGES_PER_SEGMENT; consts; lia). constructor.
  - intros j Hj. apply HPu. lia.
  - intros j Hj. rewrite HPo by (intros (j' & [= <-] & ?)%elem_of_seg_pages; lia). apply zeroed_inside. consts. lia.
  - intros j Hj. rewrite HPo, zeroed_outside; [|by intros ? [= <-]|].
    + destruct (P !! PageAt s j) eqn:El; [|done].
      assert (is_Some (P !! PageAt s j)) as [[g Hgs] _]%(pk_dom _ _ Hp) by eauto. congruence.
    + intros (j' & [= <-] & ?)%elem_of_seg_pages. unfold USABLE_PAGES_PER_SEGMENT in *. consts. lia.
  - intros r Hr. rewrite HPo, zeroed_outside; [done| |].
    + intros j ->. rewrite in_segment_page in Hr. by apply bool_decide_eq_false in Hr.
    + intros (j' & -> & ?)%elem_of_seg_pages. rewrite in_segment_page in Hr. by apply bool_decide_eq_false in Hr.
Qed.

Lemma map_segment_spec st :
  central_ok None st → mem_ok st → reg_room (registry st) → c_avail (central st) = None →
  wp map_segment (λ ok st', central_frame st st' ∧
    (ok = true → is_Some (c_avail (central st'))) ∧ (ok = false → os_unchanged (os st) (os st'))) st.
Proof.
  intros [Hc Hav] Hm Hroom Hnone. rewrite Hnone in Hav. destruct (avail_none _ Hav) as [Hnil Hzero].
  unfold map_segment. apply wp_bind, wp_in_os.
  eapply wp_mono; [apply (os_alloc_aligned_spec _ _ _ segment_args_ok)|].
  intros [s|] o' Hres; simpl in Hres.
  2: { destruct Hres as [Hu _]. apply wp_ret. split; [|split; [done|by intros _]].
       apply os_unchanged_frame; [split; [done|by rewrite Hnone]|done|done]. }
  destruct Hres as [Hal Hg]. assert (seg_base s) as Hb.
  { split_and!; [apply (og_pos _ _ _ _ Hg)|done|apply (og_end _ _ _ _ Hg)]. }
  assert (segs st !! s = None) as Hnew.
  { destruct (segs st !! s) as [g|] eqn:E; [|done].
    by destruct (grown_new st o' s SEGMENT_SIZE (RSeg s) s SEGMENT_SIZE Hm Hg); [done|simpl; by rewrite E|]. }
  set (g0 := set_sg_free_count 0 (set_sg_free_list None (set_sg_mmap_size SEGMENT_SIZE
    (set_sg_page_count (u32 PAGES_PER_SEGMENT) (set_sg_kind Small zero_segment))))).
  set (st1 := set_segs (<[s := g0]> (segs st)) (set_pages (zeroed_pages s (pages st)) (set_os o' st))).
  unfold new_segment. apply wp_bind, wp_modify.
  do 5 (apply wp_bind; eapply wp_upd_seg; [apply lookup_insert_eq|]; cbv beta).
  apply wp_bind. cbn [segs set_segs pages set_pages os set_os]. rewrite !insert_insert_eq.
  match goal with |- wp ?m ?Q _ => change (wp m Q st1) end.
  apply (map_segment_loop_spec _ st1 s FIRST_USABLE_PAGE g0 []); try done.
  - apply lookup_insert_eq.
  - intros j Hj. exists zero_page. apply zeroed_inside. consts. lia.
  - intros r Hr. by apply elem_of_nil in Hr.
  - intros P' f g' Hch HPu HPo.
    replace (Z.of_nat (Z.to_nat _)) with USABLE_PAGES_PER_SEGMENT in * by done. rewrite app_nil_r in Hch.
    pose proof (pooled_fresh _ (pages st) P' s (co_pages Hc) Hnew HPu HPo) as HP.
    unfold st1. cbn [segs set_segs set_pages]. rewrite insert_insert_eq.
    eapply wp_mono.
    { apply (map_segment_tail_spec st o' s g' P'); try done. split; [done|]. by rewrite Hnone. }
    intros ok st' (Hf & -> & Hs'). done.
Qed.

(** ** Taking a page from the pool *)

Definition take_seg (n : option pageref) (g : Segment) : Segment :=
  set_sg_free_count (u32 (sg_free_count g - 1)) (set_sg_free_list n g).
Definition fresh_page (owner : heapref) (cls bs : Z) (pg : Page) : Page :=
  mkPage None 0 (u32 (PAGE_SIZE / bs)) 0 bs cls true (Some owner) None None (pg_area pg) None.

(** The first page of a pool. *)
Lemma pool_first P s g :
  segment_ok P s g → sg_free_count g ≠ 0 →
  ∃ i pg L, sg_free_list g = Some (PageAt s i) ∧ FIRST_USABLE_PAGE ≤ i < PAGES_PER_SEGMENT ∧
    P !! PageAt s i = Some pg ∧ pg_in_use pg = false ∧
    chain (pg_nxt P) (sg_free_list g) (PageAt s i :: L) ∧ chain (pg_nxt P) (pg_next pg) L ∧
    (∀ r, r ∈ PageAt s i :: L ↔ free_page P s r) ∧ sg_free_count g = Z.of_nat (length L) + 1.
Proof.
  intros H Hn. destruct (so_free H) as (L & Hc & Hm & Hl). destruct L as [|r L]; [simpl in Hl; lia|].
  pose proof (proj1 (Hm r) ltac:(set_solver)) as (i & pg & -> & Hi & Hpg & Hu).
  pose proof Hc as [Hfl (n & Hn' & Hc')]. unfold pg_nxt in Hn'. rewrite Hpg in Hn'. simplify_eq/=.
  exists i, pg, L. split_and!; try done; [lia|lia|simpl in Hl; lia].
Qed.

Lemma segment_ok_take P s g i pg L pg' :
  segment_ok P s g → sg_free_list g = Some (PageAt s i) → P !! PageAt s i = Some pg →
  chain (pg_nxt P) (sg_free_list g) (PageAt s i :: L) → chain (pg_nxt P) (pg_next pg) L →
  (∀ r, r ∈ PageAt s i :: L ↔ free_page P s r) → sg_free_count g = Z.of_nat (length L) + 1 →
  pg_in_use pg' = true →
  segment_ok (<[PageAt s i := pg']> P) s (take_seg (pg_next pg) g) ∧
  sg_free_count (take_seg (pg_next pg) g) = sg_free_count g - 1.
Proof.
  intros H Hf Hpg Hc Hc' Hm Hn Hu. pose proof (free_count_range _ _ _ H) as Hr.
  unfold USABLE_PAGES_PER_SEGMENT in Hr. consts.
  pose proof (chain_NoDup _ _ _ Hc) as [Hnd _]%NoDup_cons.
  assert (sg_free_count (take_seg (pg_next pg) g) = sg_free_count g - 1) as E by (simpl; rewrite u32_small; lia).
  split; [|done]. destruct H as [B1 B2 B3 _]. constructor; try done. exists L. split_and!; [| |lia].
  - eapply chain_ext; [|done]. intros q Hq. unfold pg_nxt. rewrite lookup_insert_ne; [done|]. by intros <-.
  - intros q. assert (q ∈ L ↔ q ∈ PageAt s i :: L ∧ q ≠ PageAt s i) as ->.
    { rewrite elem_of_cons. naive_solver. }
    rewrite Hm. unfold free_page. split.
    + intros [(j & p & -> & Hj & Hp & Hup) Hne]. exists j, p. rewrite lookup_insert_ne by congruence. done.
    + intros (j & p & -> & Hj & Hp & Hup). rewrite lookup_insert in Hp. case_decide as Ej; [congruence|].
      split; [by exists j, p|congruence].
Qed.

Lemma central_core_take s g i pg L pg' S P c a :
  central_core None 0 S P c → S !! s = Some g → sg_free_list g = Some (PageAt s i) →
  FIRST_USABLE_PAGE ≤ i < PAGES_PER_SEGMENT →
  P !! PageAt s i = Some pg → pg_in_use pg = false →
  chain (pg_nxt P) (sg_free_list g) (PageAt s i :: L) → chain (pg_nxt P) (pg_next pg) L →
  (∀ r, r ∈ PageAt s i :: L ↔ free_page P s r) → sg_free_count g = Z.of_nat (length L) + 1 →
  pg_in_use pg' = true → pg_owner pg' = Some (HeapAt a) → pg_area pg' = pg_area pg →
  central_core None 0 (<[s := take_seg (pg_next pg) g]> S) (<[PageAt s i := pg']> P)
    (set_c_pages_in_use (u64 (c_pages_in_use c + 1))
      (set_c_free_page_count (u64 (c_free_page_count c - 1))
        (set_c_free_segments (c_free_segments c - full_free g) c))).
Proof.
  intros H Hg Hf Hi Hpg Hu0 Hc Hc' Hm Hn Hu Ho Ha.
  destruct (segment_ok_take P s g i pg L pg' (co_seg H s g Hg) Hf Hpg Hc Hc' Hm Hn Hu) as [Hseg Hcnt].
  pose proof (free_count_range _ _ _ (co_seg H s g Hg)) as Hr.
  assert (full_free (take_seg (pg_next pg) g) = 0) as Hff.
  { unfold full_free. rewrite Hcnt, (proj2 (Z.eqb_neq _ _)) by lia. done. }
  assert (∀ q, q = PageAt s i → is_abandoned None q pg = false ∧ is_abandoned None q pg' = false ∧
    owned_by_heap None q pg = false ∧ owned_by_heap None q pg' = true) as Hb.
  { intros q ->. unfold is_abandoned, owned_by_heap. rewrite Hu0, Hu, Ho.
    rewrite !(bool_decide_true (None ≠ Some _)) by done. rewrite (bool_decide_false (Some (HeapAt a) = _)) by done. done. }
  destruct (Hb _ eq_refl) as (Hb1 & Hb2 & Hb3 & Hb4).
  constructor; simpl.
  - destruct (co_segs H) as (Ls & HLs & HLm). exists Ls. split.
    + eapply chain_ext; [|done]. intros x _. by eapply sg_nxt_insert.
    + intros x. by rewrite HLm, is_Some_insert.
  - intros x gx. rewrite lookup_insert. case_decide as E; [intros [= <-]; by subst x|].
    intros Hgx. eapply other_pool; [done|congruence|]. by apply H.
  - apply pages_ok_segs with S; [intros x; by eapply is_Some_insert|].
    eapply (pages_ok_insert S P _ s i pg); [apply H|done|done|done|intros ?; lia|rewrite Ho; eauto].
  - destruct (co_aband H) as (La & HLa & HLn). exists La. split; [|done].
    by apply (aband_list_insert None _ P _ _ _ pg).
  - rewrite (co_nsegs H). f_equal. rewrite (msum_update _ S s g) by done. lia.
  - rewrite (co_fpages H), u64_sub_l. f_equal. rewrite (msum_update _ S s g) by done. lia.
  - rewrite (co_fsegs H), (msum_update _ S s g) by done. lia.
  - pose proof (co_cache H). pose proof (full_free_nonneg S s g Hg). lia.
  - rewrite (co_inuse H), u64_add_l. f_equal. rewrite (msum_update _ P _ pg) by done.
    rewrite Hb3, Hb4. simpl. lia.
Qed.

Lemma fresh_page_ok m s i owner cls bs pg :
  seg_base s → FIRST_USABLE_PAGE ≤ i < PAGES_PER_SEGMENT → pg_area pg = page_area s i →
  0 ≤ cls < kNumSizeClasses → class_to_size cls = Some bs →
  page_ok m s i (fresh_page owner cls bs pg) [] [].
Proof.
  intros Hb Hi Ha Hcls Hbs. destruct (class_to_size_bounds cls Hcls) as (bs' & E & Hbb & _). simplify_eq.
  assert (4 ≤ PAGE_SIZE / bs ≤ 4096) as Hcap.
  { consts. split; [apply Z.div_le_lower_bound; lia|apply Z.div_le_upper_bound; lia]. }
  constructor; try done.
  - constructor; simpl; try done. by apply u32_small; lia.
  - simpl. rewrite u32_small; lia.
  - simpl. constructor.
Qed.

(** A page enters use empty: nothing the client holds changes. *)
Lemma enter_use st st' s i pg pg' :
  mem_ok st → pages st !! PageAt s i = Some pg → pg_in_use pg = false →
  pg_in_use pg' = true → pg_reserved pg' = 0 → page_ok (bytes (os st)) s i pg' [] [] →
  pages st' = <[PageAt s i := pg']> (pages st) → os st' = os st → registry st' = registry st →
  heaps st' = heaps st → larges st' = larges st →
  (∀ x, is_Some (segs st' !! x) ↔ is_Some (segs st !! x)) → mem_ok st' ∧ same_alloc st st'.
Proof.
  intros H Hpg Hu0 Hu Hr Hok E1 E2 E3 E4 E5 Hs.
  assert (∀ m lf lt b, page_ok m s i pg' lf lt → ¬ live_block pg' lf lt b) as Hnl.
  { intros m lf lt b _ [(k & _ & Hk)%elem_of_carved _]. lia. }
  split; [apply (mem_ok_change st); try done|split].
  - intros x j. rewrite E1, lookup_insert. case_decide as E; [|apply (mo_segs H)].
    injection E as <- <-. intros _. apply (mo_segs H s i). eauto.
  - intros x j p. rewrite E1, lookup_insert. case_decide as E; [|apply (mo_blocks H)].
    injection E as <- <-. intros [= <-] _. eauto.
  - intros b n. unfold allocated, large_alloc, small_alloc. rewrite E1, E2, E5. apply or_iff_compat_r.
    split; intros (x & j & p & lf & lt & Hp & Hup & Hokp & Hl & ->); exists x, j, p, lf, lt.
    + rewrite lookup_insert in Hp. case_decide as E; [|done]. simplify_eq. by destruct (Hnl _ _ _ b Hokp).
    + rewrite lookup_insert_ne; [done|]. intros [= <- <-]. congruence.
  - intros b n _ x _. by rewrite E2.
Qed.

(** What a caller gets: a page in use, owned by it, with no block carved. *)
Record acquired st (a cls bs : Z) (r : pageref) st' : Prop := {
  aq_central : central_ok None st';
  aq_mem : mem_ok st';
  aq_alloc : same_alloc st st';
  aq_others : others_same st st';
  aq_owned q p : q ≠ r → heap_owned p → pages st' !! q = Some p ↔ pages st !! q = Some p;
  aq_new p : pages st !! r = Some p → ¬ heap_owned p;
  aq_page : ∃ s i pg, r = PageAt s i ∧ pages st' !! r = Some (fresh_page (HeapAt a) cls bs pg) ∧
    page_ok (bytes (os st')) s i (fresh_page (HeapAt a) cls bs pg) [] []
}.

Lemma acquired_frame st1 st2 st3 a cls bs r :
  central_frame st1 st2 → acquired st2 a cls bs r st3 → acquired st1 a cls bs r st3.
Proof.
  intros [A1 A2 A3 A4 A5] [B1 B2 B3 B4 B5 B6 B7]. constructor; try done.
  - by eapply same_alloc_trans.
  - by eapply others_same_trans.
  - intros q p Hq Hp. by rewrite B5, A5.
  - intros p Hp Ho. apply A5 in Hp; [|done]. by eapply B6.
Qed.

(** The end of central_acquire_page: count the page and initialise it. *)
Definition acquire_end (owner : heapref) (cls block_size : Z) r : M State (option pageref) :=
  upd_central (λ g, set_c_pages_in_use (u64 (c_pages_in_use g + 1)) g);;
  upd_page r (set_pg_free None);;
  upd_page r (set_pg_used 0);;
  (if block_size =? 0 then fault else mret tt);;
  upd_page r (set_pg_capacity (u32 (PAGE_SIZE / block_size)));;
  upd_page r (set_pg_reserved 0);;
  upd_page r (set_pg_block_size block_size);;
  upd_page r (set_pg_size_class cls);;
  upd_page r (set_pg_in_use true);;
  upd_page r (set_pg_owner (Some owner));;
  upd_page r (set_pg_next None);;
  upd_page r (set_pg_prev None);;
  upd_page r (set_pg_thread_free None);;
  mret (Some r).

Lemma acquire_end_spec st owner cls bs r pg (Q : option pageref → State → Prop) :
  pages st !! r = Some pg → bs ≠ 0 →
  Q (Some r) (set_central (set_c_pages_in_use (u64 (c_pages_in_use (central st) + 1)) (central st))
    (set_pages (<[r := fresh_page owner cls bs pg]> (pages st)) st)) →
  wp (acquire_end owner cls bs r) Q st.
Proof.
  intros Hpg Hbs HQ. unfold acquire_end. rewrite (proj2 (Z.eqb_neq _ _) Hbs).
  apply wp_bind, wp_upd_central. apply wp_bind. eapply wp_upd_page; [done|].
  apply wp_bind. eapply wp_upd_page; [apply lookup_insert_eq|]. apply wp_bind, wp_ret.
  do 9 (apply wp_bind; eapply wp_upd_page; [apply lookup_insert_eq|]; cbv beta). apply wp_ret.
  cbn [pages set_pages central set_central]. rewrite !insert_insert_eq. exact HQ.
Qed.

(** The last pooled page of a fully idle segment takes it off the count. *)
Lemma count_idle_spec st s g (Q : unit → State → Prop) :
  central_ok None st → segs st !! s = Some g →
  Q tt (set_central (set_c_free_segments (c_free_segments (central st) - full_free g) (central st)) st) →
  wp (if sg_free_count g =? USABLE_PAGES_PER_SEGMENT
      then upd_central (λ g, set_c_free_segments (u64 (c_free_segments g - 1)) g) else mret tt) Q st.
Proof.
  intros [Hc _] Hg HQ. pose proof (co_cache Hc) as Hcache. unfold SEGMENT_CACHE in Hcache.
  assert (full_free g ≤ c_free_segments (central st)) as Hfs.
  { rewrite (co_fsegs Hc), Z.sub_0_r. apply (msum_ge (λ _, full_free) (segs st) s g (full_free_nonneg _) Hg). }
  unfold full_free in HQ, Hfs. destruct (sg_free_count g =? USABLE_PAGES_PER_SEGMENT).
  - apply wp_upd_central. rewrite u64_small by (simpl in Hfs; lia). exact HQ.
  - apply wp_ret. rewrite Z.sub_0_r in HQ. by destruct st as [? ? ? ? [] ? ? ? ? ? ?].
Qed.

(** The end of the acquisition, from any state that differs in the links of the
    available list: [S1] and [c1] are the segments and counters after the page
    left its pool. *)
Lemma acquire_end_acquired st a cls bs s i pg S1 c1 S' h' L' :
  let pg' := fresh_page (HeapAt a) cls bs pg in
  mem_ok st → pages st !! PageAt s i = Some pg → pg_in_use pg = false → bs ≠ 0 →
  page_ok (bytes (os st)) s i pg' [] [] → (∀ x, is_Some (S1 !! x) ↔ is_Some (segs st !! x)) →
  central_core None 0 S1 (<[PageAt s i := pg']> (pages st)) (set_c_pages_in_use (u64 (c_pages_in_use c1 + 1)) c1) →
  same_on seg_rest S1 S' → avail_list S' h' L' → (∀ x, x ∈ L' ↔ has_free S' x) →
  wp (acquire_end (HeapAt a) cls bs (PageAt s i)) (λ x st', ∃ r, x = Some r ∧ acquired st a cls bs r st')
    (set_segs S' (set_central (set_c_avail h' c1) st)).
Proof.
  intros pg' Hm Hpg Hu Hbs Hok Hdom Hc1 HS' Hav' HL'. apply (acquire_end_spec _ _ _ _ _ pg); [done|done|].
  cbn [pages set_pages central set_central set_segs]. fold pg'. set (st' := set_central _ _).
  assert (∀ x, is_Some (S' !! x) ↔ is_Some (segs st !! x)) as Hdom'.
  { intros x. rewrite <-(Hdom x). specialize (HS' x). destruct (S' !! x), (S1 !! x); try done; split; eauto. }
  destruct (enter_use st st' s i pg pg' Hm Hpg Hu eq_refl eq_refl Hok eq_refl eq_refl eq_refl eq_refl eq_refl Hdom')
    as [Hm' Ha'].
  exists (PageAt s i). split; [done|]. constructor; try done.
  - split; [|by exists L']. by apply (central_core_avail None 0 S1 S' _ _ h') in Hc1.
  - intros q p Hq _. unfold st'. cbn [pages set_pages set_central]. by rewrite lookup_insert_ne.
  - intros p Hp [Hup _]. congruence.
  - exists s, i, pg. split_and!; [done| |done]. unfold st'. cbn [pages set_pages set_central]. by rewrite lookup_insert_eq.
Qed.

(** The segments with a free page after one page left the pool of the first. *)
Lemma has_free_taken S s g g1 La x :
  (∀ x, x ∈ s :: La ↔ has_free S x) → NoDup (s :: La) → S !! s = Some g → sg_free_count g ≠ 0 →
  has_free (<[s := g1]> S) x ↔ if sg_free_count g1 =? 0 then x ∈ La else x ∈ s :: La.
Proof.
  intros HLa [HnL _]%NoDup_cons Hg Hfc. destruct (sg_free_count g1 =? 0) eqn:E0; bool_hyps.
  - unfold has_free. rewrite lookup_insert. case_decide as Ex.
    + subst x. split; [by intros (g2 & [= <-] & ?)|done].
    + assert (x ∈ La ↔ x ∈ s :: La) as -> by (rewrite elem_of_cons; naive_solver). symmetry. apply HLa.
  - rewrite has_free_insert, HLa by done. split; [intros [->|?]; [by exists g|done]|by right].
Qed.

Lemma acquire_from_spec st a cls bs s :
  central_ok None st → mem_ok st → c_avail (central st) = Some s →
  0 ≤ cls < kNumSizeClasses → class_to_size cls = Some bs →
  wp (acquire_from (HeapAt a) cls bs) (λ x st', ∃ r, x = Some r ∧ acquired st a cls bs r st') st.
Proof.
  intros Hck Hm Hs Hcls Hbs. pose proof Hck as [Hc (La & Hav & HLa)]. rewrite Hs in Hav.
  pose proof (dchain_some _ _ _ _ (proj1 Hav)) as (n & La' & -> & _ & _).
  destruct (proj1 (HLa s) ltac:(set_solver)) as (g & Hg & Hfc). pose proof (co_seg Hc s g Hg) as Hseg.
  destruct (pool_first _ s g Hseg Hfc) as (i & pg & L & Hfl & Hi & Hpg & Hu & Hch & Hch' & HL & Hcnt).
  pose proof (pk_area _ _ (co_pages Hc) s i pg Hpg ltac:(lia)) as Harea.
  destruct (class_to_size_bounds cls Hcls) as (bs' & E & Hbb & _). simplify_eq.
  set (pg' := fresh_page (HeapAt a) cls bs pg).
  pose proof (central_core_take s g i pg L pg' _ _ _ a Hc Hg Hfl Hi Hpg Hu Hch Hch' HL Hcnt eq_refl eq_refl eq_refl) as Hc1.
  unfold acquire_from. apply wp_bind, wp_gets, wp_bind. rewrite Hs. apply wp_ret. cbv beta.
  apply wp_bind. eapply wp_load_seg; [done|]. apply wp_bind, (count_idle_spec st s g); [done|done|].
  rewrite Hfl. apply wp_bind, wp_ret. st_steps.
  cbn [segs pages central set_segs set_pages set_central]. rewrite !insert_insert_eq.
  set (g1 := take_seg (pg_next pg) g).
  set (c1 := set_c_free_page_count (u64 (c_free_page_count (central st) - 1))
    (set_c_free_segments (c_free_segments (central st) - full_free g) (central st))).
  set (st1 := set_segs (<[s := g1]> (segs st)) (set_central c1 st)).
  match goal with |- wp ?m ?Q _ => change (wp m Q st1) end.
  change (sg_free_count (set_sg_free_count _ _)) with (sg_free_count g1).
  assert (page_ok (bytes (os st)) s i pg' [] []) as Hok by (apply fresh_page_ok; try done; apply Hseg).
  pose proof (acquire_end_acquired st a cls bs s i pg (segs st1) c1) as Hend. cbv zeta in Hend.
  specialize (λ S' h' L', Hend S' h' L' Hm Hpg Hu ltac:(lia) Hok (λ x, is_Some_insert (segs st) s g g1 x Hg) Hc1).
  pose proof (λ x, has_free_taken (segs st) s g g1 La' x HLa (dchain_NoDup _ _ _ _ (proj1 Hav)) Hg Hfc) as Hfree.
  assert (avail_list (segs st1) (Some s) (s :: La')) as Hav1 by (by apply (avail_list_insert _ _ _ s g)).
  destruct (sg_free_count g1 =? 0) eqn:E0.
  - apply (avail_remove_spec st1 s g1 [] La'); [apply lookup_insert_eq|unfold st1; simpl; by rewrite Hs|].
    intros S' h' HS' Hav'. apply (Hend S' h' La' HS' Hav'). intros x. rewrite (has_free_rest _ _ x HS'). symmetry. apply Hfree.
  - apply wp_ret. replace st1 with (set_segs (segs st1) (set_central (set_c_avail (Some s) c1) st))
      by (unfold st1, c1; rewrite <-Hs; by destruct (central st)).
    apply (Hend (segs st1) (Some s) (s :: La')); [done|done|]. intros x. symmetry. apply Hfree.
Qed.

(** Reclaim abandoned pages first, then grow. *)
Lemma ensure_avail_spec st :
  central_ok None st → mem_ok st → reg_room (registry st) →
  wp ensure_avail (λ ok st', central_frame st st' ∧ (ok = true → is_Some (c_avail (central st')))) st.
Proof.
  intros Hc Hm Hroom. unfold ensure_avail. apply wp_bind, wp_gets. case_bool_decide as E.
  - apply wp_bind. eapply wp_mono; [by apply sweep_abandoned_spec|].
    intros [] st1 [Hsw _]. apply wp_bind, wp_gets. case_bool_decide as E1.
    + eapply wp_mono; [apply map_segment_spec; try apply Hsw; done|].
      intros ok st' (Hf & Hs & _). split; [|done].
      eapply central_frame_trans; [by apply sweep_central_frame|done].
    + apply wp_ret. split; [by apply sweep_central_frame|]. intros _.
      destruct (c_avail (central st1)); [eauto|done].
  - apply wp_ret. split; [by constructor|]. intros _. destruct (c_avail (central st)); [eauto|done].
Qed.

Lemma central_acquire_spec st a cls bs :
  central_ok None st → mem_ok st → reg_room (registry st) →
  0 ≤ cls < kNumSizeClasses → class_to_size cls = Some bs →
  wp (central_acquire_page (HeapAt a) cls bs) (λ x st', match x with
    | Some r => acquired st a cls bs r st'
    | None => central_frame st st'
    end) st.
Proof.
  intros Hc Hm Hroom Hcls Hbs. unfold central_acquire_page. apply wp_bind.
  eapply wp_mono; [by apply ensure_avail_spec|]. intros [] st1 [Hf Hav]; [|by apply wp_ret].
  destruct (Hav eq_refl) as [s Hs].
  eapply wp_mono; [apply (acquire_from_spec st1 a cls bs s); try apply Hf; done|].
  intros x st' (r & -> & Hacq). by eapply acquired_frame.
Qed.
End acquire.
