(* ===== verification/Heap.v ===== *)
(** * Per-thread heaps (src/heap.h, src/heap.cpp)

    A heap holds one doubly-linked list of pages per size class, the head being
    the active page of the fast path.  The thread that runs an operation is the
    argument [tid]; [t_heap] maps it to its heap.  [stats_on] selects the build
    with the call counters.  A [Page *] that is dereferenced while null faults,
    and so does a null [Heap *]. *)
From Stdlib Require Import ZArith Lia.
From stdpp Require Import base numbers list gmap.
From S2P Require Import Prelude Words Constants SizeClass Segment Memory Os Chains Sums RegionRegistry State Regions PageOps Allocated Central.

Section heap.
Context {K : Kernel} {C : Config}.

(** [h->pages[c]] and [h->pages[c] = p]. *)
Definition heap_page (a c : Z) : M State (option pageref) :=
  h ← load_heap a;
  deref (h_pages h !! Z.to_nat c).
Definition set_heap_page (a c : Z) (p : option pageref) : M State unit :=
  h ← load_heap a;
  if bool_decide (Z.to_nat c < length (h_pages h))%nat
  then upd_heap a (λ h, set_h_pages (<[Z.to_nat c := p]> (h_pages h)) h)
  else fault.

(** [new (mem) Heap()]: value-initialised, the counters and [reg_next] by their
    member initialisers. *)
Definition zero_heap : Heap := mkHeap (replicate (Z.to_nat kNumSizeClasses) None) 0 0 0 None.

(** [for (c = 0; c < kNumSizeClasses; ++c) h->pages[c] = &g_empty_page]. *)
Fixpoint heap_init_loop (n : nat) (a c : Z) : M State unit :=
  match n with
  | O => mret tt
  | S n' => set_heap_page a c (Some EmptyPage);; heap_init_loop n' a (c + 1)
  end.

Definition heap_create (tid : nat) : M State (option Z) :=
  mem ← in_os (os_alloc_aligned heap_bytes os_page_size);
  match mem with
  | None => mret None
  | Some a =>
      modify (λ st, set_heaps (<[a := zero_heap]> (heaps st)) st);;
      heap_init_loop (Z.to_nat kNumSizeClasses) a 0;;
      g ← gets g_registry;
      upd_heap a (set_h_reg_next g);;
      modify (set_g_registry (Some a));;
      modify (λ st, set_t_heap (<[tid := a]> (t_heap st)) st);;
      mret (Some a)
  end.

Definition heap_get (tid : nat) : M State (option Z) :=
  h ← gets (λ st, t_heap st !! tid);
  match h with
  | Some a => mret (Some a)
  | None => heap_create tid
  end.

Definition heap_rotate_to_front (a c : Z) (p : pageref) : M State unit :=
  head ← heap_page a c;
  if bool_decide (head = Some p) then mret tt
  else
    pg ← load_page p;
    match pg_prev pg with
    | Some q => upd_page q (set_pg_next (pg_next pg))
    | None => mret tt
    end;;
    pg ← load_page p;
    match pg_next pg with
    | Some q => upd_page q (set_pg_prev (pg_prev pg))
    | None => mret tt
    end;;
    upd_page p (set_pg_prev None);;
    upd_page p (set_pg_next head);;
    match head with
    | Some hd => upd_page hd (set_pg_prev (Some p))
    | None => mret tt
    end;;
    set_heap_page a c (Some p).

(** The walk of heap_malloc_slow over the pages of a class. *)
Fixpoint slow_walk (fuel : nat) (a c : Z) (head : option pageref) (p : option pageref)
  : M State (option Z) :=
  match fuel with
  | O => diverge
  | S f =>
      match p with
      | None => mret None
      | Some r =>
          ok ← page_make_available r;
          if (ok : bool) then
            (if bool_decide (Some r ≠ head) then heap_rotate_to_front a c r else mret tt);;
            b ← page_pop r;
            mret (Some b)
          else
            pg ← load_page r;
            slow_walk f a c head (pg_next pg)
      end
  end.

(** The part of heap_malloc_slow that acquires a fresh page. *)
Definition slow_acquire (a c : Z) (head : option pageref) : M State (option Z) :=
  bs ← deref (class_to_size c);
  np ← central_acquire_page (HeapAt a) c bs;
  match np with
  | None => mret None
  | Some np =>
      upd_page np (set_pg_prev None);;
      upd_page np (set_pg_next (if bool_decide (head = Some EmptyPage) then None else head));;
      pg ← load_page np;
      match pg_next pg with
      | Some q => upd_page q (set_pg_prev (Some np))
      | None => mret tt
      end;;
      set_heap_page a c (Some np);;
      ok ← page_make_available np;
      if (ok : bool) then (b ← page_pop np; mret (Some b)) else mret None
  end.

Definition heap_malloc_slow (h : option Z) (c : Z) : M State (option Z) :=
  match h with
  | None => mret None
  | Some a =>
      (if stats_on then upd_heap a (λ h, set_h_n_slow (u64 (h_n_slow h + 1)) h) else mret tt);;
      head ← heap_page a c;
      r ← (if bool_decide (head = Some EmptyPage) then mret None
           else
             fuel ← gets (λ st, S (base.size (pages st)));
             slow_walk fuel a c head head);
      match r with
      | Some b => mret (Some b)
      | None => slow_acquire a c head
      end
  end.

(** The fast path.  [h] is dereferenced before it is tested. *)
Definition heap_malloc (tid : nat) (size : Z) : M State (option Z) :=
  c ← deref (size_class size);
  h ← heap_get tid;
  (if stats_on then
     a ← deref h;
     upd_heap a (λ h, set_h_n_malloc (u64 (h_n_malloc h + 1)) h)
   else mret tt);;
  a ← deref h;
  p ← heap_page a c;
  r ← deref p;
  pg ← load_page r;
  match pg_free pg with
  | Some b =>
      nx ← in_os (read_next b);
      upd_page r (set_pg_free nx);;
      upd_page r (λ pg, set_pg_used (u32 (pg_used pg + 1)) pg);;
      (if stats_on then upd_heap a (λ h, set_h_n_fast (u64 (h_n_fast h + 1)) h) else mret tt);;
      mret (Some b)
  | None => heap_malloc_slow h c
  end.

(** The owner of the page is the heap of a live thread: anything else here is a
    null or dangling dereference. *)
Definition heap_on_page_empty (r : pageref) : M State unit :=
  pg ← load_page r;
  a ← deref (match pg_owner pg with Some (HeapAt a) => Some a | _ => None end);
  hd ← heap_page a (pg_size_class pg);
  if bool_decide (hd = Some r) then mret tt
  else
    pg ← load_page r;
    pv ← deref (pg_prev pg);
    upd_page pv (set_pg_next (pg_next pg));;
    pg ← load_page r;
    match pg_next pg with
    | Some q => upd_page q (set_pg_prev (pg_prev pg))
    | None => mret tt
    end;;
    central_release_page r.

(** The test compares pointers: a null owner and a null [t_heap] are equal. *)
Definition heap_free (tid : nat) (p : Z) : M State unit :=
  let s := segment_of p in
  let r := page_of s p in
  pg ← load_page r;
  th ← gets (λ st, t_heap st !! tid);
  if bool_decide (pg_owner pg = HeapAt <$> th) then
    u ← page_push_local r p;
    if u =? 0 then heap_on_page_empty r else mret tt
  else heap_free_remote r p.

(** [while (p != nullptr && p != &g_empty_page)] of heap_destroy. *)
Fixpoint destroy_walk (fuel : nat) (p : option pageref) : M State unit :=
  match fuel with
  | O => diverge
  | S f =>
      match p with
      | None | Some EmptyPage => mret tt
      | Some r =>
          pg ← load_page r;
          let nx := pg_next pg in
          page_collect r;;
          pg ← load_page r;
          (if pg_used pg =? 0 then central_release_page r else central_abandon_page r);;
          destroy_walk f nx
      end
  end.

(** [for (c = 0; c < kNumSizeClasses; ++c)] of heap_destroy. *)
Fixpoint destroy_loop (n : nat) (a c : Z) : M State unit :=
  match n with
  | O => mret tt
  | S n' =>
      p ← heap_page a c;
      (if bool_decide (p = Some EmptyPage) then mret tt
       else
         fuel ← gets (λ st, S (base.size (pages st)));
         destroy_walk fuel p;;
         set_heap_page a c (Some EmptyPage));;
      destroy_loop n' a (c + 1)
  end.

(** The walk of heap_destroy over the registry of heaps with a pointer [pp] to
    the link: [None] is [&g_registry], [Some x] is [&x->reg_next]. *)
Fixpoint unlist_loop (fuel : nat) (a : Z) (pp : option Z) : M State unit :=
  match fuel with
  | O => diverge
  | S f =>
      cur ← match pp with
            | None => gets g_registry
            | Some x => h ← load_heap x; mret (h_reg_next h)
            end;
      match cur with
      | None => mret tt
      | Some x =>
          if bool_decide (x = a) then
            h ← load_heap a;
            match pp with
            | None => modify (set_g_registry (h_reg_next h))
            | Some y => upd_heap y (set_h_reg_next (h_reg_next h))
            end
          else unlist_loop f a (Some x)
      end
  end.

Definition heap_destroy (a : Z) : M State unit :=
  destroy_loop (Z.to_nat kNumSizeClasses) a 0;;
  fuel ← gets (λ st, S (base.size (heaps st)));
  unlist_loop fuel a None;;
  in_os (os_free (Some a) heap_bytes);;
  modify (λ st, set_heaps (delete a (heaps st)) st).

(** The destructor of the thread's [HeapGuard]. *)
Definition thread_exit (tid : nat) : M State unit :=
  h ← gets (λ st, t_heap st !! tid);
  match h with
  | None => mret tt
  | Some a =>
      heap_destroy a;;
      modify (λ st, set_t_heap (delete tid (t_heap st)) st)
  end.

(** Sums of the counters over the registry of heaps. *)
Fixpoint counts_loop (fuel : nat) (h : option Z) (m f s : Z) : M State (Z * Z * Z) :=
  match fuel with
  | O => diverge
  | S fu =>
      match h with
      | None => mret (m, f, s)
      | Some a =>
          hp ← load_heap a;
          counts_loop fu (h_reg_next hp) (u64 (m + h_n_malloc hp)) (u64 (f + h_n_fast hp))
            (u64 (s + h_n_slow hp))
      end
  end.

Definition heap_global_counts : M State (Z * Z * Z) :=
  g ← gets g_registry;
  fuel ← gets (λ st, S (base.size (heaps st)));
  counts_loop fuel g 0 0 0.
End heap.
