(* ===== verification/Hmalloc.v ===== *)
(** * The public API (src/hmalloc.cpp, include/hmalloc/hmalloc.h)

    Small requests go to the thread heap, larger ones get a segment-aligned
    region of their own with a [LargeHeader] at its base.  [tid] is the calling
    thread.  A large header is the entry of [larges] at the base of its region;
    the tag at a region base is read by [kind_of]. *)
From Stdlib Require Import ZArith Lia.
From stdpp Require Import base numbers list gmap.
From S2P Require Import Prelude Words Constants SizeClass Segment Memory Os Chains Sums RegionRegistry State Regions PageOps Allocated Central Heap.

Definition round_up (n a : Z) : Z := Z.land (u64 (n + (a - 1))) (not64 (a - 1)).

(** hm_stats_t. *)
Record HmStats := mkHmStats {
  bytes_reserved : Z;
  peak_bytes_reserved : Z;
  segments_mapped : Z;
  pages_in_use : Z;
  pages_free : Z;
  large_allocations : Z;
  large_bytes : Z;
  malloc_count : Z;
  fast_path_count : Z;
  slow_path_count : Z
}.

Section hmalloc.
Context {K : Kernel} {C : Config}.

(** [static_cast<LargeHeader *>(base)] and the tag byte of a region. *)
Definition load_large (b : Z) : M State LargeHeader :=
  h ← gets (λ st, larges st !! b);
  deref h.
Definition kind_of (p : Z) : M State SegmentKind :=
  sg ← gets (λ st, segs st !! region_base p);
  match sg with
  | Some sg => mret (sg_kind sg)
  | None => h ← load_large (region_base p); mret (lh_kind h)
  end.

Definition alloc_large (size align : Z) : M State (option Z) :=
  let offset := if ALLOC_ALIGN <? align then round_up LARGE_OFFSET align else LARGE_OFFSET in
  let total := u64 (offset + size) in
  if total <? size then mret None
  else
    let mmap_size := round_up total os_page_size in
    if mmap_size <? total then mret None
    else
      mem ← in_os (os_alloc_aligned mmap_size SEGMENT_SIZE);
      match mem with
      | None => mret None
      | Some mem =>
          modify (λ st, set_larges (<[mem := mkLargeHeader Large mmap_size offset size]> (larges st)) st);;
          modify (λ st, set_g_large_count (u64 (g_large_count st + 1)) st);;
          modify (λ st, set_g_large_bytes (u64 (g_large_bytes st + mmap_size)) st);;
          in_registry (region_register mem);;
          mret (Some (u64 (mem + offset)))
      end.

Definition free_large (p : Z) : M State unit :=
  let b := region_base p in
  h ← load_large b;
  let msz := lh_mmap_size h in
  modify (λ st, set_g_large_count (u64 (g_large_count st - 1)) st);;
  modify (λ st, set_g_large_bytes (u64 (g_large_bytes st - msz)) st);;
  in_registry (region_unregister b);;
  in_os (os_free (Some b) msz);;
  modify (λ st, set_larges (delete b (larges st)) st).

Definition hm_malloc (tid : nat) (size : Z) : M State (option Z) :=
  if size =? 0 then mret None
  else if size <=? SMALL_SIZE_MAX then heap_malloc tid size
  else alloc_large size ALLOC_ALIGN.

Definition hm_free (tid : nat) (ptr : option Z) : M State unit :=
  match ptr with
  | None => mret tt
  | Some p =>
      k ← kind_of p;
      if bool_decide (k = Large) then free_large p else heap_free tid p
  end.

Definition hm_calloc (tid : nat) (nmemb size : Z) : M State (option Z) :=
  if (nmemb =? 0) || (size =? 0) then mret None
  else if SIZE_MAX / size <? nmemb then mret None
  else
    let total := u64 (nmemb * size) in
    if total <=? SMALL_SIZE_MAX then
      p ← heap_malloc tid total;
      match p with
      | Some a => in_os (do_memset a 0 total);; mret (Some a)
      | None => mret None
      end
    else alloc_large total ALLOC_ALIGN.

Definition hm_usable_size (ptr : option Z) : M State Z :=
  match ptr with
  | None => mret 0
  | Some p =>
      k ← kind_of p;
      if bool_decide (k = Large) then
        h ← load_large (region_base p);
        mret (u64 (lh_mmap_size h - lh_offset h))
      else
        pg ← load_page (page_of (segment_of p) p);
        mret (pg_block_size pg)
  end.

Definition hm_realloc (tid : nat) (ptr : option Z) (size : Z) : M State (option Z) :=
  match ptr with
  | None => hm_malloc tid size
  | Some p =>
      if size =? 0 then hm_free tid ptr;; mret None
      else
        old_usable ← hm_usable_size ptr;
        if (size <=? old_usable) && ((old_usable <=? SMALL_SIZE_MAX) || (old_usable / 2 <? size))
        then mret ptr
        else
          np ← hm_malloc tid size;
          match np with
          | None => mret None
          | Some q =>
              in_os (do_memcpy q p (if size <? old_usable then size else old_usable));;
              hm_free tid ptr;;
              mret (Some q)
          end
  end.

(** [while (c < num_size_classes() && class_to_size(c) % alignment != 0) ++c]. *)
Fixpoint class_scan (fuel : nat) (c alignment : Z) : M State Z :=
  match fuel with
  | O => diverge
  | S f =>
      if c <? num_size_classes then
        s ← deref (class_to_size c);
        if negb (s mod alignment =? 0) then class_scan f (c + 1) alignment else mret c
      else mret c
  end.

Definition hm_aligned_alloc (tid : nat) (alignment size : Z) : M State (option Z) :=
  if size =? 0 then mret None
  else if (alignment =? 0) || negb (Z.land alignment (u64 (alignment - 1)) =? 0) then mret None
  else if alignment <=? ALLOC_ALIGN then hm_malloc tid size
  else
    let need := if alignment <? size then size else alignment in
    let large :=
      if SEGMENT_SIZE / 2 <? alignment then mret None else alloc_large size alignment in
    if need <=? SMALL_SIZE_MAX then
      c ← deref (size_class need);
      c ← class_scan (S (Z.to_nat num_size_classes)) c alignment;
      if c <? num_size_classes then
        s ← deref (class_to_size c);
        heap_malloc tid s
      else large
    else large.

Definition hm_stats : M State HmStats :=
  os ← in_os os_stats;
  c ← central_stats;
  lc ← gets g_large_count;
  lb ← gets g_large_bytes;
  '(m, f, s) ← heap_global_counts;
  mret (mkHmStats (bytes_mapped os) (peak_mapped os) (cs_segments c) (cs_pages_in_use c)
          (cs_free_pages c) lc lb m f s).
End hmalloc.
