(* ===== verification/HeapInv.v ===== *)
(** * The invariant of the thread heaps

    Every class of every heap lists exactly the pages in use that the heap owns
    for the class; every page owned by a heap belongs to an existing heap; the
    registry of heaps lists exactly the heaps; every heap belongs to one thread;
    the call counters add up.  [Ex] exempts the list of one class while an
    operation is rearranging it. *)
From Stdlib Require Import ZArith Lia.
From stdpp Require Import base numbers list gmap.
From S2P Require Import Prelude Words Constants SizeClass Segment Memory Os Chains Sums RegionRegistry State Regions PageOps Allocated Central CentralInv CentralSpec PoolSpec CentralOps Acquire Heap.

Implicit Types (P : gmap pageref Page) (H : gmap Z Heap) (r : pageref).

Definition pg_links P r : option (option pageref * option pageref) :=
  (λ p, (pg_prev p, pg_next p)) <$> P !! r.
Definition reg_nxt H (a : Z) : option (option Z) := h_reg_next <$> H !! a.

(** The pages of class [c] that the heap at [a] owns. *)
Definition owned_in P (a c : Z) r : Prop := ∃ pg, P !! r = Some pg ∧ pg_in_use pg = true ∧
  pg_owner pg = Some (HeapAt a) ∧ pg_size_class pg = c.

Definition plist P (a c : Z) (L : list pageref) : Prop :=
  dchain (pg_links P) None (head L) L ∧ ∀ r, r ∈ L ↔ owned_in P a c r.

Definition class_list P (a : Z) (h : Heap) (c : Z) (L : list pageref) : Prop :=
  h_pages h !! Z.to_nat c = Some (Some (default EmptyPage (head L))) ∧ plist P a c L.

(** Without statistics the counters stay zero. *)
Definition stats_ok {C : Config} (h : Heap) : Prop :=
  if stats_on then h_n_malloc h = u64 (h_n_fast h + h_n_slow h)
  else h_n_malloc h = 0 ∧ h_n_fast h = 0 ∧ h_n_slow h = 0.

Record heap_inv {C : Config} (Ex : option (Z * Z)) P H (gr : option Z) (T : gmap nat Z) : Prop := {
  hi_len a h : H !! a = Some h → length (h_pages h) = Z.to_nat kNumSizeClasses;
  hi_list a h c : H !! a = Some h → 0 ≤ c < kNumSizeClasses → Ex ≠ Some (a, c) →
    ∃ L, class_list P a h c L;
  hi_owner r pg a : P !! r = Some pg → pg_in_use pg = true → pg_owner pg = Some (HeapAt a) →
    is_Some (H !! a);
  hi_reg : ∃ L, chain (reg_nxt H) gr L ∧ ∀ a, a ∈ L ↔ is_Some (H !! a);
  hi_thread t a : T !! t = Some a → is_Some (H !! a);
  hi_inj t t' a : T !! t = Some a → T !! t' = Some a → t = t';
  hi_all a : is_Some (H !! a) → ∃ t, T !! t = Some a
}.
Arguments hi_len {C Ex P H gr T} _ a h.
Arguments hi_list {C Ex P H gr T} _ a h c.
Arguments hi_owner {C Ex P H gr T} _ r pg a.
Arguments hi_reg {C Ex P H gr T} _.
Arguments hi_thread {C Ex P H gr T} _ t a.
Arguments hi_inj {C Ex P H gr T} _ t t' a.
Arguments hi_all {C Ex P H gr T} _ a.

(** ** Frames *)

(** The pages of heaps are the same in both stores. *)
Definition same_owned P P' : Prop := ∀ q p, heap_owned p → P' !! q = Some p ↔ P !! q = Some p.

Lemma owned_in_owned P a c r : owned_in P a c r → ∃ pg, P !! r = Some pg ∧ heap_owned pg.
Proof. intros (pg & Hpg & Hu & Ho & _). exists pg. split; [done|]. split; [done|eauto]. Qed.

Lemma owned_in_frame P P' a c r : same_owned P P' → owned_in P' a c r ↔ owned_in P a c r.
Proof.
  intros HP. split; intros (pg & Hpg & Hu & Ho & Hc); exists pg; (split; [|done]);
    (assert (heap_owned pg) as Hpo by (split; eauto)); destruct (HP r pg Hpo); auto.
Qed.

Lemma plist_frame P P' a c L : same_owned P P' → plist P a c L → plist P' a c L.
Proof.
  intros HP [Hd HL]. split.
  - eapply dchain_ext; [|done]. intros r Hr. apply HL in Hr.
    destruct (owned_in_owned _ _ _ _ Hr) as (pg & Hpg & Ho). unfold pg_links.
    by rewrite Hpg, (proj2 (HP r pg Ho) Hpg).
  - intros r. rewrite HL. by rewrite (owned_in_frame P P').
Qed.

Lemma heap_inv_frame {C : Config} Ex P P' H gr T :
  same_owned P P' → heap_inv Ex P H gr T → heap_inv Ex P' H gr T.
Proof.
  intros HP [H1 H2 H3 H4 H5 H6 H7]. constructor; try done.
  - intros a h c Ha Hc He. destruct (H2 a h c Ha Hc He) as (L & Hp & HL). exists L.
    split; [done|by eapply plist_frame].
  - intros r pg a Hr Hu Ho. apply (H3 r pg a); try done.
    assert (heap_owned pg) as Hpo by (split; eauto). by apply (HP r pg Hpo).
Qed.

(** Changes that keep links, owner, class and use of every page. *)
Definition page_place (pg : Page) :=
  (pg_prev pg, pg_next pg, pg_owner pg, pg_size_class pg, pg_in_use pg).

Lemma plist_place P P' a c L :
  (∀ q, page_place <$> P' !! q = page_place <$> P !! q) → plist P a c L → plist P' a c L.
Proof.
  intros HP [Hd HL]. split.
  - eapply dchain_ext; [|done]. intros r _. unfold pg_links. specialize (HP r).
    destruct (P' !! r), (P !! r); try done. simpl in *. injection HP as -> -> _ _ _. done.
  - intros r. rewrite HL. unfold owned_in. specialize (HP r).
    split; intros (pg & Hpg & Hu & Ho & Hc); rewrite Hpg in HP.
    + destruct (P' !! r) as [p|]; [|done]. injection HP as _ _ E1 E2 E3. exists p. split_and!; congruence.
    + destruct (P !! r) as [p|]; [|done]. injection HP as _ _ E1 E2 E3. exists p. split_and!; congruence.
Qed.

Lemma heap_inv_place {C : Config} Ex P P' H gr T :
  (∀ q, page_place <$> P' !! q = page_place <$> P !! q) → heap_inv Ex P H gr T → heap_inv Ex P' H gr T.
Proof.
  intros HP [H1 H2 H3 H4 H5 H6 H7]. constructor; try done.
  - intros a h c Ha Hc He. destruct (H2 a h c Ha Hc He) as (L & Hp & HL). exists L.
    split; [done|by eapply plist_place].
  - intros r pg a Hr Hu Ho. pose proof (HP r) as Er. rewrite Hr in Er.
    destruct (P !! r) as [p|] eqn:Ep; [|done]. injection Er as _ _ E1 E2 E3. apply (H3 r p a); congruence.
Qed.

(** Everything the heaps own apart from class [c] of the heap at [a]. *)
Definition in_class (a c : Z) (pg : Page) : Prop :=
  pg_owner pg = Some (HeapAt a) ∧ pg_size_class pg = c.
Definition same_outside (a c : Z) P P' : Prop :=
  ∀ q p, heap_owned p → ¬ in_class a c p → P' !! q = Some p ↔ P !! q = Some p.

Lemma same_outside_trans a c P1 P2 P3 :
  same_outside a c P1 P2 → same_outside a c P2 P3 → same_outside a c P1 P3.
Proof. intros H1 H2 q p Hp Hc. rewrite (H2 q p Hp Hc). by apply H1. Qed.

Lemma same_owned_outside a c P P' : same_owned P P' → same_outside a c P P'.
Proof. intros H q p Hp _. by apply H. Qed.

Lemma owned_in_outside P P' a c a' c' r :
  (a', c') ≠ (a, c) → same_outside a c P P' → owned_in P' a' c' r ↔ owned_in P a' c' r.
Proof.
  intros Hne HP. split; intros (pg & Hpg & Hu & Ho & Hc); exists pg; (split; [|done]);
    (assert (heap_owned pg) as Hpo by (split; eauto));
    (assert (¬ in_class a c pg) as Hn by (intros [? ?]; congruence));
    destruct (HP r pg Hpo Hn); auto.
Qed.

Lemma plist_outside P P' a c a' c' L :
  (a', c') ≠ (a, c) → same_outside a c P P' → plist P a' c' L → plist P' a' c' L.
Proof.
  intros Hne HP [Hd HL]. split.
  - eapply dchain_ext; [|done]. intros r Hr. apply HL in Hr as (pg & Hpg & Hu & Ho & Hc).
    assert (heap_owned pg) as Hpo by (split; eauto).
    assert (¬ in_class a c pg) as Hn by (intros [? ?]; congruence).
    unfold pg_links. by rewrite Hpg, (proj2 (HP r pg Hpo Hn) Hpg).
  - intros r. rewrite HL. by rewrite (owned_in_outside P P' a c).
Qed.

Section exempt.
Context {C : Config} (a c : Z).
Implicit Types (gr : option Z) (T : gmap nat Z).

(** The list of class [c] is taken apart, rearranged, and put back. *)
Lemma heap_inv_open P H gr T : heap_inv None P H gr T → heap_inv (Some (a, c)) P H gr T.
Proof. intros [H1 H2 H3 H4 H5 H6 H7]. constructor; try done. intros. by apply H2. Qed.

Lemma heap_inv_close P H gr T h L :
  heap_inv (Some (a, c)) P H gr T → H !! a = Some h → class_list P a h c L →
  heap_inv None P H gr T.
Proof.
  intros [H1 H2 H3 H4 H5 H6 H7] Ha HL. constructor; try done. intros a' h' c' Ha' Hc' _.
  destruct (decide ((a', c') = (a, c))) as [[= -> ->]|Hne]; [|apply H2; congruence].
  exists L. by simplify_eq.
Qed.

Lemma heap_inv_outside P P' H gr T :
  heap_inv (Some (a, c)) P H gr T → is_Some (H !! a) → same_outside a c P P' →
  heap_inv (Some (a, c)) P' H gr T.
Proof.
  intros [H1 H2 H3 H4 H5 H6 H7] Ha HP. constructor; try done.
  - intros a' h c' Ha' Hc He. destruct (H2 a' h c' Ha' Hc He) as (L & Hp & HL). exists L.
    split; [done|]. eapply plist_outside; [|done..]. congruence.
  - intros r pg a' Hr Hu Ho. destruct (decide (a' = a)) as [->|Hne]; [done|].
    apply (H3 r pg a'); try done. apply (HP r pg); [split; eauto| |done]. intros [? _]. congruence.
Qed.
End exempt.

(** A heap header changes: its registry link stays, and so do the lists that are
    not exempt. *)
Lemma heap_inv_heap {C : Config} Ex P H gr T a h h' :
  heap_inv Ex P H gr T → H !! a = Some h → h_reg_next h' = h_reg_next h →
  length (h_pages h') = length (h_pages h) →
  (∀ c, 0 ≤ c → Ex ≠ Some (a, c) → h_pages h' !! Z.to_nat c = h_pages h !! Z.to_nat c) →
  heap_inv Ex P (<[a := h']> H) gr T.
Proof.
  intros [H1 H2 H3 H4 H5 H6 H7] Ha Hr Hlen Hpg.
  assert (∀ x, is_Some (<[a := h']> H !! x) ↔ is_Some (H !! x)) as Hs.
  { intros x. rewrite lookup_insert. case_decide; [subst; rewrite Ha|done]. split; eauto. }
  constructor; try (intros; apply Hs; eauto; done).
  - intros x hx. rewrite lookup_insert. case_decide; [|apply H1]. intros [= <-]. subst. rewrite Hlen. eauto.
  - intros x hx c. rewrite lookup_insert. case_decide; [|apply H2]. intros [= <-] Hc He. subst x.
    destruct (H2 a h c Ha Hc He) as (L & Hh & HL). exists L. split; [|done]. rewrite Hpg; try done. lia.
  - destruct H4 as (L & Hc & HL). exists L. split; [|by setoid_rewrite Hs].
    eapply chain_ext; [|done]. intros x _. unfold reg_nxt. rewrite lookup_insert.
    case_decide; [|done]. subst x. rewrite Ha. simpl. by rewrite Hr.
  - done.
  - intros x [? ?]%Hs. eauto.
Qed.
