(* ===== verification/HeapLinks.v ===== *)
(** * Relinking the pages of a class

    Unlinking a page from the list of its class and linking a page in front,
    as maps of pages; such changes are invisible to the central heap and to the
    client. *)
From Stdlib Require Import ZArith Lia.
From stdpp Require Import base numbers list gmap.
From S2P Require Import Prelude Words Constants SizeClass Segment Memory Os Chains Sums RegionRegistry State Regions PageOps Allocated Central CentralInv CentralSpec PoolSpec CentralOps Acquire Heap HeapInv.

Implicit Types (P : gmap pageref Page) (r : pageref) (pg : Page).

(** A page without its links. *)
Definition nolinks pg : Page := set_pg_next None (set_pg_prev None pg).

(** Only links of pages of heaps changed. *)
Definition relinked P P' : Prop :=
  (∀ q, nolinks <$> P' !! q = nolinks <$> P !! q) ∧
  ∀ q pg, P !! q = Some pg → ¬ heap_owned pg → P' !! q = Some pg.

Lemma nolinks_eq pg pg' : nolinks pg' = nolinks pg →
  page_view pg' = page_view pg ∧ pg_owner pg' = pg_owner pg ∧ pg_size_class pg' = pg_size_class pg ∧
  pg_in_use pg' = pg_in_use pg ∧ pg_area pg' = pg_area pg.
Proof. destruct pg, pg'. unfold nolinks, page_view. simpl. intros [= -> -> -> -> -> -> -> -> -> ->]. done. Qed.

Lemma nolinks_owned pg pg' : nolinks pg' = nolinks pg → heap_owned pg' ↔ heap_owned pg.
Proof. intros (_ & E1 & _ & E2 & _)%nolinks_eq. unfold heap_owned. by rewrite E1, E2. Qed.

Lemma relinked_lookup P P' q pg : relinked P P' → P !! q = Some pg → ∃ pg', P' !! q = Some pg' ∧ nolinks pg' = nolinks pg.
Proof.
  intros [H _] Hq. specialize (H q). rewrite Hq in H. destruct (P' !! q) as [p|]; [|done].
  exists p. split; [done|]. by apply (inj Some) in H.
Qed.

Lemma relinked_lookup_inv P P' q pg' : relinked P P' → P' !! q = Some pg' → ∃ pg, P !! q = Some pg ∧ nolinks pg' = nolinks pg.
Proof.
  intros [H _] Hq. specialize (H q). rewrite Hq in H. destruct (P !! q) as [p|]; [|done].
  exists p. split; [done|]. by apply (inj Some) in H.
Qed.

Lemma relinked_refl P : relinked P P.
Proof. done. Qed.

Lemma relinked_trans P1 P2 P3 : relinked P1 P2 → relinked P2 P3 → relinked P1 P3.
Proof.
  intros H12 H23. split.
  - intros q. by rewrite (proj1 H23), (proj1 H12).
  - intros q pg Hq Hn. apply H23; [|done]. by apply H12.
Qed.

Lemma relinked_alter P q f :
  (∀ pg, nolinks (f pg) = nolinks pg) → (∀ pg, P !! q = Some pg → heap_owned pg) → relinked P (alter f q P).
Proof.
  intros Hf Ho. split.
  - intros x. destruct (decide (x = q)) as [->|Hne]; [|by rewrite lookup_alter_ne].
    rewrite lookup_alter_eq. destruct (P !! q); simpl; [by rewrite Hf|done].
  - intros x pg Hx Hn. destruct (decide (x = q)) as [->|Hne]; [|by rewrite lookup_alter_ne].
    by apply Ho in Hx.
Qed.

Lemma relinked_same_view P P' : relinked P P' → same_view P P'.
Proof.
  intros H q. destruct (P !! q) as [pg|] eqn:E.
  - destruct (relinked_lookup _ _ _ _ H E) as (pg' & -> & (E' & _)%nolinks_eq). simpl. by rewrite E'.
  - destruct H as [H _]. specialize (H q). rewrite E in H. by destruct (P' !! q).
Qed.

(** A page that no heap owns is the same in both stores. *)
Lemma relinked_unowned P P' q pg : relinked P P' → ¬ heap_owned pg → P' !! q = Some pg ↔ P !! q = Some pg.
Proof.
  intros H Hn. split; [|intros Hq; by apply H].
  intros Hq. destruct (relinked_lookup_inv _ _ _ _ H Hq) as (p & Hp & E).
  assert (¬ heap_owned p) as Hn' by by rewrite <-(nolinks_owned p pg).
  pose proof (proj2 H q p Hp Hn'). congruence.
Qed.

Lemma unowned_idle pg : pg_in_use pg = false → ¬ heap_owned pg.
Proof. intros E [E' _]. congruence. Qed.

Lemma pages_ok_relinked S P P' : relinked P P' → pages_ok S P → pages_ok S P'.
Proof.
  intros H [H1 H2 H3 H4 H5]. constructor.
  - intros s i. rewrite <-(H1 s i). split; intros [p Hp].
    + destruct (relinked_lookup_inv _ _ _ _ H Hp) as (? & ? & _); eauto.
    + destruct (relinked_lookup _ _ _ _ H Hp) as (? & ? & _); eauto.
  - apply (relinked_unowned P P'); [done|by apply unowned_idle|done].
  - intros s i pg' Hp Hi. destruct (relinked_lookup_inv _ _ _ _ H Hp) as (pg & Hpg & (_ & _ & _ & _ & ->)%nolinks_eq). eauto.
  - intros s i pg' Hp Hi. destruct (relinked_lookup_inv _ _ _ _ H Hp) as (pg & Hpg & (_ & _ & _ & -> & _)%nolinks_eq). eauto.
  - intros q pg' Hp Hu. destruct (relinked_lookup_inv _ _ _ _ H Hp) as (pg & Hpg & (_ & Eo & _ & Eu & _)%nolinks_eq).
    rewrite Eo. rewrite Eu in Hu. eauto.
Qed.

Lemma segment_ok_relinked P P' s g : relinked P P' → segment_ok P s g → segment_ok P' s g.
Proof.
  intros H Hs. eapply segment_ok_frame; [done|..].
  - intros q (i & pg & -> & _ & Hpg & Hu). unfold pg_nxt.
    by rewrite (proj2 (relinked_unowned P P' _ pg H (unowned_idle pg Hu)) Hpg), Hpg.
  - intros q. unfold free_page. split; intros (i & pg & -> & Hi & Hpg & Hu); exists i, pg; (split; [done|]; split; [done|]; split; [|done]);
      by apply (relinked_unowned P P' _ pg H (unowned_idle pg Hu)).
Qed.

Lemma central_core_relinked d S P P' c :
  relinked P P' → central_core None d S P c → central_core None d S P' c.
Proof.
  intros H [H1 H2 H3 (L & [Hc HL] & Hn) H5 H6 H7 H8 H9].
  assert (∀ q p, is_abandoned None q p = true → ¬ heap_owned p) as Hab.
  { unfold is_abandoned. intros q p Hp [_ [a Ha]]. rewrite Ha in Hp. destruct (pg_in_use p); simpl in Hp; done. }
  assert (∀ q p, is_abandoned None q p = true → P' !! q = Some p ↔ P !! q = Some p) as Hq.
  { intros q p Hp. by apply relinked_unowned, (Hab q). }
  constructor; try done.
  - intros s g Hs. eapply segment_ok_relinked; eauto.
  - by eapply pages_ok_relinked.
  - exists L. split; [split|done].
    + eapply chain_ext; [|done]. intros q Hqs. apply HL in Hqs as (pg & Hpg & Ha). unfold pg_nxt.
      by rewrite Hpg, (proj2 (Hq q pg Ha) Hpg).
    + intros q. rewrite HL. split; intros (pg & Hpg & Ha); exists pg; (split; [|done]); by apply (Hq q pg Ha).
  - rewrite H9. f_equal. apply msum_ext. intros q.
    destruct (P !! q) as [pg|] eqn:E.
    + destruct (relinked_lookup _ _ _ _ H E) as (pg' & -> & (_ & Eo & _ & Eu & _)%nolinks_eq). simpl.
      unfold owned_by_heap. by rewrite Eo, Eu.
    + destruct H as [H _]. specialize (H q). rewrite E in H. by destruct (P' !! q).
Qed.

(** ** Unlinking and linking in front *)

(** [pg->prev->next = pg->next; pg->next->prev = pg->prev]. *)
Definition unlink_pages pg P : gmap pageref Page :=
  let P1 := match pg_prev pg with Some q => alter (set_pg_next (pg_next pg)) q P | None => P end in
  match pg_next pg with Some q => alter (set_pg_prev (pg_prev pg)) q P1 | None => P1 end.

Lemma lookup_unlink pg P x :
  unlink_pages pg P !! x =
    (λ p, set_pg_prev (if decide (pg_next pg = Some x) then pg_prev pg else pg_prev p)
       (set_pg_next (if decide (pg_prev pg = Some x) then pg_next pg else pg_next p) p)) <$> P !! x.
Proof.
  unfold unlink_pages.
  destruct (pg_prev pg) as [q|] eqn:Ep, (pg_next pg) as [n|] eqn:En; simpl;
    rewrite ?lookup_alter; repeat case_decide; simplify_eq; try done;
    match goal with |- context [P !! ?y] => destruct (P !! y) as [p|]; [by destruct p|done] end.
Qed.

(** [np->prev = nullptr; np->next = hd; hd->prev = np]. *)
Definition push_pages (np : pageref) (hd : option pageref) P : gmap pageref Page :=
  let P1 := alter (set_pg_next hd) np (alter (set_pg_prev None) np P) in
  match hd with Some q => alter (set_pg_prev (Some np)) q P1 | None => P1 end.

Lemma lookup_push np hd P x :
  hd ≠ Some np → push_pages np hd P !! x =
    (λ p, set_pg_prev (if decide (x = np) then None else if decide (hd = Some x) then Some np else pg_prev p)
       (set_pg_next (if decide (x = np) then hd else pg_next p) p)) <$> P !! x.
Proof.
  intros Hne. unfold push_pages.
  destruct hd as [q|]; simpl; rewrite ?lookup_alter; repeat case_decide; simplify_eq; try done;
    match goal with |- context [P !! ?y] => destruct (P !! y) as [p|]; [by destruct p|done] end.
Qed.

Lemma links_lookup P x pg : P !! x = Some pg → pg_links P x = Some (pg_prev pg, pg_next pg).
Proof. unfold pg_links. by intros ->. Qed.
Lemma links_lookup_inv P x a b :
  pg_links P x = Some (a, b) → ∃ pg, P !! x = Some pg ∧ pg_prev pg = a ∧ pg_next pg = b.
Proof. unfold pg_links. intros (pg & ? & [= -> ->])%fmap_Some. eauto. Qed.

Lemma dchain_unlink_pages P h L1 r L2 pg :
  dchain (pg_links P) None h (L1 ++ r :: L2) → P !! r = Some pg →
  dchain (pg_links (unlink_pages pg P)) None (if decide (h = Some r) then pg_next pg else h) (L1 ++ L2).
Proof.
  intros Hd Hr. eapply dchain_unlink; [done|by apply links_lookup|].
  intros x p n _ Hne (px & Hx & <- & <-)%links_lookup_inv.
  erewrite links_lookup; [|by rewrite lookup_unlink, Hx]. done.
Qed.

Lemma dchain_push_pages P h L np pg :
  dchain (pg_links P) None h L → P !! np = Some pg → np ∉ L →
  dchain (pg_links (push_pages np h P)) None (Some np) (np :: L).
Proof.
  intros Hd Hnp Hn.
  assert (h ≠ Some np) as Hne by (intros ->; apply dchain_some in Hd as (? & ? & -> & _); set_solver).
  eapply dchain_push; [done|..].
  - erewrite links_lookup; [|by rewrite lookup_push, Hnp]. simpl. by rewrite !decide_True.
  - intros x Hx Hh. unfold pg_links. rewrite lookup_push by done. destruct (P !! x) as [p|]; [|done].
    simpl. rewrite !(decide_False (P := x = np)), decide_False by (done || set_solver). done.
  - intros x b -> (px & Hx & Hp & <-)%links_lookup_inv.
    erewrite links_lookup; [|by rewrite lookup_push, Hx]. simpl.
    by rewrite !(decide_False (P := x = np)), decide_True by congruence.
Qed.

(** The neighbours of a listed page are other listed pages. *)
Lemma page_neighbours P h L r pg :
  dchain (pg_links P) None h L → r ∈ L → P !! r = Some pg →
  (∀ q, pg_prev pg = Some q → q ≠ r ∧ q ∈ L) ∧ (∀ q, pg_next pg = Some q → q ≠ r ∧ q ∈ L) ∧
  (pg_prev pg = None → h = Some r).
Proof.
  intros Hd Hr Hpg. pose proof (links_lookup _ _ _ Hpg) as Hl. split_and!.
  - intros q E. rewrite E in Hl. split; [intros ->; by eapply dchain_prev_self|].
    by destruct (dchain_prev_next _ _ _ _ _ _ _ Hd Hr Hl) as [[? _]|[? _]].
  - intros q E. rewrite E in Hl. split; [intros ->; by eapply dchain_next_self|].
    by destruct (dchain_next_prev _ _ _ _ _ _ _ Hd Hr Hl) as [? _].
  - intros E. rewrite E in Hl. by eapply dchain_prev_none.
Qed.

Lemma nolinks_prev v pg : nolinks (set_pg_prev v pg) = nolinks pg.
Proof. done. Qed.
Lemma nolinks_next v pg : nolinks (set_pg_next v pg) = nolinks pg.
Proof. done. Qed.

(** Relinking within one class of one heap. *)
Definition relinked_in (a c : Z) P P' : Prop :=
  relinked P P' ∧ ∀ q, ¬ owned_in P a c q → P' !! q = P !! q.

Lemma owned_in_relinked (a c : Z) P P' q :
  relinked P P' → owned_in P' a c q ↔ owned_in P a c q.
Proof.
  intros H. split.
  - intros (p & Hp & Hu & Ho & Hc). destruct (relinked_lookup_inv _ _ _ _ H Hp) as (p0 & Hp0 & (_ & E1 & E2 & E3 & _)%nolinks_eq).
    exists p0. split_and!; congruence.
  - intros (p & Hp & Hu & Ho & Hc). destruct (relinked_lookup _ _ _ _ H Hp) as (p0 & Hp0 & (_ & E1 & E2 & E3 & _)%nolinks_eq).
    exists p0. split_and!; congruence.
Qed.

Lemma relinked_in_trans a c P1 P2 P3 : relinked_in a c P1 P2 → relinked_in a c P2 P3 → relinked_in a c P1 P3.
Proof.
  intros [H1 O1] [H2 O2]. split; [by eapply relinked_trans|]. intros q Hq. rewrite O2, O1; try done.
  by rewrite (owned_in_relinked a c).
Qed.

Lemma relinked_in_alter a c P q f :
  (∀ pg, nolinks (f pg) = nolinks pg) → owned_in P a c q → relinked_in a c P (alter f q P).
Proof.
  intros Hf Ho. split.
  - apply relinked_alter; [done|]. intros pg Hpg. destruct (owned_in_owned _ _ _ _ Ho) as (p & Hp & Hpo). by simplify_eq.
  - intros x Hx. rewrite lookup_alter_ne; [done|]. by intros ->.
Qed.

Lemma relinked_in_outside a c P P' : relinked_in a c P P' → same_outside a c P P'.
Proof.
  intros [H O] q p Hp Hc. destruct (P !! q) as [p0|] eqn:E.
  - destruct (decide (pg_owner p0 = Some (HeapAt a) ∧ pg_size_class p0 = c ∧ pg_in_use p0 = true)) as [(E1 & E2 & E3)|Hn].
    + destruct (relinked_lookup _ _ _ _ H E) as (p' & -> & (_ & F1 & F2 & _ & _)%nolinks_eq).
      split; intros [= ->]; exfalso; apply Hc; split; congruence.
    + rewrite O, E; [done|]. intros (p1 & Hp1 & ? & ? & ?). simplify_eq. by apply Hn.
  - rewrite O, E; [done|]. intros (? & ? & _). congruence.
Qed.

Lemma relinked_in_unlink a c P pg :
  (∀ q, pg_prev pg = Some q → owned_in P a c q) → (∀ q, pg_next pg = Some q → owned_in P a c q) →
  relinked_in a c P (unlink_pages pg P).
Proof.
  intros Hp Hn. unfold unlink_pages.
  assert (relinked_in a c P match pg_prev pg with Some q => alter (set_pg_next (pg_next pg)) q P | None => P end) as H1.
  { destruct (pg_prev pg); [|done]. apply relinked_in_alter; auto. }
  destruct (pg_next pg); [|done]. eapply relinked_in_trans; [done|].
  apply relinked_in_alter; [done|]. apply (owned_in_relinked a c _ _ _ (proj1 H1)). auto.
Qed.

Lemma relinked_in_push a c P np hd :
  owned_in P a c np → (∀ q, hd = Some q → owned_in P a c q) → relinked_in a c P (push_pages np hd P).
Proof.
  intros Hp Hn. unfold push_pages.
  assert (relinked_in a c P (alter (set_pg_prev None) np P)) as H1 by (apply relinked_in_alter; auto).
  assert (relinked_in a c P (alter (set_pg_next hd) np (alter (set_pg_prev None) np P))) as H2.
  { eapply relinked_in_trans; [done|]. apply relinked_in_alter; [done|].
    by apply (owned_in_relinked a c _ _ _ (proj1 H1)). }
  destruct hd; [|done]. eapply relinked_in_trans; [done|].
  apply relinked_in_alter; [done|]. apply (owned_in_relinked a c _ _ _ (proj1 H2)). auto.
Qed.
