(* ===== verification/HeapSpec.v ===== *)
(** * The operations of the thread heaps keep the invariant

    [hok] is the invariant of the allocator below the large path.  The lemmas
    say, for each operation of heap.cpp, that it returns, that it keeps [hok],
    and what it does to the set of allocated blocks. *)
From Stdlib Require Import ZArith Lia.
From stdpp Require Import base numbers list gmap.
From S2P Require Import Prelude Words Constants SizeClass Segment Memory Os Chains Sums RegionRegistry State Regions PageOps Allocated Central CentralInv CentralSpec PoolSpec CentralOps Acquire Heap HeapInv HeapLinks.

Section heap_spec.
Context {K : Kernel} {KL : KernelLaws K} {Lg : Ledger} {C : Config}.
Implicit Types (st : State) (r : pageref) (Ex : option (Z * Z)).

Record hok Ex st : Prop := {
  hk_central : central_ok None st;
  hk_mem : mem_ok st;
  hk_heaps : heap_inv Ex (pages st) (heaps st) (g_registry st) (t_heap st)
}.
#[global] Arguments hk_central {Ex st} _.
#[global] Arguments hk_mem {Ex st} _.
#[global] Arguments hk_heaps {Ex st} _.

(** What the operations on heaps leave alone besides the invariant. *)
Definition h_counts (h : Heap) : Z * Z * Z := (h_n_malloc h, h_n_fast h, h_n_slow h).
Record hframe st st' : Prop := {
  hf_counts x : h_counts <$> heaps st' !! x = h_counts <$> heaps st !! x;
  hf_thread : t_heap st' = t_heap st;
  hf_larges : larges st' = larges st;
  hf_lcount : g_large_count st' = g_large_count st;
  hf_lbytes : g_large_bytes st' = g_large_bytes st
}.

Lemma hframe_refl st : hframe st st.
Proof. done. Qed.
Lemma hframe_trans st1 st2 st3 : hframe st1 st2 → hframe st2 st3 → hframe st1 st3.
Proof. intros [H1 H2 H3 H4 H5] [G1 G2 G3 G4 G5]. constructor; [intros x; by rewrite G1|congruence..]. Qed.
Lemma others_hframe st st' : others_same st st' → hframe st st'.
Proof. intros [H1 H2 H3 H4 H5 H6]. constructor; try done. intros x. by rewrite H1. Qed.

(** ** Frames *)

Lemma hok_central_frame Ex st st' : hok Ex st → central_frame st st' → hok Ex st'.
Proof.
  intros [_ _ H] [F1 F2 F3 [E1 E2 E3 E4 E5 E6] F5]. constructor; try done. rewrite E1, E2, E3.
  eapply heap_inv_frame; [|done]. exact F5.
Qed.

(** An operation on one page in use that keeps [page_core]. *)
Lemma hok_moved Ex st s i pg m' pg' :
  hok Ex st → pages st !! PageAt s i = Some pg → pg_in_use pg = true → page_core pg' = page_core pg →
  mem_ok (page_state st (PageAt s i) m' pg') → hok Ex (page_state st (PageAt s i) m' pg').
Proof.
  intros [[H1 H1'] H2 H3] Hpg Hu Hc Hm. constructor; [split; [|done]|done|].
  - by eapply central_core_moved.
  - eapply heap_inv_place; [|done]. intros q. simpl. rewrite lookup_insert. case_decide; [|done]. subst q.
    rewrite Hpg. simpl. f_equal. unfold page_core in Hc. injection Hc as F1 F2 F3 F4 F5 F6 F7 F8.
    unfold page_place. congruence.
Qed.

(** Header changes that keep the addresses of the heaps. *)
Lemma mem_ok_heap st a h h' : mem_ok st → heaps st !! a = Some h → mem_ok (set_heaps (<[a := h']> (heaps st)) st).
Proof.
  intros [H1 H2 H3 H4 H5 H6] Ha. assert (∀ t, region_of (set_heaps (<[a := h']> (heaps st)) st) t = region_of st t) as Ht.
  { intros []; try done. simpl. rewrite lookup_insert. case_decide; [|done]. subst. by rewrite Ha. }
  constructor; try done; [by eapply regions_ok_ext|by apply (counted_same st)].
Qed.

Lemma hok_heap Ex st a h h' :
  hok Ex st → heaps st !! a = Some h → h_reg_next h' = h_reg_next h →
  length (h_pages h') = length (h_pages h) →
  (∀ c, 0 ≤ c → Ex ≠ Some (a, c) → h_pages h' !! Z.to_nat c = h_pages h !! Z.to_nat c) →
  hok Ex (set_heaps (<[a := h']> (heaps st)) st).
Proof.
  intros [H1 H2 H3] Ha Hr Hl Hp. constructor; [done|by eapply mem_ok_heap|by eapply heap_inv_heap].
Qed.

(** ** Serving from a page *)

Lemma in_use_at Ex st r pg :
  hok Ex st → pages st !! r = Some pg → pg_in_use pg = true → ∃ s i, r = PageAt s i.
Proof.
  intros H Hr Hu. destruct r as [|s i]; [|eauto].
  pose proof (pk_empty _ _ (co_pages (proj1 (hk_central H)))). by simplify_eq.
Qed.

Lemma make_available_spec Ex st s i pg :
  hok Ex st → pages st !! PageAt s i = Some pg → pg_in_use pg = true →
  wp (page_make_available (PageAt s i)) (λ ok st', ∃ m' pg', st' = page_state st (PageAt s i) m' pg' ∧
    page_core pg' = page_core pg ∧ hok Ex st' ∧ same_alloc st st' ∧
    if ok then pg_free pg' ≠ None else pg_used pg' = pg_capacity pg ∧ pg_reserved pg = pg_capacity pg) st.
Proof.
  intros H Hpg Hu. destruct (mo_blocks (hk_mem H) s i pg Hpg Hu) as (lf & lt & Hok).
  apply (wp_page_state _ _ st (PageAt s i) pg Hpg).
  eapply wp_mono; [apply (page_make_available_moved _ _ _ s i pg lf lt Hok)|].
  { by eapply page_mapped; [apply H| |apply Hok]. }
  intros ok st' (lf' & lt' & m' & pg' & HM & Hr). exists m', pg'.
  destruct (moved_same st s i pg lf lt (hk_mem H) Hpg Hu Hok _ _ _ _ _ HM) as [Hm' Hsa].
  pose proof (pm_state HM) as ->. split_and!; try done; [apply HM|eapply hok_moved; try done; apply HM|].
  pose proof (pm_ok HM) as Hok'. destruct ok.
  - by rewrite (free_none _ _ _ _ _ _ Hok').
  - destruct Hr as (-> & -> & Er). split; [|done]. rewrite (po_used Hok').
    assert (lf' = [] ∧ lt' = []) as [-> ->].
    { split; apply elem_of_nil_inv; intros b Hb; pose proof (pm_live HM b) as Hl;
        (assert (b ∈ carved pg') as Hc by (apply (po_blocks Hok'); set_solver));
        unfold live_block in Hl; pose proof (pm_res HM); pose proof (po_res Hok');
        pose proof (pm_core HM) as Ec; unfold page_core in Ec; injection Ec as F1 F2 F3 F4 F5 F6 F7 F8;
        (assert (carved pg' = carved pg) as E by (unfold carved; rewrite F2, F8; do 2 f_equal; lia));
        rewrite E in *; set_solver. }
    pose proof (pm_res HM). pose proof (po_res Hok').
    pose proof (pm_core HM) as Ec; unfold page_core in Ec; injection Ec as F1 F2 F3 F4 F5 F6 F7 F8. simpl. lia.
Qed.

Lemma page_pop_spec Ex st s i pg b :
  hok Ex st → pages st !! PageAt s i = Some pg → pg_in_use pg = true → pg_free pg = Some b →
  wp (page_pop (PageAt s i)) (λ x st', x = b ∧ ∃ m' pg', st' = page_state st (PageAt s i) m' pg' ∧
    page_core pg' = page_core pg ∧ hok Ex st' ∧ alloc_plus st st' b (pg_block_size pg)) st.
Proof.
  intros H Hpg Hu Hf. destruct (mo_blocks (hk_mem H) s i pg Hpg Hu) as (lf & lt & Hok).
  pose proof (po_free Hok) as Hch. rewrite Hf in Hch. apply chain_some in Hch as (_ & lf' & -> & _).
  apply (wp_page_state _ _ st (PageAt s i) pg Hpg).
  eapply wp_mono; [apply (page_pop_moved _ _ _ s i pg b lf' lt Hok)|].
  { by eapply page_mapped; [apply H| |apply Hok]. }
  intros x st' (-> & m' & pg' & HM & _). split; [done|]. exists m', pg'.
  destruct (moved_plus st s i pg (b :: lf') lt (hk_mem H) Hpg Hu Hok _ _ _ _ _ b ltac:(set_solver) HM) as [Hm' Hsa].
  pose proof (pm_state HM) as ->. split_and!; try done; [apply HM|eapply hok_moved; try done; apply HM].
Qed.

(** ** Class lists *)

Lemma wp_heap_page st a h c p (Q : option pageref → State → Prop) :
  heaps st !! a = Some h → h_pages h !! Z.to_nat c = Some p → Q p st → wp (heap_page a c) Q st.
Proof.
  intros Ha Hp HQ. unfold heap_page. apply wp_bind. eapply wp_load_heap; [done|]. by eapply wp_deref.
Qed.

Lemma wp_set_heap_page st a h c p v (Q : unit → State → Prop) :
  heaps st !! a = Some h → h_pages h !! Z.to_nat c = Some v →
  Q tt (set_heaps (<[a := set_h_pages (<[Z.to_nat c := p]> (h_pages h)) h]> (heaps st)) st) →
  wp (set_heap_page a c p) Q st.
Proof.
  intros Ha Hv HQ. unfold set_heap_page. apply wp_bind. eapply wp_load_heap; [done|]. cbv beta.
  apply lookup_lt_Some in Hv. rewrite bool_decide_true by done. by eapply wp_upd_heap.
Qed.

Lemma wp_upd_page_alter st r f (Q : unit → State → Prop) :
  is_Some (pages st !! r) → Q tt (set_pages (alter f r (pages st)) st) → wp (upd_page r f) Q st.
Proof.
  intros [pg Hpg] HQ. eapply wp_upd_page; [done|].
  assert (alter f r (pages st) = <[r := f pg]> (pages st)) as <-; [|done].
  apply map_eq. intros q. rewrite lookup_alter, lookup_insert. case_decide; [|done]. subst. by rewrite Hpg.
Qed.

Lemma class_range Ex st a h c :
  hok Ex st → heaps st !! a = Some h → 0 ≤ c < kNumSizeClasses → is_Some (h_pages h !! Z.to_nat c).
Proof. intros H Ha Hc. apply lookup_lt_is_Some. rewrite (hi_len (hk_heaps H) a h Ha). lia. Qed.

(** Putting the list of class [c] back, relinked as [r :: L]. *)
Definition with_head st (a c : Z) (h : Heap) (v : option pageref) P' : State :=
  set_heaps (<[a := set_h_pages (<[Z.to_nat c := v]> (h_pages h)) h]> (heaps st)) (set_pages P' st).

Lemma hok_relinked st a c P' :
  hok (Some (a, c)) st → is_Some (heaps st !! a) → relinked_in a c (pages st) P' →
  hok (Some (a, c)) (set_pages P' st) ∧ same_alloc st (set_pages P' st).
Proof.
  intros [[H1 H1'] H2 H3] Ha HR.
  destruct (same_view_mem st (set_pages P' st) H2) as [Hm Hs]; try done.
  { apply relinked_same_view, HR. }
  split; [|done]. constructor; [split; [|done]|done|].
  - eapply central_core_relinked; [apply HR|done].
  - eapply heap_inv_outside; [done|done|by apply relinked_in_outside].
Qed.

Lemma hok_relist st a h c r L P' :
  hok (Some (a, c)) st → heaps st !! a = Some h → 0 ≤ c < kNumSizeClasses →
  relinked_in a c (pages st) P' → dchain (pg_links P') None (Some r) (r :: L) →
  (∀ q, q ∈ r :: L ↔ owned_in (pages st) a c q) →
  let st' := with_head st a c h (Some r) P' in hok None st' ∧ same_alloc st st' ∧ hframe st st'.
Proof.
  intros H Ha Hc HR Hd HL st'. destruct (hok_relinked st a c P' H ltac:(eauto) HR) as [H1 Hs].
  pose proof (class_range _ _ _ _ _ H Ha Hc) as [v Hv].
  assert (hok (Some (a, c)) st') as H2.
  { apply (hok_heap _ (set_pages P' st) a h); try done.
    - simpl. by rewrite length_insert.
    - intros c' Hc' Hne. simpl. rewrite list_lookup_insert_ne; [done|]. intros E. apply Hne. do 2 f_equal. lia. }
  split_and!.
  - constructor; [apply H2..|]. eapply (heap_inv_close _ _ _ _ _ _ _ (r :: L)); [apply H2|by simplify_map_eq|]. split.
    + simpl. rewrite list_lookup_insert_eq; [done|]. by eapply lookup_lt_Some.
    + split; [done|]. intros q. rewrite HL. symmetry. apply (owned_in_relinked a c _ P' q (proj1 HR)).
  - eapply same_alloc_trans; [done|]. by apply same_alloc_view.
  - constructor; try done. intros x. simpl. rewrite lookup_insert. case_decide; [|done]. subst. by rewrite Ha.
Qed.

(** The second half of unlinking: the successor gets a new predecessor. *)
Lemma unlink_next_spec {B} (k : M State B) st r pg pv Q :
  pg_prev pg = Some pv → pv ≠ r → pages st !! r = Some pg → is_Some (pages st !! pv) →
  (∀ q, pg_next pg = Some q → is_Some (pages st !! q)) →
  wp k Q (set_pages (unlink_pages pg (pages st)) st) →
  wp (pg ← load_page r;
      match pg_next pg with Some q => upd_page q (set_pg_prev (pg_prev pg)) | None => mret tt end;; k)
    Q (set_pages (alter (set_pg_next (pg_next pg)) pv (pages st)) st).
Proof.
  intros Ep Hne Hr Hpv Hn HQ. apply wp_bind. eapply wp_load_page; [simpl; by rewrite lookup_alter_ne|].
  cbv beta. apply wp_bind. unfold unlink_pages in HQ. rewrite Ep in *. destruct (pg_next pg) as [nx|]; [|done].
  apply wp_upd_page_alter; [|done]. simpl. rewrite lookup_alter_is_Some. auto.
Qed.

(** A page of a class list that is not its head has a predecessor there. *)
Lemma listed_inner P a h c hd L1 r L2 :
  class_list P a h c (hd :: L1 ++ r :: L2) →
  ∃ pg pv, P !! r = Some pg ∧ pg_prev pg = Some pv ∧ pv ≠ r ∧ hd ≠ r ∧ owned_in P a c pv ∧
    ∀ q, pg_next pg = Some q → owned_in P a c q.
Proof.
  intros [_ [Hd HL]]. cbn [hd_error] in Hd. set (L := hd :: L1 ++ r :: L2) in *.
  pose proof (dchain_NoDup _ _ _ _ Hd) as [Hnd _]%NoDup_cons.
  assert (hd ≠ r) as Hhr by set_solver. assert (r ∈ L) as Hr by set_solver.
  destruct (proj1 (HL r) Hr) as (pg & Hpg & _). exists pg.
  destruct (page_neighbours _ _ _ _ _ Hd Hr Hpg) as (Hpv & Hnx & Hp0).
  destruct (pg_prev pg) as [pv|]; [|by specialize (Hp0 eq_refl); simplify_eq]. exists pv.
  destruct (Hpv pv eq_refl) as [Hpvr HpvL]. split_and!; try done; [by apply HL|].
  intros q Hq. by apply HL, Hnx.
Qed.

(** Rotation moves a page of the class to the front of its list. *)
Lemma rotate_spec st a h c hd L1 r L2 (Q : unit → State → Prop) :
  heaps st !! a = Some h → class_list (pages st) a h c (hd :: L1 ++ r :: L2) →
  (∀ P', relinked_in a c (pages st) P' → dchain (pg_links P') None (Some r) (r :: hd :: L1 ++ L2) →
     Q tt (with_head st a c h (Some r) P')) →
  wp (heap_rotate_to_front a c r) Q st.
Proof.
  intros Ha Hcl HQ. destruct (listed_inner _ _ _ _ _ _ _ _ Hcl) as (pg & pv & Hpg & Epv & Hpvr & Hhr & Hpv & Hnx).
  destruct Hcl as [Hh [Hd HL]]. simpl in Hh. cbn [hd_error] in Hd.
  assert (∀ q, owned_in (pages st) a c q → is_Some (pages st !! q)) as HS by (intros q (? & ? & _); eauto).
  assert (owned_in (pages st) a c r ∧ owned_in (pages st) a c hd) as [Hor Hoh] by (split; apply HL; set_solver).
  assert (relinked_in a c (pages st) (unlink_pages pg (pages st))) as HR.
  { apply relinked_in_unlink; [|done]. intros q E. by simplify_eq. }
  unfold heap_rotate_to_front. apply wp_bind. eapply wp_heap_page; [done..|]. cbv beta.
  rewrite bool_decide_false by congruence. apply wp_bind. eapply wp_load_page; [done|]. cbv beta. rewrite Epv.
  apply wp_bind, wp_upd_page_alter; [auto|]. cbv beta.
  eapply (unlink_next_spec _ st r); try done; [auto..|].
  assert (∀ q, owned_in (pages st) a c q → is_Some (unlink_pages pg (pages st) !! q)) as HS1.
  { intros q Hq. rewrite lookup_unlink. by apply fmap_is_Some, HS. }
  apply wp_bind, wp_upd_page_alter; [by apply HS1|]. cbv beta.
  apply wp_bind, wp_upd_page_alter; [simpl; rewrite lookup_alter_is_Some; by apply HS1|]. cbv beta.
  apply wp_bind, wp_upd_page_alter; [simpl; rewrite !lookup_alter_is_Some; by apply HS1|]. cbv beta.
  eapply wp_set_heap_page; [done..|]. apply (HQ (push_pages r (Some hd) (unlink_pages pg (pages st)))).
  - eapply relinked_in_trans; [done|]. apply relinked_in_push; [|intros q [= <-]];
      by apply (owned_in_relinked a c _ _ _ (proj1 HR)).
  - pose proof (dchain_unlink_pages _ _ (hd :: L1) r L2 pg Hd Hpg) as Hd'.
    rewrite decide_False in Hd' by congruence.
    destruct (HS1 r Hor) as [pr Hpr]. eapply dchain_push_pages; [done..|].
    pose proof (dchain_NoDup _ _ _ _ Hd) as Hnd. rewrite app_comm_cons, Permutation_app_comm in Hnd.
    simpl in Hnd. apply NoDup_cons in Hnd as [Hnd _]. simpl in *. set_solver.
Qed.
End heap_spec.
