(* ===== verification/HeapCreate.v ===== *)
(** * Creating a thread heap *)
From Stdlib Require Import ZArith Lia.
From stdpp Require Import base numbers list gmap.
From S2P Require Import Prelude Words Constants SizeClass Segment Memory Os Chains Sums RegionRegistry State Regions PageOps Allocated Central CentralInv CentralSpec PoolSpec CentralOps Acquire Heap HeapInv HeapLinks HeapSpec.

Section heap_create.
Context {K : Kernel} {KL : KernelLaws K} {Lg : Ledger} {C : Config}.
Implicit Types (st : State).

(** The heap occupies a positive, and small, number of whole pages. *)
Lemma heap_bytes_range : os_args_ok heap_bytes os_page_size ∧ heap_bytes + os_page_size ≤ 2 ^ 48.
Proof.
  pose proof page_size_range as Hr. pose proof page_size_pow2 as Hp.
  assert (sizeof_Heap = 320) as Hs by reflexivity.
  assert (heap_bytes = align_up sizeof_Heap os_page_size) as E.
  { unfold heap_bytes, align_up. do 2 f_equal. lia. }
  assert (SEGMENT_SIZE = 4194304) as Hseg by reflexivity.
  destruct (align_up_spec sizeof_Heap os_page_size Hp) as [H1 H2]; [lia..|].
  rewrite E. split; [|lia]. split_and!; try done; try lia. apply Z_mod_same_full.
Qed.
Lemma heap_bytes_args : os_args_ok heap_bytes os_page_size.
Proof. apply heap_bytes_range. Qed.

Lemma heap_init_loop_spec n : ∀ st a c h (Q : unit → State → Prop),
  0 ≤ c → heaps st !! a = Some h →
  h_pages h = replicate (Z.to_nat c) (Some EmptyPage) ++ replicate n None →
  Q tt (set_heaps (<[a := set_h_pages (replicate (Z.to_nat c + n) (Some EmptyPage)) h]> (heaps st)) st) →
  wp (heap_init_loop n a c) Q st.
Proof.
  induction n as [|n IH]; intros st a c h Q Hc Ha Hp HQ; cbn [heap_init_loop].
  - rewrite Nat.add_0_r in HQ. rewrite app_nil_r in Hp. rewrite <-Hp in HQ.
    replace (set_h_pages (h_pages h) h) with h in HQ by by destruct h. rewrite insert_id in HQ by done.
    by destruct st.
  - apply wp_bind. eapply (wp_set_heap_page st a h c); [done| |].
    + rewrite Hp, lookup_app_r, length_replicate by (rewrite length_replicate; lia). by rewrite Nat.sub_diag.
    + apply (IH _ a (c + 1) (set_h_pages (<[Z.to_nat c := Some EmptyPage]> (h_pages h)) h)); [lia|by simplify_map_eq| |].
      * simpl. rewrite Hp, insert_app_r_alt by (rewrite length_replicate; lia).
        rewrite length_replicate, Nat.sub_diag. simpl. rewrite Z2Nat.inj_add, Nat.add_1_r by lia.
        by rewrite replicate_S_end, <-app_assoc.
      * simpl. rewrite insert_insert_eq. replace (Z.to_nat (c + 1) + n)%nat with (Z.to_nat c + S n)%nat by lia. done.
Qed.

Definition fresh_heap (g : option Z) : Heap :=
  mkHeap (replicate (Z.to_nat kNumSizeClasses) (Some EmptyPage)) 0 0 0 g.

(** A new thread heap: empty lists, registered, the heap of thread [tid]. *)
Lemma heap_inv_create P H gr T tid a :
  heap_inv None P H gr T → H !! a = None → T !! tid = None →
  heap_inv None P (<[a := fresh_heap gr]> H) (Some a) (<[tid := a]> T).
Proof.
  intros HI Ha Ht. destruct HI as [H1 H2 H3 H4 H5 H6 H7].
  assert (∀ x, is_Some (<[a := fresh_heap gr]> H !! x) ↔ x = a ∨ is_Some (H !! x)) as Hs.
  { intros x. rewrite lookup_insert. case_decide; [subst; naive_solver|]. naive_solver. }
  constructor.
  - intros x h. rewrite lookup_insert. case_decide; [|apply H1]. intros [= <-]. apply length_replicate.
  - intros x h c. rewrite lookup_insert. case_decide; [|apply H2]. intros [= <-] Hc _. subst x.
    exists []. split; [apply lookup_replicate; split; [done|lia]|]. split; [done|].
    intros r. split; [by intros ?%elem_of_nil|]. intros (pg & Hpg & Hu & Ho & _).
    destruct (H3 r pg a Hpg Hu Ho). congruence.
  - intros r pg x Hr Hu Ho. apply Hs. right. eauto.
  - destruct H4 as (L & Hc & HL). exists (a :: L). split.
    + apply chain_cons. split; [done|]. exists gr. unfold reg_nxt at 1. rewrite lookup_insert_eq. split; [done|].
      eapply chain_ext; [|done]. intros x Hx%HL. unfold reg_nxt. rewrite lookup_insert_ne; [done|].
      intros <-. destruct Hx. congruence.
    + intros x. rewrite elem_of_cons, HL, Hs. done.
  - intros t x. rewrite lookup_insert. case_decide; [intros [= <-]; apply Hs; by left|].
    intros Hx. apply Hs. right. eauto.
  - intros t t' x. rewrite !lookup_insert.
    assert (∀ t, T !! t ≠ Some a) as Hn by (intros t0 E; apply H5 in E as [? ?]; congruence).
    repeat case_decide; naive_solver.
  - intros x [->|Hx]%Hs; [exists tid; by simplify_map_eq|]. destruct (H7 x Hx) as [t Hxt].
    exists t. rewrite lookup_insert_ne; [done|]. intros <-. congruence.
Qed.

(** The memory of a new heap is fresh: nothing the client holds changes. *)
Lemma grown_heap_mem st o' a h :
  mem_ok st → os_grown (os st) o' a heap_bytes → a mod os_page_size = 0 →
  let st' := set_heaps (<[a := h]> (heaps st)) (set_os o' st) in mem_ok st' ∧ same_alloc st st' ∧ heaps st !! a = None.
Proof.
  intros H Hg Hal st'. destruct heap_bytes_args as (Hb & Hm & _ & _).
  assert (heaps st !! a = None) as Hn.
  { destruct (heaps st !! a) as [hx|] eqn:E; [|done]. exfalso.
    apply (grown_new st o' a heap_bytes (RHeap a) a heap_bytes H Hg ltac:(lia)); [|done]. simpl. by rewrite E. }
  destruct (os_step_same st st' H eq_refl eq_refl) as [Hbl Hsa]; [apply Hg|].
  destruct (regions_grow st st' (RHeap a) a heap_bytes (mo_regions H) (mo_count H) Hg) as [HR HC]; try done; [lia|simpl; by rewrite Hn| |].
  { intros t. unfold rset. case_decide as Et; [subst t; simpl; by rewrite lookup_insert_eq|].
    destruct t as [|x| |]; try done. simpl. rewrite lookup_insert_ne by congruence. done. }
  split_and!; try done. constructor; try done; try apply H.
  apply (registry_ok_ext st); [apply H|done|done|apply (og_calm _ _ _ _ Hg)].
Qed.

(** The heap of a thread exists after the call unless memory is refused. *)
Record got_heap st (tid : nat) (a : Z) st' : Prop := {
  gh_hok : hok None st';
  gh_alloc : same_alloc st st';
  gh_registry : registry st' = registry st;
  gh_thread : t_heap st' = <[tid := a]> (t_heap st);
  gh_heap : is_Some (heaps st' !! a);
  gh_counts x : heaps st' !! x = heaps st !! x ∨
    x = a ∧ h_counts <$> heaps st' !! x = Some (0, 0, 0);
  gh_larges : larges st' = larges st;
  gh_lcount : g_large_count st' = g_large_count st;
  gh_lbytes : g_large_bytes st' = g_large_bytes st
}.

Lemma heap_create_spec st tid :
  hok None st → t_heap st !! tid = None →
  wp (heap_create tid) (λ x st', match x with
    | Some a => got_heap st tid a st'
    | None => hok None st' ∧ same_alloc st st' ∧ hframe st st'
    end) st.
Proof.
  intros H Ht. unfold heap_create. apply wp_bind, wp_in_os.
  eapply wp_mono; [apply os_alloc_aligned_spec, heap_bytes_args|]. intros [a|] o' Hr; cbv beta; simpl in Hr.
  2: { apply wp_ret. pose proof (os_unchanged_frame st o' (hk_central H) (hk_mem H) (proj1 Hr)) as Hf.
       split_and!; [by eapply hok_central_frame|apply Hf|apply others_hframe, Hf]. }
  destruct Hr as [Hal Hg].
  destruct (grown_heap_mem st o' a (fresh_heap (g_registry st)) (hk_mem H) Hg Hal) as (Hm & Hsa & Hn).
  apply wp_bind, wp_modify, wp_bind.
  eapply (heap_init_loop_spec _ _ a 0 zero_heap); [done|simpl; by simplify_map_eq|done|].
  cbn [heaps set_heaps set_os]. rewrite insert_insert_eq. apply wp_bind, wp_gets, wp_bind.
  eapply wp_upd_heap; [simpl; by simplify_map_eq|]. apply wp_bind, wp_modify, wp_bind, wp_modify, wp_ret.
  cbn [heaps set_heaps set_os]. rewrite insert_insert_eq.
  pose proof (heap_inv_create _ _ _ _ tid a (hk_heaps H) Hn Ht) as HI.
  constructor; try done.
  - constructor; [apply H|eapply (mem_ok_change _ _ Hm); try done; apply Hm|apply HI].
  - simpl. rewrite lookup_insert_eq. eauto.
  - intros x. simpl. destruct (decide (x = a)) as [->|Hne]; [right|left].
    + by rewrite lookup_insert_eq.
    + by rewrite lookup_insert_ne.
Qed.
End heap_create.
