(* ===== verification/HeapMalloc.v ===== *)
(** * Allocation on a thread heap: heap_malloc and its slow path *)
From Stdlib Require Import ZArith Lia.
From stdpp Require Import base numbers list gmap.
From S2P Require Import Prelude Words Constants SizeClass Segment Memory Os Chains Sums RegionRegistry State Regions PageOps Allocated Central CentralInv CentralSpec PoolSpec CentralOps Acquire Heap HeapInv HeapLinks HeapSpec HeapCreate.

Section heap_malloc.
Context {K : Kernel} {KL : KernelLaws K} {Lg : Ledger} {C : Config}.
Implicit Types (st : State) (r : pageref).

Lemma alloc_plus_same st1 st2 st3 b n :
  same_alloc st1 st2 → alloc_plus st2 st3 b n → alloc_plus st1 st3 b n.
Proof.
  intros [A1 B1] (F & A2 & B2). split_and!.
  - intros n'. rewrite <-A1. apply F.
  - intros b' n'. by rewrite A2, A1.
  - intros b' n' Hal x Hx. rewrite (B2 b' n'), (B1 b' n'); try done. by apply A1.
Qed.

(** A page in use of class [c] serves blocks of the size of the class. *)
Lemma owned_in_size st a c r :
  mem_ok st → pages st !! EmptyPage = Some zero_page → owned_in (pages st) a c r →
  ∃ s i pg, r = PageAt s i ∧ pages st !! r = Some pg ∧ pg_in_use pg = true ∧
    class_to_size c = Some (pg_block_size pg).
Proof.
  intros H He (pg & Hpg & Hu & Ho & Hc). destruct r as [|s i]; [by simplify_eq|].
  destruct (mo_blocks H s i pg Hpg Hu) as (lf & lt & Hok). exists s, i, pg. split_and!; try done.
  rewrite <-Hc. apply Hok.
Qed.

Lemma empty_page Ex st : hok Ex st → pages st !! EmptyPage = Some zero_page.
Proof. intros H. apply (pk_empty _ _ (co_pages (proj1 (hk_central H)))). Qed.

(** The state in which the slow path continues when no page could serve. *)
Record walked st a h c L st' : Prop := {
  wk_hok : hok None st';
  wk_alloc : same_alloc st st';
  wk_others : others_same st st';
  wk_registry : registry st' = registry st;
  wk_list : class_list (pages st') a h c L
}.

Definition served st (c b : Z) st' : Prop :=
  hok None st' ∧ hframe st st' ∧ ∃ bs, class_to_size c = Some bs ∧ alloc_plus st st' b bs.

Lemma others_same_refl st : others_same st st.
Proof. done. Qed.

Lemma walked_page st a h c L s i pg m' pg' :
  let st' := page_state st (PageAt s i) m' pg' in
  class_list (pages st) a h c L → pages st !! PageAt s i = Some pg → page_core pg' = page_core pg →
  hok None st' → same_alloc st st' → walked st a h c L st'.
Proof.
  intros st' [Hh HL] Hpg Hc H Hs. constructor; try done. split; [done|].
  eapply plist_place; [|done]. intros q. simpl. rewrite lookup_insert. case_decide; [|done]. subst q.
  rewrite Hpg. simpl. f_equal. unfold page_core in Hc. injection Hc as F1 F2 F3 F4 F5 F6 F7 F8.
  unfold page_place. congruence.
Qed.

Lemma walked_trans st1 st2 st3 a h c L :
  walked st1 a h c L st2 → walked st2 a h c L st3 → walked st1 a h c L st3.
Proof.
  intros [A1 A2 A3 A4 A5] [B1 B2 B3 B4 B5]. constructor; try done.
  - by eapply same_alloc_trans.
  - by eapply others_same_trans.
  - congruence.
Qed.

(** Serving from a page that has a free block. *)
Lemma pop_served st a c r pg :
  hok None st → 0 ≤ c < kNumSizeClasses → owned_in (pages st) a c r → pages st !! r = Some pg →
  pg_free pg ≠ None →
  wp (b ← page_pop r; mret (Some b)) (λ x st', ∃ b, x = Some b ∧ served st c b st') st.
Proof.
  intros H Hc Ho Hpg Hf. destruct (owned_in_size st a c r (hk_mem H) (empty_page _ _ H) Ho) as (s & i & pg' & -> & Hpg' & Hu & Hbs).
  simplify_eq. destruct (pg_free pg) as [b|] eqn:Eb; [|done].
  apply wp_bind. eapply wp_mono; [by apply (page_pop_spec None st s i pg b)|].
  intros x st' (-> & m' & pg' & -> & Hcore & H' & Ha). apply wp_ret. exists b. split; [done|]. split_and!; [done|done|eauto].
Qed.

(** Moving the serving page to the front when it is not there. *)
Lemma rotate_served st a h c A r B :
  hok None st → heaps st !! a = Some h → 0 ≤ c < kNumSizeClasses →
  class_list (pages st) a h c (A ++ r :: B) →
  wp (if bool_decide (Some r ≠ head (A ++ r :: B)) then heap_rotate_to_front a c r else mret tt)
    (λ _ st', hok None st' ∧ same_alloc st st' ∧ hframe st st' ∧ relinked (pages st) (pages st')) st.
Proof.
  intros H Ha Hc Hcl. destruct A as [|hd A].
  { rewrite bool_decide_false by (intros []; done). apply wp_ret. done. }
  destruct (listed_inner _ _ _ _ _ _ _ _ Hcl) as (_ & _ & _ & _ & _ & Hne & _).
  rewrite bool_decide_true by (simpl; congruence). eapply rotate_spec; [done|apply Hcl|].
  intros P' HR Hd. destruct (hok_relist st a h c r (hd :: A ++ B) P') as (H' & Hs & Hf); try done.
  - constructor; [apply H..|]. apply heap_inv_open, H.
  - intros q. rewrite <-(proj2 (proj2 Hcl) q). simpl. set_solver.
  - split_and!; try done. apply HR.
Qed.

Lemma slow_walk_spec a h c fuel : ∀ st A B,
  hok None st → heaps st !! a = Some h → 0 ≤ c < kNumSizeClasses →
  class_list (pages st) a h c (A ++ B) → (length B < fuel)%nat →
  wp (slow_walk fuel a c (head (A ++ B)) (head B)) (λ x st', match x with
    | Some b => served st c b st'
    | None => walked st a h c (A ++ B) st'
    end) st.
Proof.
  induction fuel as [|fuel IH]; intros st A B H Ha Hc Hcl Hfuel; [lia|].
  destruct B as [|r B]; cbn [slow_walk hd_error].
  { apply wp_ret. by constructor. }
  assert (owned_in (pages st) a c r) as Ho by (apply (proj2 (proj2 Hcl)); set_solver).
  destruct (owned_in_size st a c r (hk_mem H) (empty_page _ _ H) Ho) as (s & i & pg & -> & Hpg & Hu & Hbs).
  apply wp_bind. eapply wp_mono; [by apply (make_available_spec None st s i pg)|].
  intros ok st1 (m' & pg' & -> & Hcore & H1 & Hs1 & Hok). set (st1 := page_state _ _ _ _) in *.
  assert (walked st a h c (A ++ PageAt s i :: B) st1) as Hw by by eapply walked_page.
  pose proof (wk_list _ _ _ _ _ _ Hw) as Hcl1. assert (pages st1 !! PageAt s i = Some pg') as Hpg1 by apply pages_page_state.
  destruct ok.
  - apply wp_bind. eapply wp_mono; [by apply (rotate_served st1 a h c A (PageAt s i) B)|].
    intros [] st2 (H2 & Hs2 & Hf2 & HR). destruct (relinked_lookup _ _ _ _ HR Hpg1) as (pg2 & Hpg2 & Hnl).
    apply nolinks_eq in Hnl as (Hv & _). unfold page_view in Hv. injection Hv as V1 _.
    eapply wp_mono; [eapply (pop_served st2 a c (PageAt s i) pg2); try done|].
    + apply (owned_in_relinked a c _ _ _ HR). apply (proj2 (proj2 Hcl1)). set_solver.
    + congruence.
    + intros x st3 (b & -> & G3 & Hf3 & bs & Hbs3 & Hp3). split_and!; [done| |].
      * eapply hframe_trans; [eapply hframe_trans; [apply others_hframe, Hw|done]|done].
      * exists bs. split; [done|]. eapply alloc_plus_same; [|done]. by eapply same_alloc_trans.
  - apply wp_bind. eapply wp_load_page; [done|]. cbv beta.
    assert (pg_next pg' = head B) as ->.
    { destruct Hcl1 as [_ [Hd _]]. apply dchain_chain in Hd. unfold chain in Hd. apply cseg_app in Hd as (x & _ & _ & n & Hn & Hd).
      unfold nxt_of in Hn. rewrite (links_lookup _ _ _ Hpg1) in Hn. simpl in Hn. injection Hn as <-.
      destruct B; simpl in Hd; [done|by destruct Hd]. }
    replace (A ++ PageAt s i :: B) with ((A ++ [PageAt s i]) ++ B) in * by by rewrite <-app_assoc.
    eapply wp_mono; [apply (IH st1 (A ++ [PageAt s i]) B); try done; simpl in *; lia|].
    intros [b|] st2.
    + intros (G3 & Hf3 & bs & Hbs3 & Hp3). split_and!; [done|by eapply hframe_trans; [apply others_hframe, Hw|]|].
      exists bs. split; [done|]. by eapply alloc_plus_same.
    + intros Hw2. by eapply walked_trans.
Qed.

(** ** A fresh page *)

(** The pages of heaps after an acquisition: one more, in class [c] of [a]. *)
Lemma acquired_outside st a c bs r st' :
  acquired st a c bs r st' → same_outside a c (pages st) (pages st').
Proof.
  intros H q p Hp Hc. destruct (decide (q = r)) as [->|Hne]; [|by apply (aq_owned _ _ _ _ _ _ H)].
  destruct (aq_page _ _ _ _ _ _ H) as (s & i & pg & -> & -> & _). split.
  - intros [= <-]. by destruct Hc.
  - intros Hq. by apply (aq_new _ _ _ _ _ _ H) in Hq.
Qed.

Lemma acquired_owned st a c bs r st' q :
  acquired st a c bs r st' → owned_in (pages st') a c q ↔ q = r ∨ owned_in (pages st) a c q.
Proof.
  intros H. destruct (aq_page _ _ _ _ _ _ H) as (s & i & pg & -> & Hpg & _).
  destruct (decide (q = PageAt s i)) as [->|Hne].
  { split; [by left|]. intros _. eexists. by split; [done|]. }
  pose proof (aq_owned _ _ _ _ _ _ H q) as Hq. unfold owned_in. split.
  - intros (p & Hp & Hu & Ho & Hcl). right. exists p. split; [|done]. apply Hq; [done| |done]. split; eauto.
  - intros [->|(p & Hp & Hu & Ho & Hcl)]; [done|]. exists p. split; [|done]. apply Hq; [done| |done]. split; eauto.
Qed.

Lemma acquired_list st a c bs r st' L :
  acquired st a c bs r st' → plist (pages st) a c L →
  dchain (pg_links (pages st')) None (head L) L ∧ (r ∉ L) ∧ ∀ q, q ∈ r :: L ↔ owned_in (pages st') a c q.
Proof.
  intros H [Hd HL]. assert (r ∉ L) as Hr.
  { intros (p & Hp & Ho)%HL%owned_in_owned. by apply (aq_new _ _ _ _ _ _ H) in Hp. }
  split_and!; [|done|].
  - eapply dchain_ext; [|done]. intros q Hq. pose proof Hq as (p & Hp & Ho)%HL%owned_in_owned.
    unfold pg_links. rewrite Hp. rewrite (proj2 (aq_owned _ _ _ _ _ _ H q p ltac:(set_solver) Ho) Hp). done.
  - intros q. rewrite elem_of_cons, HL. symmetry. by eapply acquired_owned.
Qed.

Lemma hok_acquired st a h c bs r st' :
  hok None st → heaps st !! a = Some h → acquired st a c bs r st' → hok (Some (a, c)) st'.
Proof.
  intros H Ha Hq. destruct (aq_others _ _ _ _ _ _ Hq) as [E1 E2 E3 _ _ _]. constructor; [apply Hq..|].
  rewrite E1, E2, E3. eapply heap_inv_outside; [by apply heap_inv_open, H|eauto|by eapply acquired_outside].
Qed.

(** The head of a class list as the code sees it. *)
Lemma head_not_empty st L a h c :
  hok None st → class_list (pages st) a h c L →
  (if bool_decide (Some (default EmptyPage (head L)) = Some EmptyPage) then None
   else Some (default EmptyPage (head L))) = head L.
Proof.
  intros H [_ [_ HL]]. destruct L as [|x L]; [done|]. simpl.
  rewrite bool_decide_false; [done|]. intros [= ->].
  destruct (proj1 (HL EmptyPage)) as (p & Hp & Hu & _); [set_solver|].
  pose proof (empty_page _ _ H). by simplify_eq.
Qed.

(** Linking the fresh page in front. *)
Lemma link_fresh_spec {B} (k : M State B) st a h c np pg hd v Q :
  pages st !! np = Some pg → hd ≠ Some np → (∀ q, hd = Some q → is_Some (pages st !! q)) →
  heaps st !! a = Some h → h_pages h !! Z.to_nat c = Some v →
  wp k Q (with_head st a c h (Some np) (push_pages np hd (pages st))) →
  wp (upd_page np (set_pg_prev None);; upd_page np (set_pg_next hd);; pg ← load_page np;
      match pg_next pg with Some q => upd_page q (set_pg_prev (Some np)) | None => mret tt end;;
      set_heap_page a c (Some np);; k) Q st.
Proof.
  intros Hnp Hne Hhd Ha Hv HQ.
  apply wp_bind, wp_upd_page_alter; [eauto|]. cbv beta.
  apply wp_bind, wp_upd_page_alter; [simpl; rewrite lookup_alter_is_Some; eauto|]. cbv beta.
  apply wp_bind. eapply wp_load_page; [simpl; by rewrite lookup_alter_eq, lookup_alter_eq, Hnp|]. cbv beta. simpl pg_next.
  unfold push_pages in HQ. apply wp_bind. destruct hd as [q|]; [apply wp_upd_page_alter|apply wp_ret].
  { simpl. rewrite !lookup_alter_is_Some. by apply Hhd. }
  all: cbv beta; apply wp_bind; eapply wp_set_heap_page; done.
Qed.

(** The allocation fails, invisibly to the client. *)
Definition refused st st' : Prop := hok None st' ∧ same_alloc st st' ∧ hframe st st'.

Lemma slow_acquire_spec st a h c L :
  hok None st → reg_room (registry st) → heaps st !! a = Some h → 0 ≤ c < kNumSizeClasses →
  class_list (pages st) a h c L →
  wp (slow_acquire a c (Some (default EmptyPage (head L)))) (λ x st', match x with
    | Some b => served st c b st'
    | None => refused st st'
    end) st.
Proof.
  intros H Hroom Ha Hc Hcl. destruct (class_to_size_bounds c Hc) as (bs & Hbs & _).
  unfold slow_acquire. apply wp_bind. eapply wp_deref; [done|]. apply wp_bind.
  eapply wp_mono; [by apply (central_acquire_spec st a c bs (hk_central H) (hk_mem H) Hroom)|].
  intros [np|] st1; [intros Hq|intros Hf; apply wp_ret; split_and!;
    [by eapply hok_central_frame|apply Hf|apply others_hframe, Hf]].
  rewrite (head_not_empty st L a h c H Hcl).
  pose proof (hok_acquired _ _ _ _ _ _ _ H Ha Hq) as H1.
  destruct (acquired_list _ _ _ _ _ _ _ Hq (proj2 Hcl)) as (Hd & Hn & HL).
  destruct (aq_page _ _ _ _ _ _ Hq) as (s & i & pg & -> & Hpg & Hok).
  assert (heaps st1 !! a = Some h) as Ha1 by (by rewrite (ot_heaps _ _ (aq_others _ _ _ _ _ _ Hq))).
  assert (∀ q, q ∈ PageAt s i :: L → is_Some (pages st1 !! q)) as HS by (intros q (? & ? & _)%HL; eauto).
  assert (∀ q, head L = Some q → q ∈ L) as HhdL by (intros q; destruct L; intros [= ->]; set_solver).
  eapply link_fresh_spec; [done|intros E%HhdL; done|intros q E%HhdL; apply HS; set_solver|done|apply Hcl|].
  assert (relinked_in a c (pages st1) (push_pages (PageAt s i) (head L) (pages st1))) as HR.
  { apply relinked_in_push; [apply HL; set_solver|]. intros q E%HhdL. apply HL. set_solver. }
  destruct (hok_relist st1 a h c (PageAt s i) L _ H1 Ha1 Hc HR) as (H2 & Hs2 & Hf2); [by eapply dchain_push_pages|done|].
  set (st2 := with_head _ _ _ _ _ _) in *.
  destruct (relinked_lookup _ _ _ _ (proj1 HR) Hpg) as (pg2 & Hpg2 & Hnl).
  pose proof (nolinks_eq _ _ Hnl) as (Hv & _ & _ & Hu & _). unfold page_view in Hv. injection Hv as _ _ V3 V4 V5 _ _ _ _.
  apply wp_bind. eapply wp_mono; [by apply (make_available_spec None st2 s i pg2)|].
  intros ok st3 (m' & pg3 & -> & Hcore & H3 & Hs3 & Hk). destruct ok.
  - eapply wp_mono; [eapply (pop_served _ a c (PageAt s i) pg3); try done; [|apply pages_page_state]|].
    + eexists. split; [apply pages_page_state|]. unfold page_core in Hcore. injection Hcore as F1 F2 F3 F4 F5 F6 F7 F8.
      apply nolinks_eq in Hnl as (_ & N1 & N2 & N3 & _). rewrite F3, F4, F5, N1, N2, N3. done.
    + intros x st4 (b & -> & G4 & Hf4 & bs4 & Hbs4 & Hp4). split_and!; [done| |].
      * eapply hframe_trans; [apply others_hframe, Hq|]. eapply hframe_trans; [exact Hf2|]. by eapply hframe_trans; [|exact Hf4].
      * exists bs4. split; [done|]. eapply alloc_plus_same; [|done].
        eapply same_alloc_trans; [apply Hq|]. by eapply same_alloc_trans; [exact Hs2|].
  - exfalso. destruct Hk as [_ Hk]. pose proof (capacity_bounds _ _ _ (po_geom Hok)). simpl in *. lia.
Qed.

(** ** The slow path and the fast path *)

(** The counters after the slow path was entered. *)
Definition slow_bumped st (a : Z) (h : Heap) : State :=
  if stats_on then set_heaps (<[a := set_h_n_slow (u64 (h_n_slow h + 1)) h]> (heaps st)) st else st.

(** The result of an allocation: a new block of the class, or nothing. *)
Definition alloc_result st (c : Z) (x : option Z) st' : Prop :=
  match x with
  | Some b => ∃ bs, class_to_size c = Some bs ∧ alloc_plus st st' b bs
  | None => same_alloc st st'
  end.

(** Counters do not matter for the invariant. *)
Lemma hok_counters Ex st a h h' :
  hok Ex st → heaps st !! a = Some h → h_pages h' = h_pages h → h_reg_next h' = h_reg_next h →
  hok Ex (set_heaps (<[a := h']> (heaps st)) st) ∧ same_alloc st (set_heaps (<[a := h']> (heaps st)) st).
Proof.
  intros H Ha Hp Hr. split; [|by apply same_alloc_view]. eapply hok_heap; try done; [by rewrite Hp|].
  intros c _ _. by rewrite Hp.
Qed.

Lemma heap_malloc_slow_spec st a h c :
  hok None st → reg_room (registry st) → heaps st !! a = Some h → 0 ≤ c < kNumSizeClasses →
  wp (heap_malloc_slow (Some a) c) (λ x st',
    hok None st' ∧ hframe (slow_bumped st a h) st' ∧ alloc_result st c x st') st.
Proof.
  intros H Hroom Ha Hc. unfold heap_malloc_slow. apply wp_bind.
  assert (∃ h1, heaps (slow_bumped st a h) !! a = Some h1 ∧ hok None (slow_bumped st a h) ∧
    same_alloc st (slow_bumped st a h) ∧ registry (slow_bumped st a h) = registry st) as (h1 & Ha1 & H1 & Hs1 & Er).
  { unfold slow_bumped. destruct stats_on; [|by exists h]. eexists. split; [simpl; by rewrite lookup_insert_eq|].
    by destruct (hok_counters None st a h (set_h_n_slow (u64 (h_n_slow h + 1)) h) H Ha). }
  assert (∀ Q, wp (if stats_on then upd_heap a (λ h, set_h_n_slow (u64 (h_n_slow h + 1)) h) else mret tt) Q st
    ↔ Q tt (slow_bumped st a h)) as Hstep.
  { intros Q. unfold slow_bumped. destruct stats_on; [|done]. unfold wp, upd_heap. by rewrite Ha. }
  apply Hstep. clear Hstep. set (st1 := slow_bumped st a h) in *. rewrite <-Er in Hroom.
  destruct (hi_list (hk_heaps H1) a h1 c Ha1 Hc ltac:(done)) as (L & Hcl).
  apply wp_bind. eapply wp_heap_page; [done|apply Hcl|]. cbv beta. apply wp_bind.
  apply (wp_mono _ (λ x st', match x with Some b => served st1 c b st' | None => walked st1 a h1 c L st' end)).
  - destruct L as [|x L].
    + rewrite bool_decide_true by done. apply wp_ret. by constructor.
    + pose proof (head_not_empty st1 _ a h1 c H1 Hcl) as He. simpl in He. simpl default.
      destruct (bool_decide_reflect (Some x = Some EmptyPage)) as [|_]; [done|].
      apply wp_bind, wp_gets. apply (slow_walk_spec a h1 c _ st1 [] (x :: L)); try done.
      pose proof Hcl as [_ [Hd HL]]. apply dchain_NoDup in Hd.
      pose proof (list_length_size (pages st1) (x :: L) Hd) as Hlen. apply Nat.lt_succ_r, Hlen.
      intros k (p & Hp & _)%HL. eauto.
  - intros [b|] st2.
    + intros (H2 & Hf2 & bs & Hbs & Hp). apply wp_ret. split_and!; [done|done|]. exists bs. split; [done|].
      by eapply alloc_plus_same.
    + intros Hw. destruct Hw as [W1 W2 W3 W4 W5]. eapply wp_mono.
      { apply (slow_acquire_spec st2 a h1 c L); try done; [by rewrite W4|by rewrite (ot_heaps _ _ W3)]. }
      intros [b|] st3; [intros (H3 & Hf3 & bs & Hbs & Hp)|intros (H3 & Hs3 & Hf3)];
        (split_and!; [done|by eapply hframe_trans; [apply others_hframe, W3|]|]).
      * exists bs. split; [done|]. do 2 (eapply alloc_plus_same; [done|]). done.
      * do 2 (eapply same_alloc_trans; [done|]). done.
Qed.

(** The fast path pops a block the way page_pop does. *)
Lemma pop_inline {B} (k : M State B) r pg b Q st :
  pages st !! r = Some pg → pg_free pg = Some b →
  wp (page_pop r) (λ _ st', wp k Q st') st →
  wp (nx ← in_os (read_next b); upd_page r (set_pg_free nx);;
      upd_page r (λ pg, set_pg_used (u32 (pg_used pg + 1)) pg);; k) Q st.
Proof.
  intros Hr Hf. unfold page_pop, wp, mbind, M_bind, load_page. rewrite Hr, Hf. simpl.
  destruct (in_os (read_next b) st) as [[nx st1]| |]; try done.
  destruct (upd_page r (set_pg_free nx) st1) as [[[] st2]| |]; try done.
  by destruct (upd_page r _ st2) as [[[] st3]| |].
Qed.

Definition counters_ok st : Prop := ∀ a h, heaps st !! a = Some h → stats_ok h.

(** A call of heap_malloc on the thread's heap: what it does to the counters. *)
Definition call_counted (H : gmap Z Heap) (a : Z) (h : Heap) st' : Prop :=
  ∃ f s, (if stats_on then (f = 1 ∧ s = 0) ∨ (f = 0 ∧ s = 1) else f = 0 ∧ s = 0) ∧
  ∀ x, h_counts <$> heaps st' !! x =
    if decide (x = a) then Some (if stats_on then u64 (h_n_malloc h + 1) else h_n_malloc h,
        if decide (f = 0) then h_n_fast h else u64 (h_n_fast h + 1),
        if decide (s = 0) then h_n_slow h else u64 (h_n_slow h + 1))
    else h_counts <$> H !! x.

Lemma call_counted_ok st st' a h :
  counters_ok st → heaps st !! a = Some h → call_counted (heaps st) a h st' → counters_ok st'.
Proof.
  intros Hc Ha (f & s & Hfs & Hx) x hx Hhx. specialize (Hx x). rewrite Hhx in Hx. simpl in Hx.
  destruct (decide (x = a)) as [->|Hne].
  - apply (inj Some) in Hx. unfold h_counts in Hx. injection Hx as E1 E2 E3. pose proof (Hc a h Ha) as Hs.
    unfold stats_ok in *. rewrite E1, E2, E3. destruct stats_on; [|destruct Hfs as [-> ->]; done].
    rewrite Hs, u64_add_l. destruct Hfs as [[-> ->]|[-> ->]]; simpl.
    + rewrite u64_add_l. f_equal. lia.
    + rewrite (Z.add_comm (h_n_fast h) (u64 _)), u64_add_l. f_equal. lia.
  - destruct (heaps st !! x) as [h0|] eqn:E; [|done]. apply (inj Some) in Hx. unfold h_counts in Hx. injection Hx as E1 E2 E3.
    pose proof (Hc x h0 E). unfold stats_ok in *. by rewrite E1, E2, E3.
Qed.

(** heap_malloc after the class and the heap are known. *)
Definition malloc_on (h : option Z) (c : Z) : M State (option Z) :=
  (if stats_on then
     a ← deref h;
     upd_heap a (λ h, set_h_n_malloc (u64 (h_n_malloc h + 1)) h)
   else mret tt);;
  a ← deref h;
  p ← heap_page a c;
  r ← deref p;
  pg ← load_page r;
  match pg_free pg with
  | Some b =>
      nx ← in_os (read_next b);
      upd_page r (set_pg_free nx);;
      upd_page r (λ pg, set_pg_used (u32 (pg_used pg + 1)) pg);;
      (if stats_on then upd_heap a (λ h, set_h_n_fast (u64 (h_n_fast h + 1)) h) else mret tt);;
      mret (Some b)
  | None => heap_malloc_slow h c
  end.

Lemma heap_malloc_eq tid size :
  heap_malloc tid size = (c ← deref (size_class size); h ← heap_get tid; malloc_on h c).
Proof. done. Qed.

(** The block the fast path would hand out. *)
Definition fast_block st (h : Heap) (c b : Z) : Prop :=
  ∃ r pg, h_pages h !! Z.to_nat c = Some (Some r) ∧ pages st !! r = Some pg ∧ pg_free pg = Some b.

Record malloc_post st (a : Z) (h : Heap) (c : Z) (x : option Z) st' : Prop := {
  mp_hok : hok None st';
  mp_fast b : fast_block st h c b → x = Some b;
  mp_result : alloc_result st c x st';
  mp_counts : call_counted (heaps st) a h st';
  mp_thread : t_heap st' = t_heap st;
  mp_larges : larges st' = larges st;
  mp_lcount : g_large_count st' = g_large_count st;
  mp_lbytes : g_large_bytes st' = g_large_bytes st
}.

Definition malloc_bumped st (a : Z) (h : Heap) : State :=
  if stats_on then set_heaps (<[a := set_h_n_malloc (u64 (h_n_malloc h + 1)) h]> (heaps st)) st else st.

Lemma alloc_plus_then st1 st2 st3 b n :
  alloc_plus st1 st2 b n → same_alloc st2 st3 → alloc_plus st1 st3 b n.
Proof.
  intros (F & A1 & B1) [A2 B2]. split_and!; [done| |].
  - intros b' n'. by rewrite A2, A1.
  - intros b' n' Hal x Hx. rewrite (B2 b' n'), (B1 b' n'); try done. apply A1. by right.
Qed.

(** The block of the fast path. *)
Lemma fast_spec st a h c r pg b :
  hok None st → heaps st !! a = Some h → owned_in (pages st) a c r → pages st !! r = Some pg → pg_free pg = Some b →
  wp (nx ← in_os (read_next b); upd_page r (set_pg_free nx);;
      upd_page r (λ pg, set_pg_used (u32 (pg_used pg + 1)) pg);;
      (if stats_on then upd_heap a (λ h, set_h_n_fast (u64 (h_n_fast h + 1)) h) else mret tt);;
      mret (Some b))
    (λ x st', hok None st' ∧ x = Some b ∧ alloc_result st c x st' ∧
      heaps st' = (if stats_on then <[a := set_h_n_fast (u64 (h_n_fast h + 1)) h]> (heaps st) else heaps st) ∧
      t_heap st' = t_heap st ∧ larges st' = larges st ∧ g_large_count st' = g_large_count st ∧
      g_large_bytes st' = g_large_bytes st) st.
Proof.
  intros H Ha Ho Hr Hf. destruct (owned_in_size st a c r (hk_mem H) (empty_page _ _ H) Ho) as (s & i & pg' & -> & Hpg' & Hu & Hbs).
  simplify_eq. eapply pop_inline; [done..|]. eapply wp_mono; [by apply (page_pop_spec None st s i pg b)|].
  intros x st1 (-> & m' & pg' & -> & Hcore & H1 & Hp).
  destruct stats_on; apply wp_bind; [|apply wp_ret, wp_ret; split_and!; try done; eexists; done].
  eapply wp_upd_heap; [done|]. apply wp_ret.
  destruct (hok_counters None (page_state st (PageAt s i) m' pg') a h (set_h_n_fast (u64 (h_n_fast h + 1)) h) H1 Ha) as [H2 Hs2]; [done..|].
  split_and!; try done. eexists. split; [done|]. by eapply alloc_plus_then.
Qed.

(** The heap after its call has been counted, and what counting leaves alone. *)
Definition counted_heap (h : Heap) : Heap :=
  if stats_on then set_h_n_malloc (u64 (h_n_malloc h + 1)) h else h.

Lemma wp_malloc_counted st a h (Q : unit → State → Prop) :
  heaps st !! a = Some h → Q tt (malloc_bumped st a h) →
  wp (if stats_on then a ← deref (Some a); upd_heap a (λ h, set_h_n_malloc (u64 (h_n_malloc h + 1)) h) else mret tt) Q st.
Proof.
  intros Ha. unfold malloc_bumped. destruct stats_on; [|done]. unfold wp, mbind, M_bind, upd_heap. simpl. by rewrite Ha.
Qed.

Lemma malloc_bumped_facts st a h :
  hok None st → heaps st !! a = Some h →
  heaps (malloc_bumped st a h) = <[a := counted_heap h]> (heaps st) ∧ hok None (malloc_bumped st a h) ∧
  same_alloc st (malloc_bumped st a h) ∧ others_same st (set_heaps (heaps st) (malloc_bumped st a h)) ∧
  registry (malloc_bumped st a h) = registry st ∧ pages (malloc_bumped st a h) = pages st.
Proof.
  intros H Ha. unfold malloc_bumped, counted_heap. destruct stats_on; [|by rewrite insert_id].
  by destruct (hok_counters None st a h (set_h_n_malloc (u64 (h_n_malloc h + 1)) h) H Ha).
Qed.

Lemma malloc_on_spec st a h c :
  hok None st → reg_room (registry st) → heaps st !! a = Some h → 0 ≤ c < kNumSizeClasses →
  wp (malloc_on (Some a) c) (malloc_post st a h c) st.
Proof.
  intros H Hroom Ha Hc. unfold malloc_on. apply wp_bind.
  apply (wp_malloc_counted st a h _ Ha). destruct (malloc_bumped_facts st a h H Ha) as (Eh & H1 & Hs1 & Ho & Er & Epg).
  set (h1 := counted_heap h) in *. assert (h_pages h1 = h_pages h) as Ehp by (unfold h1, counted_heap; by destruct stats_on).
  destruct Ho as [_ _ T1 T2 T3 T4]. simpl in T1, T2, T3, T4.
  set (st1 := malloc_bumped st a h) in *. rewrite <-Er in Hroom.
  assert (heaps st1 !! a = Some h1) as Ha1 by (rewrite Eh; by simplify_map_eq).
  destruct (hi_list (hk_heaps H1) a h1 c Ha1 Hc ltac:(done)) as (L & Hcl).
  apply wp_bind. eapply wp_deref; [done|]. apply wp_bind. eapply wp_heap_page; [done|apply Hcl|].
  apply wp_bind. eapply wp_deref; [done|]. apply wp_bind. destruct Hcl as [Hhd [_ HL]].
  assert (∃ pg, pages st1 !! default EmptyPage (head L) = Some pg ∧
    (pg_free pg ≠ None → owned_in (pages st1) a c (default EmptyPage (head L)))) as (pg & Hpg & Hown).
  { destruct L as [|x L]; simpl; [exists zero_page; split; [by apply (empty_page None)|done]|].
    pose proof (proj1 (HL x) ltac:(set_solver)) as Ho. pose proof Ho as (pg & Hpg & _). eauto. }
  assert (∀ b, fast_block st h c b → pg_free pg = Some b) as Hfast.
  { intros b (r' & p' & E1 & E2 & E3). rewrite Ehp in Hhd. rewrite Epg in Hpg. simplify_eq. done. }
  eapply wp_load_page; [done|]. cbv beta. destruct (pg_free pg) as [b|] eqn:Ef.
  - eapply wp_mono; [eapply (fast_spec st1 a h1 c); try done; by apply Hown|].
    intros x st2 (H2 & -> & (bs & Hbs & Hp) & E2 & F2 & F3 & F4 & F5). constructor; try congruence.
    + intros b' Hb'. by apply Hfast.
    + exists bs. split; [done|]. by eapply alloc_plus_same.
    + exists (if stats_on then 1 else 0), 0. split; [destruct stats_on; [by left|done]|].
      intros x. rewrite E2, Eh. unfold h1, counted_heap. destruct stats_on; rewrite ?lookup_insert; repeat case_decide; by subst.
  - eapply wp_mono; [by apply (heap_malloc_slow_spec st1 a h1 c)|].
    intros x st2 (H2 & [F1 F2 F3 F4 F5] & Hres). constructor; [done|..].
    + intros b' Hb'. by apply Hfast in Hb'.
    + destruct x as [b|]; [destruct Hres as (bs & Hbs & Hp); exists bs; split; [done|]; by eapply alloc_plus_same|].
      by eapply same_alloc_trans.
    + exists 0, (if stats_on then 1 else 0). split; [destruct stats_on; [by right|done]|].
      intros x'. rewrite F1. unfold slow_bumped, h1, counted_heap. destruct stats_on eqn:Es; simpl; rewrite Eh; unfold h1, counted_heap; rewrite ?Es, ?lookup_insert; repeat case_decide; by subst.
    + rewrite F2, <-T1. unfold slow_bumped. by destruct stats_on.
    + rewrite F3, <-T2. unfold slow_bumped. by destruct stats_on.
    + rewrite F4, <-T3. unfold slow_bumped. by destruct stats_on.
    + rewrite F5, <-T4. unfold slow_bumped. by destruct stats_on.
Qed.

(** The thread has no heap and the kernel refuses the memory for one. *)
Definition null_heap (tid : nat) st : Prop :=
  t_heap st !! tid = None ∧ ∃ o', os_alloc_aligned heap_bytes os_page_size (os st) = Ok (None, o').

(** What the large path owns. *)
Record large_frame st st' : Prop := {
  lf_larges : larges st' = larges st;
  lf_count : g_large_count st' = g_large_count st;
  lf_bytes : g_large_bytes st' = g_large_bytes st
}.

Record malloc_done st (tid : nat) (c : Z) (x : option Z) st' : Prop := {
  md_hok : hok None st';
  md_fast a h b : t_heap st !! tid = Some a → heaps st !! a = Some h → fast_block st h c b → x = Some b;
  md_counters : counters_ok st → counters_ok st';
  md_result : alloc_result st c x st';
  md_thread : is_Some (t_heap st' !! tid);
  md_others t : t ≠ tid → t_heap st' !! t = t_heap st !! t;
  md_large : large_frame st st'
}.

Lemma malloc_post_done st tid a h c x st' :
  heaps st !! a = Some h → t_heap st !! tid = Some a → malloc_post st a h c x st' → malloc_done st tid c x st'.
Proof.
  intros Ha Ht [H1 HF H2 H3 H4 H5 H6 H7]. constructor; try done.
  - intros a' h' b Ha' Hh' Hb. simplify_eq. by apply HF.
  - intros Hc. by eapply call_counted_ok.
  - rewrite H4, Ht. eauto.
  - intros t _. by rewrite H4.
Qed.

Lemma heap_malloc_spec st tid size c :
  hok None st → reg_room (registry st) → ¬ null_heap tid st →
  size_class size = Some c → 0 ≤ c < kNumSizeClasses →
  wp (heap_malloc tid size) (malloc_done st tid c) st.
Proof.
  intros H Hroom Hnn Hsz Hc. rewrite heap_malloc_eq. apply wp_bind. eapply wp_deref; [done|].
  apply wp_bind. unfold heap_get. apply wp_bind, wp_gets. destruct (t_heap st !! tid) as [a|] eqn:Ht.
  - apply wp_ret. destruct (hi_thread (hk_heaps H) tid a Ht) as [h Ha].
    eapply wp_mono; [by apply malloc_on_spec|]. intros x st'. by eapply malloc_post_done.
  - pose proof (heap_create_spec st tid H Ht) as Hcr. apply wp_ok in Hcr as (x & st1 & Er & Hx).
    unfold wp. rewrite Er. destruct x as [a|].
    2: { exfalso. apply Hnn. split; [done|]. unfold heap_create, mbind, M_bind, in_os, zoom in Er.
         destruct (os_alloc_aligned heap_bytes os_page_size (os st)) as [[[q|] o']| |] eqn:Eo; [|by eauto|done..].
         unfold modify, mret, M_ret, gets in Er.
         repeat (match type of Er with context [match ?m with _ => _ end] => destruct m as [[[] ?]| |] end; try done). }
    destruct Hx as [G1 G2 G3 G4 [h Gh] G6 G7 G8 G9].
    change (wp (malloc_on (Some a) c) (malloc_done st tid c) st1).
    eapply wp_mono; [apply (malloc_on_spec st1 a h c); try done; by rewrite G3|].
    intros x st2 HP. apply (malloc_post_done st1 tid a h c x st2 Gh) in HP; [|rewrite G4; by simplify_map_eq].
    destruct HP as [P1 _ P2 P3 P4 P5 [P6 P7 P8]]. constructor; try done.
    + intros a' h' b Ha'. congruence.
    + intros Hcn. apply P2. intros y hy Hy. destruct (G6 y) as [E|[-> E]]; [rewrite E in Hy; eauto|].
      rewrite Hy in E. apply (inj Some) in E. unfold h_counts in E. injection E as E1 E2 E3.
      unfold stats_ok. rewrite E1, E2, E3. by destruct stats_on.
    + destruct x as [b|]; [destruct P3 as (bs & Hbs & Hp); exists bs; split; [done|]; by eapply alloc_plus_same|].
      by eapply same_alloc_trans.
    + intros t Hne. rewrite P5, G4 by done. by rewrite lookup_insert_ne.
    + constructor; congruence.
Qed.

(** Without a heap the fast path dereferences the null [t_heap]. *)
Lemma heap_malloc_null st tid size c :
  size_class size = Some c → null_heap tid st → heap_malloc tid size st = Fault.
Proof.
  intros Hsz [Ht [o' Ho]]. rewrite heap_malloc_eq, Hsz. unfold heap_get, heap_create, mbind, M_bind, gets, in_os, zoom.
  simpl. rewrite Ht, Ho. simpl. unfold malloc_on. by destruct stats_on.
Qed.
End heap_malloc.
