(* ===== verification/HeapFree.v ===== *)
(** * Freeing blocks: heap_free, the remote path and empty pages *)
From Stdlib Require Import ZArith Lia.
From stdpp Require Import base numbers list gmap.
From S2P Require Import Prelude Words Constants SizeClass Segment Memory Os Chains Sums RegionRegistry State Regions PageOps Allocated Central CentralInv CentralSpec PoolSpec CentralOps Acquire Heap HeapInv HeapLinks HeapSpec HeapMalloc.

Section heap_free.
Context {K : Kernel} {KL : KernelLaws K} {Lg : Ledger} {C : Config}.
Implicit Types (st : State) (r : pageref).

Lemma hok_open st a c : hok None st → hok (Some (a, c)) st.
Proof. intros H. constructor; [apply H..|]. apply heap_inv_open, H. Qed.

Lemma hok_close st a c h L :
  hok (Some (a, c)) st → heaps st !! a = Some h → class_list (pages st) a h c L → hok None st.
Proof. intros H Ha HL. constructor; [apply H..|]. eapply heap_inv_close; [apply H|done..]. Qed.

(** ** Taking a page out of its class *)

(** Page [r] of class [c] leaves use; the other pages of heaps stay. *)
Lemma pool_outside r st st' pg a c :
  pool_post r st st' → pages st !! r = Some pg → in_class a c pg →
  same_outside a c (pages st) (pages st') ∧
  ∀ q, owned_in (pages st') a c q ↔ owned_in (pages st) a c q ∧ q ≠ r.
Proof.
  intros H Hr Hcl. split.
  - intros q p Hp Hn. destruct (decide (q = r)) as [->|Hne]; [|apply (pp_pages _ _ _ H); [done|apply Hp]].
    split; intros E; [|by simplify_eq]. destruct Hp as [Hp _]. by rewrite (pp_gone _ _ _ H p E) in Hp.
  - intros q. split.
    + intros (p & Hp & Hu & Hx). assert (q ≠ r) as Hne.
      { intros ->. by rewrite (pp_gone _ _ _ H p Hp) in Hu. }
      split; [|done]. exists p. split; [by apply (pp_pages _ _ _ H)|done].
    + intros [(p & Hp & Hu & Hx) Hne]. exists p. split; [by apply (pp_pages _ _ _ H)|done].
Qed.

Lemma hok_outside st st' a c h :
  hok (Some (a, c)) st → heaps st !! a = Some h → central_ok None st' → mem_ok st' → others_same st st' →
  same_outside a c (pages st) (pages st') → hok (Some (a, c)) st'.
Proof.
  intros H Ha H1 H2 [E1 E2 E3 _ _ _] HP. constructor; [done..|]. rewrite E1, E2, E3.
  eapply heap_inv_outside; [apply H|eauto|done].
Qed.

(** The list without a page that was unlinked and released. *)
Lemma unlinked_list a c h st1 st2 hd L1 r L2 pg :
  pool_post r st1 st2 → pages st1 !! r = Some pg → in_class a c pg →
  h_pages h !! Z.to_nat c = Some (Some hd) →
  dchain (pg_links (pages st1)) None (Some hd) (hd :: L1 ++ L2) → r ∉ hd :: L1 ++ L2 →
  (∀ q, q ∈ hd :: L1 ++ r :: L2 ↔ owned_in (pages st1) a c q) →
  class_list (pages st2) a h c (hd :: L1 ++ L2).
Proof.
  intros Hp Hr Hcl Hh Hd Hn HL. destruct (pool_outside _ _ _ _ _ _ Hp Hr Hcl) as [_ Ho].
  split; [done|]. split.
  - eapply dchain_ext; [|done]. intros q Hq. assert (q ≠ r) as Hne by (by intros ->).
    assert (owned_in (pages st1) a c q) as (p & Hq1 & Hu & _) by (apply HL; set_solver).
    unfold pg_links. by rewrite Hq1, (proj2 (pp_pages _ _ _ Hp q p Hne Hu) Hq1).
  - intros q. rewrite Ho, <-HL. split; [|set_solver].
    intros Hq. split; [set_solver|]. by intros ->.
Qed.

Lemma heap_on_page_empty_spec st s i pg a :
  hok None st → pages st !! PageAt s i = Some pg → pg_in_use pg = true →
  pg_owner pg = Some (HeapAt a) → pg_used pg = 0 →
  wp (heap_on_page_empty (PageAt s i)) (λ _ st', hok None st' ∧ same_alloc st st' ∧ others_same st st') st.
Proof.
  intros H Hpg Hu Ho H0. set (r := PageAt s i) in *. destruct (hi_owner (hk_heaps H) r pg a Hpg Hu Ho) as [h Ha].
  destruct (mo_blocks (hk_mem H) s i pg Hpg Hu) as (lf & lt & Hok).
  set (c := pg_size_class pg). pose proof (pq_class (po_geom Hok)) as Hc. fold c in Hc.
  destruct (hi_list (hk_heaps H) a h c Ha Hc ltac:(done)) as (L & Hcl).
  assert (owned_in (pages st) a c r) as Hor by by exists pg. pose proof (proj2 (proj2 (proj2 Hcl) r) Hor) as HrL.
  unfold heap_on_page_empty. apply wp_bind. eapply wp_load_page; [done|]. rewrite Ho. apply wp_bind. eapply wp_deref; [done|].
  apply wp_bind. eapply wp_heap_page; [done|apply Hcl|]. cbv beta. case_bool_decide as Eh; [by apply wp_ret|].
  assert (∃ hd L1 L2, L = hd :: L1 ++ r :: L2) as (hd & L1 & L2 & ->).
  { destruct L as [|x L]; [by apply elem_of_nil in HrL|]. apply elem_of_cons in HrL as [->|Hx]; [done|].
    apply list_elem_of_split in Hx as (l1 & l2 & ->). eauto. }
  destruct (listed_inner _ _ _ _ _ _ _ _ Hcl) as (pg' & pv & Hpg' & Epv & Hpvr & Hhr & Hpv & Hnx). simplify_eq.
  assert (∀ q, owned_in (pages st) a c q → is_Some (pages st !! q)) as HS by (intros q (? & ? & _); eauto).
  assert (relinked_in a c (pages st) (unlink_pages pg (pages st))) as HR.
  { apply relinked_in_unlink; [|done]. intros q E. by simplify_eq. }
  apply wp_bind. eapply wp_load_page; [done|]. rewrite Epv. apply wp_bind. eapply wp_deref; [done|].
  apply wp_bind, wp_upd_page_alter; [auto|]. eapply (unlink_next_spec _ st r); try done; [auto..|].
  destruct (hok_relinked st a c _ (hok_open _ a c H) ltac:(eauto) HR) as [H1 Hs1].
  set (st1 := set_pages _ st) in *. destruct (relinked_lookup _ _ _ _ (proj1 HR) Hpg) as (pg1 & Hpg1 & Hnl).
  pose proof (nolinks_eq _ _ Hnl) as (Hv & N1 & N2 & N3 & _). unfold page_view in Hv. injection Hv as _ V2 _ _ _ _ _ _ _.
  eapply wp_mono; [apply (central_release_spec st1 r pg1); try done; [apply H1|apply H1|split; [congruence|]|congruence]|].
  { rewrite N1. eauto. }
  intros [] st2 Hp. assert (in_class a c pg1) as Hcl1 by (split; [congruence|exact N2]).
  destruct (pool_outside _ _ _ _ _ _ Hp Hpg1 Hcl1) as [Hout _].
  pose proof (hok_outside st1 st2 a c h H1 Ha (pp_central _ _ _ Hp) (pp_mem _ _ _ Hp) (pp_others _ _ _ Hp) Hout) as H2.
  split_and!; [|eapply same_alloc_trans; [exact Hs1|apply Hp]|].
  2: { eapply others_same_trans; [|apply Hp]. done. }
  destruct Hcl as [Hh [Hd HL]]. cbn [hd_error] in Hd. pose proof (dchain_NoDup _ _ _ _ Hd) as Hnd.
  eapply (hok_close st2 a c h (hd :: L1 ++ L2)); [done|by rewrite (ot_heaps _ _ (pp_others _ _ _ Hp))|].
  eapply (unlinked_list a c h st1 st2 hd L1 r L2 pg1); try done.
  - pose proof (dchain_unlink_pages _ _ (hd :: L1) r L2 pg Hd Hpg) as Hd'.
    by rewrite decide_False in Hd' by congruence.
  - rewrite app_comm_cons, Permutation_app_comm in Hnd. simpl in Hnd. apply NoDup_cons in Hnd as [Hnd _]. set_solver.
  - intros q. rewrite HL. symmetry. apply (owned_in_relinked a c _ _ q (proj1 HR)).
Qed.

(** ** Returning a block *)

Definition live_at st s i pg p : Prop :=
  pages st !! PageAt s i = Some pg ∧ pg_in_use pg = true ∧
  ∃ lf lt, page_ok (bytes (os st)) s i pg lf lt ∧ live_block pg lf lt p.

Lemma push_local_spec st s i pg p :
  hok None st → live_at st s i pg p →
  wp (page_push_local (PageAt s i) p) (λ u st', ∃ m' pg', st' = page_state st (PageAt s i) m' pg' ∧
    page_core pg' = page_core pg ∧ hok None st' ∧ alloc_minus st st' p ∧ u = pg_used pg' ∧ pg_free pg' = Some p) st.
Proof.
  intros H (Hpg & Hu & lf & lt & Hok & Hl). apply (wp_page_state _ _ st (PageAt s i) pg Hpg).
  eapply wp_mono; [apply (page_push_local_moved _ _ _ s i pg lf lt p Hok); [|done]|].
  { by eapply page_mapped; [apply H| |apply Hok]. }
  intros u st' (m' & pg' & HM & ->). exists m', pg'.
  destruct (moved_minus st s i pg lf lt (hk_mem H) Hpg Hu Hok _ _ _ _ _ p Hl HM) as [Hm' Hsa].
  pose proof (pm_state HM) as ->. split_and!; try done; [apply HM|eapply hok_moved; try done; apply HM|].
  apply (po_free (pm_ok HM)).
Qed.

Lemma free_remote_spec st s i pg p :
  hok None st → live_at st s i pg p →
  wp (heap_free_remote (PageAt s i) p) (λ _ st', hok None st' ∧ alloc_minus st st' p ∧ others_same st st') st.
Proof.
  intros H (Hpg & Hu & lf & lt & Hok & Hl). apply (wp_page_state _ _ st (PageAt s i) pg Hpg).
  eapply wp_mono; [apply (heap_free_remote_moved _ _ _ s i pg lf lt p Hok); [|done]|].
  { by eapply page_mapped; [apply H| |apply Hok]. }
  intros [] st' (m' & pg' & HM).
  destruct (moved_minus st s i pg lf lt (hk_mem H) Hpg Hu Hok _ _ _ _ _ p Hl HM) as [Hm' Hsa].
  pose proof (pm_state HM) as ->. split_and!; try done. eapply hok_moved; try done. apply HM.
Qed.

(** The page of a live block is found from its address. *)
Lemma live_page_of st s i pg p : live_at st s i pg p → page_of (segment_of p) p = PageAt s i.
Proof.
  intros (Hpg & Hu & lf & lt & Hok & Hl). pose proof (live_in_area _ _ _ _ _ _ _ Hok Hl) as Hin.
  pose proof (block_size_bounds _ _ _ (po_geom Hok)) as Hbs. destruct (po_geom Hok) as [G1 G2 G3 _ _ _].
  rewrite G3 in Hin. assert (FIRST_USABLE_PAGE = 1) as Ef by reflexivity.
  destruct (page_offset_recover s i (p - page_area s i) G1) as [E1 E2]; [lia|lia|].
  replace (page_area s i + (p - page_area s i)) with p in * by lia.
  unfold page_of, segment_of. by rewrite E1, E2.
Qed.

Lemma alloc_minus_same st1 st2 st3 p :
  alloc_minus st1 st2 p → same_alloc st2 st3 → alloc_minus st1 st3 p.
Proof.
  intros [A1 B1] [A2 B2]. split.
  - intros b n. by rewrite A2, A1.
  - intros b n Hal Hne x Hx. rewrite (B2 b n), (B1 b n); try done. by apply A1.
Qed.

Lemma heap_free_spec st tid s i pg p :
  hok None st → live_at st s i pg p →
  wp (heap_free tid p) (λ _ st', hok None st' ∧ alloc_minus st st' p ∧ others_same st st') st.
Proof.
  intros H Hl. unfold heap_free. cbv zeta. rewrite (live_page_of _ _ _ _ _ Hl).
  pose proof Hl as (Hpg & Hu & _). apply wp_bind. eapply wp_load_page; [done|]. apply wp_bind, wp_gets.
  destruct (pk_owner _ _ (co_pages (proj1 (hk_central H))) _ _ Hpg Hu) as [o Ho].
  case_bool_decide as Et; [|by apply (free_remote_spec st s i pg)].
  rewrite Ho in Et. destruct (t_heap st !! tid) as [a|]; [|done]. injection Et as ->.
  apply wp_bind. eapply wp_mono; [by apply (push_local_spec st s i pg p)|].
  intros u st1 (m' & pg' & -> & Hcore & H1 & Hm & -> & _). unfold page_core in Hcore. injection Hcore as F1 F2 F3 F4 F5 F6 F7 F8.
  destruct (Z.eqb_spec (pg_used pg') 0) as [E0|_]; [|by apply wp_ret].
  eapply wp_mono; [apply (heap_on_page_empty_spec _ s i pg' a H1); [apply pages_page_state|congruence..|done]|].
  intros [] st2 (H2 & Hs & Hf). split_and!; [done|by eapply alloc_minus_same|]. by eapply others_same_trans; [|exact Hf].
Qed.

(** The owner frees a block of the page at the head of its class: the page stays
    there, and the block is the next one the fast path hands out. *)
Lemma heap_free_head st tid a h s i pg p :
  hok None st → live_at st s i pg p → t_heap st !! tid = Some a → heaps st !! a = Some h →
  pg_owner pg = Some (HeapAt a) → h_pages h !! Z.to_nat (pg_size_class pg) = Some (Some (PageAt s i)) →
  wp (heap_free tid p) (λ _ st', hok None st' ∧ others_same st st' ∧ registry st' = registry st ∧
    fast_block st' h (pg_size_class pg) p) st.
Proof.
  intros H Hl Ht Ha Ho Hh. unfold heap_free. cbv zeta. rewrite (live_page_of _ _ _ _ _ Hl).
  pose proof Hl as (Hpg & Hu & _). apply wp_bind. eapply wp_load_page; [done|]. apply wp_bind, wp_gets.
  rewrite Ho, Ht, bool_decide_true by done. apply wp_bind. eapply wp_mono; [by apply (push_local_spec st s i pg p)|].
  intros u st1 (m' & pg' & -> & Hcore & H1 & Hm & -> & Hf). unfold page_core in Hcore. injection Hcore as F1 F2 F3 F4 F5 F6 F7 F8.
  set (st1 := page_state _ _ _ _) in *. assert (pages st1 !! PageAt s i = Some pg') as Hpg1 by apply pages_page_state.
  assert (hok None st1 ∧ others_same st st1 ∧ registry st1 = registry st ∧ fast_block st1 h (pg_size_class pg) p) as Hend.
  { split_and!; try done. exists (PageAt s i), pg'. done. }
  destruct (Z.eqb_spec (pg_used pg') 0); [|by apply wp_ret].
  unfold heap_on_page_empty. apply wp_bind. eapply wp_load_page; [done|]. rewrite F5, Ho. apply wp_bind. eapply wp_deref; [done|].
  apply wp_bind. eapply (wp_heap_page st1 a h); [done|by rewrite F3|]. rewrite bool_decide_true by done. by apply wp_ret.
Qed.
End heap_free.
