(* ===== verification/HeapExit.v ===== *)
(** * Thread exit: heap_destroy, and the statistics over all heaps

    A thread that exits releases its empty pages and abandons the others, takes
    its heap off the registry of heaps and unmaps it; nothing the client holds
    changes. *)
From Stdlib Require Import ZArith Lia.
From stdpp Require Import base numbers list gmap.
From S2P Require Import Prelude Words Constants SizeClass Segment Memory Os Chains Sums RegionRegistry State Regions PageOps Allocated Central CentralInv CentralSpec PoolSpec CentralOps Acquire Heap HeapInv HeapLinks HeapSpec HeapCreate HeapMalloc HeapFree.

Section heap_exit.
Context {K : Kernel} {KL : KernelLaws K} {Lg : Ledger} {C : Config}.
Implicit Types (st : State) (r : pageref).

(** ** Walking a class *)

(** Page [r] is no longer of class [c]; the rest is as before. *)
Definition left_class (a c : Z) r st st' : Prop :=
  hok (Some (a, c)) st' ∧ same_alloc st st' ∧ others_same st st' ∧
  same_outside a c (pages st) (pages st') ∧
  (∀ q, owned_in (pages st') a c q ↔ owned_in (pages st) a c q ∧ q ≠ r) ∧
  ∀ q p, q ≠ r → owned_in (pages st) a c q → pages st !! q = Some p → pages st' !! q = Some p.

Lemma owned_in_lookup (P P' : gmap pageref Page) a c q :
  P' !! q = P !! q → owned_in P' a c q ↔ owned_in P a c q.
Proof. unfold owned_in. by intros ->. Qed.

Lemma release_leaves st a h c r pg :
  hok (Some (a, c)) st → heaps st !! a = Some h → r ≠ EmptyPage → pages st !! r = Some pg →
  in_class a c pg → pg_in_use pg = true → pg_used pg = 0 →
  wp (central_release_page r) (λ _ st', left_class a c r st st') st.
Proof.
  intros H Ha Hne Hr Hcl Hu H0. eapply wp_mono.
  { apply (central_release_spec st r pg); try done; [apply H..|]. split; [done|]. destruct Hcl. eauto. }
  intros [] st' Hp. destruct (pool_outside _ _ _ _ _ _ Hp Hr Hcl) as [Hout Ho].
  split_and!; [by eapply hok_outside; try done; apply Hp|apply Hp|apply Hp|done|done|].
  intros q p Hq (p' & Hp' & Hu' & _) Hqp. simplify_eq. by apply (pp_pages _ _ _ Hp).
Qed.

Lemma abandon_leaves st a h c r pg :
  hok (Some (a, c)) st → heaps st !! a = Some h → r ≠ EmptyPage → pages st !! r = Some pg →
  in_class a c pg → pg_in_use pg = true →
  wp (central_abandon_page r) (λ _ st', left_class a c r st st') st.
Proof.
  intros H Ha Hne Hr Hcl Hu. eapply wp_mono.
  { apply (central_abandon_spec st r pg); try done; [apply H..|]. split; [done|]. destruct Hcl. eauto. }
  intros [] st' (H1 & H2 & Hs & Hf & Hp & _).
  assert (same_outside a c (pages st) (pages st')) as Hout.
  { rewrite Hp. intros q p Hpo Hn. rewrite lookup_insert. case_decide; [subst q|done].
    split; intros E; [|by simplify_eq]. injection E as <-. destruct Hpo as [_ [x Hx]]. done. }
  split_and!; try done; [by eapply hok_outside|..].
  - intros q. rewrite Hp. unfold owned_in. rewrite lookup_insert. case_decide; [subst q|naive_solver].
    split; [intros (p & [= <-] & _ & Ho & _); done|intros [_ ?]; done].
  - intros q p Hq _ Hqp. rewrite Hp. by rewrite lookup_insert_ne.
Qed.

Lemma destroy_step {B} (k : M State B) Q st a h c s i pg :
  hok (Some (a, c)) st → heaps st !! a = Some h → pages st !! PageAt s i = Some pg →
  in_class a c pg → pg_in_use pg = true →
  (∀ st', left_class a c (PageAt s i) st st' → wp k Q st') →
  wp (page_collect (PageAt s i);; pg ← load_page (PageAt s i);
      (if pg_used pg =? 0 then central_release_page (PageAt s i) else central_abandon_page (PageAt s i));; k) Q st.
Proof.
  intros H Ha Hpg Hcl Hu HQ. apply wp_bind. eapply wp_mono; [by apply (page_collect_mem st s i pg (hk_mem H))|].
  intros [] st1 (m' & pg1 & -> & Hcore & _ & Hm & Hs). pose proof Hcore as E. unfold page_core in E.
  injection E as F1 F2 F3 F4 F5 F6 F7 F8. set (st1 := page_state _ _ _ _) in *.
  assert (hok (Some (a, c)) st1) as H1 by by eapply hok_moved.
  assert (pages st1 !! PageAt s i = Some pg1) as Hpg1 by apply pages_page_state.
  assert (in_class a c pg1) as Hcl1 by (destruct Hcl; split; congruence).
  apply wp_bind. eapply wp_load_page; [done|]. cbv beta.
  assert (∀ st2, left_class a c (PageAt s i) st1 st2 → left_class a c (PageAt s i) st st2) as Hk.
  { intros st2 (A1 & A2 & A3 & A6 & A4 & A5).
    assert (∀ q, q ≠ PageAt s i → pages st1 !! q = pages st !! q) as Ep.
    { intros q Hq. simpl. by rewrite lookup_insert_ne. }
    split_and!; [done|by eapply same_alloc_trans|by eapply others_same_trans; [|exact A3]|..].
    - eapply same_outside_trans; [|done]. intros q p Hpo Hn. destruct (decide (q = PageAt s i)) as [->|Hq]; [|by rewrite Ep].
      rewrite Hpg1, Hpg. split; intros [= <-]; done.
    - intros q. rewrite A4. split; intros [Hq Hne]; (split; [|done]); by apply (owned_in_lookup _ _ a c q (Ep q Hne)).
    - intros q p Hq Ho Hp. apply A5; [done|by apply (owned_in_lookup _ _ a c q (Ep q Hq))|by rewrite Ep]. }
  apply wp_bind. destruct (Z.eqb_spec (pg_used pg1) 0) as [E0|E0].
  - eapply wp_mono; [by eapply (release_leaves st1 a h c (PageAt s i) pg1); try congruence|]. intros [] st2 Hl. by apply HQ, Hk.
  - eapply wp_mono; [by eapply (abandon_leaves st1 a h c (PageAt s i) pg1); try congruence|]. intros [] st2 Hl. by apply HQ, Hk.
Qed.

Lemma destroy_walk_spec a h c fuel : ∀ st L p,
  hok (Some (a, c)) st → heaps st !! a = Some h → chain (pg_nxt (pages st)) p L →
  (∀ q, q ∈ L ↔ owned_in (pages st) a c q) → (length L < fuel)%nat →
  wp (destroy_walk fuel p) (λ _ st', hok (Some (a, c)) st' ∧ same_alloc st st' ∧ others_same st st' ∧
    same_outside a c (pages st) (pages st') ∧ ∀ q, ¬ owned_in (pages st') a c q) st.
Proof.
  induction fuel as [|fuel IH]; intros st L p H Ha Hch HL Hf; [lia|]. pose proof (chain_NoDup _ _ _ Hch) as Hnd.
  destruct L as [|r L].
  { apply chain_nil in Hch as ->. apply wp_ret. split_and!; try done. intros q Hq%HL. by apply elem_of_nil in Hq. }
  destruct Hch as [-> (n & Hn & Hch)].
  assert (owned_in (pages st) a c r) as Ho by (apply HL; set_solver). pose proof Ho as (pg & Hpg & Hu & Hw & Hc).
  destruct (in_use_at _ _ _ _ H Hpg Hu) as (s & i & ->). cbn [destroy_walk].
  unfold pg_nxt in Hn. rewrite Hpg in Hn. injection Hn as <-.
  apply wp_bind. eapply wp_load_page; [done|]. cbv beta zeta.
  eapply (wp_mono _ (λ _ st', ∃ st1, left_class a c (PageAt s i) st st1 ∧
    (hok (Some (a, c)) st' ∧ same_alloc st1 st' ∧ others_same st1 st' ∧
      same_outside a c (pages st1) (pages st') ∧ ∀ q, ¬ owned_in (pages st') a c q))).
  - apply (destroy_step _ _ st a h c s i pg); try done. intros st1 Hl. pose proof Hl as (A1 & A2 & A3 & _ & A4 & A5). apply NoDup_cons in Hnd as [Hnr Hnd].
    eapply wp_mono; [apply (IH st1 L)|intros [] st2 ?; by exists st1].
    + done.
    + by rewrite (ot_heaps _ _ A3).
    + eapply chain_ext; [|done]. intros q Hq. assert (q ≠ PageAt s i) by (by intros ->).
      assert (owned_in (pages st) a c q) as Hoq by (apply HL; set_solver). pose proof Hoq as (p & Hp & _).
      unfold pg_nxt. by rewrite Hp, (A5 q p).
    + intros q. rewrite A4, <-HL. set_solver.
    + simpl in Hf. lia.
  - intros [] st' (st1 & (A1 & A2 & A3 & A4 & _ & _) & B1 & B2 & B3 & B4 & B5).
    split_and!; [done|by eapply same_alloc_trans|by eapply others_same_trans|by eapply same_outside_trans|done].
Qed.

(** ** All classes *)

(** Every heap but the one at [a] is untouched, and its own links are kept. *)
Record emptied st (a : Z) st' : Prop := {
  em_alloc : same_alloc st st';
  em_heaps x : x ≠ a → heaps st' !! x = heaps st !! x;
  em_heap h : heaps st !! a = Some h → ∃ L, heaps st' !! a = Some (set_h_pages L h);
  em_registry : g_registry st' = g_registry st;
  em_thread : t_heap st' = t_heap st;
  em_large : large_frame st st'
}.

Lemma emptied_refl st a : emptied st a st.
Proof. constructor; try done. intros h Hh. exists (h_pages h). by destruct h. Qed.

Lemma emptied_trans st1 st2 st3 a : emptied st1 a st2 → emptied st2 a st3 → emptied st1 a st3.
Proof.
  intros [A1 A2 A3 A4 A5 [A6 A7 A8]] [B1 B2 B3 B4 B5 [B6 B7 B8]]. constructor; try congruence.
  - by eapply same_alloc_trans.
  - intros x Hx. by rewrite B2, A2.
  - intros h Hh. destruct (A3 h Hh) as (L & HL). destruct (B3 _ HL) as (L' & HL'). by exists L'.
  - constructor; congruence.
Qed.

Lemma others_emptied st st' a : same_alloc st st' → others_same st st' → emptied st a st'.
Proof.
  intros Hs [E1 E2 E3 E4 E5 E6]. constructor; try done; [by rewrite E1|].
  intros h Hh. rewrite E1, Hh. exists (h_pages h). by destruct h.
Qed.

(** One class: afterwards its list is empty and the heap owns none of its pages. *)
Lemma destroy_class_spec st a h c :
  hok None st → heaps st !! a = Some h → 0 ≤ c < kNumSizeClasses →
  wp (p ← heap_page a c;
      if bool_decide (p = Some EmptyPage) then mret tt
      else
        fuel ← gets (λ st, S (base.size (pages st)));
        destroy_walk fuel p;;
        set_heap_page a c (Some EmptyPage))
    (λ _ st', hok None st' ∧ emptied st a st' ∧ (∀ q, ¬ owned_in (pages st') a c q) ∧
      ∀ c' q, c' ≠ c → owned_in (pages st') a c' q ↔ owned_in (pages st) a c' q) st.
Proof.
  intros H Ha Hc. destruct (hi_list (hk_heaps H) a h c Ha Hc ltac:(done)) as (L & Hcl).
  apply wp_bind. eapply wp_heap_page; [done|apply Hcl|]. cbv beta.
  pose proof (head_not_empty st L a h c H Hcl) as He. pose proof Hcl as [_ [Hd HL]]. case_bool_decide as Eh.
  - apply wp_ret. split_and!; [done|apply emptied_refl| |done]. intros q Hq%HL.
    destruct L; [by apply elem_of_nil in Hq|done].
  - apply wp_bind, wp_gets, wp_bind. rewrite He.
    eapply wp_mono; [apply (destroy_walk_spec a h c _ st L (head L)); try done; [by apply hok_open|..]|].
    + apply dchain_chain in Hd. eapply chain_ext; [|done]. intros q _. unfold nxt_of, pg_links, pg_nxt.
      by destruct (pages st !! q).
    + apply Nat.lt_succ_r, list_length_size; [by eapply dchain_NoDup|]. intros q (p & Hp & _)%HL. eauto.
    + intros [] st1 (H1 & Hs1 & Hf1 & Hout & Hn1). assert (heaps st1 !! a = Some h) as Ha1 by (by rewrite (ot_heaps _ _ Hf1)).
      eapply wp_set_heap_page; [done|apply Hcl|]. set (h' := set_h_pages _ h).
      assert (hok (Some (a, c)) (set_heaps (<[a := h']> (heaps st1)) st1)) as H2.
      { apply (hok_heap _ st1 a h); try done; [simpl; by rewrite length_insert|].
        intros c' Hc' Hne. simpl. rewrite list_lookup_insert_ne; [done|]. intros E. apply Hne. do 2 f_equal. lia. }
      split_and!.
      * eapply (hok_close _ a c h' []); [done|apply lookup_insert_eq|]. split.
        -- simpl. apply list_lookup_insert_eq. eapply lookup_lt_Some, Hcl.
        -- split; [done|]. intros q. split; [by intros ?%elem_of_nil|by intros ?%Hn1].
      * eapply emptied_trans; [by apply others_emptied|]. constructor; try done.
        -- intros x Hx. simpl. by rewrite lookup_insert_ne.
        -- intros hx Hhx. simpl. rewrite lookup_insert_eq. simplify_eq. eexists. reflexivity.
      * done.
      * intros c' q Hne. simpl. apply (owned_in_outside _ _ a c); [congruence|done].
Qed.

Lemma wp_assoc {A B D} (m : M State A) (f : A → M State B) (g : B → M State D) Q st :
  wp ((m ≫= f) ≫= g) Q st → wp (m ≫= (λ x, f x ≫= g)) Q st.
Proof. unfold wp, mbind, M_bind. by destruct (m st) as [[? ?]| |]. Qed.

Lemma destroy_loop_spec a n : ∀ st c h,
  hok None st → heaps st !! a = Some h → 0 ≤ c → c + Z.of_nat n = kNumSizeClasses →
  (∀ c' q, 0 ≤ c' < c → ¬ owned_in (pages st) a c' q) →
  wp (destroy_loop n a c) (λ _ st', hok None st' ∧ emptied st a st' ∧
    ∀ c' q, 0 ≤ c' < kNumSizeClasses → ¬ owned_in (pages st') a c' q) st.
Proof.
  induction n as [|n IH]; intros st c h H Ha Hc Hn Hno; cbn [destroy_loop].
  - apply wp_ret. split_and!; [done|apply emptied_refl|]. intros c' q Hc'. apply Hno. lia.
  - apply wp_assoc, wp_bind. eapply wp_mono; [apply (destroy_class_spec st a h c H Ha); lia|].
    intros [] st1 (H1 & He1 & Hn1 & Hk1). destruct (em_heap _ _ _ He1 h Ha) as (L & Ha1).
    eapply wp_mono; [apply (IH st1 (c + 1) _ H1 Ha1); try lia|].
    + intros c' q Hc'. destruct (decide (c' = c)) as [->|Hne]; [apply Hn1|]. rewrite Hk1 by done. apply Hno. lia.
    + intros [] st2 (H2 & He2 & Hn2). split_and!; [done|by eapply emptied_trans|done].
Qed.

(** ** Leaving the registry of heaps *)

Definition reg_unlinked st (A : list Z) (v : option Z) st' : Prop :=
  match last A with
  | Some y => ∃ hy, heaps st !! y = Some hy ∧ st' = set_heaps (<[y := set_h_reg_next v hy]> (heaps st)) st
  | None => st' = set_g_registry v st
  end.

Lemma reg_nxt_some (H : gmap Z Heap) x n : reg_nxt H x = Some n → ∃ h, H !! x = Some h ∧ h_reg_next h = n.
Proof. unfold reg_nxt. intros (h & ? & ->)%fmap_Some. eauto. Qed.

(** The walk stops at the link that points to [a] and redirects it. *)
Lemma unlist_loop_spec st a h A B (Q : unit → State → Prop) fuel : ∀ A1 A2,
  heaps st !! a = Some h → A = A1 ++ A2 → chain (reg_nxt (heaps st)) (g_registry st) (A ++ a :: B) →
  (length A2 < fuel)%nat → (∀ st', reg_unlinked st A (h_reg_next h) st' → Q tt st') →
  wp (unlist_loop fuel a (last A1)) Q st.
Proof.
  induction fuel as [|fuel IH]; intros A1 A2 Ha -> Hch Hf HQ; [lia|]. cbn [unlist_loop].
  pose proof Hch as Hat. rewrite <-app_assoc in Hat. apply chain_at in Hat.
  apply wp_bind. apply (wp_mono _ (λ v st', v = head (A2 ++ a :: B) ∧ st' = st)).
  { destruct (last A1) as [y|]; [|by apply wp_gets].
    apply reg_nxt_some in Hat as (hy & Hy & <-). apply wp_bind. eapply wp_load_heap; [done|]. by apply wp_ret. }
  intros v st' [-> ->]. destruct A2 as [|x A2]; simpl.
  - rewrite app_nil_r in *. rewrite bool_decide_true by done. apply wp_bind. eapply wp_load_heap; [done|]. cbv beta.
    unfold reg_unlinked in HQ. destruct (last A1) as [y|]; [|by apply wp_modify, HQ].
    apply reg_nxt_some in Hat as (hy & Hy & _). eapply wp_upd_heap; [done|]. eauto.
  - assert (x ≠ a) as Hxa.
    { intros ->. apply chain_NoDup in Hch. rewrite <-app_assoc in Hch. apply NoDup_app in Hch as (_ & _ & Hch).
      simpl in Hch. apply NoDup_cons in Hch as [Hch _]. set_solver. }
    rewrite bool_decide_false by done. rewrite <-(last_snoc x A1). apply (IH (A1 ++ [x]) A2); try done.
    + by rewrite <-app_assoc.
    + simpl in Hf. lia.
Qed.

(** What unlinking [a] leaves: the list without [a], headers but for a link. *)
Definition rest_same (H H' : gmap Z Heap) : Prop :=
  ∀ x, (λ h, (h_pages h, h_counts h)) <$> H' !! x = (λ h, (h_pages h, h_counts h)) <$> H !! x.

Lemma reg_unlinked_chain st a h A B st' :
  heaps st !! a = Some h → chain (reg_nxt (heaps st)) (g_registry st) (A ++ a :: B) →
  reg_unlinked st A (h_reg_next h) st' →
  chain (reg_nxt (heaps st')) (g_registry st') (A ++ B) ∧ rest_same (heaps st) (heaps st') ∧
  st' = set_heaps (heaps st') (set_g_registry (g_registry st') st).
Proof.
  intros Ha Hch Hu. unfold reg_unlinked in Hu. destruct (last A) as [y|] eqn:El.
  - destruct Hu as (hy & Hy & ->). apply last_Some in El as [A' ->].
    split_and!; [|intros x; simpl; rewrite lookup_insert; case_decide; [subst; by rewrite Hy|done]|by destruct st].
    simpl. pose proof (chain_NoDup _ _ _ Hch) as Hnd. rewrite <-app_assoc in *. simpl in *.
    eapply chain_unlink; [done|..].
    + intros x Hx. unfold reg_nxt. rewrite lookup_insert_ne; [done|]. intros <-.
      rewrite Permutation_app_comm in Hnd. simpl in Hnd. apply NoDup_cons in Hnd as [Hnd _]. set_solver.
    + unfold reg_nxt. by rewrite Ha.
    + unfold reg_nxt. by rewrite lookup_insert_eq.
  - apply last_None in El as ->. subst st'. split_and!; [|done|by destruct st]. simpl in *.
    destruct Hch as [_ (n & Hn & Hch)]. unfold reg_nxt in Hn. rewrite Ha in Hn. by injection Hn as <-.
Qed.

(** Removing the heap [a] of thread [tid], which owns no page any more. *)
Lemma heap_inv_destroy P H H' gr gr' T tid a A B :
  heap_inv None P H gr T → T !! tid = Some a →
  (∀ r pg, P !! r = Some pg → pg_in_use pg = true → pg_owner pg ≠ Some (HeapAt a)) →
  chain (reg_nxt H) gr (A ++ a :: B) → (∀ x, x ∈ A ++ a :: B ↔ is_Some (H !! x)) →
  chain (reg_nxt H') gr' (A ++ B) → rest_same H H' →
  heap_inv None P (delete a H') gr' (delete tid T).
Proof.
  intros [H1 H2 H3 _ H5 H6 H7] Ht Hno Hch HL Hch' Hr.
  assert (a ∉ A ++ B) as Hna.
  { apply chain_NoDup in Hch. rewrite Permutation_app_comm in Hch. simpl in Hch. apply NoDup_cons in Hch as [Hn _]. set_solver. }
  assert (∀ x h, delete a H' !! x = Some h → x ≠ a ∧ ∃ h0, H !! x = Some h0 ∧ h_pages h = h_pages h0) as Hx.
  { intros x h [Hne Hx]%lookup_delete_Some. split; [done|]. specialize (Hr x). rewrite Hx in Hr.
    destruct (H !! x) as [h0|]; [|done]. exists h0. split; [done|]. apply (inj Some) in Hr. by injection Hr as -> _. }
  assert (∀ x, x ≠ a → is_Some (H !! x) → is_Some (delete a H' !! x)) as Hs.
  { intros x Hne [h0 Hx0]. rewrite lookup_delete_ne by done. specialize (Hr x). rewrite Hx0 in Hr. by destruct (H' !! x). }
  constructor.
  - intros x h (_ & h0 & Hx0 & ->)%Hx. eauto.
  - intros x h c (_ & h0 & Hx0 & E)%Hx Hc _. unfold class_list. rewrite E. by apply H2.
  - intros r pg x Hrp Hu Ho. apply Hs; [|eauto]. intros ->. by eapply Hno.
  - exists (A ++ B). split.
    + eapply chain_ext; [|done]. intros x Hxl. unfold reg_nxt. rewrite lookup_delete_ne; [done|]. by intros ->.
    + intros x. split.
      * intros Hxl. apply Hs; [by intros ->|]. apply HL. set_solver.
      * intros [h (Hne & h0 & Hx0 & _)%Hx]. assert (x ∈ A ++ a :: B) as Hi by (apply HL; eauto). set_solver.
  - intros t x [Hne Hx0]%lookup_delete_Some. apply Hs; [|eauto]. intros ->. apply Hne. by eapply H6.
  - intros t t' x [_ ?]%lookup_delete_Some [_ ?]%lookup_delete_Some. by eapply H6.
  - intros x [h (Hne & h0 & Hx0 & _)%Hx]. destruct (H7 x ltac:(eauto)) as [t Htx]. exists t.
    rewrite lookup_delete_ne; [done|]. intros <-. congruence.
Qed.

(** Unmapping the memory of a heap: no other region and no block is in it. *)
Lemma shrunk_heap_mem st a o' g H' :
  mem_ok st → os_shrunk (os st) o' a heap_bytes → is_Some (heaps st !! a) →
  (∀ x, is_Some (H' !! x) ↔ is_Some (heaps st !! x)) →
  let st' := set_heaps (delete a H') (set_os o' (set_heaps H' (set_g_registry g st))) in
  mem_ok st' ∧ same_alloc st st'.
Proof.
  intros H Hs [h Ha] HH st'.
  destruct (os_step_same st st' H eq_refl eq_refl) as [Hbl Hsa].
  { intros x _. simpl. by rewrite (os_sh_bytes _ _ _ _ Hs). }
  destruct (regions_shrink st st' (RHeap a) a heap_bytes (mo_regions H) (mo_count H) Hs) as [HR HC].
  { simpl. by rewrite Ha. }
  { intros t. unfold rset. case_decide as Et; [subst t; simpl; by rewrite lookup_delete_eq|].
    destruct t as [|x| |]; try done. simpl. rewrite lookup_delete_ne by congruence. apply fmap_const_iff, HH. }
  split; [|done]. constructor; try done; try apply H.
  apply (registry_ok_ext st); [apply H|done|done|apply (os_sh_calm _ _ _ _ Hs)].
Qed.

Lemma rest_same_some H H' x : rest_same H H' → is_Some (H' !! x) ↔ is_Some (H !! x).
Proof. intros Hr. specialize (Hr x). destruct (H' !! x), (H !! x); try done; split; eauto. Qed.

(** After the destructor the thread has no heap, the others are untouched and
    so is everything the client holds. *)
Record exited st (tid : nat) st' : Prop := {
  ex_hok : hok None st';
  ex_alloc : same_alloc st st';
  ex_counters : counters_ok st → counters_ok st';
  ex_thread : t_heap st' = delete tid (t_heap st);
  ex_large : large_frame st st'
}.

Lemma exited_none st tid : hok None st → t_heap st !! tid = None → exited st tid st.
Proof. intros H Ht. constructor; try done. by rewrite delete_id. Qed.

(** No page of any class is left: the classes of pages in use are in range. *)
Lemma no_owner_left st a :
  hok None st → (∀ c q, 0 ≤ c < kNumSizeClasses → ¬ owned_in (pages st) a c q) →
  ∀ r pg, pages st !! r = Some pg → pg_in_use pg = true → pg_owner pg ≠ Some (HeapAt a).
Proof.
  intros H Hno r pg Hr Hu Ho. destruct (in_use_at _ _ _ _ H Hr Hu) as (s & i & ->).
  destruct (mo_blocks (hk_mem H) s i pg Hr Hu) as (lf & lt & Hok).
  apply (Hno (pg_size_class pg) (PageAt s i)); [apply Hok|]. by exists pg.
Qed.

Lemma thread_exit_spec st tid : hok None st → wp (thread_exit tid) (λ _ st', exited st tid st') st.
Proof.
  intros H. unfold thread_exit. apply wp_bind, wp_gets. destruct (t_heap st !! tid) as [a|] eqn:Ht.
  2: { apply wp_ret. by apply exited_none. }
  destruct (hi_thread (hk_heaps H) tid a Ht) as [h Ha]. unfold heap_destroy. apply wp_bind, wp_bind.
  eapply wp_mono; [apply (destroy_loop_spec a _ st 0 h); try done; intros; lia|].
  intros [] st1 (H1 & He & Hno). destruct (em_heap _ _ _ He h Ha) as (L0 & Ha1). set (h1 := set_h_pages L0 h) in *.
  destruct (hi_reg (hk_heaps H1)) as (L & Hch & HL).
  destruct (list_elem_of_split L a) as (A & B & ->); [apply HL; eauto|].
  apply wp_bind, wp_gets, wp_bind. change (@None Z) with (last (@nil Z)).
  apply (unlist_loop_spec st1 a h1 A B _ _ [] A); try done.
  { assert (length (A ++ a :: B) ≤ base.size (heaps st1))%nat as Hlen.
    { apply list_length_size; [by eapply chain_NoDup|]. intros x Hx. by apply HL. }
    rewrite length_app in Hlen. simpl in Hlen. lia. }
  intros st2 Hu. destruct (reg_unlinked_chain st1 a h1 A B st2 Ha1 Hch Hu) as (Hch2 & Hr2 & E2).
  set (H2 := heaps st2) in *. set (g2 := g_registry st2) in *. rewrite E2. clear E2 Hu.
  destruct heap_bytes_args as ([Hb0 _] & Hb1 & _). destruct (rg_shape _ _ (mo_regions (hk_mem H1)) (RHeap a) a heap_bytes) as (_ & _ & Hal & _).
  { simpl. by rewrite Ha1. }
  apply wp_bind, wp_in_os. eapply wp_mono; [by apply (os_free_spec a heap_bytes)|].
  intros [] o' Hs. apply wp_modify, wp_modify. simpl in Hs.
  destruct (shrunk_heap_mem st1 a o' g2 H2 (hk_mem H1) Hs ltac:(eauto)) as [Hm3 Hs3].
  { intros x. by apply rest_same_some. }
  destruct He as [E1 E2 E3 E4 E5 [E6 E7 E8]].
  pose proof (heap_inv_destroy _ _ H2 _ g2 _ tid a A B (hk_heaps H1)
    ltac:(by rewrite E5) (no_owner_left st1 a H1 Hno) Hch HL Hch2 Hr2) as HI.
  constructor.
  - constructor; [apply H1| |exact HI]. eapply (mem_ok_change _ _ Hm3); try done; apply Hm3.
  - eapply same_alloc_trans; [exact E1|]. exact Hs3.
  - intros Hcn x hx. simpl. intros [Hne Hx]%lookup_delete_Some. specialize (Hr2 x). rewrite Hx, E2 in Hr2 by done.
    destruct (heaps st !! x) as [h0|] eqn:E0; [|done]. apply (inj Some) in Hr2. unfold h_counts in Hr2. injection Hr2 as _ F1 F2 F3.
    pose proof (Hcn x h0 E0). unfold stats_ok in *. by rewrite F1, F2, F3.
  - simpl. by rewrite E5.
  - by constructor.
Qed.

(** ** Statistics over all heaps *)

Definition hsum (f : Heap → Z) st : Z := msum (λ _ h, f h) (heaps st).

Lemma counts_loop_spec st fuel : ∀ p L m f s,
  chain (reg_nxt (heaps st)) p L → (length L < fuel)%nat →
  counts_loop fuel p (u64 m) (u64 f) (u64 s) st =
    Ok (u64 (m + lsum (λ _, h_n_malloc) (heaps st) L), u64 (f + lsum (λ _, h_n_fast) (heaps st) L),
        u64 (s + lsum (λ _, h_n_slow) (heaps st) L), st).
Proof.
  induction fuel as [|fuel IH]; intros p L m f s Hch Hf; [lia|]. cbn [counts_loop].
  destruct L as [|x L].
  { apply chain_nil in Hch as ->. simpl. by rewrite !Z.add_0_r. }
  destruct Hch as [-> (n & (h & Hx & <-)%reg_nxt_some & Hch)].
  unfold mbind, M_bind, load_heap. rewrite Hx, !u64_add_l, (IH _ L) by (done || simpl in Hf; lia).
  simpl. rewrite Hx. simpl. by rewrite !Z.add_assoc.
Qed.

Lemma heap_global_counts_spec st :
  hok None st →
  heap_global_counts st = Ok (u64 (hsum h_n_malloc st), u64 (hsum h_n_fast st), u64 (hsum h_n_slow st), st).
Proof.
  intros H. destruct (hi_reg (hk_heaps H)) as (L & Hch & HL). pose proof (chain_NoDup _ _ _ Hch) as Hnd.
  unfold heap_global_counts, gets, mbind, M_bind. change 0 with (u64 0).
  rewrite (counts_loop_spec st _ _ L); [|done|].
  - unfold hsum. rewrite !(msum_list _ _ L) by done. done.
  - apply Nat.lt_succ_r, list_length_size; [done|]. intros x Hx. by apply HL.
Qed.
End heap_exit.
