(* ===== verification/LargeSpec.v ===== *)
(** * The large path: alloc_large, free_large and the invariant of the API *)
From Stdlib Require Import ZArith Lia.
From stdpp Require Import base numbers list gmap.
From S2P Require Import Prelude Words Constants SizeClass Segment Memory Os Chains Sums RegionRegistry State Regions PageOps Allocated Central CentralInv CentralSpec PoolSpec CentralOps Acquire Heap Hmalloc HeapInv HeapLinks HeapSpec HeapCreate HeapMalloc HeapFree HeapExit.

Section large_spec.
Context {K : Kernel} {KL : KernelLaws K} {Lg : Ledger} {C : Config}.
Implicit Types (st : State).

(** The invariant of the whole allocator between calls. *)
Record inv st : Prop := {
  iv_hok : hok None st;
  iv_counters : counters_ok st;
  iv_count : g_large_count st = u64 (msum (λ _ _, 1) (larges st));
  iv_bytes : g_large_bytes st = u64 (msum (λ _, lh_mmap_size) (larges st))
}.
#[global] Arguments iv_hok {st} _.
#[global] Arguments iv_counters {st} _.
#[global] Arguments iv_count {st} _.
#[global] Arguments iv_bytes {st} _.

(** The stores the small path is made of. *)
Definition small_same st st' : Prop :=
  segs st' = segs st ∧ pages st' = pages st ∧ central st' = central st ∧ heaps st' = heaps st ∧
  g_registry st' = g_registry st ∧ t_heap st' = t_heap st.

Lemma hok_small Ex st st' : hok Ex st → small_same st st' → mem_ok st' → hok Ex st'.
Proof.
  intros [[H1 H1'] H2 H3] (E1 & E2 & E3 & E4 & E5 & E6) Hm. constructor; [split|done|].
  - by rewrite E1, E2, E3.
  - by rewrite E1, E3.
  - by rewrite E2, E4, E5, E6.
Qed.

Lemma counters_small_same st st' : counters_ok st → small_same st st' → counters_ok st'.
Proof. intros H (_ & _ & _ & E & _). unfold counters_ok. by rewrite E. Qed.

(** ** The geometry of a large region *)

Lemma segment_pow2 : pow2 SEGMENT_SIZE.
Proof. exists 22. split; [lia|reflexivity]. Qed.

Lemma align16_pow2 : pow2 ALLOC_ALIGN.
Proof. exists 4. split; [lia|reflexivity]. Qed.

Definition large_offset (align : Z) : Z :=
  if ALLOC_ALIGN <? align then round_up LARGE_OFFSET align else LARGE_OFFSET.

Lemma large_offset_ok align :
  pow2 align → align ≤ SEGMENT_SIZE / 2 →
  LARGE_OFFSET ≤ large_offset align < SEGMENT_SIZE ∧ large_offset align mod ALLOC_ALIGN = 0 ∧
  large_offset align mod align = 0.
Proof.
  intros Hp Hle. pose proof (pow2_pos _ Hp) as Hpos. rewrite LARGE_OFFSET_eq. unfold large_offset. rewrite LARGE_OFFSET_eq.
  assert (ALLOC_ALIGN = 16) as Ea by reflexivity. assert (SEGMENT_SIZE = 4194304) as Es by reflexivity.
  assert (SEGMENT_SIZE / 2 = 2097152) as Eh by reflexivity.
  destruct (Z.ltb_spec ALLOC_ALIGN align) as [Hlt|Hge].
  - destruct (align_up_spec 32 align Hp) as [H1 H2]; [lia..|]. change (align_up 32 align) with (round_up 32 align) in *.
    split_and!; try lia. apply mod_0_trans with align; try lia. apply pow2_divide; [apply align16_pow2|done|lia].
  - split_and!; try lia; [by rewrite Ea|]. apply mod_0_trans with 16; [lia..| |done].
    apply pow2_divide; [done|apply align16_pow2|lia].
Qed.

(** A large base as a region base. *)
Lemma large_seg_base st b h : mem_ok st → larges st !! b = Some h → seg_base b.
Proof.
  intros H Hh. destruct (mo_large H b h Hh) as [L1 L2 L3 L4 L5 L6 L7].
  destruct (rg_shape _ _ (mo_regions H) (RLarge b) b (lh_mmap_size h)) as (S1 & S2 & _); [simpl; by rewrite Hh|].
  split_and!; try done. assert (SEGMENT_SIZE = 4194304) as E by reflexivity. rewrite E in *.
  apply mod_0_mul in L2 as [q ->]; [|lia]. lia.
Qed.

(** The header of a large pointer is found by the mask. *)
Lemma large_base st b h : mem_ok st → larges st !! b = Some h → region_base (b + lh_offset h) = b.
Proof.
  intros H Hh. apply region_base_off; [by eapply large_seg_base|].
  destruct (mo_large H b h Hh). rewrite LARGE_OFFSET_eq in *. lia.
Qed.

(** ** A new large region *)

Lemma grown_large_mem st o' b h :
  mem_ok st → os_grown (os st) o' b (lh_mmap_size h) → b mod SEGMENT_SIZE = 0 →
  lh_mmap_size h mod os_page_size = 0 → large_ok b h →
  let st' := set_larges (<[b := h]> (larges st)) (set_os o' st) in
  mem_ok (Lg:=unknown) st' ∧ lists_others st' b ∧ larges st !! b = None ∧
  alloc_plus st st' (b + lh_offset h) (lh_mmap_size h - lh_offset h).
Proof.
  intros H Hg Hal Hpm Hlo st'. pose proof Hlo as [L1 L2 L3 L4 L5 L6 L7]. rewrite LARGE_OFFSET_eq in *.
  assert (larges st !! b = None) as Hn.
  { destruct (larges st !! b) as [hx|] eqn:E; [|done]. exfalso.
    apply (grown_new st o' b (lh_mmap_size h) (RLarge b) b (lh_mmap_size hx) H Hg ltac:(lia)); [|done]. simpl. by rewrite E. }
  destruct (os_step_same st (set_os o' st) H eq_refl eq_refl (og_frame _ _ _ _ Hg)) as [Hbl [Hsa Hsb]].
  destruct (regions_grow st st' (RLarge b) b (lh_mmap_size h) (mo_regions H) (mo_count H) Hg) as [HR HC]; try done.
  { lia. }
  { apply mod_0_trans with SEGMENT_SIZE; try done; [pose proof page_size_range; lia|apply segment_page_multiple]. }
  { simpl. by rewrite Hn. }
  { intros t. unfold rset. case_decide as Et; [subst t; simpl; by rewrite lookup_insert_eq|].
    destruct t as [| |x|]; try done. simpl. rewrite lookup_insert_ne by congruence. done. }
  split_and!; [| |done|].
  - constructor; try done; try apply H.
    + destruct (mo_registry H) as (X & ? & ? & HX & _). exists X. split_and!; try done. intros x Hx. unfold is_region. simpl.
      destruct (HX x Hx) as [|Hl]; [by left|right]. rewrite lookup_insert. case_decide; eauto.
    + intros x hx. simpl. rewrite lookup_insert. case_decide; [intros [= <-]; by subst|apply (mo_large H)].
  - apply (registry_others st); [apply H|done| |apply (og_calm _ _ _ _ Hg)]. intros x. unfold is_region. simpl. rewrite lookup_insert.
    case_decide; [subst; split; eauto|naive_solver].
  - split_and!.
    + intros n Hax. pose proof (allocated_pos _ _ _ H Hax) as [_ Hpos].
      pose proof (allocated_mapped _ _ _ (b + lh_offset h) H Hax ltac:(lia)) as Hm.
      rewrite (og_fresh _ _ _ _ Hg) in Hm; [done|]. apply in_range_true. lia.
    + intros b' n'. rewrite <-(Hsa b' n'). unfold allocated, large_alloc. simpl. split.
      * intros [Hs|(base & hx & Hx & E1 & E2)]; [by right; left|].
        rewrite lookup_insert in Hx. case_decide; [injection Hx as <-; subst; by left|].
        right; right. by exists base, hx.
      * intros [[-> ->]|[Hs|(base & hx & Hx & E1 & E2)]]; [right|by left|right].
        -- exists b, h. by rewrite lookup_insert_eq.
        -- exists base, hx. split; [|done]. rewrite lookup_insert_ne; [done|]. intros <-. congruence.
    + exact Hsb.
Qed.

(** The counters follow the headers. *)
Definition large_counts st : Prop :=
  g_large_count st = u64 (msum (λ _ _, 1) (larges st)) ∧
  g_large_bytes st = u64 (msum (λ _, lh_mmap_size) (larges st)).

Lemma inv_intro st : hok None st → counters_ok st → large_counts st → inv st.
Proof. intros H1 H2 [H3 H4]. by constructor. Qed.

Lemma inv_counts st : inv st → large_counts st.
Proof. intros []. done. Qed.

(** [n] usable bytes at [b], at least [size] of them, aligned. *)
Definition got st (size align b : Z) st' : Prop :=
  ∃ n, alloc_plus st st' b n ∧ size ≤ n ∧ b mod align = 0 ∧ b mod ALLOC_ALIGN = 0 ∧ b + n ≤ 2 ^ 64.

Definition zeroed st' (b : Z) (size : Z) : Prop :=
  ∀ x, b ≤ x < b + size → byte_at (bytes (os st')) x = 0.

(** Past both overflow tests the sizes are exact. *)
Lemma large_size_exact off size :
  0 ≤ off < SEGMENT_SIZE → 0 < size < 2 ^ 64 → size ≤ u64 (off + size) →
  u64 (off + size) ≤ round_up (u64 (off + size)) os_page_size →
  let msz := round_up (u64 (off + size)) os_page_size in
  off + size ≤ msz < 2 ^ 64 ∧ msz mod os_page_size = 0.
Proof.
  intros Hoff Hsz Hov. assert (SEGMENT_SIZE = 4194304) as Es by reflexivity. pose proof page_size_range as Hpr.
  assert (u64 (off + size) = off + size) as Et.
  { apply u64_small. split; [lia|]. destruct (Z.lt_ge_cases (off + size) (2 ^ 64)) as [|Hge]; [done|exfalso].
    unfold u64 in Hov. rewrite <-(Z_mod_plus_full _ (-1)), Z.mod_small in Hov; lia. }
  rewrite Et. intros Hru. remember (off + size) as total eqn:Etot.
  assert (0 ≤ total < 2 ^ 64) as Htot by (rewrite <-Et; apply u64_range).
  change (round_up total os_page_size) with (align_up total os_page_size) in *.
  assert (total + (os_page_size - 1) < 2 ^ 64) as Hfit.
  { destruct (Z.lt_ge_cases (total + (os_page_size - 1)) (2 ^ 64)) as [|Hge]; [done|exfalso].
    pose proof (align_up_wrap total os_page_size page_size_pow2 Htot Hge). lia. }
  destruct (align_up_spec total os_page_size page_size_pow2 ltac:(lia) Hfit) as [Hpm Hrange].
  pose proof (align_up_range total os_page_size). split_and!; (done || lia).
Qed.

(** The tail of alloc_large on a fresh mapping. *)
Definition install_large (mem msz off size : Z) : M State (option Z) :=
  modify (λ st, set_larges (<[mem := mkLargeHeader Large msz off size]> (larges st)) st);;
  modify (λ st, set_g_large_count (u64 (g_large_count st + 1)) st);;
  modify (λ st, set_g_large_bytes (u64 (g_large_bytes st + msz)) st);;
  in_registry (region_register mem);;
  mret (Some (u64 (mem + off))).

Lemma install_large_spec st o' b msz off size align :
  inv st → reg_room (registry st) → 0 < size → off + size ≤ msz → msz mod os_page_size = 0 →
  LARGE_OFFSET ≤ off < SEGMENT_SIZE → off mod ALLOC_ALIGN = 0 → off mod align = 0 → pow2 align →
  align ≤ SEGMENT_SIZE → b mod SEGMENT_SIZE = 0 → os_grown (os st) o' b msz →
  wp (install_large b msz off size) (λ x st', inv st' ∧ ∃ p, x = Some p ∧ got st size align p st' ∧ zeroed st' p size)
    (set_os o' st).
Proof.
  intros H Hroom Hsz Hfit Hpm Hoff H16 Hal Hp Hle Hba Hg. pose proof (hk_mem (iv_hok H)) as Hm.
  pose proof (og_pos _ _ _ _ Hg) as Hb0. pose proof (og_end _ _ _ _ Hg) as Hbe. rewrite LARGE_OFFSET_eq in *.
  set (h := mkLargeHeader Large msz off size).
  assert (large_ok b h) as Hlo by (constructor; simpl; rewrite ?LARGE_OFFSET_eq; try done; lia).
  destruct (grown_large_mem st o' b h Hm Hg Hba Hpm Hlo) as (Hm1 & Hl1 & Hn & Hplus).
  unfold install_large. do 3 apply wp_bind, wp_modify. apply wp_bind.
  set (st1 := set_larges (<[b := h]> (larges st)) (set_os o' st)) in *.
  assert (∀ st2, st2 = set_g_large_bytes (u64 (g_large_bytes st + msz)) (set_g_large_count (u64 (g_large_count st + 1)) st1) →
    mem_ok (Lg:=unknown) st2 ∧ same_alloc st1 st2) as Hst2.
  { intros st2 ->. split; [|by apply same_alloc_view]. apply (mem_ok_change (Lg:=unknown) st1); try done; apply Hm1. }
  eapply register_mem; [by apply Hst2|exact Hl1|done| |right; simpl; rewrite lookup_insert_eq; eauto|].
  { split; [lia|done]. }
  intros reg' o2 st3 Hm3 Hs3. apply wp_ret. rewrite u64_small by lia.
  destruct (Hst2 _ eq_refl) as [_ Hs2]. pose proof (same_alloc_trans _ _ _ Hs2 Hs3) as Hs13.
  split; [|exists (b + off); split; [done|split]].
  - apply inv_intro; [eapply (hok_small None st); [apply H|done|done]|eapply (counters_small_same st); [apply H|done]|].
    split; simpl; rewrite msum_insert_new by done; rewrite ?(iv_count H), ?(iv_bytes H), u64_add_l; f_equal; simpl; lia.
  - exists (lh_mmap_size h - lh_offset h). split; [by eapply alloc_plus_then; [exact Hplus|]|]. simpl. split_and!; try lia.
    + apply mod_0_add; [|done]. apply mod_0_trans with SEGMENT_SIZE; try done; [by apply pow2_pos|].
      apply pow2_divide; [done|apply segment_pow2|lia].
    + apply mod_0_add; [|done]. by apply mod_0_trans with SEGMENT_SIZE.
  - intros x Hx. destruct Hs13 as [_ Hby]. rewrite (Hby (b + off) (msz - off)); [|right; exists b, h; simpl; by rewrite lookup_insert_eq|lia].
    simpl. apply (og_zero _ _ _ _ Hg). apply in_range_true. lia.
Qed.

Lemma alloc_large_spec st size align :
  inv st → reg_room (registry st) → 0 < size < 2 ^ 64 → pow2 align → align ≤ SEGMENT_SIZE / 2 →
  wp (alloc_large size align) (λ x st', inv st' ∧ match x with
    | Some b => got st size align b st' ∧ zeroed st' b size
    | None => same_alloc st st'
    end) st.
Proof.
  intros H Hroom Hsz Hp Hle. destruct (large_offset_ok align Hp Hle) as (Hoff & H16 & Hal).
  assert (SEGMENT_SIZE / 2 = 2097152) as Eh by reflexivity. assert (SEGMENT_SIZE = 4194304) as Es by reflexivity.
  assert (LARGE_OFFSET = 32) as El by apply LARGE_OFFSET_eq.
  unfold alloc_large. cbv zeta. fold (large_offset align). set (off := large_offset align) in *.
  destruct (Z.ltb_spec (u64 (off + size)) size) as [_|Hov]; [by apply wp_ret|].
  destruct (Z.ltb_spec (round_up (u64 (off + size)) os_page_size) (u64 (off + size))) as [_|Hru]; [by apply wp_ret|].
  destruct (large_size_exact off size ltac:(lia) Hsz Hov Hru) as [Hfit Hpm].
  set (msz := round_up (u64 (off + size)) os_page_size) in *. apply wp_bind, wp_in_os. eapply wp_mono.
  { apply os_alloc_aligned_spec. split_and!; try lia; try done; [apply segment_pow2|apply segment_page_multiple]. }
  intros [b|] o' Hr; simpl in Hr.
  - destruct Hr as [Hba Hg]. eapply wp_mono; [apply (install_large_spec st o' b msz off size align); try done; lia|].
    intros x st' (Hi & p & -> & Hgz). done.
  - apply wp_ret. pose proof (os_unchanged_frame st o' (hk_central (iv_hok H)) (hk_mem (iv_hok H)) (proj1 Hr)) as Hf.
    split; [|apply Hf]. apply inv_intro; [by eapply hok_central_frame; [apply H|]|apply H|apply (inv_counts st H)].
Qed.

(** ** Freeing a large region *)

Lemma unlarge_mem st b h reg' o' :
  mem_ok st → larges st !! b = Some h → os_shrunk (os st) o' b (lh_mmap_size h) →
  reg_region reg' = reg_region (registry st) →
  (∃ X, reg_wf (registry st) X ∧ (∀ x, x ∈ X → is_region st x) ∧ promised st X ∧
     reg_wf reg' (X ∖ {[b]}) ∧ (slots reg' = None ↔ slots (registry st) = None) ∧ reg_room1 reg' ∧
     (reg_room (registry st) → reg_room reg')) →
  let st' := set_larges (delete b (larges st)) (set_os o' (set_registry reg' st)) in
  mem_ok st' ∧ alloc_minus st st' (b + lh_offset h).
Proof.
  intros H Hh Hs Er (X & Hwf & HX & HL & Hwf' & Hsl & Hrm & Hrm') st'.
  assert (∀ x, mapped (os st) x = true → byte_at (bytes o') x = byte_at (bytes (os st)) x) as Hby.
  { intros x _. by rewrite (os_sh_bytes _ _ _ _ Hs). }
  destruct (os_step_same st (set_os o' st) H eq_refl eq_refl Hby) as [Hbl [Hsa Hsb]].
  destruct (regions_shrink st st' (RLarge b) b (lh_mmap_size h) (mo_regions H) (mo_count H) Hs) as [HR HC].
  { simpl. by rewrite Hh. }
  { intros t. unfold rset. case_decide as Et; [subst t; simpl; by rewrite lookup_delete_eq|].
    destruct t as [| |x|]; try done. simpl. rewrite lookup_delete_ne by congruence. done. }
  split; [constructor; try exact HR; try exact HC|split].
  - eapply (registry_drop st _ X b); try done; [|exact (os_sh_calm _ _ _ _ Hs)]. intros x. unfold is_region. simpl.
    destruct (decide (x = b)) as [->|Hx]; [|by rewrite lookup_delete_ne by congruence; naive_solver].
    rewrite lookup_delete_eq, (large_not_seg st b h H Hh). split; [intros [[]|[]]; done|naive_solver].
  - done.
  - apply (mo_segs H).
  - intros x hx. simpl. intros [_ Hx]%lookup_delete_Some. by apply (mo_large H).
  - intros b' n'. split.
    + intros [Hsm|(base & hx & Hx & -> & ->)]; [|simpl in Hx; apply lookup_delete_Some in Hx as [Hne Hx]].
      * assert (allocated st b' n') as Hal by (apply Hsa; by left). split; [done|]. intros ->.
        destruct (allocated_disjoint st (b + lh_offset h) (lh_mmap_size h - lh_offset h) (b + lh_offset h) n' H) as [[_ ->]|Hd]; [right; by exists b, h|done| |].
        -- destruct Hsm as (s & i & pg & lf & lt & Hpg & Hu & Hok & Hl & En).
           pose proof (large_outside st s i pg b h H Hpg (po_geom Hok) Hh). simpl in Hok.
           pose proof (live_in_area _ _ _ _ _ _ _ Hok Hl). pose proof (block_size_bounds _ _ _ (po_geom Hok)).
           destruct (mo_large H b h Hh). rewrite LARGE_OFFSET_eq in *. lia.
        -- destruct (mo_large H b h Hh). pose proof (allocated_pos st _ _ H Hal). lia.
      * split; [right; by exists base, hx|]. intros E.
        destruct (allocated_disjoint st (b + lh_offset h) (lh_mmap_size h - lh_offset h) (base + lh_offset hx) (lh_mmap_size hx - lh_offset hx) H) as [[_ En]|Hd].
        -- right. by exists b, h.
        -- right. by exists base, hx.
        -- pose proof (large_base st b h H Hh) as E1. pose proof (large_base st base hx H Hx) as E2. congruence.
        -- destruct (mo_large H b h Hh), (mo_large H base hx Hx). lia.
    + intros [Hal Hne]. apply Hsa in Hal as [Hsm|(base & hx & Hx & -> & ->)]; [by left|right].
      exists base, hx. split; [|done]. simpl in *. rewrite lookup_delete_ne; [done|]. intros <-. rewrite Hh in Hx. by injection Hx as <-.
  - intros b' n' Hal _. by apply Hsb.
Qed.
End large_spec.
