(* ===== verification/HmallocSpec.v ===== *)
(** * The public API meets its contract *)
From Stdlib Require Import ZArith Lia.
From stdpp Require Import base numbers list gmap.
From S2P Require Import Prelude Words Constants SizeClass Segment Memory Os Chains Sums RegionRegistry State Regions PageOps Allocated Central CentralInv CentralSpec PoolSpec CentralOps Acquire Heap Hmalloc HeapInv HeapLinks HeapSpec HeapCreate HeapMalloc HeapFree HeapExit LargeSpec.

Section hmalloc_spec.
Context {K : Kernel} {KL : KernelLaws K} {Lg : Ledger} {C : Config}.
Implicit Types (st : State).

(** What an allocating call relies on: the registry has a free slot for one more
    region, and the thread has its heap or the kernel grants it one. *)
Definition may_alloc (tid : nat) st : Prop := reg_room (registry st) ∧ ¬ null_heap tid st.

(** ** Allocations *)

Lemma allocated_cases st b n :
  allocated st b n → (∃ s i pg, live_at st s i pg b ∧ n = pg_block_size pg) ∨ large_alloc st b n.
Proof.
  intros [(s & i & pg & lf & lt & Hpg & Hu & Hok & Hl & ->)|Hl]; [left|by right].
  exists s, i, pg. split; [|done]. split_and!; eauto.
Qed.

Lemma live_at_alloc st s i pg b : live_at st s i pg b → allocated st b (pg_block_size pg).
Proof. intros (Hpg & Hu & lf & lt & Hok & Hl). by eapply live_allocated. Qed.

(** Blocks of a page are as aligned as its block size. *)
Lemma live_at_aligned st s i pg b align :
  live_at st s i pg b → 0 < align → pg_block_size pg mod align = 0 → PAGE_SIZE mod align = 0 → b mod align = 0.
Proof.
  intros (Hpg & Hu & lf & lt & Hok & Hl) Ha Hbs Hps. destruct Hl as [(k & -> & _)%elem_of_carved _].
  pose proof (po_geom Hok) as [G1 G2 G3 _ _ _]. rewrite G3. unfold page_area. destruct G1 as (_ & Hs & _).
  apply mod_0_add; [apply mod_0_add|]; [|by apply mod_0_mul_r..].
  apply mod_0_trans with SEGMENT_SIZE; try done. apply mod_0_trans with PAGE_SIZE; done.
Qed.

Lemma allocated_aligned st b n :
  mem_ok st → allocated st b n → b mod ALLOC_ALIGN = 0 ∧ b + n ≤ 2 ^ 64.
Proof.
  intros H [(s & i & pg & Hl & ->)|(base & h & Hh & -> & ->)]%allocated_cases.
  - pose proof Hl as (Hpg & Hu & lf & lt & Hok & Hlv). split.
    + eapply live_at_aligned; [done|done|apply (block_size_bounds _ _ _ (po_geom Hok))|done].
    + pose proof (live_in_area _ _ _ _ _ _ _ Hok Hlv). pose proof (area_bounds _ _ _ (po_geom Hok)). lia.
  - destruct (mo_large H base h Hh). split.
    + apply mod_0_add; [|done]. by apply mod_0_trans with SEGMENT_SIZE.
    + destruct (rg_shape _ _ (mo_regions H) (RLarge base) base (lh_mmap_size h)) as (_ & ? & _); [simpl; by rewrite Hh|]. lia.
Qed.

(** The size of an allocation is determined by its address. *)
Lemma allocated_unique st b n n' : mem_ok st → allocated st b n → allocated st b n' → n' = n.
Proof.
  intros H H1 H2. pose proof (allocated_pos _ _ _ H H1). pose proof (allocated_pos _ _ _ H H2).
  destruct (allocated_disjoint st b n b n' H H1 H2) as [[_ ->]|]; [done|lia].
Qed.

(** ** The kind tag *)

Lemma kind_small st s i pg p : inv st → live_at st s i pg p → wp (kind_of p) (λ k st', k = Small ∧ st' = st) st.
Proof.
  intros H Hl. pose proof (live_page_of _ _ _ _ _ Hl) as E. injection E as Es _. unfold segment_of in Es.
  pose proof Hl as (Hpg & _). destruct (mo_segs (hk_mem (iv_hok H)) s i) as [g Hg]; [eauto|].
  unfold kind_of. apply wp_bind, wp_gets. rewrite Es, Hg. apply wp_ret. split; [|done].
  apply (co_seg (proj1 (hk_central (iv_hok H))) s g Hg).
Qed.

Lemma kind_large st b h :
  inv st → larges st !! b = Some h → wp (kind_of (b + lh_offset h)) (λ k st', k = Large ∧ st' = st) st.
Proof.
  intros H Hh. pose proof (hk_mem (iv_hok H)) as Hm. unfold kind_of. apply wp_bind, wp_gets.
  rewrite (large_base st b h Hm Hh), (large_not_seg st b h Hm Hh). unfold load_large.
  apply wp_bind, wp_bind, wp_gets. eapply wp_deref; [done|]. apply wp_ret. split; [|done]. apply (mo_large Hm b h Hh).
Qed.

(** ** hm_free *)

Lemma free_large_spec st b h :
  inv st → larges st !! b = Some h →
  wp (free_large (b + lh_offset h)) (λ _ st', inv st' ∧ alloc_minus st st' (b + lh_offset h)) st.
Proof.
  intros H Hh. pose proof (hk_mem (iv_hok H)) as Hm. pose proof (large_seg_base st b h Hm Hh) as Hsb.
  unfold free_large. cbv zeta. rewrite (large_base st b h Hm Hh). unfold load_large.
  apply wp_bind, wp_bind, wp_gets. eapply wp_deref; [done|]. do 2 apply wp_bind, wp_modify. apply wp_bind, wp_in_registry.
  destruct (mo_registry Hm) as (X & Hwf & Hroom & HX & HL). cbn [registry os set_g_large_bytes set_g_large_count]. eapply wp_mono.
  { apply (region_unregister_spec (registry st) (os st) X b); [done|by apply seg_base_not_tomb|auto]. }
  intros _ [reg' o1] (Ho & Hwf' & Hreg & Hcap & Hsz). simpl in Ho, Hwf', Hreg, Hcap, Hsz. subst o1.
  destruct (rg_shape _ _ (mo_regions Hm) (RLarge b) b (lh_mmap_size h)) as (S1 & S2 & S3 & S4); [simpl; by rewrite Hh|].
  apply wp_bind, wp_in_os. cbn [os set_registry set_os fst snd]. eapply wp_mono; [by apply (os_free_spec b (lh_mmap_size h))|].
  intros [] o' Hshr. apply wp_modify.
  assert (slots reg' = None ↔ slots (registry st) = None) as Hsl.
  { unfold reg_region in Hreg. destruct (slots reg') as [[]|], (slots (registry st)) as [[]|]; done. }
  destruct (unlarge_mem st b h reg' o' Hm Hh Hshr Hreg) as [Hm' Ham].
  { exists X. destruct (reg_room_kept _ _ Hsl Hcap Hsz). split_and!; auto. }
  split; [|exact Ham]. apply inv_intro.
  - eapply (hok_small None st); [apply H|done|]. eapply (mem_ok_change _ _ Hm'); try done; apply Hm'.
  - eapply (counters_small_same st); [apply H|done].
  - split; simpl; [rewrite (iv_count H), (msum_delete _ _ b h Hh)|rewrite (iv_bytes H), (msum_delete _ _ b h Hh)];
      rewrite u64_sub_l; f_equal; lia.
Qed.

(** The invariant of the API from that of the heaps. *)
Lemma inv_others st st' : inv st → hok None st' → others_same st st' → inv st'.
Proof.
  intros H Hk [E1 E2 E3 E4 E5 E6]. constructor; [done|unfold counters_ok; rewrite E1; apply H|..].
  - rewrite E5, E4. apply H.
  - rewrite E6, E4. apply H.
Qed.

Lemma hm_free_spec st tid p n :
  inv st → allocated st p n → wp (hm_free tid (Some p)) (λ _ st', inv st' ∧ alloc_minus st st' p) st.
Proof.
  intros H [(s & i & pg & Hl & ->)|(b & h & Hh & -> & ->)]%allocated_cases; simpl; apply wp_bind.
  - eapply wp_mono; [by eapply kind_small|]. intros k st' [-> ->]. rewrite bool_decide_false by done.
    eapply wp_mono; [by apply (heap_free_spec st tid s i pg p (iv_hok H))|].
    intros [] st1 (H1 & Ha & Ho). split; [by eapply inv_others|done].
  - eapply wp_mono; [by eapply kind_large|]. intros k st' [-> ->]. rewrite bool_decide_true by done.
    by apply free_large_spec.
Qed.

(** ** hm_malloc *)

Lemma inv_done st tid c x st' : inv st → malloc_done st tid c x st' → inv st'.
Proof.
  intros H [D1 _ D2 D3 D4 D5 [L1 L2 L3]]. constructor; [done|apply D2, H|..].
  - rewrite L2, L1. apply H.
  - rewrite L3, L1. apply H.
Qed.

Definition alloc_post st (size align : Z) (x : option Z) st' : Prop :=
  inv st' ∧ match x with
  | Some b => got st size align b st'
  | None => same_alloc st st'
  end.

(** A block from the thread heap, aligned as far as the class allows. *)
Lemma heap_malloc_post st tid size c bs align :
  inv st → may_alloc tid st → size_class size = Some c → class_to_size c = Some bs → 0 ≤ c < kNumSizeClasses →
  0 < align → bs mod align = 0 → PAGE_SIZE mod align = 0 → ∀ need, need ≤ bs →
  wp (heap_malloc tid size) (alloc_post st need align) st.
Proof.
  intros H [Hroom Hnn] Hsz Hbs Hc Ha Hm Hps need Hneed.
  eapply wp_mono; [by apply (heap_malloc_spec st tid size c (iv_hok H))|]. intros x st' Hd.
  split; [by eapply inv_done|]. pose proof (md_result _ _ _ _ _ Hd) as Hr. destruct x as [b|]; [|done].
  destruct Hr as (bs' & Hbs' & Hp). simplify_eq. pose proof (hk_mem (md_hok _ _ _ _ _ Hd)) as Hm'.
  assert (allocated st' b bs) as Hal by (apply Hp; by left). exists bs. split; [done|]. split; [done|].
  destruct (allocated_aligned st' b bs Hm' Hal) as [H16 Hend]. split_and!; try done.
  apply allocated_cases in Hal as [(s & i & pg & Hl & E)|Hlg].
  - eapply live_at_aligned; [done..|by rewrite <-E|done].
  - exfalso. destruct Hp as [Hf _]. apply (Hf bs). right. unfold large_alloc in *.
    by rewrite (lf_larges _ _ (md_large _ _ _ _ _ Hd)) in Hlg.
Qed.

Lemma hm_malloc_spec st tid size :
  inv st → may_alloc tid st → 0 ≤ size < 2 ^ 64 → wp (hm_malloc tid size) (alloc_post st size ALLOC_ALIGN) st.
Proof.
  intros H Hma Hsz. unfold hm_malloc. destruct (Z.eqb_spec size 0) as [->|Hne]; [by apply wp_ret|].
  destruct (Z.leb_spec size SMALL_SIZE_MAX) as [Hle|Hgt].
  - destruct (size_class_request size ltac:(lia)) as (c & s & Hc & Hr & Hs & Hf & _ & Hm).
    by eapply (heap_malloc_post st tid size c s).
  - eapply wp_mono; [apply (alloc_large_spec st size ALLOC_ALIGN H (proj1 Hma)); try lia; [apply align16_pow2|done]|].
    intros [b|] st' [Hi Hr]; (split; [done|]); [apply Hr|done].
Qed.

(** ** Writes of the client *)

Lemma page_ok_links m m' s i pg lf lt :
  page_ok m s i pg lf lt → (∀ x y, x ∈ lf ++ lt → x ≤ y < x + 8 → byte_at m' y = byte_at m y) →
  page_ok m' s i pg lf lt.
Proof.
  intros [H1 H2 H3 H4 H5 H6 H7] Hx. constructor; try done.
  - eapply chain_ext; [|done]. intros x Hxl. unfold bnext. f_equal. apply load_ptr_ext.
    intros y Hy. apply (Hx x); [set_solver|done].
  - eapply chain_ext; [|done]. intros x Hxl. unfold bnext. f_equal. apply load_ptr_ext.
    intros y Hy. apply (Hx x); [set_solver|done].
Qed.

(** An allocation shares no byte with a block on a free list. *)
Lemma free_block_apart st b n s i pg lf lt x :
  mem_ok st → allocated st b n → pages st !! PageAt s i = Some pg → page_ok (bytes (os st)) s i pg lf lt →
  x ∈ lf ++ lt → b + n ≤ x ∨ x + 8 ≤ b.
Proof.
  intros H Hal Hpg Hok Hx. pose proof (po_blocks Hok x Hx) as Hc. pose proof (carved_in_area _ _ _ _ _ _ x Hok Hc).
  pose proof (block_size_bounds _ _ _ (po_geom Hok)). apply allocated_cases in Hal as [(s' & i' & pg' & Hl & ->)|(base & h & Hh & -> & ->)].
  - pose proof Hl as (Hpg' & _ & lf' & lt' & Hok' & Hlb). pose proof (live_in_area _ _ _ _ _ _ _ Hok' Hlb).
    destruct (decide ((s, i) = (s', i'))) as [[= <- <-]|Hne].
    + simplify_eq. destruct (page_ok_det _ _ _ _ _ _ _ _ Hok Hok') as [-> ->]. destruct Hlb as (Hbc & Hb1 & Hb2).
      assert (b ≠ x) as Hbx by (intros ->; by apply elem_of_app in Hx as [?|?]). pose proof (carved_apart s i pg b x (po_geom Hok) Hbc Hc Hbx). lia.
    + pose proof (areas_apart _ _ _ _ _ _ (po_geom Hok) (po_geom Hok') Hne). lia.
  - pose proof (large_outside st s i pg base h H Hpg (po_geom Hok) Hh).
    destruct (mo_large H base h Hh). rewrite LARGE_OFFSET_eq in *. lia.
Qed.

(** The client may write anything into what it holds. *)
Definition with_bytes st (m : gmap Z Z) : State := set_os (set_bytes m (os st)) st.

Lemma client_write_spec st b n m' :
  inv st → allocated st b n → (∀ x, ¬ (b ≤ x < b + n) → byte_at m' x = byte_at (bytes (os st)) x) →
  inv (with_bytes st m') ∧ (∀ b' n', allocated (with_bytes st m') b' n' ↔ allocated st b' n') ∧
  (∀ b' n', allocated st b' n' → b' ≠ b → same_bytes st (with_bytes st m') b' n').
Proof.
  intros H Hal Hout. pose proof (hk_mem (iv_hok H)) as Hm.
  assert (∀ s i pg lf lt, pages st !! PageAt s i = Some pg → pg_in_use pg = true →
    page_ok m' s i pg lf lt ↔ page_ok (bytes (os st)) s i pg lf lt) as Hok.
  { intros s i pg lf lt Hpg Hu. destruct (mo_blocks Hm s i pg Hpg Hu) as (lf0 & lt0 & Hok0).
    assert (page_ok m' s i pg lf0 lt0) as Hok1.
    { eapply page_ok_links; [done|]. intros x y Hx Hy. apply Hout.
      pose proof (free_block_apart st b n s i pg lf0 lt0 x Hm Hal Hpg Hok0 Hx). lia. }
    split; intros Hp.
    - by destruct (page_ok_det _ _ _ _ _ _ _ _ Hok1 Hp) as [-> ->].
    - by destruct (page_ok_det _ _ _ _ _ _ _ _ Hok0 Hp) as [-> ->]. }
  split_and!.
  - apply inv_intro; [eapply (hok_small None st); [apply H|done|]|eapply (counters_small_same st); [apply H|done]|apply (inv_counts st H)].
    constructor; try apply Hm; [eapply regions_ok_same; [|apply Hm]; done| |by apply (counted_same st); [apply Hm|..]].
    intros s i pg Hpg Hu. destruct (mo_blocks Hm s i pg Hpg Hu) as (lf & lt & Hp).
    exists lf, lt. by apply (Hok s i pg lf lt Hpg Hu).
  - intros b' n'. unfold allocated. apply or_iff_compat_r. unfold small_alloc.
    split; intros (s & i & pg & lf & lt & Hpg & Hu & Hp & Hr); exists s, i, pg, lf, lt;
      (split; [done|split; [done|split; [by apply (Hok s i pg lf lt Hpg Hu)|done]]]).
  - intros b' n' Hal' Hne x Hx. apply Hout. destruct (allocated_disjoint st b n b' n' Hm Hal Hal') as [[-> _]|]; [done|lia].
Qed.
End hmalloc_spec.
