(* ===== verification/ApiSpec.v ===== *)
(** * hm_calloc, hm_usable_size, hm_realloc, hm_aligned_alloc and hm_stats *)
From Stdlib Require Import ZArith Lia.
From stdpp Require Import base numbers list gmap.
From S2P Require Import Prelude Words Constants SizeClass Segment Memory Os Chains Sums RegionRegistry State Regions PageOps Allocated Central CentralInv CentralSpec PoolSpec CentralOps Acquire Heap Hmalloc HeapInv HeapLinks HeapSpec HeapCreate HeapMalloc HeapFree HeapExit LargeSpec HmallocSpec.

Section api_spec.
Context {K : Kernel} {KL : KernelLaws K} {Lg : Ledger} {C : Config}.
Implicit Types (st : State).

Lemma mapped_alloc st b n k : mem_ok st → allocated st b n → k ≤ n → mapped_range (os st) b k = true.
Proof. intros H Hal Hk. apply mapped_range_true. intros x Hx. eapply allocated_mapped; [done..|lia]. Qed.

(** ** hm_calloc *)

Lemma got_alloc st size align b st' : got st size align b st' → ∃ n, allocated st' b n ∧ size ≤ n.
Proof. intros (n & Hp & Hn & _). exists n. split; [|done]. apply Hp. by left. Qed.

(** A write into the new block keeps it new. *)
Lemma got_write st size align b st' m' n :
  inv st' → got st size align b st' → allocated st' b n →
  (∀ x, ¬ (b ≤ x < b + n) → byte_at m' x = byte_at (bytes (os st')) x) →
  inv (with_bytes st' m') ∧ got st size align b (with_bytes st' m').
Proof.
  intros H (n' & (Hf & Hal & Hsb) & Hr) Ha Hout. destruct (client_write_spec st' b n m' H Ha Hout) as (Hi & Hal' & Hsb').
  split; [done|]. exists n'. split; [|done]. split_and!; [done| |].
  - intros b' m. by rewrite Hal', Hal.
  - intros b' m Hb x Hx. rewrite (Hsb' b' m), (Hsb b' m); try done; [apply Hal; by right|].
    intros ->. by apply (Hf m).
Qed.

Lemma calloc_total nmemb size :
  0 < nmemb < 2 ^ 64 → 0 < size < 2 ^ 64 → nmemb ≤ SIZE_MAX / size →
  u64 (nmemb * size) = nmemb * size ∧ 0 < nmemb * size < 2 ^ 64.
Proof.
  intros Hn Hs Hle. assert (nmemb * size ≤ SIZE_MAX) as Hm.
  { transitivity (SIZE_MAX / size * size); [nia|]. pose proof (Z.mul_div_le SIZE_MAX size). lia. }
  unfold SIZE_MAX in Hm. assert (0 < nmemb * size) by nia. split; [apply u64_small; lia|lia].
Qed.

Lemma calloc_overflow nmemb size :
  0 < nmemb → 0 < size → SIZE_MAX / size < nmemb → 2 ^ 64 ≤ nmemb * size.
Proof.
  intros Hn Hs Hlt. unfold SIZE_MAX in *. pose proof (Z.mul_succ_div_gt (2 ^ 64 - 1) size Hs). nia.
Qed.

Definition calloc_post st (nmemb size : Z) (x : option Z) st' : Prop :=
  inv st' ∧ match x with
  | Some b => got st (nmemb * size) ALLOC_ALIGN b st' ∧ zeroed st' b (nmemb * size)
  | None => same_alloc st st'
  end.

Lemma hm_calloc_spec st tid nmemb size :
  inv st → may_alloc tid st → 0 ≤ nmemb < 2 ^ 64 → 0 ≤ size < 2 ^ 64 →
  wp (hm_calloc tid nmemb size) (calloc_post st nmemb size) st.
Proof.
  intros H Hma Hn Hs. unfold hm_calloc. destruct (Z.eqb_spec nmemb 0) as [|Hn0]; [by apply wp_ret|].
  destruct (Z.eqb_spec size 0) as [|Hs0]; [by apply wp_ret|]. cbn [orb].
  destruct (Z.ltb_spec (SIZE_MAX / size) nmemb) as [_|Hle]; [by apply wp_ret|].
  destruct (calloc_total nmemb size ltac:(lia) ltac:(lia) Hle) as [-> Ht].
  unfold calloc_post. set (total := nmemb * size) in *. clearbody total.
  destruct (Z.leb_spec total SMALL_SIZE_MAX) as [Hsm|Hlg].
  - destruct (size_class_request total ltac:(lia)) as (c & s & Hc & Hr & Hcs & Hf & _ & Hm).
    apply wp_bind. eapply wp_mono; [by eapply (heap_malloc_post st tid total c s ALLOC_ALIGN H Hma Hc Hcs Hr ltac:(done) Hm ltac:(done) total)|].
    intros [b|] st1 [H1 Hp]; [|by apply wp_ret]. destruct (got_alloc _ _ _ _ _ Hp) as (n & Hal & Hln).
    apply wp_bind, wp_in_os. unfold do_memset, wp. rewrite (mapped_alloc st1 b n total (hk_mem (iv_hok H1)) Hal Hln). simpl.
    set (m' := memset (bytes (os st1)) b 0 (Z.to_nat total)).
    assert (∀ x, byte_at m' x = if in_range b total x then 0 else byte_at (bytes (os st1)) x) as Hm'.
    { intros x. unfold m'. rewrite byte_at_memset, Z2Nat.id by lia. done. }
    destruct (got_write st total ALLOC_ALIGN b st1 m' n H1 Hp Hal) as [H2 Hg2].
    { intros x Hx. rewrite Hm'. destruct (in_range b total x) eqn:E; [|done]. apply in_range_true in E. lia. }
    split; [exact H2|split; [exact Hg2|]]. intros x Hx. simpl. rewrite Hm'.
    by rewrite (proj2 (in_range_true b total x)).
  - eapply wp_mono; [apply (alloc_large_spec st total ALLOC_ALIGN H (proj1 Hma)); try lia; [apply align16_pow2|done]|]. done.
Qed.

(** ** hm_usable_size *)

Lemma hm_usable_spec st p n :
  inv st → allocated st p n → wp (hm_usable_size (Some p)) (λ u st', u = n ∧ st' = st) st.
Proof.
  intros H [(s & i & pg & Hl & ->)|(b & h & Hh & -> & ->)]%allocated_cases; simpl; apply wp_bind.
  - eapply wp_mono; [by eapply kind_small|]. intros k st' [-> ->]. rewrite bool_decide_false by done.
    rewrite (live_page_of _ _ _ _ _ Hl). apply wp_bind. eapply wp_load_page; [apply Hl|]. by apply wp_ret.
  - eapply wp_mono; [by eapply kind_large|]. intros k st' [-> ->]. rewrite bool_decide_true by done.
    pose proof (hk_mem (iv_hok H)) as Hm. rewrite (large_base st b h Hm Hh). unfold load_large.
    apply wp_bind, wp_bind, wp_gets. eapply wp_deref; [done|]. apply wp_ret. split; [|done].
    destruct (mo_large Hm b h Hh). rewrite LARGE_OFFSET_eq in *.
    destruct (rg_shape _ _ (mo_regions Hm) (RLarge b) b (lh_mmap_size h)) as (_ & ? & _); [simpl; by rewrite Hh|].
    apply u64_small. lia.
Qed.

(** ** hm_realloc *)

(** The block [p] of [n] bytes became [q] with at least [size] bytes. *)
Definition moved_to st (p n size q : Z) st' : Prop :=
  ∃ n', size ≤ n' ∧ q mod ALLOC_ALIGN = 0 ∧
    (∀ b m, allocated st' b m ↔ (b = q ∧ m = n') ∨ (allocated st b m ∧ b ≠ p)) ∧
    (∀ b m, allocated st b m → b ≠ p → same_bytes st st' b m) ∧
    (∀ k, 0 ≤ k < Z.min size n → byte_at (bytes (os st')) (q + k) = byte_at (bytes (os st)) (p + k)).

Definition realloc_post st (p n size : Z) (x : option Z) st' : Prop :=
  inv st' ∧ match x with
  | Some q => 0 < size ∧ moved_to st p n size q st'
  | None => if size =? 0 then alloc_minus st st' p else same_alloc st st'
  end.

Lemma moved_to_refl st p n size : inv st → allocated st p n → size ≤ n → moved_to st p n size p st.
Proof.
  intros H Hal Hle. pose proof (hk_mem (iv_hok H)) as Hm. exists n. destruct (allocated_aligned st p n Hm Hal) as [H16 _].
  split_and!; try done. intros b m. split.
  - intros Hb. destruct (decide (b = p)) as [->|Hne]; [left|by right]. split; [done|]. by eapply allocated_unique.
  - by intros [[-> ->]|[? _]].
Qed.

(** Copying into the new block and freeing the old one. *)
Lemma copy_free_spec st tid p n size q st1 :
  inv st → allocated st p n → 0 < size → inv st1 → got st size ALLOC_ALIGN q st1 →
  wp (in_os (do_memcpy q p (if size <? n then size else n));; hm_free tid (Some p);; mret (Some q))
    (λ x st', x = Some q ∧ inv st' ∧ moved_to st p n size q st') st1.
Proof.
  intros H Hal Hsz H1 Hg. pose proof (hk_mem (iv_hok H1)) as Hm1.
  replace (if size <? n then size else n) with (Z.min size n) by (destruct (Z.ltb_spec size n); lia).
  pose proof (allocated_pos _ _ _ (hk_mem (iv_hok H)) Hal) as [_ Hn0]. set (k := Z.min size n) in *.
  destruct Hg as (n' & (Hf & Ha1 & Hsb1) & Hsn & Hq16 & _ & Hqe).
  assert (allocated st1 q n') as Hq by (apply Ha1; by left). assert (allocated st1 p n) as Hp by (apply Ha1; by right).
  assert (p ≠ q) as Hpq by (intros ->; by apply (Hf n)).
  apply wp_bind, wp_in_os. unfold do_memcpy, wp.
  rewrite (mapped_alloc st1 q n' k), (mapped_alloc st1 p n k) by (done || lia). cbn [andb].
  set (m' := memcpy (bytes (os st1)) q p (Z.to_nat k)).
  assert (∀ x, byte_at m' x = if in_range q k x then byte_at (bytes (os st1)) (p + (x - q)) else byte_at (bytes (os st1)) x) as Hm'.
  { intros x. unfold m'. rewrite byte_at_memcpy; rewrite Z2Nat.id by lia; [done|].
    destruct (allocated_disjoint st1 q n' p n Hm1 Hq Hp) as [[-> _]|]; [done|lia]. }
  destruct (client_write_spec st1 q n' m' H1 Hq) as (H2 & Ha2 & Hsb2).
  { intros x Hx. rewrite Hm'. destruct (in_range q k x) eqn:E; [|done]. apply in_range_true in E. lia. }
  change (wp (hm_free tid (Some p);; mret (Some q)) (λ x st', x = Some q ∧ inv st' ∧ moved_to st p n size q st') (with_bytes st1 m')).
  apply wp_bind. eapply wp_mono; [apply (hm_free_spec _ tid p n H2); by apply Ha2|].
  intros [] st3 [H3 [Ha3 Hsb3]]. apply wp_ret. split_and!; try done. exists n'. split_and!; try done.
  - intros b m. rewrite Ha3, Ha2, Ha1. naive_solver.
  - intros b m Hb Hne x Hx. assert (allocated st1 b m) as Hb1 by (apply Ha1; by right).
    assert (b ≠ q) by (intros ->; by apply (Hf m)). rewrite (Hsb3 b m), (Hsb2 b m), (Hsb1 b m); try done. by apply Ha2.
  - intros j Hj. rewrite (Hsb3 q n'); [|by apply Ha2|done|lia]. simpl. rewrite Hm', (proj2 (in_range_true q k _)) by lia.
    replace (p + (q + j - q)) with (p + j) by lia. apply (Hsb1 p n Hal). lia.
Qed.

Lemma hm_realloc_spec st tid p n size :
  inv st → may_alloc tid st → allocated st p n → 0 ≤ size < 2 ^ 64 →
  wp (hm_realloc tid (Some p) size) (realloc_post st p n size) st.
Proof.
  intros H Hma Hal Hsz. unfold hm_realloc, realloc_post. destruct (Z.eqb_spec size 0) as [->|Hne].
  { apply wp_bind. eapply wp_mono; [by apply (hm_free_spec st tid p n)|]. intros [] st' Hp. by apply wp_ret. }
  apply wp_bind. eapply wp_mono; [by apply hm_usable_spec|]. intros u st' [-> ->].
  destruct ((size <=? n) && ((n <=? SMALL_SIZE_MAX) || (n / 2 <? size))) eqn:Ek.
  { apply andb_true_iff in Ek as [Hle%Z.leb_le _]. apply wp_ret. split_and!; [done|lia|]. by apply moved_to_refl. }
  apply wp_bind. eapply wp_mono; [by apply (hm_malloc_spec st tid size)|]. intros [q|] st1 [H1 Hg]; [|by apply wp_ret].
  eapply wp_mono; [apply (copy_free_spec st tid p n size q st1); try done; lia|]. intros x st2 (-> & H2 & Hmv). split_and!; try done; lia.
Qed.

(** ** hm_aligned_alloc *)

(** The scan stops at the first class from [c] on whose size is a multiple. *)
Lemma class_scan_spec st alignment fuel : ∀ c,
  0 ≤ c ≤ num_size_classes → num_size_classes - c < Z.of_nat fuel →
  wp (class_scan fuel c alignment) (λ c' st', st' = st ∧ c ≤ c' ≤ num_size_classes ∧
    (c' < num_size_classes → ∃ s, class_to_size c' = Some s ∧ s mod alignment = 0)) st.
Proof.
  induction fuel as [|f IH]; intros c Hc Hf; [lia|]. cbn [class_scan].
  destruct (Z.ltb_spec c num_size_classes) as [Hlt|Hge]; [|apply wp_ret; split_and!; try done; lia].
  destruct (class_to_size_bounds c) as (s & Hs & _); [unfold num_size_classes in *; lia|].
  apply wp_bind. eapply wp_deref; [done|]. destruct (Z.eqb_spec (s mod alignment) 0) as [E|E]; simpl.
  - apply wp_ret. split_and!; try done; try lia. eauto.
  - eapply wp_mono; [apply (IH (c + 1)); lia|]. intros c' st' (-> & Hr & Hx). split_and!; try done; lia.
Qed.

Lemma aligned_test alignment :
  0 ≤ alignment < 2 ^ 64 →
  (alignment =? 0) || negb (Z.land alignment (u64 (alignment - 1)) =? 0) = false → pow2 alignment.
Proof.
  intros Ha [E1%Z.eqb_neq E2%negb_false_iff%Z.eqb_eq]%orb_false_iff. rewrite u64_small in E2 by lia.
  apply pow2_land_pred_iff; [lia|done].
Qed.

Lemma hm_aligned_spec st tid alignment size :
  inv st → may_alloc tid st → 0 ≤ alignment < 2 ^ 64 → 0 ≤ size < 2 ^ 64 →
  wp (hm_aligned_alloc tid alignment size) (λ x st', alloc_post st size alignment x st' ∧
    (is_Some x → pow2 alignment ∧ 0 < size)) st.
Proof.
  intros H Hma Ha Hs. unfold hm_aligned_alloc. destruct (Z.eqb_spec size 0) as [->|Hs0].
  { apply wp_ret. split; [done|]. by intros []. }
  destruct ((alignment =? 0) || _) eqn:Et; [apply wp_ret; split; [done|]; by intros []|].
  pose proof (aligned_test alignment Ha Et) as Hp. pose proof (pow2_pos _ Hp) as Hpos.
  cut (wp (if alignment <=? ALLOC_ALIGN then hm_malloc tid size else
    let need := if alignment <? size then size else alignment in
    let large := if SEGMENT_SIZE / 2 <? alignment then mret None else alloc_large size alignment in
    if need <=? SMALL_SIZE_MAX then
      c ← deref (size_class need);
      c ← class_scan (S (Z.to_nat num_size_classes)) c alignment;
      if c <? num_size_classes then s ← deref (class_to_size c); heap_malloc tid s else large
    else large) (alloc_post st size alignment) st).
  { intros Hw. eapply wp_mono; [exact Hw|]. intros x st' Hx. split; [done|]. intros _. split; [done|lia]. }
  destruct (Z.leb_spec alignment ALLOC_ALIGN) as [Hle|Hgt].
  { eapply wp_mono; [by apply (hm_malloc_spec st tid size)|]. intros [b|] st' [Hi Hg]; (split; [done|]); [|done].
    destruct Hg as (n & Hpl & Hn & Hb & _ & He). exists n. split_and!; try done.
    apply mod_0_trans with ALLOC_ALIGN; try done. apply pow2_divide; [done|apply align16_pow2|done]. }
  cbv zeta. set (need := if alignment <? size then size else alignment).
  assert (alignment ≤ need ∧ size ≤ need) as Hneed by (unfold need; destruct (Z.ltb_spec alignment size); lia).
  assert (wp (if SEGMENT_SIZE / 2 <? alignment then mret None else alloc_large size alignment) (alloc_post st size alignment) st) as Hlarge.
  { destruct (Z.ltb_spec (SEGMENT_SIZE / 2) alignment) as [_|Hle]; [by apply wp_ret|].
    eapply wp_mono; [apply (alloc_large_spec st size alignment H (proj1 Hma)); (done || lia)|].
    intros [b|] st' [Hi Hr]; (split; [done|]); [apply Hr|done]. }
  destruct (Z.leb_spec need SMALL_SIZE_MAX) as [Hsm|_]; [|done].
  destruct (size_class_request need ltac:(lia)) as (c & s & Hc & Hr & Hcs & Hf & _).
  apply wp_bind. eapply wp_deref; [done|]. apply wp_bind. unfold kNumSizeClasses in Hr. fold kNumSizeClasses in Hr.
  eapply wp_mono; [apply (class_scan_spec st alignment); unfold num_size_classes; lia|].
  intros c' st' (-> & Hcc & Hx). destruct (Z.ltb_spec c' num_size_classes) as [Hlt|_]; [|done].
  destruct (Hx Hlt) as (s' & Hs' & Hmod). apply wp_bind. eapply wp_deref; [done|].
  pose proof (class_to_size_mono c s c' s' ltac:(lia) Hlt Hcs Hs') as Hss.
  eapply (heap_malloc_post st tid s' c' s'); try done; [apply size_class_of_class; (done || lia)|unfold num_size_classes in *; lia| |lia].
  apply pow2_divide; [done|exists 16; split; [lia|done]|]. assert (SMALL_SIZE_MAX = 16384 ∧ PAGE_SIZE = 65536) as [? ?] by done. lia.
Qed.

(** ** hm_stats *)

Lemma global_counts_add st :
  counters_ok st → u64 (hsum h_n_malloc st) = u64 (u64 (hsum h_n_fast st) + u64 (hsum h_n_slow st)).
Proof.
  intros Hc. transitivity (u64 (hsum h_n_fast st + hsum h_n_slow st)).
  - unfold hsum. rewrite <-msum_plus. apply msum_wrap. intros a h Ha. specialize (Hc a h Ha). unfold stats_ok in Hc.
    destruct stats_on; [rewrite Hc; unfold u64; by rewrite Zmod_mod|]. by destruct Hc as (-> & -> & ->).
  - by rewrite u64_add_l, (Z.add_comm _ (u64 _)), u64_add_l, Z.add_comm.
Qed.

(** Every field of the snapshot describes the objects that exist: the bytes
    reserved are those of all mapped regions, and the peak is at least that. *)
Record stats_exact st (s : HmStats) : Prop := {
  se_reserved : bytes_reserved s = reserved st;
  se_peak : peak_bytes_reserved s = g_peak_mapped (os st) ∧ reserved st ≤ peak_bytes_reserved s;
  se_segments : segments_mapped s = u64 (msum (λ _ _, 1) (segs st));
  se_in_use : pages_in_use s = u64 (msum (λ r pg, count (owned_by_heap None r pg)) (pages st));
  se_free : pages_free s = u64 (msum (λ _, sg_free_count) (segs st));
  se_large : large_allocations s = u64 (msum (λ _ _, 1) (larges st));
  se_lbytes : large_bytes s = u64 (msum (λ _, lh_mmap_size) (larges st));
  se_malloc : malloc_count s = u64 (fast_path_count s + slow_path_count s);
  se_fast : fast_path_count s = u64 (hsum h_n_fast st)
}.

Lemma hm_stats_spec st : inv st → wp hm_stats (λ s st', st' = st ∧ stats_exact st s) st.
Proof.
  intros H. pose proof (proj1 (hk_central (iv_hok H))) as Hc. unfold hm_stats.
  apply wp_bind, wp_in_os. unfold os_stats. apply wp_gets.
  replace (set_os (os st) st) with st by by destruct st.
  apply wp_bind. unfold central_stats. apply wp_gets. do 2 apply wp_bind, wp_gets.
  apply wp_bind. unfold wp at 1. rewrite (heap_global_counts_spec st (iv_hok H)). apply wp_ret.
  destruct (mo_count (hk_mem (iv_hok H))) as [C1 _ C3].
  split; [done|]. constructor; simpl; try done; try apply Hc; try apply H. by apply global_counts_add, H.
Qed.
End api_spec.
