(* ===== verification/Client.v ===== *)
(** * The allocator as its clients see it

    An abstract allocator is a set of blocks with their contents; [astep] says
    what each entry point of the API, a load or store of the client in a block it
    holds, and the exit of a thread may do to it.  The refinement theorem says
    that the code, run by any thread in any state that satisfies the invariant,
    returns and takes such a step; reachability is over all sequences of calls,
    by any threads, that respect the contract of the API. *)
From Stdlib Require Import ZArith Lia.
From stdpp Require Import base numbers list gmap.
From S2P Require Import Prelude Words Constants SizeClass Segment Memory Os Chains Sums RegionRegistry State Regions PageOps Allocated Central CentralInv CentralSpec PoolSpec CentralOps Acquire Heap Hmalloc HeapInv HeapLinks HeapSpec HeapCreate HeapMalloc HeapFree HeapExit LargeSpec HmallocSpec ApiSpec.

(** ** The abstract allocator *)

Record aview := mkView { av_block : Z → Z → Prop; av_byte : Z → Z }.
Implicit Types (V : aview).

(** Blocks keep their contents, except the ones that start in [D]. *)
Definition keeps (D : Z → Prop) V V' : Prop :=
  ∀ b n x, av_block V b n → ¬ D b → b ≤ x < b + n → av_byte V' x = av_byte V x.
Definition a_same V V' : Prop :=
  (∀ b n, av_block V' b n ↔ av_block V b n) ∧ keeps (λ _, False) V V'.
(** A new block of [n] bytes at [b], apart from all others. *)
Definition a_new V V' (b n : Z) : Prop :=
  0 < b ∧ b + n ≤ 2 ^ 64 ∧ b mod ALLOC_ALIGN = 0 ∧
  (∀ b' n', av_block V b' n' → b + n ≤ b' ∨ b' + n' ≤ b) ∧
  (∀ b' n', av_block V' b' n' ↔ (b' = b ∧ n' = n) ∨ av_block V b' n') ∧ keeps (λ _, False) V V'.
Definition a_gone V V' (p : Z) : Prop :=
  (∀ b n, av_block V' b n ↔ av_block V b n ∧ b ≠ p) ∧ keeps (λ b, b = p) V V'.
(** Block [p] became block [q] of at least [size] bytes, with its contents. *)
Definition a_moved V V' (p size q : Z) : Prop :=
  ∃ n n', av_block V p n ∧ size ≤ n' ∧ q mod ALLOC_ALIGN = 0 ∧
    (∀ b m, av_block V' b m ↔ (b = q ∧ m = n') ∨ (av_block V b m ∧ b ≠ p)) ∧ keeps (λ b, b = p) V V' ∧
    ∀ k, 0 ≤ k < Z.min size n → av_byte V' (q + k) = av_byte V (p + k).

Inductive call :=
| Malloc (size : Z)
| Calloc (nmemb size : Z)
| Realloc (ptr : option Z) (size : Z)
| AlignedAlloc (alignment size : Z)
| Free (ptr : option Z)
| UsableSize (ptr : option Z)
| Load (a : Z)
| Store (a v : Z)
| Exit.
Inductive answer := Ptr (p : option Z) | Size (n : Z) | Byte (v : Z) | Done.

Definition word (n : Z) : Prop := 0 ≤ n < 2 ^ 64.
Definition holds V (p : option Z) : Prop := match p with Some p => ∃ n, av_block V p n | None => True end.

(** The client's side of the contract. *)
Definition call_ok V (c : call) : Prop :=
  match c with
  | Malloc n => word n
  | Calloc m n => word m ∧ word n
  | Realloc p n => holds V p ∧ word n
  | AlignedAlloc a n => word a ∧ word n
  | Free p | UsableSize p => holds V p
  | Load a | Store a _ => ∃ b n, av_block V b n ∧ b ≤ a < b + n
  | Exit => True
  end.

Definition a_alloc V V' (size : Z) (x : option Z) : Prop :=
  match x with Some b => ∃ n, a_new V V' b n ∧ size ≤ n | None => a_same V V' end.

Definition astep V (c : call) (r : answer) V' : Prop :=
  match c, r with
  | Malloc size, Ptr x => a_alloc V V' size x
  | Calloc m s, Ptr x => a_alloc V V' (m * s) x ∧
      (∀ b, x = Some b → ∀ k, 0 ≤ k < m * s → av_byte V' (b + k) = 0)
  | AlignedAlloc al s, Ptr x => a_alloc V V' s x ∧ (∀ b, x = Some b → pow2 al ∧ b mod al = 0)
  | Realloc None s, Ptr x => a_alloc V V' s x
  | Realloc (Some p) s, Ptr (Some q) => 0 < s ∧ a_moved V V' p s q
  | Realloc (Some p) s, Ptr None => if s =? 0 then a_gone V V' p else a_same V V'
  | Free None, Done => a_same V V'
  | Free (Some p), Done => a_gone V V' p
  | UsableSize None, Size n => n = 0 ∧ a_same V V'
  | UsableSize (Some p), Size n => av_block V p n ∧ a_same V V'
  | Load a, Byte v => v = av_byte V a ∧ a_same V V'
  | Store a v, Done => (∀ b n, av_block V' b n ↔ av_block V b n) ∧
      ∀ x, av_byte V' x = if decide (x = a) then u8 v else av_byte V x
  | Exit, Done => a_same V V'
  | _, _ => False
  end.

(** ** The code *)

Section client.
Context {K : Kernel} {C : Config}.
Implicit Types (st : State).

Definition view st : aview := mkView (allocated st) (byte_at (bytes (os st))).

(** A load and a store of one byte by the client. *)
Definition client_load (a : Z) : M State Z :=
  in_os (λ o, if mapped o a then Ok (byte_at (bytes o) a, o) else Fault).
Definition client_store (a v : Z) : M State unit :=
  in_os (λ o, if mapped o a then Ok (tt, set_bytes (<[a := u8 v]> (bytes o)) o) else Fault).

Definition exec (tid : nat) (c : call) : M State answer :=
  match c with
  | Malloc n => p ← hm_malloc tid n; mret (Ptr p)
  | Calloc m n => p ← hm_calloc tid m n; mret (Ptr p)
  | Realloc p n => q ← hm_realloc tid p n; mret (Ptr q)
  | AlignedAlloc a n => p ← hm_aligned_alloc tid a n; mret (Ptr p)
  | Free p => hm_free tid p;; mret Done
  | UsableSize p => n ← hm_usable_size p; mret (Size n)
  | Load a => v ← client_load a; mret (Byte v)
  | Store a v => client_store a v;; mret Done
  | Exit => thread_exit tid;; mret Done
  end.

(** Allocating calls rely on room in the registry and on the thread's heap. *)
Definition call_room (tid : nat) st (c : call) : Prop :=
  match c with
  | Malloc _ | Calloc _ _ | Realloc _ _ | AlignedAlloc _ _ => may_alloc tid st
  | _ => True
  end.

(** The two situations in which an allocating call can go wrong: the kernel
    refuses the thread its heap, or the registry's table, which could not be
    replaced by a larger one, is down to its last [EMPTY] slot. *)
Definition hazard (tid : nat) st (c : call) : Prop :=
  match c with
  | Malloc _ | Calloc _ _ | Realloc _ _ | AlignedAlloc _ _ => null_heap tid st ∨ ¬ reg_room (registry st)
  | _ => False
  end.

(** Runs of threads that respect the contract and meet no hazard, and the states
    they reach from the start of the program. *)
Inductive runs st : State → Prop :=
| runs_refl : runs st st
| runs_step st1 tid c r st2 : runs st st1 → call_ok (view st1) c → call_room tid st1 c →
    exec tid c st1 = Ok (r, st2) → runs st st2.
Definition reach (o : OsState) : State → Prop := runs (init_state o).

Lemma reach_init o : reach o (init_state o).
Proof. constructor. Qed.
Lemma reach_step o st tid c r st' :
  reach o st → call_ok (view st) c → call_room tid st c → exec tid c st = Ok (r, st') → reach o st'.
Proof. by econstructor. Qed.

Lemma null_heap_cases tid st : ¬ null_heap tid st ∨ null_heap tid st.
Proof.
  unfold null_heap. destruct (t_heap st !! tid); [left; by intros [? _]|].
  destruct (os_alloc_aligned heap_bytes os_page_size (os st)) as [[[p|] o']| |]; [left|right|left..]; naive_solver.
Qed.

(** The hazards are all that [call_room] excludes. *)
Lemma room_or_hazard tid c st : call_room tid st c ∨ hazard tid st c.
Proof.
  assert (reg_room (registry st) ∨ ¬ reg_room (registry st)) as Hr.
  { unfold reg_room. destruct (slots (registry st)); [|left; by left].
    destruct (decide (size (registry st) + tombs (registry st) + 1 < cap (registry st))); [left; by right|right; naive_solver]. }
  pose proof (null_heap_cases tid st). destruct c; simpl; unfold may_alloc; tauto.
Qed.

Context {KL : KernelLaws K} {Lg : Ledger}.

(** ** The invariant holds at the start *)

Lemma inv_init (Cm : Calm K) o : inv (Lg:=while_calm Cm) (init_state o).
Proof.
  assert (∀ s i, pages (init_state o) !! PageAt s i = None) as Hp by (intros; by apply lookup_singleton_ne).
  assert (∀ r pg, pages (init_state o) !! r = Some pg → pg = zero_page) as Hz.
  { intros r pg Hr. change (({[EmptyPage := zero_page]} : gmap pageref Page) !! r = Some pg) in Hr.
    by apply lookup_singleton_Some in Hr as [_ <-]. }
  apply inv_intro; [constructor; [split|..]| |done].
  - constructor; try done.
    + exists []. split; [done|]. intros s. split; [by intros ?%elem_of_nil|by intros [? ?]].
    + constructor.
      * intros s i. rewrite Hp. split; [by intros []|]. intros [[? ?] _]. done.
      * done.
      * intros s i pg Hs. by rewrite Hp in Hs.
      * intros s i pg Hs. by rewrite Hp in Hs.
      * intros r pg Hr Hu. by rewrite (Hz r pg Hr) in Hu.
    + exists []. split; [split; [done|]|done]. intros r. split; [by intros ?%elem_of_nil|].
      intros (pg & ->%Hz & Ha). done.
  - exists []. split; [split; [done|]|]; intros s; [done|]. split; [by intros ?%elem_of_nil|]. by intros (? & ? & _).
  - constructor; try done.
    + by constructor; intros [].
    + exists ∅. split_and!; [done|by left| |split; [done|]]; [intros b Hb; by apply elem_of_empty in Hb|].
      intros _. split; [by left|]. intros b [[? ?]|[? ?]]; done.
    + intros s i pg Hs. by rewrite Hp in Hs.
    + intros s i [? Hs]. by rewrite Hp in Hs.
  - constructor; try done.
    + intros r pg a Hr Hu. by rewrite (Hz r pg Hr) in Hu.
    + exists []. split; [done|]. intros a. split; [by intros ?%elem_of_nil|by intros [? ?]].
    + by intros a [? ?].
  - by intros a h Ha.
Qed.

(** ** Refinement *)

Lemma same_view_steps st st' : same_alloc st st' → a_same (view st) (view st').
Proof. intros [A B]. split; [done|]. intros b n x Hb _ Hx. by apply (B b n). Qed.

Lemma minus_gone st st' p : alloc_minus st st' p → a_gone (view st) (view st') p.
Proof. intros [A B]. split; [done|]. intros b n x Hb Hn Hx. by apply (B b n). Qed.

Lemma got_new st size align b st' :
  inv st' → got st size align b st' → ∃ n, a_new (view st) (view st') b n ∧ size ≤ n ∧ b mod align = 0.
Proof.
  intros Hi (n & (Hf & A & B) & Hn & Hal & H16 & He). pose proof (hk_mem (iv_hok Hi)) as Hm.
  assert (allocated st' b n) as Hb by (apply A; by left). exists n. split; [|done].
  split_and!; try done; [by apply (allocated_pos st' b n)| |].
  - intros b' n' Hb'. destruct (allocated_disjoint st' b n b' n' Hm Hb) as [[-> ->]|]; [apply A; by right| |done].
    exfalso. by apply (Hf n).
  - intros b' n' x Hb' _ Hx. by apply (B b' n').
Qed.

Lemma post_alloc st size align x st' : alloc_post st size align x st' → a_alloc (view st) (view st') size x.
Proof.
  intros [Hi Hx]. destruct x as [b|]; [|by apply same_view_steps].
  destruct (got_new _ _ _ _ _ Hi Hx) as (n & Hn & Hs & _). by exists n.
Qed.

Lemma moved_view st p n size q st' :
  allocated st p n → moved_to st p n size q st' → a_moved (view st) (view st') p size q.
Proof.
  intros Hal (n' & Hs & H16 & A & B & Hk). exists n, n'. split_and!; try done.
  intros b m x Hb Hne Hx. by apply (B b m).
Qed.

Lemma client_load_spec st a b n :
  inv st → allocated st b n → b ≤ a < b + n →
  wp (client_load a) (λ v st', v = byte_at (bytes (os st)) a ∧ st' = st) st.
Proof.
  intros H Hal Ha. unfold client_load. apply wp_in_os. unfold wp.
  rewrite (allocated_mapped st b n a (hk_mem (iv_hok H)) Hal Ha). split; [done|by destruct st].
Qed.

Lemma client_store_spec st a v b n :
  inv st → allocated st b n → b ≤ a < b + n →
  wp (client_store a v) (λ _ st', inv st' ∧ (∀ b n, allocated st' b n ↔ allocated st b n) ∧
    ∀ x, byte_at (bytes (os st')) x = if decide (x = a) then u8 v else byte_at (bytes (os st)) x) st.
Proof.
  intros H Hal Ha. unfold client_store. apply wp_in_os. unfold wp.
  rewrite (allocated_mapped st b n a (hk_mem (iv_hok H)) Hal Ha).
  set (m' := <[a := u8 v]> (bytes (os st))).
  assert (∀ x, byte_at m' x = if decide (x = a) then u8 v else byte_at (bytes (os st)) x) as Hm'.
  { intros x. unfold m'. rewrite byte_at_insert. repeat case_decide; by subst. }
  destruct (client_write_spec st b n m' H Hal) as (H1 & H2 & _).
  - intros x Hx. rewrite Hm'. rewrite decide_False; [done|]. intros ->. lia.
  - by split_and!.
Qed.

Lemma exec_spec tid c st :
  inv st → call_ok (view st) c → call_room tid st c →
  wp (exec tid c) (λ r st', inv st' ∧ astep (view st) c r (view st')) st.
Proof.
  intros H Hok Hroom. destruct c as [n|m n|p n|a n|p|p|a|a v|]; cbn [exec call_ok call_room] in *; apply wp_bind.
  - eapply wp_mono; [by apply (hm_malloc_spec st tid n)|]. intros x st' Hp. apply wp_ret.
    split; [apply Hp|]. by eapply post_alloc.
  - destruct Hok as [Hm Hn]. eapply wp_mono; [by apply (hm_calloc_spec st tid m n)|].
    intros x st' [Hi Hp]. apply wp_ret. split; [done|]. destruct x as [b|]; simpl.
    + destruct Hp as [Hg Hz]. destruct (got_new _ _ _ _ _ Hi Hg) as (k & Hk & Hs & _). split; [by exists k|].
      intros ? [= <-] j Hj. apply Hz. lia.
    + split; [by apply same_view_steps|done].
  - destruct Hok as [Hh Hn]. destruct p as [p|].
    + destruct Hh as [k Hk]. eapply wp_mono; [by apply (hm_realloc_spec st tid p k n)|].
      intros x st' [Hi Hp]. apply wp_ret. split; [done|]. destruct x as [q|]; simpl.
      * destruct Hp as [H0 Hmv]. split; [done|]. eapply moved_view; [exact Hk|exact Hmv].
      * destruct (n =? 0); [by apply minus_gone|by apply same_view_steps].
    + eapply wp_mono; [by apply (hm_malloc_spec st tid n)|]. intros x st' Hp. apply wp_ret.
      split; [apply Hp|]. by eapply post_alloc.
  - destruct Hok as [Ha Hn]. eapply wp_mono; [by apply (hm_aligned_spec st tid a n)|].
    intros x st' [Hp Hx]. apply wp_ret. split; [apply Hp|]. split; [by eapply post_alloc|].
    intros b ->. destruct Hp as [Hi Hg]. destruct (got_new _ _ _ _ _ Hi Hg) as (k & _ & _ & Hal). split; [by apply Hx|done].
  - destruct p as [p|]; [|apply wp_ret, wp_ret; split; [done|by apply same_view_steps]].
    destruct Hok as [k Hk]. eapply wp_mono; [by apply (hm_free_spec st tid p k)|].
    intros [] st' [Hi Hp]. apply wp_ret. split; [done|]. by apply minus_gone.
  - destruct p as [p|]; [|apply wp_ret, wp_ret; split; [done|split; [done|by apply same_view_steps]]].
    destruct Hok as [k Hk]. eapply wp_mono; [by apply (hm_usable_spec st p k)|].
    intros u st' [-> ->]. apply wp_ret. split; [done|split; [done|by apply same_view_steps]].
  - destruct Hok as (b & n & Hb & Ha). eapply wp_mono; [by apply (client_load_spec st a b n)|].
    intros v st' [-> ->]. apply wp_ret. split; [done|split; [done|by apply same_view_steps]].
  - destruct Hok as (b & n & Hb & Ha). eapply wp_mono; [by apply (client_store_spec st a v b n)|].
    intros [] st' (H1 & H2 & H3). apply wp_ret. by split_and!.
  - eapply wp_mono; [apply (thread_exit_spec st tid), H|]. intros [] st' [E1 E2 E3 E4 [E5 E6 E7]]. apply wp_ret.
    split; [|by apply same_view_steps]. apply inv_intro; [done|apply E3, H|].
    split; rewrite ?E5, ?E6, ?E7; apply H.
Qed.

Lemma runs_inv st st' : inv st → runs st st' → inv st'.
Proof.
  intros H. induction 1 as [|st1 tid c r st2 _ IH Hok Hroom He]; [done|].
  pose proof (exec_spec tid c st1 IH Hok Hroom) as Hw. unfold wp in Hw. rewrite He in Hw. apply Hw.
Qed.
End client.

Lemma reach_inv {K : Kernel} {C : Config} {KL : KernelLaws K} (o : OsState) (st : State) :
  reach o st → inv (Lg:=unknown) st.
Proof. apply runs_inv, inv_init. Qed.

(** ** Runs on a kernel that has not refused memory *)

Section calm.
Context {K : Kernel} {C : Config} {KL : KernelLaws K} {Cm : Calm K}.
Implicit Types (st : State).

(** A thread that allocates has a heap, or gets one. *)
Definition call_heap (tid : nat) st (c : call) : Prop :=
  match c with
  | Malloc _ | Calloc _ _ | Realloc _ _ | AlignedAlloc _ _ => ¬ null_heap tid st
  | _ => True
  end.

(** Calls are made as long as the kernel is calm; nothing is asked of the
    registry. *)
Inductive calm_runs st : State → Prop :=
| calm_refl : calm_runs st st
| calm_step st1 tid c r st2 : calm_runs st st1 → calm (kern (os st1)) → call_ok (view st1) c →
    call_heap tid st1 c → exec tid c st1 = Ok (r, st2) → calm_runs st st2.
Definition calm_reach (o : OsState) : State → Prop := calm_runs (init_state o).

Lemma calm_room tid c st :
  inv (Lg:=while_calm Cm) st → calm (kern (os st)) → call_heap tid st c → call_room tid st c.
Proof.
  intros H Hc Hh. destruct (mo_registry (hk_mem (iv_hok H))) as (X & _ & _ & _ & _ & HC).
  destruct (HC Hc) as [Hroom _]. by destruct c.
Qed.

Lemma calm_runs_inv st st' :
  inv (Lg:=while_calm Cm) st → calm_runs st st' → inv (Lg:=while_calm Cm) st' ∧ runs st st'.
Proof.
  intros H. induction 1 as [|st1 tid c r st2 _ [IH Hr] Hc Hok Hh He]; [by split; [|constructor]|].
  pose proof (calm_room tid c st1 IH Hc Hh) as Hroom. split; [|by econstructor].
  pose proof (exec_spec tid c st1 IH Hok Hroom) as Hw. unfold wp in Hw. rewrite He in Hw. apply Hw.
Qed.

Lemma calm_reach_inv o st : calm_reach o st → inv (Lg:=while_calm Cm) st ∧ reach o st.
Proof. apply calm_runs_inv, inv_init. Qed.

Lemma heap_or_refused tid c st : call_heap tid st c ∨ null_heap tid st.
Proof. pose proof (null_heap_cases tid st). destruct c; simpl; auto. Qed.

(** A thread is without a heap only when the kernel has just refused one. *)
Lemma null_heap_refused tid st :
  null_heap tid st → ∃ o', os_alloc_aligned heap_bytes os_page_size (os st) = Ok (None, o') ∧ ¬ calm (kern o').
Proof.
  intros [_ (o' & Ho)]. exists o'. split; [done|].
  pose proof (os_alloc_aligned_spec heap_bytes os_page_size (os st) heap_bytes_args) as Hw.
  unfold wp in Hw. rewrite Ho in Hw. destruct Hw as [_ Hs]. apply Hs, heap_bytes_range.
Qed.
End calm.

(** Learning that the registry holds every region. *)
Lemma inv_complete {K : Kernel} {C : Config} {KL : KernelLaws K} {Lg : Ledger} (st : State) :
  inv (Lg:=Lg) st → (∃ X, reg_wf (registry st) X ∧ lists_regions st X) → inv (Lg:=complete) st.
Proof.
  intros [[H1 H2 H3] H4 H5 H6] HX. constructor; [constructor|..]; try done. by eapply mem_ok_complete.
Qed.
