(* ===== verification/Override.v ===== *)
(** * The drop-in malloc replacement (src/override.cpp)

    The standard entry points routed to hmalloc.  A pointer that hmalloc did not
    hand out goes to the allocator that [dlsym(RTLD_NEXT, ...)] finds, which is
    not part of the repository: [real_free], [real_realloc] and [real_usable]
    are parameters, [None] when the symbol is missing. *)
From Stdlib Require Import ZArith Lia.
From stdpp Require Import base numbers list gmap.
From S2P Require Import Prelude Words Constants SizeClass Segment Memory Os Chains Sums RegionRegistry State Regions PageOps Allocated Central CentralInv CentralSpec PoolSpec CentralOps Acquire Heap Hmalloc HeapInv HeapLinks HeapSpec HeapCreate HeapMalloc HeapFree HeapExit LargeSpec HmallocSpec ApiSpec Client.

(** Error codes of errno.h, and the size of a pointer. *)
Definition EINVAL : Z := 22.
Definition ENOMEM : Z := 12.
Definition sizeof_ptr : Z := 8.

(** The outcome of an operation that may throw [std::bad_alloc]. *)
Inductive thrown (A : Type) := Returns (a : A) | BadAlloc.
Arguments Returns {A} a.
Arguments BadAlloc {A}.

Section override.
Context {K : Kernel} {C : Config}.
Context (real_free : option (Z → M State unit)).
Context (real_realloc : option (Z → Z → M State (option Z))).
Context (real_usable : option (Z → M State Z)).
Implicit Types (st : State).

Definition ours (p : Z) : M State bool := in_registry (region_owns (region_base p)).

Definition checked_free (tid : nat) (p : option Z) : M State unit :=
  match p with
  | None => mret tt
  | Some a =>
      o ← ours a;
      if (o : bool) then hm_free tid p
      else match real_free with Some rf => rf a | None => mret tt end
  end.

Definition checked_realloc (tid : nat) (p : option Z) (size : Z) : M State (option Z) :=
  match p with
  | None => hm_malloc tid size
  | Some a =>
      o ← ours a;
      if (o : bool) then hm_realloc tid p size
      else match real_realloc with Some rr => rr a size | None => mret None end
  end.

Definition checked_usable (p : option Z) : M State Z :=
  match p with
  | None => mret 0
  | Some a =>
      o ← ours a;
      if (o : bool) then hm_usable_size p
      else match real_usable with Some ru => ru a | None => mret 0 end
  end.

Definition aligned (tid : nat) (alignment size : Z) : M State (option Z) :=
  hm_aligned_alloc tid alignment size.

(** The result code and the value stored through [out], if any; [out] says
    whether the pointer is non-null. *)
Definition do_posix_memalign (tid : nat) (out : bool) (alignment size : Z) : M State (Z * option Z) :=
  if negb out then mret (EINVAL, None)
  else if (alignment <? sizeof_ptr) || negb (Z.land alignment (u64 (alignment - 1)) =? 0)
  then mret (EINVAL, None)
  else
    p ← hm_aligned_alloc tid alignment (if size =? 0 then 1 else size);
    match p with
    | None => mret (ENOMEM, None)
    | Some p => mret (0, Some p)
    end.

Definition do_valloc (tid : nat) (size : Z) : M State (option Z) :=
  let ps := k_sysconf_pagesize in
  hm_aligned_alloc tid (if 0 <? ps then u64 ps else 4096) size.

(** The Mach-O entry points, interposed on the standard names. *)
Definition hm_ov_malloc (tid : nat) (s : Z) : M State (option Z) := hm_malloc tid s.
Definition hm_ov_free (tid : nat) (p : option Z) : M State unit := checked_free tid p.
Definition hm_ov_calloc (tid : nat) (n s : Z) : M State (option Z) := hm_calloc tid n s.
Definition hm_ov_realloc (tid : nat) (p : option Z) (s : Z) : M State (option Z) := checked_realloc tid p s.
Definition hm_ov_aligned_alloc (tid : nat) (a s : Z) : M State (option Z) := aligned tid a s.
Definition hm_ov_posix_memalign (tid : nat) (o : bool) (a s : Z) : M State (Z * option Z) :=
  do_posix_memalign tid o a s.
Definition hm_ov_valloc (tid : nat) (s : Z) : M State (option Z) := do_valloc tid s.
Definition hm_ov_malloc_size (p : option Z) : M State Z := checked_usable p.

(** The ELF entry points. *)
Definition malloc (tid : nat) (s : Z) : M State (option Z) := hm_malloc tid s.
Definition free (tid : nat) (p : option Z) : M State unit := checked_free tid p.
Definition calloc (tid : nat) (n s : Z) : M State (option Z) := hm_calloc tid n s.
Definition realloc (tid : nat) (p : option Z) (s : Z) : M State (option Z) := checked_realloc tid p s.
Definition aligned_alloc (tid : nat) (a s : Z) : M State (option Z) := aligned tid a s.
Definition memalign (tid : nat) (a s : Z) : M State (option Z) := aligned tid a s.
Definition valloc (tid : nat) (s : Z) : M State (option Z) := do_valloc tid s.
Definition posix_memalign (tid : nat) (o : bool) (a s : Z) : M State (Z * option Z) :=
  do_posix_memalign tid o a s.
Definition malloc_usable_size (p : option Z) : M State Z := checked_usable p.

(** operator new, the nothrow forms, the aligned form, and operator delete. *)
Definition operator_new (tid : nat) (s : Z) : M State (thrown Z) :=
  p ← hm_malloc tid (if s =? 0 then 1 else s);
  match p with
  | None => mret BadAlloc
  | Some p => mret (Returns p)
  end.
Definition operator_new_array (tid : nat) (s : Z) : M State (thrown Z) := operator_new tid s.
Definition operator_new_nothrow (tid : nat) (s : Z) : M State (option Z) :=
  hm_malloc tid (if s =? 0 then 1 else s).
Definition operator_new_array_nothrow (tid : nat) (s : Z) : M State (option Z) :=
  hm_malloc tid (if s =? 0 then 1 else s).
Definition operator_new_aligned (tid : nat) (s a : Z) : M State (thrown Z) :=
  p ← hm_aligned_alloc tid a (if s =? 0 then 1 else s);
  match p with
  | None => mret BadAlloc
  | Some p => mret (Returns p)
  end.
Definition operator_new_array_aligned (tid : nat) (s a : Z) : M State (thrown Z) :=
  operator_new_aligned tid s a.
Definition operator_delete (tid : nat) (p : option Z) : M State unit := checked_free tid p.
Definition operator_delete_array (tid : nat) (p : option Z) : M State unit := checked_free tid p.
(** The sized, nothrow and aligned forms ignore their further arguments. *)
Definition operator_delete_sized (tid : nat) (p : option Z) (s : Z) : M State unit := checked_free tid p.
Definition operator_delete_array_sized (tid : nat) (p : option Z) (s : Z) : M State unit := checked_free tid p.
Definition operator_delete_nothrow (tid : nat) (p : option Z) : M State unit := checked_free tid p.
Definition operator_delete_array_nothrow (tid : nat) (p : option Z) : M State unit := checked_free tid p.
Definition operator_delete_aligned (tid : nat) (p : option Z) (a : Z) : M State unit := checked_free tid p.
Definition operator_delete_array_aligned (tid : nat) (p : option Z) (a : Z) : M State unit := checked_free tid p.
Definition operator_delete_sized_aligned (tid : nat) (p : option Z) (s a : Z) : M State unit :=
  checked_free tid p.
Definition operator_delete_array_sized_aligned (tid : nat) (p : option Z) (s a : Z) : M State unit :=
  checked_free tid p.

(** The exit-time report: the numbers printed, when the environment variable is
    set. *)
Definition hm_override_report (enabled : bool) : M State (option (Z * Z * Z * Z * Z)) :=
  if negb enabled then mret None
  else
    s ← hm_stats;
    mret (Some (bytes_reserved s, peak_bytes_reserved s, segments_mapped s, large_allocations s, malloc_count s)).

Context {KL : KernelLaws K} {Lg : Ledger}.

(** ** Routing *)

(** The base of the region of [p] is in the registry. *)
Definition registered st (p : Z) : Prop :=
  ∃ X, reg_wf (registry st) X ∧ region_base p ∈ X.

(** [p] lies in no region of hmalloc. *)
Definition foreign st (p : Z) : Prop :=
  segs st !! region_base p = None ∧ larges st !! region_base p = None.


Lemma region_base_not_tomb p : 0 ≤ p < 2 ^ 64 → region_base p ≠ TOMB.
Proof.
  intros Hp. rewrite region_base_mod by done. assert (SEGMENT_SIZE = 4194304) as -> by done.
  unfold TOMB. pose proof (Z.div_mod p 4194304 ltac:(lia)). lia.
Qed.

(** The test decides membership in the registry and changes nothing. *)
Lemma ours_spec st p (Q : bool → State → Prop) :
  mem_ok st → 0 ≤ p < 2 ^ 64 →
  (∀ b, (registered st p ↔ b = true) → (foreign st p → b = false) → Q b st) → wp (ours p) Q st.
Proof.
  intros H Hp HQ. destruct (mo_registry H) as (X & Hwf & Hroom & HX & _). apply wp_in_registry.
  eapply wp_mono; [apply (region_owns_spec (registry st) (os st) X (region_base p) Hwf); [by apply region_base_not_tomb|auto]|].
  intros b rs' [-> ->]. cbn [fst snd]. replace (set_registry (registry st) (set_os (os st) st)) with st by by destruct st.
  apply HQ.
  - rewrite bool_decide_eq_true. split; [|intros Hin; by exists X].
    intros (X' & Hwf' & Hin). by rewrite (reg_wf_det _ _ _ Hwf Hwf') in Hin.
  - intros [E1 E2]. apply bool_decide_false. intros Hin. destruct (HX _ Hin) as [Hx|Hx]; rewrite ?E1, ?E2 in Hx; by destruct Hx.
Qed.

(** An operation that tests the pointer first is the hmalloc one on registered
    pointers and the real one on foreign pointers. *)
Lemma routed {A} (m1 m2 : M State A) st p :
  mem_ok st → 0 ≤ p < 2 ^ 64 →
  (registered st p → (o ← ours p; if (o : bool) then m1 else m2) st = m1 st) ∧
  (foreign st p → (o ← ours p; if (o : bool) then m1 else m2) st = m2 st).
Proof.
  intros H Hp.
  assert (wp (ours p) (λ b st', st' = st ∧ (registered st p ↔ b = true) ∧ (foreign st p → b = false)) st) as Hw
    by by apply ours_spec.
  unfold wp in Hw. unfold mbind, M_bind. destruct (ours p st) as [[b st']| |]; [|done..].
  destruct Hw as (-> & H1 & H2). split; intros Hx; [by rewrite (proj1 H1 Hx)|by rewrite (H2 Hx)].
Qed.
Lemma ours_registered st p st' : mem_ok st → 0 ≤ p < 2 ^ 64 → ours p st = Ok (true, st') → registered st p.
Proof.
  intros H Hp He. assert (wp (ours p) (λ b _, registered st p ↔ b = true) st) as Hw by by apply ours_spec.
  unfold wp in Hw. rewrite He in Hw. by apply Hw.
Qed.

(** With a complete ledger, or a calm kernel, every block that was handed out is
    recognised. *)
Lemma allocated_region st p n : mem_ok st → allocated st p n → is_region st (region_base p).
Proof.
  intros H [(s & i & pg & Hl & ->)|(b & h & Hh & -> & ->)]%allocated_cases.
  - pose proof (live_page_of _ _ _ _ _ Hl) as E. injection E as Es _. unfold segment_of in Es. rewrite Es.
    left. apply (mo_segs H s i). destruct Hl as [Hpg _]. eauto.
  - right. rewrite (large_base st b h H Hh). eauto.
Qed.
Lemma allocated_registered st p n :
  ledger_complete ∨ kernel_calm st → mem_ok st → allocated st p n → registered st p.
Proof.
  intros Hc H Hp. destruct (mo_registry H) as (X & Hwf & _ & _ & HL & HC). exists X. split; [done|].
  apply (allocated_region st p n H) in Hp. destruct Hc as [[_ HL0]%HL|[_ HC0]%HC]; auto.
Qed.

Lemma allocated_address st p n : mem_ok st → allocated st p n → 0 ≤ p < 2 ^ 64.
Proof.
  intros H Hal. pose proof (allocated_pos st p n H Hal). pose proof (allocated_aligned st p n H Hal). lia.
Qed.

(** ** The entry points *)

Definition new_post st (size align : Z) (x : thrown Z) st' : Prop :=
  inv st' ∧ match x with
  | Returns b => got st (Z.max 1 size) align b st'
  | BadAlloc => same_alloc st st'
  end.

Lemma operator_new_spec st tid s :
  inv st → may_alloc tid st → 0 ≤ s < 2 ^ 64 → wp (operator_new tid s) (new_post st s ALLOC_ALIGN) st.
Proof.
  intros H Hma Hs. unfold operator_new. apply wp_bind.
  replace (if s =? 0 then 1 else s) with (Z.max 1 s) by (destruct (Z.eqb_spec s 0); lia).
  eapply wp_mono; [apply (hm_malloc_spec st tid (Z.max 1 s) H Hma); lia|].
  intros [b|] st' [Hi Hp]; apply wp_ret; by split.
Qed.

Lemma operator_new_aligned_spec st tid s a :
  inv st → may_alloc tid st → 0 ≤ s < 2 ^ 64 → 0 ≤ a < 2 ^ 64 →
  wp (operator_new_aligned tid s a) (new_post st s a) st.
Proof.
  intros H Hma Hs Ha. unfold operator_new_aligned. apply wp_bind.
  replace (if s =? 0 then 1 else s) with (Z.max 1 s) by (destruct (Z.eqb_spec s 0); lia).
  eapply wp_mono; [apply (hm_aligned_spec st tid a (Z.max 1 s) H Hma Ha); lia|].
  intros [b|] st' [[Hi Hp] _]; apply wp_ret; by split.
Qed.

(** The contract of posix_memalign. *)
Definition memalign_post st (out : bool) (alignment size : Z) (r : Z * option Z) st' : Prop :=
  inv st' ∧
  ((r = (EINVAL, None) ∧ st' = st ∧ (out = false ∨ alignment < sizeof_ptr ∨ ¬ pow2 alignment)) ∨
   (r = (ENOMEM, None) ∧ same_alloc st st' ∧ out = true ∧ sizeof_ptr ≤ alignment ∧ pow2 alignment) ∨
   (∃ b, r = (0, Some b) ∧ got st (Z.max 1 size) alignment b st' ∧ out = true ∧ sizeof_ptr ≤ alignment ∧ pow2 alignment)).

Lemma posix_memalign_spec st tid out alignment size :
  inv st → may_alloc tid st → 0 ≤ alignment < 2 ^ 64 → 0 ≤ size < 2 ^ 64 →
  wp (posix_memalign tid out alignment size) (memalign_post st out alignment size) st.
Proof.
  intros H Hma Ha Hs. unfold posix_memalign, do_posix_memalign. assert (sizeof_ptr = 8) as Ep by done.
  destruct out; simpl; [|apply wp_ret; split; [done|]; left; by auto].
  destruct (Z.ltb_spec alignment sizeof_ptr) as [Hlt|Hge]; simpl; [apply wp_ret; split; [done|]; left; by auto|].
  rewrite u64_small by lia. destruct (Z.eqb_spec (Z.land alignment (alignment - 1)) 0) as [E|E]; simpl.
  2: { apply wp_ret. split; [done|]. left. split_and!; try done. right; right. intros Hp. apply E. apply pow2_land_pred_iff; [lia|done]. }
  assert (pow2 alignment) as Hp by (apply pow2_land_pred_iff; [lia|done]).
  replace (if size =? 0 then 1 else size) with (Z.max 1 size) by (destruct (Z.eqb_spec size 0); lia).
  apply wp_bind. eapply wp_mono; [apply (hm_aligned_spec st tid alignment (Z.max 1 size) H Hma Ha); lia|].
  intros [b|] st' [[Hi Hx] _]; apply wp_ret; (split; [done|]); right; [right|left]; eauto 10.
Qed.

Lemma valloc_spec st tid size :
  inv st → may_alloc tid st → 0 ≤ size < 2 ^ 64 → wp (valloc tid size) (alloc_post st size os_page_size) st.
Proof.
  intros H Hma Hs. unfold valloc, do_valloc. cbv zeta. fold cached_page_size. fold os_page_size.
  pose proof page_size_range. assert (SEGMENT_SIZE = 4194304) as Es by reflexivity.
  eapply wp_mono; [apply (hm_aligned_spec st tid os_page_size size H Hma); lia|]. by intros x st' [Hp _].
Qed.
End override.

(** States in which the registry is known to hold every region: those reached
    from one in which it does, and those reached from the start while the kernel
    has refused nothing. *)
Definition tracked {K : Kernel} {C : Config} (st : State) : Prop :=
  (∃ st0, inv (Lg:=complete) st0 ∧ runs st0 st) ∨
  (∃ (Cm : Calm K) (o : OsState), calm_reach o st ∧ calm (kern (os st))).

Lemma tracked_registered {K : Kernel} {C : Config} {KL : KernelLaws K} (st : State) :
  tracked st → mem_ok (Lg:=unknown) st ∧ ∀ p n, allocated st p n → registered st p.
Proof.
  intros [(st0 & Hi & Hr)|(Cm & o & Hr & Hc)].
  - pose proof (hk_mem (iv_hok (runs_inv _ _ Hi Hr))) as Hm. split; [exact (mem_ok_unknown st Hm)|].
    intros p n. apply (allocated_registered (Lg:=complete)); [by left|done].
  - destruct (calm_reach_inv o st Hr) as [Hi _]. pose proof (hk_mem (iv_hok Hi)) as Hm. split; [exact (mem_ok_unknown st Hm)|].
    intros p n. apply (allocated_registered (Lg:=while_calm Cm)); [by right|done].
Qed.
