(* ===== verification/Remote.v ===== *)
(** * Cross-thread frees as interleaved steps (heap_free_remote and page_collect)

    PageOps models the push of a remote thread and the collection by the owner as
    single steps.  Here they are the sequences of memory accesses of the code,
    interleaved in any order between any number of threads: the load of
    [thread_free], the write of the link, the compare-and-swap that may fail, and
    on the owner's side the exchange, the walk to the tail and the splice.
    Accesses are interleaved; the reorderings that the release and acquire orders
    of the code forbid are not modelled.

    [step] is the relation of the code over one page; [astep] moves blocks between
    the sets an observer knows.  The simulation shows that the compare-and-swap
    and the exchange are the points where the operations take effect, so that no
    block is lost or handed out twice. *)
From Stdlib Require Import ZArith Lia.
From stdpp Require Import base numbers list gmap.
From S2P Require Import Prelude Words Constants Chains.

(** A thread inside heap_free_remote: before the load, before the write of
    [b->next], before the compare-and-swap, and after it. *)
Inductive pusher :=
| PLoad (b : Z)
| PWrite (b : Z) (head : option Z)
| PCas (b : Z) (head : option Z)
| PDone.

(** The owner: outside page_collect, or walking from [list] with [tail] and [n]. *)
Inductive collector :=
| CIdle
| CWalk (list tail n : Z).

(** [thread_free], the link words of the blocks, [free] and [used] of the page,
    the threads, and the blocks the client holds. *)
Record sys := mkSys {
  sy_tfree : option Z;
  sy_next : gmap Z (option Z);
  sy_free : option Z;
  sy_used : Z;
  sy_push : list pusher;
  sy_owner : collector;
  sy_live : list Z
}.

(** [heap_free_remote] as one thread sees it: the head of the list, the link words
    and its own position.  The compare-and-swap fails when the head has changed,
    and, being the weak one, may also fail for no reason ([true]); a failed one
    reloads the head. *)
Inductive push_at : bool → option Z → gmap Z (option Z) → pusher → option Z → gmap Z (option Z) → pusher → Prop :=
| st_load h m b : push_at false h m (PLoad b) h m (PWrite b h)
| st_write h m b x : push_at false h m (PWrite b x) h (<[b := x]> m) (PCas b x)
| st_cas_ok h m b : push_at false h m (PCas b h) (Some b) m PDone
| st_cas_lost h m b x : x ≠ h → push_at false h m (PCas b x) h m (PWrite b h)
| st_cas_weak h m b : push_at true h m (PCas b h) h m (PWrite b h).

Inductive push_step : sys → sys → Prop :=
| st_push w h m f u l1 l2 q o v h' m' q' :
    push_at w h m q h' m' q' →
    push_step (mkSys h m f u (l1 ++ q :: l2) o v) (mkSys h' m' f u (l1 ++ q' :: l2) o v).

(** [page_collect]: exchange, walk to the tail, splice. *)
Inductive collect_step : sys → sys → Prop :=
| st_exchange h m f u p v :
    collect_step (mkSys h m f u p CIdle v)
         (mkSys None m f u p (match h with Some l => CWalk l l 1 | None => CIdle end) v)
| st_walk h m f u p l t n t' v :
    m !! t = Some (Some t') →
    collect_step (mkSys h m f u p (CWalk l t n) v) (mkSys h m f u p (CWalk l t' (u32 (n + 1))) v)
| st_splice h m f u p l t n v :
    m !! t = Some None →
    collect_step (mkSys h m f u p (CWalk l t n) v) (mkSys h (<[t := f]> m) (Some l) (u32 (u - n)) p CIdle v).

(** [page_pop] by the owner. *)
Inductive pop_step : sys → sys → Prop :=
| st_pop h m b nx u p v :
    m !! b = Some nx →
    pop_step (mkSys h m (Some b) u p CIdle v) (mkSys h m nx (u32 (u + 1)) p CIdle (b :: v)).

(** [heap_free] of a block the client holds: by the owner, or by another thread,
    which enters [heap_free_remote]. *)
Inductive free_step : sys → sys → Prop :=
| st_local h m f u p v1 v2 b :
    free_step (mkSys h m f u p CIdle (v1 ++ b :: v2))
         (mkSys h (<[b := f]> m) (Some b) (u32 (u - 1)) p CIdle (v1 ++ v2))
| st_remote h m f u p o v1 v2 b :
    free_step (mkSys h m f u p o (v1 ++ b :: v2)) (mkSys h m f u (PLoad b :: p) o (v1 ++ v2)).

Inductive step (s s' : sys) : Prop :=
| by_push : push_step s s' → step s s'
| by_collect : collect_step s s' → step s s'
| by_pop : pop_step s s' → step s s'
| by_free : free_step s s' → step s s'.

(** ** What an observer sees *)

(** Blocks on their way, on the cross-thread list, taken by the owner, on the
    local list, and held by the client. *)
Record abs := mkAbs { a_fly : list Z; a_stack : list Z; a_taken : list Z; a_local : list Z; a_live : list Z }.

Definition blocks (a : abs) : list Z := a_fly a ++ a_stack a ++ a_taken a ++ a_local a ++ a_live a.

Inductive astep : abs → abs → Prop :=
| as_stutter a : astep a a
| as_push l1 l2 b s t f v : astep (mkAbs (l1 ++ b :: l2) s t f v) (mkAbs (l1 ++ l2) (b :: s) t f v)
| as_take l s f v : astep (mkAbs l s [] f v) (mkAbs l [] s f v)
| as_give l s t f v : astep (mkAbs l s t f v) (mkAbs l s [] (t ++ f) v)
| as_pop l s t f b v : astep (mkAbs l s t (b :: f) v) (mkAbs l s t f (b :: v))
| as_local l s t f v1 b v2 : astep (mkAbs l s t f (v1 ++ b :: v2)) (mkAbs l s t (b :: f) (v1 ++ v2))
| as_remote l s t f v1 b v2 : astep (mkAbs l s t f (v1 ++ b :: v2)) (mkAbs (b :: l) s t f (v1 ++ v2)).

Lemma astep_blocks a a' : astep a a' → blocks a' ≡ₚ blocks a.
Proof. destruct 1; unfold blocks; simpl; solve_Permutation. Qed.

(** ** The simulation relation *)

Definition fly_of (p : pusher) : list Z :=
  match p with PLoad b | PWrite b _ | PCas b _ => [b] | PDone => [] end.
Definition fly (p : list pusher) : list Z := mjoin (fly_of <$> p).

(** A pending compare-and-swap has its link written. *)
Definition linked (m : gmap Z (option Z)) (p : pusher) : Prop :=
  match p with PCas b x => m !! b = Some x | _ => True end.

Definition nx (m : gmap Z (option Z)) (k : Z) : option (option Z) := m !! k.

Definition taken (m : gmap Z (option Z)) (o : collector) (t : list Z) : Prop :=
  match o with
  | CIdle => t = []
  | CWalk l x n => chain (nx m) (Some l) t ∧ ∃ t1 t2, t = t1 ++ x :: t2 ∧ n = Z.of_nat (length t1) + 1
  end.

Record sim (s : sys) (a : abs) : Prop := {
  sm_fly : a_fly a = fly (sy_push s);
  sm_live : a_live a = sy_live s;
  sm_stack : chain (nx (sy_next s)) (sy_tfree s) (a_stack a);
  sm_local : chain (nx (sy_next s)) (sy_free s) (a_local a);
  sm_taken : taken (sy_next s) (sy_owner s) (a_taken a);
  sm_linked p : p ∈ sy_push s → linked (sy_next s) p;
  sm_nodup : NoDup (blocks a);
  sm_size : Z.of_nat (length (blocks a)) < 2 ^ 32;
  sm_used : sy_used s = Z.of_nat (length (blocks a)) - Z.of_nat (length (a_local a))
}.

Lemma fly_app l1 p l2 : fly (l1 ++ p :: l2) = fly l1 ++ fly_of p ++ fly l2.
Proof. unfold fly. by rewrite fmap_app, join_app. Qed.

(** Writing the link of a block outside a chain keeps the chain. *)
Lemma chain_write m b x h l : b ∉ l → chain (nx m) h l → chain (nx (<[b := x]> m)) h l.
Proof. intros Hb. apply chain_ext. intros k Hk. unfold nx. rewrite lookup_insert_ne; [done|]. by intros ->. Qed.

Lemma taken_write m b x o t : b ∉ t → taken m o t → taken (<[b := x]> m) o t.
Proof. destruct o as [|l y n]; [done|]. intros Hb [Hc Ht]. split; [by apply chain_write|done]. Qed.

Lemma elem_of_fly q l b : q ∈ l → b ∈ fly_of q → b ∈ fly l.
Proof. intros Hq Hb. unfold fly. apply list_elem_of_join. exists (fly_of q). split; [done|]. by apply list_elem_of_fmap_2. Qed.

Lemma linked_write m l b x :
  b ∉ fly l → (∀ p, p ∈ l → linked m p) → ∀ p, p ∈ l → linked (<[b := x]> m) p.
Proof.
  intros Hb Hl p Hp. specialize (Hl p Hp). destruct p as [| |b' y|]; try done. simpl in *.
  rewrite lookup_insert_ne; [done|]. intros ->. apply Hb. eapply elem_of_fly; [done|]. simpl. set_solver.
Qed.

(** The parts of the relation that follow from the abstract step. *)
Lemma sim_blocks s a a' :
  sim s a → astep a a' → NoDup (blocks a') ∧ Z.of_nat (length (blocks a')) < 2 ^ 32 ∧
  length (blocks a') = length (blocks a).
Proof.
  intros H Ha. pose proof (astep_blocks a a' Ha) as Hp.
  rewrite (Permutation_length Hp). split_and!; [|apply H|done]. rewrite Hp. apply H.
Qed.

Ltac apart := repeat match goal with H : NoDup (_ ++ _) |- _ => apply NoDup_app in H as (? & ? & ?) end;
  repeat match goal with H : NoDup (_ :: _) |- _ => apply NoDup_cons in H as [? ?] end; set_solver.

Section push.
Context (h : option Z) (m : gmap Z (option Z)) (f : option Z) (u : Z) (l1 l2 : list pusher) (o : collector) (v : list Z).

(** A step of a pushing thread that only moves its program counter. *)
Lemma sim_local_step p p' a :
  fly_of p' = fly_of p → linked m p' →
  sim (mkSys h m f u (l1 ++ p :: l2) o v) a → sim (mkSys h m f u (l1 ++ p' :: l2) o v) a.
Proof.
  intros Hf Hl [H1 H2 H3 H4 H5 H6 H7 H8 H9]. constructor; try done; simpl in *.
  - by rewrite H1, !fly_app, Hf.
  - intros q Hq. apply elem_of_app in Hq as [Hq|[->|Hq]%elem_of_cons]; [|done|]; apply H6; set_solver.
Qed.

Lemma sim_write_step b x a :
  sim (mkSys h m f u (l1 ++ PWrite b x :: l2) o v) a →
  sim (mkSys h (<[b := x]> m) f u (l1 ++ PCas b x :: l2) o v) a.
Proof.
  intros [H1 H2 H3 H4 H5 H6 H7 H8 H9]. destruct a as [fl s t lo lv]. simpl in *. subst fl lv.
  unfold blocks in H7. simpl in H7. rewrite fly_app in H7. simpl in H7.
  constructor; simpl; try done.
  - by rewrite !fly_app.
  - apply chain_write; [apart|done].
  - apply chain_write; [apart|done].
  - apply taken_write; [apart|done].
  - intros q Hq. apply elem_of_app in Hq as [Hq|[->|Hq]%elem_of_cons].
    + eapply (linked_write m l1); [apart| |done]. intros p Hp. apply H6. set_solver.
    + simpl. by rewrite lookup_insert_eq.
    + eapply (linked_write m l2); [apart| |done]. intros p Hp. apply H6. set_solver.
  - unfold blocks. simpl. by rewrite fly_app.
Qed.

(** The compare-and-swap pushes the block. *)
Lemma sim_cas_step b a :
  sim (mkSys h m f u (l1 ++ PCas b h :: l2) o v) a →
  ∃ a', astep a a' ∧ sim (mkSys (Some b) m f u (l1 ++ PDone :: l2) o v) a'.
Proof.
  intros H. pose proof H as [H1 H2 H3 H4 H5 H6 H7 H8 H9]. destruct a as [fl s t lo lv]. simpl in *. subst fl lv.
  rewrite fly_app in H. simpl in H.
  assert (astep (mkAbs (fly l1 ++ b :: fly l2) s t lo v) (mkAbs (fly l1 ++ fly l2) (b :: s) t lo v)) as Ha by constructor.
  destruct (sim_blocks _ _ _ H Ha) as (N1 & N2 & N3).
  rewrite fly_app. eexists. split; [exact Ha|]. constructor; simpl; try done.
  - by rewrite fly_app.
  - split; [done|]. exists h. split; [|done]. apply (H6 (PCas b h)). set_solver.
  - intros q Hq. apply elem_of_app in Hq as [Hq|[->|Hq]%elem_of_cons]; [|done|]; apply H6; set_solver.
  - rewrite N3, H9, fly_app. done.
Qed.
End push.

(** ** Steps of the owner and of the client *)

Lemma chain_cut m h t1 x t2 : chain (nx m) h (t1 ++ x :: t2) → m !! x = Some (head t2).
Proof.
  intros H. unfold chain in H. apply cseg_app in H as (? & _ & _ & n & Hn & H). unfold nx in Hn.
  rewrite Hn. f_equal. destruct t2; [done|by destruct H].
Qed.

Section own.
Context (h : option Z) (m : gmap Z (option Z)) (f : option Z) (u : Z) (p : list pusher) (v : list Z).

Lemma sim_exchange_step a :
  sim (mkSys h m f u p CIdle v) a →
  ∃ a', astep a a' ∧ sim (mkSys None m f u p (match h with Some l => CWalk l l 1 | None => CIdle end) v) a'.
Proof.
  intros H. pose proof H as [H1 H2 H3 H4 H5 H6 H7 H8 H9]. destruct a as [fl s t lo lv]. simpl in *. subst fl lv t.
  assert (astep (mkAbs (fly p) s [] lo v) (mkAbs (fly p) [] s lo v)) as Ha by constructor.
  destruct (sim_blocks _ _ _ H Ha) as (N1 & N2 & N3). eexists. split; [exact Ha|].
  constructor; simpl; try done.
  destruct h as [l|]; [|by apply chain_none in H3]. split; [done|].
  apply chain_some in H3 as (n & s' & -> & _). exists [], s'. done.
Qed.

Lemma sim_walk_step l x n t' a :
  m !! x = Some (Some t') → sim (mkSys h m f u p (CWalk l x n) v) a →
  sim (mkSys h m f u p (CWalk l t' (u32 (n + 1))) v) a.
Proof.
  intros Hx [H1 H2 H3 H4 H5 H6 H7 H8 H9]. destruct a as [fl s t lo lv]. simpl in *. subst fl lv.
  destruct H5 as [Hc (t1 & t2 & -> & ->)]. constructor; simpl; try done. split; [done|].
  pose proof (chain_cut _ _ _ _ _ Hc) as E. rewrite Hx in E. destruct t2 as [|y t2]; simplify_eq/=.
  exists (t1 ++ [x]), t2. split; [by rewrite <-app_assoc|].
  unfold blocks in H8. simpl in H8. rewrite !length_app in *. simpl in *. rewrite u32_small; lia.
Qed.

Lemma sim_splice_step l x n a :
  m !! x = Some None → sim (mkSys h m f u p (CWalk l x n) v) a →
  ∃ a', astep a a' ∧ sim (mkSys h (<[x := f]> m) (Some l) (u32 (u - n)) p CIdle v) a'.
Proof.
  intros Hx H. pose proof H as [H1 H2 H3 H4 H5 H6 H7 H8 H9]. destruct a as [fl s t lo lv]. simpl in *. subst fl lv.
  destruct H5 as [Hc (t1 & t2 & -> & ->)]. pose proof (chain_cut _ _ _ _ _ Hc) as E. rewrite Hx in E.
  destruct t2 as [|y t2]; simplify_eq/=.
  assert (astep (mkAbs (fly p) s (t1 ++ [x]) lo v) (mkAbs (fly p) s [] ((t1 ++ [x]) ++ lo) v)) as Ha by constructor.
  destruct (sim_blocks _ _ _ H Ha) as (N1 & N2 & N3). eexists. split; [exact Ha|]. unfold blocks in H7. simpl in H7.
  constructor; simpl; try done.
  - apply chain_write; [apart|done].
  - rewrite <-app_assoc. simpl. eapply chain_splice; [done|..].
    + intros k Hk. unfold nx. rewrite lookup_insert_ne; [done|]. intros <-. apart.
    + unfold nx. by rewrite lookup_insert_eq.
    + apply chain_write; [apart|done].
  - eapply linked_write; [apart|done].
  - rewrite N3. unfold blocks in *. simpl in *. rewrite !length_app in *. simpl in *. rewrite u32_small; lia.
Qed.

Lemma sim_pop_step b nxt a :
  m !! b = Some nxt → sim (mkSys h m (Some b) u p CIdle v) a →
  ∃ a', astep a a' ∧ sim (mkSys h m nxt (u32 (u + 1)) p CIdle (b :: v)) a'.
Proof.
  intros Hb H. pose proof H as [H1 H2 H3 H4 H5 H6 H7 H8 H9]. destruct a as [fl s t lo lv]. simpl in *. subst fl lv.
  apply chain_some in H4 as (n & lo' & -> & Hn & Hc). unfold nx in Hn. simplify_eq.
  assert (astep (mkAbs (fly p) s [] (b :: lo') v) (mkAbs (fly p) s [] lo' (b :: v))) as Ha by constructor.
  destruct (sim_blocks _ _ _ H Ha) as (N1 & N2 & N3). eexists. split; [exact Ha|].
  constructor; simpl; try done. rewrite N3. unfold blocks in *. simpl in *. rewrite !length_app in *. simpl in *.
  rewrite u32_small; lia.
Qed.
End own.

Section give.
Context (h : option Z) (m : gmap Z (option Z)) (f : option Z) (u : Z) (p : list pusher) (v1 v2 : list Z) (b : Z).

Lemma sim_local_free a :
  sim (mkSys h m f u p CIdle (v1 ++ b :: v2)) a →
  ∃ a', astep a a' ∧ sim (mkSys h (<[b := f]> m) (Some b) (u32 (u - 1)) p CIdle (v1 ++ v2)) a'.
Proof.
  intros H. pose proof H as [H1 H2 H3 H4 H5 H6 H7 H8 H9]. destruct a as [fl s t lo lv]. simpl in *. subst fl lv t.
  assert (astep (mkAbs (fly p) s [] lo (v1 ++ b :: v2)) (mkAbs (fly p) s [] (b :: lo) (v1 ++ v2))) as Ha by constructor.
  destruct (sim_blocks _ _ _ H Ha) as (N1 & N2 & N3). eexists. split; [exact Ha|]. unfold blocks in H7. simpl in H7.
  constructor; simpl; try done.
  - apply chain_write; [apart|done].
  - split; [done|]. exists f. split; [unfold nx; by rewrite lookup_insert_eq|]. apply chain_write; [apart|done].
  - eapply linked_write; [apart|done].
  - rewrite N3. unfold blocks in *. simpl in *. rewrite !length_app in *. simpl in *. rewrite u32_small; lia.
Qed.

Lemma sim_remote_free o a :
  sim (mkSys h m f u p o (v1 ++ b :: v2)) a →
  ∃ a', astep a a' ∧ sim (mkSys h m f u (PLoad b :: p) o (v1 ++ v2)) a'.
Proof.
  intros H. pose proof H as [H1 H2 H3 H4 H5 H6 H7 H8 H9]. destruct a as [fl s t lo lv]. simpl in *. subst fl lv.
  assert (astep (mkAbs (fly p) s t lo (v1 ++ b :: v2)) (mkAbs (b :: fly p) s t lo (v1 ++ v2))) as Ha by constructor.
  destruct (sim_blocks _ _ _ H Ha) as (N1 & N2 & N3). eexists. split; [exact Ha|].
  constructor; try done.
  - simpl. intros q [->|Hq]%elem_of_cons; [done|auto].
  - rewrite N3. apply H9.
Qed.
End give.

(** Every step of the code is a step of the observer. *)
Lemma step_sim s s' a : sim s a → step s s' → ∃ a', astep a a' ∧ sim s' a'.
Proof.
  intros H Hst. destruct Hst as [Hst|Hst|Hst|Hst];
    [destruct Hst as [w h m f u l1 l2 q o v h' m' q' Hq]; destruct Hq|destruct Hst..].
  - exists a. split; [constructor|]. by eapply sim_local_step; [..|exact H].
  - exists a. split; [constructor|]. by apply sim_write_step.
  - by eapply sim_cas_step.
  - exists a. split; [constructor|]. by eapply sim_local_step; [..|exact H].
  - exists a. split; [constructor|]. by eapply sim_local_step; [..|exact H].
  - by eapply sim_exchange_step.
  - exists a. split; [constructor|]. by eapply sim_walk_step.
  - by eapply sim_splice_step.
  - by eapply sim_pop_step.
  - by eapply sim_local_free.
  - by eapply sim_remote_free.
Qed.

(** A page whose carved blocks are all on the local list. *)
Definition start (f : option Z) (m : gmap Z (option Z)) : sys := mkSys None m f 0 [] CIdle [].

Lemma sim_start f m l :
  chain (nx m) f l → Z.of_nat (length l) < 2 ^ 32 → sim (start f m) (mkAbs [] [] [] l []).
Proof.
  intros Hc Hl. pose proof (chain_NoDup _ _ _ Hc) as Hnd.
  constructor; simpl; try done; unfold blocks; simpl; rewrite ?app_nil_r; try done; [by intros p ?%elem_of_nil|lia].
Qed.

Definition reachable (s0 s : sys) : Prop := rtc step s0 s.

Lemma reachable_sim f m l s :
  chain (nx m) f l → Z.of_nat (length l) < 2 ^ 32 → reachable (start f m) s →
  ∃ a, sim s a ∧ blocks a ≡ₚ l.
Proof.
  intros Hc Hl Hr. pose proof (sim_start f m l Hc Hl) as H0.
  assert (blocks (mkAbs [] [] [] l []) ≡ₚ l) as Hb by (unfold blocks; simpl; by rewrite app_nil_r).
  revert H0 Hb. generalize (mkAbs [] [] [] l []). induction Hr as [s|s1 s2 s3 Hst _ IH]; intros a Ha Hb; [eauto|].
  destruct (step_sim _ _ _ Ha Hst) as (a' & Hast & Ha'). apply (IH a' Ha').
  by rewrite (astep_blocks _ _ Hast).
Qed.

(** ** One thread alone *)

(** A run of [n] steps of the pushing thread between [l1] and [l2], in which the
    compare-and-swap failed [k] times for no reason. *)
Inductive alone (l1 l2 : list pusher) : nat → nat → sys → sys → Prop :=
| al_none s : alone l1 l2 0 0 s s
| al_step n k w h m f u q o v h' m' q' s' :
    push_at w h m q h' m' q' → alone l1 l2 n k (mkSys h' m' f u (l1 ++ q' :: l2) o v) s' →
    alone l1 l2 (S n) (if w then S k else k) (mkSys h m f u (l1 ++ q :: l2) o v) s'.

(** The steps left when no compare-and-swap fails for no reason. *)
Definition push_left (h : option Z) (q : pusher) : nat :=
  match q with
  | PLoad _ => 3
  | PWrite _ x => if decide (x = h) then 2 else 4
  | PCas _ x => if decide (x = h) then 1 else 3
  | PDone => 0
  end.

Lemma push_at_left w h m q h' m' q' :
  push_at w h m q h' m' q' → S (push_left h' q') = (push_left h q + (if w then 2 else 0))%nat.
Proof. destruct 1; simpl; repeat case_decide; try done; lia. Qed.

(** How far the thread is, on the list [h0] and the links [m0] it started from. *)
Definition push_at_ok (h0 : option Z) (m0 : gmap Z (option Z)) (b : Z) h m (q : pusher) : Prop :=
  match q with
  | PDone => h = Some b ∧ m = <[b := h0]> m0
  | _ => fly_of q = [b] ∧ h = h0 ∧ <[b := h0]> m = <[b := h0]> m0 ∧ linked m q
  end.

Lemma push_at_keeps h0 m0 b w h m q h' m' q' :
  push_at w h m q h' m' q' → push_at_ok h0 m0 b h m q → push_at_ok h0 m0 b h' m' q'.
Proof.
  destruct 1 as [h m c|h m c x|h m c|h m c x Hx|h m c]; simpl; intros (E1 & E2 & E3 & E4); simplify_eq; split_and!; try done.
  - by rewrite insert_insert_eq.
  - by rewrite lookup_insert_eq.
  - by rewrite <- E3, insert_id.
Qed.

(** As long as it is not done the thread can step. *)
Lemma push_at_next h m q : q = PDone ∨ ∃ h' m' q', push_at false h m q h' m' q'.
Proof.
  destruct q as [b|b x|b x|]; [right|right|right|by left]; [repeat eexists; constructor..|].
  destruct (decide (x = h)) as [->|Hne]; repeat eexists; [apply st_cas_ok|by apply st_cas_lost].
Qed.

Lemma alone_run l1 l2 n k s s' :
  alone l1 l2 n k s s' → ∀ h0 m0 b h m f u q o v, s = mkSys h m f u (l1 ++ q :: l2) o v → push_at_ok h0 m0 b h m q →
  ∃ h' m' q', s' = mkSys h' m' f u (l1 ++ q' :: l2) o v ∧ push_at_ok h0 m0 b h' m' q' ∧
    (n + push_left h' q' = push_left h q + 2 * k)%nat.
Proof.
  induction 1 as [s|n k w h1 m1 f1 u1 q1 o1 v1 h2 m2 q2 s2 Hq _ IH]; intros h0 m0 b h m f u q o v E Hok.
  - exists h, m, q. split_and!; [done..|lia].
  - injection E as -> -> -> -> E -> ->. apply app_inv_head in E. injection E as ->.
    destruct (IH h0 m0 b h2 m2 f u q2 o v eq_refl (push_at_keeps _ _ _ _ _ _ _ _ _ _ Hq Hok)) as (h' & m' & q' & -> & Hok' & Hn).
    exists h', m', q'. pose proof (push_at_left _ _ _ _ _ _ _ Hq). split_and!; [done..|]. destruct w; lia.
Qed.

(** ** Theorems *)

(** C12: cross-thread frees lose and duplicate nothing.  From a page whose blocks
    are all free, after any interleaving of allocations, local frees, remote
    frees by any number of threads and collections by the owner, every block is
    in exactly one place, [used] counts the blocks that are not on the local
    list, and once the pushes are done and the owner has collected, the local
    list holds every block the client does not hold. *)
Theorem remote_free_no_loss (f : option Z) (m : gmap Z (option Z)) (l : list Z) (s : sys)
    (Hc : chain (nx m) f l) (Hl : Z.of_nat (length l) < 2 ^ 32) (Hr : reachable (start f m) s) :
  ∃ a, sim s a ∧ NoDup (blocks a) ∧ blocks a ≡ₚ l ∧
    (fly (sy_push s) = [] → sy_tfree s = None → sy_owner s = CIdle →
     a_local a ++ sy_live s ≡ₚ l ∧ sy_used s = Z.of_nat (length (sy_live s))).
Proof.
  destruct (reachable_sim f m l s Hc Hl Hr) as (a & Ha & Hb). exists a. split_and!; [done|apply Ha|done|].
  intros E1 E2 E3. destruct Ha as [H1 H2 H3 H4 H5 _ _ _ H9]. destruct a as [fl st t lo lv]. simpl in *. subst fl lv.
  rewrite E2 in H3. apply chain_none in H3 as ->. rewrite E3 in H5. simpl in H5. subst t.
  unfold blocks in *. simpl in *. rewrite E1 in *. simpl in *. split; [done|]. rewrite H9, length_app. lia.
Qed.

(** C29: a remote free is never blocked by other threads.  Let a thread inside
    heap_free_remote run alone from any point, whatever the other threads have done
    and wherever they were stopped (if it is before its compare-and-swap, its link
    is the one it wrote).  Every such run is short: in [n] steps of which [k] are
    compare-and-swaps that failed for no reason, [n] is at most 4 + 2[k].  And every
    such run either has pushed the block, so that the list starts with it, its link
    is the former head and nothing else has changed, or can go on by a step that is
    not such a failure. *)
Theorem remote_push_completes (s s' : sys) (l1 l2 : list pusher) (q : pusher) (b : Z) (n k : nat)
    (Hp : sy_push s = l1 ++ q :: l2) (Hq : fly_of q = [b]) (Hlink : linked (sy_next s) q)
    (Hrun : alone l1 l2 n k s s') :
  (n ≤ 4 + 2 * k)%nat ∧
  (s' = mkSys (Some b) (<[b := sy_tfree s]> (sy_next s)) (sy_free s) (sy_used s) (l1 ++ PDone :: l2) (sy_owner s) (sy_live s) ∨
   ∃ s'', alone l1 l2 1 0 s' s'').
Proof.
  destruct s as [h m f u p o v]. simpl in *. subst p.
  assert (push_at_ok h m b h m q) as Hok by (destruct q; simpl in *; by simplify_eq).
  destruct (alone_run _ _ _ _ _ _ Hrun h m b h m f u q o v eq_refl Hok) as (h' & m' & q' & -> & Hok' & Hn). split.
  - assert (push_left h q ≤ 4)%nat by (destruct q; simpl; repeat case_decide; lia). lia.
  - destruct (push_at_next h' m' q') as [->|(h2 & m2 & q2 & Hs)]; [left; by destruct Hok' as [-> ->]|right].
    eexists. apply (al_step l1 l2 0 0 false _ _ _ _ _ _ _ _ _ _ _ Hs). constructor.
Qed.

(** Two blocks: one popped, freed by another thread, collected while the second
    is popped. *)
Definition two : gmap Z (option Z) := <[16 := Some 32]> {[32 := None]}.

Lemma two_chain : chain (nx two) (Some 16) [16; 32].
Proof. split; [done|]. exists (Some 32). split; [done|]. split; [done|]. by exists None. Qed.

Lemma two_run : reachable (start (Some 16) two) (mkSys (Some 16) (<[16 := None]> two) (Some 32) 1 [PDone] CIdle []).
Proof.
  eapply rtc_l; [eapply by_pop, st_pop; reflexivity|]. eapply rtc_l; [eapply by_free, (st_remote _ _ _ _ _ _ [] [])|].
  eapply rtc_l; [eapply by_push, (st_push _ _ _ _ _ [] []), st_load|]. eapply rtc_l; [eapply by_push, (st_push _ _ _ _ _ [] []), st_write|].
  eapply rtc_l; [eapply by_push, (st_push _ _ _ _ _ [] []), st_cas_ok|]. done.
Qed.

Lemma remote_free_no_loss_witness :
  let s := mkSys (Some 16) (<[16 := None]> two) (Some 32) 1 [PDone] CIdle [] in
  ∃ a, sim s a ∧ NoDup (blocks a) ∧ blocks a ≡ₚ [16; 32] ∧
    (fly (sy_push s) = [] → sy_tfree s = None → sy_owner s = CIdle →
     a_local a ++ sy_live s ≡ₚ [16; 32] ∧ sy_used s = Z.of_nat (length (sy_live s))).
Proof.
  exact (remote_free_no_loss (Some 16) two [16; 32] _ two_chain ltac:(reflexivity) two_run).
Defined.

(** A thread that lost the race against the push of block 32 and then fails once
    for no reason. *)
Definition raced : sys := mkSys (Some 32) two None 2 [PCas 16 (Some 32)] CIdle [].
Lemma raced_run : alone [] [] 3 1 raced (mkSys (Some 16) two None 2 [PDone] CIdle []).
Proof.
  apply (al_step [] [] 2 0 true _ _ _ _ _ _ _ _ _ _ _ (st_cas_weak _ _ _)).
  apply (al_step [] [] 1 0 false _ _ _ _ _ _ _ _ _ _ _ (st_write _ _ _ _)).
  replace (<[16 := Some 32]> two) with two by (unfold two; by rewrite insert_insert_eq).
  apply (al_step [] [] 0 0 false _ _ _ _ _ _ _ _ _ _ _ (st_cas_ok _ _ _)). constructor.
Qed.

Lemma remote_push_completes_witness :
  (3 ≤ 4 + 2 * 1)%nat ∧
  (mkSys (Some 16) two None 2 [PDone] CIdle [] =
     mkSys (Some 16) (<[16 := sy_tfree raced]> (sy_next raced)) (sy_free raced) (sy_used raced) ([] ++ PDone :: []) (sy_owner raced) (sy_live raced) ∨
   ∃ s'', alone [] [] 1 0 (mkSys (Some 16) two None 2 [PDone] CIdle []) s'').
Proof.
  exact (remote_push_completes raced _ [] [] (PCas 16 (Some 32)) 16 3 1 eq_refl eq_refl eq_refl raced_run).
Defined.
