(* ===== verification/Lifecycle.v ===== *)
(** * The life of one page among concurrent threads

    A page is owned by a heap, abandoned by an exiting thread, swept, pooled and
    taken again, while any thread may free its blocks.  Its members [free],
    [used], [reserved] and its links are plain variables: the code relies on the
    ownership test of heap_free and on the central mutex to keep them to one
    thread at a time.  This file models every thread at the granularity of the
    accesses to the shared members (the load of [owner], the compare-and-swap and
    the exchange on [thread_free], taking and leaving the mutex) and proves that
    no two threads are ever inside the plain members at once, that no block is
    lost or handed out twice over the whole life of the page, and that the page
    goes back to the pool only when nobody can touch it any more.

    The steps of a push and of a collection inside [thread_free] are those of
    [Remote]; here a push takes effect at its compare-and-swap.  Accesses are
    interleaved; reorderings of relaxed accesses are not modelled. *)
From Stdlib Require Import ZArith Lia.
From stdpp Require Import base numbers list gmap.
From S2P Require Import Prelude Words Constants Segment.

(** Who runs page_collect: the slow path, heap_destroy, or the sweep. *)
Inductive kont := KMalloc | KExit | KSweep.

(** Where a thread is with respect to the page. *)
Inductive pc :=
| Idle
| FreeTest (b : Z)              (* heap_free, before the load of owner *)
| FreeLocal (b : Z)             (* the owner matched: before the plain push *)
| FreePush (b : Z)              (* heap_free_remote, before its compare-and-swap *)
| LocalEmpty                    (* heap_on_page_empty *)
| Own (k : kont)                (* using the page; before the exchange of page_collect *)
| Splice (k : kont) (l : list Z) (* page_collect after the exchange *)
| Decide (k : kont)             (* before the test of used *)
| ExitRelease                   (* central_release_page, before the mutex *)
| ExitAbandon                   (* central_abandon_page, before the mutex *)
| Releasing                     (* pool_return, with the mutex *)
| Abandoning                    (* central_abandon_page, with the mutex *)
| Taking.                       (* central_acquire_page, with the mutex *)

(** The page, the mutex of the central heap, the threads' heaps, and the blocks
    the clients hold.  [fresh] are the blocks not carved yet. *)
Record shared := mkShared {
  s_owner : option heapref;
  s_lock : option nat;
  s_heap : gmap nat Z;
  s_tfree : list Z;
  s_local : list Z;
  s_fresh : list Z;
  s_live : list Z;
  s_used : Z
}.

Definition after (k : kont) : pc := match k with KMalloc => Own KMalloc | _ => Decide k end.

(** ** The steps of thread [t], one relation per function *)

(** heap_create: the thread makes its heap. *)
Inductive create_step (t : nat) : pc → shared → pc → shared → Prop :=
| t_create o k H tf lo fr li u a :
    H !! t = None → (∀ t', H !! t' ≠ Some a) →
    create_step t Idle (mkShared o k H tf lo fr li u) Idle (mkShared o k (<[t := a]> H) tf lo fr li u).

(** heap_free: a client gives back a block; the load of [owner] decides who pushes
    it, and the owner pushes it on the plain list. *)
Inductive free_step (t : nat) : pc → shared → pc → shared → Prop :=
| t_free o k H tf lo fr l1 b l2 u :
    free_step t Idle (mkShared o k H tf lo fr (l1 ++ b :: l2) u) (FreeTest b) (mkShared o k H tf lo fr (l1 ++ l2) u)
| t_test o k H tf lo fr li u b :
    free_step t (FreeTest b) (mkShared o k H tf lo fr li u)
      (if bool_decide (o = HeapAt <$> H !! t) then FreeLocal b else FreePush b) (mkShared o k H tf lo fr li u)
| t_local o k H tf lo fr li u b :
    free_step t (FreeLocal b) (mkShared o k H tf lo fr li u)
      (if u32 (u - 1) =? 0 then LocalEmpty else Idle) (mkShared o k H tf (b :: lo) fr li (u32 (u - 1))).

(** heap_on_page_empty: the page is kept as the only one of its class, or goes to
    the central heap, whose mutex central_release_page takes. *)
Inductive empty_step (t : nat) : pc → shared → pc → shared → Prop :=
| t_keep o k H tf lo fr li u :
    empty_step t LocalEmpty (mkShared o k H tf lo fr li u) Idle (mkShared o k H tf lo fr li u)
| t_empty o H tf lo fr li u :
    empty_step t LocalEmpty (mkShared o None H tf lo fr li u) Releasing (mkShared o (Some t) H tf lo fr li u).

(** heap_free_remote, at its compare-and-swap. *)
Inductive remote_step (t : nat) : pc → shared → pc → shared → Prop :=
| t_push o k H tf lo fr li u b :
    remote_step t (FreePush b) (mkShared o k H tf lo fr li u) Idle (mkShared o k H (b :: tf) lo fr li u).

(** heap_malloc and heap_malloc_slow, in a page of the thread's heap: pop a block,
    carve more, or leave the page. *)
Inductive malloc_step (t : nat) : pc → shared → pc → shared → Prop :=
| t_malloc k H tf lo fr li u a :
    H !! t = Some a →
    malloc_step t Idle (mkShared (Some (HeapAt a)) k H tf lo fr li u) (Own KMalloc) (mkShared (Some (HeapAt a)) k H tf lo fr li u)
| t_pop o k H tf b lo fr li u :
    malloc_step t (Own KMalloc) (mkShared o k H tf (b :: lo) fr li u) Idle (mkShared o k H tf lo fr (b :: li) (u32 (u + 1)))
| t_full o k H tf lo fr li u :
    malloc_step t (Own KMalloc) (mkShared o k H tf lo fr li u) Idle (mkShared o k H tf lo fr li u)
| t_extend o k H tf lo f1 f2 li u :
    malloc_step t (Own KMalloc) (mkShared o k H tf lo (f1 ++ f2) li u) (Own KMalloc) (mkShared o k H tf (f1 ++ lo) f2 li u).

(** page_collect (collect_locked in the sweep): the exchange, then the splice. *)
Inductive collect_step (t : nat) : pc → shared → pc → shared → Prop :=
| t_exchange o k H tf lo fr li u x :
    collect_step t (Own x) (mkShared o k H tf lo fr li u) (Splice x tf) (mkShared o k H [] lo fr li u)
| t_splice o k H tf lo fr li u x l :
    collect_step t (Splice x l) (mkShared o k H tf lo fr li u)
      (after x) (mkShared o k H tf (l ++ lo) fr li (u32 (u - Z.of_nat (length l)))).

(** heap_destroy: collect each page, give it back or abandon it, drop the heap. *)
Inductive exit_step (t : nat) : pc → shared → pc → shared → Prop :=
| t_exit k H tf lo fr li u a :
    H !! t = Some a →
    exit_step t Idle (mkShared (Some (HeapAt a)) k H tf lo fr li u) (Own KExit) (mkShared (Some (HeapAt a)) k H tf lo fr li u)
| t_decide_exit o k H tf lo fr li u :
    exit_step t (Decide KExit) (mkShared o k H tf lo fr li u)
      (if u =? 0 then ExitRelease else ExitAbandon) (mkShared o k H tf lo fr li u)
| t_destroy o k H tf lo fr li u a :
    H !! t = Some a → o ≠ Some (HeapAt a) →
    exit_step t Idle (mkShared o k H tf lo fr li u) Idle (mkShared o k (delete t H) tf lo fr li u).

(** central_release_page and pool_return. *)
Inductive release_step (t : nat) : pc → shared → pc → shared → Prop :=
| t_lock_release o H tf lo fr li u :
    release_step t ExitRelease (mkShared o None H tf lo fr li u) Releasing (mkShared o (Some t) H tf lo fr li u)
| t_release o k H tf lo fr li u :
    release_step t Releasing (mkShared o k H tf lo fr li u) Idle (mkShared None None H tf [] [] li u).

(** central_abandon_page. *)
Inductive abandon_step (t : nat) : pc → shared → pc → shared → Prop :=
| t_lock_abandon o H tf lo fr li u :
    abandon_step t ExitAbandon (mkShared o None H tf lo fr li u) Abandoning (mkShared o (Some t) H tf lo fr li u)
| t_abandon o k H tf lo fr li u :
    abandon_step t Abandoning (mkShared o k H tf lo fr li u) Idle (mkShared (Some ABANDONED_OWNER) None H tf lo fr li u).

(** sweep_abandoned, which central_acquire_page runs under the mutex. *)
Inductive sweep_step (t : nat) : pc → shared → pc → shared → Prop :=
| t_sweep H tf lo fr li u :
    sweep_step t Idle (mkShared (Some ABANDONED_OWNER) None H tf lo fr li u)
      (Own KSweep) (mkShared (Some ABANDONED_OWNER) (Some t) H tf lo fr li u)
| t_decide_sweep o k H tf lo fr li u :
    sweep_step t (Decide KSweep) (mkShared o k H tf lo fr li u)
      (if u =? 0 then Releasing else Idle) (mkShared o (if u =? 0 then k else None) H tf lo fr li u).

(** central_acquire_page, taking the page from the pool. *)
Inductive acquire_step (t : nat) : pc → shared → pc → shared → Prop :=
| t_lock_take H tf lo fr li u a :
    H !! t = Some a →
    acquire_step t Idle (mkShared None None H tf lo fr li u) Taking (mkShared None (Some t) H tf lo fr li u)
| t_take o k H tf lo fr li u a blocks :
    H !! t = Some a → NoDup blocks → Z.of_nat (length blocks) < 2 ^ 32 →
    acquire_step t Taking (mkShared o k H tf lo fr li u) Idle (mkShared (Some (HeapAt a)) None H [] [] blocks li 0).

Inductive tstep (t : nat) (c : pc) (g : shared) (c' : pc) (g' : shared) : Prop :=
| ts_create : create_step t c g c' g' → tstep t c g c' g'
| ts_free : free_step t c g c' g' → tstep t c g c' g'
| ts_empty : empty_step t c g c' g' → tstep t c g c' g'
| ts_remote : remote_step t c g c' g' → tstep t c g c' g'
| ts_malloc : malloc_step t c g c' g' → tstep t c g c' g'
| ts_collect : collect_step t c g c' g' → tstep t c g c' g'
| ts_exit : exit_step t c g c' g' → tstep t c g c' g'
| ts_release : release_step t c g c' g' → tstep t c g c' g'
| ts_abandon : abandon_step t c g c' g' → tstep t c g c' g'
| ts_sweep : sweep_step t c g c' g' → tstep t c g c' g'
| ts_acquire : acquire_step t c g c' g' → tstep t c g c' g'.

(** All cases of a step. *)
Ltac step_cases H :=
  destruct H as [H|H|H|H|H|H|H|H|H|H|H]; destruct H.

Definition world : Type := gmap nat pc * shared.

Inductive lstep : world → world → Prop :=
| l_spawn P g t : P !! t = None → lstep (P, g) (<[t := Idle]> P, g)
| l_thread P g t c c' g' : P !! t = Some c → tstep t c g c' g' → lstep (P, g) (<[t := c']> P, g').

(** At the start the page is in the pool and no thread is near it. *)
Definition initial : world := (∅, mkShared None None ∅ [] [] [] [] 0).

(** The program points from which the plain members are read or written. *)
Definition exclusive (c : pc) : bool :=
  match c with Idle | FreeTest _ | FreePush _ => false | _ => true end.

(** ** The invariant *)

Definition owns (t : nat) (g : shared) : Prop := ∃ a, s_heap g !! t = Some a ∧ s_owner g = Some (HeapAt a).
Definition sweeps (t : nat) (g : shared) : Prop := s_lock g = Some t ∧ s_owner g = Some ABANDONED_OWNER.

(** What a thread knows at each point. *)
Definition pc_ok (t : nat) (c : pc) (g : shared) : Prop :=
  match c with
  | Idle | FreeTest _ | FreePush _ => True
  | FreeLocal _ | Own (KMalloc | KExit) | Splice (KMalloc | KExit) _ | Decide (KMalloc | KExit) | ExitAbandon => owns t g
  | LocalEmpty | ExitRelease => owns t g ∧ s_used g = 0
  | Own KSweep | Splice KSweep _ | Decide KSweep => sweeps t g
  | Releasing => s_lock g = Some t ∧ s_used g = 0 ∧ (owns t g ∨ s_owner g = Some ABANDONED_OWNER)
  | Abandoning => s_lock g = Some t ∧ owns t g
  | Taking => s_lock g = Some t ∧ s_owner g = None
  end.

(** Blocks on their way inside the code. *)
Definition flight (c : pc) : list Z :=
  match c with FreeTest b | FreeLocal b | FreePush b => [b] | Splice _ l => l | _ => [] end.
Definition flights (P : gmap nat pc) : list Z := mjoin (flight ∘ snd <$> map_to_list P).

(** Blocks that are carved and not on the local list: these [used] counts. *)
Definition out (P : gmap nat pc) (g : shared) : list Z := s_tfree g ++ s_live g ++ flights P.
Definition all_blocks (P : gmap nat pc) (g : shared) : list Z := s_fresh g ++ s_local g ++ out P g.

Record winv (w : world) : Prop := {
  wi_heap t t' a : s_heap w.2 !! t = Some a → s_heap w.2 !! t' = Some a → t = t';
  wi_pc t c : w.1 !! t = Some c → pc_ok t c w.2;
  wi_nodup : NoDup (all_blocks w.1 w.2);
  wi_size : Z.of_nat (length (all_blocks w.1 w.2)) < 2 ^ 32;
  wi_used : s_used w.2 = Z.of_nat (length (out w.1 w.2));
  wi_pool : s_owner w.2 = None → all_blocks w.1 w.2 = []
}.
Arguments wi_heap {w} _ t t' a.
Arguments wi_pc {w} _ t c.
Arguments wi_nodup {w} _.
Arguments wi_size {w} _.
Arguments wi_used {w} _.
Arguments wi_pool {w} _.

(** ** Exclusion *)

Lemma owner_of t c g :
  pc_ok t c g → exclusive c = true →
  owns t g ∨ (s_lock g = Some t ∧ (s_owner g = Some ABANDONED_OWNER ∨ s_owner g = None)).
Proof. destruct c as [| | | | |[]|[]|[]| | | | |]; simpl; unfold sweeps; naive_solver. Qed.

Lemma exclusion w t t' c c' :
  winv w → w.1 !! t = Some c → w.1 !! t' = Some c' → exclusive c = true → exclusive c' = true → t = t'.
Proof.
  intros H Hc Hc' Hx Hx'. destruct (owner_of _ _ _ (wi_pc H t c Hc) Hx) as [(a & Ha & Ho)|[Hl Ho]];
    destruct (owner_of _ _ _ (wi_pc H t' c' Hc') Hx') as [(a' & Ha' & Ho')|[Hl' Ho']].
  - apply (wi_heap H t t' a); [done|]. rewrite Ho in Ho'. by injection Ho' as ->.
  - exfalso. destruct Ho'; congruence.
  - exfalso. destruct Ho; congruence.
  - congruence.
Qed.

(** Steps from the other points leave the plain members and the owner alone. *)
Lemma plain_step t c g c' g' :
  tstep t c g c' g' → exclusive c = false →
  s_local g' = s_local g ∧ s_fresh g' = s_fresh g ∧ s_used g' = s_used g ∧ s_owner g' = s_owner g.
Proof. intros Hs. step_cases Hs; simpl; try done. Qed.

(** ** Blocks in flight *)

Lemma flights_insert P t c : P !! t = None → flights (<[t := c]> P) ≡ₚ flight c ++ flights P.
Proof. intros Ht. unfold flights. by rewrite (map_to_list_insert P t c Ht). Qed.
Lemma flights_thread P t c : P !! t = Some c → flights P ≡ₚ flight c ++ flights (delete t P).
Proof.
  intros Ht. rewrite <- (insert_delete_id P t c Ht) at 1. apply flights_insert, lookup_delete_eq.
Qed.
Lemma flights_step P t c c' : P !! t = Some c → flights (<[t := c']> P) ≡ₚ flight c' ++ flights (delete t P).
Proof. intros Ht. rewrite <- insert_delete_eq. apply flights_insert, lookup_delete_eq. Qed.

(** The books as thread [t], at [c], sees them: [F] are the flights of the others. *)
Definition outside (c : pc) (F : list Z) (g : shared) : list Z := s_tfree g ++ s_live g ++ flight c ++ F.
Definition around (c : pc) (F : list Z) (g : shared) : list Z := s_fresh g ++ s_local g ++ outside c F g.
Record balanced (c : pc) (F : list Z) (g : shared) : Prop := {
  ba_nodup : NoDup (around c F g);
  ba_size : Z.of_nat (length (around c F g)) < 2 ^ 32;
  ba_used : s_used g = Z.of_nat (length (outside c F g));
  ba_pool : s_owner g = None → around c F g = []
}.

Lemma balanced_moved c F g c' g' :
  balanced c F g → around c' F g' ≡ₚ around c F g → s_owner g' = s_owner g →
  s_used g' = Z.of_nat (length (outside c' F g')) → balanced c' F g'.
Proof.
  intros [H1 H2 H3 H4] Hp Ho Hu. constructor; [by rewrite Hp|by rewrite Hp|done|].
  rewrite Ho. intros E%H4. rewrite E in Hp. by apply Permutation_nil_r in Hp.
Qed.

(** The flight of one thread is all that moves. *)
Lemma winv_balanced P g t c :
  P !! t = Some c →
  all_blocks P g ≡ₚ around c (flights (delete t P)) g ∧ length (out P g) = length (outside c (flights (delete t P)) g).
Proof.
  intros Ht. pose proof (flights_thread P t c Ht) as E. unfold all_blocks, out, around, outside. split.
  - by rewrite E.
  - rewrite !length_app, (Permutation_length E), length_app. lia.
Qed.

Lemma balanced_open w t c : winv w → w.1 !! t = Some c → balanced c (flights (delete t w.1)) w.2.
Proof.
  intros H Ht. destruct (winv_balanced w.1 w.2 t c Ht) as [Hp Hl]. constructor.
  - rewrite <- Hp. apply H.
  - rewrite <- Hp. apply H.
  - rewrite <- Hl. apply H.
  - intros E%(wi_pool H). rewrite E in Hp. by apply Permutation_nil_l in Hp.
Qed.

(** The cases in which every block stays or moves between the lists. *)
Ltac lengths := repeat (progress (rewrite ?length_app in *; simpl in *)).
Ltac books :=
  eapply balanced_moved; [eassumption|unfold around, outside; simpl; solve_Permutation|done|];
  unfold outside; lengths; rewrite ?u32_small by lia; lia.

Lemma step_balanced t c g c' g' F :
  tstep t c g c' g' → pc_ok t c g → balanced c F g → balanced c' F g'.
Proof.
  intros Hs Hok Hb. pose proof (ba_size _ _ _ Hb) as Hsz. pose proof (ba_used _ _ _ Hb) as Hu.
  unfold around, outside in Hsz, Hu. step_cases Hs; lengths; repeat case_match; simplify_eq; try books.
  - destruct Hok as (_ & E & _). destruct tf, li, F; simpl in E; try lia. by constructor; [apply NoDup_nil|..].
  - destruct Hb as [B1 B2 B3 B4]. by constructor.
  - destruct Hok as [_ ->]. pose proof (ba_pool _ _ _ Hb eq_refl) as E. unfold around, outside in E. simpl in E.
    repeat (apply app_eq_nil in E as [-> E]). subst. unfold around, outside. constructor; unfold around, outside; simpl; rewrite ?app_nil_r; done.
Qed.

(** Between two takings from the pool blocks only move: between the lists of the
    page, the clients and the code. *)
Lemma step_conserves t c g c' g' F :
  tstep t c g c' g' → pc_ok t c g → s_owner g ≠ None → s_owner g' ≠ None → around c' F g' ≡ₚ around c F g.
Proof.
  intros Hs Hok H0 H1. step_cases Hs; repeat case_match; simplify_eq/=; unfold around, outside; simpl;
    try solve_Permutation; try done.
  - destruct x; simpl; solve_Permutation.
  - by destruct Hok as [_ ?].
Qed.

(** ** What the other threads know *)

(** A step of [t] does not disturb the knowledge of [t']. *)
Lemma step_others t c g c' g' t' d :
  tstep t c g c' g' → pc_ok t c g → pc_ok t' d g → t ≠ t' →
  (exclusive c = true → exclusive d = false) → pc_ok t' d g'.
Proof.
  intros Hs Hok Hd Hne Hx. step_cases Hs; simpl in Hx; try (by destruct d; specialize (Hx eq_refl));
    destruct d as [| | | | |[]|[]|[]| | | | |]; try done; unfold pc_ok, owns, sweeps in *; simpl in *;
    rewrite ?lookup_insert_ne, ?lookup_delete_ne by done; naive_solver.
Qed.

(** What [t] knows after its own step. *)
Lemma step_self t c g c' g' F : tstep t c g c' g' → pc_ok t c g → balanced c F g → pc_ok t c' g'.
Proof.
  intros Hs Hok Hb. step_cases Hs; simpl in *; try done; unfold owns, sweeps in *; simpl in *; repeat case_match; simplify_eq; simpl in *;
    bool_hyps; unfold owns in *; simpl in *; try naive_solver.
  assert (o ≠ None) as Hn.
  { intros ->. pose proof (ba_pool _ _ _ Hb eq_refl) as E. unfold around, outside in E. simpl in E.
    repeat (apply app_eq_nil in E as [_ E]). done. }
  destruct (H !! t) as [a|]; [eauto|done].
Qed.

Lemma step_heaps t c g c' g' :
  tstep t c g c' g' →
  (∀ t1 t2 a, s_heap g !! t1 = Some a → s_heap g !! t2 = Some a → t1 = t2) →
  ∀ t1 t2 a, s_heap g' !! t1 = Some a → s_heap g' !! t2 = Some a → t1 = t2.
Proof.
  intros Hs. step_cases Hs; simpl; try done; intros Hi t1 t2 a' E1 E2.
  - apply lookup_insert_Some in E1, E2. naive_solver.
  - apply lookup_delete_Some in E1, E2. naive_solver.
Qed.

Lemma balanced_close P g t c c' :
  P !! t = Some c → balanced c' (flights (delete t P)) g →
  (∀ t1 t2 a, s_heap g !! t1 = Some a → s_heap g !! t2 = Some a → t1 = t2) →
  (∀ t1 d, <[t := c']> P !! t1 = Some d → pc_ok t1 d g) → winv (<[t := c']> P, g).
Proof.
  intros Ht [B1 B2 B3 B4] Hh Hp.
  destruct (winv_balanced (<[t := c']> P) g t c' (lookup_insert_eq P t c')) as [Hperm Hl].
  rewrite delete_insert_eq in Hperm, Hl. constructor; simpl; try done.
  - by rewrite Hperm.
  - by rewrite Hperm.
  - by rewrite Hl.
  - intros E%B4. rewrite E in Hperm. by apply Permutation_nil_r in Hperm.
Qed.

Lemma lstep_inv w w' : winv w → lstep w w' → winv w'.
Proof.
  intros H. destruct 1 as [P g t Ht|P g t c c' g' Ht Hs].
  - pose proof (flights_insert P t Idle Ht) as E. simpl in E.
    assert (all_blocks (<[t := Idle]> P) g ≡ₚ all_blocks P g) as Ea by (unfold all_blocks, out; by rewrite E).
    destruct H as [H1 H2 H3 H4 H5 H6]. simpl in *. constructor; simpl; try done.
    + intros t' d [[-> <-]|[_ Hd]]%lookup_insert_Some; [done|by apply H2].
    + by rewrite Ea.
    + by rewrite Ea.
    + rewrite H5. unfold out. by rewrite !length_app, (Permutation_length E).
    + intros Eo%H6. rewrite Eo in Ea. by apply Permutation_nil_r in Ea.
  - pose proof (wi_pc H t c Ht) as Hok. pose proof (balanced_open (P, g) t c H Ht) as Hb. simpl in Hb.
    eapply balanced_close; [done|by eapply step_balanced|eapply step_heaps; [done|apply H]|].
    intros t' d [[<- <-]|[Hne Hd]]%lookup_insert_Some; [by eapply step_self|].
    eapply step_others; [done|done|by apply (wi_pc H t' d)|done|]. intros Hx.
    destruct (exclusive d) eqn:Ed; [|done]. by destruct Hne, (exclusion (P, g) t t' c d).
Qed.

Lemma initial_inv : winv initial.
Proof. constructor; simpl; try done. apply NoDup_nil_2. Qed.

Definition occurs (w : world) : Prop := rtc lstep initial w.

Lemma occurs_inv w : occurs w → winv w.
Proof.
  unfold occurs. generalize initial_inv. generalize initial. intros w0 H0 Hr.
  induction Hr as [|x y z Hs _ IH]; [done|]. apply IH. by eapply lstep_inv.
Qed.

(** C13: the plain members of a page are never used by two threads at once,
    through ownership, exit, sweep and reuse: while a thread is at a point where
    the code reads or writes them, no other thread can take a step that changes
    them or the owner. *)
Theorem page_members_exclusive (P : gmap nat pc) (g g' : shared) (t t' : nat) (c c' d : pc)
    (Hocc : occurs (P, g)) (Hc : P !! t = Some c) (Hx : exclusive c = true)
    (Hc' : P !! t' = Some c') (Hs : tstep t' c' g d g') (Hne : t' ≠ t) :
  s_local g' = s_local g ∧ s_fresh g' = s_fresh g ∧ s_used g' = s_used g ∧ s_owner g' = s_owner g.
Proof.
  apply (plain_step _ _ _ _ _ Hs). destruct (exclusive c') eqn:E; [|done].
  by destruct Hne, (exclusion (P, g) t t' c c' (occurs_inv _ Hocc) Hc Hc' Hx E).
Qed.

(** A step while the page is in use: owned by a heap or abandoned, before and
    after. *)
Definition in_use_step (w w' : world) : Prop := lstep w w' ∧ s_owner w.2 ≠ None ∧ s_owner w'.2 ≠ None.

Lemma in_use_conserves w w' : winv w → in_use_step w w' → all_blocks w'.1 w'.2 ≡ₚ all_blocks w.1 w.2.
Proof.
  intros H (Hs & H0 & H1). destruct Hs as [P g t Ht|P g t c c' g' Ht Hs]; simpl in *.
  - unfold all_blocks, out. by rewrite (flights_insert P t Idle Ht).
  - rewrite (proj1 (winv_balanced P g t c Ht)), (proj1 (winv_balanced (<[t := c']> P) g' t c' (lookup_insert_eq P t c'))).
    rewrite delete_insert_eq. eapply step_conserves; try done. by apply (wi_pc H t c).
Qed.

Lemma in_use_run w w' : winv w → rtc in_use_step w w' → winv w' ∧ all_blocks w'.1 w'.2 ≡ₚ all_blocks w.1 w.2.
Proof.
  intros H Hr. induction Hr as [|x y z Hs _ IH]; [done|]. destruct IH as [Hi Hp]; [by eapply lstep_inv; [|apply Hs]|].
  split; [done|]. by rewrite Hp, (in_use_conserves x y).
Qed.

(** C15: no block is lost, made up or handed out twice while a page is in use.
    Take any two moments between which the page did not go back to the pool,
    however its owner, other threads freeing its blocks, an exiting owner and the
    sweep interleaved in between: the blocks that are not carved yet, on the local
    list, on the cross-thread list, with the clients or on their way in heap_free
    and page_collect are the same ones at both, each in one place only, and [used]
    counts exactly those that are carved and not on the local list. *)
Theorem page_blocks_balanced (P0 P : gmap nat pc) (g0 g : shared)
    (Hocc : occurs (P0, g0)) (Hrun : rtc in_use_step (P0, g0) (P, g)) :
  s_fresh g ++ s_local g ++ s_tfree g ++ s_live g ++ flights P ≡ₚ
    s_fresh g0 ++ s_local g0 ++ s_tfree g0 ++ s_live g0 ++ flights P0 ∧
  NoDup (s_fresh g ++ s_local g ++ s_tfree g ++ s_live g ++ flights P) ∧
  s_used g = Z.of_nat (length (s_tfree g ++ s_live g ++ flights P)).
Proof. destruct (in_use_run _ _ (occurs_inv _ Hocc) Hrun) as [H Hp]. split; [exact Hp|split; apply H]. Qed.

(** C14: a page goes back to the pool, where it can be unmapped or given to
    another size class, only when no client holds a block of it, no free of a
    block of it is under way in any thread, and no other thread is at a point
    where it uses the page. *)
Theorem recycled_page_unused (P : gmap nat pc) (g : shared) (t : nat)
    (Hocc : occurs (P, g)) (Hc : P !! t = Some Releasing) :
  s_live g = [] ∧ s_tfree g = [] ∧ ∀ t' c, P !! t' = Some c → flight c = [] ∧ (exclusive c = true → t' = t).
Proof.
  pose proof (occurs_inv _ Hocc) as H. destruct (wi_pc H t _ Hc) as (_ & Hu & _). simpl in Hu.
  pose proof (wi_used H) as E. simpl in E. rewrite Hu in E. unfold out in E. rewrite !length_app in E.
  destruct (s_live g), (s_tfree g); simpl in E; try lia. split_and!; try done. intros t' c Hc'. split.
  - rewrite (Permutation_length (flights_thread P t' c Hc')), length_app in E. by destruct (flight c); simpl in E; [|lia].
  - intros Hx. by apply (exclusion (P, g) t' t c Releasing H Hc' Hc Hx).
Qed.

(** ** A concrete life: thread 1 takes the page and allocates block 16, thread 2
    frees it, thread 1 exits meanwhile, and thread 2 sweeps the page. *)

Definition heap1 : gmap nat Z := {[1%nat := 4096]}.
Definition two (c d : pc) : gmap nat pc := <[1%nat := c]> {[2%nat := d]}.

Lemma two_1 c d : two c d !! 1%nat = Some c.
Proof. apply lookup_insert_eq. Qed.
Lemma two_2 c d : two c d !! 2%nat = Some d.
Proof. unfold two. rewrite lookup_insert_ne by done. apply lookup_singleton_eq. Qed.
Lemma step_1 c d g c' g' : tstep 1 c g c' g' → lstep (two c d, g) (two c' d, g').
Proof. intros Hs. pose proof (l_thread (two c d) g 1 c c' g' (two_1 c d) Hs) as H. unfold two in *. by rewrite insert_insert_eq in H. Qed.
Lemma step_2 c d g d' g' : tstep 2 d g d' g' → lstep (two c d, g) (two c d', g').
Proof.
  intros Hs. pose proof (l_thread (two c d) g 2 d d' g' (two_2 c d) Hs) as H. unfold two in *.
  rewrite insert_insert_ne in H by done. by rewrite insert_singleton_eq in H.
Qed.

Ltac use_1 tac := eapply rtc_l; [split; [apply step_1; tac|done]|simpl].
Ltac use_2 tac := eapply rtc_l; [split; [apply step_2; tac|done]|simpl].

(** Thread 1 has just taken the page, with room for two blocks. *)
Definition taken : shared := mkShared (Some (HeapAt 4096)) None heap1 [] [] [16; 32] [] 0.
Lemma occurs_taken : occurs (two Idle Idle, taken).
Proof.
  unfold occurs, initial. eapply rtc_l; [apply (l_spawn _ _ 2); done|]. eapply rtc_l; [apply (l_spawn _ _ 1); done|].
  change (<[1%nat := Idle]> (<[2%nat := Idle]> ∅ : gmap nat pc)) with (two Idle Idle).
  eapply rtc_l; [apply step_1, ts_create, (t_create 1 _ _ _ _ _ _ _ _ 4096); done|].
  eapply rtc_l; [apply step_1, ts_acquire, (t_lock_take 1 _ _ _ _ _ _ 4096); done|].
  eapply rtc_l; [apply step_1, ts_acquire, (t_take 1 _ _ _ _ _ _ _ _ 4096 [16; 32]); [done| |done]|apply rtc_refl].
  apply NoDup_cons. split; [set_solver|apply NoDup_singleton].
Qed.

(** Thread 2 is inside heap_free with the block; thread 1 is about to abandon. *)
Definition exiting : shared := mkShared (Some (HeapAt 4096)) (Some 1%nat) heap1 [] [] [32] [] 1.
Lemma used_until_exiting : rtc in_use_step (two Idle Idle, taken) (two Abandoning (FreePush 16), exiting).
Proof.
  unfold taken, exiting. use_1 ltac:(apply ts_malloc, t_malloc; done). use_1 ltac:(apply ts_malloc, (t_extend 1 _ _ _ _ _ [16] [32])).
  use_1 ltac:(apply ts_malloc, t_pop). use_2 ltac:(apply ts_free, (t_free 2 _ _ _ _ _ _ [] 16 [])).
  use_2 ltac:(apply ts_free, t_test). use_1 ltac:(apply ts_exit, t_exit; done).
  use_1 ltac:(apply ts_collect, t_exchange). use_1 ltac:(apply ts_collect, t_splice).
  use_1 ltac:(apply ts_exit, t_decide_exit). use_1 ltac:(apply ts_abandon, t_lock_abandon). apply rtc_refl.
Qed.
Lemma in_use_occurs w w' : occurs w → rtc in_use_step w w' → occurs w'.
Proof.
  unfold occurs. intros H Hr. etrans; [done|]. eapply rtc_subrel; [|done]. by intros ?? [? _].
Qed.
Lemma occurs_exiting : occurs (two Abandoning (FreePush 16), exiting).
Proof. exact (in_use_occurs _ _ occurs_taken used_until_exiting). Qed.

(** After the push, thread 2 has swept the page and puts it back in the pool. *)
Definition swept_page : shared := mkShared (Some ABANDONED_OWNER) (Some 2%nat) heap1 [] [16] [32] [] 0.
Lemma used_until_swept : rtc in_use_step (two Abandoning (FreePush 16), exiting) (two Idle Releasing, swept_page).
Proof.
  unfold exiting, swept_page. use_1 ltac:(apply ts_abandon, t_abandon). use_2 ltac:(apply ts_remote, t_push).
  use_2 ltac:(apply ts_sweep, t_sweep). use_2 ltac:(apply ts_collect, t_exchange).
  use_2 ltac:(apply ts_collect, t_splice). use_2 ltac:(apply ts_sweep, t_decide_sweep). apply rtc_refl.
Qed.
Lemma occurs_swept : occurs (two Idle Releasing, swept_page).
Proof. exact (in_use_occurs _ _ occurs_exiting used_until_swept). Qed.

Lemma page_members_exclusive_witness :
  let g' := mkShared (Some (HeapAt 4096)) (Some 1%nat) heap1 [16] [] [32] [] 1 in
  s_local g' = s_local exiting ∧ s_fresh g' = s_fresh exiting ∧ s_used g' = s_used exiting ∧ s_owner g' = s_owner exiting.
Proof.
  exact (page_members_exclusive _ exiting _ 1 2 Abandoning (FreePush 16) Idle occurs_exiting (two_1 _ _) eq_refl
    (two_2 _ _) (ts_remote _ _ _ _ _ (t_push 2 _ _ _ _ _ _ _ _ 16)) ltac:(discriminate)).
Defined.

Lemma page_blocks_balanced_witness :
  s_fresh swept_page ++ s_local swept_page ++ s_tfree swept_page ++ s_live swept_page ++ flights (two Idle Releasing) ≡ₚ
    s_fresh taken ++ s_local taken ++ s_tfree taken ++ s_live taken ++ flights (two Idle Idle) ∧
  NoDup (s_fresh swept_page ++ s_local swept_page ++ s_tfree swept_page ++ s_live swept_page ++ flights (two Idle Releasing)) ∧
  s_used swept_page = Z.of_nat (length (s_tfree swept_page ++ s_live swept_page ++ flights (two Idle Releasing))).
Proof.
  exact (page_blocks_balanced _ _ taken swept_page occurs_taken (transitivity used_until_exiting used_until_swept)).
Defined.

Lemma recycled_page_unused_witness :
  s_live swept_page = [] ∧ s_tfree swept_page = [] ∧
  ∀ t' c, two Idle Releasing !! t' = Some c → flight c = [] ∧ (exclusive c = true → t' = 2%nat).
Proof. exact (recycled_page_unused _ swept_page 2 occurs_swept (two_2 _ _)). Defined.
