(* ===== verification/Demo.v ===== *)
(** * Concrete runs

    States of the allocator over the simulated kernel, used to apply the
    theorems to concrete inputs: two blocks of one page allocated by thread 0,
    the first of them freed by thread 1, and a large allocation. *)
From Stdlib Require Import ZArith Lia.
From stdpp Require Import base numbers list gmap.
From S2P Require Import Prelude Words Constants SizeClass Segment Memory Os Chains Sums RegionRegistry State Regions PageOps Allocated Central CentralInv CentralSpec PoolSpec CentralOps Acquire Heap Hmalloc HeapInv HeapLinks HeapSpec HeapCreate HeapMalloc HeapFree HeapExit LargeSpec HmallocSpec ApiSpec Client.

Module Demo.

#[export] Instance config : Config := {| stats_on := true |}.
#[export] Instance ledger : Ledger := unknown.

Definition memory : @OsState Sim.sim_kernel := Sim.init (2 ^ 30).
Definition demo0 : @State Sim.sim_kernel := init_state memory.

Definition run (tid : nat) (c : call) (st : State) : answer * State := from_ok (Done, st) (exec tid c st).

(** Two blocks of the class of 16384 bytes: page 63 of the first segment. *)
Definition seg : Z := SEGMENT_SIZE.
Definition block1 : Z := page_area seg 63.
Definition block2 : Z := block1 + 16384.
Definition demo1 : State := snd (run 0 (Malloc 16000) demo0).
Definition demo2 : State := snd (run 0 (Malloc 16000) demo1).
Definition demo3 : State := snd (run 1 (Free (Some block1)) demo2).

(** A large allocation in a fresh address space. *)
Definition large1 : Z := SEGMENT_SIZE + LARGE_OFFSET.
Definition demo_large : State := snd (from_ok (None, demo0) (hm_malloc 0 20000 demo0)).

Lemma run0_ok : exec 0 (Malloc 16000) demo0 = Ok (Ptr (Some block1), demo1).
Proof. apply run_ok; vm_compute; reflexivity. Qed.
Lemma run1_ok : exec 0 (Malloc 16000) demo1 = Ok (Ptr (Some block2), demo2).
Proof. apply run_ok; vm_compute; reflexivity. Qed.
Lemma run2_ok : exec 1 (Free (Some block1)) demo2 = Ok (Done, demo3).
Proof. apply run_ok; vm_compute; reflexivity. Qed.
Lemma malloc_large_run : hm_malloc 0 20000 demo0 = Ok (Some large1, demo_large).
Proof. apply run_ok; vm_compute; reflexivity. Qed.
Lemma exec_malloc tid n (st : @State Sim.sim_kernel) p st' :
  hm_malloc tid n st = Ok (p, st') → exec tid (Malloc n) st = Ok (Ptr p, st').
Proof. unfold exec, mbind, M_bind. by intros ->. Qed.
Lemma run_large_ok : exec 0 (Malloc 20000) demo0 = Ok (Ptr (Some large1), demo_large).
Proof. apply exec_malloc, malloc_large_run. Qed.

(** The kernel grants a heap, or the thread has one. *)
Definition grants (st : @State Sim.sim_kernel) : bool :=
  match os_alloc_aligned heap_bytes os_page_size (os st) with Ok (Some _, _) => true | _ => false end.
Definition has_heap (tid : nat) (st : @State Sim.sim_kernel) : bool :=
  match t_heap st !! tid with Some _ => true | None => false end.

Lemma not_null tid st : grants st || has_heap tid st = true → ¬ null_heap tid st.
Proof. unfold grants, has_heap. intros H [Ht [o' Ho]]. by rewrite Ht, Ho in H. Qed.

(** What a call needs, decided. *)
Definition reg_roomb (r : Registry) : bool :=
  match slots r with None => true | Some _ => size r + tombs r + 1 <? cap r end.
Definition room (tid : nat) (st : @State Sim.sim_kernel) (c : call) : bool :=
  match c with
  | Malloc _ | Calloc _ _ | Realloc _ _ | AlignedAlloc _ _ => reg_roomb (registry st) && (grants st || has_heap tid st)
  | _ => true
  end.
Lemma room_sound tid st c : room tid st c = true → call_room tid st c.
Proof.
  assert (reg_roomb (registry st) && (grants st || has_heap tid st) = true → may_alloc tid st) as Hm.
  { intros [Hr Hg]%andb_true_iff. split; [|by apply not_null]. unfold reg_roomb, reg_room in *.
    destruct (slots (registry st)); [right; lia|by left]. }
  destruct c; simpl; auto.
Qed.

Lemma may_alloc0 : may_alloc 0 demo0.
Proof. split; [by left|]. apply not_null. vm_compute. reflexivity. Qed.
Lemma may_alloc1 : may_alloc 0 demo1.
Proof. split; [right; vm_compute; reflexivity|]. apply not_null. vm_compute. reflexivity. Qed.
Lemma may_alloc2 : may_alloc 0 demo2.
Proof. split; [right; vm_compute; reflexivity|]. apply not_null. vm_compute. reflexivity. Qed.
Lemma may_alloc_large : may_alloc 0 demo_large.
Proof. split; [right; vm_compute; reflexivity|]. apply not_null. vm_compute. reflexivity. Qed.

Lemma word_small n : 0 ≤ n < 65536 → word n.
Proof. unfold word. lia. Qed.

Lemma reach0 : reach memory demo0.
Proof. apply reach_init. Qed.
Lemma reach1 : reach memory demo1.
Proof. eapply (reach_step _ demo0 0 (Malloc 16000)); [apply reach0|by apply word_small|apply may_alloc0|apply run0_ok]. Qed.
Lemma reach2 : reach memory demo2.
Proof. eapply (reach_step _ demo1 0 (Malloc 16000)); [apply reach1|by apply word_small|apply may_alloc1|apply run1_ok]. Qed.

(** No mapping has been refused on the way. *)
Lemma calm_reach1 : calm_reach memory demo1.
Proof.
  eapply (calm_step _ demo0 0 (Malloc 16000));
    [constructor|vm_compute; reflexivity|by apply word_small|apply may_alloc0|apply run0_ok].
Qed.
Lemma calm_reach2 : calm_reach memory demo2.
Proof.
  eapply (calm_step _ demo1 0 (Malloc 16000));
    [apply calm_reach1|vm_compute; reflexivity|by apply word_small|apply may_alloc1|apply run1_ok].
Qed.

(** What a run did, by the refinement. *)
Lemma run_spec o tid c st r st' :
  reach o st → call_ok (view st) c → call_room tid st c → exec tid c st = Ok (r, st') →
  inv st' ∧ astep (view st) c r (view st').
Proof.
  intros Hr Hok Hroom He. pose proof (exec_spec tid c st (reach_inv _ _ Hr) Hok Hroom) as Hw.
  unfold wp in Hw. by rewrite He in Hw.
Qed.

Lemma demo1_block : ∃ n, allocated demo1 block1 n.
Proof.
  destruct (run_spec memory 0 (Malloc 16000) demo0 _ _ reach0 (word_small 16000 ltac:(lia)) may_alloc0 run0_ok) as (_ & n & (_ & _ & _ & _ & Hb & _) & _).
  exists n. apply Hb. by left.
Qed.
Lemma demo2_blocks : (∃ n, allocated demo2 block1 n) ∧ (∃ n, allocated demo2 block2 n).
Proof.
  destruct (run_spec memory 0 (Malloc 16000) demo1 _ _ reach1 (word_small 16000 ltac:(lia)) may_alloc1 run1_ok) as (_ & n & (_ & _ & _ & _ & Hb & _) & _).
  destruct demo1_block as [n1 H1]. split; [exists n1|exists n]; apply Hb; [by right|by left].
Qed.
Lemma demo_large_block : ∃ n, allocated demo_large large1 n.
Proof.
  destruct (run_spec memory 0 (Malloc 20000) demo0 _ _ reach0 (word_small 20000 ltac:(lia)) may_alloc0 run_large_ok) as (_ & n & (_ & _ & _ & _ & Hb & _) & _).
  exists n. apply Hb. by left.
Qed.

Lemma reach3 : reach memory demo3.
Proof. eapply (reach_step _ demo2 1 (Free (Some block1))); [apply reach2|apply demo2_blocks|done|apply run2_ok]. Qed.
Lemma reach_large : reach memory demo_large.
Proof. eapply (reach_step _ demo0 0 (Malloc 20000)); [apply reach0|by apply word_small|apply may_alloc0|apply run_large_ok]. Qed.

Lemma inv0 : inv demo0.
Proof. apply inv_init. Qed.
Lemma inv1 : inv demo1.
Proof. apply (reach_inv _ _ reach1). Qed.
Lemma inv2 : inv demo2.
Proof. apply (reach_inv _ _ reach2). Qed.
Lemma inv3 : inv demo3.
Proof. apply (reach_inv _ _ reach3). Qed.
Lemma inv_large : inv demo_large.
Proof. apply (reach_inv _ _ reach_large). Qed.

(** The owner frees its only block: the page stays at the front, empty. *)
Definition demo_empty : State := snd (run 0 (Free (Some block1)) demo1).
Lemma run_empty_ok : exec 0 (Free (Some block1)) demo1 = Ok (Done, demo_empty).
Proof. apply run_ok; vm_compute; reflexivity. Qed.
Lemma reach_empty : reach memory demo_empty.
Proof. eapply (reach_step _ demo1 0 (Free (Some block1))); [apply reach1|apply demo1_block|done|apply run_empty_ok]. Qed.
Lemma inv_empty : inv demo_empty.
Proof. apply (reach_inv _ _ reach_empty). Qed.

(** Thread 0 exits while its second block is live: the page is abandoned. *)
Definition demo_exit : State := snd (run 0 Exit demo3).
Lemma run_exit_ok : exec 0 Exit demo3 = Ok (Done, demo_exit).
Proof. apply run_ok; vm_compute; reflexivity. Qed.
Lemma reach_exit : reach memory demo_exit.
Proof. eapply (reach_step _ demo3 0 Exit); [apply reach3|done|done|apply run_exit_ok]. Qed.
Lemma inv_exit : inv demo_exit.
Proof. apply (reach_inv _ _ reach_exit). Qed.

(** The page of the two blocks. *)
Definition page_ref : pageref := PageAt seg 63.
Definition page2 : Page := default zero_page (pages demo2 !! page_ref).
Definition page3 : Page := default zero_page (pages demo3 !! page_ref).

Lemma page2_at : pages demo2 !! page_ref = Some page2.
Proof. vm_compute. reflexivity. Qed.
Lemma page3_at : pages demo3 !! page_ref = Some page3.
Proof. vm_compute. reflexivity. Qed.
Lemma page2_use : pg_in_use page2 = true ∧ pg_free page2 = None ∧ pg_thread_free page2 = None.
Proof. vm_compute. done. Qed.
Lemma page3_use : pg_in_use page3 = true ∧ pg_free page3 = None ∧ pg_thread_free page3 = Some block1.
Proof. vm_compute. done. Qed.

(** After the remote free the block is on the cross-thread list. *)
Lemma page3_ok : page_ok (bytes (os demo3)) seg 63 page3 [] [block1].
Proof.
  destruct (mo_blocks (hk_mem (iv_hok inv3)) seg 63 page3 page3_at (proj1 page3_use)) as (lf & lt & Hok).
  destruct page3_use as (_ & E1 & E2). pose proof (po_free Hok) as Hf. pose proof (po_tfree Hok) as Ht.
  rewrite E1 in Hf. apply chain_none in Hf as ->. rewrite E2 in Ht. apply chain_some in Ht as (n & l & -> & Hn & Hl).
  assert (bnext (bytes (os demo3)) block1 = Some None) as E by (vm_compute; reflexivity).
  rewrite E in Hn. injection Hn as <-.
  by apply chain_none in Hl as ->.
Qed.
Lemma page2_ok : page_ok (bytes (os demo2)) seg 63 page2 [] [].
Proof.
  destruct (mo_blocks (hk_mem (iv_hok inv2)) seg 63 page2 page2_at (proj1 page2_use)) as (lf & lt & Hok).
  destruct page2_use as (_ & E1 & E2). pose proof (po_free Hok) as Hf. pose proof (po_tfree Hok) as Ht.
  rewrite E1 in Hf. apply chain_none in Hf as ->. rewrite E2 in Ht. by apply chain_none in Ht as ->.
Qed.
End Demo.
