(* ===== verification/ClientLogic.v ===== *)
(** * Reasoning about clients of an allocator

    What a program that uses an allocator may rely on, apart from the allocator:
    the class [Allocator] is the contract, and [HmAlloc] is hmalloc's instance of
    it.  A client is a tree of calls ([prog]), or several threads that also share
    a state of their own ([action]).  Each thread is reasoned about with the
    blocks it holds and nothing else ([lwp], [twp]); the soundness theorems put the
    threads together again, under every interleaving of their calls. *)
From Stdlib Require Import ZArith Lia.
From stdpp Require Import base numbers list gmap.
From S2P Require Import Prelude Words Constants Memory Os RegionRegistry State Allocated Central Heap Hmalloc HeapInv HeapSpec LargeSpec HmallocSpec Client.

Implicit Types (V : aview).

(** ** The contract *)

(** Blocks are not empty and do not overlap. *)
Definition view_ok V : Prop :=
  (∀ b n, av_block V b n → 0 < b ∧ 0 < n) ∧
  (∀ b n b' n', av_block V b n → av_block V b' n' → (b' = b ∧ n' = n) ∨ b + n ≤ b' ∨ b' + n' ≤ b).

Class Allocator (S : Type) := {
  al_exec : nat → call → M S answer;
  al_view : S → aview;
  al_inv : S → Prop;
  al_room : nat → S → call → Prop;     (* what a call needs to be served *)
  al_view_ok s : al_inv s → view_ok (al_view s);
  al_spec tid c s : al_inv s → call_ok (al_view s) c → al_room tid s c →
    wp (al_exec tid c) (λ r s', al_inv s' ∧ astep (al_view s) c r (al_view s')) s
}.

Lemma hm_view_ok {K : Kernel} {C : Config} {KL : KernelLaws K} {Lg : Ledger} (st : State) :
  inv st → view_ok (view st).
Proof.
  intros H. pose proof (hk_mem (iv_hok H)) as Hm. split.
  - intros b n. by apply allocated_pos.
  - intros b n b' n'. by apply allocated_disjoint.
Qed.

#[export] Instance HmAlloc {K : Kernel} {C : Config} {KL : KernelLaws K} {Lg : Ledger} : Allocator State := {|
  al_exec := exec; al_view := view; al_inv := inv; al_room := call_room;
  al_view_ok := hm_view_ok; al_spec := exec_spec |}.

(** From the start of the program: a call needs a kernel that has refused nothing
    and the memory for the thread's heap, and nothing of the allocator's state. *)
#[local] Lemma calm_spec {K : Kernel} {C : Config} {KL : KernelLaws K} (Cm : Calm K) tid c (st : State) :
  inv (Lg:=while_calm Cm) st → call_ok (view st) c → calm (kern (os st)) ∧ call_heap tid st c →
  wp (exec tid c) (λ r st', inv (Lg:=while_calm Cm) st' ∧ astep (view st) c r (view st')) st.
Proof. intros Hi Hok [Hc Hh]. apply exec_spec; [done|done|by apply calm_room]. Qed.

Definition HmCalm {K : Kernel} {C : Config} {KL : KernelLaws K} (Cm : Calm K) : Allocator State := {|
  al_exec := exec; al_view := view; al_inv := inv (Lg:=while_calm Cm);
  al_room tid st c := calm (kern (os st)) ∧ call_heap tid st c;
  al_view_ok := hm_view_ok (Lg:=while_calm Cm); al_spec := calm_spec Cm |}.

(** ** Local reasoning *)

(** The blocks a thread holds, with their bytes. *)
Abbreviation zlen l := (Z.of_nat (length l)).
Abbreviation holdings := (gmap Z (list Z)).
Implicit Types (H F : holdings).

(** What a call may do to the blocks of the thread that makes it. *)
Definition lwp H (c : call) (Φ : answer → holdings → Prop) : Prop :=
  match c with
  | Malloc n => word n ∧ Φ (Ptr None) H ∧
      ∀ b l, H !! b = None → 0 < zlen l → n ≤ zlen l → Φ (Ptr (Some b)) (<[b := l]> H)
  | Free None => Φ Done H
  | Free (Some p) => is_Some (H !! p) ∧ Φ Done (delete p H)
  | Load a => ∃ b l v, H !! b = Some l ∧ b ≤ a ∧ l !! Z.to_nat (a - b) = Some v ∧ Φ (Byte v) H
  | Store a v => ∃ b l, H !! b = Some l ∧ b ≤ a < b + zlen l ∧
      Φ Done (<[b := <[Z.to_nat (a - b) := u8 v]> l]> H)
  | Exit => Φ Done H
  | _ => False
  end.

Lemma lwp_mono H c Φ Ψ : lwp H c Φ → (∀ r H', Φ r H' → Ψ r H') → lwp H c Ψ.
Proof. destruct c as [| | | |[]| | | |]; simpl; naive_solver. Qed.

(** The blocks of a view: those of [V0], untouched since, and the ones in [H]. *)
Record splits V0 H V : Prop := {
  sp_blocks b n : av_block V b n ↔ (∃ l, H !! b = Some l ∧ n = zlen l) ∨ av_block V0 b n;
  sp_bytes b l k v : H !! b = Some l → l !! k = Some v → av_byte V (b + Z.of_nat k) = v;
  sp_apart b n : av_block V0 b n → H !! b = None;
  sp_keeps b n x : av_block V0 b n → b ≤ x < b + n → av_byte V x = av_byte V0 x
}.

Lemma splits_start V : splits V ∅ V.
Proof.
  constructor; [|by intros ???? ?%lookup_empty_Some|done|done].
  intros b n. split; [by right|]. by intros [(l & ?%lookup_empty_Some & _)|].
Qed.

Lemma splits_empty V0 V : splits V0 ∅ V → a_same V0 V.
Proof.
  intros [A _ _ B]. split; [|intros b n x Hb _; by apply B]. intros b n. rewrite A. split; [|by right].
  by intros [(l & ?%lookup_empty_Some & _)|].
Qed.

Lemma splits_block V0 H V b l : splits V0 H V → H !! b = Some l → av_block V b (zlen l).
Proof. intros Hs Hb. apply (sp_blocks _ _ _ Hs). left. by exists l. Qed.
Lemma splits_old V0 H V b n : splits V0 H V → av_block V0 b n → av_block V b n.
Proof. intros Hs Hb. apply (sp_blocks _ _ _ Hs). by right. Qed.

Lemma splits_same V0 H V V' : splits V0 H V → a_same V V' → splits V0 H V'.
Proof.
  intros Hs [A B]. constructor; [| |apply Hs|].
  - intros b n. rewrite A. apply Hs.
  - intros b l k v Hb Hk. pose proof (lookup_lt_Some _ _ _ Hk).
    rewrite (B b (zlen l)); [by eapply Hs|by eapply splits_block|tauto|lia].
  - intros b n x Hb Hx. rewrite (B b n); [by apply (sp_keeps _ _ _ Hs b n)|by eapply splits_old|tauto|done].
Qed.

(** A block is new: it starts where no held block starts, nor one of [V0]. *)
Lemma splits_new V0 H V V' b (l : list Z) :
  splits V0 H V → view_ok V → 0 < zlen l → a_new V V' b (zlen l) →
  (∀ k v, l !! k = Some v → av_byte V' (b + Z.of_nat k) = v) →
  H !! b = None ∧ splits V0 (<[b := l]> H) V'.
Proof.
  intros Hs [Hv _] Hl (_ & _ & _ & Hd & A & B) Hc.
  assert (∀ n, ¬ av_block V b n) as Hfresh.
  { intros n Hb. pose proof (Hv b n Hb). destruct (Hd b n Hb); lia. }
  assert (H !! b = None) as Hnb.
  { destruct (H !! b) as [l'|] eqn:E; [|done]. destruct (Hfresh (zlen l')). by eapply splits_block. }
  split; [done|]. constructor.
  - intros b' n'. rewrite A, (sp_blocks _ _ _ Hs). split.
    + intros [[-> ->]|[(l' & Hb' & ->)|]]; [left; exists l; by simplify_map_eq| |by right].
      left. exists l'. by rewrite lookup_insert_ne by congruence.
    + intros [(l' & [[-> ->]|[Hne Hb']]%lookup_insert_Some & ->)|]; [by left| |by right; right].
      right. left. by exists l'.
  - intros b' l' k v [[-> ->]|[Hne Hb']]%lookup_insert_Some Hk; [by apply Hc|]. pose proof (lookup_lt_Some _ _ _ Hk).
    rewrite (B b' (zlen l')); [by eapply Hs|by eapply splits_block|tauto|lia].
  - intros b' n' Hb'. rewrite lookup_insert_ne; [by eapply Hs|].
    intros ->. apply (Hfresh n'). by eapply splits_old.
  - intros b' n' x Hb' Hx. rewrite (B b' n'); [by apply (sp_keeps _ _ _ Hs b' n')|by eapply splits_old|tauto|done].
Qed.

Lemma splits_gone V0 H V V' p : splits V0 H V → is_Some (H !! p) → a_gone V V' p → splits V0 (delete p H) V'.
Proof.
  intros Hs [lp Hp] [A B].
  assert (∀ b n, av_block V0 b n → b ≠ p) as Hne.
  { intros b n Hb ->. apply (sp_apart _ _ _ Hs) in Hb. congruence. }
  constructor.
  - intros b n. rewrite A, (sp_blocks _ _ _ Hs). split.
    + intros [[(l & Hb & ->)|Hb] Hbp]; [|by right]. left. exists l. by rewrite lookup_delete_ne.
    + intros [(l & [Hpb Hb]%lookup_delete_Some & ->)|Hb]; [split; [left; by exists l|done]|].
      split; [by right|by eapply Hne].
  - intros b l k v [Hpb Hb]%lookup_delete_Some Hk. pose proof (lookup_lt_Some _ _ _ Hk).
    rewrite (B b (zlen l)); [by eapply Hs|by eapply splits_block|simpl; congruence|lia].
  - intros b n Hb. apply lookup_delete_None. right. by eapply Hs.
  - intros b n x Hb Hx. rewrite (B b n); [by apply (sp_keeps _ _ _ Hs b n)|by eapply splits_old|by eapply Hne|done].
Qed.

Lemma splits_store V0 H V V' a v b l :
  splits V0 H V → view_ok V → H !! b = Some l → b ≤ a < b + zlen l →
  astep V (Store a v) Done V' → splits V0 (<[b := <[Z.to_nat (a - b) := u8 v]> l]> H) V'.
Proof.
  intros Hs [_ Hd] Hb Ha [A B]. pose proof (splits_block _ _ _ _ _ Hs Hb) as Hbl. constructor.
  - intros b' n'. rewrite A, (sp_blocks _ _ _ Hs). apply or_iff_compat_r. split.
    + intros (l' & Hb' & ->). destruct (decide (b' = b)) as [->|].
      * eexists. rewrite lookup_insert_eq, length_insert. split; [done|congruence].
      * exists l'. by rewrite lookup_insert_ne by congruence.
    + intros (l' & [[-> <-]|[Hne Hb']]%lookup_insert_Some & ->); [|by exists l'].
      exists l. by rewrite length_insert.
  - intros b' l' k w [[-> <-]|[Hne Hb']]%lookup_insert_Some Hk; rewrite B.
    + pose proof (lookup_lt_Some _ _ _ Hk) as Hlt. rewrite length_insert in Hlt.
      apply list_lookup_insert_Some in Hk as [(<- & -> & _)|[Hkn Hk]].
      * rewrite decide_True; [done|lia].
      * rewrite decide_False by lia. by eapply Hs.
    + pose proof (lookup_lt_Some _ _ _ Hk). rewrite decide_False; [by eapply Hs|].
      destruct (Hd b (zlen l) b' (zlen l')) as [[-> _]|]; [done|by eapply splits_block|done|lia].
  - intros b' n' Hb'. rewrite lookup_insert_ne; [by eapply Hs|].
    intros ->. apply (sp_apart _ _ _ Hs) in Hb'. congruence.
  - intros b' n' x Hb' Hx. rewrite B, decide_False; [by apply (sp_keeps _ _ _ Hs b' n')|].
    destruct (Hd b (zlen l) b' n') as [[-> _]|]; [done|by eapply splits_old| |lia].
    apply (sp_apart _ _ _ Hs) in Hb'. congruence.
Qed.

(** The contents of a block, read from a view. *)
Definition contents V (b n : Z) : list Z := (λ k, av_byte V (b + Z.of_nat k)) <$> seq 0 (Z.to_nat n).

Lemma contents_length V b n : 0 ≤ n → zlen (contents V b n) = n.
Proof. unfold contents. rewrite length_fmap, length_seq. lia. Qed.
Lemma contents_lookup V b n k v : contents V b n !! k = Some v → av_byte V (b + Z.of_nat k) = v.
Proof.
  unfold contents. rewrite list_lookup_fmap_Some. intros (j & -> & Hj).
  by apply lookup_seq in Hj as [-> _].
Qed.

(** *** Soundness of the local rules, next to blocks [F] of other threads *)

Section frame.
Context (V0 V : aview) (H F : holdings).
Hypothesis (Hs : splits V0 (H ∪ F) V) (HF : H ##ₘ F) (Hv : view_ok V).

Lemma held_block b l : H !! b = Some l → (H ∪ F) !! b = Some l ∧ av_block V b (zlen l).
Proof.
  intros Hb. assert ((H ∪ F) !! b = Some l) as E by (by apply lookup_union_Some_l).
  split; [done|by eapply splits_block].
Qed.

Lemma lwp_call_ok c Φ : lwp H c Φ → call_ok V c.
Proof.
  destruct c as [n| | | |[p|]| |a|a v|]; simpl; try done.
  - by intros [? _].
  - intros [[l Hl] _]. exists (zlen l). by apply held_block.
  - intros (b & l & v & Hb & Ha & Hk & _). exists b, (zlen l). apply lookup_lt_Some in Hk.
    split; [by apply held_block|lia].
  - intros (b & l & Hb & Ha & _). exists b, (zlen l). split; [by apply held_block|done].
Qed.

Lemma lwp_step c Φ r V' :
  lwp H c Φ → astep V c r V' → view_ok V' →
  ∃ H', Φ r H' ∧ H' ##ₘ F ∧ splits V0 (H' ∪ F) V'.
Proof.
  intros Hw Hst [Hv' _]. destruct c as [n| | | |[p|]| |a|a v|]; destruct r as [x|m|w|]; try done; simpl in Hw, Hst.
  - destruct Hw as (_ & HN & HS). destruct x as [b|]; [|exists H; split_and!; [done|done|by eapply splits_same]].
    destruct Hst as (m & Hnew & Hm). set (l := contents V' b m).
    assert (0 < m) as Hm0. { eapply (Hv' b). destruct Hnew as (_ & _ & _ & _ & A & _). apply A. by left. }
    assert (zlen l = m) as Hl by (apply contents_length; lia).
    destruct (splits_new V0 (H ∪ F) V V' b l Hs Hv) as [Hb Hsp]; [lia|by rewrite Hl|apply contents_lookup|].
    apply lookup_union_None in Hb as [HbH HbF]. exists (<[b := l]> H). split_and!.
    + apply HS; [done|lia|lia].
    + by apply map_disjoint_insert_l.
    + by rewrite <-insert_union_l.
  - destruct Hw as [[l Hl] HΦ]. exists (delete p H). split_and!; [done|by apply map_disjoint_delete_l|].
    replace (delete p H ∪ F) with (delete p (H ∪ F)).
    + eapply splits_gone; [done| |done]. exists l. by apply held_block.
    + rewrite delete_union. f_equal. apply delete_id. by eapply map_disjoint_Some_r.
  - exists H. split_and!; [done|done|by eapply splits_same].
  - destruct Hw as (b & l & u & Hb & Ha & Hk & HΦ). destruct Hst as [-> Hsame]. exists H.
    split_and!; [|done|by eapply splits_same].
    pose proof (sp_bytes _ _ _ Hs b l _ u (proj1 (held_block b l Hb)) Hk) as E.
    rewrite Z2Nat.id in E by lia. replace (b + (a - b)) with a in E by lia. by rewrite E.
  - destruct Hw as (b & l & Hb & Ha & HΦ). eexists. split; [exact HΦ|]. split.
    + apply map_disjoint_insert_l. split; [by eapply map_disjoint_Some_l|done].
    + rewrite <-insert_union_l. eapply splits_store; [done|done|by apply held_block|done|done].
  - exists H. split_and!; [done|done|by eapply splits_same].
Qed.
End frame.

(** ** Programs of one thread *)

(** [Sink b] is [g_sink += b] on the client's own byte; [Crash] is an index
    outside an array, [Loop] a loop that has not ended. *)
Inductive prog (R : Type) :=
| Return (r : R)
| Invoke (c : call) (k : answer → prog R)
| Sink (b : Z) (k : prog R)
| Crash
| Loop.
Arguments Return {R} r.
Arguments Invoke {R} c k.
Arguments Sink {R} b k.
Arguments Crash {R}.
Arguments Loop {R}.

#[export] Instance prog_ret : MRet prog := @Return.
#[export] Instance prog_bind : MBind prog := λ A B f,
  fix go (p : prog A) : prog B :=
    match p with
    | Return r => f r
    | Invoke c k => Invoke c (λ r, go (k r))
    | Sink b k => Sink b (go k)
    | Crash => Crash
    | Loop => Loop
    end.

(** Total correctness of a program, from the blocks it holds and the value of
    the sink. *)
Fixpoint twp {R} (p : prog R) (Q : R → holdings → Z → Prop) H (g : Z) : Prop :=
  match p with
  | Return r => Q r H g
  | Invoke c k => lwp H c (λ r H', twp (k r) Q H' g)
  | Sink b k => twp k Q H (u8 (g + b))
  | Crash | Loop => False
  end.

Lemma twp_mono {R} (p : prog R) Q Q' H g :
  twp p Q H g → (∀ r H' g', Q r H' g' → Q' r H' g') → twp p Q' H g.
Proof.
  intros Hp HQ. revert H g Hp. induction p as [r|c k IH|b k IH| |]; simpl; intros H g Hp; [by apply HQ| |by apply IH|done|done].
  eapply lwp_mono; [exact Hp|]. intros r H'. apply IH.
Qed.

Lemma twp_bind {A B} (p : prog A) (f : A → prog B) Q H g :
  twp p (λ a, twp (f a) Q) H g → twp (p ≫= f) Q H g.
Proof.
  revert H g. induction p as [r|c k IH|b k IH| |]; simpl; intros H g Hp; [done| |by apply IH|done|done].
  eapply lwp_mono; [exact Hp|]. intros r H'. apply IH.
Qed.

(** The sink decides nothing. *)
Lemma twp_sink {R} (p : prog R) Q H g g' :
  (∀ r H g g', Q r H g → Q r H g') → twp p Q H g → twp p Q H g'.
Proof.
  intros HQ. revert H g g'. induction p as [r|c k IH|b k IH| |]; simpl; intros H g g'; [by apply HQ| |by apply IH|done|done].
  intros Hp. eapply lwp_mono; [exact Hp|]. intros r H'. apply IH.
Qed.

(** A program makes at most [n] steps, whatever it is answered: a call is one, a
    sum into the sink two, a read and a write. *)
Fixpoint bounded {R} (n : nat) (p : prog R) {struct p} : Prop :=
  match p with
  | Invoke c k => match n with O => False | S n => ∀ r, bounded n (k r) end
  | Sink b k => match n with S (S n) => bounded n k | _ => False end
  | _ => True
  end.

Lemma bounded_le {R} n m (p : prog R) : bounded n p → (n ≤ m)%nat → bounded m p.
Proof.
  revert n m. induction p as [r|c k IH|b k IH| |]; simpl; intros n m Hp Hle; try done.
  - destruct n as [|n], m as [|m]; [done|done|lia|]. intros r. eapply IH; [apply Hp|lia].
  - destruct n as [|[|n]]; [done..|]. destruct m as [|[|m]]; [lia..|]. eapply IH; [exact Hp|lia].
Qed.

Lemma bounded_bind {A B} a b (p : prog A) (f : A → prog B) :
  bounded a p → (∀ x, bounded b (f x)) → bounded (a + b) (p ≫= f).
Proof.
  intros Hp Hf. revert a Hp. induction p as [r|c k IH|x k IH| |]; simpl; intros a Hp; try done.
  - eapply bounded_le; [apply Hf|lia].
  - destruct a as [|a]; [done|]. intros r. apply IH, Hp.
  - destruct a as [|[|a]]; [done..|]. apply IH, Hp.
Qed.

(** ** Running a program on an allocator *)

Section run.
Context {S : Type} {A : Allocator S}.

Fixpoint run {R} (tid : nat) (p : prog R) : M (S * Z) R :=
  match p with
  | Return r => mret r
  | Invoke c k => r ← zoom fst (λ s x, (s, snd x)) (al_exec tid c); run tid (k r)
  | Sink b k => modify (λ x, (fst x, u8 (snd x + b)));; run tid k
  | Crash => fault
  | Loop => diverge
  end.

(** Every call of the run finds what it needs. *)
Fixpoint has_room {R} (tid : nat) (p : prog R) (s : S) : Prop :=
  match p with
  | Invoke c k => al_room tid s c ∧
      match al_exec tid c s with Ok (r, s') => has_room tid (k r) s' | _ => True end
  | Sink b k => has_room tid k s
  | _ => True
  end.

Fixpoint room_checked {R} (room : nat → S → call → bool) (tid : nat) (p : prog R) (s : S) : bool :=
  match p with
  | Invoke c k => room tid s c &&
      match al_exec tid c s with Ok (r, s') => room_checked room tid (k r) s' | _ => true end
  | Sink b k => room_checked room tid k s
  | _ => true
  end.

Lemma room_checked_sound {R} room tid (p : prog R) s :
  (∀ i s c, room i s c = true → al_room i s c) → room_checked room tid p s = true → has_room tid p s.
Proof.
  intros Hroom. revert s. induction p as [r|c k IH|b k IH| |]; simpl; intros s Hp; [done| |by apply IH|done|done].
  apply andb_true_iff in Hp as [Hc Hp]. split; [by apply Hroom|]. destruct (al_exec tid c s) as [[r s']| |]; auto.
Qed.

(** A call, seen by the thread that makes it. *)
Lemma call_sound V0 H F s tid c Φ :
  al_inv s → splits V0 (H ∪ F) (al_view s) → H ##ₘ F → al_room tid s c → lwp H c Φ →
  wp (al_exec tid c) (λ r s', al_inv s' ∧ ∃ H', Φ r H' ∧ H' ##ₘ F ∧ splits V0 (H' ∪ F) (al_view s')) s.
Proof.
  intros Hi Hs HF Hr Hw. eapply wp_mono.
  - apply al_spec; [done|by eapply lwp_call_ok|done].
  - intros r s' [Hi' Hst]. split; [done|]. eapply lwp_step; try done; by apply al_view_ok.
Qed.

Lemma run_sound {R} V0 tid (p : prog R) Q H g s :
  al_inv s → splits V0 H (al_view s) → twp p Q H g → has_room tid p s →
  wp (run tid p) (λ r x, al_inv (fst x) ∧ ∃ H', Q r H' (snd x) ∧ splits V0 H' (al_view (fst x))) (s, g).
Proof.
  revert H g s. induction p as [r|c k IH|b k IH| |]; simpl; intros H g s Hi Hs Hp Hroom; [| | |done|done].
  - apply wp_ret. split; [done|]. by exists H.
  - destruct Hroom as [Hc Hroom]. rewrite <-(map_union_empty H) in Hs.
    pose proof (call_sound V0 H ∅ s tid c _ Hi Hs (map_disjoint_empty_r _) Hc Hp) as Hw.
    apply wp_ok in Hw as (r & s' & E & Hi' & H' & Hk & _ & Hs'). rewrite E in Hroom. rewrite map_union_empty in Hs'.
    apply wp_bind. unfold zoom, wp. simpl. rewrite E. by eapply IH.
  - apply wp_bind, wp_modify. by eapply IH.
Qed.

(** A program that gives back what it allocates leaves the blocks as they were. *)
Lemma run_balanced {R} tid (p : prog R) (Q : R → Z → Prop) g s :
  al_inv s → twp p (λ r H g', H = ∅ ∧ Q r g') ∅ g → has_room tid p s →
  wp (run tid p) (λ r x, al_inv (fst x) ∧ a_same (al_view s) (al_view (fst x)) ∧ Q r (snd x)) (s, g).
Proof.
  intros Hi Hp Hroom. eapply wp_mono; [by eapply run_sound; [|apply splits_start|exact Hp|]|].
  intros r x (Hi' & H' & [-> HQ] & Hs'). split_and!; [done|by apply splits_empty|done].
Qed.
End run.

(** ** Several threads *)

(** What a thread does next: [Halt] is a thread that has returned, [Sync] one
    access to the shared state [X] that is a single step (an atomic access, or a
    critical section of a mutex), [Join] waits for another thread to return. *)
Inductive action (T X : Type) :=
| Halt
| Call (c : call) (k : answer → T)
| Sync (f : X → T * X)
| Join (j : nat) (t : T).
Arguments Halt {T X}.
Arguments Call {T X} c k.
Arguments Sync {T X} f.
Arguments Join {T X} j t.

Record pool (T X S : Type) := mkPool { threads : list T; shared : X; mem : S }.
Arguments mkPool {T X S} threads shared mem.
Arguments threads {T X S} _.
Arguments shared {T X S} _.
Arguments mem {T X S} _.

Section pool.
Context {T X S : Type} {A : Allocator S} (act : T → action T X).
Implicit Types (w : pool T X S) (t : T) (x : X).

(** One step of the thread at index [i], which is the allocator's thread [i]. *)
Inductive moves (i : nat) w : pool T X S → Prop :=
| step_call t c k r s : threads w !! i = Some t → act t = Call c k →
    al_room i (mem w) c → al_exec i c (mem w) = Ok (r, s) →
    moves i w (mkPool (<[i := k r]> (threads w)) (shared w) s)
| step_sync t f : threads w !! i = Some t → act t = Sync f →
    moves i w (mkPool (<[i := fst (f (shared w))]> (threads w)) (snd (f (shared w))) (mem w))
| step_join t j t' u : threads w !! i = Some t → act t = Join j t' →
    threads w !! j = Some u → act u = Halt → moves i w (mkPool (<[i := t']> (threads w)) (shared w) (mem w)).

Definition pstep w w' : Prop := ∃ i, moves i w w'.

Definition finished w : Prop := Forall (λ t, act t = Halt) (threads w).

(** *** Schedules

    Running the threads by a list of turns; a turn of a thread that cannot go on
    is skipped.  [room] decides what a call needs. *)
Definition turn (room : nat → S → call → bool) (i : nat) w : pool T X S :=
  match threads w !! i with
  | None => w
  | Some t =>
      match act t with
      | Halt => w
      | Call c k =>
          if room i (mem w) c then
            match al_exec i c (mem w) with
            | Ok (r, s) => mkPool (<[i := k r]> (threads w)) (shared w) s
            | _ => w
            end
          else w
      | Sync f => mkPool (<[i := fst (f (shared w))]> (threads w)) (snd (f (shared w))) (mem w)
      | Join j t' =>
          match threads w !! j with
          | Some u => match act u with Halt => mkPool (<[i := t']> (threads w)) (shared w) (mem w) | _ => w end
          | None => w
          end
      end
  end.

Fixpoint follow (room : nat → S → call → bool) (turns : list nat) w : pool T X S :=
  match turns with [] => w | i :: turns => follow room turns (turn room i w) end.

Lemma follow_steps room turns w :
  (∀ i s c, room i s c = true → al_room i s c) → rtc pstep w (follow room turns w).
Proof.
  intros Hroom. revert w. induction turns as [|i turns IH]; intros w; [done|]. simpl.
  etrans; [|apply IH]. unfold turn. destruct (threads w !! i) as [t|] eqn:Hi; [|done].
  destruct (act t) as [|c k|f|j t'] eqn:Ha; [done| | |].
  - destruct (room i (mem w) c) eqn:Er; [|done]. destruct (al_exec i c (mem w)) as [[r s]| |] eqn:E; [|done|done].
    apply rtc_once. exists i. eapply step_call; eauto.
  - apply rtc_once. exists i. by eapply step_sync.
  - destruct (threads w !! j) as [u|] eqn:Hj; [|done]. destruct (act u) eqn:Hu; try done. apply rtc_once. exists i. by eapply step_join.
Qed.

(** *** The discipline of blocks

    [J t H]: at point [t] a thread holds the blocks [H]; [I x H]: the shared state
    holds them.  A step on the shared state may move blocks from one to the other. *)
Class Discipline (J : T → holdings → Prop) (I : X → holdings → Prop) : Prop := {
  d_call t H c k : J t H → act t = Call c k → lwp H c (λ r H', J (k r) H');
  d_sync t H x Hx f : J t H → act t = Sync f → I x Hx → H ##ₘ Hx →
    ∃ H' Hx', H ∪ Hx = H' ∪ Hx' ∧ H' ##ₘ Hx' ∧ J (fst (f x)) H' ∧ I (snd (f x)) Hx';
  d_join t H j t' : J t H → act t = Join j t' → J t' H;
  d_halt t H : J t H → act t = Halt → H = ∅
}.

Context (J : T → holdings → Prop) (I : X → holdings → Prop) {D : Discipline J I}.

(** The blocks of all threads together. *)
Fixpoint parts (ts : list T) H : Prop :=
  match ts with
  | [] => H = ∅
  | t :: ts => ∃ H1 H2, H = H1 ∪ H2 ∧ H1 ##ₘ H2 ∧ J t H1 ∧ parts ts H2
  end.

(** One thread, and the others. *)
Lemma parts_focus ts H i t :
  parts ts H → ts !! i = Some t →
  ∃ Hi F, H = Hi ∪ F ∧ Hi ##ₘ F ∧ J t Hi ∧
    ∀ t' H', J t' H' → H' ##ₘ F → parts (<[i := t']> ts) (H' ∪ F).
Proof.
  revert H i. induction ts as [|u ts IH]; intros H i Hp Hi; [done|].
  destruct Hp as (H1 & H2 & -> & Hd & Hu & Hp). destruct i as [|i]; simpl in Hi.
  - injection Hi as ->. exists H1, H2. split_and!; try done. intros t' H' Ht' HF. by exists H', H2.
  - destruct (IH H2 i Hp Hi) as (Hi' & F & -> & Hd' & Ht & Hback). exists Hi', (H1 ∪ F).
    apply map_disjoint_union_r in Hd as [Hd1 Hd2]. split_and!; [|by apply map_disjoint_union_r|done|].
    { rewrite !(assoc_L (∪)). f_equal. by apply map_union_comm. }
    intros t' H' Ht' [HF1 HF2]%map_disjoint_union_r. exists H1, (H' ∪ F). split_and!; [|by apply map_disjoint_union_r|done|by apply Hback].
    rewrite !(assoc_L (∪)). f_equal. by apply map_union_comm.
Qed.

Record pool_inv V0 w : Prop := {
  pi_inv : al_inv (mem w);
  pi_parts : ∃ Ht Hx, Ht ##ₘ Hx ∧ parts (threads w) Ht ∧ I (shared w) Hx ∧ splits V0 (Ht ∪ Hx) (al_view (mem w))
}.

(** A thread of a pool, its blocks, and the blocks of the rest. *)
Lemma pool_focus V0 w i t :
  pool_inv V0 w → threads w !! i = Some t →
  ∃ H F Hx, J t H ∧ I (shared w) Hx ∧ H ##ₘ F ∧ H ##ₘ Hx ∧ F ##ₘ Hx ∧ splits V0 (H ∪ (F ∪ Hx)) (al_view (mem w)) ∧
    ∀ t' H', J t' H' → H' ##ₘ F → parts (<[i := t']> (threads w)) (H' ∪ F).
Proof.
  intros [_ (Ht & Hx & Hd & Hp & HI & Hs)] Hi. destruct (parts_focus _ _ _ _ Hp Hi) as (H & F & -> & HF & HJ & Hback).
  apply map_disjoint_union_l in Hd as [Hd1 Hd2]. exists H, F, Hx. rewrite (assoc_L (∪)). by split_and!.
Qed.

(** No call of any thread faults or hangs. *)
Lemma pool_call V0 w i t c k :
  pool_inv V0 w → threads w !! i = Some t → act t = Call c k → al_room i (mem w) c →
  wp (al_exec i c) (λ r s, pool_inv V0 (mkPool (<[i := k r]> (threads w)) (shared w) s)) (mem w).
Proof.
  intros Hw Hi Ha Hroom. destruct (pool_focus _ _ _ _ Hw Hi) as (H & F & Hx & HJ & HI & HF & HX & HFX & Hs & Hback).
  eapply wp_mono.
  - apply (call_sound V0 H (F ∪ Hx)); [apply Hw|done|by apply map_disjoint_union_r|done|by eapply d_call].
  - intros r s (Hi' & H' & HJ' & [HF' HX']%map_disjoint_union_r & Hs'). split; [done|]. exists (H' ∪ F), Hx.
    split_and!; [by apply map_disjoint_union_l|by apply Hback|done|]. by rewrite <-(assoc_L (∪)).
Qed.

Lemma pool_calls_return V0 w :
  pool_inv V0 w → ∀ i t c k, threads w !! i = Some t → act t = Call c k → al_room i (mem w) c →
  wp (al_exec i c) (λ _ s, al_inv s) (mem w).
Proof.
  intros Hw i t c k Hi Ha Hroom. eapply wp_mono; [by eapply pool_call|]. intros r s Hp. apply Hp.
Qed.

Lemma pstep_inv V0 w w' : pool_inv V0 w → pstep w w' → pool_inv V0 w'.
Proof.
  intros Hw [i [t c k r s Hi Ha Hroom He|t f Hi Ha|t j t' u Hi Ha Hj Hu]].
  - pose proof (pool_call V0 w i t c k Hw Hi Ha Hroom) as Hc. unfold wp in Hc. by rewrite He in Hc.
  - destruct (pool_focus _ _ _ _ Hw Hi) as (H & F & Hx & HJ & HI & HF & HX & HFX & Hs & Hback).
    destruct (d_sync t H (shared w) Hx f HJ Ha HI HX) as (H' & Hx' & E & HX' & HJ' & HI'). split; [apply Hw|].
    assert (F ##ₘ H' ∪ Hx') as [HF1 HF2]%map_disjoint_union_r by (rewrite <-E; by apply map_disjoint_union_r).
    exists (H' ∪ F), Hx'. split_and!; [by apply map_disjoint_union_l|by apply Hback|done|]. simpl.
    replace (H' ∪ F ∪ Hx') with (H ∪ (F ∪ Hx)); [done|].
    rewrite (map_union_comm F Hx), (assoc_L (∪)), E by done.
    rewrite <-(assoc_L (∪)), (map_union_comm Hx' F), (assoc_L (∪)) by done. done.
  - destruct (pool_focus _ _ _ _ Hw Hi) as (H & F & Hx & HJ & HI & HF & HX & HFX & Hs & Hback). split; [apply Hw|].
    exists (H ∪ F), Hx. split_and!; [by apply map_disjoint_union_l|apply Hback; [by eapply d_join|done]|done|].
    by rewrite <-(assoc_L (∪)).
Qed.

Lemma psteps_inv V0 w w' : pool_inv V0 w → rtc pstep w w' → pool_inv V0 w'.
Proof. intros Hw. induction 1; eauto using pstep_inv. Qed.

(** When all have returned, only the shared state can hold blocks. *)
Lemma pool_end V0 w :
  pool_inv V0 w → finished w → ∃ Hx, I (shared w) Hx ∧ splits V0 Hx (al_view (mem w)).
Proof.
  intros [_ (Ht & Hx & _ & Hp & HI & Hs)] Hf. exists Hx. split; [done|].
  assert (Ht = ∅) as ->; [|by rewrite map_empty_union in Hs]. clear HI Hs. unfold finished in Hf.
  revert Ht Hp. induction Hf as [|t ts Hh _ IH]; intros Ht Hp; [done|].
  destruct Hp as (H1 & H2 & -> & _ & HJ & Hp). rewrite (d_halt t H1 HJ Hh), (IH H2 Hp). apply map_empty_union.
Qed.

(** Threads that hold nothing. *)
Lemma parts_start ts : Forall (λ t, J t ∅) ts → parts ts ∅.
Proof.
  induction 1 as [|t ts Ht _ IH]; [done|]. exists ∅, ∅. split_and!; [by rewrite map_empty_union|apply map_disjoint_empty_l|done|done].
Qed.

Lemma pool_start ts x s :
  al_inv s → Forall (λ t, J t ∅) ts → I x ∅ → pool_inv (al_view s) (mkPool ts x s).
Proof.
  intros Hi Hts Hx. split; [done|]. exists ∅, ∅. split_and!; [apply map_disjoint_empty_l|by apply parts_start|done|].
  rewrite map_empty_union. apply splits_start.
Qed.
End pool.
