(* ===== verification/Fair.v ===== *)
(** * Fair schedules

    Threads that poll a shared flag can always take a step, so that a step exists
    says little.  Here a run is an infinite sequence of turns in which every thread
    has its turn again and again ([fair_run]); a turn of a thread that cannot go on
    is skipped.  [Ranking] is a rank that no step raises and that falls whenever a
    useful thread steps, together with the proof that until all threads have returned
    one of those that can step is useful and stays so until its turn: then every
    fair run comes to the point where all threads have returned. *)
From Stdlib Require Import ZArith Lia.
From stdpp Require Import base numbers list gmap.
From S2P Require Import Prelude Words Constants Memory Os State Client ClientLogic.

Section fair.
Context {T X S : Type} {A : Allocator S} (act : T → action T X).
Implicit Types (w : pool T X S) (σ : nat → pool T X S) (sched : nat → nat).

Record fair_run w0 sched σ : Prop := {
  fr_start : σ 0%nat = w0;
  fr_turn n : moves act (sched n) (σ n) (σ (n + 1)%nat) ∨
    (σ (n + 1)%nat = σ n ∧ ∀ w', ¬ moves act (sched n) (σ n) w');
  fr_fair i n : (i < length (threads w0))%nat → ∃ m, (n ≤ m)%nat ∧ sched m = i
}.

(** Every pending call finds what it needs. *)
Definition served w : Prop :=
  ∀ i t c k, threads w !! i = Some t → act t = Call c k → al_room i (mem w) c.

(** A thread that can step. *)
Definition able (i : nat) w : Prop := ∃ t, threads w !! i = Some t ∧
  match act t with
  | Halt => False
  | Join j _ => ∃ u, threads w !! j = Some u ∧ act u = Halt
  | _ => True
  end.

Lemma moves_thread i w w' :
  moves act i w w' → ∃ t t', threads w !! i = Some t ∧ act t ≠ Halt ∧ threads w' = <[i := t']> (threads w).
Proof. destruct 1; eexists _, _; (split; [done|]); split; simpl; congruence || done. Qed.

Lemma moves_length i w w' : moves act i w w' → length (threads w') = length (threads w).
Proof. intros (t & t' & _ & _ & ->)%moves_thread. apply length_insert. Qed.

Lemma able_kept i j w w' : able i w → moves act j w w' → j ≠ i → able i w'.
Proof.
  intros (t & Ht & Ha) (u & u' & Hu & Hn & E)%moves_thread Hne. exists t. rewrite E.
  rewrite list_lookup_insert_ne by done. split; [done|]. destruct (act t) as [| | |k t']; try done.
  destruct Ha as (v & Hv & Hh). exists v. rewrite list_lookup_insert_ne; [done|]. intros ->. congruence.
Qed.

Lemma fair_steps w0 sched σ n : fair_run w0 sched σ → rtc (pstep act) w0 (σ n).
Proof.
  intros [H0 Ht _]. induction n as [|n IH]; [by rewrite H0|]. etrans; [exact IH|].
  replace (Datatypes.S n) with (n + 1)%nat by lia. destruct (Ht n) as [Hm|[-> _]]; [|done]. apply rtc_once. by exists (sched n).
Qed.

Lemma finished_dec w : Decision (finished act w).
Proof. apply Forall_dec. intros t. destruct (act t); [by left|by right..]. Qed.

Lemma unfinished w : ¬ finished act w → ∃ i t, threads w !! i = Some t ∧ act t ≠ Halt.
Proof.
  intros Hn. assert (∀ t, Decision (act t = Halt)) as dec by (intros t; destruct (act t); [by left|by right..]).
  apply not_Forall_Exists, Exists_exists in Hn as (t & (i & Hi)%list_elem_of_lookup & Ht); [|done]. eauto.
Qed.

(** *** Ranks *)

Context (J : T → gmap Z (list Z) → Prop) (I : X → gmap Z (list Z) → Prop) {D : Discipline act J I}.

Lemma able_moves V0 w i : pool_inv J I V0 w → served w → able i w → ∃ w', moves act i w w'.
Proof.
  intros Hw Hs (t & Ht & Ha). destruct (act t) as [|c k|f|j t'] eqn:E; [done|..].
  - pose proof (pool_call act J I V0 w i t c k Hw Ht E (Hs i t c k Ht E)) as (r & s & Er & _)%wp_ok.
    eexists. eapply step_call; eauto.
  - eexists. by eapply step_sync.
  - destruct Ha as (u & Hu & Hh). eexists. by eapply step_join.
Qed.

Class Ranking {R : Type} (lower : relation R) (Inv : pool T X S → Prop) (rank : pool T X S → R → Prop)
    (useful : nat → pool T X S → Prop) : Prop := {
  rn_wf : well_founded lower;
  rn_pool w : Inv w → ∃ V0, pool_inv J I V0 w;
  rn_inv i w w' : Inv w → moves act i w w' → Inv w';
  rn_step i w w' a : Inv w → rank w a → moves act i w w' →
    ∃ b, rank w' b ∧ (lower b a ∨ b = a ∧ ¬ useful i w);
  rn_useful i j w w' : Inv w → useful i w → moves act j w w' → j ≠ i → useful i w';
  rn_some w : Inv w → ¬ finished act w → ∃ i, useful i w ∧ able i w
}.

Section ends.
Context {R : Type} (lower : relation R) (Inv : pool T X S → Prop) (rank : pool T X S → R → Prop)
  (useful : nat → pool T X S → Prop) {Rn : Ranking lower Inv rank useful}.
Context (w0 : pool T X S) (sched : nat → nat) (σ : nat → pool T X S).
Hypothesis (Hrun : fair_run w0 sched σ) (Hserved : ∀ n, served (σ n)) (Hinv : Inv w0).

Lemma run_inv n : Inv (σ n) ∧ length (threads (σ n)) = length (threads w0).
Proof.
  induction n as [|n [IH El]]; [by rewrite (fr_start _ _ _ Hrun)|]. replace (Datatypes.S n) with (n + 1)%nat by lia.
  destruct (fr_turn _ _ _ Hrun n) as [Hm|[-> _]]; [|done]. split; [by eapply rn_inv|]. by rewrite (moves_length _ _ _ Hm).
Qed.

(** The turn of a useful thread that can step lowers the rank, *)
Lemma own_turn a n : rank (σ n) a → useful (sched n) (σ n) → able (sched n) (σ n) → ∃ b, rank (σ (n + 1)%nat) b ∧ lower b a.
Proof.
  intros Hr Hu Ha. destruct (run_inv n) as [Hi _]. destruct (rn_pool _ Hi) as [V0 Hp].
  destruct (able_moves V0 _ _ Hp (Hserved n) Ha) as [w' Hw'].
  destruct (fr_turn _ _ _ Hrun n) as [Hm|[_ Hno]]; [|by destruct (Hno w')].
  destruct (rn_step _ _ _ a Hi Hr Hm) as (b & Hb & [Hlt|[_ Hn]]); [eauto|done].
Qed.

(** and the thread stays useful and able until then. *)
Lemma turn_comes a i : ∀ d n, sched (n + d)%nat = i → rank (σ n) a → useful i (σ n) → able i (σ n) →
  ∃ m b, rank (σ m) b ∧ lower b a.
Proof.
  induction d as [|d IH]; intros n Hd Hr Hu Ha; (destruct (decide (sched n = i)) as [<-|Hne];
    [destruct (own_turn a n Hr Hu Ha) as (b & ? & ?); eauto|]).
  { by rewrite Nat.add_0_r in Hd. }
  destruct (run_inv n) as [Hi _]. replace (n + Datatypes.S d)%nat with (n + 1 + d)%nat in Hd by lia.
  destruct (fr_turn _ _ _ Hrun n) as [Hm|[Es _]]; [|apply (IH (n + 1)%nat); [done|by rewrite Es..]].
  destruct (rn_step _ _ _ a Hi Hr Hm) as (b & Hb & [Hlt|[-> _]]); [eauto|].
  apply (IH (n + 1)%nat); [done|done|by eapply rn_useful|by eapply able_kept].
Qed.

Lemma fair_ends a : rank w0 a → ∃ n, finished act (σ n).
Proof.
  rewrite <-(fr_start _ _ _ Hrun). generalize 0%nat. induction (rn_wf a) as [a _ IH]. intros n Hr.
  destruct (finished_dec (σ n)) as [|Hn]; [eauto|]. destruct (run_inv n) as [Hi El].
  destruct (rn_some _ Hi Hn) as (i & Hu & Ha).
  destruct (fr_fair _ _ _ Hrun i n) as (m & Hm & Es).
  { rewrite <-El. destruct Ha as (t & Ht & _). by eapply lookup_lt_Some. }
  destruct (turn_comes a i (m - n) n) as (k & b & Hb & Hlt); try done; [by replace (n + (m - n))%nat with m by lia|].
  by apply (IH b Hlt k).
Qed.
End ends.

(** *** Running by turns

    The run that follows a schedule, when every pending call is served on the
    way: it is checked up to a point where all threads have returned. *)
Context (room : nat → S → call → bool) (Hroom : ∀ i s c, room i s c = true → al_room i s c).

Definition served_check w : bool :=
  forallb (λ it : nat * T, match act it.2 with Call c _ => room it.1 (mem w) c | _ => true end) (imap pair (threads w)).
Definition halted (a : action T X) : bool := match a with Halt => true | _ => false end.
Definition finished_check w : bool := forallb (λ t, halted (act t)) (threads w).
Fixpoint check_turns (turns : list nat) w : bool :=
  served_check w && match turns with [] => finished_check w | i :: turns => check_turns turns (turn act room i w) end.

Definition by_turns sched w0 (n : nat) : pool T X S := follow act room (sched <$> seq 0 n) w0.

Lemma served_checked w i t c k : served_check w = true → threads w !! i = Some t → act t = Call c k → room i (mem w) c = true.
Proof.
  intros Hc Ht Ha. unfold served_check in Hc. rewrite forallb_forall in Hc. specialize (Hc (i, t)). simpl in Hc. rewrite Ha in Hc.
  apply Hc, list_elem_of_In, list_elem_of_lookup. exists i. rewrite list_lookup_imap, Ht. done.
Qed.

Lemma finished_checked w : finished_check w = true → finished act w.
Proof.
  intros Hf. apply Forall_forall. intros t Ht%list_elem_of_In. unfold finished_check in Hf. rewrite forallb_forall in Hf.
  specialize (Hf t Ht). by destruct (act t).
Qed.

Lemma turn_moves i w :
  served_check w = true → moves act i w (turn act room i w) ∨ (turn act room i w = w ∧ ∀ w', ¬ moves act i w w').
Proof.
  intros Hc. unfold turn. destruct (threads w !! i) as [t|] eqn:Ht.
  2: { right. split; [done|]. intros w' (u & _ & Hu & _)%moves_thread. congruence. }
  destruct (act t) as [|c k|f|j t'] eqn:Ha.
  - right. split; [done|]. intros w' (u & _ & Hu & Hn & _)%moves_thread. congruence.
  - pose proof (served_checked w i t c k Hc Ht Ha) as Hr. rewrite Hr.
    destruct (al_exec i c (mem w)) as [[r s]| |] eqn:E; [left; eapply step_call; eauto|right..];
      (split; [done|]); intros w' []; congruence.
  - left. by eapply step_sync.
  - destruct (threads w !! j) as [u|] eqn:Hj; [destruct (act u) eqn:Hu|]; [left; by eapply step_join|right..];
      (split; [done|]); intros w' []; congruence.
Qed.

Lemma follow_app l1 l2 w : follow act room (l1 ++ l2) w = follow act room l2 (follow act room l1 w).
Proof. revert w. induction l1 as [|i l1 IH]; intros w; [done|]. apply IH. Qed.

Lemma by_turns_next sched w0 n : by_turns sched w0 (n + 1) = turn act room (sched n) (by_turns sched w0 n).
Proof. unfold by_turns. by rewrite seq_app, fmap_app, follow_app. Qed.

Lemma check_prefix l w : check_turns l w = true →
  finished act (follow act room l w) ∧ ∀ l1 l2, l = l1 ++ l2 → served_check (follow act room l1 w) = true.
Proof.
  revert w. induction l as [|i l IH]; intros w [Hs Hc]%andb_true_iff.
  - split; [by apply finished_checked|]. intros [] l2 E; [done|discriminate].
  - destruct (IH _ Hc) as [Hf Hp]. split; [done|]. intros [|j l1] l2 E; [done|]. injection E as <- E. by apply (Hp l1 l2).
Qed.

Lemma turn_finished i w : finished act w → turn act room i w = w.
Proof.
  intros Hf. unfold turn. destruct (threads w !! i) as [t|] eqn:Ht; [|done]. by rewrite (Forall_lookup_1 _ _ _ _ Hf Ht).
Qed.

Lemma finished_served w : finished act w → served_check w = true.
Proof.
  intros Hf. apply forallb_forall. intros [i t] Hi%list_elem_of_In%elem_of_lookup_imap_1. simpl.
  destruct Hi as (j & u & E & Hu). injection E as -> ->. by rewrite (Forall_lookup_1 _ _ _ _ Hf Hu).
Qed.

Lemma by_turns_fair sched w0 N :
  check_turns (sched <$> seq 0 N) w0 = true →
  (∀ i n, (i < length (threads w0))%nat → ∃ m, (n ≤ m)%nat ∧ sched m = i) →
  fair_run w0 sched (by_turns sched w0) ∧ ∀ n, served (by_turns sched w0 n).
Proof.
  intros Hc Hf. destruct (check_prefix _ _ Hc) as [Hfin Hpre].
  assert (∀ d, finished act (by_turns sched w0 (N + d)%nat)) as Hlate.
  { induction d as [|d IH]; [by rewrite Nat.add_0_r|]. replace (N + Datatypes.S d)%nat with (N + d + 1)%nat by lia.
    by rewrite by_turns_next, turn_finished. }
  assert (∀ n, served_check (by_turns sched w0 n) = true) as Hs.
  { intros n. destruct (decide (n ≤ N)%nat) as [Hle|Hgt].
    - apply (Hpre _ (sched <$> seq n (N - n))). rewrite <-fmap_app, <-seq_app. by replace (n + (N - n))%nat with N by lia.
    - replace n with (N + (n - N))%nat by lia. apply finished_served, Hlate. }
  split; [constructor|].
  - done.
  - intros n. rewrite by_turns_next. by apply turn_moves.
  - done.
  - intros n i t c k Ht Ha. by eapply Hroom, served_checked.
Qed.
End fair.
