(* ===== verification/Bench.v ===== *)
(** * The arithmetic of the benchmark harness (bench/bench.cpp)

    The generator of request sizes and the choice of thread counts; the workloads
    are in BenchRuns and BenchThreads. *)
From Stdlib Require Import ZArith Lia.
From stdpp Require Import base numbers list.
From S2P Require Import Prelude Words Constants.

(** [struct Rng]: the state is a non-zero 64-bit word. *)
Definition Rng_init (seed : Z) : Z := if seed =? 0 then 0x9e3779b97f4a7c15 else seed.
Definition Rng_next (s : Z) : Z :=
  let s := Z.lxor s (u64 (Z.shiftl s 13)) in
  let s := Z.lxor s (Z.shiftr s 7) in
  Z.lxor s (u64 (Z.shiftl s 17)).

(** The sizes of the mixed and of the fragmentation workload. *)
Definition pick (r : Z) : Z := if r mod 16 =? 0 then u64 (1024 + r mod 8192) else u64 (8 + r mod 248).
Definition frag_size (v : Z) : Z := if v mod 64 =? 0 then u64 (8192 + v mod 65536) else u64 (8 + v mod 1024).

(** [for (unsigned T = 1; T <= cores; T <<= 1)] of scenario_scaling: the thread
    counts that are measured, [None] when the fuel does not suffice. *)
Fixpoint scaling_loop (fuel : nat) (T cores : Z) : option (list Z) :=
  match fuel with
  | O => None
  | S f =>
      if T <=? cores then
        let T' := if negb (T =? cores) && (cores <? u32 (Z.shiftl T 1)) then Z.shiftr cores 1 else T in
        l ← scaling_loop f (u32 (Z.shiftl T' 1)) cores;
        Some (T :: l)
      else Some []
  end.

Definition scenario_scaling_threads (fuel : nat) (hardware : Z) : option (list Z) :=
  let cores := if hardware =? 0 then 4 else hardware in
  scaling_loop fuel 1 cores.

(** The same loop, as far as it gets in [fuel] rounds: the thread counts measured so
    far, and whether it has ended. *)
Fixpoint scaling_prefix (fuel : nat) (T cores : Z) : list Z * bool :=
  match fuel with
  | O => ([], false)
  | S f =>
      if T <=? cores then
        let T' := if negb (T =? cores) && (cores <? u32 (Z.shiftl T 1)) then Z.shiftr cores 1 else T in
        let rest := scaling_prefix f (u32 (Z.shiftl T' 1)) cores in
        (T :: fst rest, snd rest)
      else ([], true)
  end.

Lemma scaling_loop_prefix fuel T cores :
  scaling_loop fuel T cores = if snd (scaling_prefix fuel T cores) then Some (fst (scaling_prefix fuel T cores)) else None.
Proof.
  revert T. induction fuel as [|f IH]; intros T; [done|]. simpl. destruct (T <=? cores); [|done].
  simpl. rewrite IH. by case_match.
Qed.

(** The producers and consumers of scenario_prodcons. *)
Definition prodcons_threads (hardware : Z) : Z * Z :=
  let cores := if hardware <? 2 then 2 else hardware in
  let P := cores / 2 in
  (P, cores - P).

Lemma prodcons_threads_pos hardware :
  0 ≤ hardware → 0 < fst (prodcons_threads hardware) ∧ 0 < snd (prodcons_threads hardware).
Proof.
  intros Hh. unfold prodcons_threads. destruct (Z.ltb_spec hardware 2); [by vm_compute|]. simpl.
  pose proof (Z.div_mod hardware 2). pose proof (Z.mod_pos_bound hardware 2). lia.
Qed.

(** ** The generator *)

(** A word is determined by its bits below 64. *)
Lemma word_zero s : 0 ≤ s < 2 ^ 64 → (∀ i, 0 ≤ i < 64 → Z.testbit s i = false) → s = 0.
Proof.
  intros Hs Hb. apply Z.bits_inj_0. intros i. destruct (Z.lt_ge_cases i 0); [by apply Z.testbit_neg_r|].
  destruct (Z.lt_ge_cases i 64); [by apply Hb|]. destruct (decide (s = 0)) as [->|]; [apply Z.bits_0|].
  apply Z.bits_above_log2; [lia|]. apply Z.log2_lt_pow2; [lia|]. pose proof (Z.pow_le_mono_r 2 64 i). lia.
Qed.

(** Both shifts of the generator are injective at zero. *)
Lemma xorshift_left_zero s k :
  0 < k → 0 ≤ s < 2 ^ 64 → Z.lxor s (u64 (Z.shiftl s k)) = 0 → s = 0.
Proof.
  intros Hk Hs E. apply Z.lxor_eq in E. apply word_zero; [done|].
  assert (∀ n : nat, ∀ i, 0 ≤ i < 64 → i < Z.of_nat n → Z.testbit s i = false) as H.
  { induction n as [|n IH]; [lia|]. intros i Hi Hn. rewrite E. unfold u64.
    rewrite Z.mod_pow2_bits_low, Z.shiftl_spec by lia.
    destruct (Z.lt_ge_cases (i - k) 0); [by apply Z.testbit_neg_r|apply IH; lia]. }
  intros i Hi. apply (H 64%nat); lia.
Qed.

Lemma xorshift_right_zero s k : 0 < k → 0 ≤ s → Z.lxor s (Z.shiftr s k) = 0 → s = 0.
Proof.
  intros Hk Hs E. apply Z.lxor_eq in E. rewrite Z.shiftr_div_pow2 in E by lia.
  pose proof (Z.pow_le_mono_r 2 1 k). destruct (decide (s = 0)); [done|].
  pose proof (Z.div_lt s (2 ^ k)). lia.
Qed.

Lemma lxor_word a b : 0 ≤ a < 2 ^ 64 → 0 ≤ b < 2 ^ 64 → 0 ≤ Z.lxor a b < 2 ^ 64.
Proof.
  intros Ha Hb. split; [apply Z.lxor_nonneg; lia|]. destruct (decide (Z.lxor a b = 0)) as [->|Hn]; [lia|].
  apply Z.log2_lt_pow2; [pose proof (Z.lxor_nonneg a b); lia|].
  pose proof (Z.log2_lxor a b). destruct (decide (a = 0)), (decide (b = 0)); subst; simpl in *;
    try pose proof (proj1 (Z.log2_lt_pow2 a 64 ltac:(lia)) ltac:(lia));
    try pose proof (proj1 (Z.log2_lt_pow2 b 64 ltac:(lia)) ltac:(lia)); lia.
Qed.

Lemma shiftr_word s k : 0 ≤ k → 0 ≤ s < 2 ^ 64 → 0 ≤ Z.shiftr s k < 2 ^ 64.
Proof.
  intros Hk Hs. rewrite Z.shiftr_div_pow2 by lia. pose proof (Z.pow_pos_nonneg 2 k).
  split; [apply Z.div_pos; lia|]. pose proof (Z.div_le_upper_bound s (2 ^ k) s). nia.
Qed.

Lemma Rng_next_nonzero s : 0 < s < 2 ^ 64 → 0 < Rng_next s < 2 ^ 64.
Proof.
  intros Hs. unfold Rng_next. set (s1 := Z.lxor s _). set (s2 := Z.lxor s1 _). cbv zeta.
  assert (0 ≤ s1 < 2 ^ 64) as H1 by (apply lxor_word; [lia|apply u64_range]).
  assert (s1 ≠ 0) as N1 by (intros E; apply xorshift_left_zero in E; lia).
  assert (0 ≤ s2 < 2 ^ 64) as H2 by (apply lxor_word; [lia|by apply shiftr_word]).
  assert (s2 ≠ 0) as N2 by (intros E; apply xorshift_right_zero in E; lia).
  pose proof (lxor_word s2 (u64 (Z.shiftl s2 17)) H2 (u64_range _)).
  assert (Z.lxor s2 (u64 (Z.shiftl s2 17)) ≠ 0) by (intros E; apply xorshift_left_zero in E; lia). lia.
Qed.

(** ** The thread counts *)

Lemma scaling_halts cores : (cores = 1 ∨ cores mod 2 = 0) → cores < 2 ^ 31 → ∀ n T,
  1 ≤ T ≤ cores → cores < T * 2 ^ Z.of_nat n →
  ∃ l, scaling_loop (n + 2) T cores = Some (l ++ [cores]).
Proof.
  intros Hc Hw n. induction n as [|n IH]; intros T HT Hn; [simpl in Hn; lia|].
  rewrite Nat2Z.inj_succ, Z.pow_succ_r in Hn by lia. cbn [scaling_loop Nat.add].
  rewrite (proj2 (Z.leb_le T cores)) by lia. rewrite (Z.shiftl_mul_pow2 T 1), (Z.shiftr_div_pow2 cores 1) by lia.
  change (2 ^ 1) with 2. rewrite (u32_small (T * 2)) by lia.
  assert (scaling_loop (n + 2) (cores * 2) cores = Some []) as Hend.
  { rewrite Nat.add_comm. simpl. rewrite (proj2 (Z.leb_gt (cores * 2) cores)) by lia. done. }
  assert (cores < 2 ^ 31) by done.
  destruct (Z.eqb_spec T cores) as [->|Hne]; cbn [negb andb].
  { rewrite Z.shiftl_mul_pow2, u32_small by lia. change (2 ^ 1) with 2. rewrite Hend. by exists []. }
  destruct (Z.ltb_spec cores (T * 2)) as [Hlt|Hge].
  - rewrite Z.shiftl_mul_pow2 by lia. change (2 ^ 1) with 2.
    replace (cores / 2 * 2) with cores by (pose proof (Z.div_mod cores 2); lia). rewrite u32_small by lia.
    rewrite Nat.add_comm. cbn [scaling_loop Nat.add]. rewrite (proj2 (Z.leb_le cores cores)), Z.eqb_refl by lia. cbn [negb andb].
    rewrite Z.shiftl_mul_pow2, u32_small by lia. change (2 ^ 1) with 2.
    destruct n; simpl; rewrite (proj2 (Z.leb_gt (cores * 2) cores)) by lia; by exists [T].
  - rewrite Z.shiftl_mul_pow2, u32_small by lia. change (2 ^ 1) with 2.
    destruct (IH (T * 2) ltac:(lia) ltac:(nia)) as [l Hl]. rewrite Hl. by exists (T :: l).
Qed.

Lemma scaling_stuck cores : cores mod 2 = 1 → cores < 2 ^ 31 → ∀ fuel T,
  1 ≤ T < cores → scaling_loop fuel T cores = None.
Proof.
  intros Ho Hw fuel. induction fuel as [|f IH]; intros T HT; [done|]. cbn [scaling_loop].
  rewrite (proj2 (Z.leb_le T cores)), (proj2 (Z.eqb_neq T cores)) by lia. cbn [negb andb].
  rewrite (Z.shiftl_mul_pow2 T 1), (Z.shiftr_div_pow2 cores 1) by lia. change (2 ^ 1) with 2. rewrite (u32_small (T * 2)) by lia.
  pose proof (Z.div_mod cores 2). pose proof (Z.mod_pos_bound T 2).
  destruct (Z.ltb_spec cores (T * 2)) as [Hlt|Hge]; rewrite Z.shiftl_mul_pow2 by lia; change (2 ^ 1) with 2;
    rewrite u32_small by lia; rewrite IH; [done| |done|]; lia.
Qed.

(** C38: the scaling benchmark measures the machine's own thread count last when
    that count is one or even; for every other odd count the loop over thread
    counts never ends. *)
Theorem scaling_terminates_iff (hardware : Z) (Hh : 0 ≤ hardware < 2 ^ 31) :
  ((hardware = 1 ∨ hardware mod 2 = 0) →
    ∃ l, scenario_scaling_threads 33 hardware = Some (l ++ [if hardware =? 0 then 4 else hardware])) ∧
  (¬ (hardware = 1 ∨ hardware mod 2 = 0) → ∀ fuel, scenario_scaling_threads fuel hardware = None).
Proof.
  unfold scenario_scaling_threads. split.
  - intros Hc. destruct (Z.eqb_spec hardware 0); [by exists [1; 2]|].
    apply (scaling_halts hardware Hc ltac:(lia) 31 1); lia.
  - intros Hn fuel. destruct (Z.eqb_spec hardware 0) as [->|]; [exfalso; auto|].
    pose proof (Z.mod_pos_bound hardware 2). apply scaling_stuck; lia.
Qed.

Lemma scaling_terminates_iff_witness :
  (∃ l, scenario_scaling_threads 33 12 = Some (l ++ [12])) ∧ ∀ fuel, scenario_scaling_threads fuel 7 = None.
Proof.
  split; [apply (scaling_terminates_iff 12 ltac:(lia)); by right|].
  apply (scaling_terminates_iff 7 ltac:(lia)). intros [|]; discriminate.
Defined.

(** The generator of the workloads never gets stuck at zero, and its sizes
    are what the scenarios describe: 8 to 255 or 1024 to 9215 bytes, always on
    the small path, in the mixed workload, and also large ones, up to 73727
    bytes, in the fragmentation workload. *)
Theorem workload_sizes (seed : Z) (n : nat) (Hseed : 0 ≤ seed < 2 ^ 64) :
  let r := Nat.iter n Rng_next (Rng_init seed) in
  0 < r < 2 ^ 64 ∧ (8 ≤ pick r ≤ 255 ∨ 1024 ≤ pick r ≤ 9215) ∧ pick r ≤ SMALL_SIZE_MAX ∧
  (8 ≤ frag_size r ≤ 1031 ∨ 8192 ≤ frag_size r ≤ 73727).
Proof.
  assert (0 < Nat.iter n Rng_next (Rng_init seed) < 2 ^ 64) as Hr.
  { induction n as [|n IH]; simpl; [|by apply Rng_next_nonzero].
    unfold Rng_init. destruct (Z.eqb_spec seed 0); [done|lia]. }
  cbv zeta. set (r := Nat.iter _ _ _) in *. assert (SMALL_SIZE_MAX = 16384) as E by done.
  unfold pick, frag_size.
  pose proof (Z.mod_pos_bound r 8192 ltac:(lia)). pose proof (Z.mod_pos_bound r 248 ltac:(lia)).
  pose proof (Z.mod_pos_bound r 65536 ltac:(lia)). pose proof (Z.mod_pos_bound r 1024 ltac:(lia)).
  destruct (r mod 16 =? 0), (r mod 64 =? 0); rewrite !u64_small; lia.
Qed.
