(* ===== verification/BenchRuns.v ===== *)
(** * The single-threaded workloads of the benchmark (bench/bench.cpp)

    [single_thread], [single_thread_mixed] and [frag_run] as programs over any
    allocator, the template parameter [A] of the source: the pointers are kept in
    vectors, blocks are written and read, and [g_sink] adds up what is read.  Time
    is not modelled: the result is the number of operations that the time is
    divided by.  Resident memory, which [rss_bytes] samples, is an argument.

    On every allocator that keeps the contract the workloads end, use only
    memory they hold, read back what they wrote and give back every block. *)
From Stdlib Require Import ZArith Lia.
From stdpp Require Import base numbers list gmap.
From S2P Require Import Prelude Words Constants Memory Os State Client ClientLogic Bench.

(** ** The programs *)

(** The members of the allocator structs, and accesses to their blocks. *)
Definition A_a (n : Z) : prog (option Z) :=
  Invoke (Malloc n) (λ r, match r with Ptr p => mret p | _ => Crash end).
Definition A_f (p : option Z) : prog unit := Invoke (Free p) (λ _, mret tt).
Definition load (a : Z) : prog Z := Invoke (Load a) (λ r, match r with Byte v => mret v | _ => Crash end).
Definition store (a v : Z) : prog unit := Invoke (Store a v) (λ _, mret tt).
Definition sink (b : Z) : prog unit := Sink b (mret tt).
Fixpoint set_bytes_from (n : nat) (p v : Z) : prog unit :=
  match n with O => mret tt | S n => store p v;; set_bytes_from n (p + 1) v end.
Definition std_memset (p v n : Z) : prog unit := set_bytes_from (Z.to_nat n) p v.

(** Elements of a [std::vector]. *)
Definition vget {A} (l : list A) (i : nat) : prog A :=
  match l !! i with Some a => mret a | None => Crash end.
Definition vset {A} (l : list A) (i : nat) (a : A) : prog (list A) :=
  if decide (i < length l)%nat then mret (<[i := a]> l) else Crash.

(** [for (size_t i = i0; i < i0 + n; ++i)]. *)
Fixpoint for_loop {A} (n i : nat) (body : nat → A → prog A) (a : A) : prog A :=
  match n with O => mret a | S n => a ← body i a; for_loop n (S i) body a end.

(** [while (ops < iters) { ...; ops += batch; }]. *)
Fixpoint while_ops {A} (fuel : nat) (iters batch : Z) (round : A → prog A) (ops : Z) (a : A) : prog (Z * A) :=
  if ops <? iters then
    match fuel with
    | O => Loop
    | S f => a ← round a; while_ops f iters batch round (u64 (ops + batch)) a
    end
  else mret (ops, a).

Definition when_some (p : option Z) (f : Z → prog unit) : prog unit :=
  match p with Some a => f a | None => mret tt end.

Definition warm_up (obj : Z) (i : nat) (u : unit) : prog unit :=
  p ← A_a obj; when_some p (λ a, std_memset a 1 obj);; A_f p.

(** [live[i] = A::a(n); if (live[i]) live[i][0] = 0xcd;] *)
Definition fill (n : Z) (i : nat) (live : list (option Z)) : prog (list (option Z)) :=
  p ← A_a n; live ← vset live i p; when_some p (λ a, store a 0xcd);; mret live.

(** [if (live[i]) g_sink += live[i][0]; A::f(live[i]);] *)
Definition drain (i : nat) (live : list (option Z)) : prog (list (option Z)) :=
  p ← vget live i; when_some p (λ a, b ← load a; sink b);; A_f p;; mret live.

(** One batch: fill all slots, then empty them; [single_thread] and the threads of
    [scaling_run] do the same. *)
Definition same_size_round (n : nat) (obj : Z) (live : list (option Z)) : prog (list (option Z)) :=
  live ← for_loop n 0 (fill obj) live; for_loop n 0 drain live.

Definition single_thread (fuel : nat) (iters batch obj : Z) : prog Z :=
  let n := Z.to_nat batch in
  let live := replicate n None in
  for_loop n 0 (warm_up obj) tt;;
  x ← while_ops fuel iters batch (same_size_round n obj) 0 live;
  mret (fst x).

(** The vectors and the generator of [single_thread_mixed]. *)
Record mixed := mkMixed { mx_live : list (option Z); mx_sizes : list Z; mx_rng : Z }.

Definition fill_mixed (i : nat) (m : mixed) : prog mixed :=
  let r := Rng_next (mx_rng m) in
  sizes ← vset (mx_sizes m) i (pick r);
  n ← vget sizes i;
  live ← fill n i (mx_live m);
  mret (mkMixed live sizes r).

Definition drain_mixed (i : nat) (m : mixed) : prog mixed :=
  live ← drain i (mx_live m); mret (mkMixed live (mx_sizes m) (mx_rng m)).

Definition single_thread_mixed (fuel : nat) (iters batch : Z) : prog Z :=
  let n := Z.to_nat batch in
  let m := mkMixed (replicate n None) (replicate n 0) (Rng_init 12345) in
  x ← while_ops fuel iters batch (λ m, m ← for_loop n 0 fill_mixed m; for_loop n 0 drain_mixed m) 0 m;
  mret (fst x).

(** The variables of [frag_run]. *)
Record churn := mkChurn { ch_live : list (option Z); ch_sz : list Z; ch_rng : Z; ch_peak : Z }.

Definition frag_round (live_set : Z) (rss_bytes : nat → Z) (r : nat) (c : churn) : prog churn :=
  if live_set =? 0 then Crash else
  let rng := Rng_next (ch_rng c) in
  let i := Z.to_nat (rng mod live_set) in
  p ← vget (ch_live c) i;
  live ← (match p with Some _ => A_f p;; vset (ch_live c) i None | None => mret (ch_live c) end);
  let v := Rng_next rng in
  let s := frag_size v in
  q ← A_a s;
  live ← vset live i q;
  sz ← vset (ch_sz c) i s;
  when_some q (λ a, std_memset a 0xab s);;
  let peak :=
    if Z.land (Z.of_nat r) 0xffff =? 0 then
      let rss := rss_bytes r in if ch_peak c <? rss then rss else ch_peak c
    else ch_peak c in
  mret (mkChurn live sz v peak).

Definition release (i : nat) (live : list (option Z)) : prog (list (option Z)) :=
  p ← vget live i; A_f p;; mret live.

(** The answer is [peak] and [final_rss]; sample [rounds] of the resident memory
    is the one after the loop. *)
Definition frag_run (live_set : Z) (rounds : nat) (rss_bytes : nat → Z) : prog (Z * Z) :=
  let n := Z.to_nat live_set in
  c ← for_loop rounds 0 (frag_round live_set rss_bytes)
        (mkChurn (replicate n None) (replicate n 0) (Rng_init 99) 0);
  let final_rss := rss_bytes rounds in
  let peak := if ch_peak c <? final_rss then final_rss else ch_peak c in
  for_loop n 0 release (ch_live c);;
  mret (peak, final_rss).

(** ** Rules for the pieces *)

Implicit Types (H : gmap Z (list Z)).

Lemma twp_ret {R} (r : R) Q H g : Q r H g → twp (mret r) Q H g.
Proof. done. Qed.

Lemma twp_A_a n Q H g :
  word n → Q None H g →
  (∀ b l, H !! b = None → 0 < zlen l → n ≤ zlen l → Q (Some b) (<[b := l]> H) g) → twp (A_a n) Q H g.
Proof. done. Qed.

Lemma twp_A_f p Q H g :
  match p with Some b => is_Some (H !! b) ∧ Q tt (delete b H) g | None => Q tt H g end → twp (A_f p) Q H g.
Proof. by destruct p. Qed.

Lemma twp_vget {A} (l : list A) i a Q H g : l !! i = Some a → Q a H g → twp (vget l i) Q H g.
Proof. unfold vget. by intros ->. Qed.

Lemma twp_vset {A} (l : list A) i a Q H g : (i < length l)%nat → Q (<[i := a]> l) H g → twp (vset l i a) Q H g.
Proof. intros Hi HQ. unfold vset. by rewrite decide_True. Qed.

(** A write at the start of a block. *)
Lemma twp_store b l v Q H g :
  H !! b = Some l → 0 < zlen l → Q tt (<[b := <[0%nat := u8 v]> l]> H) g → twp (store b v) Q H g.
Proof. intros Hb Hl HQ. exists b, l. split_and!; [done|lia|lia|]. by replace (b - b) with 0 by lia. Qed.

Lemma twp_load b l v Q H g :
  H !! b = Some l → l !! 0%nat = Some v → Q v H g → twp (load b) Q H g.
Proof. intros Hb Hl HQ. exists b, l, v. split_and!; [done|lia| |done]. by replace (b - b) with 0 by lia. Qed.

Lemma twp_memset b l p v n Q H g :
  H !! b = Some l → b ≤ p → p + Z.of_nat n ≤ b + zlen l →
  (∀ l', zlen l' = zlen l → Q tt (<[b := l']> H) g) → twp (set_bytes_from n p v) Q H g.
Proof.
  revert l p H. induction n as [|n IH]; intros l p H Hb Hp Hn HQ; simpl.
  - rewrite <-(insert_id H b l) by done. by apply HQ.
  - exists b, l. split_and!; [done|lia|lia|]. eapply IH; [apply lookup_insert_eq|lia|rewrite length_insert; lia|].
    intros l' Hl'. rewrite insert_insert_eq. apply HQ. by rewrite Hl', length_insert.
Qed.

Lemma twp_for {A} (Inv : nat → A → gmap Z (list Z) → Z → Prop) n i body a H g :
  Inv i a H g →
  (∀ j a H g, (i ≤ j < i + n)%nat → Inv j a H g → twp (body j a) (Inv (S j)) H g) →
  twp (for_loop n i body a) (Inv (i + n)%nat) H g.
Proof.
  revert i a H g. induction n as [|n IH]; intros i a H g Hi Hb; simpl; [by rewrite Nat.add_0_r|].
  apply twp_bind. eapply twp_mono; [apply Hb; [lia|done]|]. intros a' H' g' Hi'.
  rewrite Nat.add_succ_r. apply (IH (S i)); [done|]. intros j a1 H1 g1 Hj. apply Hb. lia.
Qed.

(** The loop over rounds ends when a round does not change [Inv] by more than
    [batch] operations: [Inv k] after [k] of them. *)
Lemma twp_while {A} (Inv : Z → A → gmap Z (list Z) → Z → Prop) fuel iters batch round ops a H g :
  0 < batch → 0 ≤ ops → ops < iters + batch → iters + batch ≤ 2 ^ 64 → iters ≤ ops + Z.of_nat fuel * batch →
  Inv ops a H g →
  (∀ k a H g, Inv k a H g → twp (round a) (Inv (k + batch)) H g) →
  twp (while_ops fuel iters batch round ops a)
    (λ x H' g', iters ≤ fst x < iters + batch ∧ Inv (fst x) (snd x) H' g') H g.
Proof.
  intros Hb. revert ops a H g. induction fuel as [|f IH]; intros ops a H g H0 H1 H2 Hf Hi Hr; cbn [while_ops].
  - rewrite (proj2 (Z.ltb_ge ops iters)) by lia. apply twp_ret. simpl. split; [lia|done].
  - destruct (Z.ltb_spec ops iters); [|apply twp_ret; simpl; split; [lia|done]].
    apply twp_bind. eapply twp_mono; [by apply Hr|]. intros a' H' g' Hi'.
    rewrite u64_small by lia. apply IH; [lia|lia|done|lia|done|done].
Qed.

(** ** Pointers in a vector *)

(** The blocks [H] are exactly those the pointers [ps] lead to, each once, and
    [P] holds of their bytes. *)
Fixpoint held (P : list Z → Prop) (ps : list (option Z)) H : Prop :=
  match ps with
  | [] => H = ∅
  | None :: ps => held P ps H
  | Some b :: ps => ∃ l, H !! b = Some l ∧ P l ∧ held P ps (delete b H)
  end.

Lemma held_perm P ps qs H : ps ≡ₚ qs → held P ps H → held P qs H.
Proof.
  intros Hp. revert H. induction Hp as [|x ps qs _ IH|x y ps|ps qs rs _ IH1 _ IH2]; intros H; [done| | |eauto].
  - destruct x as [b|]; simpl; [|apply IH]. intros (l & ? & ? & ?). exists l. eauto.
  - destruct x as [b|], y as [c|]; simpl; [|done..]. intros (l & Hb & Hl & l' & [Hne Hc]%lookup_delete_Some & Hl' & Hr).
    exists l'. split_and!; [done|done|]. exists l. rewrite lookup_delete_ne by done. by rewrite delete_delete.
Qed.

Lemma held_nones P n : held P (replicate n None) ∅.
Proof. by induction n. Qed.

Lemma held_cons P ps H b l : H !! b = None → P l → held P ps H → held P (Some b :: ps) (<[b := l]> H).
Proof. intros Hb Hl Hh. exists l. rewrite lookup_insert_eq, delete_insert_id by done. done. Qed.

Lemma held_snoc P ps H b l : H !! b = None → P l → held P ps H → held P (ps ++ [Some b]) (<[b := l]> H).
Proof. intros. eapply held_perm; [apply Permutation_cons_append|by apply held_cons]. Qed.
Lemma held_snoc_none P ps H : held P ps H → held P (ps ++ [None]) H.
Proof. intros. by eapply held_perm; [apply Permutation_cons_append|]. Qed.

(** One slot of a vector, and the others. *)
Lemma slot_perm {A} (ps : list A) i x :
  ps !! i = Some x → ∃ rest, ps ≡ₚ x :: rest ∧ ∀ y, <[i := y]> ps ≡ₚ y :: rest.
Proof.
  intros Hi. exists (take i ps ++ drop (S i) ps). split.
  - rewrite <-(take_drop_middle ps i x Hi) at 1. symmetry. apply Permutation_middle.
  - intros y. rewrite insert_take_drop by (by eapply lookup_lt_Some). symmetry. apply Permutation_middle.
Qed.

(** Taking a pointer out of the vector, and putting one in a free slot. *)
Lemma held_out P ps H i b :
  ps !! i = Some (Some b) → held P ps H → is_Some (H !! b) ∧ held P (<[i := None]> ps) (delete b H).
Proof.
  intros (rest & E & Ei)%slot_perm Hh. apply (held_perm _ _ _ _ E) in Hh as (l & Hb & _ & Hr).
  split; [by exists l|]. by eapply held_perm; [symmetry; apply Ei|].
Qed.
Lemma held_in P ps H i b l :
  ps !! i = Some None → H !! b = None → P l → held P ps H → held P (<[i := Some b]> ps) (<[b := l]> H).
Proof.
  intros (rest & E & Ei)%slot_perm Hb Hl Hh. apply (held_perm _ _ _ _ E) in Hh.
  eapply held_perm; [symmetry; apply Ei|]. by apply held_cons.
Qed.

(** ** Rounds that fill and empty a vector *)

Definition touched (l : list Z) : Prop := l !! 0%nat = Some 0xcd.

(** Adding the byte [0xcd] [j] times. *)
Definition summed (g0 : Z) (k g : Z) : Prop := ∃ j, 0 ≤ j ≤ k ∧ g = u8 (g0 + 0xcd * j).

Lemma summed_start g : 0 ≤ g < 256 → summed g 0 g.
Proof. intros Hg. exists 0. split; [lia|]. unfold u8. rewrite Z.mod_small; lia. Qed.
Lemma summed_skip g0 k k' g : k ≤ k' → summed g0 k g → summed g0 k' g.
Proof. intros Hk (j & Hj & ->). exists j. split; [lia|done]. Qed.
Lemma summed_add g0 k g : summed g0 k g → summed g0 (k + 1) (u8 (g + 0xcd)).
Proof.
  intros (j & Hj & ->). exists (j + 1). split; [lia|]. unfold u8. rewrite Zplus_mod_idemp_l. f_equal. lia.
Qed.

Lemma summed_next g0 k (i : nat) g g' :
  summed g0 (k + Z.of_nat i) g → g' = g ∨ g' = u8 (g + 0xcd) → summed g0 (k + Z.of_nat (S i)) g'.
Proof.
  rewrite Nat2Z.inj_succ, <-Z.add_1_r, Z.add_assoc.
  intros Hg [->| ->]; [eapply summed_skip; [|done]; lia|by apply summed_add].
Qed.

Lemma twp_warm_up obj i Q H g : word obj → Q tt H g → twp (warm_up obj i tt) Q H g.
Proof.
  intros Ho HQ. apply twp_bind, twp_A_a; [done| |].
  - by apply twp_bind, twp_ret, twp_A_f.
  - intros b l Hb Hl Hn. apply twp_bind. unfold when_some, std_memset.
    eapply (twp_memset b l); [apply lookup_insert_eq|lia|destruct Ho; lia|]. intros l' _. apply twp_A_f.
    rewrite lookup_insert_eq, insert_insert_eq, delete_insert_id by done. done.
Qed.

Lemma twp_fill n i live H g Q :
  word n → (i < length live)%nat → held touched (take i live) H →
  (∀ live' H', length live' = length live → held touched (take (S i) live') H' → Q live' H' g) →
  twp (fill n i live) Q H g.
Proof.
  intros Hn Hi Hh HQ.
  assert (∀ p, take (S i) (<[i := p]> live) = take i live ++ [p]) as E.
  { intros p. erewrite take_S_r by (by apply list_lookup_insert_eq). by rewrite take_insert_ge. }
  apply twp_bind, twp_A_a; [done| |].
  - apply twp_bind, twp_vset; [done|]. apply twp_bind, twp_ret, HQ; [apply length_insert|].
    rewrite E. by apply held_snoc_none.
  - intros b l Hb Hl _. apply twp_bind, twp_vset; [done|]. apply twp_bind.
    eapply (twp_store b l); [apply lookup_insert_eq|done|]. rewrite insert_insert_eq. apply HQ; [apply length_insert|].
    rewrite E. apply held_snoc; [done| |done]. apply list_lookup_insert_eq. lia.
Qed.

Lemma twp_drain i live H g Q :
  (i < length live)%nat → held touched (drop i live) H →
  (∀ H' g', held touched (drop (S i) live) H' → g' = g ∨ g' = u8 (g + 0xcd) → Q live H' g') →
  twp (drain i live) Q H g.
Proof.
  intros Hi Hh HQ. destruct (lookup_lt_is_Some_2 live i Hi) as [p Hp]. rewrite (drop_S _ _ _ Hp) in Hh.
  apply twp_bind, (twp_vget _ _ p); [done|]. apply twp_bind. destruct p as [b|]; simpl in Hh.
  - destruct Hh as (l & Hb & Hl & Hr). apply twp_bind, (twp_load b l 0xcd); [done|done|].
    split; [by exists l|]. apply HQ; [done|by right].
  - apply twp_bind, twp_A_f, HQ; [done|by left].
Qed.

(** A whole round over a vector of [n] slots. *)
Definition idle (n : nat) (g0 k : Z) (live : list (option Z)) H (g : Z) : Prop :=
  length live = n ∧ H = ∅ ∧ summed g0 k g.

Lemma twp_fill_all (n : nat) obj g0 k live H g :
  word obj → idle n g0 k live H g →
  twp (for_loop n 0 (fill obj) live) (λ live' H' g', length live' = n ∧ held touched live' H' ∧ summed g0 k g') H g.
Proof.
  intros Ho (Hl & -> & Hg). eapply twp_mono.
  - apply (twp_for (λ i live' H' g', length live' = n ∧ held touched (take i live') H' ∧ summed g0 k g')).
    + split_and!; [done|done|done].
    + intros j a H g' Hj (Hla & Hh & Hg'). apply twp_fill; [done|lia|done|].
      intros live' H' Hl' Hh'. split_and!; [lia|done|done].
  - intros live' H' g' (Hl' & Hh & Hg'). split_and!; [done| |done]. by rewrite take_ge in Hh by lia.
Qed.

Lemma twp_drain_all (n : nat) g0 k live H g :
  length live = n → held touched live H → summed g0 k g →
  twp (for_loop n 0 drain live) (idle n g0 (k + Z.of_nat n)) H g.
Proof.
  intros Hl Hh Hg. eapply twp_mono.
  - apply (twp_for (λ i live' H' g', length live' = n ∧ held touched (drop i live') H' ∧ summed g0 (k + Z.of_nat i) g')).
    + split_and!; [done|done|by rewrite Z.add_0_r].
    + intros j a H' g' Hj (Hla & Hh' & Hg'). apply twp_drain; [lia|done|].
      intros H2 g2 Hh2 Hg2. split_and!; [done|done|by eapply summed_next].
  - intros live' H' g' (Hl' & Hh' & Hg'). rewrite drop_ge in Hh' by lia. split_and!; [done|done|done].
Qed.

(** ** The workloads *)

(** What [single_thread] and [single_thread_mixed] leave: nothing held, at least
    [iters] operations, and a sink that has added up only bytes they wrote. *)
Definition churned (iters batch g : Z) (ops : Z) H (g' : Z) : Prop :=
  H = ∅ ∧ iters ≤ ops < iters + batch ∧ summed g ops g'.

(** The numbers of rounds that a fuel is enough for. *)
Definition enough (fuel : nat) (iters batch : Z) : Prop :=
  0 < batch ∧ 0 ≤ iters ∧ iters + batch ≤ 2 ^ 64 ∧ iters ≤ Z.of_nat fuel * batch.

(** The loop over rounds of one size. *)
Lemma twp_rounds fuel iters batch obj live g :
  enough fuel iters batch → word obj → 0 ≤ g < 256 → length live = Z.to_nat batch →
  twp (while_ops fuel iters batch (same_size_round (Z.to_nat batch) obj) 0 live)
    (λ x H g', churned iters batch g (fst x) H g') ∅ g.
Proof.
  intros (Hb & Hi & Hw & Hf) Ho Hg Hl. eapply twp_mono.
  - eapply (twp_while (idle (Z.to_nat batch) g)); [lia..|split_and!; [done|done|by apply summed_start]|].
    intros k live' H g' Hl'. apply twp_bind. eapply twp_mono; [by apply twp_fill_all|].
    intros live2 H' g2 (Hl2 & Hh & Hg2). replace (k + batch) with (k + Z.of_nat (Z.to_nat batch)) by lia.
    by apply twp_drain_all.
  - intros [ops live'] H g' [Hops (_ & -> & Hs)]. done.
Qed.

Lemma twp_single_thread fuel iters batch obj g :
  enough fuel iters batch → word obj → 0 ≤ g < 256 →
  twp (single_thread fuel iters batch obj) (churned iters batch g) ∅ g.
Proof.
  intros He Ho Hg. unfold single_thread. apply twp_bind. eapply twp_mono.
  { apply (twp_for (λ _ _ H' g', H' = ∅ ∧ g' = g)); [done|]. intros j [] H g' _ [-> ->]. by apply twp_warm_up. }
  intros [] H g' [-> ->]. apply twp_bind. eapply twp_mono; [by apply twp_rounds; [..|apply length_replicate]|].
  intros x H g' Hx. by apply twp_ret.
Qed.

Lemma twp_fill_mixed i m H g Q :
  (i < length (mx_live m))%nat → (i < length (mx_sizes m))%nat → held touched (take i (mx_live m)) H →
  (∀ m' H', length (mx_live m') = length (mx_live m) → length (mx_sizes m') = length (mx_sizes m) →
    held touched (take (S i) (mx_live m')) H' → Q m' H' g) →
  twp (fill_mixed i m) Q H g.
Proof.
  intros Hl Hz Hh HQ. unfold fill_mixed. cbv zeta. set (r := Rng_next (mx_rng m)). apply twp_bind, twp_vset; [done|].
  apply twp_bind, (twp_vget _ _ (pick r)); [by apply list_lookup_insert_eq|].
  apply twp_bind, twp_fill; [unfold pick; case_match; apply u64_range|done|done|].
  intros live' H' Hl' Hh'. apply twp_ret, HQ; [done|by apply length_insert|done].
Qed.

Definition fits (n : nat) (m : mixed) : Prop := length (mx_live m) = n ∧ length (mx_sizes m) = n.

Lemma twp_fill_mixed_all (n : nat) g0 k m g :
  fits n m → summed g0 k g →
  twp (for_loop n 0 fill_mixed m) (λ m' H' g', fits n m' ∧ held touched (mx_live m') H' ∧ summed g0 k g') ∅ g.
Proof.
  intros Hm Hg. eapply twp_mono.
  - apply (twp_for (λ i m H' g', fits n m ∧ held touched (take i (mx_live m)) H' ∧ summed g0 k g')); [by split_and!|].
    intros j m' H' g' Hj ([Hm1 Hm2] & Hh & Hg'). apply twp_fill_mixed; [lia|lia|done|].
    intros m2 H2 E1 E2 Hh2. split; [split; lia|done].
  - intros m' H' g' (Hm' & Hh & Hg'). split_and!; [done| |done]. rewrite take_ge in Hh; [done|]. destruct Hm'. lia.
Qed.

Lemma twp_drain_mixed_all (n : nat) g0 k m H g :
  fits n m → held touched (mx_live m) H → summed g0 k g →
  twp (for_loop n 0 drain_mixed m) (λ m' H' g', fits n m' ∧ H' = ∅ ∧ summed g0 (k + Z.of_nat n) g') H g.
Proof.
  intros Hm Hh Hg. eapply twp_mono.
  - apply (twp_for (λ i m H' g', fits n m ∧ held touched (drop i (mx_live m)) H' ∧ summed g0 (k + Z.of_nat i) g')).
    + split_and!; [done|done|by rewrite Z.add_0_r].
    + intros j m' H' g' Hj ([Hm1 Hm2] & Hh' & Hg'). apply twp_bind, twp_drain; [lia|done|].
      intros H2 g2 Hh2 Hg2. split_and!; [done|done|by eapply summed_next].
  - intros m' H' g' (Hm' & Hh' & Hg'). rewrite drop_ge in Hh' by (destruct Hm'; simpl; lia). by split_and!.
Qed.

Lemma twp_single_thread_mixed fuel iters batch g :
  enough fuel iters batch → 0 ≤ g < 256 →
  twp (single_thread_mixed fuel iters batch) (churned iters batch g) ∅ g.
Proof.
  intros (Hb & Hi & Hw & Hf) Hg. unfold single_thread_mixed. apply twp_bind. eapply twp_mono.
  - eapply (twp_while (λ k m H g', fits (Z.to_nat batch) m ∧ H = ∅ ∧ summed g k g')); [lia..| |].
    { split; [split; apply length_replicate|split; [done|by apply summed_start]]. }
    intros k m H g1 (Hm & -> & Hg1). apply twp_bind. eapply twp_mono; [by apply twp_fill_mixed_all|].
    intros m1 H1 g2 (Hm1 & Hh & Hg2). replace (k + batch) with (k + Z.of_nat (Z.to_nat batch)) by lia.
    by apply twp_drain_mixed_all.
  - intros [ops m] H g' [Hops (_ & -> & Hs)]. by apply twp_ret.
Qed.

(** The samples of the resident memory that [peak] has seen. *)
Definition peak_of (rss : nat → Z) (r : nat) (peak : Z) : Prop :=
  0 ≤ peak ∧ (∀ q, (q < r)%nat → Z.land (Z.of_nat q) 0xffff = 0 → rss q ≤ peak) ∧
  (peak = 0 ∨ ∃ q, (q < r)%nat ∧ peak = rss q).

Lemma peak_more rss r peak peak' :
  peak_of rss r peak → peak ≤ peak' → (Z.land (Z.of_nat r) 0xffff = 0 → rss r ≤ peak') →
  peak' = peak ∨ peak' = rss r → peak_of rss (S r) peak'.
Proof.
  intros (H0 & Hall & Hsome) Hle Hr Hor. split_and!; [lia| |].
  - intros q Hq Hm. destruct (decide (q = r)) as [->|]; [by apply Hr|]. pose proof (Hall q ltac:(lia) Hm). lia.
  - destruct Hor as [->| ->]; [|right; exists r; split; [lia|done]].
    destruct Hsome as [|(q & Hq & E)]; [by left|right]. exists q. split; [lia|done].
Qed.

Lemma peak_step rss r peak :
  peak_of rss r peak →
  peak_of rss (S r) (if Z.land (Z.of_nat r) 0xffff =? 0 then if peak <? rss r then rss r else peak else peak).
Proof.
  intros Hp. apply (peak_more _ _ _ _ Hp);
    destruct (Z.eqb_spec (Z.land (Z.of_nat r) 0xffff) 0); destruct (Z.ltb_spec peak (rss r)); auto; lia.
Qed.

Definition frag_inv (n : nat) (rss : nat → Z) (g : Z) (r : nat) (c : churn) H (g' : Z) : Prop :=
  length (ch_live c) = n ∧ length (ch_sz c) = n ∧ held (λ _, True) (ch_live c) H ∧ peak_of rss r (ch_peak c) ∧ g' = g.

(** Replacing the block of a slot. *)
Lemma twp_frag_round live_set rss g r c H g' :
  0 < live_set → frag_inv (Z.to_nat live_set) rss g r c H g' →
  twp (frag_round live_set rss r c) (frag_inv (Z.to_nat live_set) rss g (S r)) H g'.
Proof.
  intros Hn (Hl & Hz & Hh & Hp & ->). unfold frag_round. rewrite (proj2 (Z.eqb_neq live_set 0)) by lia. cbv zeta.
  set (i := Z.to_nat (Rng_next (ch_rng c) mod live_set)). set (v := Rng_next (Rng_next (ch_rng c))).
  assert (i < Z.to_nat live_set)%nat as Hi.
  { pose proof (Z.mod_pos_bound (Rng_next (ch_rng c)) live_set Hn). lia. }
  destruct (lookup_lt_is_Some_2 (ch_live c) i ltac:(lia)) as [p Hpi]. apply twp_bind, (twp_vget _ _ p); [done|].
  apply twp_bind. enough (∀ live H, length live = Z.to_nat live_set → live !! i = Some None → held (λ _, True) live H →
    twp (q ← A_a (frag_size v); live ← vset live i q; sz ← vset (ch_sz c) i (frag_size v);
         when_some q (λ a, std_memset a 0xab (frag_size v));;
         mret (mkChurn live sz v (if Z.land (Z.of_nat r) 0xffff =? 0
           then if ch_peak c <? rss r then rss r else ch_peak c else ch_peak c)))
      (frag_inv (Z.to_nat live_set) rss g (S r)) H g) as Hrest.
  { destruct p as [b|]; [|by apply twp_ret, Hrest]. destruct (held_out _ _ _ _ _ Hpi Hh) as [Hb Hh'].
    apply twp_bind, twp_A_f. split; [done|]. apply twp_vset; [lia|].
    apply Hrest; [by rewrite length_insert|apply list_lookup_insert_eq; lia|done]. }
  clear H Hh Hpi p. intros live H Hll Hli Hh. assert (0 ≤ frag_size v < 2 ^ 64) as Hw by (unfold frag_size; case_match; apply u64_range).
  apply twp_bind, twp_A_a; [done| |].
  - apply twp_bind, twp_vset; [lia|]. apply twp_bind, twp_vset; [lia|]. apply twp_bind, twp_ret, twp_ret.
    rewrite list_insert_id by done. split_and!; [done|simpl; by rewrite length_insert|done|by apply peak_step|done].
  - intros b l Hb Hbl Hn'. apply twp_bind, twp_vset; [lia|]. apply twp_bind, twp_vset; [lia|]. apply twp_bind.
    unfold when_some, std_memset. eapply (twp_memset b l); [apply lookup_insert_eq|lia|lia|]. intros l' _.
    rewrite insert_insert_eq. apply twp_ret.
    split_and!; [simpl; by rewrite length_insert|simpl; by rewrite length_insert|by apply held_in|by apply peak_step|done].
Qed.

(** What [frag_run] leaves and reports. *)
Definition reported (rounds : nat) (rss : nat → Z) (g : Z) (x : Z * Z) H (g' : Z) : Prop :=
  H = ∅ ∧ g' = g ∧ snd x = rss rounds ∧ peak_of rss (S rounds) (fst x) ∧ rss rounds ≤ fst x.

Lemma twp_frag_run live_set rounds rss g :
  0 < live_set → twp (frag_run live_set rounds rss) (reported rounds rss g) ∅ g.
Proof.
  intros Hn. unfold frag_run. apply twp_bind. eapply twp_mono.
  { apply (twp_for (frag_inv (Z.to_nat live_set) rss g)).
    - split_and!; [apply length_replicate|apply length_replicate|apply held_nones| |done].
      split_and!; [done|lia|by left].
    - intros j c H g' _ Hc. by apply twp_frag_round. }
  simpl. intros c H g' (Hl & _ & Hh & Hp & ->). apply twp_bind. eapply twp_mono.
  { apply (twp_for (λ i live H' g', length live = Z.to_nat live_set ∧ held (λ _, True) (drop i live) H' ∧ g' = g)); [by split_and!|].
    intros j live H' g' Hj (Hl' & Hh' & ->). destruct (lookup_lt_is_Some_2 live j ltac:(lia)) as [p Hpj].
    rewrite (drop_S _ _ _ Hpj) in Hh'. apply twp_bind, (twp_vget _ _ p); [done|]. apply twp_bind, twp_A_f.
    destruct p as [b|]; [|by split_and!]. destruct Hh' as (l & Hb & _ & Hr). split; [by exists l|by split_and!]. }
  intros live H' g' (Hl' & Hh' & ->). rewrite drop_ge in Hh' by (simpl; lia). apply twp_ret.
  split_and!; [done|done|done|apply (peak_more _ _ _ _ Hp)|]; cbn [fst snd];
    destruct (Z.ltb_spec (ch_peak c) (rss rounds)); auto; lia.
Qed.
