(* ===== verification/BenchThreads.v ===== *)
(** * The multi-threaded workloads of the benchmark (bench/bench.cpp)

    [prodcons_run] (producers allocate, consumers free) and [scaling_run]
    (independent threads behind a start barrier), as threads whose steps
    interleave in every order: a call of the allocator, an atomic access, and a
    critical section are one step each; [g_sink += b], which nothing protects,
    is a read and a write.  A thread that returns runs the allocator's exit hook.

    On every allocator that keeps the contract no thread ever uses a block it
    does not hold, and when all threads have returned every block has been given
    back; that they return is in BenchEnds. *)
From Stdlib Require Import ZArith Lia.
From stdpp Require Import base numbers list gmap.
From S2P Require Import Prelude Words Constants Memory Os State Client ClientLogic Bench BenchRuns.

Definition ptr_of (r : answer) : option Z := match r with Ptr p => p | _ => None end.
Definition byte_of (r : answer) : Z := match r with Byte v => v | _ => 0 end.

(** ** Producers and consumers *)

Module ProdCons.

(** The variables the threads share. *)
Record prodcons_vars := mkVars { q : list (option Z); done : bool; consumed : Z; g_sink : Z }.

Definition q_push (p : option Z) (x : prodcons_vars) : prodcons_vars := mkVars (q x ++ [p]) (done x) (consumed x) (g_sink x).
Definition q_pop (x : prodcons_vars) : prodcons_vars := mkVars (tail (q x)) (done x) (consumed x) (g_sink x).
Definition set_done (x : prodcons_vars) : prodcons_vars := mkVars (q x) true (consumed x) (g_sink x).
Definition add_consumed (x : prodcons_vars) : prodcons_vars := mkVars (q x) (done x) (u64 (consumed x + 1)) (g_sink x).
Definition set_sink (v : Z) (x : prodcons_vars) : prodcons_vars := mkVars (q x) (done x) (consumed x) v.

(** Where a thread is.  [P...]: a producer in its loop, about to touch its block,
    and about to push it; [C...]: a consumer, [M...]: the thread that waits. *)
Inductive prodcons_pc :=
| PLoop (i : Z) | PTouch (i a : Z) | PPush (i : Z) (p : option Z)
| CPop | CRead (a : Z) | CSink (a b : Z) | CSunk (a v : Z) | CFree (a : Z) | CCount | CDone | CAgain
| MProducers (j : nat) | MConsumers (j : nat)
| Leave | Ended.

Section code.
Context (P C : nat) (per_producer obj : Z).

Definition prodcons_act (t : prodcons_pc) : action prodcons_pc prodcons_vars :=
  match t with
  | PLoop i => if i <? per_producer
      then Call (Malloc obj) (λ r, match ptr_of r with Some a => PTouch i a | None => PPush i None end)
      else Call Exit (λ _, Ended)
  | PTouch i a => Call (Store a 0xcd) (λ _, PPush i (Some a))
  | PPush i p => Sync (λ x, (PLoop (u64 (i + 1)), q_push p x))
  | CPop => Sync (λ x, match q x with
                       | Some a :: _ => (CRead a, q_pop x)
                       | None :: _ => (CDone, q_pop x)
                       | [] => (CDone, x)
                       end)
  | CRead a => Call (Load a) (λ r, CSink a (byte_of r))
  | CSink a b => Sync (λ x, (CSunk a (u8 (g_sink x + b)), x))
  | CSunk a v => Sync (λ x, (CFree a, set_sink v x))
  | CFree a => Call (Free (Some a)) (λ _, CCount)
  | CCount => Sync (λ x, (CPop, add_consumed x))
  | CDone => Sync (λ x, (if done x then CAgain else CPop, x))
  | CAgain => Sync (λ x, (match q x with [] => Leave | _ => CPop end, x))
  | MProducers j => if decide (j < P)%nat then Join j (MProducers (S j))
                    else Sync (λ x, (MConsumers 0, set_done x))
  | MConsumers j => if decide (j < C)%nat then Join (P + j) (MConsumers (S j)) else Halt
  | Leave => Call Exit (λ _, Ended)
  | Ended => Halt
  end.

(** The thread at index [P + C] is the one that called [prodcons_run]. *)
Definition start_threads : list prodcons_pc := replicate P (PLoop 0) ++ replicate C CPop ++ [MProducers 0].
Definition start_vars (g : Z) : prodcons_vars := mkVars [] false 0 g.

(** *** Who holds which block *)

Definition one (P : list Z → Prop) (a : Z) (H : gmap Z (list Z)) : Prop := ∃ l, H = {[a := l]} ∧ P l.

Definition holds_at (t : prodcons_pc) (H : gmap Z (list Z)) : Prop :=
  match t with
  | PTouch _ a => one (λ l, 0 < zlen l) a H
  | PPush _ (Some a) | CRead a | CSink a _ | CSunk a _ | CFree a => one touched a H
  | _ => H = ∅
  end.
Definition queued (x : prodcons_vars) (H : gmap Z (list Z)) : Prop := held touched (q x) H.

#[local] Instance prodcons_discipline (Hobj : word obj) : Discipline prodcons_act holds_at queued.
Proof.
  constructor.
  - intros t H c k HJ Ha. destruct t; simpl in Ha, HJ; repeat case_match; simplify_eq; simpl; try done.
    + split_and!; [done|done|]. intros b l _ Hl _. exists l. by rewrite insert_empty.
    + destruct HJ as (l & -> & Hl). exists a, l. rewrite lookup_singleton_eq, insert_singleton_eq.
      split_and!; [done|lia|lia|]. eexists. split; [done|]. replace (a - a) with 0 by lia. apply list_lookup_insert_eq. lia.
    + destruct HJ as (l & -> & Hl). exists a, l, 0xcd. rewrite lookup_singleton_eq.
      split_and!; [done|lia|by replace (a - a) with 0 by lia|]. by exists l.
    + destruct HJ as (l & -> & Hl). by rewrite lookup_singleton_eq, delete_singleton_eq.
  - intros t H x Hx f HJ Ha HI Hd. unfold queued in *.
    destruct t as [|i a|i p| |a|a b|a v|a| | | |j|j| |]; simpl in Ha; repeat case_match; simplify_eq; simpl in HJ.
    + destruct p as [a|]; simpl.
      * destruct HJ as (l & -> & Hl). apply map_disjoint_singleton_l in Hd. exists ∅, (<[a := l]> Hx).
        rewrite insert_union_singleton_l, map_empty_union. split_and!; [done|apply map_disjoint_empty_l|done|].
        rewrite <-insert_union_singleton_l. by apply held_snoc.
      * subst H. exists ∅, Hx. split_and!; [done|apply map_disjoint_empty_l|done|by apply held_snoc_none].
    + subst H. destruct (q x) as [|[a|] ps] eqn:Eq; simpl in HI |- *.
      * exists ∅, Hx. rewrite Eq. split_and!; [done|apply map_disjoint_empty_l|done|done].
      * destruct HI as (l & Hl & Ht & Hr). exists {[a := l]}, (delete a Hx). rewrite Eq. simpl.
        rewrite <-insert_union_singleton_l, insert_delete_id, map_empty_union by done.
        split_and!; [done|apply map_disjoint_singleton_l, lookup_delete_eq|by exists l|done].
      * exists ∅, Hx. rewrite Eq. split_and!; [done|apply map_disjoint_empty_l|done|done].
    + exists H, Hx. by split_and!.
    + exists H, Hx. by split_and!.
    + exists H, Hx. by split_and!.
    + exists H, Hx. simpl. by destruct (done x).
    + exists H, Hx. simpl. by destruct (q x).
    + exists H, Hx. by split_and!.
  - intros t H j t' HJ Ha. destruct t; simpl in Ha; repeat case_match; by simplify_eq.
  - intros t H HJ Ha. destruct t; simpl in Ha; repeat case_match; by simplify_eq.
Qed.

(** *** Who may still push *)

Definition is_producer (t : prodcons_pc) : bool :=
  match t with PLoop _ | PTouch _ _ | PPush _ _ | Ended => true | _ => false end.
Definition is_consumer (t : prodcons_pc) : bool :=
  match t with
  | CPop | CRead _ | CSink _ _ | CSunk _ _ | CFree _ | CCount | CDone | CAgain | Leave | Ended => true
  | _ => false
  end.
Definition is_main (t : prodcons_pc) : bool := match t with MProducers _ | MConsumers _ => true | _ => false end.
Definition role (i : nat) (t : prodcons_pc) : bool :=
  if decide (i < P)%nat then is_producer t else if decide (i < P + C)%nat then is_consumer t else is_main t.

(** What the waiting thread knows, and what a consumer knows. *)
Definition main_knows (ts : list prodcons_pc) (x : prodcons_vars) (t : prodcons_pc) : Prop :=
  match t with
  | MProducers n => done x = false ∧ ∀ j, (j < n)%nat → ts !! j = Some Ended
  | _ => done x = true ∧ ∀ j, (j < P)%nat → ts !! j = Some Ended
  end.
Definition consumer_knows (x : prodcons_vars) (t : prodcons_pc) : Prop :=
  match t with
  | CAgain => done x = true
  | Leave | Ended => done x = true ∧ q x = []
  | _ => True
  end.

Record control (ts : list prodcons_pc) (x : prodcons_vars) : Prop := {
  ct_length : length ts = (P + C + 1)%nat;
  ct_role i t : ts !! i = Some t → role i t = true;
  ct_main t : ts !! (P + C)%nat = Some t → main_knows ts x t;
  ct_consumer i t : (P ≤ i < P + C)%nat → ts !! i = Some t → consumer_knows x t
}.

Lemma control_start g : control start_threads (start_vars g).
Proof.
  unfold start_threads. constructor.
  - rewrite !length_app, !length_replicate. simpl. lia.
  - intros i t [Hi|[Hl Hi]]%lookup_app_Some.
    { apply lookup_replicate in Hi as [-> Hi]. unfold role. by rewrite decide_True. }
    rewrite length_replicate in Hl, Hi. apply lookup_app_Some in Hi as [Hi|[Hl' Hi]].
    { apply lookup_replicate in Hi as [-> Hi]. unfold role. by rewrite decide_False, decide_True by lia. }
    rewrite length_replicate in Hl', Hi. apply list_lookup_singleton_Some in Hi as [? <-].
    unfold role. by rewrite !decide_False by lia.
  - intros t Ht. rewrite lookup_app_r, lookup_app_r in Ht; rewrite ?length_replicate in *; try lia.
    replace (P + C - P - C)%nat with 0%nat in Ht by lia. injection Ht as <-. split; [done|lia].
  - intros i t Hi Ht. rewrite lookup_app_r, lookup_app_l in Ht; rewrite ?length_replicate in *; try lia.
    by apply lookup_replicate in Ht as [-> _].
Qed.

(** A step of thread [i] from [t] to [t'] that leaves the flags alone or makes
    them as the others expect. *)
Lemma control_step ts x x' i t t' :
  control ts x → ts !! i = Some t → t ≠ Ended → role i t' = true →
  (i = (P + C)%nat → main_knows (<[i := t']> ts) x' t') →
  ((P ≤ i < P + C)%nat → consumer_knows x' t') →
  (i ≠ (P + C)%nat → done x' = done x) →
  (∀ j u, (P ≤ j < P + C)%nat → ts !! j = Some u → consumer_knows x u → consumer_knows x' u) →
  control (<[i := t']> ts) x'.
Proof.
  intros [Hl Hr Hm Hc] Hi Hne Hr' Hm' Hc' Hd Hk. constructor.
  - by rewrite length_insert.
  - intros j u [(<- & -> & _)|[Hj Hu]]%list_lookup_insert_Some; [done|by apply Hr].
  - intros u [(-> & -> & _)|[Hj Hu]]%list_lookup_insert_Some; [by apply Hm'|]. specialize (Hm u Hu).
    assert (∀ j, ts !! j = Some Ended → <[i := t']> ts !! j = Some Ended) as Hend.
    { intros j Hj'. rewrite list_lookup_insert_ne; [done|]. intros ->. congruence. }
    unfold main_knows in *. rewrite Hd by done. destruct u; naive_solver.
  - intros j u Hj [(<- & -> & _)|[Hij Hu]]%list_lookup_insert_Some; [by apply Hc'|]. eauto.
Qed.

Section runs.
Context {S : Type} {A : Allocator S}.
Implicit Types (w : pool prodcons_pc prodcons_vars S).

(** While a producer is at work, the flag is down. *)
Lemma producing ts x i t :
  control ts x → ts !! i = Some t → (i < P)%nat → t ≠ Ended → done x = false.
Proof.
  intros [Hl Hr Hm Hc] Hi HP Hne. destruct (lookup_lt_is_Some_2 ts (P + C)%nat ltac:(lia)) as [u Hu].
  specialize (Hm u Hu). destruct u; destruct Hm as [E Hall]; try done; pose proof (Hall i HP); congruence.
Qed.

(** What consumers know is not lost by a change of the variables that keeps the
    flag up and an empty queue empty. *)
Lemma consumer_keeps x x' t :
  (done x = true → done x' = true) → (done x = true → q x = [] → q x' = []) →
  consumer_knows x t → consumer_knows x' t.
Proof. destruct t; simpl; naive_solver. Qed.

Lemma control_sync ts x i t f :
  control ts x → ts !! i = Some t → prodcons_act t = Sync f → control (<[i := fst (f x)]> ts) (snd (f x)).
Proof.
  intros Hc Hi Ha. pose proof (ct_role _ _ Hc i t Hi) as Hr. pose proof (ct_consumer _ _ Hc i t) as Hk.
  pose proof (ct_main _ _ Hc) as Hm. assert (t ≠ Ended) as Hne by (by intros ->).
  assert (i < P → done x = false)%nat as Hp by (intros; by eapply producing).
  pose proof (lookup_lt_Some _ _ _ Hi) as Hlt. rewrite (ct_length _ _ Hc) in Hlt.
  eapply control_step; try done.
  - destruct t; simpl in Ha; repeat case_match; simplify_eq; unfold role in *; repeat case_decide; simpl in *;
      try done; repeat case_match; naive_solver.
  - intros ->. specialize (Hm t Hi). destruct t; simpl in Ha; repeat case_match; simplify_eq; unfold role in *;
      repeat case_decide; simpl in *; try done; try lia.
    split; [done|]. intros k Hkj. rewrite list_lookup_insert_ne by lia. apply Hm. lia.
  - intros Hi'. destruct t; simpl in Ha; repeat case_match; simplify_eq; unfold role in *; repeat case_decide; simpl in *;
      try done; try lia; repeat case_match; naive_solver.
  - intros Hi'. destruct t; simpl in Ha; repeat case_match; simplify_eq; unfold role in *; repeat case_decide; simpl in *;
      try done; try lia; repeat case_match; done.
  - intros j u Hj Hu. apply consumer_keeps; destruct t; simpl in Ha; repeat case_match; simplify_eq; unfold role in *;
      repeat case_decide; simpl in *; try done; try lia; repeat case_match; simpl; try done; try congruence; by rewrite Hp.
Qed.

Lemma control_pstep w w' :
  control (threads w) (shared w) → pstep prodcons_act w w' → control (threads w') (shared w').
Proof.
  intros Hc Hst. destruct Hst as [i [t c k r s Hi Ha _ _|t f Hi Ha|t j t' u Hi Ha Hj Hu]]; simpl; [|by eapply control_sync|].
  - pose proof (ct_role _ _ Hc i t Hi) as Hr. pose proof (ct_consumer _ _ Hc i t) as Hk.
    assert (t ≠ Ended) as Hne by (by intros ->).
    eapply control_step; try done; destruct t; simpl in Ha; repeat case_match; simplify_eq;
      unfold role in *; repeat case_decide; simpl in *; try done; try lia; repeat case_match; naive_solver.
  - pose proof (ct_role _ _ Hc i t Hi) as Hr. pose proof (ct_role _ _ Hc j u Hj) as Hru.
    pose proof (ct_main _ _ Hc) as Hm. assert (t ≠ Ended) as Hne by (by intros ->).
    assert (u = Ended ∨ j = (P + C)%nat) as Hend.
    { pose proof (lookup_lt_Some _ _ _ Hj). rewrite (ct_length _ _ Hc) in *. unfold role in Hru.
      destruct u; simpl in Hu; repeat case_match; simplify_eq; naive_solver lia. }
    eapply control_step; try done.
    + destruct t; simpl in Ha; repeat case_match; simplify_eq; unfold role in *; repeat case_decide; by simpl in *.
    + intros ->. specialize (Hm t Hi). destruct t as [| | | | | | | | | | |m|m| |]; simpl in Ha; repeat case_match; simplify_eq; simpl in *.
      * destruct Hend as [->|]; [|lia]. split; [apply Hm|]. intros k Hk. rewrite list_lookup_insert_ne by lia.
        destruct (decide (k = j)) as [->|]; [done|]. apply Hm. lia.
      * split; [apply Hm|]. intros k Hk. rewrite list_lookup_insert_ne by lia. by apply Hm.
    + intros Hi'. destruct t; simpl in Ha; repeat case_match; simplify_eq; unfold role in *; repeat case_decide; simpl in *; done || lia.
Qed.

(** *** Every state that a run reaches *)

Definition start (g : Z) (s : S) : pool prodcons_pc prodcons_vars S := mkPool start_threads (start_vars g) s.

Lemma prodcons_control g s w : rtc (pstep prodcons_act) (start g s) w → control (threads w) (shared w).
Proof.
  enough (∀ w0, control (threads w0) (shared w0) → rtc (pstep prodcons_act) w0 w → control (threads w) (shared w)) as Hw
    by (apply Hw, control_start).
  intros w0 H0. induction 1; eauto using control_pstep.
Qed.

Lemma prodcons_pool g s w :
  word obj → al_inv s → rtc (pstep prodcons_act) (start g s) w → pool_inv holds_at queued (al_view s) w.
Proof.
  intros Ho Hs Hw. apply (psteps_inv prodcons_act _ _ (D:=prodcons_discipline Ho) _ (start g s)); [|done]. apply pool_start; [done| |done].
  unfold start_threads. rewrite !Forall_app. split_and!; [by apply Forall_replicate|by apply Forall_replicate|by apply Forall_singleton].
Qed.

(** At the end the queue is empty, when there is a consumer to empty it. *)
Lemma prodcons_end g s w :
  word obj → al_inv s → (0 < C)%nat → rtc (pstep prodcons_act) (start g s) w → finished prodcons_act w →
  q (shared w) = [] ∧ a_same (al_view s) (al_view (mem w)).
Proof.
  intros Ho Hs HC Hw Hf. pose proof (prodcons_control g s w Hw) as Hc.
  destruct (lookup_lt_is_Some_2 (threads w) P) as [t Ht]; [rewrite (ct_length _ _ Hc); lia|].
  assert (q (shared w) = []) as Hq.
  { pose proof (ct_role _ _ Hc P t Ht) as Hr. pose proof (ct_consumer _ _ Hc P t ltac:(lia) Ht) as Hk.
    pose proof (Forall_lookup_1 _ _ _ _ Hf Ht) as Hh. unfold role in Hr. rewrite decide_False, decide_True in Hr by lia.
    destruct t; simpl in Hh; repeat case_match; try done. apply Hk. }
  split; [done|]. destruct (pool_end prodcons_act _ _ (D:=prodcons_discipline Ho) _ w (prodcons_pool g s w Ho Hs Hw) Hf) as (Hx & HI & Hsp).
  unfold queued in HI. rewrite Hq in HI. simpl in HI. subst Hx. by apply splits_empty.
Qed.
End runs.
End code.
End ProdCons.

(** ** Independent threads behind a barrier *)

Module Scaling.

Record scaling_vars := mkVars { ready : Z; go : bool; g_sink : Z }.

(** [W...]: a worker, before it reports, waiting, in its loop, and between the
    read and the write of the sink; [M...]: the thread that starts them. *)
Inductive scaling_pc :=
| WReady | WSpin | WRun (p : prog unit) | WSunk (v : Z) (k : prog unit)
| MReady | MGo | MJoin (j : nat)
| Ended.

Section code.
Context (T : nat) (fuel : nat) (per_thread obj : Z).

(** [for (i = 0; i < per_thread; i += 64)] over a vector of 64 slots. *)
Definition scaling_worker : prog unit :=
  while_ops fuel per_thread 64 (same_size_round 64 obj) 0 (replicate 64 None);; mret tt.

Definition scaling_act (t : scaling_pc) : action scaling_pc scaling_vars :=
  match t with
  | WReady => Sync (λ x, (WSpin, mkVars (u32 (ready x + 1)) (go x) (g_sink x)))
  | WSpin => Sync (λ x, (if go x then WRun scaling_worker else WSpin, x))
  | WRun (Return _) => Call Exit (λ _, Ended)
  | WRun (Invoke c k) => Call c (λ r, WRun (k r))
  | WRun (Sink b k) => Sync (λ x, (WSunk (u8 (g_sink x + b)) k, x))
  | WRun p => Sync (λ x, (WRun p, x))
  | WSunk v k => Sync (λ x, (WRun k, mkVars (ready x) (go x) v))
  | MReady => Sync (λ x, (if ready x <? Z.of_nat T then MReady else MGo, x))
  | MGo => Sync (λ x, (MJoin 0, mkVars (ready x) true (g_sink x)))
  | MJoin j => if decide (j < T)%nat then Join j (MJoin (S j)) else Halt
  | Ended => Halt
  end.

Definition start_threads : list scaling_pc := replicate T WReady ++ [MReady].
Definition start_vars (g : Z) : scaling_vars := mkVars 0 false g.

(** *** Blocks *)

Definition works (p : prog unit) (H : gmap Z (list Z)) : Prop := ∀ g, twp p (λ _ H' _, H' = ∅) H g.
Definition holds_at (t : scaling_pc) (H : gmap Z (list Z)) : Prop :=
  match t with WRun p | WSunk _ p => works p H | _ => H = ∅ end.

Context (Hfuel : enough fuel per_thread 64) (Hobj : word obj).

Lemma worker_works : works scaling_worker ∅.
Proof.
  intros g. apply (twp_sink _ _ _ 0); [done|]. apply twp_bind. eapply twp_mono; [by apply twp_rounds|].
  intros x H g' (-> & _). by apply twp_ret.
Qed.

#[local] Instance scaling_discipline : Discipline scaling_act holds_at (λ _ H, H = ∅).
Proof.
  constructor.
  - intros t H c k HJ Ha. destruct t as [| |[]|v p| | | |]; simpl in Ha, HJ; repeat case_match; simplify_eq.
    + apply (HJ 0).
    + eapply lwp_mono; [apply (HJ 0)|]. intros r' H' Hk g. eapply twp_sink; [done|exact Hk].
  - intros t H x Hx f HJ Ha -> Hd. exists H, ∅. split_and!; [done|done| |done].
    destruct t as [| |[]|v p| | | |]; simpl in Ha, HJ; repeat case_match; simplify_eq; simpl in *; try done.
    + destruct (go x); [subst; apply worker_works|done].
    + intros g. eapply twp_sink; [done|]. apply (HJ 0).
    + by destruct (_ <? _).
  - intros t H j t' HJ Ha. destruct t as [| |[]|v p| | | |]; simpl in Ha; repeat case_match; by simplify_eq.
  - intros t H HJ Ha. destruct t as [| |[]|v p| | | |]; simpl in Ha; repeat case_match; by simplify_eq.
Qed.

(** *** The barrier *)

(** The workers that have not reported. *)
Definition lateness (t : scaling_pc) : nat := match t with WReady => 1 | _ => 0 end.
Definition late (ts : list scaling_pc) : Z := Z.of_nat (sum_list_with lateness ts).

Lemma late_insert ts i t t' :
  ts !! i = Some t → late (<[i := t']> ts) = late ts - Z.of_nat (lateness t) + Z.of_nat (lateness t').
Proof.
  intros Hi. unfold late. rewrite insert_take_drop by (by eapply lookup_lt_Some).
  rewrite <-(take_drop_middle ts i t Hi) at 3. rewrite !sum_list_with_app. simpl. lia.
Qed.
Lemma late_pos ts i : ts !! i = Some WReady → 0 < late ts.
Proof.
  intros Hi. pose proof (late_insert ts i WReady WSpin Hi) as E. simpl in E.
  assert (0 ≤ late (<[i := WSpin]> ts)) by (unfold late; lia). lia.
Qed.

Definition is_main (t : scaling_pc) : bool := match t with MReady | MGo | MJoin _ => true | _ => false end.

(** Past the barrier: the workers in their loop, and the thread that opened it. *)
Definition knows (ts : list scaling_pc) (x : scaling_vars) (t : scaling_pc) : Prop :=
  match t with
  | WRun _ | WSunk _ _ | MJoin _ | Ended => go x = true ∧ late ts = 0
  | MGo => late ts = 0
  | _ => True
  end.

Record barrier (ts : list scaling_pc) (x : scaling_vars) : Prop := {
  ba_length : length ts = S T;
  ba_role i t : ts !! i = Some t → is_main t = bool_decide (i = T);
  ba_ready : ready x = Z.of_nat T - late ts;
  ba_late : late ts ≤ Z.of_nat T;
  ba_go : go x = true → late ts = 0;
  ba_knows i t : ts !! i = Some t → knows ts x t
}.

Lemma late_start : late start_threads = Z.of_nat T.
Proof.
  unfold late, start_threads. rewrite sum_list_with_app. simpl. rewrite Nat.add_0_r. f_equal.
  clear. induction T as [|n IH]; simpl; [done|]. by rewrite IH.
Qed.

Lemma barrier_start g : barrier start_threads (start_vars g).
Proof.
  constructor; simpl; [|intros i t Hi|rewrite late_start; lia|rewrite late_start; lia|done|intros i t Hi].
  - unfold start_threads. rewrite length_app, length_replicate. simpl. lia.
  - apply lookup_app_Some in Hi as [[-> Hi]%lookup_replicate|[Hl Hi]].
    + by rewrite bool_decide_eq_false_2 by lia.
    + rewrite length_replicate in Hl, Hi. apply list_lookup_singleton_Some in Hi as [? <-].
      by rewrite bool_decide_eq_true_2 by lia.
  - by apply lookup_app_Some in Hi as [[-> Hi]%lookup_replicate|[Hl [? <-]%list_lookup_singleton_Some]].
Qed.

(** A step that is not a report leaves the number of late workers. *)
Lemma barrier_step ts x x' i t t' :
  barrier ts x → ts !! i = Some t → is_main t' = is_main t → lateness t = 0%nat → lateness t' = 0%nat →
  ready x' = ready x → (go x = true → go x' = true) → (go x' = true → late ts = 0) → knows ts x' t' →
  barrier (<[i := t']> ts) x'.
Proof.
  intros [Hl Hr Hrd Hlt Hg Hk] Hi Hm E1 E2 Hx Hg' Hgo Hk'.
  assert (late (<[i := t']> ts) = late ts) as El by (rewrite (late_insert ts i t t' Hi), E1, E2; lia).
  constructor; rewrite ?El; [by rewrite length_insert| |lia|done|done|].
  - intros j u [(<- & -> & _)|[_ Hu]]%list_lookup_insert_Some; [rewrite Hm; by apply Hr|by apply Hr].
  - intros j u [(<- & -> & _)|[_ Hu]]%list_lookup_insert_Some; [|specialize (Hk j u Hu)];
      unfold knows in *; rewrite El; [done|destruct u; naive_solver].
Qed.

(** A report is one late worker less, and nobody is past the barrier yet. *)
Lemma barrier_report ts x i :
  barrier ts x → Z.of_nat T < 2 ^ 32 → ts !! i = Some WReady →
  barrier (<[i := WSpin]> ts) (mkVars (u32 (ready x + 1)) (go x) (g_sink x)).
Proof.
  intros [Hl Hr Hrd Hlt Hg Hk] HT Hi. pose proof (late_pos ts i Hi) as Hpos.
  pose proof (late_insert ts i WReady WSpin Hi) as El. simpl in El.
  assert (0 ≤ late (<[i := WSpin]> ts)) by (unfold late; lia).
  constructor; [by rewrite length_insert| |simpl; rewrite u32_small; lia|lia|simpl; intros E; specialize (Hg E); lia|].
  - intros j u [(<- & <- & _)|[_ Hu]]%list_lookup_insert_Some; [by apply (Hr i WReady)|by apply Hr].
  - intros j u [(<- & <- & _)|[_ Hu]]%list_lookup_insert_Some; [done|]. specialize (Hk j u Hu).
    unfold knows in *. destruct u; simpl in *; naive_solver lia.
Qed.

Section runs.
Context {S : Type} {A : Allocator S} (HT : Z.of_nat T < 2 ^ 32).
Implicit Types (w : pool scaling_pc scaling_vars S).

Lemma barrier_sync ts x i t f :
  barrier ts x → ts !! i = Some t → scaling_act t = Sync f → barrier (<[i := fst (f x)]> ts) (snd (f x)).
Proof.
  intros Hc Hi Ha. pose proof (ba_knows _ _ Hc i t Hi) as Hk. pose proof (ba_go _ _ Hc) as Hg.
  pose proof (ba_ready _ _ Hc) as Hrd.
  destruct t as [| |[]|v p| | | |]; simpl in Ha; repeat case_match; simplify_eq; simpl in *;
    [by apply barrier_report|eapply barrier_step; try done..].
  - by destruct (go x).
  - by destruct (go x).
  - destruct (go x) eqn:E; [|done]. split; [done|by apply Hg].
  - by destruct (_ <? _).
  - by destruct (_ <? _).
  - destruct (Z.ltb_spec (ready x) (Z.of_nat T)); [done|]. simpl. assert (0 ≤ late ts) by (unfold late; lia). lia.
Qed.

Lemma barrier_pstep w w' :
  barrier (threads w) (shared w) → pstep scaling_act w w' → barrier (threads w') (shared w').
Proof.
  intros Hc Hst. destruct Hst as [i [t c k r s Hi Ha _ _|t f Hi Ha|t j t' u Hi Ha Hj Hu]]; simpl; [|by eapply barrier_sync|];
    pose proof (ba_knows _ _ Hc i t Hi) as Hk; pose proof (ba_go _ _ Hc) as Hg;
    destruct t as [| |[]|v p| | | |]; simpl in Ha; repeat case_match; simplify_eq; by eapply barrier_step.
Qed.

(** *** Every state that a run reaches *)

Definition start (g : Z) (s : S) : pool scaling_pc scaling_vars S := mkPool start_threads (start_vars g) s.

Lemma scaling_barrier g s w : rtc (pstep scaling_act) (start g s) w → barrier (threads w) (shared w).
Proof.
  enough (∀ w0, barrier (threads w0) (shared w0) → rtc (pstep scaling_act) w0 w → barrier (threads w) (shared w)) as Hw
    by (apply Hw, barrier_start).
  intros w0 H0. induction 1; eauto using barrier_pstep.
Qed.

Lemma scaling_pool g s w :
  al_inv s → rtc (pstep scaling_act) (start g s) w → pool_inv holds_at (λ _ H, H = ∅) (al_view s) w.
Proof.
  intros Hs Hw. apply (psteps_inv scaling_act _ _ (D:=scaling_discipline) _ (start g s)); [|done]. apply pool_start; [done| |done].
  unfold start_threads. rewrite Forall_app. split; [by apply Forall_replicate|by apply Forall_singleton].
Qed.

Lemma scaling_end g s w :
  al_inv s → rtc (pstep scaling_act) (start g s) w → finished scaling_act w → a_same (al_view s) (al_view (mem w)).
Proof.
  intros Hs Hw Hf. destruct (pool_end scaling_act _ _ (D:=scaling_discipline) _ w (scaling_pool g s w Hs Hw) Hf) as (Hx & -> & Hsp).
  by apply splits_empty.
Qed.
End runs.
End code.
End Scaling.
