(* ===== verification/BenchEnds.v ===== *)
(** * The multi-threaded workloads end

    Consumers of [prodcons_run] poll the queue and the flag, workers of
    [scaling_run] spin until they are let go, and the starting thread spins until
    they have reported.  Under every fair schedule all of them return.  The rank
    of [prodcons_run] is first the work that producers and the waiting thread have
    left, then, once the flag is up, the queue and the distance of the consumers
    to their exit; that of [scaling_run] is the number of steps all threads have
    left.  Polling leaves the rank as it is, and the thread that is polled for is
    the useful one. *)
From Stdlib Require Import ZArith Lia Relation_Operators Lexicographic_Product Wellfounded.
From stdpp Require Import base numbers list gmap.
From S2P Require Import Prelude Words Constants Memory Os State Client ClientLogic Fair Bench BenchRuns BenchThreads.

Lemma sum_insert {T} (f : T → nat) ts i t t' :
  ts !! i = Some t → (sum_list_with f (<[i := t']> ts) + f t = sum_list_with f ts + f t')%nat.
Proof.
  intros Hi. rewrite insert_take_drop by (by eapply lookup_lt_Some).
  rewrite <-(take_drop_middle ts i t Hi) at 3. rewrite !sum_list_with_app. simpl. lia.
Qed.

Lemma sum_bound {T} (f : T → nat) n ts : (∀ t, f t ≤ n)%nat → (sum_list_with f ts ≤ n * length ts)%nat.
Proof. intros Hf. induction ts as [|t ts IH]; simpl; [lia|]. specialize (Hf t). lia. Qed.

(** ** Producers and consumers *)

Section prodcons.
Import ProdCons.
Context (P C : nat) (per_producer obj : Z) (Hpp : word per_producer) (Hobj : word obj).
Context {S : Type} {A : Allocator S}.
Implicit Types (w : pool prodcons_pc prodcons_vars S) (t : prodcons_pc) (x : prodcons_vars).
Abbreviation act := (prodcons_act P C per_producer obj).

(** The counter of a producer stays in range. *)
Definition count_ok t : Prop :=
  match t with
  | PLoop i => 0 ≤ i ≤ per_producer
  | PTouch i _ | PPush i _ => 0 ≤ i < per_producer
  | _ => True
  end.

(** What producers and the waiting thread have left. *)
Definition work t : nat :=
  match t with
  | PLoop i => Z.to_nat (3 * (per_producer - i) + 1)
  | PTouch i _ => Z.to_nat (3 * (per_producer - i))
  | PPush i _ => Z.to_nat (3 * (per_producer - i) - 1)
  | MProducers j => P - j + C + 2
  | MConsumers j => C - j
  | _ => 0
  end.

(** How far a consumer is from leaving, or, while the queue is not empty, from
    taking the next element. *)
Definition stage (empty : bool) t : nat :=
  match t with
  | CRead _ => if empty then 9 else 6
  | CSink _ _ => if empty then 8 else 5
  | CSunk _ _ => if empty then 7 else 4
  | CFree _ => if empty then 6 else 3
  | CCount => if empty then 5 else 2
  | CPop => if empty then 4 else 1
  | CDone => 3
  | CAgain => 2
  | Leave => 1
  | _ => 0
  end.
Definition is_empty x : bool := match q x with [] => true | _ => false end.
Definition drain_left (ts : list prodcons_pc) x : nat :=
  if done x then length (q x) * (10 * length ts) + sum_list_with (stage (is_empty x)) ts else 0.

Definition prodcons_rank w : nat * nat := (sum_list_with work (threads w), drain_left (threads w) (shared w)).
Definition prodcons_useful (i : nat) w : Prop := (P ≤ i < P + C)%nat → done (shared w) = true.
Definition prodcons_inv V0 w : Prop :=
  pool_inv holds_at queued V0 w ∧ control P C (threads w) (shared w) ∧ Forall count_ok (threads w).

(** One step of one thread, whatever its kind. *)
Definition turned i w t t' x' : Prop := threads w !! i = Some t ∧ t ≠ Ended ∧
  match act t with
  | Halt => False
  | Call c k => x' = shared w ∧ ∃ r, t' = k r
  | Sync f => t' = fst (f (shared w)) ∧ x' = snd (f (shared w))
  | Join j u => t' = u ∧ x' = shared w
  end.

Lemma moves_turned i w w' :
  moves act i w w' → ∃ t t', turned i w t t' (shared w') ∧ threads w' = <[i := t']> (threads w).
Proof.
  intros [t c k r s Hi Ha _ _|t f Hi Ha|t j t' u Hi Ha _ _]; exists t; eexists; (split; [|done]);
    (split_and!; [done|by intros ->|rewrite Ha]); simpl; eauto.
Qed.

Ltac turn_cases H := destruct H as (Hi & Hne & H); simpl in H; repeat case_match; simplify_eq/=; try done;
  (destruct H as [-> [r ->]] || destruct H as [-> ->]); simpl in *; bool_hyps.

Lemma turned_count i w t t' x' : turned i w t t' x' → count_ok t → count_ok t'.
Proof.
  intros Ht Hc. pose proof Hpp as [_ Hw]. destruct t; turn_cases Ht; repeat case_match; simpl; try done; try lia.
  rewrite u64_small; lia.
Qed.

(** Producers and the waiting thread work off what they have left; consumers do
    not touch it. *)
Lemma turned_work i w t t' x' :
  turned i w t t' x' → count_ok t → if is_consumer t then work t = 0%nat ∧ work t' = 0%nat else (work t' < work t)%nat.
Proof.
  intros Ht Hc. pose proof Hpp as [_ Hw]. destruct t; turn_cases Ht; repeat case_match; simpl; try done; try lia.
  rewrite u64_small; lia.
Qed.

(** Once the flag is up every step of a consumer brings the end nearer. *)
Lemma turned_stage i w t t' x' :
  turned i w t t' x' → is_consumer t = true → done (shared w) = true →
  done x' = true ∧ (q x' = q (shared w) ∧ (stage (is_empty (shared w)) t' < stage (is_empty (shared w)) t)%nat ∨
    length (q (shared w)) = Datatypes.S (length (q x'))).
Proof.
  intros Ht Hc Hd. unfold is_empty. destruct t; turn_cases Ht; rewrite ?Hd; destruct (q (shared w)) as [|[a'|] ps] eqn:Eq; simpl in *; simplify_eq;
    rewrite ?Eq; simpl; split; try done; try (left; split; [done|lia]); by right.
Qed.

Lemma stage_bound e t : (stage e t ≤ 9)%nat.
Proof. destruct e, t; simpl; lia. Qed.

Lemma consumer_index ts x i t :
  control P C ts x → ts !! i = Some t → t ≠ Ended → is_consumer t = true ↔ (P ≤ i < P + C)%nat.
Proof.
  intros Hc Hi Hne. pose proof (ct_role _ _ _ _ Hc i t Hi) as Hr. unfold role in Hr. repeat case_decide.
  - split; [|lia]. by destruct t.
  - split; [lia|]. by destruct t.
  - split; [|lia]. by destruct t.
Qed.

Lemma prodcons_step V0 i w w' :
  prodcons_inv V0 w → moves act i w w' →
  slexprod nat nat lt lt (prodcons_rank w') (prodcons_rank w) ∨ prodcons_rank w' = prodcons_rank w ∧ ¬ prodcons_useful i w.
Proof.
  intros (_ & Hc & Hk) (t & t' & Ht & E)%moves_turned. pose proof Ht as (Hi & Hne & _).
  pose proof (turned_work _ _ _ _ _ Ht (Forall_lookup_1 _ _ _ _ Hk Hi)) as Hw.
  pose proof (sum_insert work _ i t t' Hi) as Es.
  unfold prodcons_rank. rewrite E. destruct (is_consumer t) eqn:Ec; [|left; apply left_slex; lia].
  replace (sum_list_with work (<[i := t']> (threads w))) with (sum_list_with work (threads w)) by lia.
  unfold drain_left. destruct (done (shared w)) eqn:Ed.
  - left. apply right_slex. destruct (turned_stage _ _ _ _ _ Ht Ec Ed) as [-> [[Eq Hs]|El]]; rewrite length_insert.
    + unfold is_empty in *. rewrite Eq. pose proof (sum_insert (stage (match q (shared w) with [] => true | _ => false end)) _ i t t' Hi). lia.
    + pose proof (sum_bound (stage (is_empty (shared w'))) 9 (<[i := t']> (threads w)) (stage_bound _)) as Hb. rewrite length_insert in Hb.
      pose proof (lookup_lt_Some _ _ _ Hi). rewrite El. simpl. lia.
  - right. split; [|intros Hu; apply (consumer_index _ _ _ _ Hc Hi Hne) in Ec; by rewrite Hu in Ed]. f_equal.
    assert (done (shared w') = false) as ->; [|done]. clear -Ht Ec Ed. destruct t; turn_cases Ht; repeat case_match; done.
Qed.

(** The flag stays up. *)
Lemma done_kept V0 i w w' : prodcons_inv V0 w → moves act i w w' → done (shared w) = true → done (shared w') = true.
Proof.
  intros _ (t & t' & Ht & _)%moves_turned Hd. destruct t; turn_cases Ht; repeat case_match; done.
Qed.

(** A producer or consumer that has not returned can step, and whoever waits for
    one that has. *)
Lemma worker_able w i t : threads w !! i = Some t → is_main t = false → t ≠ Ended → able act i w.
Proof. intros Hi Hm Hne. exists t. split; [done|]. destruct t; simpl in *; repeat case_match; done. Qed.

Lemma main_helps V0 w t :
  prodcons_inv V0 w → threads w !! (P + C)%nat = Some t → act t ≠ Halt → ∃ i, prodcons_useful i w ∧ able act i w.
Proof.
  intros (_ & Hc & _) Ht Ha. pose proof (ct_role _ _ _ _ Hc _ t Ht) as Hr. unfold role in Hr. rewrite !decide_False in Hr by lia.
  pose proof (ct_main _ _ _ _ Hc t Ht) as Hk.
  assert (able act (P + C) w → ∃ i, prodcons_useful i w ∧ able act i w) as Hmain.
  { intros Hab. exists (P + C)%nat. split; [intros ?; lia|done]. }
  assert (∀ j, (j < P + C)%nat → ((P ≤ j)%nat → done (shared w) = true) →
    (∀ u, threads w !! j = Some u → act u = Halt → able act (P + C) w) → ∃ i, prodcons_useful i w ∧ able act i w) as Hwait.
  { intros j Hj Hd Hab. destruct (lookup_lt_is_Some_2 (threads w) j) as [u Hu]; [rewrite (ct_length _ _ _ _ Hc); lia|].
    pose proof (ct_role _ _ _ _ Hc j u Hu) as Hru. unfold role in Hru.
    assert (u = Ended ∨ u ≠ Ended) as [->|Hne] by (destruct u; auto); [apply Hmain; by apply (Hab Ended)|]. exists j. split; [intros [? _]; auto|].
    apply (worker_able w j u Hu); [|done]. repeat case_decide; by destruct u. }
  destruct t as [| | | | | | | | | | |n|n| |]; try done; simpl in Hk, Ha; case_decide; try done.
  - apply (Hwait n); [lia|intros; lia|]. intros u Hu Hh. exists (MProducers n). split; [done|]. simpl. rewrite decide_True by done. eauto.
  - apply Hmain. exists (MProducers n). split; [done|]. simpl. by rewrite decide_False.
  - apply (Hwait (P + n)%nat); [lia|intros _; apply Hk|]. intros u Hu Hh. exists (MConsumers n). split; [done|]. simpl. rewrite decide_True by done. eauto.
Qed.

Lemma prodcons_some V0 w : prodcons_inv V0 w → ¬ finished act w → ∃ i, prodcons_useful i w ∧ able act i w.
Proof.
  intros Hw (i & t & Hi & Ha)%unfinished. pose proof Hw as (_ & Hc & _).
  assert (t ≠ Ended) as Hne by (by intros ->). pose proof (consumer_index _ _ _ _ Hc Hi Hne) as Hx.
  pose proof (ct_role _ _ _ _ Hc i t Hi) as Hr. unfold role in Hr. pose proof (lookup_lt_Some _ _ _ Hi) as Hl. rewrite (ct_length _ _ _ _ Hc) in Hl.
  destruct (decide (i = P + C)%nat) as [->|Hn]; [by eapply main_helps|].
  destruct (lookup_lt_is_Some_2 (threads w) (P + C)%nat) as [u Hu]; [rewrite (ct_length _ _ _ _ Hc); lia|].
  assert (act u ≠ Halt ∨ done (shared w) = true) as [Hm|Hd].
  { pose proof (ct_main _ _ _ _ Hc u Hu) as Hk. destruct u; try (right; apply Hk). left. simpl. by destruct (decide (j < P)%nat). }
  - by eapply main_helps.
  - exists i. split; [by intros _|]. apply (worker_able w i t Hi); [|done]. repeat case_decide; [by destruct t..|lia].
Qed.

Lemma prodcons_ranking V0 :
  Ranking act holds_at queued (slexprod nat nat lt lt) (prodcons_inv V0) (λ w a, prodcons_rank w = a) prodcons_useful.
Proof.
  constructor.
  - apply wf_slexprod; apply lt_wf.
  - intros w Hw. exists V0. apply Hw.
  - intros i w w' (Hp & Hc & Hk) Hm. split_and!.
    + eapply (pstep_inv act _ _ (D:=prodcons_discipline P C per_producer obj Hobj)); [done|by exists i].
    + eapply control_pstep; [done|by exists i].
    + pose proof Hm as (t & t' & Ht & ->)%moves_turned. apply Forall_insert; [done|].
      eapply turned_count; [done|]. eapply Forall_lookup_1; [done|]. apply Ht.
  - intros i w w' a Hw <- Hm. eexists. split; [done|by eapply prodcons_step].
  - intros i j w w' Hw Hu Hm _ Hi. eapply done_kept; eauto.
  - apply prodcons_some.
Qed.

Lemma prodcons_ends g s sched σ :
  al_inv s → fair_run act (ProdCons.start P C g s) sched σ → (∀ n, served act (σ n)) → ∃ n, finished act (σ n).
Proof.
  intros Hs Hrun Hserved. pose proof (prodcons_ranking (al_view s)) as HR.
  pose proof (prodcons_discipline P C per_producer obj Hobj) as HD.
  eapply (fair_ends act _ _ _ _ _ _ _ sched σ Hrun Hserved); [|reflexivity]. split_and!.
  - apply (prodcons_pool P C per_producer obj g s); [done|done|reflexivity].
  - apply control_start.
  - change (Forall count_ok (start_threads P C)). unfold start_threads. pose proof Hpp as [? _]. rewrite !Forall_app. split_and!; [by apply Forall_replicate|by apply Forall_replicate|by apply Forall_singleton].
Qed.
End prodcons.

(** ** Independent threads behind a barrier *)

(** The steps of one batch of [n] slots, and of [f] batches. *)
Lemma bounded_for {A} (body : nat → A → prog A) m : (∀ i a, bounded m (body i a)) →
  ∀ n i a, bounded (n * m) (for_loop n i body a).
Proof. intros Hb n. induction n as [|n IH]; intros i a; [done|]. simpl. by apply bounded_bind. Qed.

Lemma bounded_while {A} (round : A → prog A) m iters batch : (∀ a, bounded m (round a)) →
  ∀ f ops a, bounded (f * m) (while_ops f iters batch round ops a).
Proof.
  intros Hr f. induction f as [|f IH]; intros ops a; simpl; destruct (ops <? iters); try done. by apply bounded_bind.
Qed.

Lemma bounded_fill n i live : bounded 2 (fill n i live).
Proof.
  apply (bounded_bind 1 1); [by intros []|]. intros p. apply (bounded_bind 0 1); [unfold vset; by case_decide|].
  intros l. apply (bounded_bind 1 0); [by destruct p|done].
Qed.
Lemma bounded_drain i live : bounded 4 (drain i live).
Proof.
  apply (bounded_bind 0 4); [unfold vget; by case_match|]. intros p.
  apply (bounded_bind 3 1); [destruct p; simpl; [by intros []|done]|]. intros []. by apply (bounded_bind 1 0).
Qed.

Section scaling.
Import Scaling.
Context (T fuel : nat) (per_thread obj : Z) (HT : Z.of_nat T < 2 ^ 32) (Hfuel : enough fuel per_thread 64) (Hobj : word obj).
Context {S : Type} {A : Allocator S}.
Implicit Types (w : pool scaling_pc scaling_vars S) (t : scaling_pc) (x : scaling_vars).
Abbreviation act := (scaling_act T fuel per_thread obj).

Definition worker_steps : nat := fuel * (64 * 2 + 64 * 4).

Lemma worker_bounded : bounded worker_steps (scaling_worker fuel per_thread obj).
Proof.
  eapply bounded_le; [apply (bounded_bind worker_steps 0); [|done]|lia]. apply bounded_while. intros live.
  apply bounded_bind; [apply bounded_for, bounded_fill|]. intros l. apply bounded_for, bounded_drain.
Qed.

(** The steps a thread has left, apart from polling. *)
Definition left_at t (n : nat) : Prop :=
  match t with
  | WReady => n = (worker_steps + 3)%nat
  | WSpin => n = (worker_steps + 2)%nat
  | WRun p => ∃ m, bounded m p ∧ n = (m + 1)%nat
  | WSunk _ p => ∃ m, bounded m p ∧ n = (m + 2)%nat
  | MReady => n = (T + 2)%nat
  | MGo => n = (T + 1)%nat
  | MJoin j => n = (T - j)%nat
  | Ended => n = 0%nat
  end.
Definition scaling_rank w (n : nat) : Prop := ∃ ns, Forall2 left_at (threads w) ns ∧ n = sum_list ns.

(** Who is not polling in vain. *)
Definition sure t x : Prop :=
  match t with WSpin => go x = true | MReady => Z.of_nat T ≤ ready x | _ => True end.
Definition scaling_useful (i : nat) w : Prop := ∃ t, threads w !! i = Some t ∧ sure t (shared w).
Definition scaling_inv V0 w : Prop :=
  pool_inv holds_at (λ _ H, H = ∅) V0 w ∧ barrier T (threads w) (shared w).

Definition swept i w t t' x' : Prop := threads w !! i = Some t ∧
  match act t with
  | Halt => False
  | Call c k => x' = shared w ∧ ∃ r, t' = k r
  | Sync f => t' = fst (f (shared w)) ∧ x' = snd (f (shared w))
  | Join j u => t' = u ∧ x' = shared w
  end.

Lemma moves_swept i w w' :
  moves act i w w' → ∃ t t', swept i w t t' (shared w') ∧ threads w' = <[i := t']> (threads w).
Proof.
  intros [t c k r s Hi Ha _ _|t f Hi Ha|t j t' u Hi Ha _ _]; exists t; eexists; (split; [|done]);
    (split; [done|rewrite Ha]); simpl; eauto.
Qed.

(** Every step but an idle poll is one step less. *)
Lemma swept_left V0 i w t t' x' n :
  scaling_inv V0 w → swept i w t t' x' → left_at t n →
  ∃ n', left_at t' n' ∧ ((n' < n)%nat ∨ n' = n ∧ ¬ sure t (shared w)).
Proof.
  intros [Hp _] (Hi & Ht) Hn. destruct (pool_focus _ _ _ _ _ _ Hp Hi) as (H & _ & _ & HJ & _).
  destruct t as [| |p|v p| | |j|]; simpl in Ht, Hn; try done.
  - destruct Ht as [-> _]. eexists. split; [done|]. lia.
  - destruct Ht as [-> _]. simpl. destruct (go (shared w)).
    + eexists. split; [exists worker_steps; split; [apply worker_bounded|done]|]. lia.
    + exists n. split; [done|]. by right.
  - destruct Hn as (m & Hm & ->). destruct p as [r|c k|b k| |]; simpl in Ht; try by destruct (HJ 0).
    + destruct Ht as [_ [? ->]]. exists 0%nat. split; [done|]. lia.
    + destruct Ht as [_ [r ->]]. destruct m as [|m]; [done|]. exists (m + 1)%nat. split; [exists m; split; [apply Hm|done]|]. lia.
    + destruct Ht as [-> _]. destruct m as [|[|m]]; [done..|]. exists (m + 2)%nat. split; [by exists m|]. lia.
  - destruct Hn as (m & Hm & ->). destruct Ht as [-> _]. exists (m + 1)%nat. split; [by exists m|]. lia.
  - destruct Ht as [-> _]. simpl. destruct (Z.ltb_spec (ready (shared w)) (Z.of_nat T)).
    + exists n. split; [done|]. right. split; [done|]. lia.
    + eexists. split; [done|]. lia.
  - destruct Ht as [-> _]. eexists. split; [done|]. lia.
  - case_decide; [|done]. destruct Ht as [-> _]. eexists. split; [done|]. lia.
Qed.

Lemma sum_list_insert (ns : list nat) i n n' :
  ns !! i = Some n → (sum_list (<[i := n']> ns) + n = sum_list ns + n')%nat.
Proof. apply (sum_insert id). Qed.

Lemma scaling_step V0 i w w' n :
  scaling_inv V0 w → scaling_rank w n → moves act i w w' →
  ∃ n', scaling_rank w' n' ∧ ((n' < n)%nat ∨ n' = n ∧ ¬ scaling_useful i w).
Proof.
  intros Hw (ns & Hns & ->) (t & t' & Ht & E)%moves_swept. pose proof Ht as [Hi _].
  destruct (Forall2_lookup_l _ _ _ _ _ Hns Hi) as (m & Hm & Hl).
  destruct (swept_left _ _ _ _ _ _ _ Hw Ht Hl) as (m' & Hl' & Hlt). pose proof (sum_list_insert ns i m m' Hm).
  eexists. split; [exists (<[i := m']> ns); split; [rewrite E; by apply Forall2_insert|done]|].
  destruct Hlt as [Hlt|[-> Hn]]; [left; lia|right]. split; [lia|]. intros (u & Hu & Hs). by simplify_eq.
Qed.

(** Nobody has to wait again for what has happened. *)
Lemma sure_kept V0 i w w' t : scaling_inv V0 w → moves act i w w' → sure t (shared w) → sure t (shared w').
Proof.
  intros [_ Hb] (u & u' & (Hi & Hu) & _)%moves_swept Hs.
  assert ((go (shared w) = true → go (shared w') = true) ∧ (Z.of_nat T ≤ ready (shared w) → ready (shared w') = ready (shared w))) as [Hg Hr].
  { destruct u as [| |[]|v p| | |j|]; simpl in Hu; repeat case_match; try done;
      (destruct Hu as [-> [? _]] || destruct Hu as [_ ->]); try done.
    split; [done|]. simpl. pose proof (late_pos _ _ Hi). pose proof (ba_ready _ _ _ Hb). lia. }
  destruct t; simpl in *; auto. by rewrite Hr.
Qed.

Lemma busy_able w i t : threads w !! i = Some t → is_main t = false → t ≠ Ended → able act i w.
Proof. intros Hi Hm Hne. exists t. split; [done|]. destruct t as [| |[]|v p| | |j|]; simpl in *; done. Qed.

Lemma late_or_not ts : (∃ i, ts !! i = Some WReady) ∨ late ts = 0.
Proof.
  induction ts as [|t ts IH]; [by right|]. destruct t; [left; by exists 0%nat|..];
    (destruct IH as [[i Hi]|E]; [left; by exists (Datatypes.S i)|right; exact E]).
Qed.

Lemma scaling_some V0 w : scaling_inv V0 w → ¬ finished act w → ∃ i, scaling_useful i w ∧ able act i w.
Proof.
  intros [_ Hb] (i & t & Hi & Ha)%unfinished.
  destruct (late_or_not (threads w)) as [[j Hj]|El].
  { exists j. split; [by exists WReady|by eapply busy_able]. }
  pose proof (ba_ready _ _ _ Hb) as Er. destruct (lookup_lt_is_Some_2 (threads w) T) as [u Hu]; [rewrite (ba_length _ _ _ Hb); lia|].
  pose proof (ba_role _ _ _ Hb T u Hu) as Hm. rewrite bool_decide_eq_true_2 in Hm by done.
  pose proof (ba_knows _ _ _ Hb T u Hu) as Hk. destruct u as [| | | | | |j|]; try done; simpl in Hk.
  - exists T. split; [exists MReady; split; [done|simpl; lia]|by exists MReady].
  - exists T. split; [by exists MGo|by exists MGo].
  - assert (∀ k v, threads w !! k = Some v → k ≠ T → v ≠ Ended → ∃ i, scaling_useful i w ∧ able act i w) as Hwk.
    { intros k v Hv Hn Hne. pose proof (ba_role _ _ _ Hb k v Hv) as Hr. rewrite bool_decide_eq_false_2 in Hr by done.
      exists k. split; [exists v; split; [done|]|by eapply busy_able]. destruct v; try done. apply Hk. }
    destruct (decide (i = T)) as [->|Hn]; [|apply (Hwk i t Hi Hn); by intros ->].
    simplify_eq. simpl in Ha. case_decide; [|done].
    destruct (lookup_lt_is_Some_2 (threads w) j) as [v Hv]; [rewrite (ba_length _ _ _ Hb); lia|].
    assert (v = Ended ∨ v ≠ Ended) as [->|Hne] by (destruct v; auto); [|apply (Hwk j v Hv); [lia|done]].
    exists T. split; [by exists (MJoin j)|]. exists (MJoin j). split; [done|]. simpl. rewrite decide_True by done. eauto.
Qed.

Lemma scaling_ranking V0 :
  Ranking act holds_at (λ _ H, H = ∅) lt (scaling_inv V0) scaling_rank scaling_useful.
Proof.
  constructor.
  - apply lt_wf.
  - intros w Hw. exists V0. apply Hw.
  - intros i w w' [Hp Hb] Hm. split.
    + eapply (pstep_inv act _ _ (D:=scaling_discipline T fuel per_thread obj Hfuel Hobj)); [done|by exists i].
    + eapply barrier_pstep; [done|done|by exists i].
  - intros i w w' a. apply scaling_step.
  - intros i j w w' Hw (t & Ht & Hs) Hm Hne. exists t. split; [|by eapply sure_kept].
    apply moves_thread in Hm as (u & u' & _ & _ & ->). by rewrite list_lookup_insert_ne.
  - apply scaling_some.
Qed.

Lemma scaling_ends g s sched σ :
  al_inv s → fair_run act (Scaling.start T g s) sched σ → (∀ n, served act (σ n)) → ∃ n, finished act (σ n).
Proof.
  intros Hs Hrun Hserved. pose proof (scaling_ranking (al_view s)) as HR.
  pose proof (scaling_discipline T fuel per_thread obj Hfuel Hobj) as HD.
  assert (∃ n, scaling_rank (Scaling.start T g s) n) as [n Hn].
  { eexists _, (replicate T (worker_steps + 3)%nat ++ [(T + 2)%nat]). split; [|done]. apply Forall2_app; [|by repeat constructor].
    by apply Forall2_replicate. }
  eapply (fair_ends act _ _ _ _ _ _ _ sched σ Hrun Hserved); [|exact Hn]. split.
  - by apply (scaling_pool T fuel per_thread obj Hfuel Hobj g s).
  - apply barrier_start.
Qed.
End scaling.
