(* ===== verification/BenchTheorems.v ===== *)
(** * What the workloads of the benchmark do to an allocator

    The theorems hold for every allocator with the contract [Allocator], so for
    hmalloc, to which the concrete runs here apply them. *)
From Stdlib Require Import ZArith Lia.
From stdpp Require Import base numbers list gmap.
From S2P Require Import Prelude Words Constants Memory Os RegionRegistry State Client Demo ClientLogic Fair Bench BenchRuns BenchThreads BenchEnds.

Section theorems.
Context {S : Type} {A : Allocator S}.

(** [single_thread] ends, whatever the allocator answers: the blocks that were
    there before are there afterwards, with their contents, and no others; at
    least [iters] operations are counted and less than a batch more; and the
    sink has only added up bytes that the workload itself had written. *)
Theorem single_thread_balanced (tid fuel : nat) (iters batch obj g : Z) (s : S)
    (Hf : enough fuel iters batch) (Ho : word obj) (Hg : 0 ≤ g < 256) (Hs : al_inv s)
    (Hroom : has_room tid (single_thread fuel iters batch obj) s) :
  wp (run tid (single_thread fuel iters batch obj)) (λ ops x,
    al_inv (fst x) ∧ a_same (al_view s) (al_view (fst x)) ∧ iters ≤ ops < iters + batch ∧
    ∃ j, 0 ≤ j ≤ ops ∧ snd x = u8 (g + 0xcd * j)) (s, g).
Proof.
  apply (run_balanced _ _ (λ ops g', iters ≤ ops < iters + batch ∧ summed g ops g')); [done| |done]. eapply twp_mono; [by apply twp_single_thread|].
  intros ops H g' (-> & Hops & Hsum). done.
Qed.

(** The same of [single_thread_mixed], whose sizes come from the generator. *)
Theorem single_thread_mixed_balanced (tid fuel : nat) (iters batch g : Z) (s : S)
    (Hf : enough fuel iters batch) (Hg : 0 ≤ g < 256) (Hs : al_inv s)
    (Hroom : has_room tid (single_thread_mixed fuel iters batch) s) :
  wp (run tid (single_thread_mixed fuel iters batch)) (λ ops x,
    al_inv (fst x) ∧ a_same (al_view s) (al_view (fst x)) ∧ iters ≤ ops < iters + batch ∧
    ∃ j, 0 ≤ j ≤ ops ∧ snd x = u8 (g + 0xcd * j)) (s, g).
Proof.
  apply (run_balanced _ _ (λ ops g', iters ≤ ops < iters + batch ∧ summed g ops g')); [done| |done]. eapply twp_mono; [by apply twp_single_thread_mixed|].
  intros ops H g' (-> & Hops & Hsum). done.
Qed.

(** [frag_run] ends and gives back every block it has replaced or kept; the
    final sample is the one after the loop, and the peak is the largest of the
    samples, or zero. *)
Theorem frag_run_balanced (tid : nat) (live_set : Z) (rounds : nat) (rss : nat → Z) (g : Z) (s : S)
    (Hl : 0 < live_set) (Hs : al_inv s) (Hroom : has_room tid (frag_run live_set rounds rss) s) :
  wp (run tid (frag_run live_set rounds rss)) (λ r x,
    al_inv (fst x) ∧ a_same (al_view s) (al_view (fst x)) ∧
    snd r = rss rounds ∧ rss rounds ≤ fst r ∧
    (∀ k, (k < rounds)%nat → Z.land (Z.of_nat k) 0xffff = 0 → rss k ≤ fst r) ∧
    (fst r = 0 ∨ ∃ k, (k ≤ rounds)%nat ∧ fst r = rss k)) (s, g).
Proof.
  apply (run_balanced _ _ (λ r _, snd r = rss rounds ∧ rss rounds ≤ fst r ∧
    (∀ k, (k < rounds)%nat → Z.land (Z.of_nat k) 0xffff = 0 → rss k ≤ fst r) ∧
    (fst r = 0 ∨ ∃ k, (k ≤ rounds)%nat ∧ fst r = rss k))); [done| |done].
  eapply twp_mono; [by apply (twp_frag_run _ _ rss)|].
  intros r H g' (-> & -> & E & (_ & Hall & Hsome) & Hle). split_and!; try done.
  - intros k Hk. apply Hall. lia.
  - destruct Hsome as [|(k & Hk & Ek)]; [by left|right]. exists k. split; [lia|done].
Qed.

(** C35: in [prodcons_run], with the numbers of threads that [scenario_prodcons]
    chooses.  Under every interleaving a call of any thread that finds room returns,
    so no block is used after it is freed or freed twice, and when all threads have
    returned, the queue is empty and every block has been freed.  Under every fair
    schedule, one in which every thread gets its turn again and again, and as long
    as pending calls find room, all threads do return: the consumers, which poll
    until the flag is up and the queue is empty, and the thread that waits for them
    included. *)
Theorem prodcons_run_safe (hardware per_producer obj g : Z) (s : S)
    (Hh : 0 ≤ hardware) (Hpp : word per_producer) (Ho : word obj) (Hs : al_inv s) :
  let P := Z.to_nat (fst (prodcons_threads hardware)) in
  let C := Z.to_nat (snd (prodcons_threads hardware)) in
  let act := ProdCons.prodcons_act P C per_producer obj in
  let w0 := ProdCons.start P C g s in
  (∀ w, rtc (pstep act) w0 w →
    (∀ i t c k, threads w !! i = Some t → act t = Call c k → al_room i (mem w) c →
      wp (al_exec i c) (λ _ s', al_inv s') (mem w)) ∧
    (finished act w → ProdCons.q (shared w) = [] ∧ a_same (al_view s) (al_view (mem w)))) ∧
  (∀ sched σ, fair_run act w0 sched σ → (∀ n, served act (σ n)) →
    ∃ n, finished act (σ n) ∧ ProdCons.q (shared (σ n)) = [] ∧ a_same (al_view s) (al_view (mem (σ n)))).
Proof.
  intros P C act w0.
  assert (∀ w, rtc (pstep act) w0 w → finished act w → ProdCons.q (shared w) = [] ∧ a_same (al_view s) (al_view (mem w))) as Hend.
  { intros w Hw. eapply ProdCons.prodcons_end; [done|done| |done]. pose proof (prodcons_threads_pos hardware Hh). lia. }
  split.
  - intros w Hw. split; [|by apply Hend]. eapply (pool_calls_return act _ _ (D:=ProdCons.prodcons_discipline P C per_producer obj Ho)).
    by eapply ProdCons.prodcons_pool.
  - intros sched σ Hrun Hserved. destruct (prodcons_ends P C per_producer obj Hpp Ho g s sched σ Hs Hrun Hserved) as [n Hn].
    exists n. split; [done|]. apply Hend; [by eapply fair_steps|done].
Qed.

(** C36: in [scaling_run].  Under every interleaving no worker allocates before all
    have reported, a call of any thread that finds room returns, and when all
    threads have returned every block has been freed.  Under every fair schedule,
    and as long as pending calls find room, all threads do return: the workers,
    which spin until they are let go, and the thread that spins until they have
    reported and then waits for them. *)
Theorem scaling_run_safe (T fuel : nat) (per_thread obj g : Z) (s : S)
    (HT : Z.of_nat T < 2 ^ 32) (Hf : enough fuel per_thread 64) (Ho : word obj) (Hs : al_inv s) :
  let act := Scaling.scaling_act T fuel per_thread obj in
  let w0 := Scaling.start T g s in
  (∀ w, rtc (pstep act) w0 w →
    (∀ i p, threads w !! i = Some (Scaling.WRun p) → Scaling.WReady ∉ threads w) ∧
    (∀ i t c k, threads w !! i = Some t → act t = Call c k → al_room i (mem w) c →
      wp (al_exec i c) (λ _ s', al_inv s') (mem w)) ∧
    (finished act w → a_same (al_view s) (al_view (mem w)))) ∧
  (∀ sched σ, fair_run act w0 sched σ → (∀ n, served act (σ n)) →
    ∃ n, finished act (σ n) ∧ a_same (al_view s) (al_view (mem (σ n)))).
Proof.
  intros act w0. assert (∀ w, rtc (pstep act) w0 w → finished act w → a_same (al_view s) (al_view (mem w))) as Hend.
  { intros w Hw Hfin. by eapply Scaling.scaling_end. }
  split.
  - intros w Hw. split_and!; [|eapply (pool_calls_return act _ _ (D:=Scaling.scaling_discipline T fuel per_thread obj Hf Ho));
      by eapply Scaling.scaling_pool|by apply Hend].
    intros i p Hi [j Hj]%list_elem_of_lookup. pose proof (Scaling.scaling_barrier T fuel per_thread obj HT g s w Hw) as Hc.
    destruct (Scaling.ba_knows _ _ _ Hc i _ Hi) as [_ E]. pose proof (Scaling.late_pos _ _ Hj). lia.
  - intros sched σ Hrun Hserved. destruct (scaling_ends T fuel per_thread obj HT Hf Ho g s sched σ Hs Hrun Hserved) as [n Hn].
    exists n. split; [done|]. apply Hend; [by eapply fair_steps|done].
Qed.
End theorems.

(** ** Runs on hmalloc over the simulated kernel *)

Section runs.
Import Demo.

(** Two rounds of two blocks of 64 bytes. *)
Lemma single_thread_balanced_witness :
  wp (ClientLogic.run (S:=State) 0 (single_thread 2 4 2 64)) (λ ops x,
    al_inv (fst x) ∧ a_same (al_view demo0) (al_view (fst x)) ∧ 4 ≤ ops < 4 + 2 ∧
    ∃ j, 0 ≤ j ≤ ops ∧ snd x = u8 (0 + 0xcd * j)) (demo0, 0).
Proof.
  apply (single_thread_balanced 0 2 4 2 64 0 demo0); [split; lia|split; lia|lia|apply inv0|].
  apply (room_checked_sound room 0 (single_thread 2 4 2 64) demo0); [apply room_sound|vm_compute; reflexivity].
Defined.

Lemma single_thread_mixed_balanced_witness :
  wp (ClientLogic.run (S:=State) 0 (single_thread_mixed 2 3 2)) (λ ops x,
    al_inv (fst x) ∧ a_same (al_view demo0) (al_view (fst x)) ∧ 3 ≤ ops < 3 + 2 ∧
    ∃ j, 0 ≤ j ≤ ops ∧ snd x = u8 (0 + 0xcd * j)) (demo0, 0).
Proof.
  apply (single_thread_mixed_balanced 0 2 3 2 0 demo0); [split; lia|lia|apply inv0|].
  apply (room_checked_sound room 0 (single_thread_mixed 2 3 2) demo0); [apply room_sound|vm_compute; reflexivity].
Defined.

(** Four rounds over two slots, with resident sizes that grow. *)
Lemma frag_run_balanced_witness :
  wp (ClientLogic.run (S:=State) 0 (frag_run 2 4 (λ k, 4096 * Z.of_nat k))) (λ r x,
    al_inv (fst x) ∧ a_same (al_view demo0) (al_view (fst x)) ∧ snd r = 4096 * Z.of_nat 4 ∧ 4096 * Z.of_nat 4 ≤ fst r ∧
    (∀ k, (k < 4)%nat → Z.land (Z.of_nat k) 0xffff = 0 → 4096 * Z.of_nat k ≤ fst r) ∧
    (fst r = 0 ∨ ∃ k, (k ≤ 4)%nat ∧ fst r = 4096 * Z.of_nat k)) (demo0, 0).
Proof.
  apply (frag_run_balanced 0 2 4 (λ k, 4096 * Z.of_nat k) 0 demo0); [lia|apply inv0|].
  apply (room_checked_sound room 0 (frag_run 2 4 (λ k, 4096 * Z.of_nat k)) demo0); [apply room_sound|vm_compute; reflexivity].
Defined.

(** In turns. *)
Definition round_robin (k n : nat) : nat := n mod k.
Lemma round_robin_fair k i n : (i < k)%nat → ∃ m, (n ≤ m)%nat ∧ round_robin k m = i.
Proof.
  intros Hi. exists (i + n * k)%nat. split; [nia|]. unfold round_robin. rewrite Nat.Div0.mod_add. by apply Nat.mod_small.
Qed.

(** One producer and one consumer, two blocks, in turns: the consumer polls an
    empty queue, frees a block of the other thread, and leaves last. *)
Definition prodcons_demo : nat → pool ProdCons.prodcons_pc ProdCons.prodcons_vars State :=
  by_turns (ProdCons.prodcons_act 1 1 2 64) room (round_robin 3) (ProdCons.start 1 1 0 demo0).

Lemma prodcons_demo_fair :
  fair_run (ProdCons.prodcons_act 1 1 2 64) (ProdCons.start 1 1 0 demo0) (round_robin 3) prodcons_demo ∧
  ∀ n, served (ProdCons.prodcons_act 1 1 2 64) (prodcons_demo n).
Proof.
  apply (by_turns_fair _ room) with (N := 72%nat); [apply room_sound|vm_compute; reflexivity|].
  intros i n. apply round_robin_fair.
Qed.

Lemma prodcons_run_safe_witness :
  ∃ n, finished (ProdCons.prodcons_act 1 1 2 64) (prodcons_demo n) ∧ ProdCons.q (shared (prodcons_demo n)) = [] ∧
    a_same (view demo0) (view (mem (prodcons_demo n))).
Proof.
  destruct (prodcons_run_safe 1 2 64 0 demo0 ltac:(lia) ltac:(split; lia) ltac:(split; lia) inv0) as [_ Hend].
  exact (Hend _ _ (proj1 prodcons_demo_fair) (proj2 prodcons_demo_fair)).
Defined.

(** Two workers, one batch of 64 blocks each, in turns. *)
Definition scaling_demo : nat → pool Scaling.scaling_pc Scaling.scaling_vars State :=
  by_turns (Scaling.scaling_act 2 1 64 32) room (round_robin 3) (Scaling.start 2 0 demo0).

Lemma scaling_demo_fair :
  fair_run (Scaling.scaling_act 2 1 64 32) (Scaling.start 2 0 demo0) (round_robin 3) scaling_demo ∧
  ∀ n, served (Scaling.scaling_act 2 1 64 32) (scaling_demo n).
Proof.
  apply (by_turns_fair _ room) with (N := 1500%nat); [apply room_sound|vm_compute; reflexivity|].
  intros i n. apply round_robin_fair.
Qed.

Lemma scaling_run_safe_witness :
  ∃ n, finished (Scaling.scaling_act 2 1 64 32) (scaling_demo n) ∧ a_same (view demo0) (view (mem (scaling_demo n))).
Proof.
  destruct (scaling_run_safe 2 1 64 32 0 demo0 ltac:(lia) ltac:(split; lia) ltac:(split; lia) inv0) as [_ Hend].
  exact (Hend _ _ (proj1 scaling_demo_fair) (proj2 scaling_demo_fair)).
Defined.
End runs.
