(* ===== verification/BenchMain.v ===== *)
(** * The scenarios and the entry point of the benchmark (bench/bench.cpp)

    [main] runs the scenarios that its argument selects; a scenario runs one
    workload, or one for each thread count, first on the system allocator and then
    on hmalloc.  The system allocator is not code of the repository: it is a
    second state with the contract [Allocator].  Both share [g_sink].  What is
    printed, which is made of the measured times, is not modelled. *)
From Stdlib Require Import ZArith Lia.
From stdpp Require Import base numbers list gmap strings.
From S2P Require Import Prelude Words Constants Memory Os RegionRegistry State Client Demo ClientLogic Fair Bench BenchRuns BenchThreads BenchEnds.
Open Scope Z_scope.

(** ** The scenarios *)

(** A call of one of the function templates, with its arguments. *)
Inductive workload :=
  | WSingle (iters batch obj : Z)
  | WMixed (iters batch : Z)
  | WScaling (T per_thread obj : Z)
  | WProdcons (P C per_producer obj : Z)
  | WFrag (live_set rounds : Z).

Definition scenario_single (iters obj : Z) : list workload := [WSingle iters 256 obj].
Definition scenario_mixed (iters : Z) : list workload := [WMixed iters 256].
(** As far as the loop over thread counts gets in [fuel] rounds, and whether it has
    ended. *)
Definition scenario_scaling (fuel : nat) (hardware per_thread obj : Z) : list workload * bool :=
  let cores := if hardware =? 0 then 4 else hardware in
  let Ts := scaling_prefix fuel 1 cores in
  (map (λ T, WScaling T per_thread obj) (fst Ts), snd Ts).
Definition scenario_prodcons (hardware per_producer obj : Z) : list workload :=
  let (P, C) := prodcons_threads hardware in [WProdcons P C per_producer obj].
Definition scenario_frag (live_set rounds : Z) : list workload := [WFrag live_set rounds].

(** [main]: [argv1] is the first argument, if there is one; the answer is the
    workloads in the order they run, and whether the program gets past the loop of
    [scenario_scaling] in [fuel] rounds; if not, these are the ones it runs up to
    then. *)
Definition main (fuel : nat) (argv1 : option string) (hardware : Z) : list workload * bool :=
  let which := default "all"%string argv1 in
  let all := bool_decide (which = "all"%string) in
  let chosen name := all || bool_decide (which = name) in
  let scaling := if chosen "scaling"%string then scenario_scaling fuel hardware 2000000 64 else ([], true) in
  ((if chosen "single"%string then scenario_single 20000000 64 else []) ++
   (if chosen "mixed"%string then scenario_mixed 10000000 else []) ++
   fst scaling ++
   (if snd scaling then
      (if chosen "prodcons"%string then scenario_prodcons hardware 2000000 64 else []) ++
      (if chosen "frag"%string then scenario_frag 200000 4000000 else [])
    else []),
   snd scaling).

(** [rss_bytes] on Linux: [statm] is the number of pages that [fscanf] reads, or
    nothing when the file cannot be opened or read. *)
Definition rss_bytes (page_size : Z) (statm : option Z) : Z :=
  match statm with Some pages => u64 (u64 pages * page_size) | None => 0 end.

(** ** Running them *)

(** Rounds that are enough for [iters] operations. *)
Definition rounds_for (iters batch : Z) : nat := Z.to_nat (iters / batch + 1).

Section workloads.
(** [me] is the thread that runs [main], [rss] the resident sizes it samples. *)
Context {S : Type} {A : Allocator S} (me : nat) (rss : nat → Z).
Implicit Types (x : S * Z).

(** The workloads that have one thread, as programs. *)
Definition sequential (wl : workload) : option (prog unit) :=
  match wl with
  | WSingle iters batch obj => Some (single_thread (rounds_for iters batch) iters batch obj;; mret tt)
  | WMixed iters batch => Some (single_thread_mixed (rounds_for iters batch) iters batch;; mret tt)
  | WFrag live_set rounds => Some (frag_run live_set (Z.to_nat rounds) rss;; mret tt)
  | _ => None
  end.

(** A workload runs from start to end, with the value of [g_sink] before and
    after it. *)
Inductive workload_ends : workload → S * Z → S * Z → Prop :=
  | we_sequential wl p s g x' :
      sequential wl = Some p → has_room me p s → run me p (s, g) = Ok (tt, x') → workload_ends wl (s, g) x'
  | we_scaling T per_thread obj s g w :
      let act := Scaling.scaling_act (Z.to_nat T) (rounds_for per_thread 64) per_thread obj in
      rtc (pstep act) (Scaling.start (Z.to_nat T) g s) w → finished act w →
      workload_ends (WScaling T per_thread obj) (s, g) (mem w, Scaling.g_sink (shared w))
  | we_prodcons P C per_producer obj s g w :
      let act := ProdCons.prodcons_act (Z.to_nat P) (Z.to_nat C) per_producer obj in
      rtc (pstep act) (ProdCons.start (Z.to_nat P) (Z.to_nat C) g s) w → finished act w →
      workload_ends (WProdcons P C per_producer obj) (s, g) (mem w, ProdCons.g_sink (shared w)).

(** Every call that finds room returns, in whatever order the threads take their
    steps, and under every fair schedule all threads return, as long as pending
    calls find room. *)
Definition pool_safe {T X} (act : T → action T X) (w0 : pool T X S) : Prop :=
  (∀ w, rtc (pstep act) w0 w → ∀ i t c k, threads w !! i = Some t → act t = Call c k → al_room i (mem w) c →
    wp (al_exec i c) (λ _ s', al_inv s') (mem w)) ∧
  (∀ sched σ, fair_run act w0 sched σ → (∀ n, served act (σ n)) → ∃ n, finished act (σ n)).

(** A workload of one thread ends; so do the others under a fair schedule. *)
Definition workload_safe (wl : workload) (s : S) (g : Z) : Prop :=
  match wl with
  | WScaling T per_thread obj =>
      pool_safe (Scaling.scaling_act (Z.to_nat T) (rounds_for per_thread 64) per_thread obj) (Scaling.start (Z.to_nat T) g s)
  | WProdcons P C per_producer obj =>
      pool_safe (ProdCons.prodcons_act (Z.to_nat P) (Z.to_nat C) per_producer obj) (ProdCons.start (Z.to_nat P) (Z.to_nat C) g s)
  | _ => ∀ p, sequential wl = Some p → has_room me p s → ∃ x', workload_ends wl (s, g) x'
  end.

(** Arguments for which a workload ends and gives back what it takes. *)
Definition workload_ok (wl : workload) : Prop :=
  match wl with
  | WSingle iters batch obj => enough (rounds_for iters batch) iters batch ∧ word obj
  | WMixed iters batch => enough (rounds_for iters batch) iters batch
  | WScaling T per_thread obj => T < 2 ^ 32 ∧ enough (rounds_for per_thread 64) per_thread 64 ∧ word obj
  | WProdcons P C per_producer obj => 0 < C ∧ word per_producer ∧ word obj
  | WFrag live_set rounds => 0 < live_set
  end.

Lemma sequential_balanced wl p g :
  workload_ok wl → sequential wl = Some p → twp p (λ _ H _, H = ∅) ∅ g.
Proof.
  intros Hok E. apply (twp_sink _ _ _ 0); [done|].
  destruct wl as [iters batch obj|iters batch| | |live_set rounds]; simplify_eq/=; apply twp_bind; eapply twp_mono.
  - apply twp_single_thread; [apply Hok|apply Hok|lia].
  - intros r H g' HQ. apply twp_ret, HQ.
  - apply twp_single_thread_mixed; [apply Hok|lia].
  - intros r H g' HQ. apply twp_ret, HQ.
  - by apply (twp_frag_run _ _ rss).
  - intros r H g' HQ. apply twp_ret, HQ.
Qed.

Lemma workload_runs wl s g : workload_ok wl → al_inv s → workload_safe wl s g.
Proof.
  intros Hok Hs. assert (∀ p, sequential wl = Some p → has_room me p s → ∃ x', workload_ends wl (s, g) x') as Hseq.
  { intros p E Hr. pose proof (run_balanced me p (λ _ _, True) g s Hs) as Hw.
    apply wp_ok in Hw as ([] & x' & Ex & _); [|eapply twp_mono; [by eapply sequential_balanced|done]|done].
    exists x'. by eapply we_sequential. }
  destruct wl as [| |T per_thread obj|P C per_producer obj|]; try exact Hseq; simpl in Hok |- *; split.
  - destruct Hok as (HT & He & Ho). intros w Hw. eapply (pool_calls_return _ _ _ (D:=Scaling.scaling_discipline _ _ _ _ He Ho)).
    by eapply Scaling.scaling_pool.
  - destruct Hok as (HT & He & Ho). intros sched σ. apply scaling_ends; try done. lia.
  - destruct Hok as (HC & Hp & Ho). intros w Hw. eapply (pool_calls_return _ _ _ (D:=ProdCons.prodcons_discipline _ _ _ _ Ho)).
    by eapply ProdCons.prodcons_pool.
  - destruct Hok as (HC & Hp & Ho). intros sched σ. by apply prodcons_ends.
Qed.

Lemma workload_balanced wl x x' :
  workload_ok wl → al_inv (fst x) → workload_ends wl x x' →
  al_inv (fst x') ∧ a_same (al_view (fst x)) (al_view (fst x')).
Proof.
  intros Hok Hs He. destruct He as [wl p s g x' E Hr Hrun|T per_thread obj s g w act Hw Hf|P C per_producer obj s g w act Hw Hf]; simpl in *.
  - pose proof (run_balanced me p (λ _ _, True) g s Hs) as Hb. unfold wp in Hb. rewrite Hrun in Hb.
    destruct Hb as (? & ? & _); [eapply twp_mono; [by eapply sequential_balanced|done]|done|done].
  - destruct Hok as (HT & Hen & Ho). split; [by eapply Scaling.scaling_pool|by eapply Scaling.scaling_end].
  - split; [eapply ProdCons.prodcons_pool; [apply Hok|done|done]|]. eapply ProdCons.prodcons_end; [apply Hok|done| |done|done]. lia.
Qed.
End workloads.

(** ** The whole program *)

(** The arguments that [main] passes are good ones, on every machine. *)
Lemma scaling_counts fuel T cores : Forall (λ T, T ≤ cores) (fst (scaling_prefix fuel T cores)).
Proof.
  revert T. induction fuel as [|f IH]; intros T; [by constructor|]. simpl.
  destruct (Z.leb_spec T cores); constructor; auto.
Qed.

Lemma rounds_enough iters batch : 0 < batch → 0 ≤ iters → iters + batch ≤ 2 ^ 64 → enough (rounds_for iters batch) iters batch.
Proof.
  intros Hb Hi Hw. split_and!; try done. unfold rounds_for.
  pose proof (Z.div_mod iters batch). pose proof (Z.mod_pos_bound iters batch). pose proof (Z.div_pos iters batch). nia.
Qed.

Lemma Forall_if {A} (P : A → Prop) (b : bool) l : Forall P l → Forall P (if b then l else []).
Proof. by destruct b. Qed.

Lemma main_ok fuel argv1 hardware :
  0 ≤ hardware < 2 ^ 32 → Forall workload_ok (fst (main fuel argv1 hardware)).
Proof.
  intros Hh. assert (Forall workload_ok (fst (scenario_scaling fuel hardware 2000000 64))) as Hs.
  { apply Forall_map. eapply Forall_impl; [apply scaling_counts|]. intros T HT. simpl in *.
    split_and!; [destruct (hardware =? 0); lia|apply rounds_enough; lia|split; lia]. }
  pose proof (prodcons_threads_pos hardware ltac:(lia)) as Hp. unfold main, scenario_prodcons.
  destruct (prodcons_threads hardware) as [P C]. simpl in Hp |- *. rewrite !Forall_app. split_and!.
  - apply Forall_if, Forall_singleton. split; [apply rounds_enough; lia|split; lia].
  - apply Forall_if, Forall_singleton, rounds_enough; lia.
  - by destruct (_ || _).
  - apply Forall_if, Forall_app. split; apply Forall_if, Forall_singleton; [split_and!; [lia|split; lia|split; lia]|simpl; lia].
Qed.

(** [main] does not get past the scaling scenario exactly when that is among the
    chosen ones and its loop over thread counts does not end. *)
Lemma main_chosen fuel argv1 hardware :
  snd (main fuel argv1 hardware) = false ↔
  scenario_scaling_threads fuel hardware = None ∧ (argv1 = None ∨ argv1 = Some "all"%string ∨ argv1 = Some "scaling"%string).
Proof.
  unfold main, scenario_scaling, scenario_scaling_threads. rewrite scaling_loop_prefix. cbn [snd fst].
  set (x := scaling_prefix _ _ _). destruct argv1 as [which|]; simpl.
  - destruct (decide (which = "all"%string)) as [->|Ha]; [simpl; destruct (snd x); naive_solver|].
    destruct (decide (which = "scaling"%string)) as [->|Hs]; [simpl; destruct (snd x); naive_solver|].
    rewrite (bool_decide_eq_false_2 _ Ha), (bool_decide_eq_false_2 _ Hs). simpl. naive_solver.
  - destruct (snd x); naive_solver.
Qed.

Section main.
Context {S1 S2 : Type} {Sys : Allocator S1} {Hm : Allocator S2} (me : nat) (rss : nat → Z).

(** The two allocators and [g_sink]. *)
Record process := mkProcess { sys : S1; hm : S2; sink_byte : Z }.

(** Every workload runs on the system allocator, then on hmalloc. *)
Inductive main_runs : list workload → process → process → Prop :=
  | mr_done x : main_runs [] x x
  | mr_workload wl ws x s1 g1 s2 g2 x' :
      workload_ends me rss wl (sys x, sink_byte x) (s1, g1) → workload_ends me rss wl (hm x, g1) (s2, g2) →
      main_runs ws (mkProcess s1 s2 g2) x' → main_runs (wl :: ws) x x'.

Definition both_inv (x : process) : Prop := al_inv (sys x) ∧ al_inv (hm x).
Definition both_same (x x' : process) : Prop :=
  a_same (al_view (sys x)) (al_view (sys x')) ∧ a_same (al_view (hm x)) (al_view (hm x')).

Lemma a_same_refl V : a_same V V.
Proof. by split. Qed.

Lemma a_same_trans V1 V2 V3 : a_same V1 V2 → a_same V2 V3 → a_same V1 V3.
Proof.
  intros [Hb Hk] [Hb' Hk']. split; [intros b n; by rewrite Hb'|].
  intros b n a Hbn Hn Ha. rewrite (Hk' b n a); [by eapply Hk|by apply Hb|done|done].
Qed.

Lemma main_runs_balanced ws x x' :
  Forall workload_ok ws → both_inv x → main_runs ws x x' → both_inv x' ∧ both_same x x'.
Proof.
  intros Hws Hx Hr. revert Hws Hx. induction Hr as [x|wl ws x s1 g1 s2 g2 x' H1 H2 Hr IH]; intros Hws [Hi1 Hi2].
  { split; [by split|]. split; apply a_same_refl. }
  apply Forall_cons in Hws as [Hwl Hws].
  destruct (workload_balanced me rss wl (sys x, sink_byte x) (s1, g1) Hwl Hi1 H1) as [Hi1' Hs1].
  destruct (workload_balanced me rss wl (hm x, g1) (s2, g2) Hwl Hi2 H2) as [Hi2' Hs2].
  destruct (IH Hws) as [? [? ?]]; [by split|]. split; [done|]. split; by eapply a_same_trans.
Qed.

(** C37: the benchmark program, whatever scenario is asked for and however many
    threads the machine has, as far as it gets in any number of rounds of its loop
    over thread counts.  Every workload it runs is safe on both allocators: a
    single-threaded one ends; of the others every call that finds room returns,
    under every interleaving, and under every fair schedule all threads return.
    Between any two workloads, and at the end, both allocators hold the blocks they
    held at the start, with their contents.  And the program gets past the scaling
    scenario unless that scenario is asked for and its loop does not end in those
    rounds. *)
Theorem main_safe (fuel : nat) (argv1 : option string) (hardware : Z) (x : process)
    (Hh : 0 ≤ hardware < 2 ^ 32) (Hx : both_inv x) :
  (∀ wl s g, wl ∈ fst (main fuel argv1 hardware) → al_inv s → workload_safe (A:=Sys) me rss wl s g) ∧
  (∀ wl s g, wl ∈ fst (main fuel argv1 hardware) → al_inv s → workload_safe (A:=Hm) me rss wl s g) ∧
  (∀ ws1 ws2 x', fst (main fuel argv1 hardware) = ws1 ++ ws2 → main_runs ws1 x x' → both_inv x' ∧ both_same x x') ∧
  (snd (main fuel argv1 hardware) = false ↔
    scenario_scaling_threads fuel hardware = None ∧ (argv1 = None ∨ argv1 = Some "all"%string ∨ argv1 = Some "scaling"%string)).
Proof.
  pose proof (main_ok fuel argv1 hardware Hh) as Hok. split_and!; [| | |apply main_chosen].
  - intros wl s g Hwl Hs. apply workload_runs; [|done]. by eapply Forall_forall in Hok.
  - intros wl s g Hwl Hs. apply workload_runs; [|done]. by eapply Forall_forall in Hok.
  - intros ws1 ws2 x' E. rewrite E in Hok. apply Forall_app in Hok as [Hok _]. by apply main_runs_balanced.
Qed.
End main.

Section witness.
Import Demo.

(** The scaling scenario on a machine with three threads, where the loop does not
    end, with hmalloc in the place of the system allocator too, as under
    [LD_PRELOAD]. *)
Lemma main_safe_witness :
  let x := mkProcess demo0 demo0 0 in
  main 3 (Some "scaling"%string) 3 = ([WScaling 1 2000000 64; WScaling 2 2000000 64; WScaling 2 2000000 64], false) ∧
  workload_safe 0 (rss_bytes 4096 ∘ λ _, Some 10) (WScaling 2 2000000 64) demo0 0 ∧
  ∀ x', main_runs 0 (rss_bytes 4096 ∘ λ _, Some 10) [WScaling 1 2000000 64; WScaling 2 2000000 64] x x' → both_same x x'.
Proof.
  cbv zeta. assert (main 3 (Some "scaling"%string) 3 =
    ([WScaling 1 2000000 64; WScaling 2 2000000 64; WScaling 2 2000000 64], false)) as E by (vm_compute; reflexivity).
  destruct (main_safe 0 (rss_bytes 4096 ∘ λ _, Some 10) 3 (Some "scaling"%string) 3 (mkProcess demo0 demo0 0)
    ltac:(lia)) as (Hs & _ & Hb & _); [split; apply inv0|]. rewrite E in Hs, Hb.
  split; [exact E|]. split; [apply Hs; [set_solver|apply inv0]|]. intros x' Hx. apply (Hb [WScaling 1 2000000 64; WScaling 2 2000000 64] [WScaling 2 2000000 64] x' eq_refl Hx).
Defined.
End witness.
