(* ===== verification/ApiTheorems.v ===== *)
(** * What the allocator promises its clients

    The contract of the public API as theorems about complete calls, each applied
    to a concrete run of [Demo]. *)
From Stdlib Require Import ZArith Lia.
From stdpp Require Import base numbers list gmap.
From S2P Require Import Prelude Words Constants SizeClass Segment Memory Os Chains Sums RegionRegistry State Regions PageOps Allocated Central CentralInv CentralSpec PoolSpec CentralOps Acquire Heap Hmalloc HeapInv HeapLinks HeapSpec HeapCreate HeapMalloc HeapFree HeapExit LargeSpec HmallocSpec ApiSpec Client Override Demo.

Section api_theorems.
Context {K : Kernel} {KL : KernelLaws K} {Lg : Ledger} {C : Config}.
Implicit Types (st : State).

(** C1: refinement.  Every entry point of the API, run by any thread in a state
    that satisfies the invariant and on arguments that respect the contract,
    returns, keeps the invariant, and does to the set of allocated blocks and
    their contents exactly what the abstract allocator allows: new blocks are
    disjoint from all others, large enough and aligned, freed blocks disappear,
    and no other block is moved or changed. *)
Theorem api_refinement (tid : nat) (c : call) st
    (Hinv : inv st) (Hok : call_ok (view st) c) (Hroom : call_room tid st c) :
  ∃ r st', exec tid c st = Ok (r, st') ∧ inv st' ∧ astep (view st) c r (view st').
Proof. by apply wp_ok, exec_spec. Qed.

(** C2: memory safety of whole runs, and the only ways it ends.  From the start of
    the program any threads make any calls within the contract.  In every state
    reached without a hazard the invariant holds, and the next call either returns,
    doing what the abstract allocator allows and leading to such a state again, or
    is an allocating call that meets a hazard: its thread has no heap and the kernel
    refuses to map one, or the registry's table has fewer than two EMPTY slots left.
    So without a hazard no call faults or loops for ever, a call that allocates
    nothing never does, and a hazard is the only way to leave the states for which
    this is claimed. *)
Theorem reachable_safe (o : OsState) (tid : nat) (c : call) st
    (Hreach : reach o st) (Hok : call_ok (view st) c) :
  inv (Lg:=unknown) st ∧
  ((∃ r st', exec tid c st = Ok (r, st') ∧ astep (view st) c r (view st') ∧ reach o st') ∨ hazard tid st c).
Proof.
  pose proof (reach_inv _ _ Hreach) as Hi. split; [done|].
  destruct (room_or_hazard tid c st) as [Hroom|]; [left|by right].
  destruct (proj1 (wp_ok _ _ _) (exec_spec tid c st Hi Hok Hroom)) as (r & st' & He & _ & Hs).
  exists r, st'. split_and!; try done. by eapply reach_step.
Qed.

(** C3: the same from the start of the program without a condition on the state:
    as long as the kernel has refused no mapping of at most 2^48 bytes, every call
    by any thread within the contract returns and does what the abstract allocator
    allows, unless the kernel refuses the memory for the thread's own heap at that
    moment; the registry holds every region and has slots to spare. *)
Theorem calm_reachable_safe {Cm : Calm K} (o : OsState) (tid : nat) (c : call) st
    (Hreach : calm_reach o st) (Hcalm : calm (kern (os st))) (Hok : call_ok (view st) c) :
  reach o st ∧ (∃ X, reg_wf (registry st) X ∧ reg_room (registry st) ∧ ∀ b, b ∈ X ↔ is_region st b) ∧
  ((∃ r st', exec tid c st = Ok (r, st') ∧ astep (view st) c r (view st') ∧ calm_reach o st') ∨
   (null_heap tid st ∧ ∃ o', os_alloc_aligned heap_bytes os_page_size (os st) = Ok (None, o') ∧ ¬ calm (kern o'))).
Proof.
  destruct (calm_reach_inv o st Hreach) as [Hi Hr]. split_and!; [done| |].
  - destruct (mo_registry (hk_mem (iv_hok Hi))) as (X & Hwf & _ & HX & _ & HC). destruct (HC Hcalm) as [Hroom Hall].
    exists X. split_and!; try done. intros b. split; auto.
  - destruct (heap_or_refused tid c st) as [Hh|Hn]; [left|right; split; [done|by apply (null_heap_refused tid)]].
    pose proof (calm_room tid c st Hi Hcalm Hh) as Hroom.
    destruct (proj1 (wp_ok _ _ _) (exec_spec tid c st Hi Hok Hroom)) as (r & st' & He & _ & Hs).
    exists r, st'. split_and!; try done. by eapply calm_step.
Qed.

(** C4: in every reachable state the blocks the clients hold lie in mapped memory,
    are 16-byte aligned, and any two that share a byte are the same block. *)
Theorem reachable_blocks_disjoint (o : OsState) st (b n b' n' : Z)
    (Hreach : reach o st) (Hb : allocated st b n) (Hb' : allocated st b' n') :
  0 < b ∧ b mod ALLOC_ALIGN = 0 ∧ b + n ≤ 2 ^ 64 ∧ (∀ x, b ≤ x < b + n → mapped (os st) x = true) ∧
  ((b' = b ∧ n' = n) ∨ b + n ≤ b' ∨ b' + n' ≤ b).
Proof.
  pose proof (hk_mem (iv_hok (reach_inv _ _ Hreach))) as Hm. destruct (allocated_aligned st b n Hm Hb) as [H16 He].
  split_and!; try done; [by apply (allocated_pos st b n Hm)|intros x; by apply (allocated_mapped st b n x Hm)|].
  by apply (allocated_disjoint st b n b' n' Hm).
Qed.

(** C5: hm_malloc either returns a block of at least [size] bytes, 16-byte aligned,
    at an address that was not allocated, leaving every other block in place, or
    null with nothing changed for the client. *)
Theorem hm_malloc_correct (tid : nat) (size : Z) st
    (Hinv : inv st) (Hma : may_alloc tid st) (Hsz : 0 ≤ size < 2 ^ 64) :
  ∃ x st', hm_malloc tid size st = Ok (x, st') ∧ alloc_post st size ALLOC_ALIGN x st'.
Proof. by apply wp_ok, hm_malloc_spec. Qed.

(** C6: hm_free of a block the client holds, by whatever thread, removes exactly
    that block; all others keep their place and contents. *)
Theorem hm_free_correct (tid : nat) (p n : Z) st (Hinv : inv st) (Hp : allocated st p n) :
  ∃ st', hm_free tid (Some p) st = Ok (tt, st') ∧ inv st' ∧ alloc_minus st st' p.
Proof. destruct (proj1 (wp_ok _ _ _) (hm_free_spec st tid p n Hinv Hp)) as ([] & st' & ? & ?). eauto. Qed.

(** C7: hm_realloc keeps the first min(old, new) bytes: the result has at least
    [size] bytes, holds what the old block held, and replaces it; on failure the
    old block stays; with [size] zero the block is freed. *)
Theorem hm_realloc_correct (tid : nat) (p n size : Z) st
    (Hinv : inv st) (Hma : may_alloc tid st) (Hp : allocated st p n) (Hsz : 0 ≤ size < 2 ^ 64) :
  ∃ x st', hm_realloc tid (Some p) size st = Ok (x, st') ∧ realloc_post st p n size x st'.
Proof. by apply wp_ok, hm_realloc_spec. Qed.

(** C8: hm_calloc returns at least [nmemb * size] bytes (the product does not
    wrap), all zero, recycled block or fresh mapping. *)
Theorem hm_calloc_correct (tid : nat) (nmemb size : Z) st
    (Hinv : inv st) (Hma : may_alloc tid st) (Hn : 0 ≤ nmemb < 2 ^ 64) (Hs : 0 ≤ size < 2 ^ 64) :
  ∃ x st', hm_calloc tid nmemb size st = Ok (x, st') ∧ calloc_post st nmemb size x st'.
Proof. by apply wp_ok, hm_calloc_spec. Qed.

(** C9: hm_aligned_alloc returns a block aligned to [alignment], from a size class
    whose blocks are all so aligned or from a large region, or null. *)
Theorem hm_aligned_alloc_correct (tid : nat) (alignment size : Z) st
    (Hinv : inv st) (Hma : may_alloc tid st) (Ha : 0 ≤ alignment < 2 ^ 64) (Hs : 0 ≤ size < 2 ^ 64) :
  ∃ x st', hm_aligned_alloc tid alignment size st = Ok (x, st') ∧
    alloc_post st size alignment x st' ∧ (is_Some x → pow2 alignment ∧ 0 < size).
Proof. by apply wp_ok, hm_aligned_spec. Qed.

(** C10: malloc then free, by the same or another thread, is a round trip: the
    client holds again exactly what it held before, unchanged. *)
Theorem malloc_free_roundtrip (tid tid' : nat) (size p : Z) st st1
    (Hinv : inv st) (Hma : may_alloc tid st) (Hsz : 0 ≤ size < 2 ^ 64)
    (Hm : hm_malloc tid size st = Ok (Some p, st1)) :
  ∃ st2, hm_free tid' (Some p) st1 = Ok (tt, st2) ∧ inv st2 ∧ same_alloc st st2.
Proof.
  pose proof (hm_malloc_spec st tid size Hinv Hma Hsz) as Hw. unfold wp in Hw. rewrite Hm in Hw.
  destruct Hw as [Hi (n & (Hf & A & B) & _)].
  destruct (proj1 (wp_ok _ _ _) (hm_free_spec st1 tid' p n Hi ltac:(apply A; by left))) as ([] & st2 & He & Hi2 & A2 & B2).
  exists st2. split_and!; [done..|]. split.
  - intros b m. rewrite A2, A. split; [naive_solver|]. intros Hb. split; [by right|]. intros ->. by apply (Hf m).
  - intros b m Hb x Hx. rewrite (B2 b m), (B b m); try done; [apply A; by right|]. intros ->. by apply (Hf m).
Qed.

(** C31: the error paths.  A zero size, a product that overflows, and an alignment
    that is not a power of two or that no region can serve give null and change
    nothing at all. *)
Theorem api_rejects (tid : nat) (nmemb size alignment : Z) st
    (Hn : 0 ≤ nmemb < 2 ^ 64) (Hs : 0 ≤ size < 2 ^ 64) (Ha : 0 ≤ alignment < 2 ^ 64) :
  hm_malloc tid 0 st = Ok (None, st) ∧
  (nmemb = 0 ∨ size = 0 ∨ 2 ^ 64 ≤ nmemb * size → hm_calloc tid nmemb size st = Ok (None, st)) ∧
  (size = 0 ∨ ¬ pow2 alignment ∨ SEGMENT_SIZE / 2 < alignment → hm_aligned_alloc tid alignment size st = Ok (None, st)).
Proof.
  split_and!; [done|..].
  - unfold hm_calloc. intros H. destruct (Z.eqb_spec nmemb 0); [done|]. destruct (Z.eqb_spec size 0); [done|]. cbn [orb].
    destruct H as [|[|H]]; [done..|]. destruct (Z.ltb_spec (SIZE_MAX / size) nmemb) as [|Hle]; [done|exfalso].
    destruct (calloc_total nmemb size) as [_ ?]; lia.
  - unfold hm_aligned_alloc. intros H. destruct (Z.eqb_spec size 0) as [|Hne]; [done|].
    destruct ((alignment =? 0) || _) eqn:Et; [done|]. pose proof (aligned_test alignment Ha Et) as Hp.
    assert (SEGMENT_SIZE / 2 < alignment) as Hlt by (destruct H as [|[|]]; done).
    assert (SEGMENT_SIZE / 2 = 2097152 ∧ ALLOC_ALIGN = 16 ∧ SMALL_SIZE_MAX = 16384) as (E1 & E2 & E3) by done.
    destruct (Z.leb_spec alignment ALLOC_ALIGN); [lia|]. cbv zeta.
    destruct (Z.leb_spec (if alignment <? size then size else alignment) SMALL_SIZE_MAX) as [Hle|_].
    + destruct (Z.ltb_spec alignment size); lia.
    + by destruct (Z.ltb_spec (SEGMENT_SIZE / 2) alignment); [|lia].
Qed.

(** C17: the exit of a thread returns and is invisible to the clients: its empty
    pages go back to the pool, pages with live blocks are abandoned, every block
    stays where it is, and the thread's heap is gone. *)
Theorem thread_exit_correct (tid : nat) st (Hinv : inv st) :
  ∃ st', thread_exit tid st = Ok (tt, st') ∧ inv st' ∧ same_alloc st st' ∧ t_heap st' = delete tid (t_heap st).
Proof.
  destruct (proj1 (wp_ok _ _ _) (thread_exit_spec st tid (iv_hok Hinv))) as ([] & st' & He & [E1 E2 E3 E4 [E5 E6 E7]]).
  exists st'. split_and!; try done. apply inv_intro; [done|apply E3, Hinv|].
  split; rewrite ?E5, ?E6, ?E7; apply Hinv.
Qed.

(** C39: the first small allocation of a thread whose heap the kernel refuses
    dereferences the null heap instead of returning null. *)
Theorem malloc_null_heap_faults (tid : nat) (size : Z) st
    (Hsz : 1 ≤ size ≤ SMALL_SIZE_MAX) (Hnull : null_heap tid st) : hm_malloc tid size st = Fault.
Proof.
  destruct (size_class_request size ltac:(lia)) as (c & s & Hc & _). unfold hm_malloc.
  destruct (Z.eqb_spec size 0); [lia|]. destruct (Z.leb_spec size SMALL_SIZE_MAX); [|lia]. by eapply heap_malloc_null.
Qed.

(** C30: hm_stats returns, changes nothing and reports exactly the objects that
    exist: the bytes reserved are the sum of the lengths of all mapped regions
    (segments, heaps, large regions, the registry's table) and never above the
    reported peak; mapped segments, pages owned by heaps, pooled pages, large
    regions and their bytes are counted; and the number of small-path calls is the
    sum of the fast-path and the slow-path ones. *)
Theorem hm_stats_correct st (Hinv : inv st) : ∃ s, hm_stats st = Ok (s, st) ∧ stats_exact st s.
Proof. destruct (proj1 (wp_ok _ _ _) (hm_stats_spec st Hinv)) as (s & st' & He & -> & Hs). eauto. Qed.
End api_theorems.

(** ** Concrete instances *)

Module ApiWitness.
Import Demo.

Lemma api_refinement_witness :
  ∃ r st', exec 0 (Realloc (Some large1) 100) demo_large = Ok (r, st') ∧ inv st' ∧
    astep (view demo_large) (Realloc (Some large1) 100) r (view st').
Proof.
  apply api_refinement; [apply inv_large|split; [apply demo_large_block|by apply word_small]|apply may_alloc_large].
Defined.

Lemma reachable_safe_witness :
  inv demo2 ∧ ((∃ r st', exec 1 (Free (Some block1)) demo2 = Ok (r, st') ∧
    astep (view demo2) (Free (Some block1)) r (view st') ∧ reach memory st') ∨ hazard 1 demo2 (Free (Some block1))).
Proof. apply reachable_safe; [apply reach2|apply demo2_blocks]. Defined.

Lemma calm_reachable_safe_witness :
  reach memory demo2 ∧
  (∃ X, reg_wf (registry demo2) X ∧ reg_room (registry demo2) ∧ ∀ b, b ∈ X ↔ is_region demo2 b) ∧
  ((∃ r st', exec 1 (Realloc (Some block1) 20000) demo2 = Ok (r, st') ∧
      astep (view demo2) (Realloc (Some block1) 20000) r (view st') ∧ calm_reach memory st') ∨
   (null_heap 1 demo2 ∧ ∃ o', os_alloc_aligned heap_bytes os_page_size (os demo2) = Ok (None, o') ∧ ¬ calm (kern o'))).
Proof.
  apply calm_reachable_safe; [apply calm_reach2|vm_compute; reflexivity|].
  split; [apply demo2_blocks|by apply word_small].
Defined.

Lemma reachable_blocks_disjoint_witness :
  ∃ n n', 0 < block1 ∧ block1 mod ALLOC_ALIGN = 0 ∧ block1 + n ≤ 2 ^ 64 ∧
    (∀ x, block1 ≤ x < block1 + n → mapped (os demo2) x = true) ∧
    ((block2 = block1 ∧ n' = n) ∨ block1 + n ≤ block2 ∨ block2 + n' ≤ block1).
Proof.
  destruct demo2_blocks as [[n Hn] [n' Hn']]. exists n, n'.
  exact (reachable_blocks_disjoint memory demo2 block1 n block2 n' reach2 Hn Hn').
Defined.

Lemma hm_malloc_correct_witness :
  ∃ x st', hm_malloc 0 16000 demo0 = Ok (x, st') ∧ alloc_post demo0 16000 ALLOC_ALIGN x st'.
Proof. apply hm_malloc_correct; [apply inv0|apply may_alloc0|lia]. Defined.

Lemma hm_free_correct_witness :
  ∃ st', hm_free 1 (Some block1) demo2 = Ok (tt, st') ∧ inv st' ∧ alloc_minus demo2 st' block1.
Proof. destruct demo2_blocks as [[n Hn] _]. exact (hm_free_correct 1 block1 n demo2 inv2 Hn). Defined.

Lemma hm_realloc_correct_witness :
  ∃ n x st', hm_realloc 0 (Some block1) 30000 demo2 = Ok (x, st') ∧ realloc_post demo2 block1 n 30000 x st'.
Proof.
  destruct demo2_blocks as [[n Hn] _]. exists n.
  exact (hm_realloc_correct 0 block1 n 30000 demo2 inv2 may_alloc2 Hn ltac:(lia)).
Defined.

Lemma hm_calloc_correct_witness :
  ∃ x st', hm_calloc 0 100 160 demo0 = Ok (x, st') ∧ calloc_post demo0 100 160 x st'.
Proof. apply hm_calloc_correct; [apply inv0|apply may_alloc0|lia|lia]. Defined.

Lemma hm_aligned_alloc_correct_witness :
  ∃ x st', hm_aligned_alloc 0 4096 10000 demo0 = Ok (x, st') ∧
    alloc_post demo0 10000 4096 x st' ∧ (is_Some x → pow2 4096 ∧ 0 < 10000).
Proof. apply hm_aligned_alloc_correct; [apply inv0|apply may_alloc0|lia|lia]. Defined.

Lemma malloc_free_roundtrip_witness :
  ∃ st2, hm_free 7 (Some large1) demo_large = Ok (tt, st2) ∧ inv st2 ∧ same_alloc demo0 st2.
Proof.
  exact (malloc_free_roundtrip 0 7 20000 large1 demo0 demo_large inv0 may_alloc0 ltac:(lia) malloc_large_run).
Defined.

Lemma api_rejects_witness :
  hm_malloc 0 0 demo0 = Ok (None, demo0) ∧
  (2 ^ 40 = 0 ∨ 2 ^ 40 = 0 ∨ 2 ^ 64 ≤ 2 ^ 40 * 2 ^ 40 → hm_calloc 0 (2 ^ 40) (2 ^ 40) demo0 = Ok (None, demo0)) ∧
  (2 ^ 40 = 0 ∨ ¬ pow2 48 ∨ SEGMENT_SIZE / 2 < 48 → hm_aligned_alloc 0 48 (2 ^ 40) demo0 = Ok (None, demo0)).
Proof. apply api_rejects; lia. Defined.

Lemma thread_exit_correct_witness :
  ∃ st', thread_exit 0 demo3 = Ok (tt, st') ∧ inv st' ∧ same_alloc demo3 st' ∧ t_heap st' = delete 0%nat (t_heap demo3).
Proof. apply thread_exit_correct. apply inv3. Defined.

(** A kernel without a page to give. *)
Definition full : @State Sim.sim_kernel := init_state (Sim.init 4096).
Definition refuses (st : @State Sim.sim_kernel) : bool :=
  match os_alloc_aligned heap_bytes os_page_size (os st) with Ok (None, _) => true | _ => false end.
Lemma full_null : null_heap 0 full.
Proof.
  assert (refuses full = true) as H by (vm_compute; reflexivity). split; [done|]. unfold refuses in H.
  destruct (os_alloc_aligned heap_bytes os_page_size (os full)) as [[[q|] o']| |]; [done| |done..]. eauto.
Qed.

Lemma malloc_null_heap_faults_witness : hm_malloc 0 100 full = Fault.
Proof. apply malloc_null_heap_faults; [by vm_compute|apply full_null]. Defined.

Lemma hm_stats_correct_witness : ∃ s, hm_stats demo3 = Ok (s, demo3) ∧ stats_exact demo3 s.
Proof. apply hm_stats_correct, inv3. Defined.
End ApiWitness.
