(* ===== verification/PartTheorems.v ===== *)
(** * What the parts of the allocator promise each other

    Pages, the central heap, the thread heaps and the drop-in entry points: the
    contract of each part as a theorem about complete operations, in the states
    the invariant allows. *)
From Stdlib Require Import ZArith Lia.
From stdpp Require Import base numbers list gmap.
From S2P Require Import Prelude Words Constants SizeClass Segment Memory Os Chains Sums RegionRegistry State Regions PageOps Allocated Central CentralInv CentralSpec PoolSpec CentralOps Acquire Heap Hmalloc HeapInv HeapLinks HeapSpec HeapCreate HeapMalloc HeapFree HeapExit LargeSpec HmallocSpec ApiSpec Client Override Demo.

Section part_theorems.
Context {K : Kernel} {KL : KernelLaws K} {Lg : Ledger} {C : Config}.
Implicit Types (st : State) (r : pageref).

(** ** Shared lemmas *)

(** An operation on one page that keeps its live blocks keeps the invariant. *)
Lemma page_step_inv st s i pg lf lt lf' lt' st' m' pg' :
  inv st → pages st !! PageAt s i = Some pg → pg_in_use pg = true → page_ok (bytes (os st)) s i pg lf lt →
  page_moved st (PageAt s i) (bytes (os st)) s i pg lf lt (live_block pg lf lt) lf' lt' st' m' pg' →
  inv st' ∧ same_alloc st st' ∧ pages st' = <[PageAt s i := pg']> (pages st) ∧
  page_ok (bytes (os st')) s i pg' lf' lt'.
Proof.
  intros H Hpg Hu Hok Hm. destruct (moved_same st s i pg lf lt (hk_mem (iv_hok H)) Hpg Hu Hok _ _ _ _ _ Hm) as [Hmem Hal].
  pose proof (pm_state Hm) as ->. split_and!; [|done|done|apply Hm].
  eapply (inv_others st); [done| |done]. eapply hok_moved; [apply H|done..|apply (pm_core Hm)|done].
Qed.

(** The memory of a page in use. *)
Lemma used_page_mapped st s i pg lf lt :
  inv st → pages st !! PageAt s i = Some pg → page_ok (bytes (os st)) s i pg lf lt → area_mapped (os st) pg.
Proof. intros H Hpg Hok. eapply page_mapped; [apply H|done|apply Hok]. Qed.

(** A page with used blocks and nothing to collect holds a live block. *)
Lemma used_live m s i pg lf :
  page_ok m s i pg lf [] → pg_used pg ≠ 0 → ∃ b, live_block pg lf [] b.
Proof.
  intros Hok Hu. destruct (decide (Forall (λ b, b ∈ lf) (carved pg))) as [Hall|Hex].
  - exfalso. rewrite Forall_forall in Hall. pose proof (used_bounds _ _ _ _ _ _ Hok) as Hb. simpl in Hb.
    pose proof (submseteq_length _ _ (NoDup_submseteq _ _ (carved_NoDup _ _ _ (po_geom Hok)) Hall)) as Hl.
    unfold carved in Hl. rewrite length_fmap, length_seqZ in Hl. pose proof (po_used Hok). pose proof (po_res Hok). lia.
  - apply not_Forall_Exists, Exists_exists in Hex as (b & Hb & Hn); [|apply _]. exists b. split_and!; [done..|set_solver].
Qed.

(** An allocated pointer into a segment is a live block of the page its address
    names. *)
Lemma allocated_live st s i pg p n :
  inv st → allocated st p n → page_of (segment_of p) p = PageAt s i → pages st !! PageAt s i = Some pg →
  larges st !! region_base p = None → live_at st s i pg p.
Proof.
  intros H [(s' & i' & pg' & Hl & _)|(b & h & Hh & -> & _)]%allocated_cases Ep Hpg Hn.
  - rewrite (live_page_of _ _ _ _ _ Hl) in Ep. injection Ep as -> ->. pose proof Hl as (Hpg' & _).
    rewrite Hpg in Hpg'. by injection Hpg' as ->.
  - exfalso. rewrite (large_base st b h (hk_mem (iv_hok H)) Hh) in Hn. congruence.
Qed.

(** The blocks page_extend carves, counted from the start of the page. *)
Lemma fresh_blocks_seqZ pg :
  fresh_blocks pg = (λ k, pg_area pg + k * pg_block_size pg) <$> seqZ (pg_reserved pg) (extend_batch pg).
Proof.
  unfold fresh_blocks, blocks_from. pose proof (fmap_add_seqZ (pg_reserved pg) 0 (extend_batch pg)) as E.
  rewrite Z.add_0_r in E. rewrite <- E, <- list_fmap_compose. apply list_fmap_ext. intros ? k _. simpl. lia.
Qed.

Lemma batch_bounds s i pg :
  page_geom s i pg → 0 ≤ pg_reserved pg < pg_capacity pg →
  1 ≤ extend_batch pg ∧ (extend_batch pg = 1 ∨ extend_batch pg * pg_block_size pg ≤ 8192) ∧
  pg_reserved pg + extend_batch pg ≤ pg_capacity pg.
Proof.
  intros Hg Hr. destruct (block_size_bounds _ _ _ Hg) as [Hb _].
  pose proof (Z.mul_div_le 8192 (pg_block_size pg) ltac:(lia)). unfold extend_batch. split_and!; [lia| |lia].
  destruct (Z.le_gt_cases (8192 / pg_block_size pg) 1); [left; lia|right; nia].
Qed.

(** ** Pages *)

(** C20: page_collect moves every block other threads have freed to the local
    list, once each: the cross-thread list is empty afterwards, [used] drops by
    the number of blocks collected, and no client's block changes. *)
Theorem page_collect_correct (s i : Z) (pg : Page) (lf lt : list Z) st
    (Hinv : inv st) (Hpg : pages st !! PageAt s i = Some pg) (Hu : pg_in_use pg = true)
    (Hok : page_ok (bytes (os st)) s i pg lf lt) :
  ∃ st' pg', page_collect (PageAt s i) st = Ok (tt, st') ∧ inv st' ∧ same_alloc st st' ∧
    pages st' = <[PageAt s i := pg']> (pages st) ∧ page_ok (bytes (os st')) s i pg' (lt ++ lf) [] ∧
    pg_used pg' = pg_used pg - Z.of_nat (length lt).
Proof.
  pose proof (page_collect_moved st (PageAt s i) _ s i pg lf lt Hok (used_page_mapped _ _ _ _ _ _ Hinv Hpg Hok)) as Hw.
  rewrite (page_state_id _ _ _ Hpg) in Hw. apply wp_ok in Hw as ([] & st' & He & m' & pg' & Hm & Hr).
  destruct (page_step_inv _ _ _ _ _ _ _ _ _ _ _ Hinv Hpg Hu Hok Hm) as (Hi & Ha & Hp & Hk).
  exists st', pg'. split_and!; try done. rewrite (po_used Hk), (po_used Hok), Hr, length_app. lia.
Qed.

(** C26: page_make_available serves whenever the page can: it fails only when
    every block of the page's capacity is carved and live; otherwise there is a
    block on the local list afterwards.  Either way no client's block changes. *)
Theorem page_make_available_correct (s i : Z) (pg : Page) (lf lt : list Z) st
    (Hinv : inv st) (Hpg : pages st !! PageAt s i = Some pg) (Hu : pg_in_use pg = true)
    (Hok : page_ok (bytes (os st)) s i pg lf lt) :
  ∃ ok st' pg' lf' lt', page_make_available (PageAt s i) st = Ok (ok, st') ∧ inv st' ∧ same_alloc st st' ∧
    pages st' = <[PageAt s i := pg']> (pages st) ∧ page_ok (bytes (os st')) s i pg' lf' lt' ∧
    (if ok then lf' ≠ [] else ∀ k, 0 ≤ k < pg_capacity pg → allocated st' (pg_area pg + k * pg_block_size pg) (pg_block_size pg)).
Proof.
  pose proof (page_make_available_moved st (PageAt s i) _ s i pg lf lt Hok (used_page_mapped _ _ _ _ _ _ Hinv Hpg Hok)) as Hw.
  rewrite (page_state_id _ _ _ Hpg) in Hw. apply wp_ok in Hw as (ok & st' & He & lf' & lt' & m' & pg' & Hm & Hr).
  destruct (page_step_inv _ _ _ _ _ _ _ _ _ _ _ Hinv Hpg Hu Hok Hm) as (Hi & Ha & Hp & Hk).
  exists ok, st', pg', lf', lt'. split_and!; try done. destruct ok; [done|]. destruct Hr as (-> & -> & Hc).
  intros k Hk'. apply Ha. eapply live_allocated; [done..|]. split; [|set_solver].
  apply list_elem_of_fmap. exists k. split; [done|]. apply elem_of_seqZ. lia.
Qed.

(** C27: page_extend carves at least one block and at most 8 KiB of them (one if
    the block is larger), never beyond the page's capacity; all of them are put
    on the local list in address order, in front of what was there, inside the
    page's own area. *)
Theorem page_extend_correct (s i : Z) (pg : Page) (lf lt : list Z) st
    (Hinv : inv st) (Hpg : pages st !! PageAt s i = Some pg) (Hu : pg_in_use pg = true)
    (Hok : page_ok (bytes (os st)) s i pg lf lt) (Hroom : pg_reserved pg < pg_capacity pg) :
  ∃ st' pg' n, page_extend (PageAt s i) st = Ok (tt, st') ∧ inv st' ∧ same_alloc st st' ∧
    pages st' = <[PageAt s i := pg']> (pages st) ∧
    1 ≤ n ∧ (n = 1 ∨ n * pg_block_size pg ≤ 8192) ∧ pg_reserved pg' = pg_reserved pg + n ∧ pg_reserved pg + n ≤ pg_capacity pg ∧
    page_ok (bytes (os st')) s i pg'
      (((λ k, pg_area pg + k * pg_block_size pg) <$> seqZ (pg_reserved pg) n) ++ lf) lt.
Proof.
  pose proof (page_extend_ps st (PageAt s i) _ s i pg lf lt Hok (used_page_mapped _ _ _ _ _ _ Hinv Hpg Hok) Hroom) as Hw1.
  pose proof (page_extend_moved st (PageAt s i) _ s i pg lf lt Hok (used_page_mapped _ _ _ _ _ _ Hinv Hpg Hok) Hroom) as Hw.
  rewrite (page_state_id _ _ _ Hpg) in Hw, Hw1. apply wp_ok in Hw as ([] & st' & He & m' & pg' & Hm).
  destruct (page_step_inv _ _ _ _ _ _ _ _ _ _ _ Hinv Hpg Hu Hok Hm) as (Hi & Ha & Hp & Hk).
  unfold wp in Hw1. rewrite He in Hw1. destruct Hw1 as (m2 & pg2 & -> & _ & _ & Hr & _).
  assert (pg2 = pg') as ->.
  { apply (f_equal (λ P, P !! PageAt s i)) in Hp. simpl in Hp. rewrite !lookup_insert_eq in Hp. by injection Hp. }
  pose proof (po_res Hok). pose proof (batch_bounds s i pg (po_geom Hok) ltac:(lia)) as (? & ? & ?).
  eexists _, pg', (extend_batch pg). split_and!; try done. by rewrite <- fresh_blocks_seqZ.
Qed.

(** C28: the machine-width members of every page in use stay in their meaningful
    range: [used <= reserved <= capacity <= 4096], the block size is a positive
    multiple of 16 that the capacity times fits in the 64 KiB page, and the
    size class is the one of the block size. *)
Theorem page_fields_typed (o : OsState) (s i : Z) (pg : Page) st
    (Hreach : reach o st) (Hpg : pages st !! PageAt s i = Some pg) (Hu : pg_in_use pg = true) :
  FIRST_USABLE_PAGE ≤ i < PAGES_PER_SEGMENT ∧ pg_area pg = page_area s i ∧
  0 ≤ pg_used pg ≤ pg_reserved pg ∧ pg_reserved pg ≤ pg_capacity pg ∧ 4 ≤ pg_capacity pg ≤ 4096 ∧
  16 ≤ pg_block_size pg ≤ SMALL_SIZE_MAX ∧ pg_block_size pg mod ALLOC_ALIGN = 0 ∧
  pg_capacity pg * pg_block_size pg ≤ PAGE_SIZE ∧ size_class (pg_block_size pg) = Some (pg_size_class pg).
Proof.
  destruct (mo_blocks (hk_mem (iv_hok (reach_inv _ _ Hreach))) s i pg Hpg Hu) as (lf & lt & Hok).
  pose proof (po_geom Hok) as Hg. destruct (block_size_bounds _ _ _ Hg) as [Hb Hb16].
  destruct (capacity_bounds _ _ _ Hg) as [Hc Hcb]. pose proof (used_bounds _ _ _ _ _ _ Hok).
  pose proof (po_used Hok). pose proof (po_res Hok).
  split_and!; try done; try lia; [apply Hg..|]. by eapply size_class_of_class; apply Hg.
Qed.

(** ** The places of a page *)

(** C11: every usable page of every segment is in exactly the list its members
    say: an idle page in the free list of its segment, a page owned by a heap in
    the list of its size class of that heap, a page of an exited thread in the
    abandoned list; and the segment is in the list of available segments exactly
    when it has an idle page. *)
Theorem pages_accounted (o : OsState) (s i : Z) (pg : Page) st
    (Hreach : reach o st) (Hpg : pages st !! PageAt s i = Some pg) (Hi : FIRST_USABLE_PAGE ≤ i) :
  ∃ g, segs st !! s = Some g ∧
  (if pg_in_use pg then
     (∃ a h L, pg_owner pg = Some (HeapAt a) ∧ heaps st !! a = Some h ∧
        class_list (pages st) a h (pg_size_class pg) L ∧ PageAt s i ∈ L) ∨
     (∃ L, pg_owner pg = Some ABANDONED_OWNER ∧
        chain (pg_nxt (pages st)) (c_abandoned (central st)) L ∧ PageAt s i ∈ L)
   else ∃ L, chain (pg_nxt (pages st)) (sg_free_list g) L ∧ PageAt s i ∈ L) ∧
  (∃ A, dchain (sg_links (segs st)) None (c_avail (central st)) A ∧ (s ∈ A ↔ sg_free_count g ≠ 0)).
Proof.
  pose proof (iv_hok (reach_inv _ _ Hreach)) as Hk. destruct (hk_central Hk) as [Hc Hav].
  pose proof (co_pages Hc) as Hp. destruct (proj1 (pk_dom _ _ Hp s i) ltac:(eauto)) as [[g Hg] Hir].
  exists g. split_and!; [done| |].
  - destruct (pg_in_use pg) eqn:Hu.
    + destruct (pk_owner _ _ Hp _ _ Hpg Hu) as [[|a] Ho].
      * right. destruct (co_aband Hc) as (L & [HL Hin] & _). exists L. split_and!; [done..|]. apply Hin.
        exists pg. split; [done|]. unfold is_abandoned. rewrite Hu, Ho. by rewrite !bool_decide_true.
      * left. destruct (hi_owner (hk_heaps Hk) _ _ _ Hpg Hu Ho) as [h Hh].
        destruct (mo_blocks (hk_mem Hk) s i pg Hpg Hu) as (lf & lt & Hok).
        destruct (hi_list (hk_heaps Hk) a h (pg_size_class pg) Hh (pq_class (po_geom Hok)) ltac:(done)) as (L & HL).
        exists a, h, L. split_and!; [done..|]. apply HL. by exists pg.
    + destruct (so_free (co_seg Hc s g Hg)) as (L & HL & Hin & _). exists L. split; [done|]. apply Hin. exists i, pg. split_and!; [done|lia|lia|done|done].
  - destruct Hav as (A & [HA _] & HinA). exists A. split; [done|]. rewrite HinA. unfold has_free. naive_solver.
Qed.

(** C19: between calls at most [SEGMENT_CACHE] mapped segments are fully idle:
    the allocator gives every other idle segment back to the OS. *)
Theorem segment_cache_bounded (o : OsState) st (Hreach : reach o st) :
  msum (λ _, full_free) (segs st) ≤ SEGMENT_CACHE ∧
  c_free_segments (central st) = msum (λ _, full_free) (segs st).
Proof.
  destruct (hk_central (iv_hok (reach_inv _ _ Hreach))) as [Hc _].
  pose proof (co_fsegs Hc). pose proof (co_cache Hc). lia.
Qed.

(** ** The central heap *)

(** C25: central_acquire_page returns, and either hands the heap a page no heap
    owned, in use, with its class set and no block carved, or fails; no other
    page of a heap and no client's block changes. *)
Theorem central_acquire_correct (a cls bs : Z) st
    (Hinv : inv st) (Hroom : reg_room (registry st)) (Hc : 0 ≤ cls < kNumSizeClasses)
    (Hbs : class_to_size cls = Some bs) :
  ∃ x st', central_acquire_page (HeapAt a) cls bs st = Ok (x, st') ∧
    match x with Some r => acquired st a cls bs r st' | None => central_frame st st' end.
Proof. apply wp_ok, central_acquire_spec; [apply (iv_hok Hinv)..|done|done|done]. Qed.

(** [central_release_page] takes an empty page out of use: it goes to the pool
    of its segment, or its whole segment is unmapped and unregistered; every
    other page in use and every client's block stays as it was. *)
Theorem central_release_correct (a : Z) (pg : Page) r st
    (Hinv : inv st) (Hpg : pages st !! r = Some pg) (Hu : pg_in_use pg = true)
    (Ho : pg_owner pg = Some (HeapAt a)) (Hempty : pg_used pg = 0) :
  ∃ st', central_release_page r st = Ok (tt, st') ∧ pool_post r st st'.
Proof.
  pose proof (iv_hok Hinv) as Hk. destruct (in_use_at _ _ _ _ Hk Hpg Hu) as (s & i & ->).
  destruct (proj1 (wp_ok _ _ _) (central_release_spec st (PageAt s i) pg (hk_central Hk) (hk_mem Hk) ltac:(discriminate) Hpg (conj Hu (ex_intro _ a Ho)) Hempty)) as ([] & st' & ? & ?).
  eauto.
Qed.

(** C16: the sweep reclaims every abandoned page whose blocks have all been
    freed: it returns, and each page it leaves on the abandoned list holds a
    block that some client still holds; heaps and clients see no change. *)
Theorem sweep_reclaims st (Hinv : inv st) :
  ∃ st', sweep_abandoned st = Ok (tt, st') ∧ inv st' ∧ same_alloc st st' ∧
    ∀ r pg, pages st' !! r = Some pg → pg_in_use pg = true → pg_owner pg = Some ABANDONED_OWNER →
      ∃ b n, allocated st' b n ∧ page_of (segment_of b) b = r.
Proof.
  pose proof (iv_hok Hinv) as Hk.
  destruct (proj1 (wp_ok _ _ _) (sweep_abandoned_spec st (hk_central Hk) (hk_mem Hk))) as ([] & st' & He & Hs & L & [_ HL] & Hsw).
  pose proof (sweep_central_frame _ _ Hs) as Hf. pose proof (hok_central_frame _ _ _ Hk Hf) as Hk'.
  exists st'. split_and!; [done|apply (inv_others st st' Hinv Hk'), Hf|apply Hf|]. intros r pg Hpg Hu Ho.
  destruct (Hsw r) as (pg' & Hpg' & Hused & Ht).
  { apply HL. exists pg. split; [done|]. unfold is_abandoned. rewrite Hu, Ho. by rewrite !bool_decide_true. }
  assert (pg' = pg) as -> by congruence. destruct (in_use_at _ _ _ _ Hk' Hpg Hu) as (s & i & ->).
  destruct (mo_blocks (hk_mem Hk') s i pg Hpg Hu) as (lf & lt & Hok). pose proof (po_tfree Hok) as Hc.
  rewrite Ht in Hc. apply chain_none in Hc as ->. destruct (used_live _ _ _ _ _ Hok Hused) as [b Hb].
  exists b, (pg_block_size pg). split; [by eapply live_allocated|]. eapply live_page_of. by split_and!; eauto.
Qed.

(** ** The thread heap *)

(** C18: the owner of the page at the front of a class who frees a block of it
    gets that very block back from the next allocation of the class, without
    touching another page. *)
Theorem free_malloc_lifo (tid : nat) (a : Z) (h : Heap) (s i : Z) (pg : Page) (p size : Z) st
    (Hinv : inv st) (Hma : may_alloc tid st) (Hl : live_at st s i pg p)
    (Ht : t_heap st !! tid = Some a) (Hh : heaps st !! a = Some h) (Ho : pg_owner pg = Some (HeapAt a))
    (Hhead : h_pages h !! Z.to_nat (pg_size_class pg) = Some (Some (PageAt s i)))
    (Hsz : 1 ≤ size ≤ SMALL_SIZE_MAX) (Hc : size_class size = Some (pg_size_class pg)) :
  ∃ st1 st2, hm_free tid (Some p) st = Ok (tt, st1) ∧ hm_malloc tid size st1 = Ok (Some p, st2) ∧ inv st2.
Proof.
  assert (wp (hm_free tid (Some p)) (λ _ st1, inv st1 ∧ others_same st st1 ∧ registry st1 = registry st ∧
    fast_block st1 h (pg_size_class pg) p) st) as Hf.
  { simpl. apply wp_bind. eapply wp_mono; [by eapply kind_small|]. intros k st' [-> ->].
    rewrite bool_decide_false by done. eapply wp_mono; [by apply (heap_free_head st tid a h s i pg p (iv_hok Hinv))|].
    intros [] st1 (H1 & H2 & H3 & H4). split_and!; [by eapply inv_others|done..]. }
  apply wp_ok in Hf as ([] & st1 & He & Hi1 & Hot & Hreg & Hfb). exists st1.
  assert (¬ null_heap tid st1) as Hnn by (intros [Hn _]; rewrite (ot_thread _ _ Hot) in Hn; congruence).
  assert (0 ≤ pg_size_class pg < kNumSizeClasses) as Hcr.
  { destruct Hl as (_ & _ & lf & lt & Hok & _). apply (po_geom Hok). }
  pose proof (heap_malloc_spec st1 tid size _ (iv_hok Hi1) ltac:(rewrite Hreg; apply Hma) Hnn Hc Hcr) as Hw.
  apply wp_ok in Hw as (x & st2 & He2 & Hd). exists st2. split; [done|].
  assert (x = Some p) as ->.
  { eapply (md_fast _ _ _ _ _ Hd a h p); [by rewrite (ot_thread _ _ Hot)|by rewrite (ot_heaps _ _ Hot)|done]. }
  split; [|by eapply inv_done]. unfold hm_malloc. destruct (Z.eqb_spec size 0); [lia|].
  by destruct (Z.leb_spec size SMALL_SIZE_MAX); [|lia].
Qed.

(** ** The drop-in entry points *)

Context (real_free : option (Z → M State unit)) (real_realloc : option (Z → Z → M State (option Z)))
  (real_usable : option (Z → M State Z)).


(** C33: posix_memalign: EINVAL with nothing changed exactly for a null [out], an
    alignment below a pointer or not a power of two; ENOMEM with no block
    changed; otherwise 0 and an aligned block, never the null pointer, also for
    [size] zero. *)
Theorem posix_memalign_correct (tid : nat) (out : bool) (alignment size : Z) st
    (Hinv : inv st) (Hma : may_alloc tid st) (Ha : 0 ≤ alignment < 2 ^ 64) (Hs : 0 ≤ size < 2 ^ 64) :
  ∃ x st', posix_memalign tid out alignment size st = Ok (x, st') ∧ memalign_post st out alignment size x st'.
Proof. by apply wp_ok, posix_memalign_spec. Qed.

(** Operator new never returns null: a block of at least max(1, size) bytes
    or bad_alloc, aligned form included. *)
Theorem operator_new_correct (tid : nat) (s al : Z) st
    (Hinv : inv st) (Hma : may_alloc tid st) (Hs : 0 ≤ s < 2 ^ 64) (Hal : 0 ≤ al < 2 ^ 64) :
  (∃ x st', operator_new tid s st = Ok (x, st') ∧ new_post st s ALLOC_ALIGN x st') ∧
  (∃ x st', operator_new_aligned tid s al st = Ok (x, st') ∧ new_post st s al x st').
Proof. split; apply wp_ok; [by apply operator_new_spec|by apply operator_new_aligned_spec]. Qed.
End part_theorems.

(** ** Concrete instances *)

Module PartWitness.
Import Demo.

Lemma page_collect_correct_witness :
  ∃ st' pg', page_collect page_ref demo3 = Ok (tt, st') ∧ inv st' ∧ same_alloc demo3 st' ∧
    pages st' = <[page_ref := pg']> (pages demo3) ∧ page_ok (bytes (os st')) seg 63 pg' [block1] [] ∧
    pg_used pg' = pg_used page3 - 1.
Proof. exact (page_collect_correct seg 63 page3 [] [block1] demo3 inv3 page3_at (proj1 page3_use) page3_ok). Defined.

Lemma page_make_available_correct_witness :
  ∃ ok st' pg' lf' lt', page_make_available page_ref demo3 = Ok (ok, st') ∧ inv st' ∧ same_alloc demo3 st' ∧
    pages st' = <[page_ref := pg']> (pages demo3) ∧ page_ok (bytes (os st')) seg 63 pg' lf' lt' ∧
    (if ok then lf' ≠ [] else
     ∀ k, 0 ≤ k < pg_capacity page3 → allocated st' (pg_area page3 + k * pg_block_size page3) (pg_block_size page3)).
Proof. exact (page_make_available_correct seg 63 page3 [] [block1] demo3 inv3 page3_at (proj1 page3_use) page3_ok). Defined.

Lemma page_extend_correct_witness :
  ∃ st' pg' n, page_extend page_ref demo2 = Ok (tt, st') ∧ inv st' ∧ same_alloc demo2 st' ∧
    pages st' = <[page_ref := pg']> (pages demo2) ∧
    1 ≤ n ∧ (n = 1 ∨ n * pg_block_size page2 ≤ 8192) ∧ pg_reserved pg' = pg_reserved page2 + n ∧
    pg_reserved page2 + n ≤ pg_capacity page2 ∧
    page_ok (bytes (os st')) seg 63 pg'
      (((λ k, pg_area page2 + k * pg_block_size page2) <$> seqZ (pg_reserved page2) n) ++ []) [].
Proof.
  exact (page_extend_correct seg 63 page2 [] [] demo2 inv2 page2_at (proj1 page2_use) page2_ok
    ltac:(vm_compute; reflexivity)).
Defined.

Lemma page_fields_typed_witness :
  FIRST_USABLE_PAGE ≤ 63 < PAGES_PER_SEGMENT ∧ pg_area page3 = page_area seg 63 ∧
  0 ≤ pg_used page3 ≤ pg_reserved page3 ∧ pg_reserved page3 ≤ pg_capacity page3 ∧ 4 ≤ pg_capacity page3 ≤ 4096 ∧
  16 ≤ pg_block_size page3 ≤ SMALL_SIZE_MAX ∧ pg_block_size page3 mod ALLOC_ALIGN = 0 ∧
  pg_capacity page3 * pg_block_size page3 ≤ PAGE_SIZE ∧ size_class (pg_block_size page3) = Some (pg_size_class page3).
Proof. exact (page_fields_typed memory seg 63 page3 demo3 reach3 page3_at (proj1 page3_use)). Defined.

Definition page_exit : Page := default zero_page (pages demo_exit !! page_ref).
Lemma page_exit_at : pages demo_exit !! page_ref = Some page_exit.
Proof. vm_compute. reflexivity. Qed.

Lemma pages_accounted_witness :
  ∃ g, segs demo_exit !! seg = Some g ∧
  (if pg_in_use page_exit then
     (∃ a h L, pg_owner page_exit = Some (HeapAt a) ∧ heaps demo_exit !! a = Some h ∧
        class_list (pages demo_exit) a h (pg_size_class page_exit) L ∧ page_ref ∈ L) ∨
     (∃ L, pg_owner page_exit = Some ABANDONED_OWNER ∧
        chain (pg_nxt (pages demo_exit)) (c_abandoned (central demo_exit)) L ∧ page_ref ∈ L)
   else ∃ L, chain (pg_nxt (pages demo_exit)) (sg_free_list g) L ∧ page_ref ∈ L) ∧
  (∃ A, dchain (sg_links (segs demo_exit)) None (c_avail (central demo_exit)) A ∧ (seg ∈ A ↔ sg_free_count g ≠ 0)).
Proof. exact (pages_accounted memory seg 63 page_exit demo_exit reach_exit page_exit_at ltac:(vm_compute; discriminate)). Defined.

Lemma segment_cache_bounded_witness :
  msum (λ _, full_free) (segs demo_exit) ≤ SEGMENT_CACHE ∧
  c_free_segments (central demo_exit) = msum (λ _, full_free) (segs demo_exit).
Proof. exact (segment_cache_bounded memory demo_exit reach_exit). Defined.

Lemma central_acquire_correct_witness :
  ∃ x st', central_acquire_page (HeapAt 4096) 0 16 demo2 = Ok (x, st') ∧
    match x with Some r => acquired demo2 4096 0 16 r st' | None => central_frame demo2 st' end.
Proof. apply central_acquire_correct; [apply inv2|apply may_alloc2|by vm_compute|vm_compute; reflexivity]. Defined.

Definition page_empty : Page := default zero_page (pages demo_empty !! page_ref).
Lemma page_empty_at : pages demo_empty !! page_ref = Some page_empty.
Proof. vm_compute. reflexivity. Qed.

Lemma central_release_correct_witness :
  ∃ st', central_release_page page_ref demo_empty = Ok (tt, st') ∧ pool_post page_ref demo_empty st'.
Proof.
  apply (central_release_correct 4096 page_empty page_ref demo_empty inv_empty page_empty_at); vm_compute; reflexivity.
Defined.

Lemma sweep_reclaims_witness :
  ∃ st', sweep_abandoned demo_exit = Ok (tt, st') ∧ inv st' ∧ same_alloc demo_exit st' ∧
    ∀ r pg, pages st' !! r = Some pg → pg_in_use pg = true → pg_owner pg = Some ABANDONED_OWNER →
      ∃ b n, allocated st' b n ∧ page_of (segment_of b) b = r.
Proof. exact (sweep_reclaims demo_exit inv_exit). Defined.

Definition heap2 : Heap := default zero_heap (heaps demo2 !! 4096).
Lemma live2 : live_at demo2 seg 63 page2 block1.
Proof.
  destruct demo2_blocks as [[n Hn] _].
  apply (allocated_live demo2 seg 63 page2 block1 n inv2 Hn); [vm_compute; reflexivity|apply page2_at|vm_compute; reflexivity].
Qed.

Lemma free_malloc_lifo_witness :
  ∃ st1 st2, hm_free 0 (Some block1) demo2 = Ok (tt, st1) ∧ hm_malloc 0 16000 st1 = Ok (Some block1, st2) ∧ inv st2.
Proof.
  apply (free_malloc_lifo 0 4096 heap2 seg 63 page2 block1 16000 demo2 inv2 may_alloc2 live2);
    first [lia | by vm_compute | vm_compute; reflexivity].
Defined.


(** The registry of the first run holds its only region. *)
Definition regions (st : @State Sim.sim_kernel) : list Z :=
  (map_to_list (segs st)).*1 ++ (map_to_list (larges st)).*1.
Lemma region_listed st b : is_region st b → b ∈ regions st.
Proof.
  intros [[x Hx]|[x Hx]]; apply elem_of_map_to_list in Hx; apply elem_of_app; [left|right];
    apply list_elem_of_fmap; by exists (b, x).
Qed.
Lemma block1_registered : registered demo1 block1.
Proof.
  eapply (ours_registered demo1 block1 (snd (from_ok (false, demo1) (ours block1 demo1)))); [apply inv1|by vm_compute|].
  apply run_ok; vm_compute; reflexivity.
Qed.
Lemma complete1 : inv (Lg:=complete) demo1.
Proof.
  apply (inv_complete demo1 inv1). destruct block1_registered as (X & Hwf & Hin). exists X. split; [done|].
  split; [by vm_compute|]. intros b Hb%region_listed.
  assert (regions demo1 = [seg]) as E by (vm_compute; reflexivity). rewrite E in Hb.
  apply list_elem_of_singleton in Hb as ->. by replace seg with (region_base block1) by (vm_compute; reflexivity).
Qed.
Lemma runs12 : runs demo1 demo2.
Proof. eapply (runs_step _ demo1 0 (Malloc 16000)); [constructor|by apply word_small|apply may_alloc1|apply run1_ok]. Qed.

(** Both ways to know that the registry of [demo2] is complete. *)
Lemma tracked_complete : tracked demo2.
Proof. left. exists demo1. split; [apply complete1|apply runs12]. Qed.


Lemma posix_memalign_correct_witness :
  ∃ x st', posix_memalign 0 true 64 0 demo2 = Ok (x, st') ∧ memalign_post demo2 true 64 0 x st'.
Proof. apply posix_memalign_correct; [apply inv2|apply may_alloc2|lia|lia]. Defined.

Lemma operator_new_correct_witness :
  (∃ x st', operator_new 0 0 demo2 = Ok (x, st') ∧ new_post demo2 0 ALLOC_ALIGN x st') ∧
  (∃ x st', operator_new_aligned 0 0 256 demo2 = Ok (x, st') ∧ new_post demo2 0 256 x st').
Proof. apply operator_new_correct; [apply inv2|apply may_alloc2|lia|lia]. Defined.
End PartWitness.
